(* ===== verification/_CoqProject ===== *)
-Q . S2P
Prelude.v
External.v
Wordlist.v
Codephrases.v
Hash.v
Targets.v
Keys.v
Ssh.v
Jobs.v
Messages.v
Headers.v
Addresses.v
Authn.v
Login.v
Rack.v
Certs.v
Proxy.v
ProxyFacts.v
History.v
Boundary.v
Locker.v
Slots.v
Executor.v
State.v
Sled.v
StateFacts.v
SessionFacts.v
StatusFacts.v
SledFacts.v
Manager.v
Output.v
Download.v
Server.v
EndToEnd.v
JobIo.v
Job.v
JobFacts.v
JobOutput.v
JobClients.v
Spawn.v
SpawnFacts.v
JobLife.v
Child.v
Agent.v
ClientLogin.v
LoginFlow.v
ClientErrors.v
TargetArgs.v
Watch.v
Effects.v
Commands.v
CommandFacts.v
ClientRack.v
Attach.v
AttachFacts.v
Ephemeral.v
EphemeralFacts.v
ProxyTls.v
ProxyTlsFacts.v
ScopedUrls.v
Tunnel.v
Config.v
ConfigFacts.v
Repl.v
ReplFacts.v
CertChain.v
Dispatch.v
Display.v
Format.v
Records.v
Wire.v
Gossip.v
Reference.v
Traces.v
Examples.v
JobExamples.v
ClientExamples.v
CommandExamples.v
ConfigExamples.v
TlsExamples.v
