(* ===== verification/Prelude.v ===== *)
(** * Sush: the Support Shell, modelled and verified

    Sush lets a support engineer run signed jobs on the sleds of a rack.  Every
    sled runs a server ([server/]); the servers share one causally ordered gossip
    set, and each folds it through the same state machine.  A proxy ([proxy/])
    authenticates people and forwards their requests.  [common/] holds what all
    of them share: identifiers, keys, signed requests, statuses.  This library
    models that core and proves it correct.  Paths below are relative to [src/].

    ** How the parts interact

    A client logs in at the proxy ([Login.v]) with an SSH signature over a fresh
    challenge, which it has its SSH agent make ([Agent.v]), and then signs every
    request with an ephemeral key ([ClientLogin.v], [Authn.v], [Headers.v]). The
    proxy checks a request and forwards it to a sled ([Proxy.v]); the sled's server
    takes the requester from the headers and calls its manager ([Server.v]), which
    checks the request against the published state and sends it as a gossip message
    ([Manager.v], [Messages.v]). Every sled feeds each message to its state machine
    ([State.v]), which keeps the rack view ([Rack.v]), the trust anchors
    ([Certs.v]), the job history ([History.v]), the session with its queue, and its
    own past. The machine emits jobs for the executor ([Executor.v]), endings for
    the boundary store ([Boundary.v], [Records.v], durable through [Locker.v] and
    [Format.v]), and events to gossip; the driver ([Sled.v]) carries them between
    the parts and swaps universes when the gossip manager ([Gossip.v]) joins another
    one. A launched job's files, command and environment are laid out ([Spawn.v]);
    the job runs in a loop of its own ([JobIo.v], [Job.v]) that records its output,
    serves its attached clients and kills it when told to; the recorded files
    ([Output.v]) are fetched in chunks by the client ([Download.v]).

    The client's commands are programs over requests, files and questions
    ([Effects.v], [Commands.v]) on the session it tracks; its options cascade from
    the command line to the configuration file ([Config.v]), and the REPL keeps its
    connection and its login in step with them ([Repl.v]).  It talks to a proxy whose
    certificate a root of trust vouches for ([Ephemeral.v], [ProxyTls.v]), over a
    tunnel if told so ([Tunnel.v]), and attaches to running jobs ([Attach.v]).

    ** Files, in dependency order

    - [Prelude.v] (this file): results, the [let?] notation, bytes and big-endian
      integers, ordered sets as lists, [find_first], shared tactics and hints,
      evaluation, loops that end.
    - [External.v]: one type class per foreign crate, with the laws relied on:
      [BaseboardOps] ([sled_hardware_types]), [Rumors] (causal versions),
      [Sha3], [LruCache], [Pki] ([x509_cert], [ecdsa], [ed25519_dalek]) and
      [Ssh] ([ssh_key]).  Everything after it is proved for any instance;
      [Reference.v] has an executable instance of each.
    - [Wordlist.v], [Codephrases.v]: [common/src/wordlist.rs] and
      [codephrases.rs].  A [U256] is an [N]; each [codephrase_newtype!] is a
      [Phrase] tagged with its name.
    - [Hash.v]: [common/src/hash.rs] and [ToBeSignedFields] of [keys.rs]; a
      hasher is the bytes it absorbed.
    - [Targets.v], [Keys.v], [Ssh.v], [Jobs.v]: [common/src/targets.rs],
      [keys.rs] (certificates, then SSH keys) and [jobs.rs].
    - [Messages.v]: [server/src/messages.rs], [JobStartParams] and [JobWait] of
      [api/src/lib.rs].
    - [Addresses.v]: socket addresses and the IPv6 parser of the standard library.
    - [Headers.v], [Authn.v]: [common/src/authn.rs]; [Login.v]:
      [proxy/src/login.rs]; [Proxy.v]: [proxy/src/lib.rs], with its theorems in
      [ProxyFacts.v].
    - [Rack.v], [Certs.v], [History.v]: the modules of the same names in
      [server/src/].  [Boundary.v] is [locker/boundary.rs] in memory, [Locker.v]
      is [locker.rs], [Executor.v] the synchronous half of [executor.rs].
    - [State.v]: [server/src/state.rs], one definition per method of [State], in
      source order.  A method [fn f(&mut self, ...) -> Vec<Output>] is a function
      [f : State -> ... -> State * list Output]; [Input], [Output], [Past],
      [SessionState] and [State] are the source's types.  [reachable] is the
      set of states some life of a server can be in.
    - [Sled.v]: [StateManager] of the same file, with the launcher and the
      boundary store it talks to: an event per arm of its loop, per turn of the
      launcher or the store, and per crash.
    - [StateFacts.v], [SessionFacts.v], [StatusFacts.v], [SledFacts.v]: their
      theorems.
    - [Manager.v]: [server/src/manager.rs], with theorems that relate its checks
      to what the machine then does.
    - [Output.v]: [server/src/output.rs]; [Download.v]: the download of
      [client/src/commands.rs] against it.
    - [Server.v]: [server/src/server.rs] and [error.rs]; [EndToEnd.v]: a request
      from the proxy to gossip.
    - [JobIo.v]: [server/src/io.rs], [mux.rs], [common/src/interactive.rs];
      [Job.v]: the loop of [server/src/job.rs], a turn per ready arm, with the
      time it is taken at.  [JobFacts.v], [JobOutput.v], [JobClients.v]: theorems
      on its kills and its end, on its output, on its clients.
    - [Slots.v]: the lock files of [server/src/locker.rs], claimed and healed by the
      lockers of several processes.  [Child.v]: [JobChild] of [spawn.rs], over
      processes and contracts whose identifiers are reused.  [Wire.v]: [server/src/messages.rs]
      between builds, and the limits of [api/src/lib.rs].
    - [Spawn.v]: [job_spawn] of [executor.rs] and [spawn.rs], over a host that is
      a map of files; [SpawnFacts.v]: its theorems; [JobLife.v]: a job from its
      launch to the download of its output.
    - [Agent.v]: [client/src/agent.rs] and [identity.rs]; [ClientLogin.v]: the
      request hook of [client/src/lib.rs], [Authz] of [context.rs] and
      [with_login] of [commands.rs], as interleaved calls over shared state;
      [LoginFlow.v]: both against the proxy.
    - [ClientErrors.v], [TargetArgs.v], [Watch.v]: the errors, the target arguments
      and [job_watch] of [client/src/commands.rs].  [Effects.v]: what a command can
      ask for, programs over it, and their runs against a server; [Commands.v]: the
      session and job commands as such programs over a [Ctx], the tracked session and
      its files ([cli.rs], [repl.rs]); [CommandFacts.v]: theorems for any answers;
      [ClientRack.v]: the commands run against [Server.v] and [State.v].
    - [Dispatch.v]: [ClientCommand::run] of [client/src/commands.rs], over the REPL, the
      programs of [Commands.v] and the identity, certificate and version commands.
    - [CertChain.v]: the certificate command of [client/src/commands.rs] with
      [check_links] of [cli.rs]; [Display.v]: what [cli.rs] prints of
      racks, jobs and watched jobs, with its theorems.
    - [Attach.v]: [client/src/interactive.rs] and [job_stream]; [AttachFacts.v].
    - [Ephemeral.v]: [SigningKey], [EphemeralKey] and vouchers of
      [common/src/keys.rs], over the interfaces [X509] and [PrivateKeys];
      [EphemeralFacts.v]: against [Certs.v].
    - [ProxyTls.v]: [client/src/tls.rs]; [ProxyTlsFacts.v] on the verifier,
      [ScopedUrls.v] on link-local URLs.  [Tunnel.v]: [client/src/tunnel.rs].
    - [Config.v]: [client/src/config.rs]; [ConfigFacts.v].  [Repl.v]: the options of
      [client/src/repl.rs] and [ClientHandle::from_args]; [ReplFacts.v].
    - [Format.v]: [server/src/format.rs]; [Records.v]: the durable halves of
      [locker/boundary.rs] and [locker/bookmark.rs] over [Locker.v] and
      [Format.v].
    - [Gossip.v]: the manager of [server/src/gossip.rs] and the attestation
      tables of [link.rs].
    - [Reference.v], [Traces.v], [Examples.v], [JobExamples.v],
      [ClientExamples.v], [CommandExamples.v], [ConfigExamples.v], [TlsExamples.v]:
      the instances, a concrete rack, and an application of every theorem with
      hypotheses to a run that is evaluated.

    ** What the theorems show

    - Authority: only jobs signed under a trust anchor, for this sled, in the
      active session run ([only_authorised_jobs_run]); sessions are hashes of
      their preimages ([sessions_are_genuine]); only the starter commands a
      session ([strangers_command_nothing], [attach_access_authority]) and only
      clients with write access type into a job ([only_writers_type]); no
      request is authorised twice under any interleaving
      ([no_request_replayed], refining [spend_refines]); signatures bind what
      they sign and cannot change purpose ([bound_request_binding],
      [job_to_be_signed_inj], [signatures_domain_separated]); anchors are rooted
      and their chains end ([certificates_anchored]).
    - From the proxy on: what is forwarded was authorised, once, and goes where it
      is addressed ([forwarded_requests_authorised], [forwarded_once],
      [route_exact], [route_agrees_with_resolve]); refusals let the client try
      again, until busier times evict their nonce
      ([refusals_carry_usable_challenges]); what a sled gossips for a request was
      proved to the proxy ([gossiped_requests_are_proved]), and a refused request
      does nothing ([refused_requests_do_nothing]).
    - Order and restarts: jobs run along the hash chain ([release_in_chain_order],
      [drain_equals_release]); no sled spawns a job twice, whatever crashes and
      however its writes end ([no_job_spawned_twice]), unless its session was
      stopped in between ([stopped_session_runs_again]); a restarted sled resumes
      where it stopped ([resume_continues_chain]) and settles what it cut short
      ([zombies_settled_once], [adjudication_spec]); sessions only move forward and
      sleds agree on them ([session_rank_monotone], [succession_converges]).
    - Statuses: they only become more settled ([status_monotone]) and concurrent
      reports converge ([stop_beats_interruption], [verdict_beats_start]); what
      the boundary store is told is what the history holds
      ([reported_endings_recorded]).
    - Running jobs: a job is signalled only when it was stopped, a few times and in
      order ([kill_discipline]); a dead job ends ([dead_job_ends]); its output is
      read to the end unless a read fails or the drain times out, and what is
      recorded is what was read, up to its limit, with its hash
      ([output_recorded_exactly]), and downloads as such, from the launch on
      ([launched_output_downloads], [finished_output_downloads], [download_exact],
      [output_range_served], [output_found_after_moves]); streamed output loses
      nothing, up to the client's file and its check ([streamed_output_exact],
      [streamed_file_exact]).
    - Launching: a job is spawned within its limits, or not at all
      ([spawn_within_limits]); it leaves every other job's files alone and
      records what ran ([launch_keeps_records]); under one output directory no job
      starts twice ([started_once_per_base]).
    - The client: what the agent answers is read exactly and the chosen key signs
      ([identities_answer_exact], [signs_with_chosen_key]); refused calls share
      one login and end ([refusals_share_one_login], [retries_end]); requests are
      numbered in order ([requests_numbered_in_order]); whoever is refused can
      log in and go on ([refused_client_gets_through]).
    - The client's commands: a job that is started, and not watched, runs on the rack
      ([started_job_runs]); skipping keeps client and rack in step
      ([skip_keeps_step]); what is shown was checked ([shown_output_checked]);
      requests are prepared as asked ([prepared_request_exact]); the session outlives
      the process ([session_outlives_process]); watches end, at the right poll
      ([watch_ends], [settling_exact]); relays lose nothing ([attach_relays]).
    - Without a server: offline the client contacts no one, and a command that needs the
      server says so and does nothing ([offline_contacts_no_one]).
    - What the client shows: a chain of certificates is accepted exactly when every
      link holds up to a root of trust, so that what a rack serves of its own anchors is
      ([served_chain_verdict], [cert_chain_exact]); every sled of a rack is drawn
      ([whole_rack_drawn]); a watched job's lines are those of its sleds
      ([watch_shows]).
    - Options: the stronger source wins a conflict ([stronger_option_wins]); setting
      replaces what conflicts ([set_replaces_conflicts]); profiles override the top
      level ([profile_overrides]); [set] and [unset] are all or nothing
      ([options_all_or_nothing]), and connection, login and claim are always those of
      the options in force ([repl_keeps_to_options]).
    - Trust in the proxy: exactly the certificates that a root of trust vouches for
      are accepted ([server_accepted_exact]), and those it vouches for are
      ([vouched_proxy_accepted]); vouchers sign nothing else
      ([voucher_domain_separated]); ephemeral keys sign jobs that their certificates
      verify ([ephemeral_jobs_verify]); link-local URLs are taken apart as written
      ([scoped_url_exact]); a tunnel leads to one rack and hides its token unless told
      otherwise ([tunnel_target_exact]).
    - Storage: envelopes round-trip ([envelope_roundtrip]); records of every
      version ever shipped are read, and no record is misread ([decode_upgrades],
      [decode_exact]); a load follows the documented table
      ([load_follows_pair_rules]); stores survive, and torn or delayed ones do no
      harm ([store_then_load], [torn_store_safe], [newest_commit_wins]); the
      boundary store is what the driver's theorems take it to be
      ([boundary_store_refines]); no job starts before its commitment is durable
      ([launch_commits_before_spawn], [record_status_spec]).
    - Slots: whoever writes a slot of the directory in place holds its lock, under any
      interleaving of file-system calls ([writers_hold_the_lock]), except where a heal
      fails halfway or a lock is taken on a lock file that is gone, as two runs show
      ([failed_heal_writes_unlocked], [stale_lock_writes_unlocked]).
    - Children: until the child is reaped, signals reach the job's own processes only,
      however identifiers are reused ([signals_stay_in_job]); afterwards its process
      group, but not its contract, may be another's ([reaped_signal_strays]).
    - Between builds: messages a sled cannot read, nested within the limit of its
      reader, are relayed as they came ([messages_relayed]); limits are read as
      written ([job_limits_exact]).
    - Gossip: a sled gossips in one universe at a time and leaves it only when
      beaten ([leaves_only_when_beaten]).
    - Resources: queue, history and pending starts are bounded and eviction spares
      live jobs ([live_queue_bounded], [gc_spec], [history_update_wf]).
    - The manager: its checks pass exactly when the machine acts
      ([session_check_exact], [session_checks_exact]); its waits end and stay
      satisfied ([session_start_settles], [wait_settled_stable]).
    - Text: phrases, headers, signatures and targets survive printing and parsing
      ([newtype_phrase_roundtrip], [authn_header_roundtrip],
      [signature_ssh_roundtrip]); resolving and matching targets agree
      ([resolve_agrees_with_matches]).

    ** Conventions

    Clocks ([DateTime], [Instant]) and random values are arguments.  Versions are
    abstract with a preorder and a rank.  Integers are [N] or [Z]; where a width
    matters it is written out (the [mod 2 ^ 64] of reserved sequence numbers, the
    checked [U256] arithmetic of the phrase parser, the [u16] length prefixes of
    envelopes, [u64] length prefixes under the digest).  Hash theorems never
    assume injectivity: they conclude equality or exhibit a collision.  A loop
    over [select!] is a function of one turn, which fails when the arm is not
    ready; its theorems hold for every sequence of turns that are.

    ** Fuel

    Loops of the source that do not follow a structure carry fuel.  The release
    and drain loops take the size of the queue, which every turn shrinks
    ([release_in_chain_order] states that they end only when the chain's next job
    is not queued).  The eviction loop takes the number of jobs, one of which goes
    each turn ([gc_spec]).  Printing a phrase takes 24 digits, enough for 256 bits
    ([newtype_phrase_roundtrip]); binary search takes the length of the list;
    trimming, decimal digits and UTF-8 checking the length of their input.  A
    download takes the length of the output, of which each chunk fetches at least
    a byte ([download_exact]).  The chain of a certificate takes one more than the
    number of anchors: enough for anchors with distinct keys
    ([certificates_anchored]), while [chain_may_not_terminate] of [Reference.v]
    shows anchors for which no fuel is enough.  The client's commands are finite
    programs and carry none: a watch is given the polls it makes, and [watch_ends]
    bounds them.

    ** Not modelled

    Logging, the asynchronous runtime and the capacity of its channels; signal
    masks, pseudo-terminals and the making of process contracts ([spawn.rs],
    [pty.rs], [contract.rs]), which are system calls whose outcomes are the turns of
    [Job.v] and the steps of [Child.v]; TLS handshakes, sockets and the copying of
    bytes ([link.rs]'s transport, [proxy/src/lib.rs]'s tunnels); derived serde
    encodings; probing for slots; key generation; clap's and TOML's parsers; the
    entry points; the signing service ([permslip.rs], an optional build), and the
    client's JSON output. *)
From Stdlib Require Export Strings.Byte NArith Lia.
From stdpp Require Export sorting base option strings gmap sets list.

(** ** Results *)

(** Rust's [Result<A, E>]. *)
Inductive result (A E : Type) : Type :=
| Ok (a : A)
| Err (e : E).
Arguments Ok {A E} _.
Arguments Err {A E} _.

#[export] Instance result_eq_dec {A E} `{EqDecision A, EqDecision E} : EqDecision (result A E).
Proof. solve_decision. Defined.

(** The [?] operator: stop at the first error. *)
Definition rbind {A B E} (r : result A E) (k : A → result B E) : result B E :=
  match r with Ok a => k a | Err e => Err e end.

(** [Result::map_err]. *)
Definition map_err {A E F} (f : E → F) (r : result A E) : result A F :=
  match r with Ok a => Ok a | Err e => Err (f e) end.

(** [Option::ok_or]. *)
Definition ok_or {A E} (o : option A) (e : E) : result A E :=
  match o with Some a => Ok a | None => Err e end.

(** [Result::ok]. *)
Definition result_ok {A E} (r : result A E) : option A :=
  match r with Ok a => Some a | Err _ => None end.

Declare Scope rust_scope.
Delimit Scope rust_scope with rust.
Notation "'let?' x := r 'in' k" := (rbind r (λ x, k))
  (at level 10, x pattern, r at level 100, k at level 200) : rust_scope.

(** ** Automation *)

Create HintDb sush.
Create Rewrite HintDb sush.
#[export] Hint Constants Opaque : sush.
#[export] Hint Variables Transparent : sush.

(** Case analysis on every [match] and [if] of the goal, discarding the
    impossible branches. *)
Ltac cases := repeat (case_match; simplify_eq/=; try done).

(** The same on a hypothesis. *)
Ltac cases_in H :=
  repeat (match type of H with
          | context [match ?x with _ => _ end] => destruct x eqn:?
          end; simplify_eq/=; try done).

(** ** Bytes and big-endian integers *)

#[export] Instance byte_eq_dec : EqDecision byte := Byte.byte_eq_dec.
#[export] Instance byte_inhabited : Inhabited byte := populate x00.

(** The low eight bits of an integer, as a byte. *)
Definition byte_of_N (n : N) : byte := default x00 (Byte.of_N (n mod 256)).

Lemma byte_of_N_to_N b : byte_of_N (Byte.to_N b) = b.
Proof.
  unfold byte_of_N. pose proof (Byte.to_N_bounded b).
  rewrite N.mod_small by lia. by rewrite Byte.of_to_N.
Qed.

Lemma to_N_byte_of_N n : Byte.to_N (byte_of_N n) = (n mod 256)%N.
Proof.
  unfold byte_of_N. destruct (Byte.of_N (n mod 256)) as [b|] eqn:E; simpl.
  - by apply Byte.to_of_N.
  - apply Byte.of_N_None_iff in E. pose proof (N.mod_lt n 256). lia.
Qed.

(** [to_be_bytes] at width [k] bytes. *)
Fixpoint be_bytes (k : nat) (n : N) : list byte :=
  match k with
  | O => []
  | S k => be_bytes k (n / 256) ++ [byte_of_N n]
  end.

(** [from_be_bytes]. *)
Definition be_value (l : list byte) : N :=
  foldl (λ acc b, acc * 256 + Byte.to_N b)%N 0%N l.

Lemma length_be_bytes k n : length (be_bytes k n) = k.
Proof. revert n; induction k; intros n; simpl; [done|]. rewrite length_app, IHk. simpl; lia. Qed.

Lemma be_value_snoc l b : be_value (l ++ [b]) = (be_value l * 256 + Byte.to_N b)%N.
Proof. unfold be_value. by rewrite foldl_app. Qed.

Lemma be_value_be_bytes k n : be_value (be_bytes k n) = (n mod 256 ^ N.of_nat k)%N.
Proof.
  revert n; induction k as [|k IH]; intros n; simpl be_bytes.
  - by rewrite N.mod_1_r.
  - rewrite be_value_snoc, IH, to_N_byte_of_N.
    rewrite Nat2N.inj_succ, N.pow_succ_r'.
    rewrite (N.Div0.mod_mul_r n 256). lia.
Qed.

Lemma be_value_bound l : (be_value l < 256 ^ N.of_nat (length l))%N.
Proof.
  induction l as [|b l IH] using rev_ind; [done|].
  rewrite be_value_snoc, length_app. simpl length.
  replace (N.of_nat (length l + 1)) with (N.succ (N.of_nat (length l))) by lia.
  rewrite N.pow_succ_r'. pose proof (Byte.to_N_bounded b). lia.
Qed.

Lemma be_bytes_be_value l : be_bytes (length l) (be_value l) = l.
Proof.
  induction l as [|b l IH] using rev_ind; [done|].
  rewrite length_app, Nat.add_1_r, be_value_snoc. simpl.
  pose proof (Byte.to_N_bounded b).
  rewrite N.div_add_l, (N.div_small (Byte.to_N b)), N.add_0_r, IH by lia.
  f_equal. f_equal. rewrite <- (byte_of_N_to_N b) at 2.
  unfold byte_of_N. do 2 f_equal.
  rewrite N.add_comm, N.Div0.mod_add. done.
Qed.

Lemma be_bytes_inj k m n :
  (m < 256 ^ N.of_nat k)%N → (n < 256 ^ N.of_nat k)%N →
  be_bytes k m = be_bytes k n → m = n.
Proof.
  intros Hm Hn E. apply (f_equal be_value) in E.
  rewrite !be_value_be_bytes in E. by rewrite !N.mod_small in E.
Qed.

#[export] Hint Rewrite length_be_bytes be_value_be_bytes : sush.

(** ** Ordered iteration over maps and sets

    [BTreeMap] and [BTreeSet] iterate in key order.  The model keeps their
    contents in [gmap] and [gset] and sorts when the code iterates. *)
Section sorted.
Context {A : Type} `{Countable A} (R : relation A) `{!RelDecision R}.

Definition sorted_elements (X : gset A) : list A := merge_sort R (elements X).

Lemma elem_of_sorted_elements X x : x ∈ sorted_elements X ↔ x ∈ X.
Proof.
  unfold sorted_elements. rewrite merge_sort_Permutation. apply elem_of_elements.
Qed.

Lemma NoDup_sorted_elements X : NoDup (sorted_elements X).
Proof. unfold sorted_elements. rewrite merge_sort_Permutation. apply NoDup_elements. Qed.

Lemma Sorted_sorted_elements X `{!Total R} : Sorted R (sorted_elements X).
Proof. apply Sorted_merge_sort, _. Qed.
End sorted.
#[export] Hint Rewrite @elem_of_sorted_elements : sush.

(** [Iterator::find]. *)
Abbreviation find_first := List.find.

Lemma find_first_Some {A} (f : A → bool) l x :
  find_first f l = Some x → x ∈ l ∧ f x = true.
Proof. intros E. apply find_some in E. by rewrite list_elem_of_In. Qed.

Lemma find_first_None {A} (f : A → bool) l :
  find_first f l = None ↔ ∀ x, x ∈ l → f x = false.
Proof.
  split.
  - intros E x Hx. eapply find_none; [done|]. by apply list_elem_of_In.
  - induction l as [|a l IH]; intros Hf; simpl; [done|].
    rewrite (Hf a) by set_solver. apply IH. set_solver.
Qed.

(** ** Lists *)

Lemma NoDup_snoc {A} (l : list A) x : NoDup l → x ∉ l → NoDup (l ++ [x]).
Proof.
  intros Hl Hx. apply NoDup_app. repeat split; [done| |apply NoDup_singleton].
  set_solver.
Qed.

Lemma app_length_inj {A} (l1 l2 k1 k2 : list A) :
  length l1 = length k1 → l1 ++ l2 = k1 ++ k2 → l1 = k1 ∧ l2 = k2.
Proof. intros Hl E. by apply app_inj_1. Qed.

Lemma cons_inv {A} (a b : A) (l k : list A) : a :: l = b :: k → a = b ∧ l = k.
Proof. by intros [= -> ->]. Qed.

Lemma strongly_sorted_app {A} (R : A → A → Prop) (l1 l2 : list A) :
  StronglySorted R (l1 ++ l2) ↔
  StronglySorted R l1 ∧ StronglySorted R l2 ∧ (∀ x y, x ∈ l1 → y ∈ l2 → R x y).
Proof.
  induction l1 as [|a l1 IH]; cbn.
  - split; [intros H; split_and!; [constructor|done|set_solver]|by intros (_&?&_)].
  - split.
    + intros [H1 H2]%StronglySorted_inv. apply IH in H1 as (H3&H4&H5).
      rewrite Forall_app, !Forall_forall in H2. destruct H2 as [H6 H7].
      split_and!; [constructor; [done|by apply Forall_forall]|done|].
      intros x y [->|Hx]%elem_of_cons Hy; [by apply H7|by apply H5].
    + intros ([H1 H2]%StronglySorted_inv&H3&H4). constructor.
      * apply IH. split_and!; [done|done|]. intros x y Hx Hy. apply H4; [by right|done].
      * rewrite Forall_app. split; [done|]. apply Forall_forall. intros y Hy. apply H4; [by left|done].
Qed.

Lemma sublist_map {A B} (f : A → B) (l1 l2 : list A) :
  l1 `sublist_of` l2 → map f l1 `sublist_of` map f l2.
Proof. induction 1; cbn; by constructor. Qed.

Lemma forall_sublist {A} (P : A → Prop) (l1 l2 : list A) :
  l1 `sublist_of` l2 → Forall P l2 → Forall P l1.
Proof.
  rewrite !Forall_forall. intros Hs H x Hx. apply H. by eapply elem_of_sublist.
Qed.

Lemma strongly_sorted_sublist {A} (R : A → A → Prop) (l1 l2 : list A) :
  l1 `sublist_of` l2 → StronglySorted R l2 → StronglySorted R l1.
Proof.
  induction 1 as [|x l1 l2 Hs IH|x l1 l2 Hs IH]; intros H; [done|..]; inversion H; subst; [|auto].
  constructor; [auto|]. by eapply forall_sublist.
Qed.

(** ** Evaluation *)

Definition is_ok {A E} (r : result A E) : bool := match r with Ok _ => true | Err _ => false end.
Definition is_some {A} (o : option A) : bool := match o with Some _ => true | None => false end.

Lemma is_some_default {A} (d : A) o : is_some o = true → o = Some (default d o).
Proof. by destruct o. Qed.

Definition ok_default {A E} (d : A) (r : result A E) : A := match r with Ok a => a | Err _ => d end.

Lemma is_ok_default {A E} (d : A) (r : result A E) : is_ok r = true → r = Ok (ok_default d r).
Proof. by destruct r. Qed.

(** Prove by evaluation; the goal must not mention an instance. *)
Ltac evaluate := vm_compute; reflexivity.

(** ** Loops that end *)

(** A loop over events that does nothing once it is over: it ends with the event after
    [before], if it does, and up to there every event counts. *)
Lemma relay_prefix {S E} (turn : S → E → S) (over : S → bool) (R : S → list E → Prop) s l :
  (∀ s e, over s = true → turn s e = s) →
  (∀ s l e, over s = false → R s l → if over (turn s e) then R (turn s e) l else R (turn s e) (l ++ [e])) →
  over s = false → R s [] →
  ∃ before after, l = before ++ after ∧ R (foldl turn s l) before ∧
    if over (foldl turn s l) then after ≠ [] else after = [].
Proof.
  intros Hover Hturn Hs HR. induction l as [|e l IH] using rev_ind; cbn; [exists [], []; by rewrite Hs|].
  rewrite foldl_app. cbn. destruct IH as (before&after&->&HR'&Ha). set (t := foldl turn s (before ++ after)) in *.
  destruct (over t) eqn:Eo.
  - rewrite Hover, Eo by done. exists before, (after ++ [e]). rewrite app_assoc. split_and!; [done|done|by destruct after].
  - subst after. rewrite app_nil_r. specialize (Hturn t before e Eo HR'). destruct (over (turn t e)) eqn:Et.
    + by exists before, [e].
    + exists (before ++ [e]), []. by rewrite app_nil_r.
Qed.
