(* ===== verification/External.v ===== *)
(** * Interfaces to code outside the repository

    The sources call third-party crates whose code is not part of the
    repository: [rumors] (causal gossip), [sha3], [lru], [sled_hardware_types],
    [x509_cert], [ecdsa] and [ed25519_dalek].  Each is a type class here: a
    carrier, the operations the sources call, and the documented laws the
    sources rely on.  [Reference.v] gives an executable instance of every class. *)
From S2P Require Import Prelude.

(** ** [sled_hardware_types::BaseboardId]

    The structure is built field by field in the sources; its [Display],
    [FromStr] and [Ord] implementations are in the crate. *)
Record BaseboardId := mkBaseboardId {
  part_number : string;
  serial_number : string;
}.

#[export] Instance BaseboardId_eq_dec : EqDecision BaseboardId.
Proof. solve_decision. Defined.
#[export] Instance BaseboardId_countable : Countable BaseboardId.
Proof.
  refine (inj_countable' (λ b, (part_number b, serial_number b))
            (λ p, mkBaseboardId p.1 p.2) _); by intros [].
Defined.

Class BaseboardOps := {
  baseboard_to_string : BaseboardId → string;
  baseboard_from_str : string → option BaseboardId;
  baseboard_le : relation BaseboardId;
  baseboard_le_dec :: RelDecision baseboard_le;
  baseboard_le_total :: TotalOrder baseboard_le;
}.

(** ** [rumors]: causal versions

    Versions carry a partial order (causal history inclusion), every version
    has a rank in a total order that extends it, and every gossip network has
    an identity. *)
Class Rumors := {
  Version : Type;
  Rank : Type;
  Network : Type;
  Network_eq_dec :: EqDecision Network;
  Rank_eq_dec :: EqDecision Rank;
  Rank_countable :: Countable Rank;
  version_ge : Version → Version → bool;
  version_rank : Version → Rank;
  rank_le : relation Rank;
  rank_le_dec :: RelDecision rank_le;
  rank_le_total :: TotalOrder rank_le;
  version_ge_refl : ∀ v, version_ge v v = true;
  version_ge_trans : ∀ u v w,
    version_ge u v = true → version_ge v w = true → version_ge u w = true;
}.

(** ** [sha3]: the SHA3-256 digest of a byte string *)
Class Sha3 := {
  sha3_256 : list byte → list byte;
  sha3_256_length : ∀ bs, length (sha3_256 bs) = 32;
}.

(** ** [lru::LruCache]

    [lru_entries] lists the entries, most recently used first.  The laws are
    the documented behaviour of the methods the sources call. *)
Class LruCache := {
  lru : Type → Type → Type;
  lru_entries : ∀ {K V}, lru K V → list (K * V);
  lru_cap : ∀ {K V}, lru K V → nat;
  lru_new : ∀ {K V}, nat → lru K V;
  lru_contains : ∀ {K V} `{EqDecision K}, lru K V → K → bool;
  lru_peek : ∀ {K V} `{EqDecision K}, lru K V → K → option V;
  lru_put : ∀ {K V} `{EqDecision K}, lru K V → K → V → lru K V;
  lru_pop : ∀ {K V} `{EqDecision K}, lru K V → K → option V * lru K V;
  (** The value behind [get_mut]'s reference, and the cache after a write of a
      value through it. *)
  lru_get_mut : ∀ {K V} `{EqDecision K}, lru K V → K → option (V * (V → lru K V));

  lru_new_spec : ∀ K V n,
    lru_entries (lru_new (K:=K) (V:=V) n) = [] ∧ lru_cap (lru_new (K:=K) (V:=V) n) = n;
  lru_contains_spec : ∀ K V `{EqDecision K} (c : lru K V) k,
    lru_contains c k = bool_decide (k ∈ (lru_entries c).*1);
  lru_peek_spec : ∀ K V `{EqDecision K} (c : lru K V) k,
    lru_peek c k = snd <$> find_first (λ e, bool_decide (e.1 = k)) (lru_entries c);
  (** A new key at capacity evicts the least recently used entry. *)
  lru_put_spec : ∀ K V `{EqDecision K} (c : lru K V) k v,
    lru_entries (lru_put c k v) =
      take (lru_cap c) ((k, v) :: filter (λ e, e.1 ≠ k) (lru_entries c));
  lru_put_cap : ∀ K V `{EqDecision K} (c : lru K V) k v,
    lru_cap (lru_put c k v) = lru_cap c;
  lru_pop_spec : ∀ K V `{EqDecision K} (c : lru K V) k,
    (lru_pop c k).1 = lru_peek c k ∧
    lru_entries (lru_pop c k).2 = filter (λ e, e.1 ≠ k) (lru_entries c) ∧
    lru_cap (lru_pop c k).2 = lru_cap c;
  (** A reference makes its entry the most recently used. *)
  lru_get_mut_spec : ∀ K V `{EqDecision K} (c : lru K V) k,
    match lru_get_mut c k with
    | None => lru_peek c k = None
    | Some (v, write) =>
      lru_peek c k = Some v ∧
      ∀ w, lru_entries (write w) = (k, w) :: filter (λ e, e.1 ≠ k) (lru_entries c) ∧
           lru_cap (write w) = lru_cap c
    end;
}.

(** ** [x509_cert] and the signature crates *)

(** The object identifiers the sources compare with; any other is [OtherOid]. *)
Inductive Oid :=
| ECDSA_WITH_SHA_256
| ID_EC_PUBLIC_KEY
| ID_ED_25519
| OtherOid (der : list byte).

(** Algorithm parameters: the P-256 curve, or anything else. *)
Inductive AlgorithmParameters :=
| SECP_256_R_1
| OtherParameters (der : list byte).

Record AlgorithmIdentifier := mkAlgorithm {
  oid : Oid;
  parameters : option AlgorithmParameters;
}.

#[export] Instance Oid_eq_dec : EqDecision Oid.
Proof. solve_decision. Defined.
#[export] Instance AlgorithmParameters_eq_dec : EqDecision AlgorithmParameters.
Proof. solve_decision. Defined.
#[export] Instance AlgorithmIdentifier_eq_dec : EqDecision AlgorithmIdentifier.
Proof. solve_decision. Defined.

Class Pki := {
  Certificate : Type;
  Name : Type;
  Name_eq_dec :: EqDecision Name;
  cert_subject : Certificate → Name;
  cert_issuer : Certificate → Name;
  (** [tbs_certificate.subject_public_key_info]: its algorithm, raw key
      bytes and DER encoding; encoding can fail. *)
  cert_spki_algorithm : Certificate → AlgorithmIdentifier;
  cert_spki_key : Certificate → list byte;
  cert_spki_der : Certificate → option (list byte);
  cert_tbs_der : Certificate → option (list byte);
  cert_signature_algorithm : Certificate → AlgorithmIdentifier;
  cert_tbs_signature : Certificate → AlgorithmIdentifier;
  cert_signature : Certificate → list byte;
  (** ECDSA over P-256 and Ed25519: parsing of signatures and keys, and
      verification [verify key message signature]. *)
  EcdsaSignature : Type;
  Ed25519Signature : Type;
  ecdsa_from_scalars : list byte → list byte → option EcdsaSignature;
  ecdsa_from_der : list byte → option EcdsaSignature;
  ecdsa_key_ok : list byte → bool;
  ecdsa_verify : list byte → list byte → EcdsaSignature → bool;
  ed25519_from_components : list byte → list byte → Ed25519Signature;
  ed25519_from_slice : list byte → option Ed25519Signature;
  ed25519_key_ok : list byte → bool;
  ed25519_verify : list byte → list byte → Ed25519Signature → bool;
}.

(** ** [ssh_key]: public keys, signatures and multi-precision integers *)

(** [Algorithm], with the curves the sources tell apart. *)
Inductive SshAlgorithm :=
| AEcdsaNistP256
| AEcdsaOther (curve : string)
| AEd25519
| ASkEcdsaSha2NistP256
| ASkEd25519
| AOther (name : string).

#[export] Instance SshAlgorithm_eq_dec : EqDecision SshAlgorithm.
Proof. solve_decision. Defined.

(** The positive big-endian bytes without leading zeros. *)
Fixpoint strip_zeros (bs : list byte) : list byte :=
  match bs with
  | x00 :: bs => strip_zeros bs
  | _ => bs
  end.

Class Ssh `{Pki} := {
  SshPublicKey : Type;
  ssh_algorithm : SshPublicKey → SshAlgorithm;
  ssh_to_bytes : SshPublicKey → option (list byte);
  ssh_to_openssh : SshPublicKey → result string string;
  (** [SshSignature::new]: checks the form of the bytes. *)
  ssh_signature_new : SshAlgorithm → list byte → option (list byte);
  ssh_verify : SshPublicKey → list byte → SshAlgorithm → list byte → bool;
  (** Scalars of signatures, as 32 big-endian bytes each. *)
  ecdsa_r : EcdsaSignature → list byte;
  ecdsa_s : EcdsaSignature → list byte;
  ecdsa_to_ssh : EcdsaSignature → option (list byte);
  ed25519_r : Ed25519Signature → list byte;
  ed25519_s : Ed25519Signature → list byte;
  (** [Mpint::from_positive_bytes] (the encoding's bytes) and
      [Mpint::as_positive_bytes]. *)
  mpint_from_positive : list byte → option (list byte);
  mpint_as_positive : list byte → option (list byte);
  (** The ephemeral request keys use [VerifyingKey::is_weak] and [verify_strict]. *)
  ed25519_is_weak : list byte → bool;
  ed25519_verify_strict : list byte → list byte → Ed25519Signature → bool;

  ssh_signature_new_bytes : ∀ alg bs raw, ssh_signature_new alg bs = Some raw → raw = bs;
  ecdsa_scalars : ∀ r s sg, length r = 32 → length s = 32 →
    ecdsa_from_scalars r s = Some sg → ecdsa_r sg = r ∧ ecdsa_s sg = s;
  ed25519_components : ∀ r s, length r = 32 → length s = 32 →
    ed25519_r (ed25519_from_components r s) = r ∧ ed25519_s (ed25519_from_components r s) = s;
  ed25519_slice : ∀ r s, length r = 32 → length s = 32 →
    ed25519_from_slice (r ++ s) = Some (ed25519_from_components r s);
  (** Encoding a positive integer drops its leading zeros, and reads its own
      output back. *)
  mpint_positive_roundtrip : ∀ bs enc, strip_zeros bs ≠ [] →
    mpint_from_positive bs = Some enc →
    mpint_from_positive enc = Some enc ∧ mpint_as_positive enc = Some (strip_zeros bs);
  mpint_length : ∀ bs enc, mpint_from_positive bs = Some enc → length enc <= length bs + 1;
}.
