(* ===== verification/Codephrases.v ===== *)
(** * Code phrases ([common/src/codephrases.rs])

    A code phrase is a 256-bit integer, shown as its base-2048 digits, each a
    word of the word list.  This file models the conversions, the parser and
    printer, and the [codephrase_newtype!] macro that defines every identifier
    of the system, and proves that printing and parsing are inverse. *)
From S2P Require Import Prelude External Wordlist.
Open Scope N_scope.

(** ** Constants *)

Definition PHRASE_WORDS_256 : nat := 24.
Definition WORD_SEPARATOR : string := "-".
Definition TRUNCATED_BITS : N := 88.
Definition SHORT_BITS : N := 44.

(** [crypto_bigint::U256] values are below this bound. *)
Definition U256_LIMIT : N := 2 ^ 256.

(** A code phrase is its integer. *)
Abbreviation Codephrase := N.

(** ** Conversions *)

(** [Codephrase::mask]: keep the low-order bits. *)
Definition mask (c : Codephrase) (bits : N) : Codephrase := N.land c (N.shiftl 1 bits - 1).
Definition truncate (c : Codephrase) : Codephrase := mask c TRUNCATED_BITS.
Definition shorten (c : Codephrase) : Codephrase := mask c SHORT_BITS.

(** [Codephrase::from_be_bytes], on an array of 32 bytes. *)
Definition from_be_bytes (bytes : list byte) : Codephrase := be_value bytes.
Definition to_be_bytes (c : Codephrase) : list byte := be_bytes 32 c.
Definition from_u64 (value : N) : Codephrase := value.

(** [Codephrase::to_u64]: [None] when any of the first 24 bytes is set. *)
Definition to_u64 (c : Codephrase) : option N :=
  let bytes := to_be_bytes c in
  if existsb (λ b, negb (bool_decide (b = x00))) (take 24 bytes) then None
  else Some (be_value (drop 24 bytes)).

(** ** The word list *)

(** [word]: look up a word by index (indexing panics out of range, which the
    callers exclude). *)
Definition word (index : nat) : string := default ""%string (WORDLIST !! index).

(** [slice::binary_search] of the standard library: the [while size > 1] loop. *)
Fixpoint binary_search_loop (fuel : nat) (l : list string) (w : string) (base size : nat) : nat :=
  match fuel with
  | O => base
  | S fuel =>
    if (size <=? 1)%nat then base
    else
      let half := (size / 2)%nat in
      let mid := (base + half)%nat in
      let base := match String.compare (default ""%string (l !! mid)) w with
                  | Gt => base
                  | _ => mid
                  end in
      binary_search_loop fuel l w base (size - half)
  end.

Definition binary_search (l : list string) (w : string) : option nat :=
  let base := binary_search_loop (length l) l w 0 (length l) in
  match l !! base with
  | Some v => match String.compare v w with Eq => Some base | _ => None end
  | None => None
  end.

(** Decoding a phrase failed. *)
Inductive InvalidCodephrase := mkInvalidCodephrase.

(** [index]: find a word in the word list. *)
Definition index (w : string) : result nat InvalidCodephrase :=
  ok_or (binary_search WORDLIST w) mkInvalidCodephrase.

(** ** Printing *)

(** The digits of [n], least significant first.  Base 2048 needs at most
    [PHRASE_WORDS_256] digits for 256 bits, which is the fuel. *)
Fixpoint words_le (fuel : nat) (n : N) : list string :=
  match fuel with
  | O => []
  | S fuel =>
    if n =? 0 then []
    else word (N.to_nat (n mod 2048)) :: words_le fuel (n / 2048)
  end.

(** [impl Display for Codephrase]. *)
Definition codephrase_to_string (c : Codephrase) : string :=
  String.concat WORD_SEPARATOR (reverse (words_le PHRASE_WORDS_256 c)).

(** ** Parsing *)

Definition ascii_to_lower (c : Ascii.ascii) : Ascii.ascii :=
  let n := Ascii.N_of_ascii c in
  if (65 <=? n) && (n <=? 90) then Ascii.ascii_of_N (n + 32) else c.

Fixpoint string_map (f : Ascii.ascii → Ascii.ascii) (s : string) : string :=
  match s with
  | EmptyString => EmptyString
  | String c s => String (f c) (string_map f s)
  end.

(** [str::to_ascii_lowercase]. *)
Definition to_ascii_lowercase (s : string) : string := string_map ascii_to_lower s.

Definition separator_char : Ascii.ascii := Ascii.ascii_of_N 45.
Definition space_char : Ascii.ascii := Ascii.ascii_of_N 32.
Definition newline : string := String (Ascii.ascii_of_N 10) EmptyString.

(** [replace(WORD_SEPARATOR, " ")]. *)
Definition replace_separator (s : string) : string :=
  string_map (λ c, if Ascii.eqb c separator_char then space_char else c) s.

(** [u8::is_ascii_whitespace]: space, tab, line feed, form feed, carriage return. *)
Definition is_ascii_whitespace (c : Ascii.ascii) : bool :=
  let n := Ascii.N_of_ascii c in
  (n =? 32) || (n =? 9) || (n =? 10) || (n =? 12) || (n =? 13).

Definition push_word (w : string) (ws : list string) : list string :=
  match w with EmptyString => ws | _ => w :: ws end.

Fixpoint split_ws_go (s : string) : string * list string :=
  match s with
  | EmptyString => (EmptyString, [])
  | String c s =>
    let '(w, ws) := split_ws_go s in
    if is_ascii_whitespace c then (EmptyString, push_word w ws) else (String c w, ws)
  end.

(** [str::split_ascii_whitespace]: the maximal runs of other characters. *)
Definition split_ascii_whitespace (s : string) : list string :=
  let '(w, ws) := split_ws_go s in push_word w ws.

(** [U256::checked_mul] and [U256::checked_add]. *)
Definition checked_u256 (n : N) : option N := if n <? U256_LIMIT then Some n else None.

Section parse.
Local Open Scope rust_scope.

(** The loop of [from_str]: [words] counts the words seen so far. *)
Fixpoint decode_words (ws : list string) (words : nat) (n : N) :
    result Codephrase InvalidCodephrase :=
  match ws with
  | [] => Ok n
  | w :: ws =>
    let words := S words in
    if (PHRASE_WORDS_256 <? words)%nat then Err mkInvalidCodephrase
    else
      let? r := index w in
      let? n := ok_or (checked_u256 (n * 2048)) mkInvalidCodephrase in
      let? n := ok_or (checked_u256 (n + N.of_nat r)) mkInvalidCodephrase in
      decode_words ws words n
  end.

(** [impl FromStr for Codephrase]. *)
Definition codephrase_from_str (value : string) : result Codephrase InvalidCodephrase :=
  decode_words
    (split_ascii_whitespace (replace_separator (to_ascii_lowercase value))) 0 0.
End parse.

(** ** The [codephrase_newtype!] macro *)

Inductive CodephraseLength := Full | Truncated | Short.

(** [CodephraseLength::canonical]: discard entropy. *)
Definition canonical (l : CodephraseLength) (c : Codephrase) : Codephrase :=
  match l with
  | Full => c
  | Truncated => truncate c
  | Short => shorten c
  end.

(** The newtypes the sources declare with the macro. *)
Inductive NewtypeName :=
| NJobId | NSessionId | NSessionClientNonce | NSessionServerNonce | NSessionSushNonce
| NSessionSignerNonce | NSessionSeq | NKeyId | NEccR | NEccS | NNonce | NRequestVerifier.

(** The length each declaration names. *)
Definition newtype_length (n : NewtypeName) : CodephraseLength :=
  match n with
  | NSessionSeq => Short
  | NEccR | NEccS | NRequestVerifier => Full
  | _ => Truncated
  end.

(** [struct $name(Codephrase)], one distinct type per name. *)
Record Phrase (name : NewtypeName) := Newtype { phrase : Codephrase }.
Arguments Newtype {name} _.
Arguments phrase {name} _.

Abbreviation JobId := (Phrase NJobId).
Abbreviation SessionId := (Phrase NSessionId).
Abbreviation SessionClientNonce := (Phrase NSessionClientNonce).
Abbreviation SessionServerNonce := (Phrase NSessionServerNonce).
Abbreviation SessionSushNonce := (Phrase NSessionSushNonce).
Abbreviation SessionSignerNonce := (Phrase NSessionSignerNonce).
Abbreviation SessionSeq := (Phrase NSessionSeq).
Abbreviation KeyId := (Phrase NKeyId).
Abbreviation EccR := (Phrase NEccR).
Abbreviation EccS := (Phrase NEccS).
Abbreviation Nonce := (Phrase NNonce).
Abbreviation RequestVerifier := (Phrase NRequestVerifier).

#[export] Instance Phrase_eq_dec name : EqDecision (Phrase name).
Proof. solve_decision. Defined.
#[export] Instance Phrase_countable name : Countable (Phrase name).
Proof. refine (inj_countable' phrase Newtype _). by intros []. Defined.

(** The derived [Ord]: phrases compare as integers. *)
Definition phrase_le {name} : relation (Phrase name) := λ x y, phrase x <= phrase y.
#[export] Instance phrase_le_dec name : RelDecision (@phrase_le name).
Proof. intros x y. unfold phrase_le. apply _. Defined.
#[export] Instance phrase_le_total name : TotalOrder (@phrase_le name).
Proof.
  split; [split; [split|]|].
  - intros x. unfold phrase_le. lia.
  - intros x y z. unfold phrase_le. lia.
  - intros [x] [y]. unfold phrase_le; simpl. intros. f_equal. lia.
  - intros x y. unfold trichotomy, strict, phrase_le. destruct x as [x], y as [y]; simpl.
    destruct (N.lt_trichotomy x y) as [?|[->|?]]; [left|right;left|right;right]; [lia|done|lia].
Qed.

Section newtype.
Context {name : NewtypeName}.

(** [TryFrom<Codephrase>]: fail on values wider than the type allows. *)
Definition newtype_try_from (c : Codephrase) : result (Phrase name) InvalidCodephrase :=
  if canonical (newtype_length name) c =? c then Ok (Newtype c) else Err mkInvalidCodephrase.

Definition newtype_from_be_bytes (bytes : list byte) : Phrase name :=
  Newtype (canonical (newtype_length name) (from_be_bytes bytes)).

(** [from_hash]: a [Hash] is its 32 bytes. *)
Definition newtype_from_hash (hash : list byte) : Phrase name := newtype_from_be_bytes hash.

Definition newtype_to_be_bytes (p : Phrase name) : list byte := to_be_bytes (phrase p).

Definition newtype_to_string (p : Phrase name) : string := codephrase_to_string (phrase p).

Definition newtype_from_str (s : string) : result (Phrase name) InvalidCodephrase :=
  rbind (codephrase_from_str s) newtype_try_from.
End newtype.

(** ** Facts about the word list *)

(** Words are non-empty runs of lower-case letters. *)
Definition is_lower (c : Ascii.ascii) : bool :=
  let n := Ascii.N_of_ascii c in (97 <=? n) && (n <=? 122).

Fixpoint all_chars (f : Ascii.ascii → bool) (s : string) : bool :=
  match s with EmptyString => true | String c s => f c && all_chars f s end.

Definition plain_word (w : string) : bool :=
  match w with EmptyString => false | _ => all_chars is_lower w end.

Lemma wordlist_length : length WORDLIST = 2048%nat.
Proof. vm_compute. reflexivity. Qed.

Lemma wordlist_plain : forallb plain_word WORDLIST = true.
Proof. vm_compute. reflexivity. Qed.

Lemma wordlist_indexed :
  forallb (λ i, match binary_search WORDLIST (word i) with
                | Some j => Nat.eqb i j | None => false end) (seq 0 2048) = true.
Proof. vm_compute. reflexivity. Qed.

Lemma index_word i : (i < 2048)%nat → index (word i) = Ok i.
Proof.
  intros Hi. pose proof wordlist_indexed as Hall.
  rewrite forallb_forall in Hall. specialize (Hall i).
  unfold index. destruct (binary_search WORDLIST (word i)) as [j|].
  - simpl. f_equal. symmetry. apply Nat.eqb_eq, Hall, in_seq. lia.
  - discriminate Hall. apply in_seq. lia.
Qed.

Lemma word_plain i : (i < 2048)%nat → plain_word (word i) = true.
Proof.
  intros Hi. unfold word. destruct (WORDLIST !! i) as [w|] eqn:E; simpl.
  - pose proof wordlist_plain as Hall. rewrite forallb_forall in Hall.
    apply Hall, list_elem_of_In, list_elem_of_lookup. eauto.
  - apply lookup_ge_None in E. rewrite wordlist_length in E. lia.
Qed.

(** The search only answers with a position that holds the word. *)
Lemma index_sound w i : index w = Ok i → WORDLIST !! i = Some w.
Proof.
  unfold index, binary_search. set (b := binary_search_loop _ _ _ _ _). clearbody b.
  destruct (WORDLIST !! b) as [v|] eqn:E; simpl; [|done].
  destruct (String.compare v w) eqn:C; simpl; [|done..].
  intros [= <-]. rewrite E. f_equal. by apply String.compare_eq_iff.
Qed.

Lemma index_bound w i : index w = Ok i → (i < 2048)%nat.
Proof. intros H%index_sound%lookup_lt_Some. by rewrite wordlist_length in H. Qed.

(** ** Printing then parsing *)

Lemma string_app_cons c s t : String c s +:+ t = String c (s +:+ t).
Proof. done. Qed.

Lemma string_map_app f s t : string_map f (s +:+ t) = string_map f s +:+ string_map f t.
Proof. induction s as [|c s IH]; [done|]. rewrite string_app_cons. simpl. by rewrite IH. Qed.

Lemma string_map_concat f sep ws :
  string_map f (String.concat sep ws) = String.concat (string_map f sep) (map (string_map f) ws).
Proof.
  induction ws as [|w ws IH]; [done|]. destruct ws as [|v ws]; [done|].
  change (String.concat sep (w :: v :: ws)) with (w +:+ sep +:+ String.concat sep (v :: ws)).
  by rewrite !string_map_app, IH.
Qed.

Lemma string_map_id f s :
  (∀ c, is_lower c = true → f c = c) → all_chars is_lower s = true → string_map f s = s.
Proof.
  intros Hf. induction s as [|c s IH]; simpl; [done|].
  intros [Hc Hs]%andb_prop. by rewrite Hf, IH.
Qed.

Lemma plain_all_chars w : plain_word w = true → all_chars is_lower w = true.
Proof. by destruct w. Qed.

Lemma lower_fixed c : is_lower c = true → ascii_to_lower c = c.
Proof.
  unfold is_lower, ascii_to_lower. intros [H1 H2]%andb_prop.
  apply N.leb_le in H1, H2. destruct (Ascii.N_of_ascii c <=? 90) eqn:E; [|by rewrite andb_false_r].
  apply N.leb_le in E. lia.
Qed.

Lemma lower_not_separator c :
  is_lower c = true → (if Ascii.eqb c separator_char then space_char else c) = c.
Proof.
  intros H. destruct (Ascii.eqb_spec c separator_char) as [->|]; [|done].
  by vm_compute in H.
Qed.

Lemma lower_not_ws c : is_lower c = true → is_ascii_whitespace c = false.
Proof.
  unfold is_lower, is_ascii_whitespace. intros [H1 H2]%andb_prop. apply N.leb_le in H1, H2.
  repeat (apply orb_false_intro); apply N.eqb_neq; lia.
Qed.

Lemma map_string_map_id f ws :
  (∀ c, is_lower c = true → f c = c) → forallb plain_word ws = true →
  map (string_map f) ws = ws.
Proof.
  intros Hf. induction ws as [|w ws IH]; simpl; [done|].
  intros [Hw Hws]%andb_prop. rewrite IH by done. f_equal.
  apply string_map_id; [done|]. by apply plain_all_chars.
Qed.

(** Normalising a printed phrase only turns the separators into spaces. *)
Lemma normalise_phrase ws :
  forallb plain_word ws = true →
  replace_separator (to_ascii_lowercase (String.concat WORD_SEPARATOR ws))
  = String.concat " " ws.
Proof.
  intros Hws. unfold to_ascii_lowercase, replace_separator.
  rewrite !string_map_concat.
  rewrite (map_string_map_id ascii_to_lower) by eauto using lower_fixed.
  by rewrite map_string_map_id by eauto using lower_not_separator.
Qed.

Lemma split_ws_go_word w s :
  all_chars is_lower w = true →
  split_ws_go (w +:+ s) = (w +:+ (split_ws_go s).1, (split_ws_go s).2).
Proof.
  induction w as [|c w IH]; [intros _; apply surjective_pairing|].
  cbn [all_chars]. intros [Hc Hw]%andb_prop. rewrite !string_app_cons. simpl.
  rewrite IH by done. by rewrite lower_not_ws.
Qed.

Lemma string_app_nil_r s : s +:+ EmptyString = s.
Proof. induction s as [|c s IH]; [done|]. by rewrite string_app_cons, IH. Qed.

Lemma string_app_assoc s t u : s +:+ (t +:+ u) = (s +:+ t) +:+ u.
Proof. induction s as [|d s IH]; [done|]. by rewrite !string_app_cons, IH. Qed.

Lemma split_ws_go_concat w ws :
  forallb plain_word (w :: ws) = true →
  split_ws_go (String.concat " " (w :: ws)) = (w, ws).
Proof.
  revert w; induction ws as [|v ws IH]; intros w; intros [Hw Hws]%andb_prop.
  - change (String.concat " " [w]) with w. rewrite <- (string_app_nil_r w) at 1.
    rewrite split_ws_go_word by (by apply plain_all_chars). simpl. by rewrite string_app_nil_r.
  - change (String.concat " " (w :: v :: ws))
      with (w +:+ String space_char (String.concat " " (v :: ws))).
    rewrite split_ws_go_word by (by apply plain_all_chars).
    cbn [split_ws_go]. rewrite IH by done.
    change (is_ascii_whitespace space_char) with true. cbn.
    rewrite string_app_nil_r. by destruct v.
Qed.

Lemma split_concat_spaces ws :
  forallb plain_word ws = true → split_ascii_whitespace (String.concat " " ws) = ws.
Proof.
  destruct ws as [|w ws]; [done|]. intros H. unfold split_ascii_whitespace.
  rewrite split_ws_go_concat by done. simpl in H. by destruct w.
Qed.

(** ** Base-2048 digits *)

Fixpoint digits_le (fuel : nat) (n : N) : list N :=
  match fuel with
  | O => []
  | S fuel => if n =? 0 then [] else (n mod 2048) :: digits_le fuel (n / 2048)
  end.

Lemma words_le_digits fuel n : words_le fuel n = map (λ d, word (N.to_nat d)) (digits_le fuel n).
Proof. revert n; induction fuel; intros n; simpl; [done|]. case_match; [done|]. simpl. by rewrite IHfuel. Qed.

Lemma digits_le_bound fuel n : Forall (λ d, d < 2048) (digits_le fuel n).
Proof.
  revert n; induction fuel; intros n; simpl; [constructor|]. case_match; constructor; [|done].
  apply N.mod_lt. lia.
Qed.

Lemma length_digits_le fuel n : (length (digits_le fuel n) <= fuel)%nat.
Proof. revert n; induction fuel; intros n; simpl; [lia|]. case_match; simpl; [lia|]. specialize (IHfuel (n/2048)). lia. Qed.

Definition digits_value (ds : list N) : N := foldr (λ d a, a * 2048 + d) 0 ds.

Lemma digits_value_le fuel n : n < 2048 ^ N.of_nat fuel → digits_value (digits_le fuel n) = n.
Proof.
  revert n; induction fuel as [|fuel IH]; intros n Hn.
  - simpl in *. change (2048 ^ N.of_nat 0) with 1 in Hn. lia.
  - simpl. destruct (N.eqb_spec n 0) as [->|Hne]; [done|]. simpl.
    unfold digits_value in IH. rewrite Nat2N.inj_succ, N.pow_succ_r' in Hn.
    rewrite IH by (apply N.Div0.div_lt_upper_bound; lia).
    pose proof (N.Div0.div_mod n 2048). lia.
Qed.

Lemma decode_digits ds k n :
  Forall (λ d, d < 2048) ds →
  (length ds + k <= PHRASE_WORDS_256)%nat →
  foldl (λ a d, a * 2048 + d) n ds < U256_LIMIT →
  decode_words (map (λ d, word (N.to_nat d)) ds) k n
  = Ok (foldl (λ a d, a * 2048 + d) n ds).
Proof.
  revert k n; induction ds as [|d ds IH]; intros k n; [done|].
  intros [Hd Hds]%Forall_cons Hlen Hv. cbn [length] in Hlen. cbn [map decode_words foldl] in *.
  assert (Hstep : n * 2048 + d <= foldl (λ a d, a * 2048 + d) (n * 2048 + d) ds).
  { generalize (n * 2048 + d). clear. intros m. revert m.
    induction ds as [|e ds IH]; intros m; cbn [foldl]; [lia|].
    specialize (IH (m * 2048 + e)). lia. }
  rewrite (proj2 (Nat.ltb_ge _ _)) by lia.
  rewrite index_word by lia. simpl rbind. unfold checked_u256.
  rewrite (proj2 (N.ltb_lt _ _)) by lia. simpl.
  rewrite N2Nat.id. rewrite (proj2 (N.ltb_lt _ _)) by lia. simpl.
  apply IH; [done|lia|done].
Qed.

Lemma foldl_reverse_digits ds :
  foldl (λ a d, a * 2048 + d) 0 (reverse ds) = digits_value ds.
Proof.
  unfold digits_value. induction ds as [|d ds IH]; [done|].
  rewrite reverse_cons, foldl_app, IH. done.
Qed.

Lemma codephrase_from_to_string c :
  c < U256_LIMIT → codephrase_from_str (codephrase_to_string c) = Ok c.
Proof.
  intros Hc. unfold codephrase_from_str, codephrase_to_string.
  rewrite words_le_digits. change (@map N string) with (@fmap list _ N string).
  rewrite <- fmap_reverse. change (@fmap list _ N string) with (@map N string).
  set (ds := digits_le PHRASE_WORDS_256 c).
  assert (Hb : Forall (λ d, d < 2048) (reverse ds)).
  { apply Forall_reverse, digits_le_bound. }
  assert (Hplain : forallb plain_word (map (λ d, word (N.to_nat d)) (reverse ds)) = true).
  { apply forallb_forall. intros w [d [<- Hd]]%in_map_iff. apply word_plain.
    rewrite Forall_forall in Hb. apply list_elem_of_In, Hb in Hd. lia. }
  rewrite normalise_phrase, split_concat_spaces by done.
  assert (Hval : digits_value ds = c).
  { apply digits_value_le. unfold U256_LIMIT, PHRASE_WORDS_256 in *.
    eapply N.lt_trans; [exact Hc|]. by vm_compute. }
  rewrite decode_digits.
  - by rewrite foldl_reverse_digits, Hval.
  - done.
  - rewrite length_reverse. pose proof (length_digits_le PHRASE_WORDS_256 c). unfold ds. lia.
  - by rewrite foldl_reverse_digits, Hval.
Qed.

(** ** Newtypes *)

Definition length_bits (l : CodephraseLength) : N :=
  match l with Full => 256 | Truncated => TRUNCATED_BITS | Short => SHORT_BITS end.

Lemma mask_mod c bits : mask c bits = c mod 2 ^ bits.
Proof.
  unfold mask. rewrite N.shiftl_1_l. rewrite N.sub_1_r, <- N.ones_equiv. apply N.land_ones.
Qed.

Lemma canonical_mod l c : c < U256_LIMIT → canonical l c = c mod 2 ^ length_bits l.
Proof.
  intros Hc. destruct l; simpl; [|apply mask_mod..]. by rewrite N.mod_small.
Qed.

Lemma length_bits_le l : 2 ^ length_bits l <= U256_LIMIT.
Proof. by destruct l; vm_compute. Qed.

Lemma canonical_lt l c : c < U256_LIMIT → canonical l c < 2 ^ length_bits l.
Proof. intros Hc. rewrite canonical_mod by done. apply N.mod_lt. by apply N.pow_nonzero. Qed.

Lemma canonical_fixed l c : c < 2 ^ length_bits l → canonical l c = c.
Proof.
  intros Hc. rewrite canonical_mod; [by apply N.mod_small|].
  pose proof (length_bits_le l). lia.
Qed.

Lemma from_be_bytes_lt bs : length bs = 32%nat → from_be_bytes bs < U256_LIMIT.
Proof. intros H. pose proof (be_value_bound bs). rewrite H in *. done. Qed.

Lemma newtype_from_be_bytes_lt name bs :
  length bs = 32%nat →
  phrase (newtype_from_be_bytes (name:=name) bs) < 2 ^ length_bits (newtype_length name).
Proof. intros H. apply canonical_lt, from_be_bytes_lt, H. Qed.

Lemma newtype_from_to_string name (p : Phrase name) :
  phrase p < 2 ^ length_bits (newtype_length name) →
  newtype_from_str (newtype_to_string p) = Ok p.
Proof.
  intros Hp. unfold newtype_from_str, newtype_to_string.
  pose proof (length_bits_le (newtype_length name)).
  rewrite codephrase_from_to_string by lia. simpl. unfold newtype_try_from.
  rewrite canonical_fixed, N.eqb_refl by done. by destruct p.
Qed.

Lemma newtype_to_be_bytes_inj name (p q : Phrase name) :
  phrase p < U256_LIMIT → phrase q < U256_LIMIT →
  newtype_to_be_bytes p = newtype_to_be_bytes q → p = q.
Proof.
  destruct p as [p], q as [q]; unfold newtype_to_be_bytes, to_be_bytes; cbn [phrase].
  intros Hp Hq E. f_equal. by apply (be_bytes_inj 32) in E.
Qed.

Lemma decode_words_sound ws k n v :
  decode_words ws k n = Ok v →
  n < U256_LIMIT →
  (k + length ws <= max k PHRASE_WORDS_256)%nat ∧ v < U256_LIMIT ∧ Forall (.∈ WORDLIST) ws.
Proof.
  revert k n; induction ws as [|w ws IH]; intros k n; cbn [decode_words].
  - intros [= <-] Hn. simpl. repeat split; [lia|done|constructor].
  - destruct (Nat.ltb_spec PHRASE_WORDS_256 (S k)) as [|Hk]; [done|].
    destruct (index w) as [i|] eqn:Ei; [|done]. simpl. unfold checked_u256.
    destruct (n * 2048 <? U256_LIMIT); [|done]. simpl.
    destruct (N.ltb_spec (n * 2048 + N.of_nat i) U256_LIMIT) as [Hlt|]; [|done].
    simpl. intros H _. destruct (IH _ _ H Hlt) as (Hlen & Hv & Hall).
    cbn [length]. split_and!; [lia|done|]. constructor; [|done].
    apply index_sound in Ei. apply list_elem_of_lookup. eauto.
Qed.

(** Printing and parsing are inverse for every identifier type of the
    system: a value built from 32 bytes (a digest or an encoded field), printed
    as a hyphenated phrase and parsed back, is the same value. *)
Theorem newtype_phrase_roundtrip name (bs : list byte) :
  length bs = 32%nat →
  newtype_from_str (name:=name) (newtype_to_string (newtype_from_be_bytes (name:=name) bs))
  = Ok (newtype_from_be_bytes bs).
Proof. intros H. by apply newtype_from_to_string, newtype_from_be_bytes_lt. Qed.

Lemma newtype_phrase_roundtrip_witness :
  newtype_from_str (name:=NJobId) (newtype_to_string
    (newtype_from_be_bytes (name:=NJobId) (replicate 32 xff)))
  = Ok (newtype_from_be_bytes (replicate 32 xff)).
Proof. apply (newtype_phrase_roundtrip NJobId). reflexivity. Defined.

(** The parser only accepts phrases that entropy of the right width
    encodes to: at most 24 words, every one of them on the word list, with a
    value below the width of the identifier type. *)
Theorem newtype_from_str_sound name s (p : Phrase name) :
  newtype_from_str s = Ok p →
  let ws := split_ascii_whitespace (replace_separator (to_ascii_lowercase s)) in
  (length ws <= PHRASE_WORDS_256)%nat ∧ Forall (.∈ WORDLIST) ws ∧
  phrase p < 2 ^ length_bits (newtype_length name).
Proof.
  unfold newtype_from_str, codephrase_from_str. cbv zeta.
  set (ws := split_ascii_whitespace _). intros H.
  destruct (decode_words ws 0 0) as [n|] eqn:E; [|done]. simpl in H.
  apply decode_words_sound in E as (Hl & Hn & Hall); [|done].
  unfold newtype_try_from in H.
  destruct (N.eqb_spec (canonical (newtype_length name) n) n) as [Ec|]; [|done].
  injection H as <-. split_and!; [lia|done|]. cbn [phrase].
  rewrite <- Ec. by apply canonical_lt.
Qed.

Lemma newtype_from_str_sound_witness :
  phrase (Newtype 1 : SessionSeq) < 2 ^ length_bits (newtype_length NSessionSeq).
Proof. apply (newtype_from_str_sound NSessionSeq "  Ability "). vm_compute. reflexivity. Defined.
