(* ===== verification/Hash.v ===== *)
(** * Hashing ([common/src/hash.rs]) and signable fields ([common/src/keys.rs])

    The incremental hasher is modelled by the bytes it has absorbed; the digest
    is the one of the [Sha3] interface.  Length-prefixed updates are proved
    unambiguous: the absorbed bytes determine the sequence of updates. *)
From S2P Require Import Prelude External.
Open Scope N_scope.

Definition OUT_LEN : nat := 32.

Section hash.
Context `{!Sha3}.

(** [hash]. *)
Definition hash (bytes : list byte) : list byte := sha3_256 bytes.

(** [Hasher]: the digest state and the byte count. *)
Record Hasher := mkHasher {
  inner : list byte;
  count : N;
}.

Definition hasher_new : Hasher := mkHasher [] 0.

Definition update (h : Hasher) (bytes : list byte) : Hasher :=
  mkHasher (inner h ++ bytes) ((count h + N.of_nat (length bytes)) mod 2 ^ 64).

(** [Hasher::update_with_len]: the length as a big-endian [u64], then the bytes. *)
Definition update_with_len (h : Hasher) (bytes : list byte) : Hasher :=
  update (update h (be_bytes 8 (N.of_nat (length bytes)))) bytes.

Definition finalize (h : Hasher) : list byte := sha3_256 (inner h).

(** [ToBeSignedFields]: labelled, length-prefixed fields. *)
Definition tbs_new (type_name : list byte) : Hasher := update_with_len hasher_new type_name.
Definition tbs_field (h : Hasher) (label value : list byte) : Hasher :=
  update_with_len (update_with_len h label) value.
Definition tbs_finish (h : Hasher) : list byte := finalize h.

(** ** Framing *)

(** What one [update_with_len] absorbs. *)
Definition frame (bytes : list byte) : list byte := be_bytes 8 (N.of_nat (length bytes)) ++ bytes.
Definition frames (chunks : list (list byte)) : list byte := concat (map frame chunks).

(** Rust slices are shorter than [2^63] bytes, so every length fits the prefix. *)
Definition fits_u64 (bytes : list byte) : Prop := N.of_nat (length bytes) < 2 ^ 64.

Lemma inner_update_with_len h bs : inner (update_with_len h bs) = inner h ++ frame bs.
Proof. unfold update_with_len, update, frame. simpl. by rewrite <- app_assoc. Qed.

Lemma inner_tbs_field h l v : inner (tbs_field h l v) = inner h ++ frames [l; v].
Proof.
  unfold tbs_field, frames. rewrite !inner_update_with_len. simpl.
  by rewrite app_nil_r, <- app_assoc.
Qed.

Lemma inner_tbs_new n : inner (tbs_new n) = frames [n].
Proof. unfold tbs_new, frames. rewrite inner_update_with_len. simpl. by rewrite app_nil_r. Qed.

Lemma frames_app c1 c2 : frames (c1 ++ c2) = frames c1 ++ frames c2.
Proof. unfold frames. by rewrite map_app, concat_app. Qed.

Lemma frame_app_inj a b r s :
  fits_u64 a → fits_u64 b → frame a ++ r = frame b ++ s → a = b ∧ r = s.
Proof.
  unfold fits_u64. intros Ha Hb E. unfold frame in E. rewrite <- !app_assoc in E.
  apply app_inj_1 in E as [E1 E2]; [|by rewrite !length_be_bytes].
  apply (be_bytes_inj 8) in E1; [|done|done].
  apply app_inj_1 in E2; [done|lia].
Qed.

Lemma frames_inj c1 c2 :
  Forall fits_u64 c1 → Forall fits_u64 c2 → frames c1 = frames c2 → c1 = c2.
Proof.
  intros H1. revert c2. induction H1 as [|a c1 Ha H1 IH]; intros c2 H2 E.
  - destruct c2 as [|b c2]; [done|].
    apply (f_equal length) in E. unfold frames, frame in E. simpl in E.
    rewrite !length_app in E. simpl in E. lia.
  - destruct H2 as [|b c2 Hb H2].
    + apply (f_equal length) in E. unfold frames, frame in E. simpl in E.
      rewrite !length_app in E. simpl in E. lia.
    + unfold frames in E. simpl in E. apply frame_app_inj in E as [-> E]; [|done..].
      f_equal. by apply IH.
Qed.
End hash.
#[export] Hint Rewrite @inner_tbs_field @inner_tbs_new @inner_update_with_len : sush.
