(* ===== verification/Targets.v ===== *)
(** * Job targets ([common/src/targets.rs])

    Which sleds a request names: the grammar ([*] or a comma-separated list of
    baseboards and cubby numbers), resolution to reachable baseboards by the
    sled that accepts a job, and the check every receiving sled repeats. *)
From stdpp Require Import pretty.
From S2P Require Import Prelude External Codephrases.
Open Scope N_scope.

(** [Cubbies]: baseboards by cubby number (a [u8]). *)
Abbreviation Cubbies := (gmap N BaseboardId).
Definition MAX_CUBBY : N := 31.

Inductive SledId :=
| SBaseboard (b : BaseboardId)
| SCubby (c : N).

Inductive Target :=
| TAll
| TSleds (sleds : list SledId).

#[export] Instance SledId_eq_dec : EqDecision SledId.
Proof. solve_decision. Defined.
#[export] Instance Target_eq_dec : EqDecision Target.
Proof. solve_decision. Defined.

(** [InvalidTarget] names the string; [UnknownCubby] the cubby. *)
Inductive InvalidTarget := mkInvalidTarget (s : string).
Inductive UnknownCubby := mkUnknownCubby (c : N).

(** The loop of [Target::resolve]: collect the named baseboards, stopping at
    the first cubby nobody occupies. *)
Fixpoint resolve_sleds (sleds : list SledId) (cubbies : Cubbies) (named : gset BaseboardId) :
    result (gset BaseboardId) UnknownCubby :=
  match sleds with
  | [] => Ok named
  | SBaseboard b :: sleds => resolve_sleds sleds cubbies ({[b]} ∪ named)
  | SCubby c :: sleds =>
    match cubbies !! c with
    | Some b => resolve_sleds sleds cubbies ({[b]} ∪ named)
    | None => Err (mkUnknownCubby c)
    end
  end.

(** [Target::resolve]. *)
Definition resolve (t : Target) (reachable : gset BaseboardId) (cubbies : Cubbies) :
    result (gset BaseboardId) UnknownCubby :=
  match t with
  | TAll => Ok reachable
  | TSleds sleds =>
    match resolve_sleds sleds cubbies ∅ with
    | Ok named => Ok (named ∩ reachable)
    | Err e => Err e
    end
  end.

Definition sled_matches (baseboard : BaseboardId) (cubby : option N) (s : SledId) : bool :=
  match s with
  | SBaseboard listed => bool_decide (listed = baseboard)
  | SCubby listed => bool_decide (Some listed = cubby)
  end.

(** [Target::matches]. *)
Definition target_matches (t : Target) (baseboard : BaseboardId) (cubby : option N) : bool :=
  match t with
  | TAll => true
  | TSleds sleds => existsb (sled_matches baseboard cubby) sleds
  end.

Definition is_all (t : Target) : bool := match t with TAll => true | _ => false end.

(** [Target::is_single]: exactly one sled. *)
Definition is_single (t : Target) : bool := match t with TSleds [_] => true | _ => false end.

Definition single_baseboard (t : Target) : option BaseboardId :=
  match t with TSleds [SBaseboard b] => Some b | _ => None end.

Definition target_of_baseboard (b : BaseboardId) : Target := TSleds [SBaseboard b].

(** ** Text form *)

Definition string_of_codes (l : list N) : string :=
  foldr (λ n s, String (Ascii.ascii_of_N n) s) EmptyString l.

(** The UTF-8 encodings of the characters [str::trim] removes (Unicode
    White_Space). *)
Definition whitespace_seqs : list string :=
  map string_of_codes
    ([[9]; [10]; [11]; [12]; [13]; [32]; [194; 133]; [194; 160]; [225; 154; 128]] ++
     map (λ k, [226; 128; 128 + N.of_nat k]) (seq 0 11) ++
     [[226; 128; 168]; [226; 128; 169]; [226; 128; 175]; [226; 129; 159]; [227; 128; 128]]).

Fixpoint strip_prefix (p s : string) : option string :=
  match p, s with
  | EmptyString, _ => Some s
  | String a p, String b s => if Ascii.eqb a b then strip_prefix p s else None
  | _, EmptyString => None
  end.

Fixpoint strip_any (ps : list string) (s : string) : option string :=
  match ps with
  | [] => None
  | p :: ps => match strip_prefix p s with Some r => Some r | None => strip_any ps s end
  end.

(** Strip while a pattern matches; every match removes a byte, so the length
    of the string is enough fuel. *)
Fixpoint strip_all (fuel : nat) (ps : list string) (s : string) : string :=
  match fuel with
  | O => s
  | S fuel => match strip_any ps s with Some r => strip_all fuel ps r | None => s end
  end.

Fixpoint string_rev_append (s acc : string) : string :=
  match s with EmptyString => acc | String c s => string_rev_append s (String c acc) end.
Definition str_rev (s : string) : string := string_rev_append s EmptyString.

(** [str::trim]. *)
Definition trim_start (s : string) : string := strip_all (String.length s) whitespace_seqs s.
Definition trim_end (s : string) : string :=
  str_rev (strip_all (String.length s) (map str_rev whitespace_seqs) (str_rev s)).
Definition trim (s : string) : string := trim_end (trim_start s).

Definition comma : Ascii.ascii := Ascii.ascii_of_N 44.

(** [str::split]: always at least one piece. *)
Fixpoint split_on (c : Ascii.ascii) (s : string) : list string :=
  match s with
  | EmptyString => [EmptyString]
  | String a s =>
    if Ascii.eqb a c then EmptyString :: split_on c s
    else match split_on c s with
         | w :: ws => String a w :: ws
         | [] => [String a EmptyString]
         end
  end.

Definition is_digit (c : Ascii.ascii) : bool :=
  let n := Ascii.N_of_ascii c in (48 <=? n) && (n <=? 57).

(** [u8::from_str] on a string of digits: overflow is an error. *)
Fixpoint parse_u8_go (s : string) (acc : N) : option N :=
  match s with
  | EmptyString => Some acc
  | String c s =>
    let acc := acc * 10 + (Ascii.N_of_ascii c - 48) in
    if acc <=? 255 then parse_u8_go s acc else None
  end.

Section text.
Context `{!BaseboardOps}.

(** [impl FromStr for SledId]. *)
Definition sled_id_from_str (s : string) : result SledId InvalidTarget :=
  ok_or
    (if negb (bool_decide (s = EmptyString)) && all_chars is_digit s then
       match parse_u8_go s 0 with
       | Some n => if n <=? MAX_CUBBY then Some (SCubby n) else None
       | None => None
       end
     else SBaseboard <$> baseboard_from_str s)
    (mkInvalidTarget s).

Fixpoint collect_sleds (ws : list string) : result (list SledId) InvalidTarget :=
  match ws with
  | [] => Ok []
  | w :: ws =>
    rbind (sled_id_from_str (trim w)) (λ s, rbind (collect_sleds ws) (λ l, Ok (s :: l)))
  end.

(** [impl FromStr for Target]. *)
Definition target_from_str (s : string) : result Target InvalidTarget :=
  if bool_decide (trim s = "*") then Ok TAll
  else rbind (collect_sleds (split_on comma s)) (λ l, Ok (TSleds l)).

(** [impl Display for SledId] and [impl Display for Target]. *)
Definition sled_id_to_string (s : SledId) : string :=
  match s with SBaseboard b => baseboard_to_string b | SCubby c => pretty c end.

Definition target_to_string (t : Target) : string :=
  match t with
  | TAll => "*"
  | TSleds sleds => String.concat "," (map sled_id_to_string sleds)
  end.
End text.

(** ** Resolution agrees with the receivers' check *)

Lemma resolve_sleds_spec sleds cubbies named s :
  resolve_sleds sleds cubbies named = Ok s →
  ∀ b, b ∈ s ↔ b ∈ named ∨ ∃ sl, sl ∈ sleds ∧
    match sl with SBaseboard b' => b' = b | SCubby c => cubbies !! c = Some b end.
Proof.
  revert named; induction sleds as [|[b'|c] sleds IH]; intros named; simpl.
  - intros [= <-] b. set_solver.
  - intros H b. rewrite (IH _ H). set_solver.
  - destruct (cubbies !! c) as [b'|] eqn:E; [|done].
    intros H b. rewrite (IH _ H). split.
    + intros [[->%elem_of_singleton|?]%elem_of_union|(sl&?&?)]; [right|by left|right].
      * exists (SCubby c). split; [by left|done].
      * exists sl. split; [by right|done].
    + intros [?|(sl&[->|?]%elem_of_cons&Hsl)]; [set_solver| |set_solver].
      left. simplify_eq. set_solver.
Qed.

(** The acceptor's resolution of a target and the check every receiving
    sled makes for itself agree: a reachable sled is in the resolved set exactly
    when the signed target names it by baseboard, or by a cubby the acceptor's
    map places it in. *)
Theorem resolve_agrees_with_matches t reachable cubbies s b :
  resolve t reachable cubbies = Ok s →
  b ∈ s ↔ b ∈ reachable ∧
    (target_matches t b None = true ∨
     ∃ c, cubbies !! c = Some b ∧ target_matches t b (Some c) = true).
Proof.
  destruct t as [|sleds]; simpl.
  { intros [= <-]. naive_solver. }
  destruct (resolve_sleds sleds cubbies ∅) as [named|] eqn:E; [|done].
  intros [= <-]. rewrite elem_of_intersection, (resolve_sleds_spec _ _ _ _ E).
  rewrite !existsb_exists. setoid_rewrite <- list_elem_of_In. split.
  - intros [[?|([b'|c]&Hin&Hsl)] Hr]; [set_solver|..].
    + simplify_eq. split; [done|]. left. exists (SBaseboard b). by simpl; rewrite bool_decide_true.
    + split; [done|]. right. exists c. split; [done|]. apply existsb_exists. exists (SCubby c).
      rewrite <- list_elem_of_In. by simpl; rewrite bool_decide_true.
  - intros [Hr [([b'|c]&Hin&Hm)|(c&Hc&([b'|c']&Hin&Hm)%existsb_exists)]]; (split; [right|done]).
    + exists (SBaseboard b'). split; [done|]. by apply bool_decide_eq_true in Hm.
    + by apply bool_decide_eq_true in Hm.
    + exists (SBaseboard b'). split; [by apply list_elem_of_In|]. by apply bool_decide_eq_true in Hm.
    + exists (SCubby c'). split; [by apply list_elem_of_In|].
      apply bool_decide_eq_true in Hm. by simplify_eq.
Qed.

Lemma resolve_agrees_with_matches_witness :
  let b := mkBaseboardId "p" "s" in
  b ∈ ({[b]} : gset BaseboardId).
Proof.
  apply (resolve_agrees_with_matches (TSleds [SCubby 3]) {[mkBaseboardId "p" "s"]}
           {[3 := mkBaseboardId "p" "s"]}).
  - vm_compute. reflexivity.
  - split; [set_solver|]. right. exists 3. split; vm_compute; reflexivity.
Defined.
