(* ===== verification/Keys.v ===== *)
(** * Keys, signatures and envelopes ([common/src/keys.rs])

    Signed and verified envelopes, the decoding of code-phrase signatures by
    certificate algorithm, and verification against a certificate.  The curve
    arithmetic and X.509 parsing are the [Pki] interface. *)
From S2P Require Import Prelude External Codephrases Hash.
Open Scope N_scope.

(** [KeyError]; messages of wrapped third-party errors are dropped. *)
Inductive KeyError :=
| KDer
| KInvalidCodephrase
| KInvalidKeyId
| KInvalidPublicKey
| KInvalidPublicKeyAlgorithm
| KInvalidSignatureAlgorithm
| KInvalidSignatureEncoding
| KMissingCert (key_id : KeyId)
| KPem
| KPkcs8
| KSignature
| KSignatureTooShort
| KSigner (message : string)
| KSshKey
| KUnanchoredCert (key_id : KeyId)
| KUserPresenceRequired.

(** [EncodedSignature]: the two 256-bit halves, and the security-key trailer. *)
Record EncodedSignature := mkEncodedSignature {
  sig_r : EccR;
  sig_s : EccS;
  sig_flags : N;
  sig_counter : N;
}.
#[export] Instance EncodedSignature_eq_dec : EqDecision EncodedSignature.
Proof. solve_decision. Defined.

(** [trait ToBeSigned]. *)
Class ToBeSigned (T : Type) := to_be_signed : T → list byte.

(** [Signed<T>] and [Verified<T>]. *)
Record Signed (T : Type) := mkSigned {
  payload : T;
  key_id : KeyId;
  signature : EncodedSignature;
}.
Arguments mkSigned {T} _ _ _.
Arguments payload {T} _.
Arguments key_id {T} _.
Arguments signature {T} _.

Record Verified (T : Type) := mkVerified {
  signed : Signed T;
  verified_by : KeyId;
}.
Arguments mkVerified {T} _ _.
Arguments signed {T} _.
Arguments verified_by {T} _.

#[export] Instance Signed_eq_dec {T} `{EqDecision T} : EqDecision (Signed T).
Proof. solve_decision. Defined.

Section keys.
Context `{!Sha3, !Pki}.
Local Open Scope rust_scope.

(** [Signature]: decoded signatures.  Security-key signatures keep their raw
    SSH bytes. *)
Inductive Signature :=
| EcdsaSha256 (s : EcdsaSignature)
| Ed25519 (s : Ed25519Signature)
| SkEcdsaSha256 (raw : list byte)
| SkEd25519 (raw : list byte).

(** [KeyId::try_from(&Certificate)]. *)
Definition key_id_of_cert (cert : Certificate) : result KeyId KeyError :=
  let? der := ok_or (cert_spki_der cert) KDer in
  Ok (newtype_from_hash (hash der)).

(** [EncodedSignature::decode_with_cert]. *)
Definition decode_with_cert (e : EncodedSignature) (alg : AlgorithmIdentifier) :
    result Signature KeyError :=
  let r := newtype_to_be_bytes (sig_r e) in
  let s := newtype_to_be_bytes (sig_s e) in
  match oid alg, parameters alg with
  | ECDSA_WITH_SHA_256, None =>
    let? sg := ok_or (ecdsa_from_scalars r s) KSignature in Ok (EcdsaSha256 sg)
  | ID_ED_25519, None => Ok (Ed25519 (ed25519_from_components r s))
  | _, _ => Err KInvalidPublicKeyAlgorithm
  end.

(** [Signature::verify_with_spki]. *)
Definition verify_with_spki (sg : Signature) (message : list byte) (key : list byte) :
    result () KeyError :=
  match sg with
  | EcdsaSha256 s =>
    if ecdsa_key_ok key then
      if ecdsa_verify key message s then Ok () else Err KSignature
    else Err KSignature
  | Ed25519 s =>
    if negb (length key =? 32)%nat then Err KInvalidPublicKey
    else if ed25519_key_ok key then
      if ed25519_verify key message s then Ok () else Err KSignature
    else Err KSignature
  | SkEcdsaSha256 _ | SkEd25519 _ => Err KInvalidSignatureAlgorithm
  end.

(** [TryFrom<&Certificate> for Signature]. *)
Definition signature_of_cert (cert : Certificate) : result Signature KeyError :=
  if bool_decide (cert_signature_algorithm cert ≠ cert_tbs_signature cert)
  then Err KInvalidSignatureAlgorithm
  else
    match oid (cert_signature_algorithm cert), parameters (cert_signature_algorithm cert) with
    | ECDSA_WITH_SHA_256, None =>
      let? sg := ok_or (ecdsa_from_der (cert_signature cert)) KSignature in Ok (EcdsaSha256 sg)
    | ID_ED_25519, None =>
      let? sg := ok_or (ed25519_from_slice (cert_signature cert)) KSignature in Ok (Ed25519 sg)
    | _, _ => Err KInvalidSignatureAlgorithm
    end.

(** [Signed::signature_algorithm_from_spki]. *)
Definition signature_algorithm_from_spki (alg : AlgorithmIdentifier) :
    result AlgorithmIdentifier KeyError :=
  match oid alg, parameters alg with
  | ID_ED_25519, None => Ok alg
  | ID_EC_PUBLIC_KEY, Some SECP_256_R_1 => Ok (mkAlgorithm ECDSA_WITH_SHA_256 None)
  | _, _ => Err KInvalidPublicKeyAlgorithm
  end.

(** [Signed::verify_with_cert]. *)
Definition verify_with_cert {T} `{!ToBeSigned T} (j : Signed T) (cert : Certificate) :
    result (Verified T) KeyError :=
  let? alg := signature_algorithm_from_spki (cert_spki_algorithm cert) in
  let? sg := decode_with_cert (signature j) alg in
  let? _ := verify_with_spki sg (to_be_signed (payload j)) (cert_spki_key cert) in
  let? kid := key_id_of_cert cert in
  Ok (mkVerified j kid).

Lemma verify_with_cert_signed {T} `{!ToBeSigned T} (j : Signed T) cert v :
  verify_with_cert j cert = Ok v → signed v = j.
Proof.
  unfold verify_with_cert, rbind. intros Hv. cases_in Hv.
Qed.

(** ** Security-key signatures *)

Definition SK_USER_PRESENCE : N := 1.

(** [sk_split]: signature bytes, flags and counter of an [SK-*] signature. *)
Definition sk_split (raw : list byte) : result (list byte * N * N) KeyError :=
  let n := length raw in
  if (n <? 5)%nat then Err KSignatureTooShort
  else
    let trailer := drop (n - 5) raw in
    Ok (take (n - 5) raw, be_value (take 1 trailer), be_value (drop 1 trailer)).

(** [u256_be]: left-pad up to 32 big-endian bytes. *)
Definition u256_be (bytes : list byte) : result (list byte) KeyError :=
  if (32 <? length bytes)%nat then Err KInvalidSignatureEncoding
  else Ok (replicate (32 - length bytes) x00 ++ bytes).
End keys.

Arguments Signature {_}.

Lemma be_value_zeros k bs : be_value (replicate k x00 ++ bs) = be_value bs.
Proof.
  unfold be_value. rewrite foldl_app. f_equal.
  induction k as [|k IH]; [done|]. simpl. exact IH.
Qed.

Lemma u256_be_value bs out :
  u256_be bs = Ok out → length out = 32%nat ∧ be_value out = be_value bs.
Proof.
  unfold u256_be. destruct (Nat.ltb_spec 32 (length bs)) as [|Hlen]; [done|].
  intros [= <-]. split; [|apply be_value_zeros].
  rewrite length_app, length_replicate. lia.
Qed.

Lemma sk_split_app sg flags counter :
  sk_split (sg ++ [flags] ++ counter) = Ok (sg, Byte.to_N flags, be_value counter)
  ∨ length counter ≠ 4%nat.
Proof.
  destruct (decide (length counter = 4%nat)) as [Hc|]; [left|by right].
  unfold sk_split. rewrite !length_app. cbn [length].
  rewrite (proj2 (Nat.ltb_ge _ _)) by lia.
  replace (length sg + (1 + length counter) - 5)%nat with (length sg) by lia.
  rewrite take_app_length, drop_app_length. done.
Qed.
