(* ===== verification/Ssh.v ===== *)
(** * SSH keys and signatures ([common/src/keys.rs])

    How code-phrase signatures are rebuilt for an SSH key's algorithm, encoded
    back, and verified; security-key signatures carry a flags byte and a counter
    and must attest user presence.  The key formats and the curve arithmetic are
    the [Ssh] and [Pki] interfaces. *)
From S2P Require Import Prelude External Codephrases Hash Keys.
Open Scope N_scope.

Section ssh.
Context {Isha : Sha3} {Ipki : Pki} {Issh : Ssh}.
Local Open Scope rust_scope.

(** [TryFrom<&ssh_key::PublicKey> for KeyId], [SshPublicKey::key_id]. *)
Definition ssh_key_id (k : SshPublicKey) : result KeyId KeyError :=
  let? bytes := ok_or (ssh_to_bytes k) KSshKey in
  Ok (newtype_from_hash (hash bytes)).

(** [SshPublicKey::is_acceptable_algorithm], [is_sk_algorithm]. *)
Definition is_acceptable_algorithm (a : SshAlgorithm) : bool :=
  match a with
  | AEcdsaNistP256 | AEd25519 | ASkEcdsaSha2NistP256 | ASkEd25519 => true
  | _ => false
  end.
Definition is_sk_algorithm (a : SshAlgorithm) : bool :=
  match a with ASkEcdsaSha2NistP256 | ASkEd25519 => true | _ => false end.

(** [put_mpint]: a length prefix, then the encoding. *)
Definition put_mpint (buf bytes : list byte) : result (list byte) KeyError :=
  let? enc := ok_or (mpint_from_positive bytes) KSshKey in
  Ok (buf ++ be_bytes 4 (N.of_nat (length enc)) ++ enc).

(** [get_mpint]: the integer and the rest of the buffer. *)
Definition get_mpint (buf : list byte) : result (list byte * list byte) KeyError :=
  if (length buf <? 4)%nat then Err KInvalidSignatureEncoding
  else
    let len := N.to_nat (be_value (take 4 buf)) in
    let rest := drop 4 buf in
    if (length rest <? len)%nat then Err KInvalidSignatureEncoding
    else
      let? enc := ok_or (mpint_from_positive (take len rest)) KSshKey in
      Ok (enc, drop len rest).

(** The trailer of a security-key signature. *)
Definition sk_trailer (e : EncodedSignature) : list byte :=
  be_bytes 1 (sig_flags e) ++ be_bytes 4 (sig_counter e).

(** [EncodedSignature::decode_with_ssh_public_key]. *)
Definition decode_with_ssh_public_key (e : EncodedSignature) (alg : SshAlgorithm) :
    result Signature KeyError :=
  let r := newtype_to_be_bytes (sig_r e) in
  let s := newtype_to_be_bytes (sig_s e) in
  match alg with
  | AEcdsaNistP256 =>
    let? sg := ok_or (ecdsa_from_scalars r s) KSignature in Ok (EcdsaSha256 sg)
  | AEd25519 => Ok (Ed25519 (ed25519_from_components r s))
  | ASkEcdsaSha2NistP256 =>
    let? bytes := put_mpint [] r in
    let? bytes := put_mpint bytes s in
    let? raw := ok_or (ssh_signature_new alg (bytes ++ sk_trailer e)) KSshKey in
    Ok (SkEcdsaSha256 raw)
  | ASkEd25519 =>
    let? raw := ok_or (ssh_signature_new alg (r ++ s ++ sk_trailer e)) KSshKey in
    Ok (SkEd25519 raw)
  | _ => Err KInvalidPublicKeyAlgorithm
  end.

(** [Signature::encode]. *)
Definition encode_signature (sg : Signature) : result EncodedSignature KeyError :=
  match sg with
  | EcdsaSha256 s =>
    Ok (mkEncodedSignature (newtype_from_be_bytes (ecdsa_r s)) (newtype_from_be_bytes (ecdsa_s s)) 0 0)
  | Ed25519 s =>
    Ok (mkEncodedSignature (newtype_from_be_bytes (ed25519_r s))
          (newtype_from_be_bytes (ed25519_s s)) 0 0)
  | SkEcdsaSha256 raw =>
    let? (sig, flags, counter) := sk_split raw in
    let? (r, sig) := get_mpint sig in
    let? (s, _) := get_mpint sig in
    let? r := ok_or (mpint_as_positive r) KInvalidSignatureEncoding in
    let? r := u256_be r in
    let? s := ok_or (mpint_as_positive s) KInvalidSignatureEncoding in
    let? s := u256_be s in
    Ok (mkEncodedSignature (newtype_from_be_bytes r) (newtype_from_be_bytes s) flags counter)
  | SkEd25519 raw =>
    let? (sig, flags, counter) := sk_split raw in
    let? s := ok_or (ed25519_from_slice sig) KSignature in
    Ok (mkEncodedSignature (newtype_from_be_bytes (ed25519_r s))
          (newtype_from_be_bytes (ed25519_s s)) flags counter)
  end.

(** [Signature::verify_with_ssh_public_key]. *)
Definition signature_verify_ssh (sg : Signature) (message : list byte) (k : SshPublicKey) :
    result () KeyError :=
  match sg with
  | EcdsaSha256 s =>
    let? raw := ok_or (ecdsa_to_ssh s) KSshKey in
    if ssh_verify k message AEcdsaNistP256 raw then Ok () else Err KSignature
  | Ed25519 s =>
    let? raw := ok_or (ssh_signature_new AEd25519 (ed25519_r s ++ ed25519_s s)) KSshKey in
    if ssh_verify k message AEd25519 raw then Ok () else Err KSignature
  | SkEcdsaSha256 raw =>
    let? (_, flags, _) := sk_split raw in
    if N.land flags SK_USER_PRESENCE =? 0 then Err KUserPresenceRequired
    else if ssh_verify k message ASkEcdsaSha2NistP256 raw then Ok () else Err KSignature
  | SkEd25519 raw =>
    let? (_, flags, _) := sk_split raw in
    if N.land flags SK_USER_PRESENCE =? 0 then Err KUserPresenceRequired
    else if ssh_verify k message ASkEd25519 raw then Ok () else Err KSignature
  end.

(** [Signed::verify_with_ssh_public_key]. *)
Definition verify_with_ssh_public_key {T} `{!ToBeSigned T} (j : Signed T) (k : SshPublicKey) :
    result (Verified T) KeyError :=
  let? sg := decode_with_ssh_public_key (signature j) (ssh_algorithm k) in
  let? _ := signature_verify_ssh sg (to_be_signed (payload j)) k in
  let? kid := ssh_key_id k in
  Ok (mkVerified j kid).

(** [Signed::signature_algorithm_from_ssh_public_key]. *)
Definition signature_algorithm_from_ssh (a : SshAlgorithm) : result AlgorithmIdentifier KeyError :=
  match a with
  | AEcdsaNistP256 | ASkEcdsaSha2NistP256 => Ok (mkAlgorithm ECDSA_WITH_SHA_256 None)
  | AEd25519 | ASkEd25519 => Ok (mkAlgorithm ID_ED_25519 None)
  | _ => Err KInvalidPublicKeyAlgorithm
  end.

(** ** Round trip *)

(** Signatures whose fields have their types' widths; [r] and [s] of a
    signature are positive. *)
Definition signature_wf (e : EncodedSignature) : Prop :=
  0 < phrase (sig_r e) < U256_LIMIT ∧ 0 < phrase (sig_s e) < U256_LIMIT ∧
  sig_flags e < 256 ∧ sig_counter e < 2 ^ 32.

Lemma length_phrase_bytes name (p : Phrase name) : length (newtype_to_be_bytes p) = 32%nat.
Proof. apply length_be_bytes. Qed.

Lemma newtype_bytes_roundtrip name (p : Phrase name) :
  newtype_length name = Full → phrase p < U256_LIMIT →
  newtype_from_be_bytes (newtype_to_be_bytes p) = p.
Proof.
  intros Hf Hp. destruct p as [n]. unfold newtype_from_be_bytes, newtype_to_be_bytes, to_be_bytes,
    from_be_bytes. cbn [phrase] in *. rewrite be_value_be_bytes, Hf. cbn [canonical].
  by rewrite N.mod_small.
Qed.

Lemma be_value_strip bs : be_value (strip_zeros bs) = be_value bs.
Proof.
  induction bs as [|b bs IH]; [done|].
  by destruct b.
Qed.

Lemma length_strip bs : (length (strip_zeros bs) <= length bs)%nat.
Proof. induction bs as [|b bs IH]; [done|]. destruct b; cbn [strip_zeros length]; lia. Qed.

Lemma strip_zeros_pos bs : 0 < be_value bs → strip_zeros bs ≠ [].
Proof. intros Hpos E. rewrite <- be_value_strip, E in Hpos. done. Qed.

Lemma get_put_mpint buf bytes out rest :
  put_mpint buf bytes = Ok out → strip_zeros bytes ≠ [] → (length bytes <= 32)%nat →
  ∃ enc, out = buf ++ be_bytes 4 (N.of_nat (length enc)) ++ enc ∧
    mpint_as_positive enc = Some (strip_zeros bytes) ∧
    get_mpint (be_bytes 4 (N.of_nat (length enc)) ++ enc ++ rest) = Ok (enc, rest).
Proof.
  unfold put_mpint. destruct (mpint_from_positive bytes) as [enc|] eqn:E; [|done]. cbn [ok_or rbind].
  intros [= <-] Hpos Hl. exists enc.
  destruct (mpint_positive_roundtrip _ _ Hpos E) as [E1 E2]. pose proof (mpint_length _ _ E) as Hlen.
  split_and!; [done..|]. unfold get_mpint.
  rewrite length_app, length_be_bytes, (proj2 (Nat.ltb_ge _ _)) by lia.
  rewrite take_app_length', drop_app_length' by (by rewrite length_be_bytes).
  rewrite be_value_be_bytes, N.mod_small, Nat2N.id by (change (256 ^ N.of_nat 4) with 4294967296; lia).
  rewrite length_app, (proj2 (Nat.ltb_ge _ _)) by lia.
  rewrite take_app_length, drop_app_length, E1. done.
Qed.

Lemma sk_split_trailer e sig :
  sig_flags e < 256 → sig_counter e < 2 ^ 32 →
  sk_split (sig ++ sk_trailer e) = Ok (sig, sig_flags e, sig_counter e).
Proof.
  intros Hf Hc. unfold sk_trailer. cbn [be_bytes app].
  destruct (sk_split_app sig (byte_of_N (sig_flags e)) (be_bytes 4 (sig_counter e))) as [E|E];
    [|by rewrite length_be_bytes in E].
  cbn [app be_bytes] in E |- *. rewrite E. rewrite to_N_byte_of_N, N.mod_small by done.
  do 2 f_equal. change (be_value (be_bytes 4 (sig_counter e)) = sig_counter e).
  rewrite be_value_be_bytes. by apply N.mod_small.
Qed.

Lemma u256_be_bytes name (p : Phrase name) :
  u256_be (strip_zeros (newtype_to_be_bytes p)) = Ok (newtype_to_be_bytes p).
Proof.
  pose proof (length_strip (newtype_to_be_bytes p)) as Hl. rewrite length_phrase_bytes in Hl.
  destruct (u256_be (strip_zeros (newtype_to_be_bytes p))) as [out|] eqn:E.
  - apply u256_be_value in E as [E1 E2]. f_equal. rewrite be_value_strip in E2.
    rewrite <- (be_bytes_be_value out), <- (be_bytes_be_value (newtype_to_be_bytes p)).
    by rewrite E1, E2, length_phrase_bytes.
  - unfold u256_be in E. rewrite (proj2 (Nat.ltb_ge _ _)) in E by lia. done.
Qed.

Lemma phrase_bytes_pos name (p : Phrase name) :
  0 < phrase p < U256_LIMIT → strip_zeros (newtype_to_be_bytes p) ≠ [].
Proof.
  intros [H1 H2]. apply strip_zeros_pos. unfold newtype_to_be_bytes, to_be_bytes.
  rewrite be_value_be_bytes. change (256 ^ N.of_nat 32) with U256_LIMIT. by rewrite N.mod_small.
Qed.

(** A signature survives the trip through its SSH form: decoding a
    code-phrase signature for a key's algorithm and encoding the result gives
    the same [r] and [s], and for a security key also the same flags and
    counter, which other algorithms drop. *)
Theorem signature_ssh_roundtrip e alg sg :
  signature_wf e →
  decode_with_ssh_public_key e alg = Ok sg →
  encode_signature sg =
  Ok (if is_sk_algorithm alg then e else mkEncodedSignature (sig_r e) (sig_s e) 0 0).
Proof.
  intros (Hr&Hs&Hf&Hc) Hd.
  assert (Er : newtype_from_be_bytes (newtype_to_be_bytes (sig_r e)) = sig_r e)
    by (apply newtype_bytes_roundtrip; [done|lia]).
  assert (Es : newtype_from_be_bytes (newtype_to_be_bytes (sig_s e)) = sig_s e)
    by (apply newtype_bytes_roundtrip; [done|lia]).
  pose proof (length_phrase_bytes _ (sig_r e)) as Lr.
  pose proof (length_phrase_bytes _ (sig_s e)) as Ls.
  destruct alg; cbn [decode_with_ssh_public_key] in Hd; try done.
  - destruct (ecdsa_from_scalars _ _) as [s0|] eqn:E; [|done]. injection Hd as <-.
    apply ecdsa_scalars in E as [E1 E2]; [|done..]. cbn [encode_signature is_sk_algorithm].
    by rewrite E1, E2, Er, Es.
  - injection Hd as <-. cbn [encode_signature is_sk_algorithm].
    destruct (ed25519_components _ _ Lr Ls) as [E1 E2]. by rewrite E1, E2, Er, Es.
  - destruct (put_mpint [] _) as [b1|] eqn:E1; [|done]. cbn [rbind] in Hd.
    destruct (put_mpint b1 _) as [b2|] eqn:E2; [|done]. cbn [rbind] in Hd.
    destruct (ssh_signature_new _ _) as [raw|] eqn:E3; [|done]. injection Hd as <-.
    apply ssh_signature_new_bytes in E3 as ->. cbn [encode_signature].
    rewrite sk_split_trailer by done. cbn [rbind].
    destruct (get_put_mpint _ _ _ [] E2) as (n2&O2&P2&G2); [by apply phrase_bytes_pos|lia|].
    destruct (get_put_mpint _ _ _ (be_bytes 4 (N.of_nat (length n2)) ++ n2) E1)
      as (n1&O1&P1&G1); [by apply phrase_bytes_pos|lia|].
    rewrite app_nil_r in G2. cbn [app] in O1. subst b1 b2. rewrite <- app_assoc, G1. cbn [rbind].
    rewrite G2. cbn [rbind]. rewrite P1, P2. cbn [ok_or rbind].
    rewrite !u256_be_bytes. cbn [rbind is_sk_algorithm]. rewrite Er, Es. by destruct e.
  - destruct (ssh_signature_new _ _) as [raw|] eqn:E3; [|done]. injection Hd as <-.
    apply ssh_signature_new_bytes in E3 as ->. cbn [encode_signature].
    rewrite app_assoc, sk_split_trailer by done. cbn [rbind].
    rewrite ed25519_slice by done. cbn [ok_or rbind].
    destruct (ed25519_components _ _ Lr Ls) as [E1 E2].
    rewrite E1, E2, Er, Es. by destruct e.
Qed.

(** Security keys must be touched: a signature that verifies under a
    security key's algorithm carries the user-presence flag, and whatever
    verifies is attributed to that very key. *)
Theorem ssh_verification_sound {T} `{!ToBeSigned T} (j : Signed T) k v :
  signature_wf (signature j) →
  verify_with_ssh_public_key j k = Ok v →
  signed v = j ∧ ssh_key_id k = Ok (verified_by v) ∧
  is_acceptable_algorithm (ssh_algorithm k) = true ∧
  (is_sk_algorithm (ssh_algorithm k) = true → N.testbit (sig_flags (signature j)) 0 = true).
Proof.
  intros (Hr&Hs&Hf&Hc). unfold verify_with_ssh_public_key.
  destruct (decode_with_ssh_public_key (signature j) (ssh_algorithm k)) as [sg|] eqn:Ed; [|done].
  cbn [rbind]. destruct (signature_verify_ssh sg _ k) as [[]|] eqn:Ev; [|done]. cbn [rbind].
  destruct (ssh_key_id k) as [kid|] eqn:Ek; [|done]. cbn [rbind]. intros [= <-].
  assert (Hflag : ∀ sig, sk_split (sig ++ sk_trailer (signature j))
                         = Ok (sig, sig_flags (signature j), sig_counter (signature j)))
    by (intros; by apply sk_split_trailer).
  assert (Hbit : ∀ n, (N.land n SK_USER_PRESENCE =? 0) = false → N.testbit n 0 = true).
  { intros n Hn. destruct (N.testbit n 0) eqn:Eb; [done|]. apply N.eqb_neq in Hn. destruct Hn.
    apply N.bits_inj_0. intros i. rewrite N.land_spec. destruct i; [by rewrite Eb|].
    change (N.testbit SK_USER_PRESENCE (N.pos p)) with false. apply andb_false_r. }
  split_and!; [done..| |].
  - clear Ev Ek. by destruct (ssh_algorithm k).
  - intros Hsk. destruct (ssh_algorithm k) eqn:Ea; try done; cbn [decode_with_ssh_public_key] in Ed.
    + destruct (put_mpint [] _) as [b1|] eqn:E1; [|done]. cbn [rbind] in Ed.
      destruct (put_mpint b1 _) as [b2|] eqn:E2; [|done]. cbn [rbind] in Ed.
      destruct (ssh_signature_new _ _) as [raw|] eqn:E3; [|done]. injection Ed as <-.
      apply ssh_signature_new_bytes in E3 as ->. cbn [signature_verify_ssh] in Ev.
      rewrite Hflag in Ev. cbn [rbind] in Ev. apply Hbit. by destruct (_ =? 0).
    + destruct (ssh_signature_new _ _) as [raw|] eqn:E3; [|done]. injection Ed as <-.
      apply ssh_signature_new_bytes in E3 as ->. cbn [signature_verify_ssh] in Ev.
      rewrite app_assoc, Hflag in Ev. cbn [rbind] in Ev. apply Hbit. by destruct (_ =? 0).
Qed.
End ssh.
