(* ===== verification/Jobs.v ===== *)
(** * Sessions, jobs and statuses ([common/src/jobs.rs])

    Session identifiers and the hash chain of job identifiers, signed job
    requests, job statuses and resource limits. *)
From S2P Require Import Prelude External Codephrases Hash Targets Keys.
Open Scope N_scope.

Definition bytes_of_string (s : string) : list byte := String.list_byte_of_string s.

Lemma bytes_of_string_inj s t : bytes_of_string s = bytes_of_string t → s = t.
Proof.
  intros E. rewrite <- (String.string_of_list_byte_of_string s).
  rewrite <- (String.string_of_list_byte_of_string t). unfold bytes_of_string in E. by rewrite E.
Qed.

(** [chrono::DateTime<Utc>]: an instant, here nanoseconds since the epoch. *)
Abbreviation DateTime := Z.

(** ** Job requests *)

Inductive JobMode := Batch | Interactive | StreamInput | StreamOutput.
#[export] Instance JobMode_eq_dec : EqDecision JobMode.
Proof. solve_decision. Defined.

Definition is_batch (m : JobMode) : bool := match m with Batch => true | _ => false end.
Definition is_interactive (m : JobMode) : bool := match m with Interactive => true | _ => false end.
Definition is_streaming (m : JobMode) : bool :=
  match m with StreamInput | StreamOutput => true | _ => false end.
Definition mode_as_str (m : JobMode) : string :=
  match m with
  | Batch => "batch"
  | Interactive => "interactive"
  | StreamInput => "stream-input"
  | StreamOutput => "stream-output"
  end.

(** [JobStartRequest]. *)
Record JobStartRequest := mkJobStartRequest {
  job_id : JobId;
  session_id : SessionId;
  command : string;
  mode : JobMode;
  target : Target;
}.
#[export] Instance JobStartRequest_eq_dec : EqDecision JobStartRequest.
Proof. solve_decision. Defined.

(** [JobStartRequest::target_matches_mode]: interactive jobs name one sled. *)
Definition target_matches_mode (j : JobStartRequest) : bool :=
  is_single (target j) || negb (is_interactive (mode j)).

Abbreviation SignedJob := (Signed JobStartRequest).
Abbreviation VerifiedJob := (Verified JobStartRequest).

(** ** Statuses *)

Inductive JobOutputStream := Stdout | Stderr.
#[export] Instance JobOutputStream_eq_dec : EqDecision JobOutputStream.
Proof. solve_decision. Defined.

Inductive SkipReason := SessionSuperseded | SessionEnded | NotTargeted | CubbyUnknown.
#[export] Instance SkipReason_eq_dec : EqDecision SkipReason.
Proof. solve_decision. Defined.

Inductive ProcessError :=
| PUnknown
| PKilled (signal : Z)
| PInteractive (message : string)
| PInvalidCommand
| PInvalidJob (message : string)
| PIo (what error : string)
| POutputLimitExceeded (stream : JobOutputStream) (limit : N)
| PJoin (message : string)
| PInterrupted.
#[export] Instance ProcessError_eq_dec : EqDecision ProcessError.
Proof. solve_decision. Defined.

Record JobOutputState := mkJobOutputState {
  stdout_len : N;
  stderr_len : N;
  stdout_hash : list byte;
  stderr_hash : list byte;
}.
#[export] Instance JobOutputState_eq_dec : EqDecision JobOutputState.
Proof. solve_decision. Defined.

Inductive JobStatus :=
| Cancelled (id : JobId) (time_cancelled : DateTime) (actor : KeyId)
| Queued (id : JobId) (time_queued : DateTime) (actor : KeyId)
| Error (id : JobId) (time_error : DateTime) (error : ProcessError)
| Started (id : JobId) (time_started : DateTime)
| Stopped (id : JobId) (time_started time_stopped : DateTime)
    (res : result Z ProcessError) (output : JobOutputState)
| Skipped (id : JobId) (time_skipped : DateTime) (reason : SkipReason).

#[export] Instance JobStatus_eq_dec : EqDecision JobStatus.
Proof. solve_decision. Defined.

(** [JobStatusMap]. *)
Abbreviation JobStatusMap := (gmap BaseboardId JobStatus).

(** [JobStatus::is_terminal]. *)
Definition is_terminal (s : JobStatus) : bool :=
  match s with
  | Cancelled _ _ _ | Error _ _ _ | Stopped _ _ _ _ _ | Skipped _ _ _ => true
  | _ => false
  end.

(** [JobStatus::time]. *)
Definition status_time (s : JobStatus) : DateTime :=
  match s with
  | Cancelled _ t _ | Queued _ t _ | Error _ t _ | Started _ t
  | Stopped _ _ t _ _ | Skipped _ t _ => t
  end.

(** [JobStatus::job_id]. *)
Definition status_job_id (s : JobStatus) : JobId :=
  match s with
  | Cancelled i _ _ | Queued i _ _ | Error i _ _ | Started i _
  | Stopped i _ _ _ _ | Skipped i _ _ => i
  end.

Definition is_active (s : JobStatus) : bool := match s with Started _ _ => true | _ => false end.

(** [JobStatus::time_elapsed], at the clock reading [now]. *)
Definition time_elapsed (now : DateTime) (s : JobStatus) : Z :=
  match s with
  | Cancelled _ _ _ | Error _ _ _ | Skipped _ _ _ => 0
  | Queued _ t _ | Started _ t => now - t
  | Stopped _ t t' _ _ => t' - t
  end%Z.

(** ** Attach access and limits *)

Inductive Access := ReadOnly | ReadWrite.
#[export] Instance Access_eq_dec : EqDecision Access.
Proof. solve_decision. Defined.

Record JobLimits := mkJobLimits { max_cpu : N; max_mem : N; max_fsize : N }.
#[export] Instance JobLimits_eq_dec : EqDecision JobLimits.
Proof. solve_decision. Defined.

(** [JobLimits::default]: also the ceilings. *)
Definition default_limits : JobLimits := mkJobLimits 3600 (8 * 10 ^ 9) (10 * 10 ^ 9).

(** [JobLimits::clamp]; [hard r] reads the hard limit of a resource and can fail. *)
Inductive Resource := RCpu | RAs | RFsize.
Definition clamp (hard : Resource → result N string) (l : JobLimits) : result JobLimits string :=
  let ceiling := default_limits in
  rbind (hard RCpu) (λ cpu,
  rbind (hard RAs) (λ mem,
  rbind (hard RFsize) (λ fsize,
  Ok (mkJobLimits (N.min (N.min (max_cpu l) (max_cpu ceiling)) cpu)
                  (N.min (N.min (max_mem l) (max_mem ceiling)) mem)
                  (N.min (N.min (max_fsize l) (max_fsize ceiling)) fsize))))).

(** ** Session sequence numbers *)

Definition MAX_MILLIS : N := N.shiftl 1 44 - 1.

(** [SessionSeq::from_unix_millis]: fails out of the four-word range. *)
Definition from_unix_millis (millis : N) : option SessionSeq :=
  if MAX_MILLIS <? millis then None else Some (Newtype (from_u64 millis)).

(** [SessionSeq::as_unix_millis]: [None] models the [expect] panicking. *)
Definition as_unix_millis (s : SessionSeq) : option N := to_u64 (phrase s).

(** ** The hash chain *)

(** [SessionPreimage]: what a session identifier hashes over. *)
Record SessionPreimage := mkSessionPreimage {
  baseboard : BaseboardId;
  sush_nonce : SessionSushNonce;
  signer_nonce : SessionSignerNonce;
  seq : SessionSeq;
}.

(** [LastJob]: where a session's chain stands. *)
Inductive LastJob :=
| LNone
| LSome (job : SignedJob)
| LBurned (id : JobId)
| LResumed (next : JobId).

(** [Session]. *)
Record Session := mkSession {
  sess_id : SessionId;
  last_job : LastJob;
  started_by : option KeyId;
}.

Section chain.
Context `{!Sha3, !BaseboardOps}.

(** [SessionPreimage::session_id]: the bytes hashed, then the identifier. *)
Definition session_preimage_hasher (p : SessionPreimage) : Hasher :=
  let h := hasher_new in
  let h := update_with_len h (bytes_of_string "SUSH_SESSION_ID_V2") in
  let h := update_with_len h (bytes_of_string "baseboard_id") in
  let h := update_with_len h (bytes_of_string (part_number (baseboard p))) in
  let h := update_with_len h (bytes_of_string (serial_number (baseboard p))) in
  let h := update_with_len h (bytes_of_string "sush_nonce") in
  let h := update_with_len h (newtype_to_be_bytes (sush_nonce p)) in
  let h := update_with_len h (bytes_of_string "signer_nonce") in
  let h := update_with_len h (newtype_to_be_bytes (signer_nonce p)) in
  let h := update_with_len h (bytes_of_string "seq") in
  update_with_len h (newtype_to_be_bytes (seq p)).

Definition preimage_session_id (p : SessionPreimage) : SessionId :=
  newtype_from_hash (finalize (session_preimage_hasher p)).

(** [SessionSushNonce::compute]. *)
Definition sush_nonce_compute (client : SessionClientNonce) (server : SessionServerNonce) :
    SessionSushNonce :=
  let h := hasher_new in
  let h := update_with_len h (bytes_of_string "SUSH_SESSION_NONCE_V2") in
  let h := update_with_len h (bytes_of_string "client_nonce") in
  let h := update_with_len h (newtype_to_be_bytes client) in
  let h := update_with_len h (bytes_of_string "server_nonce") in
  newtype_from_hash (finalize (update_with_len h (newtype_to_be_bytes server))).

Definition TYPE_NAME : list byte := bytes_of_string "sush_common::jobs::JobStartRequest".

(** [impl ToBeSigned for JobStartRequest]: labelled fields, defaults omitted. *)
Definition job_tbs_fields (j : JobStartRequest) : Hasher :=
  let fields := tbs_new TYPE_NAME in
  let fields := tbs_field fields (bytes_of_string "job_id") (newtype_to_be_bytes (job_id j)) in
  let fields :=
    tbs_field fields (bytes_of_string "session_id") (newtype_to_be_bytes (session_id j)) in
  let fields := tbs_field fields (bytes_of_string "command") (bytes_of_string (command j)) in
  let fields :=
    if negb (is_batch (mode j))
    then tbs_field fields (bytes_of_string "mode") (bytes_of_string (mode_as_str (mode j)))
    else fields in
  if negb (is_all (target j))
  then tbs_field fields (bytes_of_string "target") (bytes_of_string (target_to_string (target j)))
  else fields.

#[export] Instance job_to_be_signed : ToBeSigned JobStartRequest :=
  λ j, tbs_finish (job_tbs_fields j).

(** [SessionId::next_job_id]: the identifier the next job must carry. *)
Definition next_job_id (sid : SessionId) (last : LastJob) : JobId :=
  match last with
  | LNone =>
    newtype_from_hash (hash (bytes_of_string "None" ++ newtype_to_be_bytes sid))
  | LSome job =>
    newtype_from_hash (hash (bytes_of_string "Some" ++ to_be_signed (payload job)))
  | LBurned id =>
    newtype_from_hash (hash (bytes_of_string "Burned" ++ newtype_to_be_bytes id))
  | LResumed next => next
  end.

(** [Session]'s operations. *)
Definition session_new (sid : SessionId) : Session := mkSession sid LNone None.
Definition session_started (sid : SessionId) (actor : KeyId) : Session :=
  mkSession sid LNone (Some actor).
Definition session_next_job_id (s : Session) : JobId := next_job_id (sess_id s) (last_job s).
Definition job_started (s : Session) (job : SignedJob) : Session :=
  mkSession (sess_id s) (LSome job) (started_by s).
Definition resume_at (s : Session) (successor : JobId) : Session :=
  mkSession (sess_id s) (LResumed successor) (started_by s).

(** [Session::skip_job]: burn the next job or the head of the chain; the
    boolean tells whether the chain moved. *)
Definition skip_job (s : Session) (id : JobId) : bool * Session :=
  if bool_decide (id = session_next_job_id s)
     || match last_job s with
        | LSome job => bool_decide (job_id (payload job) = id)
        | _ => false
        end
  then (true, mkSession (sess_id s) (LBurned id) (started_by s))
  else (false, s).

(** ** Facts *)

Lemma skip_job_keeps s id : sess_id (skip_job s id).2 = sess_id s ∧
  started_by (skip_job s id).2 = started_by s.
Proof. unfold skip_job. by case_match. Qed.

(** The chunks a job request feeds to the hasher. *)
Definition job_chunks (j : JobStartRequest) : list (list byte) :=
  [TYPE_NAME; bytes_of_string "job_id"; newtype_to_be_bytes (job_id j);
   bytes_of_string "session_id"; newtype_to_be_bytes (session_id j);
   bytes_of_string "command"; bytes_of_string (command j)]
  ++ (if negb (is_batch (mode j))
      then [bytes_of_string "mode"; bytes_of_string (mode_as_str (mode j))] else [])
  ++ (if negb (is_all (target j))
      then [bytes_of_string "target"; bytes_of_string (target_to_string (target j))] else []).

Lemma inner_job_tbs_fields j : inner (job_tbs_fields j) = frames (job_chunks j).
Proof.
  unfold job_tbs_fields, job_chunks.
  rewrite !frames_app. destruct (negb (is_batch (mode j))), (negb (is_all (target j)));
    rewrite ?inner_tbs_field, ?inner_tbs_new, <- ?frames_app; simpl; by rewrite ?app_nil_r.
Qed.

(** A request whose fields have the widths the types allow, and whose target's
    text form parses back to it. *)
Definition request_wf (j : JobStartRequest) : Prop :=
  phrase (job_id j) < U256_LIMIT ∧ phrase (session_id j) < U256_LIMIT ∧
  fits_u64 (bytes_of_string (command j)) ∧
  fits_u64 (bytes_of_string (target_to_string (target j))) ∧
  target_from_str (target_to_string (target j)) = Ok (target j).

Lemma mode_as_str_inj m n : mode_as_str m = mode_as_str n → m = n.
Proof. by destruct m, n. Qed.

Lemma job_chunks_fit j : request_wf j → Forall fits_u64 (job_chunks j).
Proof.
  intros (_&_&Hc&Ht&_).
  assert (Hmode : fits_u64 (bytes_of_string (mode_as_str (mode j)))) by (destruct (mode j); done).
  assert (Hnt : ∀ name (p : Phrase name), fits_u64 (newtype_to_be_bytes p)).
  { intros. unfold fits_u64, newtype_to_be_bytes, to_be_bytes. rewrite length_be_bytes. done. }
  unfold job_chunks. repeat (apply Forall_app; split); repeat constructor; try done; try apply Hnt.
  - case_match; repeat constructor; done.
  - case_match; repeat constructor; done.
Qed.

Lemma optional_chunks_inj m1 m2 t1 t2 :
  target_from_str (target_to_string t1) = Ok t1 →
  target_from_str (target_to_string t2) = Ok t2 →
  (if negb (is_batch m1) then [bytes_of_string "mode"; bytes_of_string (mode_as_str m1)] else [])
  ++ (if negb (is_all t1)
      then [bytes_of_string "target"; bytes_of_string (target_to_string t1)] else [])
  = (if negb (is_batch m2) then [bytes_of_string "mode"; bytes_of_string (mode_as_str m2)] else [])
  ++ (if negb (is_all t2)
      then [bytes_of_string "target"; bytes_of_string (target_to_string t2)] else []) →
  m1 = m2 ∧ t1 = t2.
Proof.
  intros Ht1 Ht2.
  assert (Hm : ∀ m n, bytes_of_string (mode_as_str m) = bytes_of_string (mode_as_str n) → m = n)
    by (intros ?? ?%bytes_of_string_inj; by apply mode_as_str_inj).
  assert (Ht : bytes_of_string (target_to_string t1) = bytes_of_string (target_to_string t2) → t1 = t2)
    by (intros Hs%bytes_of_string_inj; congruence).
  assert (Hb : ∀ m, is_batch m = true → m = Batch) by by intros [].
  assert (Ha : ∀ t, is_all t = true → t = TAll) by by intros [].
  destruct (is_batch m1) eqn:B1, (is_batch m2) eqn:B2, (is_all t1) eqn:A1, (is_all t2) eqn:A2;
    cbn [negb app]; intros E;
    repeat lazymatch type of E with _ :: _ = _ :: _ => apply cons_inv in E as [? E] end;
    try discriminate; split; eauto; try (rewrite (Hb m1), (Hb m2) by done; done);
    rewrite (Ha t1), (Ha t2) by done; done.
Qed.

Lemma job_chunks_inj j k :
  request_wf j → request_wf k → job_chunks j = job_chunks k → j = k.
Proof.
  destruct j as [i1 s1 c1 m1 t1], k as [i2 s2 c2 m2 t2].
  intros (Hi1&Hs1&_&_&Ht1) (Hi2&Hs2&_&_&Ht2) E.
  unfold job_chunks in E. cbn [job_id session_id command mode target] in *.
  cbn [app] in E.
  apply cons_inv in E as [_ E]. apply cons_inv in E as [_ E].
  apply cons_inv in E as [Ei E]. apply cons_inv in E as [_ E].
  apply cons_inv in E as [Es E]. apply cons_inv in E as [_ E].
  apply cons_inv in E as [Ec E].
  apply newtype_to_be_bytes_inj in Ei as ->; [|done..].
  apply newtype_to_be_bytes_inj in Es as ->; [|done..].
  apply bytes_of_string_inj in Ec as ->.
  by apply optional_chunks_inj in E as [-> ->].
Qed.

(** Signed bytes identify the request: two well-formed job requests with
    the same bytes to sign are the same request, unless they exhibit a SHA3-256
    collision between their own encodings. *)
Theorem job_to_be_signed_inj j k :
  request_wf j → request_wf k →
  to_be_signed j = to_be_signed k →
  j = k ∨ (inner (job_tbs_fields j) ≠ inner (job_tbs_fields k)
           ∧ sha3_256 (inner (job_tbs_fields j)) = sha3_256 (inner (job_tbs_fields k))).
Proof.
  intros Hj Hk E.
  destruct (decide (inner (job_tbs_fields j) = inner (job_tbs_fields k))) as [Ei|]; [|by right].
  left. rewrite !inner_job_tbs_fields in Ei.
  apply frames_inj in Ei; [|by apply job_chunks_fit..]. by apply job_chunks_inj.
Qed.

(** Skipping converges: burning the next job before it starts and burning
    it after it started leave the chain at the same place, so a server that
    hears the skip late agrees with the signer that unwound the job. *)
Theorem skip_converges s (job : SignedJob) :
  job_id (payload job) = session_next_job_id s →
  skip_job s (job_id (payload job))
  = skip_job (job_started s job) (job_id (payload job)).
Proof.
  intros E. unfold skip_job. cbn [job_started last_job sess_id started_by].
  rewrite (bool_decide_true _ E).
  rewrite (bool_decide_true (job_id (payload job) = job_id (payload job))) by done.
  by rewrite orb_true_r.
Qed.

(** A session resumed at the recorded successor expects exactly the job the
    session that ran [job] would expect. *)
Lemma resume_at_next s job :
  session_next_job_id (resume_at s (next_job_id (sess_id s) (LSome job)))
  = session_next_job_id (job_started s job).
Proof. done. Qed.
End chain.

(** Limits only narrow: a clamped request never exceeds what was asked
    for, the server's ceilings, or the process's own hard limits. *)
Theorem clamp_narrows hard l l' :
  clamp hard l = Ok l' →
  (max_cpu l' <= max_cpu l ∧ max_cpu l' <= max_cpu default_limits ∧
   ∃ h, hard RCpu = Ok h ∧ max_cpu l' <= h) ∧
  (max_mem l' <= max_mem l ∧ max_mem l' <= max_mem default_limits ∧
   ∃ h, hard RAs = Ok h ∧ max_mem l' <= h) ∧
  (max_fsize l' <= max_fsize l ∧ max_fsize l' <= max_fsize default_limits ∧
   ∃ h, hard RFsize = Ok h ∧ max_fsize l' <= h).
Proof.
  unfold clamp. destruct (hard RCpu) as [c|], (hard RAs) as [m|], (hard RFsize) as [f|];
    simpl; try done.
  intros [= <-]. cbn [max_cpu max_mem max_fsize].
  split_and!; try lia; eexists; (split; [done|lia]).
Qed.

Lemma clamp_narrows_witness :
  max_cpu (mkJobLimits 10 20 30) <= max_cpu (mkJobLimits 99999 20 30).
Proof.
  pose proof (clamp_narrows (λ r, Ok (match r with RCpu => 10 | _ => 10 ^ 12 end))
                (mkJobLimits 99999 20 30) (mkJobLimits 10 20 30)) as H.
  apply H. vm_compute. reflexivity.
Defined.

(** Sequence numbers round-trip through the four-word range, and readings
    outside it are refused. *)
Theorem unix_millis_roundtrip millis :
  match from_unix_millis millis with
  | Some s => millis <= MAX_MILLIS ∧ as_unix_millis s = Some millis
              ∧ newtype_try_from (phrase s) = Ok s
  | None => MAX_MILLIS < millis
  end.
Proof.
  unfold from_unix_millis. destruct (N.ltb_spec MAX_MILLIS millis) as [|Hle]; [done|].
  split_and!; [done| |].
  - unfold as_unix_millis, to_u64, to_be_bytes, from_u64; cbn [phrase].
    assert (Hm : millis < 2 ^ 44) by (change (2 ^ 44) with (N.succ MAX_MILLIS); lia).
    assert (E : be_bytes 32 millis = replicate 24 x00 ++ be_bytes 8 millis).
    { rewrite <- (be_bytes_be_value (replicate 24 x00 ++ be_bytes 8 millis)).
      rewrite be_value_zeros, be_value_be_bytes, length_app, length_replicate, length_be_bytes.
      rewrite N.mod_small; [done|]. eapply N.lt_trans; [exact Hm|done]. }
    rewrite E. rewrite take_app_length', drop_app_length' by (by rewrite length_replicate).
    change (existsb _ _) with false. cbn iota. f_equal.
    rewrite be_value_be_bytes. apply N.mod_small. eapply N.lt_trans; [exact Hm|done].
  - unfold newtype_try_from. rewrite canonical_fixed, N.eqb_refl; [done|].
    cbn [phrase newtype_length length_bits]. unfold from_u64, SHORT_BITS.
    change (2 ^ 44) with (N.succ MAX_MILLIS). lia.
Qed.
