(* ===== verification/Messages.v ===== *)
(** * Gossip messages ([server/src/messages.rs]) and start parameters ([api/src/lib.rs]) *)
From S2P Require Import Prelude External Codephrases Targets Keys Jobs.

(** [JobWait] and its methods. *)
Inductive JobWait := WNone | WStart | WStop.

Definition wait_is_some (w : JobWait) : bool := match w with WNone => false | _ => true end.

(** [JobWait::matches_status]. *)
Definition matches_status (w : JobWait) (s : JobStatus) : bool :=
  match w with
  | WNone => true
  | WStart => match s with Queued _ _ _ => false | _ => true end
  | WStop => is_terminal s
  end.

(** [JobStartParams]. *)
Record JobStartParams := mkJobStartParams {
  limits : JobLimits;
  term : option string;
  rows : option N;
  cols : option N;
  wait : JobWait;
}.

(** [VersionInfo]. *)
Record VersionInfo := mkVersionInfo { version : string; commit : string }.

(** [v0::SessionRequest], [v0::JobRequest]. *)
Inductive SessionRequest :=
| SRStart (preimage : SessionPreimage)
| SRStop (sid : SessionId)
| SRSkip (sid : SessionId) (id : JobId)
| SRAllowAttach (sid : SessionId) (kid : KeyId) (access : Access)
| SRDenyAttach (sid : SessionId) (kid : KeyId).

Inductive JobRequest :=
| JRStart (job : SignedJob) (params : JobStartParams) (sleds : gset BaseboardId)
| JRStop (id : JobId).

(** [v0::Attributed<T>]: a request and the key that made it. *)
Record Attributed (T : Type) := mkAttributed { actor : KeyId; request : T }.
Arguments mkAttributed {T} _ _.
Arguments actor {T} _.
Arguments request {T} _.

(** [v0::Request]. *)
Inductive Request :=
| RSession (r : Attributed SessionRequest)
| RJob (r : Attributed JobRequest).

Definition request_actor (r : Request) : KeyId :=
  match r with RSession r => actor r | RJob r => actor r end.

(** [v0::JobEvent] and [v0::Event]. *)
Inductive JobEvent :=
| EStart (id : JobId) (at_ : DateTime)
| EStop (id : JobId) (at_ : DateTime) (res : result Z ProcessError) (output : JobOutputState)
| EError (id : JobId) (at_ : DateTime) (error : ProcessError)
| ESkipped (id : JobId) (at_ : DateTime) (reason : SkipReason).

Definition event_job_id (e : JobEvent) : JobId :=
  match e with EStart i _ | EStop i _ _ _ | EError i _ _ | ESkipped i _ _ => i end.

Inductive Event :=
| EvJob (e : JobEvent)
| EvVersion (info : VersionInfo).

(** [v0::Message]. *)
Inductive Message :=
| MRequest (r : Request)
| MEvent (b : BaseboardId) (e : Event).

(** [VersionedMessage]: messages of newer builds decode as [Unknown]. *)
Inductive VersionedMessage :=
| V0 (m : Message)
| Unknown (version : string) (message : list byte).
