(* ===== verification/Headers.v ===== *)
(** * Authentication headers ([AuthnParams] of [common/src/authn.rs])

    The [Scheme name=value, ...] syntax, decimal integers, and the proof that a
    header made of plain names and values parses back to its parameters. *)
From S2P Require Import Prelude External Codephrases Targets.
Open Scope N_scope.

Definition AUTHN_SCHEME : string := "Sush".

(** [AuthnError]. *)
Inductive AuthnError :=
| ACodephrase
| ADuplicateParam (name : string)
| AInvalidKey
| AInvalidSignature
| AInvalidParam
| AInvalidScheme (scheme : string)
| AMissingParam (name : string)
| AMissingScheme
| ATooManyParams.

Definition equals : Ascii.ascii := Ascii.ascii_of_N 61.

(** [str::split_once] on one character. *)
Fixpoint split_once (c : Ascii.ascii) (s : string) : option (string * string) :=
  match s with
  | EmptyString => None
  | String a s =>
    if Ascii.eqb a c then Some (EmptyString, s)
    else match split_once c s with
         | Some (l, r) => Some (String a l, r)
         | None => None
         end
  end.

(** [AuthnParams]. *)
Abbreviation AuthnParams := (gmap string string).

Definition eq_ignore_ascii_case (s t : string) : bool :=
  bool_decide (to_ascii_lowercase s = to_ascii_lowercase t).

(** The loop of [AuthnParams::from_str]. *)
Fixpoint add_params (l : list string) (params : AuthnParams) : result AuthnParams AuthnError :=
  match l with
  | [] => Ok params
  | param :: l =>
    match split_once equals param with
    | None => Err AInvalidParam
    | Some (name, value) =>
      let name := to_ascii_lowercase (trim name) in
      if bool_decide (is_Some (params !! name)) then Err (ADuplicateParam name)
      else add_params l (<[name := trim value]> params)
    end
  end.

(** [impl FromStr for AuthnParams]. *)
Definition params_from_str (s : string) : result AuthnParams AuthnError :=
  match split_once space_char s with
  | None => Err AMissingScheme
  | Some (scheme, rest) =>
    if negb (eq_ignore_ascii_case (trim scheme) AUTHN_SCHEME) then Err (AInvalidScheme scheme)
    else add_params (split_on comma rest) ∅
  end.

(** [AuthnParams::get], [parse], [has], [finished]. *)
Definition params_get (p : AuthnParams) (name : string) : result (string * AuthnParams) AuthnError :=
  match p !! name with
  | Some value => Ok (value, delete name p)
  | None => Err (AMissingParam name)
  end.

Definition params_parse {T} (from_str : string → option T) (p : AuthnParams) (name : string) :
    result (T * AuthnParams) AuthnError :=
  rbind (params_get p name) (λ '(value, p), rbind (ok_or (from_str value) AInvalidParam) (λ t, Ok (t, p))).

Definition params_has (p : AuthnParams) (name : string) : bool := bool_decide (is_Some (p !! name)).

Definition params_finished (p : AuthnParams) : result () AuthnError :=
  if bool_decide (p = ∅) then Ok () else Err ATooManyParams.

(** ** Decimal integers *)

Definition digit_char (d : N) : Ascii.ascii := Ascii.ascii_of_N (48 + d).

Fixpoint dec_digits (fuel : nat) (n : N) : list N :=
  match fuel with
  | O => []
  | S fuel => n mod 10 :: (if n / 10 =? 0 then [] else dec_digits fuel (n / 10))
  end.

Definition string_of_digits (ds : list N) : string :=
  foldr (λ d s, String (digit_char d) s) EmptyString ds.

(** [Display] of an unsigned integer; a number has no more digits than bits. *)
Definition uint_to_string (n : N) : string :=
  string_of_digits (reverse (dec_digits (S (N.size_nat n)) n)).

(** The digits of [from_str] for an unsigned integer below [limit]. *)
Fixpoint parse_digits (limit : N) (s : string) (acc : N) : option N :=
  match s with
  | EmptyString => Some acc
  | String c s =>
    if is_digit c then
      let acc := acc * 10 + (Ascii.N_of_ascii c - 48) in
      if acc <? limit then parse_digits limit s acc else None
    else None
  end.

Definition plus_char : Ascii.ascii := Ascii.ascii_of_N 43.

(** [FromStr] of [u8], [u32] and [u64]: one leading plus sign is accepted. *)
Definition uint_from_str (limit : N) (s : string) : option N :=
  match s with
  | EmptyString => None
  | String c rest =>
    if Ascii.eqb c plus_char then
      match rest with EmptyString => None | _ => parse_digits limit rest 0 end
    else parse_digits limit s 0
  end.

(** ** Plain text: lower-case letters, digits and hyphens *)

Definition is_plain (c : Ascii.ascii) : bool :=
  is_lower c || is_digit c || Ascii.eqb c separator_char.

Definition plain (s : string) : Prop := all_chars is_plain s = true.

Lemma plain_cons c s : plain (String c s) ↔ is_plain c = true ∧ plain s.
Proof. unfold plain. cbn. by rewrite andb_true_iff. Qed.

Lemma all_chars_app f s t : all_chars f (s +:+ t) = all_chars f s && all_chars f t.
Proof.
  induction s as [|c s IH]; [done|]. rewrite string_app_cons. cbn. by rewrite IH, andb_assoc.
Qed.

Lemma all_chars_rev_append f s t :
  all_chars f (string_rev_append s t) = all_chars f s && all_chars f t.
Proof.
  revert t; induction s as [|c s IH]; intros t; [done|]. cbn. rewrite IH. cbn.
  rewrite andb_assoc. f_equal. apply andb_comm.
Qed.

Lemma string_rev_append_app s t : string_rev_append s t = str_rev s +:+ t.
Proof.
  unfold str_rev. revert t; induction s as [|c s IH]; intros t; [done|]. cbn.
  rewrite IH, (IH (String c EmptyString)). clear.
  generalize (string_rev_append s EmptyString) as u. intros u.
  induction u as [|d u IHu]; [done|]. rewrite !string_app_cons. by rewrite IHu.
Qed.

Lemma str_rev_involutive s : str_rev (str_rev s) = s.
Proof.
  assert (Hgen : ∀ s t, string_rev_append (string_rev_append s t) EmptyString
                        = string_rev_append t s).
  { clear. induction s as [|c s IH]; intros t; [done|]. cbn. by rewrite IH. }
  apply Hgen.
Qed.

Lemma plain_rev s : plain s → plain (str_rev s).
Proof. unfold plain, str_rev. intros Hs. rewrite all_chars_rev_append, Hs. done. Qed.

(** Nothing is stripped from a string whose first character starts no pattern. *)
Definition starts_plain (p : string) : bool :=
  match p with EmptyString => true | String c _ => is_plain c end.

Lemma strip_any_plain ps s :
  forallb (λ p, negb (starts_plain p)) ps = true → plain s → strip_any ps s = None.
Proof.
  intros Hps Hs. induction ps as [|p ps IH]; [done|]. cbn in Hps.
  apply andb_prop in Hps as [Hp Hps]. cbn. specialize (IH Hps).
  destruct p as [|c p]; [done|]. destruct s as [|d s]; [done|]. cbn [strip_prefix].
  destruct (Ascii.eqb_spec c d) as [->|]; [|done]. apply plain_cons in Hs as [Hd _].
  cbn in Hp. by rewrite Hd in Hp.
Qed.

Lemma strip_all_plain fuel ps s :
  forallb (λ p, negb (starts_plain p)) ps = true → plain s → strip_all fuel ps s = s.
Proof. intros Hps Hs. destruct fuel; cbn; [done|]. by rewrite strip_any_plain. Qed.

Lemma trim_end_plain s : plain s → trim_end s = s.
Proof.
  intros Hs. unfold trim_end. rewrite strip_all_plain; [apply str_rev_involutive|done|by apply plain_rev].
Qed.

Lemma trim_plain s : plain s → trim s = s.
Proof.
  intros Hs. unfold trim, trim_start. rewrite strip_all_plain by done. by apply trim_end_plain.
Qed.

Lemma trim_space_plain s : plain s → trim (String space_char s) = s.
Proof.
  intros Hs. unfold trim, trim_start. cbn [String.length strip_all].
  change (strip_any whitespace_seqs (String space_char s)) with (Some s). cbv iota.
  rewrite strip_all_plain by done. by apply trim_end_plain.
Qed.

Lemma plain_lower s : plain s → to_ascii_lowercase s = s.
Proof.
  intros Hs. unfold to_ascii_lowercase. induction s as [|c s IH]; [done|].
  apply plain_cons in Hs as [Hc Hs]. cbn. rewrite IH by done. f_equal.
  unfold ascii_to_lower. destruct ((65 <=? _) && _) eqn:E; [|done]. exfalso.
  apply andb_prop in E as [E1%N.leb_le E2%N.leb_le]. revert Hc.
  unfold is_plain, is_lower, is_digit. rewrite !orb_true_iff, !andb_true_iff, !N.leb_le.
  intros [[?|?]|Hc]; [lia|lia|].
  apply Ascii.eqb_eq in Hc as ->. cbn in E1. lia.
Qed.

(** Characters that are not plain do not occur. *)
Lemma split_once_plain c s t :
  plain s → is_plain c = false → split_once c (s +:+ String c t) = Some (s, t).
Proof.
  intros Hs Hc. induction s as [|a s IH].
  - cbn. change (EmptyString +:+ String c t) with (String c t). cbn. by rewrite Ascii.eqb_refl.
  - apply plain_cons in Hs as [Ha Hs]. rewrite string_app_cons. cbn.
    destruct (Ascii.eqb_spec a c) as [->|]; [congruence|]. by rewrite IH.
Qed.

(** ** Printing and reading back *)

Definition param_string (p : string * string) : string := p.1 +:+ String equals p.2.

(** [Sush name=value, name=value, ...]. *)
Definition header_string (l : list (string * string)) : string :=
  AUTHN_SCHEME +:+ String space_char (String.concat ", " (map param_string l)).

Definition plain_param (p : string * string) : Prop := plain p.1 ∧ plain p.2.

Definition no_comma (s : string) : Prop := all_chars (λ c, negb (Ascii.eqb c comma)) s = true.

Lemma split_on_without c s : all_chars (λ d, negb (Ascii.eqb d c)) s = true → split_on c s = [s].
Proof.
  induction s as [|d s IH]; cbn; [done|]. intros [Hd Hs]%andb_prop. apply negb_true_iff in Hd. by rewrite Hd, IH.
Qed.

Lemma split_on_app c s t :
  all_chars (λ d, negb (Ascii.eqb d c)) s = true → split_on c (s +:+ String c t) = s :: split_on c t.
Proof.
  induction s as [|d s IH]; cbn [all_chars].
  - intros _. change (EmptyString +:+ String c t) with (String c t). cbn. by rewrite Ascii.eqb_refl.
  - intros [Hd Hs]%andb_prop. apply negb_true_iff in Hd. rewrite string_app_cons. cbn. by rewrite Hd, IH.
Qed.

Lemma plain_no_comma s : plain s → no_comma s.
Proof.
  unfold plain, no_comma. induction s as [|c s IH]; [done|]. cbn [all_chars].
  intros [Hc Hs]%andb_prop. apply andb_true_iff. split; [|auto].
  destruct (Ascii.eqb_spec c comma) as [->|]; done.
Qed.

Lemma param_no_comma p : plain_param p → no_comma (param_string p).
Proof.
  intros [H1 H2]. unfold no_comma, param_string. rewrite all_chars_app. cbn [all_chars].
  by rewrite (plain_no_comma _ H1), (plain_no_comma _ H2).
Qed.

Lemma split_params p l :
  plain_param p → Forall plain_param l →
  split_on comma (String.concat ", " (map param_string (p :: l)))
  = param_string p :: map (λ q, String space_char (param_string q)) l.
Proof.
  intros Hp Hl. revert p Hp. induction Hl as [|q l Hq Hl IH]; intros p Hp.
  - by apply split_on_without, param_no_comma.
  - cbn [map] in *. change (String.concat ", " (param_string p :: param_string q :: map param_string l))
      with (param_string p +:+ String comma
              (String space_char (String.concat ", " (param_string q :: map param_string l)))).
    rewrite split_on_app by by apply param_no_comma. f_equal.
    cbn [split_on]. change (Ascii.eqb space_char comma) with false. cbv iota.
    rewrite (IH q Hq). done.
Qed.

(** One parameter, with or without the space after the comma. *)
Lemma add_params_cons s n v rest params :
  s = param_string (n, v) ∨ s = String space_char (param_string (n, v)) →
  plain_param (n, v) → params !! n = None →
  add_params (s :: rest) params = add_params rest (<[n := v]> params).
Proof.
  intros Hs [Hn Hv] Hfresh. cbn in Hn, Hv. cbn [add_params].
  assert (Es : ∃ n', split_once equals s = Some (n', v) ∧ trim n' = n).
  { unfold param_string in Hs. cbn [fst snd] in Hs. destruct Hs as [-> | ->].
    - exists n. rewrite split_once_plain by done. split; [done|by apply trim_plain].
    - exists (String space_char n). cbn [split_once].
      change (Ascii.eqb space_char equals) with false. cbv iota.
      rewrite split_once_plain by done. split; [done|by apply trim_space_plain]. }
  destruct Es as (n' & -> & ->). rewrite plain_lower, trim_plain by done.
  rewrite bool_decide_false; [done|]. rewrite Hfresh. by intros [].
Qed.

Definition params_of (l : list (string * string)) (m : AuthnParams) : AuthnParams :=
  foldl (λ m q, <[q.1 := q.2]> m) m l.

Lemma add_params_plain l params :
  Forall plain_param l → NoDup l.*1 → (∀ n, n ∈ l.*1 → params !! n = None) →
  add_params (map (λ q, String space_char (param_string q)) l) params = Ok (params_of l params).
Proof.
  intros Hl. revert params. induction Hl as [|[n v] l Hp Hl IH]; intros params Hnd Hfresh; [done|].
  cbn in Hnd. apply NoDup_cons in Hnd as [Hnin Hnd]. cbn [map].
  rewrite (add_params_cons _ n v); [|by right|done|apply Hfresh; cbn; set_solver].
  apply IH; [done|]. intros m Hm. rewrite lookup_insert_ne by (intros ->; done).
  apply Hfresh. cbn. set_solver.
Qed.

(** A header of plain parameters with distinct names reads back as their map. *)
Lemma params_from_header p l :
  Forall plain_param (p :: l) → NoDup (p :: l).*1 →
  params_from_str (header_string (p :: l)) = Ok (params_of (p :: l) ∅).
Proof.
  intros [Hp Hl]%Forall_cons Hnd. unfold params_from_str, header_string.
  change (split_once space_char (AUTHN_SCHEME +:+ String space_char ?r))
    with (Some (AUTHN_SCHEME, r)). cbv iota.
  change (eq_ignore_ascii_case (trim AUTHN_SCHEME) AUTHN_SCHEME) with true. cbn [negb].
  rewrite split_params by done. destruct p as [n v].
  cbn in Hnd. apply NoDup_cons in Hnd as [Hnin Hnd].
  rewrite (add_params_cons _ n v); [|by left|done|apply lookup_empty].
  change (params_of ((n, v) :: l) ∅) with (params_of l (<[n := v]> ∅)).
  apply add_params_plain; [done|done|].
  intros m Hm. rewrite lookup_insert_ne by (intros ->; done). apply lookup_empty.
Qed.

(** ** Plain values *)

Lemma plain_concat ws : Forall plain ws → plain (String.concat WORD_SEPARATOR ws).
Proof.
  induction 1 as [|w ws Hw Hws IH]; [done|]. destruct ws as [|w' ws]; [done|].
  change (String.concat WORD_SEPARATOR (w :: w' :: ws))
    with (w +:+ String separator_char (String.concat WORD_SEPARATOR (w' :: ws))).
  unfold plain in *. rewrite all_chars_app, Hw. cbn. exact IH.
Qed.

Lemma plain_phrase name (p : Phrase name) : plain (newtype_to_string p).
Proof.
  unfold newtype_to_string, codephrase_to_string. apply plain_concat, Forall_reverse.
  rewrite words_le_digits. apply Forall_fmap, (Forall_impl _ _ _ (digits_le_bound _ _)).
  intros d Hd. cbn. assert (Hw : plain_word (word (N.to_nat d)) = true) by (apply word_plain; lia).
  apply plain_all_chars in Hw. unfold plain. revert Hw. generalize (word (N.to_nat d)). clear.
  induction s as [|c s IH]; [done|]. cbn. intros [Hc Hs]%andb_prop.
  unfold is_plain. rewrite Hc. cbn. auto.
Qed.

Lemma digit_char_is_digit d : d < 10 → is_digit (digit_char d) = true ∧ Ascii.N_of_ascii (digit_char d) - 48 = d.
Proof.
  intros Hd. unfold is_digit, digit_char. rewrite Ascii.N_ascii_embedding by lia.
  rewrite andb_true_iff, !N.leb_le. lia.
Qed.

Lemma dec_digits_bound fuel n : Forall (λ d, d < 10) (dec_digits fuel n).
Proof.
  revert n; induction fuel as [|fuel IH]; intros n; cbn; constructor.
  - apply N.mod_lt. lia.
  - by case_match.
Qed.

Lemma plain_digits ds : Forall (λ d, d < 10) ds → plain (string_of_digits ds).
Proof.
  induction 1 as [|d ds Hd Hds IH]; [done|]. cbn [string_of_digits foldr].
  apply plain_cons. split; [|done]. unfold is_plain.
  destruct (digit_char_is_digit d Hd) as [-> _]. by destruct (is_lower _).
Qed.

Lemma plain_uint n : plain (uint_to_string n).
Proof. apply plain_digits, Forall_reverse, dec_digits_bound. Qed.

Lemma dec_digits_value fuel n :
  n < 10 ^ N.of_nat fuel → foldr (λ d a, a * 10 + d) 0 (dec_digits fuel n) = n.
Proof.
  revert n; induction fuel as [|fuel IH]; intros n Hn.
  - change (10 ^ N.of_nat 0) with 1 in Hn. cbn. lia.
  - cbn. rewrite Nat2N.inj_succ, N.pow_succ_r' in Hn. pose proof (N.Div0.div_mod n 10).
    destruct (N.eqb_spec (n / 10) 0); cbn; [lia|].
    rewrite IH by (apply N.Div0.div_lt_upper_bound; lia). lia.
Qed.

Lemma parse_digits_fold limit ds acc :
  Forall (λ d, d < 10) ds → foldl (λ a d, a * 10 + d) acc ds < limit →
  parse_digits limit (string_of_digits ds) acc = Some (foldl (λ a d, a * 10 + d) acc ds).
Proof.
  intros Hds. revert acc; induction Hds as [|d ds Hd Hds IH]; intros acc Hlt; [done|].
  cbn [string_of_digits foldr parse_digits foldl] in *.
  destruct (digit_char_is_digit d Hd) as [-> ->].
  assert (Hge : ∀ l a, a <= foldl (λ a d, a * 10 + d) a l).
  { clear. induction l as [|e l IHl]; intros a; cbn; [lia|]. specialize (IHl (a * 10 + e)). lia. }
  rewrite (proj2 (N.ltb_lt _ _)); [by apply IH|].
  eapply N.le_lt_trans; [apply Hge|exact Hlt].
Qed.

Lemma uint_from_to_string limit n : n < limit → uint_from_str limit (uint_to_string n) = Some n.
Proof.
  intros Hn. unfold uint_to_string. set (ds := dec_digits (S (N.size_nat n)) n).
  assert (Hb : Forall (λ d, d < 10) (reverse ds)) by apply Forall_reverse, dec_digits_bound.
  assert (Hv : foldl (λ a d, a * 10 + d) 0 (reverse ds) = n).
  { transitivity (foldr (λ d a, a * 10 + d) 0 ds).
    - clear. induction ds as [|d l IH]; [done|]. by rewrite reverse_cons, foldl_app, IH.
    - apply dec_digits_value. eapply N.lt_le_trans; [apply N.size_gt|].
      etrans; [apply (N.pow_le_mono_l 2 10); lia|]. apply N.pow_le_mono_r; [lia|].
      assert (Hsz : N.size n = N.of_nat (N.size_nat n)).
      { clear. destruct n as [|p]; [done|]. cbn [N.size N.size_nat].
        induction p as [p IH|p IH|]; [..|done]; cbn [Pos.size Pos.size_nat];
          rewrite Nat2N.inj_succ, <- IH; lia. }
      rewrite Hsz. lia. }
  pose proof (parse_digits_fold limit (reverse ds) 0 Hb) as Hp. rewrite Hv in Hp. specialize (Hp Hn).
  assert (Hne : reverse ds ≠ []).
  { intros E. apply (f_equal length) in E. rewrite length_reverse in E. done. }
  destruct (reverse ds) as [|d l] eqn:E; [done|]. apply Forall_cons in Hb as [Hd _].
  cbn [string_of_digits foldr uint_from_str] in *.
  destruct (Ascii.eqb_spec (digit_char d) plus_char) as [Ep|]; [|exact Hp].
  destruct (digit_char_is_digit d Hd) as [Hdig _]. rewrite Ep in Hdig. done.
Qed.
