(* ===== verification/Addresses.v ===== *)
(** * Socket addresses ([std::net])

    IPv6 and IPv4 socket addresses in the standard library's order, and its parser of
    IPv6 addresses. *)
From S2P Require Import Prelude.
Open Scope N_scope.

(** [SocketAddrV6] and [SocketAddr], in the derived order. *)
Record SocketAddrV6 := mkV6 { v6_ip : N; v6_port : N; v6_flowinfo : N; v6_scope : N }.
Inductive SocketAddr := AddrV4 (ip port : N) | AddrV6 (a : SocketAddrV6).

Definition addr_key (a : SocketAddr) : list N :=
  match a with
  | AddrV4 ip port => [0; ip; port; 0; 0]
  | AddrV6 a => [1; v6_ip a; v6_port a; v6_flowinfo a; v6_scope a]
  end.

Definition addr_of_key (l : list N) : option SocketAddr :=
  match l with
  | [0; ip; port; _; _] => Some (AddrV4 ip port)
  | [1; ip; port; flow; scope] => Some (AddrV6 (mkV6 ip port flow scope))
  | _ => None
  end.

Lemma addr_of_to_key a : addr_of_key (addr_key a) = Some a.
Proof. by destruct a as [|[]]. Qed.

#[export] Instance addr_key_inj : Inj eq eq addr_key.
Proof. intros a b E. apply (f_equal addr_of_key) in E. rewrite !addr_of_to_key in E. by injection E. Qed.

#[export] Instance v6_eq_dec : EqDecision SocketAddrV6.
Proof. solve_decision. Defined.
#[export] Instance addr_eq_dec : EqDecision SocketAddr.
Proof. solve_decision. Defined.
#[export] Instance addr_countable : Countable SocketAddr.
Proof. apply (inj_countable addr_key addr_of_key), addr_of_to_key. Defined.

Fixpoint lex_ltb (l k : list N) : bool :=
  match l, k with
  | x :: l, y :: k => (x <? y) || ((x =? y) && lex_ltb l k)
  | _, _ => false
  end.

Definition addr_ltb (a b : SocketAddr) : bool := lex_ltb (addr_key a) (addr_key b).
Definition addr_le (a b : SocketAddr) : Prop := addr_ltb b a = false.

#[export] Instance addr_le_dec : RelDecision addr_le.
Proof. intros a b. unfold addr_le. apply _. Defined.

Lemma lex_ltb_trichotomy l k : length l = length k → l = k ∨ lex_ltb l k = negb (lex_ltb k l).
Proof.
  revert k. induction l as [|x l IH]; intros [|y k] Hl; try done; [by left|].
  injection Hl as Hl. cbn. destruct (N.ltb_spec x y), (N.ltb_spec y x), (N.eqb_spec x y), (N.eqb_spec y x);
    subst; cbn; try lia; try (by right).
  destruct (IH k Hl) as [->|H1]; [by left|by right].
Qed.

Lemma addr_ltb_trichotomy a b : a ≠ b → addr_ltb a b = negb (addr_ltb b a).
Proof.
  intros Hne. destruct (lex_ltb_trichotomy (addr_key a) (addr_key b)) as [E|E]; [by destruct a, b| |done].
  by apply addr_key_inj in E.
Qed.

(** ** [Ipv6Addr::from_str]

    The standard library's parser: a reader is a function from the rest of the text
    to what it read and what is left. *)

Definition zero_char : Ascii.ascii := Ascii.ascii_of_N 48.
Definition dot_char : Ascii.ascii := Ascii.ascii_of_N 46.
Definition colon_char : Ascii.ascii := Ascii.ascii_of_N 58.

Definition hex_digit (c : Ascii.ascii) : option N :=
  let n := Ascii.N_of_ascii c in
  if (48 <=? n) && (n <=? 57) then Some (n - 48)
  else if (97 <=? n) && (n <=? 102) then Some (n - 87)
  else if (65 <=? n) && (n <=? 70) then Some (n - 55)
  else None.
Definition digit_in (radix : N) (c : Ascii.ascii) : option N :=
  hex_digit c ≫= λ d, if d <? radix then Some d else None.

(** [read_number]: [count] digits were read, [result] their value. *)
Fixpoint read_digits (radix : N) (max count : nat) (result : N) (s : string) : option (nat * N * string) :=
  match s with
  | String c rest =>
    match digit_in radix c with
    | Some d => if (max <=? count)%nat then None else read_digits radix max (S count) (result * radix + d) rest
    | None => Some (count, result, s)
    end
  | EmptyString => Some (count, result, s)
  end.
Definition read_number (radix : N) (max : nat) (zero_prefix : bool) (limit : N) (s : string) : option (N * string) :=
  match read_digits radix max 0 0 s with
  | Some (count, result, rest) =>
    if (count =? 0)%nat || (negb zero_prefix && bool_decide (String.get 0 s = Some zero_char) && (1 <? count)%nat) then None
    else if result <? limit then Some (result, rest) else None
  | None => None
  end.
Definition read_char (c : Ascii.ascii) (s : string) : option string :=
  match s with String d rest => if Ascii.eqb c d then Some rest else None | EmptyString => None end.

(** [read_separator]: not before the first. *)
Definition read_separator (c : Ascii.ascii) (index : nat) (s : string) : option string :=
  match index with O => Some s | S _ => read_char c s end.
Definition read_octet (index : nat) (s : string) : option (N * string) :=
  s ← read_separator dot_char index s; read_number 10 3 false 256 s.
Definition read_ipv4_addr (s : string) : option (N * N * string) :=
  '(a, s) ← read_octet 0 s; '(b, s) ← read_octet 1 s; '(c, s) ← read_octet 2 s; '(d, s) ← read_octet 3 s;
  Some (a * 256 + b, c * 256 + d, s).

(** [read_groups], with room for [limit] groups from number [index]: the groups, and
    whether they end in an IPv4 address. *)
Fixpoint read_groups (room index : nat) (s : string) : list N * bool * string :=
  match room with
  | O => ([], false, s)
  | S room =>
    let ipv4 := match room with O => None | S _ => read_separator colon_char index s ≫= read_ipv4_addr end in
    match ipv4 with
    | Some (g, h, s) => ([g; h], true, s)
    | None =>
      match read_separator colon_char index s ≫= read_number 16 4 true 65536 with
      | Some (g, s) => let '(groups, v4, s) := read_groups room (S index) s in (g :: groups, v4, s)
      | None => ([], false, s)
      end
    end
  end.
Definition read_ipv6_addr (s : string) : option (list N * string) :=
  let '(head, v4, s) := read_groups 8 0 s in
  if (length head =? 8)%nat then Some (head, s)
  else if v4 then None
  else
    s ← read_char colon_char s; s ← read_char colon_char s;
    let '(tail, _, s) := read_groups (8 - (length head + 1)) 0 s in
    Some (head ++ replicate (8 - length head - length tail) 0 ++ tail, s).
Definition ip_of_groups (groups : list N) : N := foldl (λ ip g, ip * 65536 + g) 0 groups.
Definition ipv6_from_str (s : string) : option N :=
  match read_ipv6_addr s with Some (groups, EmptyString) => Some (ip_of_groups groups) | _ => None end.
