(* ===== verification/Authn.v ===== *)
(** * Authentication ([common/src/authn.rs])

    Challenges, credentials and identities; requests bound to a login by an
    ephemeral signature; and the window of spent sequence numbers that refuses
    replays. *)
From S2P Require Import Prelude External Codephrases Hash Targets Keys Ssh Jobs Headers.
Open Scope N_scope.

(** Lifetimes, in nanoseconds of the monotonic clock. *)
Definition from_secs (s : N) : N := s * 10 ^ 9.
Definition IDENTITY_IDLE_TTL : N := from_secs 600.
Definition IDENTITY_MAX_TTL : N := from_secs (8 * 3600).
Definition NONCE_TTL : N := from_secs 60.

(** ** Spent sequence numbers *)

Definition SEQ_WINDOW : N := 256.
Definition U64_LIMIT : N := 2 ^ 64.

(** [SeqWindow]: bit [age] of [seen] marks [highest - age] as spent. *)
Record SeqWindow := mkSeqWindow { highest : N; seen : N }.
Definition window_default : SeqWindow := mkSeqWindow 0 0.

(** [U256::shl_vartime] for a shift below the width, and [bit_vartime]. *)
Definition u256_shl (x shift : N) : N := N.shiftl x shift mod U256_LIMIT.

(** [SeqWindow::spend]. *)
Definition spend (w : SeqWindow) (sq : N) : bool * SeqWindow :=
  if highest w <? sq then
    let shift := sq - highest w in
    let s := if shift <? SEQ_WINDOW then u256_shl (seen w) shift else 0 in
    (true, mkSeqWindow sq (N.lor s 1))
  else
    let age := highest w - sq in
    if (SEQ_WINDOW <=? age) || N.testbit (seen w) age then (false, w)
    else (true, mkSeqWindow (highest w) (N.lor (seen w) (u256_shl 1 age))).

(** ** Requests bound to a login *)

(** [str::to_ascii_uppercase]. *)
Definition ascii_to_upper (c : Ascii.ascii) : Ascii.ascii :=
  let n := Ascii.N_of_ascii c in
  if (97 <=? n) && (n <=? 122) then Ascii.ascii_of_N (n - 32) else c.
Definition to_ascii_uppercase (s : string) : string := string_map ascii_to_upper s.

(** [BoundRequest]. *)
Record BoundRequest := mkBoundRequest {
  br_method : string;
  br_target : string;
  br_seq : N;
}.

Definition bound_request_new (method target : string) (sq : N) : BoundRequest :=
  mkBoundRequest (to_ascii_uppercase method) target sq.

(** [RequestSignature] and [BoundCredentials]. *)
Record RequestSignature := mkRequestSignature {
  rs_nonce : Nonce;
  rs_seq : N;
  rs_signature : EncodedSignature;
}.

Record BoundCredentials := mkBoundCredentials {
  bc_key_id : KeyId;
  bc_signature : option RequestSignature;
}.

(** [BoundCredentials::claim]. *)
Definition bound_claim (kid : KeyId) : BoundCredentials := mkBoundCredentials kid None.

(** [ChallengeResponse], [Credentials], [Challenge]. *)
Record ChallengeResponse := mkChallengeResponse {
  cr_nonce : Nonce;
  cr_cnonce : Nonce;
  cr_epk : RequestVerifier;
}.

Record Credentials := mkCredentials {
  c_nonce : Nonce;
  c_cnonce : Nonce;
  c_key_id : KeyId;
  c_epk : RequestVerifier;
  c_signature : EncodedSignature;
}.

Record Challenge := mkChallenge { ch_nonce : Nonce }.

(** [Authn]. *)
Inductive Authn :=
| Initial (c : Credentials)
| Bound (c : BoundCredentials).

Definition authn_key_id (a : Authn) : KeyId :=
  match a with Initial c => c_key_id c | Bound c => bc_key_id c end.

(** [Credentials::into_challenge_response], and [Credentials::new], which takes
    a verified response apart. *)
Definition into_challenge_response (c : Credentials) : Signed ChallengeResponse :=
  mkSigned (mkChallengeResponse (c_nonce c) (c_cnonce c) (c_epk c)) (c_key_id c) (c_signature c).

Definition credentials_new (v : Verified ChallengeResponse) : Credentials :=
  let s := signed v in
  mkCredentials (cr_nonce (payload s)) (cr_cnonce (payload s)) (key_id s) (cr_epk (payload s))
    (signature s).

(** ** Text forms *)

Definition parse_phrase {name} (s : string) : option (Phrase name) := result_ok (newtype_from_str s).

(** [impl Display for Challenge]; its parser reads a bare [Codephrase]. *)
Definition challenge_to_string (c : Challenge) : string :=
  header_string [("nonce", newtype_to_string (ch_nonce c))].

Definition challenge_from_str (s : string) : result Challenge AuthnError :=
  rbind (params_from_str s) (λ params,
  rbind (params_parse (λ v, result_ok (codephrase_from_str v)) params "nonce") (λ '(nonce, params),
  rbind (params_finished params) (λ _,
  Ok (mkChallenge (Newtype nonce))))).

(** The parameters [impl Display for BoundCredentials] and
    [impl Display for Credentials] write, in order. *)
Definition bound_params (c : BoundCredentials) : list (string * string) :=
  ("key-id", newtype_to_string (bc_key_id c)) ::
  match bc_signature c with
  | Some rs =>
    [("nonce", newtype_to_string (rs_nonce rs)); ("seq", uint_to_string (rs_seq rs));
     ("r", newtype_to_string (sig_r (rs_signature rs)));
     ("s", newtype_to_string (sig_s (rs_signature rs)))]
  | None => []
  end.

Definition credentials_params (c : Credentials) : list (string * string) :=
  [("nonce", newtype_to_string (c_nonce c)); ("cnonce", newtype_to_string (c_cnonce c));
   ("key-id", newtype_to_string (c_key_id c)); ("epk", newtype_to_string (c_epk c));
   ("r", newtype_to_string (sig_r (c_signature c)));
   ("s", newtype_to_string (sig_s (c_signature c)));
   ("flags", uint_to_string (sig_flags (c_signature c)));
   ("counter", uint_to_string (sig_counter (c_signature c)))].

Definition bound_to_string (c : BoundCredentials) : string := header_string (bound_params c).
Definition credentials_to_string (c : Credentials) : string := header_string (credentials_params c).

Section from_str.
Local Open Scope rust_scope.

(** [impl FromStr for BoundCredentials]. *)
Definition bound_from_str (s : string) : result BoundCredentials AuthnError :=
  let? params := params_from_str s in
  let? (kid, params) := params_parse parse_phrase params "key-id" in
  if existsb (params_has params) ["nonce"; "seq"; "r"; "s"] then
    let? (nonce, params) := params_parse parse_phrase params "nonce" in
    let? (sq, params) := params_parse (uint_from_str U64_LIMIT) params "seq" in
    let? (r, params) := params_parse parse_phrase params "r" in
    let? (s, params) := params_parse parse_phrase params "s" in
    let? _ := params_finished params in
    Ok (mkBoundCredentials kid
          (Some (mkRequestSignature nonce sq (mkEncodedSignature r s 0 0))))
  else
    let? _ := params_finished params in
    Ok (mkBoundCredentials kid None).

(** [impl FromStr for Credentials]. *)
Definition credentials_from_str (s : string) : result Credentials AuthnError :=
  let? params := params_from_str s in
  let? (nonce, params) := params_parse parse_phrase params "nonce" in
  let? (cnonce, params) := params_parse parse_phrase params "cnonce" in
  let? (kid, params) := params_parse parse_phrase params "key-id" in
  let? (epk, params) := params_parse parse_phrase params "epk" in
  let? (r, params) := params_parse parse_phrase params "r" in
  let? (s, params) := params_parse parse_phrase params "s" in
  let? (flags, params) := params_parse (uint_from_str 256) params "flags" in
  let? (counter, params) := params_parse (uint_from_str (2 ^ 32)) params "counter" in
  let? _ := params_finished params in
  Ok (mkCredentials nonce cnonce kid epk (mkEncodedSignature r s flags counter)).

(** [impl FromStr for Authn]. *)
Definition authn_from_str (s : string) : result Authn AuthnError :=
  let? params := params_from_str s in
  if params_has params "cnonce"
  then let? c := credentials_from_str s in Ok (Initial c)
  else let? c := bound_from_str s in Ok (Bound c).
End from_str.

Section authn.
Context {Isha : Sha3} {Ibb : BaseboardOps} {Ipki : Pki} {Issh : Ssh}.
Local Open Scope rust_scope.

Definition BOUND_TYPE_NAME : list byte := bytes_of_string "sush_common::authn::BoundRequest".
Definition RESPONSE_TYPE_NAME : list byte := bytes_of_string "sush_common::authn::ChallengeResponse".

(** [BoundRequest::to_be_signed]. *)
Definition bound_tbs_fields (r : BoundRequest) (kid : KeyId) (nonce : Nonce) : Hasher :=
  let fields := tbs_new BOUND_TYPE_NAME in
  let fields := tbs_field fields (bytes_of_string "key_id") (newtype_to_be_bytes kid) in
  let fields := tbs_field fields (bytes_of_string "nonce") (newtype_to_be_bytes nonce) in
  let fields := tbs_field fields (bytes_of_string "method") (bytes_of_string (br_method r)) in
  let fields := tbs_field fields (bytes_of_string "target") (bytes_of_string (br_target r)) in
  tbs_field fields (bytes_of_string "seq") (be_bytes 8 (br_seq r)).

Definition bound_to_be_signed (r : BoundRequest) (kid : KeyId) (nonce : Nonce) : list byte :=
  tbs_finish (bound_tbs_fields r kid nonce).

(** [impl ToBeSigned for ChallengeResponse]. *)
Definition response_tbs_fields (c : ChallengeResponse) : Hasher :=
  let fields := tbs_new RESPONSE_TYPE_NAME in
  let fields := tbs_field fields (bytes_of_string "nonce") (newtype_to_be_bytes (cr_nonce c)) in
  let fields := tbs_field fields (bytes_of_string "cnonce") (newtype_to_be_bytes (cr_cnonce c)) in
  tbs_field fields (bytes_of_string "epk") (newtype_to_be_bytes (cr_epk c)).

#[export] Instance response_to_be_signed : ToBeSigned ChallengeResponse :=
  λ c, tbs_finish (response_tbs_fields c).

(** [RequestVerifier::verify]. *)
Definition verify_bound (epk : RequestVerifier) (r : BoundRequest) (kid : KeyId)
    (proof : RequestSignature) : result () AuthnError :=
  if negb (br_seq r =? rs_seq proof) then Err AInvalidSignature
  else
    let sg := ed25519_from_components (newtype_to_be_bytes (sig_r (rs_signature proof)))
                (newtype_to_be_bytes (sig_s (rs_signature proof))) in
    let key := newtype_to_be_bytes epk in
    if negb (ed25519_key_ok key) then Err AInvalidKey
    else if ed25519_is_weak key then Err AInvalidKey
    else if ed25519_verify_strict key (bound_to_be_signed r kid (rs_nonce proof)) sg then Ok ()
    else Err AInvalidSignature.

(** [RequestKey::bind]; [sign] is the ephemeral key's signing function. *)
Definition bind_request (sign : list byte → Ed25519Signature) (kid : KeyId) (nonce : Nonce)
    (r : BoundRequest) : BoundCredentials :=
  let sg := sign (bound_to_be_signed r kid nonce) in
  mkBoundCredentials kid (Some (mkRequestSignature nonce (br_seq r)
    (mkEncodedSignature (newtype_from_be_bytes (ed25519_r sg)) (newtype_from_be_bytes (ed25519_s sg))
       0 0))).

(** [Identity] and [Identity::new]. *)
Record Identity := mkIdentity {
  id_key_id : KeyId;
  id_public_key : SshPublicKey;
  id_nonce : Nonce;
  id_time : DateTime;
}.

Definition identity_new (k : SshPublicKey) (response : Verified ChallengeResponse) (time : DateTime) :
    result Identity KeyError :=
  let? kid := ssh_key_id k in
  if negb (bool_decide (verified_by response = kid)) then Err KInvalidKeyId
  else Ok (mkIdentity kid k (cr_nonce (payload (signed response))) time).
End authn.

(** ** The window refines a set of spent numbers *)

(** [seen] marks exactly the spent numbers of the last [SEQ_WINDOW]; [highest]
    is their maximum, or zero. *)
Record window_repr (w : SeqWindow) (S : gset N) : Prop := {
  wr_highest : ∀ x, x ∈ S → x <= highest w;
  wr_reached : highest w = 0 ∨ highest w ∈ S;
  wr_width : seen w < U256_LIMIT;
  wr_bits : ∀ age, age < SEQ_WINDOW →
    (N.testbit (seen w) age = true ↔ age <= highest w ∧ highest w - age ∈ S);
}.

Lemma window_repr_default : window_repr window_default ∅.
Proof.
  split; cbn [window_default highest seen]; [set_solver|by left|done|].
  intros age _. rewrite N.bits_0. split; [done|]. intros [_ Hx]. set_solver.
Qed.

Lemma u256_shl_bits x shift i :
  N.testbit (u256_shl x shift) i
  = if i <? 256 then if shift <=? i then N.testbit x (i - shift) else false else false.
Proof.
  unfold u256_shl. change U256_LIMIT with (2 ^ 256).
  destruct (N.ltb_spec i 256) as [Hi|Hi].
  - rewrite N.mod_pow2_bits_low by done. destruct (N.leb_spec shift i) as [Hs|Hs].
    + by rewrite N.shiftl_spec_high' by done.
    + by apply N.shiftl_spec_low.
  - by apply N.mod_pow2_bits_high.
Qed.

Lemma bits_below x : (∀ i, 256 <= i → N.testbit x i = false) → x < U256_LIMIT.
Proof.
  intros Hx. change U256_LIMIT with (2 ^ 256).
  assert (E : x = x mod 2 ^ 256).
  { apply N.bits_inj. intros i. destruct (N.lt_ge_cases i 256).
    - by rewrite N.mod_pow2_bits_low.
    - rewrite N.mod_pow2_bits_high by done. by apply Hx. }
  rewrite E. apply N.mod_lt. done.
Qed.

Lemma bits_above x i : x < U256_LIMIT → 256 <= i → N.testbit x i = false.
Proof.
  intros Hx Hi. change U256_LIMIT with (2 ^ 256) in Hx.
  rewrite <- (N.mod_small x (2 ^ 256)) by done. by apply N.mod_pow2_bits_high.
Qed.

(** What a new highest number leaves of the marks. *)
Lemma window_advance w S sq :
  window_repr w S → highest w < sq →
  window_repr (mkSeqWindow sq (N.lor (if sq - highest w <? SEQ_WINDOW
                                      then u256_shl (seen w) (sq - highest w) else 0) 1)) ({[sq]} ∪ S).
Proof.
  intros [Hh Hr Hw Hb] Hlt. set (sh := sq - highest w).
  assert (Hone : ∀ i, N.testbit 1 i = (i =? 0)) by (intros [|[]]; done).
  assert (Hbit : ∀ i, N.testbit (N.lor (if sh <? SEQ_WINDOW then u256_shl (seen w) sh else 0) 1) i
    = ((i <? 256) && (sh <=? i) && N.testbit (seen w) (i - sh)) || (i =? 0)).
  { intros i. rewrite N.lor_spec, Hone. f_equal. unfold SEQ_WINDOW.
    destruct (N.ltb_spec sh 256) as [Hs|Hs].
    - rewrite u256_shl_bits. by destruct (i <? 256), (sh <=? i).
    - rewrite N.bits_0. destruct (N.ltb_spec i 256), (N.leb_spec sh i); cbn; [lia|done..]. }
  split; cbn [highest seen].
  - intros x [->%elem_of_singleton|Hx%Hh]%elem_of_union; lia.
  - right. set_solver.
  - apply bits_below. intros i Hi. rewrite Hbit.
    rewrite (proj2 (N.ltb_ge _ _)), (proj2 (N.eqb_neq _ _)) by lia. done.
  - intros age Ha. rewrite Hbit. unfold SEQ_WINDOW in Ha. rewrite (proj2 (N.ltb_lt _ _) Ha).
    rewrite orb_true_iff, N.eqb_eq. cbn [andb]. rewrite andb_true_iff, N.leb_le. split.
    + intros [[Hs Hb']| ->]; [|split; [lia|rewrite N.sub_0_r; set_solver]].
      apply Hb in Hb' as [H1 H2]; [|unfold SEQ_WINDOW; lia]. split; [lia|].
      replace (sq - age) with (highest w - (age - sh)) by lia. set_solver.
    + intros [Hle [Heq%elem_of_singleton|HS]%elem_of_union]; [right; lia|].
      left. pose proof (Hh _ HS). split; [lia|]. apply Hb; [unfold SEQ_WINDOW; lia|].
      split; [lia|]. by replace (highest w - (age - sh)) with (sq - age) by lia.
Qed.

(** What spending an older number adds to the marks. *)
Lemma window_mark w S sq :
  window_repr w S → sq <= highest w → highest w - sq < SEQ_WINDOW →
  window_repr (mkSeqWindow (highest w) (N.lor (seen w) (u256_shl 1 (highest w - sq)))) ({[sq]} ∪ S).
Proof.
  intros [Hh Hr Hw Hb] Hle Hage. unfold SEQ_WINDOW in Hage.
  assert (Hbit : ∀ i, N.testbit (u256_shl 1 (highest w - sq)) i = (i =? highest w - sq)).
  { intros i. rewrite u256_shl_bits. destruct (N.ltb_spec i 256), (N.leb_spec (highest w - sq) i),
      (N.eqb_spec i (highest w - sq)); try lia; try done.
    - subst. by rewrite N.sub_diag.
    - destruct (i - (highest w - sq)) as [|[]] eqn:E; [lia|done..]. }
  split; cbn [highest seen].
  - intros x [->%elem_of_singleton|Hx%Hh]%elem_of_union; lia.
  - destruct Hr; [by left|right; set_solver].
  - apply bits_below. intros i Hi. rewrite N.lor_spec, Hbit, bits_above by done. cbn.
    apply N.eqb_neq. lia.
  - intros age Ha. rewrite N.lor_spec, Hbit, orb_true_iff, N.eqb_eq, Hb by done. split.
    + intros [[? ?]| ->]; [set_solver|]. split; [lia|].
      replace (highest w - (highest w - sq)) with sq by lia. set_solver.
    + intros [? [E%elem_of_singleton|?]%elem_of_union]; [right; lia|by left].
Qed.

(** One step: a number is accepted exactly when it was not spent before and is
    not older than the window, and accepting it spends it. *)
Lemma spend_step w S sq :
  window_repr w S →
  ((spend w sq).1 = true ↔ (sq ∉ S) ∧ highest w < sq + SEQ_WINDOW) ∧
  window_repr (spend w sq).2 (if (spend w sq).1 then {[sq]} ∪ S else S).
Proof.
  intros Hw. unfold spend. destruct (N.ltb_spec (highest w) sq) as [Hlt|Hle]; cbn [fst snd].
  - split; [|by apply window_advance]. split; [intros _|done]. split; [|lia].
    intros Hin%(wr_highest _ _ Hw). lia.
  - destruct (N.leb_spec SEQ_WINDOW (highest w - sq)) as [Hold|Hnew]; cbn [orb fst snd].
    + split; [|done]. split; [done|]. lia.
    + pose proof (wr_bits _ _ Hw (highest w - sq) Hnew) as Hb.
      replace (highest w - (highest w - sq)) with sq in Hb by lia.
      destruct (N.testbit (seen w) (highest w - sq)) eqn:Et; cbn [fst snd].
      * split; [|done]. split; [done|]. intros [Hn _]. destruct Hn. by apply Hb.
      * split; [|by apply window_mark]. split; [intros _|done]. split; [|lia].
        intros Hin. assert (false = true) by (apply Hb; split; [lia|done]). done.
Qed.

Lemma spend_highest w sq : highest (spend w sq).2 = N.max (highest w) sq.
Proof.
  unfold spend. destruct (N.ltb_spec (highest w) sq); cbn [snd highest]; [lia|].
  destruct (_ || _)%bool; cbn [snd highest]; lia.
Qed.

(** The numbers of [l] that are accepted, in order, and the window after. *)
Fixpoint spend_all (w : SeqWindow) (l : list N) : list N * SeqWindow :=
  match l with
  | [] => ([], w)
  | sq :: l =>
    let '(ok, w) := spend w sq in
    let '(accepted, w) := spend_all w l in
    (if ok then sq :: accepted else accepted, w)
  end.

Lemma spend_all_repr l w S :
  window_repr w S →
  let '(accepted, w') := spend_all w l in
  window_repr w' (list_to_set accepted ∪ S) ∧ NoDup accepted ∧ (∀ n, n ∈ accepted → n ∉ S) ∧
  accepted `sublist_of` l ∧ highest w' = foldl N.max (highest w) l.
Proof.
  revert w S; induction l as [|sq l IH]; intros w S Hw; simpl.
  - split_and!; [by rewrite union_empty_l_L|constructor|set_solver|constructor|done].
  - destruct (spend_step w S sq Hw) as [Hacc Hr]. pose proof (spend_highest w sq) as Hh.
    destruct (spend w sq) as [ok w1]. cbn [fst snd] in *. rewrite <- Hh.
    specialize (IH w1 _ Hr). destruct (spend_all w1 l) as [accepted w2].
    destruct IH as (H1&H2&H3&H4&H5). destruct ok.
    + split_and!; [|constructor; [set_solver|done]| |by constructor|done].
      * replace (list_to_set (sq :: accepted) ∪ S) with (list_to_set accepted ∪ ({[sq]} ∪ S))
          by set_solver. done.
      * destruct Hacc as [Hacc _]. specialize (Hacc eq_refl). set_solver.
    + split_and!; [done..|by constructor|done].
Qed.

(** The window refines the set of spent numbers: over any sequence of
    requests no number is accepted twice, and the next one is accepted exactly
    when it was not accepted before and is less than [SEQ_WINDOW] behind the
    newest number offered. *)
Theorem spend_refines l sq :
  let '(accepted, w) := spend_all window_default l in
  NoDup accepted ∧ accepted `sublist_of` l ∧
  ((spend w sq).1 = true ↔ (sq ∉ accepted) ∧ foldl N.max 0 l < sq + SEQ_WINDOW).
Proof.
  pose proof (spend_all_repr l window_default ∅ window_repr_default) as H.
  destruct (spend_all window_default l) as [accepted w]. destruct H as (H1&H2&_&H4&H5).
  split_and!; [done..|]. destruct (spend_step w _ sq H1) as [-> _]. rewrite H5.
  cbn [highest window_default]. set_solver.
Qed.

(** ** Text round trips *)

Lemma params_of_insert l n v m : n ∉ l.*1 → params_of l (<[n := v]> m) = <[n := v]> (params_of l m).
Proof.
  revert m; induction l as [|[k w] l IH]; intros m Hn; [done|]. cbn in Hn.
  apply not_elem_of_cons in Hn as [Hne Hn].
  change (params_of ((k, w) :: l)) with (λ m, params_of l (<[k := w]> m)). cbv beta.
  rewrite insert_insert_ne by done. by apply IH.
Qed.

Lemma params_of_fresh l n m : n ∉ l.*1 → params_of l m !! n = m !! n.
Proof.
  revert m; induction l as [|[k w] l IH]; intros m Hn; [done|]. cbn in Hn.
  apply not_elem_of_cons in Hn as [Hne Hn].
  change (params_of ((k, w) :: l) m) with (params_of l (<[k := w]> m)).
  rewrite IH by done. by apply lookup_insert_ne.
Qed.

(** Parameters are consumed in the order they were written. *)
Lemma params_parse_head {T} (f : string → option T) n v l t :
  n ∉ l.*1 → f v = Some t → params_parse f (params_of ((n, v) :: l) ∅) n = Ok (t, params_of l ∅).
Proof.
  intros Hn Hf. unfold params_parse, params_get. 
  change (params_of ((n, v) :: l) ∅) with (params_of l (<[n := v]> ∅)).
  rewrite params_of_insert by done. rewrite lookup_insert_eq. cbn [rbind]. rewrite Hf. cbn [ok_or rbind].
  rewrite delete_insert_id; [done|]. rewrite params_of_fresh by done. apply lookup_empty.
Qed.

Definition phrase_wf {name} (p : Phrase name) : Prop :=
  phrase p < 2 ^ length_bits (newtype_length name).

Lemma parse_phrase_to_string name (p : Phrase name) :
  phrase_wf p → parse_phrase (newtype_to_string p) = Some p.
Proof. intros Hp. unfold parse_phrase. by rewrite newtype_from_to_string. Qed.

(** Credentials whose fields fit their types. *)
Definition encoded_wf (e : EncodedSignature) : Prop :=
  phrase_wf (sig_r e) ∧ phrase_wf (sig_s e) ∧ sig_flags e < 256 ∧ sig_counter e < 2 ^ 32.
Definition credentials_wf (c : Credentials) : Prop :=
  phrase_wf (c_nonce c) ∧ phrase_wf (c_cnonce c) ∧ phrase_wf (c_key_id c) ∧ phrase_wf (c_epk c) ∧
  encoded_wf (c_signature c).
Definition bound_wf (c : BoundCredentials) : Prop :=
  phrase_wf (bc_key_id c) ∧
  match bc_signature c with
  | Some rs =>
    phrase_wf (rs_nonce rs) ∧ rs_seq rs < U64_LIMIT ∧ encoded_wf (rs_signature rs) ∧
    sig_flags (rs_signature rs) = 0 ∧ sig_counter (rs_signature rs) = 0
  | None => True
  end.

Lemma nodup_names (l : list string) : bool_decide (NoDup l) = true → NoDup l.
Proof. by intros ?%bool_decide_eq_true. Qed.

(** Consume the next written parameter. *)
Ltac next_param :=
  erewrite params_parse_head;
  [cbn [rbind] | cbn; set_solver
  | first [by apply parse_phrase_to_string | by apply uint_from_to_string]].

Lemma credentials_plain c : Forall plain_param (credentials_params c).
Proof. repeat constructor; first [apply plain_phrase|apply plain_uint]. Qed.

Lemma bound_plain c : Forall plain_param (bound_params c).
Proof.
  constructor; [split; [done|apply plain_phrase]|].
  destruct (bc_signature c); repeat constructor; first [apply plain_phrase|apply plain_uint].
Qed.

Lemma credentials_params_from_str c :
  params_from_str (credentials_to_string c) = Ok (params_of (credentials_params c) ∅).
Proof. apply params_from_header; [apply credentials_plain|by apply nodup_names]. Qed.

Lemma bound_params_from_str c :
  params_from_str (bound_to_string c) = Ok (params_of (bound_params c) ∅).
Proof.
  apply params_from_header; [apply bound_plain|].
  destruct (bc_signature c); by apply nodup_names.
Qed.

Lemma credentials_from_to_string c :
  credentials_wf c → credentials_from_str (credentials_to_string c) = Ok c.
Proof.
  intros (H1&H2&H3&H4&H5&H6&H7&H8). unfold credentials_from_str.
  rewrite credentials_params_from_str. cbn [rbind]. unfold credentials_params.
  do 8 next_param. unfold params_finished. rewrite bool_decide_true by done. cbn [rbind].
  by destruct c as [? ? ? ? []].
Qed.

Lemma bound_from_to_string c : bound_wf c → bound_from_str (bound_to_string c) = Ok c.
Proof.
  destruct c as [kid [[nonce sq [r s fl ct]]|]]; intros [Hk Hs]; unfold bound_from_str;
    rewrite bound_params_from_str; cbn [rbind]; unfold bound_params; cbn [bc_key_id bc_signature] in *;
    next_param.
  - destruct Hs as (H1&H2&(H3&H4&_)&H5&H6). cbn in H5, H6. subst fl ct.
    assert (Eh : params_has (params_of [("nonce", newtype_to_string nonce); ("seq", uint_to_string sq);
       ("r", newtype_to_string r); ("s", newtype_to_string s)] ∅) "nonce" = true).
    { unfold params_has. apply bool_decide_eq_true.
      change (params_of (?a :: ?l) ∅) with (params_of l (<[a.1 := a.2]> ∅)).
      rewrite params_of_fresh by (cbn; set_solver). rewrite lookup_insert_eq. by eexists. }
    cbn [existsb]. cbn [rs_nonce rs_seq rs_signature sig_r sig_s] in *. rewrite Eh. cbn [orb].
    do 4 next_param. unfold params_finished. by rewrite bool_decide_true.
  - unfold params_finished. by rewrite bool_decide_true.
Qed.

(** Credentials survive the header: what a client writes into an
    [Authorization] header, initial credentials or a bound request's, is exactly
    what the server reads out of it. *)
Theorem authn_header_roundtrip (c : Credentials) (b : BoundCredentials) :
  credentials_wf c → bound_wf b →
  authn_from_str (credentials_to_string c) = Ok (Initial c) ∧
  authn_from_str (bound_to_string b) = Ok (Bound b).
Proof.
  intros Hc Hb. unfold authn_from_str. split.
  - rewrite credentials_params_from_str. cbn [rbind].
    assert (Eh : params_has (params_of (credentials_params c) ∅) "cnonce" = true).
    { unfold params_has. apply bool_decide_eq_true. unfold credentials_params.
      change (params_of (?a :: ?b :: ?l) ∅) with (params_of l (<[b.1 := b.2]> (<[a.1 := a.2]> ∅))).
      rewrite params_of_fresh by (cbn; set_solver). rewrite lookup_insert_eq. by eexists. }
    rewrite Eh. by rewrite credentials_from_to_string.
  - rewrite bound_params_from_str. cbn [rbind].
    assert (Eh : params_has (params_of (bound_params b) ∅) "cnonce" = false).
    { unfold params_has. apply bool_decide_eq_false. unfold bound_params.
      rewrite params_of_fresh; [rewrite lookup_empty; by intros []|].
      destruct (bc_signature b); cbn; set_solver. }
    rewrite Eh. by rewrite bound_from_to_string.
Qed.

(** A nonce wider than its type: [Challenge::from_str] does not check the width
    that [Nonce::from_str] checks. *)
Definition wide_challenge : string := header_string [("nonce", codephrase_to_string (2 ^ 200))].

(** A challenge can carry a nonce that is no nonce: the parser accepts a
    phrase wider than the nonce type allows, which the nonce's own parser
    refuses. *)
Theorem challenge_accepts_wide_nonce :
  challenge_from_str wide_challenge = Ok (mkChallenge (Newtype (2 ^ 200))) ∧
  parse_phrase (name:=NNonce) (codephrase_to_string (2 ^ 200)) = None.
Proof. split; vm_compute; reflexivity. Qed.

Section binding.
Context {Isha : Sha3} {Ibb : BaseboardOps} {Ipki : Pki} {Issh : Ssh}.

(** ** What a signature binds *)

Definition bound_chunks (r : BoundRequest) (kid : KeyId) (nonce : Nonce) : list (list byte) :=
  [BOUND_TYPE_NAME; bytes_of_string "key_id"; newtype_to_be_bytes kid;
   bytes_of_string "nonce"; newtype_to_be_bytes nonce;
   bytes_of_string "method"; bytes_of_string (br_method r);
   bytes_of_string "target"; bytes_of_string (br_target r);
   bytes_of_string "seq"; be_bytes 8 (br_seq r)].

Definition response_chunks (c : ChallengeResponse) : list (list byte) :=
  [RESPONSE_TYPE_NAME; bytes_of_string "nonce"; newtype_to_be_bytes (cr_nonce c);
   bytes_of_string "cnonce"; newtype_to_be_bytes (cr_cnonce c);
   bytes_of_string "epk"; newtype_to_be_bytes (cr_epk c)].

Lemma inner_bound r kid nonce : inner (bound_tbs_fields r kid nonce) = frames (bound_chunks r kid nonce).
Proof.
  unfold bound_tbs_fields, bound_chunks. rewrite !inner_tbs_field, inner_tbs_new, <- !frames_app.
  done.
Qed.

Lemma inner_response c : inner (response_tbs_fields c) = frames (response_chunks c).
Proof.
  unfold response_tbs_fields, response_chunks. rewrite !inner_tbs_field, inner_tbs_new, <- !frames_app.
  done.
Qed.

(** Requests as they arrive: text shorter than [2^64] bytes, a [u64] number. *)
Definition bound_request_wf (r : BoundRequest) : Prop :=
  fits_u64 (bytes_of_string (br_method r)) ∧ fits_u64 (bytes_of_string (br_target r)) ∧
  br_seq r < U64_LIMIT.

Lemma phrase_bytes_fit name (p : Phrase name) : fits_u64 (newtype_to_be_bytes p).
Proof. unfold fits_u64. by rewrite length_phrase_bytes. Qed.

Lemma bound_chunks_fit r kid nonce : bound_request_wf r → Forall fits_u64 (bound_chunks r kid nonce).
Proof.
  intros (H1&H2&_). unfold bound_chunks.
  repeat constructor; first [done|apply phrase_bytes_fit].
Qed.

Lemma response_chunks_fit c : Forall fits_u64 (response_chunks c).
Proof. unfold response_chunks. repeat constructor; try done; apply phrase_bytes_fit. Qed.

Lemma phrase_wf_u256 name (p : Phrase name) : phrase_wf p → phrase p < U256_LIMIT.
Proof.
  unfold phrase_wf. intros Hp. eapply N.lt_le_trans; [exact Hp|]. apply length_bits_le.
Qed.

(** Two different inputs of the digest with the same output. *)
Definition collision (h1 h2 : Hasher) : Prop :=
  inner h1 ≠ inner h2 ∧ sha3_256 (inner h1) = sha3_256 (inner h2).

(** A request signature binds one request: if two bound requests have the
    same bytes to sign, they have the same key, login nonce, method, target and
    sequence number, unless their encodings collide under SHA3-256. *)
Theorem bound_request_binding r1 k1 n1 r2 k2 n2 :
  bound_request_wf r1 → bound_request_wf r2 →
  phrase_wf k1 → phrase_wf k2 → phrase_wf n1 → phrase_wf n2 →
  bound_to_be_signed r1 k1 n1 = bound_to_be_signed r2 k2 n2 →
  (r1 = r2 ∧ k1 = k2 ∧ n1 = n2) ∨
  collision (bound_tbs_fields r1 k1 n1) (bound_tbs_fields r2 k2 n2).
Proof.
  intros Hr1 Hr2 Hk1 Hk2 Hn1 Hn2 E.
  destruct (decide (inner (bound_tbs_fields r1 k1 n1) = inner (bound_tbs_fields r2 k2 n2))) as [Ei|];
    [left|by right].
  rewrite !inner_bound in Ei. apply frames_inj in Ei; [|by apply bound_chunks_fit..].
  unfold bound_chunks in Ei.
  do 2 apply cons_inv in Ei as [_ Ei]. apply cons_inv in Ei as [Ek Ei].
  apply cons_inv in Ei as [_ Ei]. apply cons_inv in Ei as [En Ei].
  apply cons_inv in Ei as [_ Ei]. apply cons_inv in Ei as [Em Ei].
  apply cons_inv in Ei as [_ Ei]. apply cons_inv in Ei as [Et Ei].
  apply cons_inv in Ei as [_ Ei]. apply cons_inv in Ei as [Es _].
  apply newtype_to_be_bytes_inj in Ek; [|by apply phrase_wf_u256..].
  apply newtype_to_be_bytes_inj in En; [|by apply phrase_wf_u256..].
  apply bytes_of_string_inj in Em, Et.
  destruct Hr1 as (_&_&Hs1), Hr2 as (_&_&Hs2). apply (be_bytes_inj 8) in Es; [|done..].
  destruct r1, r2. cbn in *. subst. done.
Qed.

(** Signatures cannot change purpose: the bytes signed for a job, for a
    login and for a bound request are never the same, unless they collide under
    SHA3-256. *)
Theorem signatures_domain_separated j c r kid nonce :
  request_wf j → bound_request_wf r →
  (to_be_signed j = to_be_signed c → collision (job_tbs_fields j) (response_tbs_fields c)) ∧
  (to_be_signed j = bound_to_be_signed r kid nonce →
   collision (job_tbs_fields j) (bound_tbs_fields r kid nonce)) ∧
  (to_be_signed c = bound_to_be_signed r kid nonce →
   collision (response_tbs_fields c) (bound_tbs_fields r kid nonce)).
Proof.
  intros Hj Hr. split_and!; intros E; (split; [|exact E]);
    rewrite ?inner_job_tbs_fields, ?inner_response, ?inner_bound; intros Ei;
    (apply frames_inj in Ei;
      [|by auto using job_chunks_fit, response_chunks_fit, bound_chunks_fit..]);
    apply cons_inv in Ei as [Ei _]; discriminate Ei.
Qed.

(** What the client binds, the server accepts: a request signed with an
    ephemeral key verifies under that key's verifier, for the same method,
    target, sequence number, key and nonce. *)
Theorem bound_request_accepted (sign : list byte → Ed25519Signature) (epk : RequestVerifier)
    method target sq kid nonce :
  (∀ m, length (ed25519_r (sign m)) = 32%nat ∧ length (ed25519_s (sign m)) = 32%nat ∧
        ed25519_from_components (ed25519_r (sign m)) (ed25519_s (sign m)) = sign m) →
  (∀ m, ed25519_verify_strict (newtype_to_be_bytes epk) m (sign m) = true) →
  ed25519_key_ok (newtype_to_be_bytes epk) = true →
  ed25519_is_weak (newtype_to_be_bytes epk) = false →
  ∃ proof, bc_signature (bind_request sign kid nonce (bound_request_new method target sq)) = Some proof ∧
    verify_bound epk (bound_request_new method target (rs_seq proof)) kid proof = Ok ().
Proof.
  intros Hs Hv Hk Hw. eexists. split; [done|]. unfold verify_bound. cbn [rs_seq rs_signature rs_nonce sig_r sig_s].
  rewrite N.eqb_refl, Hk, Hw. cbn [negb].
  set (m := bound_to_be_signed _ _ _). destruct (Hs m) as (L1&L2&E).
  assert (Hrt : ∀ name bs, newtype_length name = Full → length bs = 32%nat →
    newtype_to_be_bytes (newtype_from_be_bytes (name:=name) bs) = bs).
  { intros name bs Hf Hl. unfold newtype_to_be_bytes, newtype_from_be_bytes, to_be_bytes, from_be_bytes.
    cbn [phrase]. rewrite Hf. cbn [canonical]. rewrite <- Hl. apply be_bytes_be_value. }
  rewrite !Hrt by done. rewrite E. by rewrite Hv.
Qed.
End binding.
