(* ===== verification/Login.v ===== *)
(** * Logins and bound requests ([proxy/src/login.rs])

    The proxy's table of outstanding nonces and of logged-in identities, and the
    proof that no request is ever authorised twice.  Tables are [lru] caches;
    clock readings and random nonces are arguments.  A login holds two locks one
    after the other, so other operations may run between the claim of its nonce
    and the registration of its identity; the trace model keeps the two apart. *)
From S2P Require Import Prelude External Codephrases Hash Targets Keys Ssh Jobs Headers Authn.
Open Scope N_scope.

Definition MAX_CACHED_IDENTITIES : nat := 1000.
Definition MAX_OUTSTANDING_NONCES : N := 10000.

(** [std::time::Instant], in nanoseconds; [elapsed] never underflows. *)
Abbreviation Instant := N.
Definition elapsed (now since : Instant) : N := now - since.

Section login.
Context {Isha : Sha3} {Ibb : BaseboardOps} {Ilru : LruCache} {Ipki : Pki} {Issh : Ssh}.

(** [CachedIdentity]. *)
Record CachedIdentity := mkCachedIdentity {
  ci_identity : Identity;
  ci_verifier : RequestVerifier;
  ci_window : SeqWindow;
  ci_authenticated : Instant;
  ci_last_used : Instant;
}.

(** [CachedIdentity::is_still_valid], with its two clock readings. *)
Definition is_still_valid (t0 t1 : Instant) (c : CachedIdentity) : bool :=
  (elapsed t0 (ci_authenticated c) <? IDENTITY_MAX_TTL)
  && (elapsed t1 (ci_last_used c) <? IDENTITY_IDLE_TTL).

(** [LoginError]. *)
Inductive LoginError :=
| LMissingAuthorization
| LAuthn (e : AuthnError)
| LKey (e : KeyError)
| LBoundAtLogin
| LInitialOutsideLogin
| LNonceNotFound
| LNonceExpired
| LKeyIdMismatch
| LNotLoggedIn
| LUnknownIdentity
| LIdentityExpired
| LSeqSpent.

(** [Logins]. *)
Record Logins := mkLogins {
  nonces : lru Nonce Instant;
  identities : lru (KeyId * Nonce) CachedIdentity;
}.

Definition logins_new : Logins :=
  mkLogins (lru_new (N.to_nat MAX_OUTSTANDING_NONCES)) (lru_new MAX_CACHED_IDENTITIES).

(** [Logins::refuse_failure]: every failure mints a challenge. *)
Definition refuse_failure {T} (st : Logins) (r : result T LoginError) (nonce : Nonce) (now : Instant) :
    result T Nonce * Logins :=
  match r with
  | Ok v => (Ok v, st)
  | Err _ => (Err nonce, mkLogins (lru_put (nonces st) nonce now) (identities st))
  end.

(** The first half of [Logins::verify_login]: claim the nonce and verify the
    credentials. *)
Definition claim_login (now : Instant) (utc : DateTime) (st : Logins) (authz : option string)
    (k : SshPublicKey) : result (Credentials * Identity) LoginError * Logins :=
  match authz with
  | None => (Err LMissingAuthorization, st)
  | Some s =>
    match authn_from_str s with
    | Err e => (Err (LAuthn e), st)
    | Ok (Bound _) => (Err LBoundAtLogin, st)
    | Ok (Initial c) =>
      let '(minted, ns) := lru_pop (nonces st) (c_nonce c) in
      let st := mkLogins ns (identities st) in
      match minted with
      | None => (Err LNonceNotFound, st)
      | Some minted =>
        if NONCE_TTL <=? elapsed now minted then (Err LNonceExpired, st)
        else if bool_decide (result_ok (ssh_key_id k) ≠ Some (c_key_id c)) then (Err LKeyIdMismatch, st)
        else
          match verify_with_ssh_public_key (into_challenge_response c) k with
          | Err e => (Err (LKey e), st)
          | Ok verified =>
            match identity_new k verified utc with
            | Err e => (Err (LKey e), st)
            | Ok who => (Ok (c, who), st)
            end
          end
      end
    end
  end.

(** The second half: cache the identity and its request verifier. *)
Definition commit_login (t1 t2 : Instant) (st : Logins) (c : Credentials) (who : Identity) : Logins :=
  mkLogins (nonces st)
    (lru_put (identities st) (c_key_id c, c_nonce c)
       (mkCachedIdentity who (c_epk c) window_default t1 t2)).

(** [Logins::verify_login], run without interruption. *)
Definition verify_login (now t1 t2 : Instant) (utc : DateTime) (st : Logins) (authz : option string)
    (k : SshPublicKey) : result Identity LoginError * Logins :=
  let '(r, st) := claim_login now utc st authz k in
  match r with
  | Ok (c, who) => (Ok who, commit_login t1 t2 st c who)
  | Err e => (Err e, st)
  end.

(** [Logins::verify_request]; the identities are locked throughout. *)
Definition verify_request (t0 t1 t2 : Instant) (st : Logins) (authz : option string)
    (method target : string) : result Identity LoginError * Logins :=
  match authz with
  | None => (Err LMissingAuthorization, st)
  | Some s =>
    match authn_from_str s with
    | Err e => (Err (LAuthn e), st)
    | Ok (Initial _) => (Err LInitialOutsideLogin, st)
    | Ok (Bound (mkBoundCredentials kid None)) => (Err LNotLoggedIn, st)
    | Ok (Bound (mkBoundCredentials kid (Some proof))) =>
      let key := (kid, rs_nonce proof) in
      match lru_get_mut (identities st) key with
      | None => (Err LUnknownIdentity, st)
      | Some (cached, write) =>
        if negb (is_still_valid t0 t1 cached) then
          (Err LIdentityExpired, mkLogins (nonces st) (lru_pop (write cached) key).2)
        else
          let received := bound_request_new method target (rs_seq proof) in
          match verify_bound (ci_verifier cached) received kid proof with
          | Err e => (Err (LAuthn e), mkLogins (nonces st) (write cached))
          | Ok _ =>
            let '(fresh, w) := spend (ci_window cached) (rs_seq proof) in
            if negb fresh then
              (Err LSeqSpent, mkLogins (nonces st)
                (write (mkCachedIdentity (ci_identity cached) (ci_verifier cached) w
                          (ci_authenticated cached) (ci_last_used cached))))
            else
              (Ok (ci_identity cached), mkLogins (nonces st)
                (write (mkCachedIdentity (ci_identity cached) (ci_verifier cached) w
                          (ci_authenticated cached) t2)))
          end
      end
    end
  end.

(** [Logins::login] and [Logins::authorize]. *)
Definition login (now t1 t2 t3 : Instant) (utc : DateTime) (nonce : Nonce) (st : Logins)
    (authz : option string) (k : SshPublicKey) : result Identity Nonce * Logins :=
  let '(r, st) := verify_login now t1 t2 utc st authz k in refuse_failure st r nonce t3.

Definition authorize (t0 t1 t2 t3 : Instant) (nonce : Nonce) (st : Logins) (authz : option string)
    (method target : string) : result Identity Nonce * Logins :=
  let '(r, st) := verify_request t0 t1 t2 st authz method target in refuse_failure st r nonce t3.

(** [Logins::identities]: the unexpired ones. *)
Definition live_identities (t0 t1 : Instant) (st : Logins) : list Identity :=
  map (λ e : KeyId * Nonce * CachedIdentity, ci_identity e.2)
    (filter (λ e : KeyId * Nonce * CachedIdentity, is_still_valid t0 t1 e.2 = true)
       (lru_entries (identities st))).

(** ** Traces *)

(** The shared tables, and the logins that claimed their nonce but are not
    registered yet. *)
Record Proxy := mkProxy { px_logins : Logins; px_inflight : list (Credentials * Identity) }.

Inductive ProxyEvent :=
| PMint (nonce : Nonce) (now : Instant)
| PClaim (now : Instant) (utc : DateTime) (authz : option string) (k : SshPublicKey)
| PCommit (t1 t2 : Instant) (i : nat)
| PRequest (t0 t1 t2 : Instant) (authz : option string) (method target : string).

(** The key, login nonce and sequence number a header claims. *)
Definition claimed (authz : option string) : option (KeyId * Nonce * N) :=
  s ← authz;
  match authn_from_str s with
  | Ok (Bound (mkBoundCredentials kid (Some proof))) => Some (kid, rs_nonce proof, rs_seq proof)
  | _ => None
  end.

(** One event: the new state, and the request it authorised. *)
Definition px_step (p : Proxy) (e : ProxyEvent) : Proxy * option (KeyId * Nonce * N) :=
  match e with
  | PMint nonce now =>
    (mkProxy (refuse_failure (T:=()) (px_logins p) (Err LNotLoggedIn) nonce now).2 (px_inflight p), None)
  | PClaim now utc authz k =>
    let '(r, st) := claim_login now utc (px_logins p) authz k in
    (mkProxy st (match r with Ok cl => cl :: px_inflight p | Err _ => px_inflight p end), None)
  | PCommit t1 t2 i =>
    match px_inflight p !! i with
    | Some (c, who) =>
      (mkProxy (commit_login t1 t2 (px_logins p) c who) (delete i (px_inflight p)), None)
    | None => (p, None)
    end
  | PRequest t0 t1 t2 authz method target =>
    let '(r, st) := verify_request t0 t1 t2 (px_logins p) authz method target in
    (mkProxy st (px_inflight p), match r with Ok _ => claimed authz | Err _ => None end)
  end.

(** The requests a trace authorises, in order. *)
Fixpoint px_run (p : Proxy) (es : list ProxyEvent) : Proxy * list (KeyId * Nonce * N) :=
  match es with
  | [] => (p, [])
  | e :: es =>
    let '(p, o) := px_step p e in
    let '(p, l) := px_run p es in
    (p, match o with Some x => x :: l | None => l end)
  end.

(** The nonces a trace mints. *)
Definition minted_in (es : list ProxyEvent) : list Nonce :=
  omap (λ e, match e with PMint n _ => Some n | _ => None end) es.

(** ** The invariant *)

Definition login_nonces (l : list (Credentials * Identity)) : list Nonce := map (λ x, c_nonce x.1) l.

(** A nonce under which nobody is registered and nothing was authorised. *)
Definition unused (p : Proxy) (A : list (KeyId * Nonce * N)) (n : Nonce) : Prop :=
  (∀ k, (k, n) ∉ (lru_entries (identities (px_logins p))).*1) ∧ (∀ k s, (k, n, s) ∉ A).

(** The numbers authorised under a login. *)
Definition spent_at (A : list (KeyId * Nonce * N)) (key : KeyId * Nonce) : gset N :=
  list_to_set (omap (λ x, if decide (x.1 = key) then Some x.2 else None) A).

Lemma elem_of_spent A key s : s ∈ spent_at A key ↔ (key.1, key.2, s) ∈ A.
Proof.
  unfold spent_at. rewrite elem_of_list_to_set, list_elem_of_omap. destruct key as [k n]. split.
  - intros ([[k' n'] s']&Hin&E). cbn in E. case_decide; simplify_eq. done.
  - intros Hin. exists (k, n, s). split; [done|]. cbn. by rewrite decide_True.
Qed.

(** [M] are the nonces still to be minted, [A] the requests authorised so far. *)
Record px_inv (p : Proxy) (M : list Nonce) (A : list (KeyId * Nonce * N)) : Prop := {
  inv_future : ∀ n, n ∈ M → unused p A n ∧ (n ∉ (lru_entries (nonces (px_logins p))).*1) ∧
                            n ∉ login_nonces (px_inflight p);
  inv_minted : ∀ n, n ∈ (lru_entries (nonces (px_logins p))).*1 →
                 unused p A n ∧ n ∉ login_nonces (px_inflight p);
  inv_inflight : NoDup (login_nonces (px_inflight p)) ∧
                 ∀ n, n ∈ login_nonces (px_inflight p) → unused p A n;
  inv_windows : ∀ e, e ∈ lru_entries (identities (px_logins p)) →
                  window_repr (ci_window e.2) (spent_at A e.1);
  inv_once : NoDup A;
}.

(** ** Entries of the caches after an operation *)

Lemma put_elem {K V} `{EqDecision K} (c : lru K V) k v e :
  e ∈ lru_entries (lru_put c k v) → e = (k, v) ∨ (e ∈ lru_entries c ∧ e.1 ≠ k).
Proof.
  rewrite lru_put_spec. intros He.
  apply (sublist_subseteq _ _ (sublist_take _ _)) in He.
  apply elem_of_cons in He as [->|He]; [by left|right].
  by apply list_elem_of_filter in He as [? ?].
Qed.

Lemma pop_elem {K V} `{EqDecision K} (c : lru K V) k e :
  e ∈ lru_entries (lru_pop c k).2 ↔ e ∈ lru_entries c ∧ e.1 ≠ k.
Proof.
  destruct (lru_pop_spec _ _ c k) as (_ & -> & _). rewrite list_elem_of_filter. naive_solver.
Qed.

Lemma peek_elem {K V} `{EqDecision K} (c : lru K V) k v :
  lru_peek c k = Some v → (k, v) ∈ lru_entries c.
Proof.
  rewrite lru_peek_spec. destruct (find_first _ _) as [[k' v']|] eqn:E; [|done]. intros [= <-].
  apply find_first_Some in E as [Hin Hk]. apply bool_decide_eq_true in Hk. by cbn in *; subst.
Qed.

Lemma keys_elem {K V} (c : list (K * V)) k : k ∈ c.*1 ↔ ∃ v, (k, v) ∈ c.
Proof. rewrite list_elem_of_fmap. split; [intros ([k' v]&->&?); eauto|intros [v ?]; by exists (k, v)]. Qed.

(** ** Preservation *)

Lemma mint_inv p n now M A :
  n ∉ M → px_inv p (n :: M) A → px_inv (px_step p (PMint n now)).1 M A.
Proof.
  intros Hn [Hf Hm Hi Hw Ho]. destruct p as [st l]. cbn in *.
  destruct (Hf n) as (Hu&Hnn&Hni); [set_solver|].
  assert (Hkeys : ∀ m, m ∈ (lru_entries (lru_put (nonces st) n now)).*1 →
                       m = n ∨ m ∈ (lru_entries (nonces st)).*1).
  { intros m [v Hv]%keys_elem. apply put_elem in Hv as [[= -> _]|[Hv _]]; [by left|right].
    apply keys_elem. eauto. }
  split; cbn; [| |done|done|done].
  - intros m HM. destruct (Hf m) as (?&?&?); [set_solver|]. split_and!; [done| |done].
    intros [->|?]%Hkeys; done.
  - intros m [->|Hin]%Hkeys; [done|]. by apply Hm.
Qed.

Lemma claim_login_cases now utc st authz k :
  (claim_login now utc st authz k).2 = st ∧ (∃ e, (claim_login now utc st authz k).1 = Err e) ∨
  ∃ n, (claim_login now utc st authz k).2 = mkLogins (lru_pop (nonces st) n).2 (identities st) ∧
    ((∃ e, (claim_login now utc st authz k).1 = Err e) ∨
     ∃ cl, (claim_login now utc st authz k).1 = Ok cl ∧ c_nonce cl.1 = n ∧
       n ∈ (lru_entries (nonces st)).*1).
Proof.
  unfold claim_login. destruct authz as [s|]; [|left; eauto].
  destruct (authn_from_str s) as [[c|]|]; [|left; eauto..]. right. exists (c_nonce c).
  destruct (lru_pop (nonces st) (c_nonce c)) as [[minted|] ns] eqn:Ep; [|eauto].
  assert (Hin : c_nonce c ∈ (lru_entries (nonces st)).*1).
  { apply keys_elem. exists minted. apply peek_elem.
    destruct (lru_pop_spec _ _ (nonces st) (c_nonce c)) as (<-&_&_). by rewrite Ep. }
  repeat case_match; (split; [done|]); first [left; by eexists|right; eexists; by split_and!].
Qed.

Lemma claim_inv p now utc authz k M A :
  px_inv p M A → px_inv (px_step p (PClaim now utc authz k)).1 M A.
Proof.
  intros Hinv. destruct p as [st l]. cbn.
  destruct (claim_login_cases now utc st authz k) as [[E1 [e E2]]|(n&E1&Hr)];
    destruct (claim_login now utc st authz k) as [r st']; cbn in *; subst; [done|].
  destruct Hinv as [Hf Hm Hi Hw Ho]; cbn in *.
  assert (Hkeys : ∀ m, m ∈ (lru_entries (lru_pop (nonces st) n).2).*1 →
                       m ≠ n ∧ m ∈ (lru_entries (nonces st)).*1).
  { intros m [v [Hv Hne]%pop_elem]%keys_elem. split; [done|]. apply keys_elem. eauto. }
  destruct Hr as [[e ->]|(cl & -> & <- & Hin)].
  - split; cbn; [| |done..].
    + intros m HM. destruct (Hf m HM) as (?&Hn&?). split_and!; [done| |done]. by intros [_ ?]%Hkeys.
    + intros m [_ Hmin]%Hkeys. by apply Hm.
  - destruct (Hm _ Hin) as [Hu Hni]. split; cbn; [| | |done|done].
    + intros m HM. destruct (Hf m HM) as (?&Hn&Hl). split_and!; [done|by intros [_ ?]%Hkeys|].
      intros [->|?]%elem_of_cons; done.
    + intros m [Hne Hmin]%Hkeys. destruct (Hm m Hmin) as [? ?]. split; [done|].
      intros [->|?]%elem_of_cons; done.
    + destruct Hi as [Hnd Hi]. split; [by constructor|]. intros m [->|Hl]%elem_of_cons; [done|by apply Hi].
Qed.

Lemma commit_inv p t1 t2 i M A :
  px_inv p M A → px_inv (px_step p (PCommit t1 t2 i)).1 M A.
Proof.
  intros Hinv. destruct p as [st l]. cbn. destruct (l !! i) as [[c who]|] eqn:El; [|done].
  destruct Hinv as [Hf Hm [Hnd Hi] Hw Ho]; cbn in *.
  assert (Hperm : login_nonces l ≡ₚ c_nonce c :: login_nonces (delete i l)).
  { exact (Permutation_map (λ x, c_nonce x.1) (delete_Permutation l i (c, who) El)). }
  assert (Hc : c_nonce c ∈ login_nonces l) by (rewrite Hperm; set_solver).
  rewrite Hperm in Hnd. apply NoDup_cons in Hnd as [Hnc Hnd].
  assert (Hun : ∀ n, n ≠ c_nonce c → unused (mkProxy st l) A n →
                unused (mkProxy (commit_login t1 t2 st c who) (delete i l)) A n).
  { intros n Hne [H1 H2]. split; [|done]. cbn. intros k [v Hv]%keys_elem.
    apply put_elem in Hv as [[= -> -> _]|[Hv _]]; [done|]. apply (H1 k), keys_elem. eauto. }
  split; cbn.
  - intros n HM. destruct (Hf n HM) as (?&?&Hnl). rewrite Hperm in Hnl.
    apply not_elem_of_cons in Hnl as [? ?]. split_and!; auto.
  - intros n Hin. destruct (Hm n Hin) as [? Hnl]. rewrite Hperm in Hnl.
    apply not_elem_of_cons in Hnl as [? ?]. split; auto.
  - split; [done|]. intros n Hn. apply Hun; [by intros ->|]. apply Hi. rewrite Hperm. set_solver.
  - intros e He. apply put_elem in He as [->|[He _]]; [|by apply Hw]. cbn.
    replace (spent_at A (c_key_id c, c_nonce c)) with (∅ : gset N); [apply window_repr_default|].
    symmetry. apply elem_of_equiv_empty_L. intros s Hs%elem_of_spent.
    destruct (Hi _ Hc) as [_ Hno]. by apply Hno in Hs.
  - done.
Qed.

(** What a request leaves of the identities: the same ones, with at most the
    named window changed. *)
Lemma verify_request_cases t0 t1 t2 st authz method target :
  let r := verify_request t0 t1 t2 st authz method target in
  nonces r.2 = nonces st ∧
  ((∃ e, r.1 = Err e) ∧
   (∀ e, e ∈ lru_entries (identities r.2) →
      ∃ c, (e.1, c) ∈ lru_entries (identities st) ∧ ci_window c = ci_window e.2)
   ∨
   ∃ k n s c, claimed authz = Some (k, n, s) ∧ ((k, n), c) ∈ lru_entries (identities st) ∧
     (spend (ci_window c) s).1 = true ∧ (∃ who, r.1 = Ok who) ∧
     (∀ e, e ∈ lru_entries (identities r.2) →
        e.1 = (k, n) ∧ ci_window e.2 = (spend (ci_window c) s).2 ∨
        e.1 ≠ (k, n) ∧ e ∈ lru_entries (identities st))).
Proof.
  cbv zeta.
  assert (Hstay : ∀ e : KeyId * Nonce * CachedIdentity, e ∈ lru_entries (identities st) →
    ∃ c, (e.1, c) ∈ lru_entries (identities st) ∧ ci_window c = ci_window e.2).
  { intros e He. exists e.2. by destruct e. }
  unfold verify_request, claimed. destruct authz as [s|]; [|split; [done|left; by split; [eexists|]]].
  cbn [mbind option_bind].
  destruct (authn_from_str s) as [[c|[kid [proof|]]]|];
    [split; [done|left; by split; [eexists|]]| |split; [done|left; by split; [eexists|]]..].
  pose proof (lru_get_mut_spec _ _ (identities st) (kid, rs_nonce proof)) as Hg.
  destruct (lru_get_mut (identities st) (kid, rs_nonce proof)) as [[c write]|];
    [|split; [done|left; by split; [eexists|]]].
  destruct Hg as [Hpk Hwr]. apply peek_elem in Hpk.
  assert (Hkeep : ∀ w e, e ∈ lru_entries (write w) →
    e = ((kid, rs_nonce proof), w) ∨ e ∈ lru_entries (identities st) ∧ e.1 ≠ (kid, rs_nonce proof)).
  { intros w e. destruct (Hwr w) as [-> _]. intros [->|He]%elem_of_cons; [by left|right].
    apply list_elem_of_filter in He. naive_solver. }
  assert (Hsame : ∀ w e, ci_window w = ci_window c → e ∈ lru_entries (write w) →
    ∃ c', (e.1, c') ∈ lru_entries (identities st) ∧ ci_window c' = ci_window e.2).
  { intros w e Hww [->|[He _]]%Hkeep; [by exists c|]. exists e.2. by destruct e. }
  destruct (is_still_valid t0 t1 c); cbn [negb].
  2:{ split; [done|]. left. split; [by eexists|]. intros e [He _]%pop_elem. by eapply Hsame. }
  destruct (verify_bound _ _ _ _); [|split; [done|left; split; [by eexists|intros ?; by apply Hsame]]].
  destruct (spend (ci_window c) (rs_seq proof)) as [fresh w] eqn:Esp. destruct fresh; cbn [negb].
  - split; [done|]. right. exists kid, (rs_nonce proof), (rs_seq proof), c. rewrite Esp.
    split_and!; [done..|by eexists|]. cbn. intros e [->|[? ?]]%Hkeep; [by left|by right].
  - split; [done|]. left. split; [by eexists|]. intros e. apply Hsame. cbn.
    unfold spend in Esp. repeat case_match; simplify_eq; done.
Qed.

Lemma request_inv p t0 t1 t2 authz method target M A :
  px_inv p M A →
  let r := px_step p (PRequest t0 t1 t2 authz method target) in
  px_inv r.1 M (match r.2 with Some x => x :: A | None => A end).
Proof.
  intros [Hf Hm [Hnd Hi] Hw Ho]. destruct p as [st l]. cbn in *.
  destruct (verify_request_cases t0 t1 t2 st authz method target) as [En Hcase].
  destruct (verify_request t0 t1 t2 st authz method target) as [r st']. cbn in *.
  destruct Hcase as [[[e ->] Hent]|(k&n&s&c&Hcl&Hin&Hsp&[who ->]&Hent)].
  - assert (Hun : ∀ m, unused (mkProxy st l) A m → unused (mkProxy st' l) A m).
    { intros m [H1 H2]. split; [|done]. cbn. intros k [v Hv]%keys_elem.
      apply Hent in Hv as (c&Hc&_). apply (H1 k), keys_elem. eauto. }
    split; cbn; rewrite ?En; [intros m HM; destruct (Hf m HM) as (?&?&?); split_and!; auto
      |intros m Hmin; destruct (Hm m Hmin); split; auto
      |split; [done|intros m Hl; by apply Hun, Hi]| |done].
    intros x (c&Hc&<-)%Hent. by apply Hw in Hc.
  - rewrite Hcl. destruct (spend_step _ _ s (Hw _ Hin)) as [Hacc Hrep].
    cbn in Hacc, Hrep. rewrite Hsp in Hrep. destruct (proj1 Hacc Hsp) as [Hfresh _].
    rewrite elem_of_spent in Hfresh. cbn in Hfresh.
    assert (Hun : ∀ m, unused (mkProxy st l) A m → unused (mkProxy st' l) ((k, n, s) :: A) m).
    { intros m [H1 H2]. assert (m ≠ n) by (intros ->; apply (H1 k), keys_elem; eauto). split; cbn.
      - intros k' [v Hv]%keys_elem. apply Hent in Hv as [[E _]|[_ Hv]]; [cbn in E; congruence|].
        apply (H1 k'), keys_elem. eauto.
      - intros k' s' [E|?]%elem_of_cons; [congruence|by eapply H2]. }
    split; cbn -[spent_at]; rewrite ?En; [intros m HM; destruct (Hf m HM) as (?&?&?); split_and!; auto
      |intros m Hmin; destruct (Hm m Hmin); split; auto
      |split; [done|intros m Hl; by apply Hun, Hi]| |by constructor].
    intros [key v] [[E Ew]|[Hne Hv]]%Hent; cbn [fst snd] in *.
    + subst key. rewrite Ew. replace (spent_at ((k, n, s) :: A) (k, n)) with ({[s]} ∪ spent_at A (k, n));
        [exact Hrep|]. apply set_eq. intros x. rewrite elem_of_union, !elem_of_spent. set_solver.
    + replace (spent_at ((k, n, s) :: A) key) with (spent_at A key); [by apply Hw in Hv|].
      apply set_eq. intros x. rewrite !elem_of_spent, elem_of_cons. destruct key as [k' n'].
      cbn. split; [by right|]. intros [E|?]; [|done]. congruence.
Qed.

Lemma px_run_inv p es M A :
  NoDup (minted_in es ++ M) → px_inv p (minted_in es ++ M) A →
  px_inv (px_run p es).1 M (reverse (px_run p es).2 ++ A).
Proof.
  revert p A; induction es as [|e es IH]; intros p A Hnd Hinv; [done|].
  cbn [px_run].
  assert (Hstep : px_inv (px_step p e).1 (minted_in es ++ M)
    (match (px_step p e).2 with Some x => x :: A | None => A end) ∧ NoDup (minted_in es ++ M)).
  { destruct e as [n now|now utc authz k|t1 t2 i|t0 t1 t2 authz method target].
    - cbn in Hnd. apply NoDup_cons in Hnd as [Hn Hnd]. split; [|done]. by apply mint_inv.
    - split; [|done]. cbn in Hinv. pose proof (claim_inv _ now utc authz k _ _ Hinv) as Hc.
      cbn in *. by destruct (claim_login _ _ _ _ _).
    - split; [|done]. pose proof (commit_inv _ t1 t2 i _ _ Hinv) as Hc.
      cbn in *. by destruct (px_inflight p !! i) as [[]|].
    - split; [|done]. by apply request_inv. }
  destruct Hstep as [Hs Hnd']. destruct (px_step p e) as [p' o]. cbn [fst snd] in Hs.
  specialize (IH p' _ Hnd' Hs). destruct (px_run p' es) as [p'' l]. cbn [fst snd] in *.
  destruct o as [x|]; [|done]. by rewrite reverse_cons, <- app_assoc.
Qed.

Lemma px_inv_new M : px_inv (mkProxy logins_new []) M [].
Proof.
  destruct (lru_new_spec Nonce Instant (N.to_nat MAX_OUTSTANDING_NONCES)) as [E1 _].
  destruct (lru_new_spec (KeyId * Nonce) CachedIdentity MAX_CACHED_IDENTITIES) as [E2 _].
  split; cbn [px_logins px_inflight logins_new nonces identities]; rewrite ?E1, ?E2.
  - intros n _. split_and!; [|set_solver..]. split; cbn; [rewrite E2|]; set_solver.
  - set_solver.
  - split; [constructor|set_solver].
  - set_solver.
  - constructor.
Qed.

(** What a whole trace authorises has no repetition. *)
Lemma px_run_once es :
  NoDup (minted_in es) → NoDup (px_run (mkProxy logins_new []) es).2.
Proof.
  intros Hnd. pose proof (px_run_inv (mkProxy logins_new []) es [] []) as H.
  rewrite !app_nil_r in H. rewrite <- (reverse_Permutation (px_run _ es).2).
  eapply inv_once. apply H; [done|]. apply px_inv_new.
Qed.

Lemma px_run_app p es1 es2 :
  px_run p (es1 ++ es2) =
  let '(p, l1) := px_run p es1 in let '(p, l2) := px_run p es2 in (p, l1 ++ l2).
Proof.
  revert p; induction es1 as [|e es1 IH]; intros p; cbn [app px_run].
  - by destruct (px_run p es2).
  - destruct (px_step p e) as [p1 o]. rewrite IH. destruct (px_run p1 es1) as [p2 l1].
    destruct (px_run p2 es2) as [p3 l2]. by destruct o.
Qed.

(** C5. No request is authorised twice: in every interleaving of minted
    challenges, logins and requests, of any clients and any clock, each login
    key, nonce and sequence number is authorised at most once, as long as the
    random nonces do not repeat. *)
Theorem no_request_replayed es :
  NoDup (minted_in es) → NoDup (px_run (mkProxy logins_new []) es).2.
Proof. apply px_run_once. Qed.

(** A login proves possession of its key, once: it succeeds only for
    initial credentials whose nonce this proxy minted less than [NONCE_TTL] ago
    and whose signature the presented key verifies, the identity it returns
    names that key, and the nonce is spent by it. *)
Theorem login_sound now t1 t2 utc st authz k who st' :
  verify_login now t1 t2 utc st authz k = (Ok who, st') →
  ∃ s c minted v, authz = Some s ∧ authn_from_str s = Ok (Initial c) ∧
    lru_peek (nonces st) (c_nonce c) = Some minted ∧ elapsed now minted < NONCE_TTL ∧
    ssh_key_id k = Ok (c_key_id c) ∧
    verify_with_ssh_public_key (into_challenge_response c) k = Ok v ∧
    id_key_id who = c_key_id c ∧ id_public_key who = k ∧
    (c_nonce c ∉ (lru_entries (nonces st')).*1).
Proof.
  unfold verify_login, claim_login. destruct authz as [s|]; [|done].
  destruct (authn_from_str s) as [[c|]|] eqn:Ea; [|done..].
  destruct (lru_pop_spec _ _ (nonces st) (c_nonce c)) as (Epk&Een&_).
  destruct (lru_pop (nonces st) (c_nonce c)) as [[minted|] ns]; [|done]. cbn [fst snd] in Epk, Een.
  destruct (N.leb_spec NONCE_TTL (elapsed now minted)) as [|Hfresh]; [done|].
  case_bool_decide as Hk; [done|].
  destruct (verify_with_ssh_public_key _ k) as [v|] eqn:Ev; [|done].
  destruct (identity_new k v utc) as [who'|] eqn:Ei; [|done]. intros [= -> <-].
  exists s, c, minted, v. unfold identity_new in Ei.
  destruct (ssh_key_id k) as [kid|] eqn:Ek; [|done]. cbn in Hk, Ei.
  injection Hk as ->. destruct (negb _); [done|]. injection Ei as <-.
  split_and!; [done..|]. cbn. rewrite Een. intros [m Hm]%keys_elem.
  apply list_elem_of_filter in Hm as [Hne _]. done.
Qed.

(** A request is authorised only for a live login and only if its
    signature covers it: the credentials name a registered, unexpired identity,
    their signature verifies under that login's ephemeral key for exactly this
    method and target, and the sequence number was not spent. *)
Theorem authorise_sound t0 t1 t2 st authz method target who st' :
  verify_request t0 t1 t2 st authz method target = (Ok who, st') →
  ∃ s kid proof cached, authz = Some s ∧
    authn_from_str s = Ok (Bound (mkBoundCredentials kid (Some proof))) ∧
    lru_peek (identities st) (kid, rs_nonce proof) = Some cached ∧
    is_still_valid t0 t1 cached = true ∧ who = ci_identity cached ∧
    verify_bound (ci_verifier cached) (bound_request_new method target (rs_seq proof)) kid proof = Ok () ∧
    (spend (ci_window cached) (rs_seq proof)).1 = true.
Proof.
  unfold verify_request. destruct authz as [s|]; [|done].
  destruct (authn_from_str s) as [[c|[kid [proof|]]]|] eqn:Ea; [done| |done..].
  pose proof (lru_get_mut_spec _ _ (identities st) (kid, rs_nonce proof)) as Hg.
  destruct (lru_get_mut _ _) as [[c write]|]; [|done]. destruct Hg as [Hpk _].
  destruct (is_still_valid t0 t1 c) eqn:Ev; [|done]. cbn [negb].
  destruct (verify_bound _ _ _ _) as [[]|] eqn:Eb; [|done].
  destruct (spend (ci_window c) (rs_seq proof)) as [[] w] eqn:Es; [|done]. intros [= <- <-].
  exists s, kid, proof, c. rewrite Es. by split_and!.
Qed.
End login.
