(* ===== verification/Rack.v ===== *)
(** * The rack as one sled sees it ([server/src/rack.rs]) *)
From S2P Require Import Prelude External Codephrases Targets Keys Jobs Messages.
Open Scope N_scope.

(** [Rack]. *)
Record Rack := mkRack {
  own_baseboard : BaseboardId;
  own_cubby : option N;
  cubbies : Cubbies;
  versions : gmap BaseboardId VersionInfo;
  unknown_versions : gset string;
}.

(** [Rack::new]; the build's own version is a compile-time constant. *)
Definition rack_new (current : VersionInfo) (own : BaseboardId) : Rack :=
  mkRack own None ∅ {[own := current]} ∅.

(** [Rack::check_target]: why a job must not run on this sled, if so. *)
Definition check_target (r : Rack) (j : JobStartRequest) : option SkipReason :=
  if target_matches_mode j && target_matches (target j) (own_baseboard r) (own_cubby r) then None
  else match own_cubby r with
       | None => Some CubbyUnknown
       | Some _ => Some NotTargeted
       end.

(** [Rack::set_cubbies]: the lowest cubby that names this sled becomes its own,
    and is kept when a later map does not name it. *)
Definition set_cubbies (r : Rack) (c : Cubbies) : Rack :=
  let found := find_first (λ k, bool_decide (c !! k = Some (own_baseboard r)))
                 (sorted_elements N.le (dom c)) in
  mkRack (own_baseboard r)
    (match found with Some k => Some k | None => own_cubby r end)
    c (versions r) (unknown_versions r).

(** [Rack::known_version]: whether the announcement was recorded. *)
Definition known_version (r : Rack) (b : BaseboardId) (v : VersionInfo) : bool * Rack :=
  if bool_decide (b ≠ own_baseboard r) then
    (true, mkRack (own_baseboard r) (own_cubby r) (cubbies r)
             (<[b := v]> (versions r)) (unknown_versions r))
  else (false, r).

(** [Rack::unknown_version]: whether the version is new to us. *)
Definition unknown_version (r : Rack) (v : string) : bool * Rack :=
  (bool_decide (v ∉ unknown_versions r),
   mkRack (own_baseboard r) (own_cubby r) (cubbies r) (versions r)
     ({[v]} ∪ unknown_versions r)).

(** Once a map names this sled, its own cubby is one the map assigns to it. *)
Lemma set_cubbies_own r c k :
  own_cubby (set_cubbies r c) = Some k →
  c !! k = Some (own_baseboard r) ∨
  (own_cubby r = Some k ∧ ∀ k', c !! k' ≠ Some (own_baseboard r)).
Proof.
  unfold set_cubbies; cbn [own_cubby]. case_match eqn:Ef.
  - intros [= ->]. apply find_first_Some in Ef as [_ Ef]. left. by apply bool_decide_eq_true in Ef.
  - intros E. right. split; [done|]. intros k' Hk'.
    apply find_first_None with (x := k') in Ef.
    + by apply bool_decide_eq_false in Ef.
    + apply elem_of_sorted_elements, elem_of_dom. eauto.
Qed.

(** A sled never runs a job its signature does not target: the check
    passes exactly when the signed target names this sled (by baseboard, by its
    own known cubby, or as every sled) and an interactive job names a single
    sled; otherwise the reason tells whether an unknown cubby may be to blame. *)
Theorem check_target_spec r j :
  match check_target r j with
  | None => target_matches (target j) (own_baseboard r) (own_cubby r) = true ∧
            (is_interactive (mode j) = true → is_single (target j) = true)
  | Some reason =>
    (target_matches (target j) (own_baseboard r) (own_cubby r) = false ∨
     (is_interactive (mode j) = true ∧ is_single (target j) = false)) ∧
    (reason = CubbyUnknown ↔ own_cubby r = None) ∧
    (reason = NotTargeted ↔ own_cubby r ≠ None)
  end.
Proof.
  unfold check_target, target_matches_mode.
  destruct (is_single (target j)), (is_interactive (mode j)),
    (target_matches (target j) (own_baseboard r) (own_cubby r)), (own_cubby r); simpl; naive_solver.
Qed.

(** Reports of the rack's cubby map are monotone knowledge: once a sled
    knows its cubby, no later map makes it forget, and a map that names it in a
    cubby makes it know one of the cubbies that map assigns to it. *)
Theorem set_cubbies_monotone r c :
  (own_cubby r ≠ None → own_cubby (set_cubbies r c) ≠ None) ∧
  (∀ k, c !! k = Some (own_baseboard r) →
     ∃ k', own_cubby (set_cubbies r c) = Some k' ∧ c !! k' = Some (own_baseboard r)) ∧
  own_baseboard (set_cubbies r c) = own_baseboard r.
Proof.
  split_and!; [|intros k Hk|done].
  - unfold set_cubbies; cbn [own_cubby]. by case_match.
  - destruct (own_cubby (set_cubbies r c)) as [k'|] eqn:E.
    + exists k'. split; [done|]. apply set_cubbies_own in E as [?|[_ Hno]]; [done|].
      by apply Hno in Hk.
    + unfold set_cubbies in E; cbn [own_cubby] in E. case_match eqn:Ef; [done|].
      apply find_first_None with (x := k) in Ef.
      * by apply bool_decide_eq_false in Ef.
      * apply elem_of_sorted_elements, elem_of_dom. eauto.
Qed.
