(* ===== verification/Certs.v ===== *)
(** * Trust anchors ([server/src/certs.rs]) *)
From S2P Require Import Prelude External Codephrases Hash Targets Keys Jobs.

Section certs.
Context `{!Sha3, !BaseboardOps, !Pki}.
Local Open Scope rust_scope.

(** [Certificates]: anchors by key, each with the key of its issuer. *)
Record Certificates := mkCertificates {
  anchors : gmap KeyId (Certificate * option KeyId);
}.

(** One iteration of the loop of [Certificates::new]. *)
Definition add_anchor (trusted : gmap KeyId (Certificate * option KeyId)) (cert : Certificate) :
    result (gmap KeyId (Certificate * option KeyId)) KeyError :=
  let? kid := key_id_of_cert cert in
  let? tbs := ok_or (cert_tbs_der cert) KDer in
  let? sg := signature_of_cert cert in
  let? parent_id :=
    if bool_decide (cert_subject cert = cert_issuer cert) then
      let? _ := verify_with_spki sg tbs (cert_spki_key cert) in Ok None
    else
      let found := find_first
        (λ k, match trusted !! k with
              | Some (parent, _) => bool_decide (cert_subject parent = cert_issuer cert)
              | None => false
              end) (sorted_elements phrase_le (dom trusted)) in
      match found with
      | None => Err (KUnanchoredCert kid)
      | Some parent_id =>
        match trusted !! parent_id with
        | Some (parent, _) =>
          let? _ := verify_with_spki sg tbs (cert_spki_key parent) in Ok (Some parent_id)
        | None => Err (KUnanchoredCert kid)
        end
      end in
  Ok (<[kid := (cert, parent_id)]> trusted).

Fixpoint add_anchors (trusted : gmap KeyId (Certificate * option KeyId)) (l : list Certificate) :
    result (gmap KeyId (Certificate * option KeyId)) KeyError :=
  match l with
  | [] => Ok trusted
  | cert :: l => let? trusted := add_anchor trusted cert in add_anchors trusted l
  end.

(** [Certificates::new]. *)
Definition certificates_new (l : list Certificate) : result Certificates KeyError :=
  let? trusted := add_anchors ∅ l in Ok (mkCertificates trusted).

(** [Certificates::verify]. *)
Definition certs_verify (c : Certificates) (job : SignedJob) : result VerifiedJob KeyError :=
  match anchors c !! key_id job with
  | None => Err (KMissingCert (key_id job))
  | Some (cert, _) => verify_with_cert job cert
  end.

(** The loop of [Certificates::chain], leaf first. *)
Fixpoint chain_go (fuel : nat) (c : Certificates) (next : option KeyId) (acc : list Certificate) :
    option (result (list Certificate) KeyError) :=
  match next with
  | None => Some (Ok acc)
  | Some kid =>
    match fuel with
    | O => None
    | S fuel =>
      match anchors c !! kid with
      | None => Some (Err (KMissingCert kid))
      | Some (cert, parent) => chain_go fuel c parent (cert :: acc)
      end
    end
  end.

(** [Certificates::chain], root to leaf; [None] when the loop does not end
    within as many steps as there are anchors. *)
Definition chain (c : Certificates) (kid : KeyId) : option (result (list Certificate) KeyError) :=
  chain_go (S (size (anchors c))) c (Some kid) [].

Lemma certs_verify_signed c job v : certs_verify c job = Ok v → signed v = job.
Proof.
  unfold certs_verify. destruct (anchors c !! key_id job) as [[cert ?]|]; [|done].
  apply verify_with_cert_signed.
Qed.

(** ** The anchors form chains of verified signatures *)

(** [cert] carries a signature that the key [key] verifies. *)
Definition signed_by (cert : Certificate) (key : list byte) : Prop :=
  ∃ tbs sg, cert_tbs_der cert = Some tbs ∧ signature_of_cert cert = Ok sg ∧
            verify_with_spki sg tbs key = Ok ().

(** [issuer] names and verifies [cert]. *)
Definition issued (issuer cert : Certificate) : Prop :=
  cert_subject issuer = cert_issuer cert ∧ signed_by cert (cert_spki_key issuer).

(** Every anchor is filed under its own key; a root verifies itself, and an
    intermediate was verified by a certificate of its issuer's name. *)
Definition anchored (kid : KeyId) (cert : Certificate) (parent : option KeyId) : Prop :=
  key_id_of_cert cert = Ok kid ∧
  match parent with
  | None => issued cert cert
  | Some _ => ∃ issuer, issued issuer cert
  end.

(** What one accepted certificate adds. *)
Lemma add_anchor_inv trusted cert trusted' :
  add_anchor trusted cert = Ok trusted' →
  ∃ kid p, key_id_of_cert cert = Ok kid ∧ trusted' = <[kid := (cert, p)]> trusted ∧
    match p with
    | None => issued cert cert
    | Some pid => ∃ pc pp, trusted !! pid = Some (pc, pp) ∧ issued pc cert
    end.
Proof.
  unfold add_anchor.
  destruct (key_id_of_cert cert) as [kid|] eqn:Ek; [|done]. simpl.
  destruct (cert_tbs_der cert) as [tbs|] eqn:Et; [|done]. simpl.
  destruct (signature_of_cert cert) as [sg|] eqn:Es; [|done]. simpl.
  case_bool_decide as Eroot.
  - destruct (verify_with_spki sg tbs (cert_spki_key cert)) as [[]|] eqn:Ev; [|done]. simpl.
    intros [= <-]. exists kid, None. split; [done|]. split; [done|]. split; [done|]. by exists tbs, sg.
  - destruct (find_first _ _) as [pid|] eqn:Ef; [|done].
    apply find_first_Some in Ef as [_ Ef].
    destruct (trusted !! pid) as [[pc pp]|] eqn:Ep; [|done].
    apply bool_decide_eq_true in Ef.
    destruct (verify_with_spki sg tbs (cert_spki_key pc)) as [[]|] eqn:Ev; [|done]. simpl.
    intros [= <-]. exists kid, (Some pid). split; [done|]. split; [done|].
    exists pc, pp. split; [done|]. split; [done|]. by exists tbs, sg.
Qed.

Lemma add_anchor_anchored trusted cert trusted' :
  (∀ kid c p, trusted !! kid = Some (c, p) → anchored kid c p) →
  add_anchor trusted cert = Ok trusted' →
  ∀ kid c p, trusted' !! kid = Some (c, p) → anchored kid c p.
Proof.
  intros IH (kid&p&Hk&->&Hp)%add_anchor_inv k c q.
  rewrite lookup_insert. case_decide; [|by apply IH].
  intros [= <- <-]. subst k. split; [done|]. destruct p; [|done].
  destruct Hp as (pc&_&_&?). by exists pc.
Qed.

Lemma add_anchors_anchored l trusted trusted' :
  (∀ kid c p, trusted !! kid = Some (c, p) → anchored kid c p) →
  add_anchors trusted l = Ok trusted' →
  ∀ kid c p, trusted' !! kid = Some (c, p) → anchored kid c p.
Proof.
  revert trusted; induction l as [|cert l IHl]; intros trusted IH; simpl.
  - by intros [= <-].
  - destruct (add_anchor trusted cert) as [t|] eqn:E; [|done]. simpl.
    apply IHl. by eapply add_anchor_anchored.
Qed.

(** ** Chains of distinct anchors *)

Fixpoint linked_from (issuer : Certificate) (l : list Certificate) : Prop :=
  match l with
  | [] => True
  | cert :: l => issued issuer cert ∧ linked_from cert l
  end.

(** A root-to-leaf chain: a root that verifies itself, and each further
    certificate verified by the one before it. *)
Definition linked (l : list Certificate) : Prop :=
  match l with
  | [] => False
  | root :: l => issued root root ∧ linked_from root l
  end.

(** Anchors ranked so that issuers come before what they issue. *)
Definition ranked (t : gmap KeyId (Certificate * option KeyId)) (rank : KeyId → nat) : Prop :=
  ∀ kid cert p, t !! kid = Some (cert, p) →
    (rank kid < size t)%nat ∧
    match p with
    | None => issued cert cert
    | Some pid => ∃ pc pp, t !! pid = Some (pc, pp) ∧ (rank pid < rank kid)%nat ∧ issued pc cert
    end.

Lemma ranked_insert t rank kid cert p :
  ranked t rank → t !! kid = None →
  match p with
  | None => issued cert cert
  | Some pid => ∃ pc pp, t !! pid = Some (pc, pp) ∧ issued pc cert
  end →
  ranked (<[kid := (cert, p)]> t) (λ k, if decide (k = kid) then size t else rank k).
Proof.
  intros Hr Hf Hp k c q. rewrite map_size_insert_None by done. rewrite lookup_insert.
  assert (Hlift : ∀ pid pc pp, t !! pid = Some (pc, pp) →
    <[kid := (cert, p)]> t !! pid = Some (pc, pp) ∧ pid ≠ kid ∧ (rank pid < size t)%nat).
  { intros pid pc pp Hpid. assert (pid ≠ kid) by congruence.
    rewrite lookup_insert_ne by done. split_and!; [done..|]. apply (Hr _ _ _ Hpid). }
  destruct (decide (kid = k)) as [->|Hne].
  - intros [= <- <-]. rewrite decide_True by done. split; [lia|].
    destruct p as [pid|]; [|done]. destruct Hp as (pc&pp&Hpid&Hi).
    destruct (Hlift _ _ _ Hpid) as (Hc1&Hc2&Hc3). exists pc, pp. rewrite decide_False by done. done.
  - intros Hk. destruct (Hr _ _ _ Hk) as [Hc1 Hc2]. rewrite decide_False by done. split; [lia|].
    destruct q as [pid|]; [|done]. destruct Hc2 as (pc&pp&Hpid&Hlt&Hi).
    destruct (Hlift _ _ _ Hpid) as (Hc3&Hc4&Hc5). exists pc, pp. by rewrite decide_False.
Qed.

Lemma add_anchors_ranked l t t' rank :
  ranked t rank → NoDup (key_id_of_cert <$> l) →
  (∀ cert kid, cert ∈ l → key_id_of_cert cert = Ok kid → t !! kid = None) →
  add_anchors t l = Ok t' → ∃ rank', ranked t' rank'.
Proof.
  revert t rank. induction l as [|cert l IH]; intros t rank Hr Hnd Hf; simpl.
  - intros [= <-]. by exists rank.
  - destruct (add_anchor t cert) as [t1|] eqn:E; [|done]. simpl.
    apply add_anchor_inv in E as (kid&p&Hk&->&Hp). apply NoDup_cons in Hnd as [Hn Hnd].
    eapply IH; [apply ranked_insert; [exact Hr|by eapply Hf; [left|]|exact Hp]|done|].
    intros c k Hc Hkc. rewrite lookup_insert_ne; [by eapply Hf; [right|]|].
    intros <-. apply Hn. apply list_elem_of_fmap. exists c. split; [congruence|done].
Qed.

Lemma chain_go_linked fuel c rank kid cert p acc :
  ranked (anchors c) rank → anchors c !! kid = Some (cert, p) → (rank kid < fuel)%nat →
  linked_from cert acc →
  ∃ pre, chain_go fuel c (Some kid) acc = Some (Ok (pre ++ cert :: acc)) ∧
         linked (pre ++ cert :: acc).
Proof.
  intros Hr. revert kid cert p acc. induction fuel as [|fuel IH]; intros kid cert p acc Hk Hlt Hl; [lia|].
  simpl. rewrite Hk. destruct (Hr _ _ _ Hk) as [_ Hp]. destruct p as [pid|].
  - destruct Hp as (pc&pp&Hpid&Hlt'&Hi).
    destruct (IH pid pc pp (cert :: acc) Hpid) as (pre&Hc1&Hc2); [lia|by split|].
    exists (pre ++ [pc]). by rewrite <- !app_assoc.
  - exists []. by destruct fuel.
Qed.

(** The chain of an anchor, when the anchors have distinct keys. *)
Lemma chain_linked l c kid cert parent :
  certificates_new l = Ok c → NoDup (key_id_of_cert <$> l) → anchors c !! kid = Some (cert, parent) →
  ∃ above, chain c kid = Some (Ok (above ++ [cert])) ∧ linked (above ++ [cert]).
Proof.
  unfold certificates_new. destruct (add_anchors ∅ l) as [t|] eqn:E; [|done]. cbn [rbind]. intros [= <-] Hnd Hk.
  cbn [anchors] in Hk. destruct (add_anchors_ranked l ∅ t (λ _, 0%nat)) as [rank Hr]; [|done..|].
  { intros ??? He. by rewrite lookup_empty in He. }
  unfold chain. eapply (chain_go_linked _ (mkCertificates t)); [exact Hr|exact Hk| |done].
  destruct (Hr _ _ _ Hk). cbn [anchors]. lia.
Qed.

(** An anchor is filed under its own key. *)
Lemma certificates_new_anchored l c kid cert parent :
  certificates_new l = Ok c → anchors c !! kid = Some (cert, parent) → anchored kid cert parent.
Proof.
  unfold certificates_new. destruct (add_anchors ∅ l) as [t|] eqn:E; [|done]. intros [= <-].
  eapply add_anchors_anchored; [|exact E]. intros ??? He. by rewrite lookup_empty in He.
Qed.

(** C10. Trust is rooted: every anchor a server accepts is filed under the key
    it certifies and carries a signature that its own key (a root) or the
    certificate named as its issuer (an intermediate) verifies; a job is
    verified only by the anchor its envelope names, whose key verifies the
    envelope's signature over the job, and is then attributed to that key; and
    when the anchors have distinct keys, the chain of any of them is computed
    (the loop ends) and is a root-to-leaf list of certificates, each verified by
    the one before it. *)
Theorem certificates_anchored l c :
  certificates_new l = Ok c →
  (∀ kid cert parent, anchors c !! kid = Some (cert, parent) → anchored kid cert parent) ∧
  (∀ job v, certs_verify c job = Ok v →
     signed v = job ∧ verified_by v = key_id job ∧
     ∃ cert parent alg sg, anchors c !! key_id job = Some (cert, parent) ∧
       decode_with_cert (signature job) alg = Ok sg ∧
       verify_with_spki sg (to_be_signed (payload job)) (cert_spki_key cert) = Ok tt) ∧
  (NoDup (key_id_of_cert <$> l) →
     (∀ kid, anchors c !! kid = None → chain c kid = Some (Err (KMissingCert kid))) ∧
     ∀ kid cert parent, anchors c !! kid = Some (cert, parent) →
       ∃ above, chain c kid = Some (Ok (above ++ [cert])) ∧ linked (above ++ [cert])).
Proof.
  intros Hnew. split_and!.
  - intros kid cert parent. by apply (certificates_new_anchored l).
  - intros job v Hv. split; [by eapply certs_verify_signed|].
    unfold certs_verify in Hv. destruct (anchors c !! key_id job) as [[cert p]|] eqn:Ej; [|done].
    destruct (certificates_new_anchored _ _ _ _ _ Hnew Ej) as [Hk _]. unfold verify_with_cert in Hv.
    destruct (signature_algorithm_from_spki _) as [alg|]; [|done]. cbn [rbind] in Hv.
    destruct (decode_with_cert _ alg) as [sg|] eqn:Ed; [|done]. cbn [rbind] in Hv.
    destruct (verify_with_spki _ _ _) as [[]|] eqn:Es; [|done]. cbn [rbind] in Hv. rewrite Hk in Hv.
    injection Hv as <-. split; [done|]. exists cert, p, alg, sg. by split_and!.
  - intros Hnd. split; [intros kid Hk; unfold chain; cbn [chain_go]; by rewrite Hk|].
    intros kid cert p. by apply (chain_linked l).
Qed.
End certs.
