(* ===== verification/Proxy.v ===== *)
(** * The proxy's decisions ([proxy/src/lib.rs])

    What the proxy does with a request before it opens a connection to a sled:
    it answers [/version] and [/iam] itself, checks the login of everything that
    is not a discovery endpoint, and picks the sled.  A request is what the
    [http] crate's accessors report of it; reading JSON and percent-decoding are
    parameters; clock readings and random nonces are arguments, as in
    [Login.v].  Listening, TLS and the byte streams are not modelled. *)
From S2P Require Import Prelude External Codephrases Hash Targets Keys Ssh Jobs Messages Headers Authn Login.
Open Scope N_scope.
Open Scope rust_scope.

(** Cap on a login's body. *)
Definition MAX_IAM_BODY_BYTES : nat := N.to_nat 65536.

(** [StatusCode]s the proxy answers with. *)
Definition OK : N := 200.
Definition BAD_REQUEST : N := 400.
Definition UNAUTHORIZED : N := 401.
Definition INTERNAL_SERVER_ERROR : N := 500.
Definition BAD_GATEWAY : N := 502.
Definition SERVICE_UNAVAILABLE : N := 503.

(** Discovery endpoints that need no login: methods and paths. *)
Definition UNAUTHENTICATED : list (string * string) :=
  [("GET", "/target"); ("GET", "/version"); ("GET", "/versions")].

(** [Request]: its method, its [path], [query] and [path_and_query], the
    [Authorization] headers ([None] where [to_str] fails), and what collecting
    its body yields. *)
Record HttpRequest := mkHttpRequest {
  rq_method : string;
  rq_path : string;
  rq_query : option string;
  rq_path_and_query : option string;
  rq_authorization : list (option string);
  rq_body : result (list byte) string;
}.

Definition slash : Ascii.ascii := Ascii.ascii_of_N 47.
Definition ampersand : Ascii.ascii := Ascii.ascii_of_N 38.

(** [str::trim_start_matches('/')]. *)
Fixpoint trim_slashes (s : string) : string :=
  match s with
  | String c s' => if Ascii.eqb c slash then trim_slashes s' else s
  | EmptyString => s
  end.

(** The sled a job's path names. *)
Definition path_target (path : string) : option string :=
  match split_on slash (trim_slashes path) with
  | jobs :: _ :: verb :: target :: _ =>
    if bool_decide (jobs = "jobs") && bool_decide (verb ∈ ["attach"; "output"; "start"])
       && bool_decide (target ≠ "*")
    then Some target else None
  | _ => None
  end.

(** The first [via] parameter of a query. *)
Definition via_value (param : string) : option string :=
  match split_once equals param with
  | Some (key, value) => if bool_decide (key = "via") then Some value else None
  | None => None
  end.

Definition query_target (query : string) : option string :=
  head (omap via_value (split_on ampersand query)).

Section proxy.
Context {Isha : Sha3} {Ibb : BaseboardOps} {Ilru : LruCache} {Ipki : Pki} {Issh : Ssh}.
(** Addresses and what a sled answers; [percent_decode_str(_).decode_utf8()];
    [serde_json::from_slice] at [Option<SshPublicKey>]; the message of
    [http_body_util]'s length limit; this build. *)
Variables (SocketAddr SledResponse : Type) (addr_to_string : SocketAddr → string).
Variables (percent_decode : string → option string)
  (key_from_json : list byte → result (option SshPublicKey) string)
  (length_limit_error : string) (current : VersionInfo).

(** ** Routing *)

(** [Sleds], and the two maps [Targets] receives. *)
Abbreviation Sleds := (gmap BaseboardId SocketAddr).
Record Routes := mkRoutes { sleds : Sleds; known_cubbies : Cubbies }.

(** The address of one listed sled, if it is known. *)
Definition sled_address (t : Routes) (s : SledId) : option SocketAddr :=
  b ← match s with SBaseboard b => Some b | SCubby c => known_cubbies t !! c end;
  sleds t !! b.

(** [Targets::resolve]. *)
Definition resolve_address (t : Routes) (target : Target) : option SocketAddr :=
  match target with
  | TSleds ids => head (omap (sled_address t) ids)
  | TAll => None
  end.

(** [named_target]. *)
Definition named_target (r : HttpRequest) : option (result Target string) :=
  named ← match path_target (rq_path r) with
          | Some target => Some target
          | None => q ← rq_query r; query_target q
          end;
  match percent_decode named with
  | None => Some (Err named)
  | Some decoded =>
    match target_from_str decoded with
    | Ok TAll => None
    | Ok target => Some (Ok target)
    | Err _ => Some (Err decoded)
    end
  end.

(** Responses the proxy makes itself, with their challenge; what a sled
    answers passes through. *)
Inductive ResponseBody :=
| BodyError (message : string)
| BodyVersion (v : VersionInfo)
| BodyIdentity (who : Identity)
| BodyIdentities (l : list Identity).

Inductive Response :=
| Own (status : N) (challenge : option string) (body : ResponseBody)
| Relayed (r : SledResponse).

Definition error_response (status : N) (message : string) : Response :=
  Own status None (BodyError message).

(** The error of writing a body as JSON: of its types only an [SshPublicKey]
    can fail to be written, by [SshPublicKey::serialize]. *)
Definition identity_json_error (who : Identity) : option string :=
  match ssh_to_openssh (id_public_key who) with Ok _ => None | Err e => Some e end.
Definition json_error (body : ResponseBody) : option string :=
  match body with
  | BodyError _ | BodyVersion _ => None
  | BodyIdentity who => identity_json_error who
  | BodyIdentities l => head (omap identity_json_error l)
  end.

Definition json_response (body : ResponseBody) : Response :=
  match json_error body with
  | None => Own OK None body
  | Some e => error_response INTERNAL_SERVER_ERROR e
  end.

(** [Router], less the logins. *)
Record Router := mkRouter { targets : Routes; home : option BaseboardId }.

(** [Router::route]. *)
Definition route (rt : Router) (r : HttpRequest) : result SocketAddr Response :=
  match named_target r with
  | Some (Ok target) =>
    ok_or (resolve_address (targets rt) target)
      (error_response BAD_GATEWAY ("No reachable sled matches `" +:+ target_to_string target +:+ "`"))
  | Some (Err bad) => Err (error_response BAD_REQUEST ("Invalid target `" +:+ bad +:+ "`"))
  | None =>
    match home rt with
    | Some b =>
      ok_or (sleds (targets rt) !! b)
        (error_response SERVICE_UNAVAILABLE
           ("The proxy's own sled `" +:+ baseboard_to_string b +:+ "` is not reachable"))
    | None =>
      ok_or (b ← head (sorted_elements baseboard_le (dom (sleds (targets rt)))); sleds (targets rt) !! b)
        (error_response SERVICE_UNAVAILABLE "No sleds are reachable")
    end
  end.

(** [own_version]; a [VersionInfo] always serialises. *)
Definition own_version (r : HttpRequest) : option Response :=
  if bool_decide (rq_method r ≠ "GET") || bool_decide (rq_path r ≠ "/version")
     || bool_decide (is_Some (named_target r))
  then None
  else Some (json_response (BodyVersion current)).

(** ** Logins *)

Inductive LoginKeyError := Unreadable (e : string) | InvalidKey (e : string).

Definition login_key_error_to_string (e : LoginKeyError) : string :=
  match e with
  | Unreadable e => "Unable to read login request body: " +:+ e
  | InvalidKey e => "Invalid public key: " +:+ e
  end.

(** [login_key]. *)
Definition login_key (body : result (list byte) string) : result (option SshPublicKey) LoginKeyError :=
  let? bytes := map_err Unreadable body in
  if (MAX_IAM_BODY_BYTES <? length bytes)%nat then Err (Unreadable length_limit_error)
  else map_err InvalidKey (key_from_json bytes).

(** [login_refused]. *)
Definition login_refused (nonce : Nonce) : Response :=
  Own UNAUTHORIZED (Some (challenge_to_string (mkChallenge nonce)))
    (BodyError "Authentication required, try `iam`").

(** [Checked]. *)
Inductive Checked := Forward (r : HttpRequest) | Answer (r : Response).

(** The clock readings of one request, in order, and the nonce it would mint. *)
Record Draws := mkDraws {
  d_t0 : Instant; d_t1 : Instant; d_t2 : Instant; d_t3 : Instant;
  d_list0 : Instant; d_list1 : Instant;
  d_utc : DateTime; d_nonce : Nonce;
}.

Definition authorize_request (d : Draws) (st : Logins) (authz : option string) (r : HttpRequest) :
    result Identity Nonce * Logins :=
  authorize (d_t0 d) (d_t1 d) (d_t2 d) (d_t3 d) (d_nonce d) st authz (rq_method r)
    (default "" (rq_path_and_query r)).

Definition needs_no_login (r : HttpRequest) : bool :=
  existsb (λ e, bool_decide (rq_method r = e.1) && bool_decide (rq_path r = e.2)) UNAUTHENTICATED.

(** The [POST /iam] arm of [check_login]: log in with the key in the body, or
    refresh the identity of a request that carries none. *)
Definition check_iam_post (d : Draws) (st : Logins) (authz : option string) (r : HttpRequest) :
    Checked * Logins :=
  match login_key (rq_body r) with
  | Err e => (Answer (error_response BAD_REQUEST (login_key_error_to_string e)), st)
  | Ok key =>
    let '(res, st) :=
      match key with
      | Some key => login (d_t0 d) (d_t1 d) (d_t2 d) (d_t3 d) (d_utc d) (d_nonce d) st authz key
      | None => authorize_request d st authz r
      end in
    (Answer match res with
            | Ok who => json_response (BodyIdentity who)
            | Err nonce => login_refused nonce
            end, st)
  end.

(** Its other two arms, which authorize the request. *)
Definition check_authorized (d : Draws) (st : Logins) (authz : option string) (r : HttpRequest) :
    Checked * Logins :=
  let '(res, st) := authorize_request d st authz r in
  (match res with
   | Err nonce => Answer (login_refused nonce)
   | Ok _ =>
     if bool_decide (rq_method r = "GET") && bool_decide (rq_path r = "/iam")
     then Answer (json_response (BodyIdentities (live_identities (d_list0 d) (d_list1 d) st)))
     else Forward r
   end, st).

(** [check_login]. *)
Definition check_login (d : Draws) (st : Logins) (r : HttpRequest) : Checked * Logins :=
  if needs_no_login r then (Forward r, st)
  else
    match rq_authorization r with
    | _ :: _ :: _ =>
      (Answer (error_response BAD_REQUEST "Requests may have only one `Authorization` header"), st)
    | headers =>
      let authz := h ← head headers; h in
      if bool_decide (rq_method r = "POST") && bool_decide (rq_path r = "/iam")
      then check_iam_post d st authz r
      else check_authorized d st authz r
    end.

(** ** Serving one request *)

(** Where a request goes: the service of [serve], up to [forward]. *)
Inductive Outcome := Answered (r : Response) | ForwardTo (addr : SocketAddr) (r : HttpRequest).

Definition decide_request (rt : Router) (d : Draws) (st : Logins) (r : HttpRequest) : Outcome * Logins :=
  match own_version r with
  | Some response => (Answered response, st)
  | None =>
    match check_login d st r with
    | (Answer response, st) => (Answered response, st)
    | (Forward r, st) =>
      (match route rt r with
       | Ok addr => ForwardTo addr r
       | Err response => Answered response
       end, st)
    end
  end.

(** [forward]; [send] is [try_forward]. *)
Definition forward (send : SocketAddr → HttpRequest → result SledResponse string)
    (addr : SocketAddr) (r : HttpRequest) : Response :=
  match send addr r with
  | Ok response => Relayed response
  | Err e =>
    error_response BAD_GATEWAY ("Unable to reach sled at `" +:+ addr_to_string addr +:+ "`: " +:+ e)
  end.

(** The service of [serve]. *)
Definition serve_request (send : SocketAddr → HttpRequest → result SledResponse string)
    (rt : Router) (d : Draws) (st : Logins) (r : HttpRequest) : Response * Logins :=
  let '(o, st) := decide_request rt d st r in
  (match o with Answered response => response | ForwardTo addr r => forward send addr r end, st).

(** Requests served one after the other, each against the maps of its time:
    the requests that were forwarded, with the sled each went to. *)
Fixpoint serve_all (st : Logins) (l : list (Router * Draws * HttpRequest)) :
    list (SocketAddr * HttpRequest) * Logins :=
  match l with
  | [] => ([], st)
  | (rt, d, r) :: l =>
    let '(o, st) := decide_request rt d st r in
    let '(fs, st) := serve_all st l in
    (match o with ForwardTo addr r => (addr, r) :: fs | Answered _ => fs end, st)
  end.
End proxy.
