(* ===== verification/ProxyFacts.v ===== *)
(** * What the proxy guarantees

    Only authorised requests reach a sled, each at most once; they reach a sled
    their target names; and every refused login carries a challenge the client
    can use. *)
From S2P Require Import Prelude External Codephrases Hash Targets Keys Ssh Jobs Messages Headers Authn Login.
From S2P Require Import Proxy.
Open Scope N_scope.

Section facts.
Context {Isha : Sha3} {Ibb : BaseboardOps} {Ilru : LruCache} {Ipki : Pki} {Issh : Ssh}.
Variables (SocketAddr SledResponse : Type).
Variables (percent_decode : string → option string).
Implicit Types (st : Logins) (d : Draws) (r : HttpRequest).

Abbreviation route_of rt r := (route SocketAddr SledResponse percent_decode rt r).

(** ** Routing *)

Abbreviation address t := (sled_address SocketAddr t).

Lemma head_omap_Some {A B} (f : A → option B) l y :
  head (omap f l) = Some y ↔
  ∃ l1 x l2, l = l1 ++ x :: l2 ∧ f x = Some y ∧ Forall (λ x, f x = None) l1.
Proof.
  split.
  - induction l as [|x l IH]; cbn; [done|]. destruct (f x) as [z|] eqn:E; cbn.
    + intros [= ->]. by exists [], x, l.
    + intros (l1&x'&l2&->&?&?)%IH. exists (x :: l1), x', l2. split; [done|]. split; [done|].
      by constructor.
  - intros (l1&x&l2&->&E&Hn). induction Hn as [|x' l1 E' _ IH]; cbn; [by rewrite E|by rewrite E'].
Qed.

Lemma head_omap_None {A B} (f : A → option B) l : head (omap f l) = None ↔ Forall (λ x, f x = None) l.
Proof.
  split; [|by induction 1 as [|x l E _ IH]; cbn; rewrite ?E].
  induction l as [|x l IH]; [done|]. cbn. destruct (f x) eqn:E; [done|]. intros ?. constructor; auto.
Qed.

(** Where a request goes. *)
Lemma route_cases rt r :
  let t := targets SocketAddr rt in
  match named_target percent_decode r with
  | Some (Err _) => ∃ m, route_of rt r = Err (error_response SledResponse BAD_REQUEST m)
  | Some (Ok TAll) => False
  | Some (Ok (TSleds ids)) =>
    (∃ pre id post addr, ids = pre ++ id :: post ∧ address t id = Some addr ∧
       Forall (λ id, address t id = None) pre ∧ route_of rt r = Ok addr) ∨
    (Forall (λ id, address t id = None) ids ∧
     ∃ m, route_of rt r = Err (error_response SledResponse BAD_GATEWAY m))
  | None =>
    match home SocketAddr rt with
    | Some b => (∃ addr, sleds SocketAddr t !! b = Some addr ∧ route_of rt r = Ok addr) ∨
                (sleds SocketAddr t !! b = None ∧
                 ∃ m, route_of rt r = Err (error_response SledResponse SERVICE_UNAVAILABLE m))
    | None => (∃ b addr, sleds SocketAddr t !! b = Some addr ∧ route_of rt r = Ok addr ∧
                 ∀ b', is_Some (sleds SocketAddr t !! b') → baseboard_le b b') ∨
              (sleds SocketAddr t = ∅ ∧
               ∃ m, route_of rt r = Err (error_response SledResponse SERVICE_UNAVAILABLE m))
    end
  end.
Proof.
  cbv zeta. unfold route.
  assert (Hall : named_target percent_decode r ≠ Some (Ok TAll)).
  { unfold named_target. destruct (match path_target (rq_path r) with Some _ => _ | None => _ end);
      cbn; [|done]. repeat case_match; congruence. }
  destruct (named_target percent_decode r) as [[[|ids]|bad]|]; [done| |by eexists|].
  - unfold resolve_address. destruct (head (omap (address (targets SocketAddr rt)) ids)) as [addr|] eqn:E.
    + left. apply head_omap_Some in E as (pre&id&post&->&Ha&Hp). by exists pre, id, post, addr.
    + right. apply head_omap_None in E. split; [done|by eexists].
  - destruct (home SocketAddr rt) as [b|].
    { destruct (sleds SocketAddr (targets SocketAddr rt) !! b) as [addr|] eqn:E; [left; by eexists|right; split; [done|by eexists]]. }
    set (m := sleds SocketAddr (targets SocketAddr rt)).
    pose proof (Sorted_sorted_elements baseboard_le (dom m)) as Hs.
    pose proof (elem_of_sorted_elements baseboard_le (dom m)) as He.
    destruct (sorted_elements baseboard_le (dom m)) as [|b bs].
    + right. split; [|by eexists]. apply dom_empty_inv_L, set_eq. intros b. rewrite <- He. set_solver.
    + left. assert (Hb : is_Some (m !! b)) by (apply elem_of_dom, He; set_solver).
      destruct Hb as [addr Hb]. exists b, addr. cbn. rewrite Hb. split; [done|]. split; [done|].
      intros b' Hb'%elem_of_dom%He. apply elem_of_cons in Hb' as [->|Hin]; [done|].
      apply Sorted_StronglySorted, StronglySorted_inv in Hs as [_ Hs]; [|intros x y z; apply transitivity].
      rewrite Forall_forall in Hs. by apply Hs.
Qed.

(** A named request reaches a sled its target names: the one the first
    reachable element of the list stands for, and no other; without a reachable
    element it fails with 502, and an unreadable target with 400.  A request
    that names none reaches the proxy's own sled, or, on a proxy without one,
    the least of the reachable sleds, and fails with 503 when there is none. *)
Theorem route_exact rt r :
  let t := targets SocketAddr rt in
  match named_target percent_decode r with
  | Some (Err _) => ∃ m, route_of rt r = Err (error_response SledResponse BAD_REQUEST m)
  | Some (Ok TAll) => False
  | Some (Ok (TSleds ids)) =>
    (∃ pre id post addr, ids = pre ++ id :: post ∧ address t id = Some addr ∧
       Forall (λ id, address t id = None) pre ∧ route_of rt r = Ok addr) ∨
    (Forall (λ id, address t id = None) ids ∧
     ∃ m, route_of rt r = Err (error_response SledResponse BAD_GATEWAY m))
  | None =>
    match home SocketAddr rt with
    | Some b => (∃ addr, sleds SocketAddr t !! b = Some addr ∧ route_of rt r = Ok addr) ∨
                (sleds SocketAddr t !! b = None ∧
                 ∃ m, route_of rt r = Err (error_response SledResponse SERVICE_UNAVAILABLE m))
    | None => (∃ b addr, sleds SocketAddr t !! b = Some addr ∧ route_of rt r = Ok addr ∧
                 ∀ b', is_Some (sleds SocketAddr t !! b') → baseboard_le b b') ∨
              (sleds SocketAddr t = ∅ ∧
               ∃ m, route_of rt r = Err (error_response SledResponse SERVICE_UNAVAILABLE m))
    end
  end.
Proof. exact (route_cases rt r). Qed.

(** What a listed sled stands for, on both sides. *)
Lemma address_Some t id addr :
  address t id = Some addr ↔
  ∃ b, match id with SBaseboard b' => b' = b | SCubby c => known_cubbies SocketAddr t !! c = Some b end ∧
    sleds SocketAddr t !! b = Some addr.
Proof.
  unfold sled_address. destruct id as [b|c]; cbn [mbind option_bind].
  - split; [intros ?; by exists b|by intros (?&->&?)].
  - destruct (known_cubbies SocketAddr t !! c) as [b|]; cbn.
    + split; [intros ?; by exists b|by intros (?&[= ->]&?)].
    + split; [done|by intros (?&?&_)].
Qed.

(** The proxy and the sleds read a target alike: whenever a sled that
    knows the same rack resolves the target of a request, the proxy routes the
    request into that set of sleds, and fails exactly when the set is empty. *)
Theorem route_agrees_with_resolve rt r target named :
  named_target percent_decode r = Some (Ok target) →
  resolve target (dom (sleds SocketAddr (targets SocketAddr rt)))
    (known_cubbies SocketAddr (targets SocketAddr rt)) = Ok named →
  (∀ addr, route_of rt r = Ok addr →
     ∃ b, b ∈ named ∧ sleds SocketAddr (targets SocketAddr rt) !! b = Some addr) ∧
  ((∃ resp, route_of rt r = Err resp) ↔ named = ∅).
Proof.
  intros Ht Hres. pose proof (route_cases rt r) as Hr. cbv zeta in Hr. rewrite Ht in Hr.
  destruct target as [|ids]; [done|]. cbn in Hres.
  set (t := targets SocketAddr rt) in *.
  destruct (resolve_sleds ids _ ∅) as [s|] eqn:Es; [|done]. injection Hres as <-.
  pose proof (resolve_sleds_spec _ _ _ _ Es) as Hs.
  destruct Hr as [(pre&id&post&addr&->&Ha&_&->)|[Hnone [m ->]]].
  - apply address_Some in Ha as (b&Hb&Hsl).
    assert (Hin : b ∈ s ∩ dom (sleds SocketAddr t)).
    { apply elem_of_intersection. split; [|apply elem_of_dom; by exists addr]. apply Hs. right.
      exists id. split; [set_solver|done]. }
    split; [intros a [= <-]; by exists b|]. split; [by intros [? ?]|]. set_solver.
  - split; [done|]. split; [intros _|by eexists]. apply set_eq. intros b.
    rewrite elem_of_intersection, Hs. split; [|set_solver].
    intros [[?|(id&Hid&Hb)] [addr Hsl]%elem_of_dom]; [set_solver|]. exfalso.
    rewrite Forall_forall in Hnone. specialize (Hnone id Hid).
    assert (Ha : address t id = Some addr) by (apply address_Some; by exists b). congruence.
Qed.

Variables (key_from_json : list byte → result (option SshPublicKey) string)
  (length_limit_error : string) (current : VersionInfo).

Abbreviation check d st r :=
  (check_login SledResponse key_from_json length_limit_error d st r).
Abbreviation decide rt d st r :=
  (decide_request SocketAddr SledResponse percent_decode key_from_json length_limit_error current rt d st r).
Abbreviation served st l :=
  (serve_all SocketAddr SledResponse percent_decode key_from_json length_limit_error current st l).

(** ** Logins *)

Lemma refuse_failure_ok {T} st (res : result T LoginError) nonce now (v : T) st' :
  refuse_failure st res nonce now = (Ok v, st') → res = Ok v ∧ st' = st.
Proof. destruct res; cbn; [by intros [= -> ->]|done]. Qed.

Lemma authorize_request_ok d st authz r who st' :
  authorize_request d st authz r = (Ok who, st') →
  ∃ s, authz = Some s ∧
    verify_request (d_t0 d) (d_t1 d) (d_t2 d) st (Some s) (rq_method r)
      (default "" (rq_path_and_query r)) = (Ok who, st').
Proof.
  unfold authorize_request, authorize. destruct (verify_request _ _ _ _ _ _ _) as [res st1] eqn:E.
  intros [-> ->]%refuse_failure_ok. destruct authz as [s|]; [by exists s|done].
Qed.

Definition is_iam r : bool :=
  (bool_decide (rq_method r = "POST") || bool_decide (rq_method r = "GET"))
  && bool_decide (rq_path r = "/iam").

Lemma check_iam_post_answers d st authz r :
  ∃ resp, (check_iam_post SledResponse key_from_json length_limit_error d st authz r).1
          = Answer SledResponse resp.
Proof.
  unfold check_iam_post. destruct (login_key _ _ _) as [key|]; [|by eexists].
  destruct (match key with Some _ => _ | None => _ end). by eexists.
Qed.

Lemma check_authorized_forward d st authz r r' st' :
  check_authorized SledResponse d st authz r = (Forward SledResponse r', st') →
  r' = r ∧ bool_decide (rq_method r = "GET") && bool_decide (rq_path r = "/iam") = false ∧
  ∃ s who, authz = Some s ∧
    verify_request (d_t0 d) (d_t1 d) (d_t2 d) st (Some s) (rq_method r)
      (default "" (rq_path_and_query r)) = (Ok who, st').
Proof.
  unfold check_authorized. destruct (authorize_request d st authz r) as [[who|n] st1] eqn:Ea; [|done].
  destruct (_ && _) eqn:Eg; [done|]. intros [= <- <-].
  apply authorize_request_ok in Ea as (s&->&Ev). split_and!; [done|done|]. by exists s, who.
Qed.

Lemma check_login_forward d st r r' st' :
  check d st r = (Forward SledResponse r', st') →
  r' = r ∧
  (needs_no_login r = true ∧ st' = st ∨
   is_iam r = false ∧ ∃ s who, rq_authorization r = [Some s] ∧
     verify_request (d_t0 d) (d_t1 d) (d_t2 d) st (Some s) (rq_method r)
       (default "" (rq_path_and_query r)) = (Ok who, st')).
Proof.
  unfold check_login. destruct (needs_no_login r) eqn:En.
  { intros [= -> ->]. split; [done|by left]. }
  assert (Hgo : ∀ authz, (∀ s, authz = Some s → rq_authorization r = [Some s]) →
    (if bool_decide (rq_method r = "POST") && bool_decide (rq_path r = "/iam")
     then check_iam_post SledResponse key_from_json length_limit_error d st authz r
     else check_authorized SledResponse d st authz r) = (Forward SledResponse r', st') →
    r' = r ∧ is_iam r = false ∧ ∃ s who, rq_authorization r = [Some s] ∧
      verify_request (d_t0 d) (d_t1 d) (d_t2 d) st (Some s) (rq_method r)
        (default "" (rq_path_and_query r)) = (Ok who, st')).
  { intros authz Hh. destruct (_ && _) eqn:Ep.
    - destruct (check_iam_post_answers d st authz r) as [resp E]. intros E'. by rewrite E' in E.
    - intros (->&Eg&s&who&->&Hv)%check_authorized_forward. split; [done|]. split.
      + unfold is_iam. by rewrite andb_orb_distrib_l, Ep, Eg.
      + exists s, who. by rewrite (Hh s eq_refl). }
  destruct (rq_authorization r) as [|h [|h2 hs]] eqn:Eh; [| |done]; cbn [head mbind option_bind];
    intros (->&?&?)%Hgo; [split; [done|by right]|done|split; [done|by right]|by intros s ->].
Qed.

Lemma forwarded_facts rt d st r addr r' st' :
  decide rt d st r = (ForwardTo SocketAddr SledResponse addr r', st') →
  r' = r ∧ route_of rt r = Ok addr ∧
  (needs_no_login r = true ∧ st' = st ∨
   is_iam r = false ∧
   ∃ s kid proof cached, rq_authorization r = [Some s] ∧
     authn_from_str s = Ok (Bound (mkBoundCredentials kid (Some proof))) ∧
     lru_peek (identities st) (kid, rs_nonce proof) = Some cached ∧
     is_still_valid (d_t0 d) (d_t1 d) cached = true ∧
     verify_bound (ci_verifier cached)
       (bound_request_new (rq_method r) (default "" (rq_path_and_query r)) (rs_seq proof))
       kid proof = Ok () ∧
     (spend (ci_window cached) (rs_seq proof)).1 = true).
Proof.
  unfold decide_request. destruct (own_version _ _ _ r); [done|].
  destruct (check d st r) as [[r1|resp] st1] eqn:Ec; [|done].
  apply check_login_forward in Ec as [-> Hc].
  destruct (route_of rt r) as [a|] eqn:Er; [|done]. intros [= <- <- <-]. split; [done|].
  split; [done|]. destruct Hc as [Hn|(Hi&s&who&Hs&Hv)]; [by left|right]. split; [done|].
  apply authorise_sound in Hv as (s'&kid&proof&cached&[= <-]&H1&H2&H3&_&H4&H5).
  by exists s, kid, proof, cached.
Qed.

(** C3. Nothing reaches a sled without a login.  A request the proxy forwards
    is the client's, unchanged; it goes to the sled the router picks; and either
    its method and path are those of a discovery endpoint, or it carries exactly
    one [Authorization] header, whose bound credentials this request's method
    and target verified against a live login and an unspent sequence number.
    [GET] and [POST] of [/iam] are never forwarded. *)
Theorem forwarded_requests_authorised rt d st r addr r' st' :
  decide rt d st r = (ForwardTo SocketAddr SledResponse addr r', st') →
  r' = r ∧ route_of rt r = Ok addr ∧
  (needs_no_login r = true ∧ st' = st ∨
   is_iam r = false ∧
   ∃ s kid proof cached, rq_authorization r = [Some s] ∧
     authn_from_str s = Ok (Bound (mkBoundCredentials kid (Some proof))) ∧
     lru_peek (identities st) (kid, rs_nonce proof) = Some cached ∧
     is_still_valid (d_t0 d) (d_t1 d) cached = true ∧
     verify_bound (ci_verifier cached)
       (bound_request_new (rq_method r) (default "" (rq_path_and_query r)) (rs_seq proof))
       kid proof = Ok () ∧
     (spend (ci_window cached) (rs_seq proof)).1 = true).
Proof. apply forwarded_facts. Qed.

(** ** Each at most once *)

(** What serving a request does to the login tables, as a trace of [Login.v]. *)
Definition login_events d st authz (key : option SshPublicKey) (method target : string) : list ProxyEvent :=
  match key with
  | Some k =>
    PClaim (d_t0 d) (d_utc d) authz k ::
    (if match (claim_login (d_t0 d) (d_utc d) st authz k).1 with Ok _ => true | Err _ => false end
     then [PCommit (d_t1 d) (d_t2 d) 0] else [PMint (d_nonce d) (d_t3 d)])
  | None =>
    PRequest (d_t0 d) (d_t1 d) (d_t2 d) authz method target ::
    (if match (verify_request (d_t0 d) (d_t1 d) (d_t2 d) st authz method target).1 with
        | Ok _ => true | Err _ => false end
     then [] else [PMint (d_nonce d) (d_t3 d)])
  end.

Lemma login_events_minted d st authz key method target :
  minted_in (login_events d st authz key method target) `sublist_of` [d_nonce d].
Proof.
  unfold login_events. destruct key; case_match; cbn; repeat constructor.
Qed.

Lemma refuse_mints {T} st (e : LoginError) nonce now :
  (refuse_failure (T:=T) st (Err e) nonce now).2
  = (refuse_failure (T:=()) st (Err LNotLoggedIn) nonce now).2.
Proof. done. Qed.

Lemma login_run d st authz k method target :
  px_run (mkProxy st []) (login_events d st authz (Some k) method target)
  = (mkProxy (login (d_t0 d) (d_t1 d) (d_t2 d) (d_t3 d) (d_utc d) (d_nonce d) st authz k).2 [], []).
Proof.
  unfold login_events, login, verify_login. cbn [px_run px_step px_logins px_inflight].
  destruct (claim_login (d_t0 d) (d_utc d) st authz k) as [[[c who]|e] st1]; done.
Qed.

Lemma authorize_run d st authz method target :
  px_run (mkProxy st []) (login_events d st authz None method target)
  = (mkProxy (authorize (d_t0 d) (d_t1 d) (d_t2 d) (d_t3 d) (d_nonce d) st authz method target).2 [],
     match (verify_request (d_t0 d) (d_t1 d) (d_t2 d) st authz method target).1 with
     | Ok _ => match claimed authz with Some x => [x] | None => [] end
     | Err _ => []
     end).
Proof.
  unfold login_events, authorize. cbn [px_run px_step px_logins px_inflight].
  destruct (verify_request (d_t0 d) (d_t1 d) (d_t2 d) st authz method target) as [[who|e] st1]; [|done].
  by destruct (claimed authz).
Qed.

(** The login a forwarded request was authorised under. *)
Definition forwarded_claim r : option (KeyId * Nonce * N) :=
  if needs_no_login r then None else h ← head (rq_authorization r); claimed h.

(** Requests that authorise, then those that log in. *)
Lemma check_authorized_trace d st authz r :
  ∃ es, minted_in es `sublist_of` [d_nonce d] ∧
    (px_run (mkProxy st []) es).1 = mkProxy (check_authorized SledResponse d st authz r).2 [] ∧
    (∀ r', (check_authorized SledResponse d st authz r).1 = Forward SledResponse r' →
       (px_run (mkProxy st []) es).2 = match claimed authz with Some x => [x] | None => [] end).
Proof.
  exists (login_events d st authz None (rq_method r) (default "" (rq_path_and_query r))).
  split; [apply login_events_minted|]. rewrite authorize_run. cbn [fst snd].
  unfold check_authorized, authorize_request, authorize.
  destruct (verify_request _ _ _ _ _ _ _) as [[who|e] st1]; by split.
Qed.

Lemma check_iam_post_trace d st authz r :
  ∃ es, minted_in es `sublist_of` [d_nonce d] ∧
    (px_run (mkProxy st []) es).1
    = mkProxy (check_iam_post SledResponse key_from_json length_limit_error d st authz r).2 [].
Proof.
  unfold check_iam_post. destruct (login_key _ _ _) as [[k|]|].
  - exists (login_events d st authz (Some k) "" ""). split; [apply login_events_minted|].
    rewrite login_run. by destruct (login _ _ _ _ _ _ _ _ _).
  - exists (login_events d st authz None (rq_method r) (default "" (rq_path_and_query r))).
    split; [apply login_events_minted|]. rewrite authorize_run. unfold authorize_request.
    by destruct (authorize _ _ _ _ _ _ _ _ _).
  - exists []. split; [by repeat constructor|done].
Qed.

Lemma check_login_trace d st r :
  ∃ es, minted_in es `sublist_of` [d_nonce d] ∧
    (px_run (mkProxy st []) es).1 = mkProxy (check d st r).2 [] ∧
    (∀ r', (check d st r).1 = Forward SledResponse r' →
       match forwarded_claim r with Some x => [x] | None => [] end
       `sublist_of` (px_run (mkProxy st []) es).2).
Proof.
  assert (Hnil : minted_in [] `sublist_of` [d_nonce d]) by apply sublist_nil_l.
  unfold check_login, forwarded_claim. destruct (needs_no_login r).
  { exists []. split; [done|]. split; [done|]. intros. apply sublist_nil_l. }
  assert (Hgo : ∀ authz,
    let c := if bool_decide (rq_method r = "POST") && bool_decide (rq_path r = "/iam")
             then check_iam_post SledResponse key_from_json length_limit_error d st authz r
             else check_authorized SledResponse d st authz r in
    ∃ es, minted_in es `sublist_of` [d_nonce d] ∧ (px_run (mkProxy st []) es).1 = mkProxy c.2 [] ∧
      (∀ r', c.1 = Forward SledResponse r' →
         match claimed authz with Some x => [x] | None => [] end
         `sublist_of` (px_run (mkProxy st []) es).2)).
  { intros authz. destruct (_ && _); cbv zeta.
    - destruct (check_iam_post_trace d st authz r) as (es&H1&H2). exists es. split; [done|].
      split; [done|]. intros r'. destruct (check_iam_post_answers d st authz r) as [resp ->]. done.
    - destruct (check_authorized_trace d st authz r) as (es&H1&H2&H3). exists es. split; [done|].
      split; [done|]. intros r' Hr. by rewrite (H3 r' Hr). }
  destruct (rq_authorization r) as [|h [|h2 hs]]; [apply (Hgo None)|apply (Hgo h)|].
  exists []. split; [done|]. by split.
Qed.

Lemma decide_request_trace rt d st r :
  ∃ es, minted_in es `sublist_of` [d_nonce d] ∧
    (px_run (mkProxy st []) es).1 = mkProxy (decide rt d st r).2 [] ∧
    (∀ addr r', (decide rt d st r).1 = ForwardTo SocketAddr SledResponse addr r' →
       r' = r ∧ match forwarded_claim r with Some x => [x] | None => [] end
       `sublist_of` (px_run (mkProxy st []) es).2).
Proof.
  unfold decide_request. destruct (own_version _ _ _ r).
  { exists []. split; [apply sublist_nil_l|]. by split. }
  destruct (check_login_trace d st r) as (es&H1&H2&H3). exists es. split; [done|].
  destruct (check d st r) as [[r1|resp] st1] eqn:Ec; (split; [done|]); [|done].
  intros addr r'. destruct (route_of rt r1); [|done]. intros [= <- <-].
  apply check_login_forward in Ec as [-> _]. split; [done|]. by apply (H3 r).
Qed.

Lemma serve_all_trace st l :
  ∃ es, minted_in es `sublist_of` map (λ x, d_nonce x.1.2) l ∧
    omap (λ x, forwarded_claim x.2)
      (serve_all SocketAddr SledResponse percent_decode key_from_json length_limit_error current st l).1
    `sublist_of` (px_run (mkProxy st []) es).2.
Proof.
  revert st; induction l as [|[[rt d] r] l IH]; intros st.
  { exists []. split; apply sublist_nil_l. }
  cbn [serve_all]. destruct (decide_request_trace rt d st r) as (es1&H1&H2&H3).
  destruct (decide rt d st r) as [o st1]. cbn [fst snd] in *.
  destruct (IH st1) as (es2&H4&H5). destruct (serve_all _ _ _ _ _ _ st1 l) as [fs st2].
  exists (es1 ++ es2). rewrite px_run_app. unfold minted_in in *. rewrite omap_app.
  destruct (px_run (mkProxy st []) es1) as [p1 l1]. cbn [fst snd] in *. subst p1.
  destruct (px_run (mkProxy st1 []) es2) as [p2 l2]. cbn [fst snd] in *.
  split; [by apply (sublist_app _ [d_nonce d])|]. destruct o as [resp|addr r']; cbn [fst].
  - by apply sublist_inserts_l.
  - destruct (H3 addr r' eq_refl) as [-> Hl]. change ((addr, r) :: fs) with ([(addr, r)] ++ fs).
    rewrite omap_app. apply sublist_app; [|done]. cbn. by destruct (forwarded_claim r).
Qed.

(** C6. No login's request is forwarded twice: over any sequence of requests,
    with any clocks and any changes of the sled maps, the requests that reach
    sleds under a login carry pairwise different (key, login nonce, sequence
    number) triples, as long as the random nonces do not repeat. *)
Theorem forwarded_once l :
  NoDup (map (λ x : Router SocketAddr * Draws * HttpRequest, d_nonce x.1.2) l) →
  NoDup (omap (λ x : SocketAddr * HttpRequest, forwarded_claim x.2)
    (serve_all SocketAddr SledResponse percent_decode key_from_json length_limit_error current
       logins_new l).1).
Proof.
  intros Hnd. destruct (serve_all_trace logins_new l) as (es&Hm&Hs).
  eapply sublist_NoDup; [|exact Hs]. apply px_run_once. by eapply sublist_NoDup.
Qed.

(** ** Refusals *)

Lemma challenge_roundtrip (n : Nonce) :
  phrase_wf n → challenge_from_str (challenge_to_string (mkChallenge n)) = Ok (mkChallenge n).
Proof.
  intros Hn. unfold challenge_from_str, challenge_to_string. cbn [ch_nonce].
  rewrite params_from_header;
    [|apply Forall_singleton; split; [done|apply plain_phrase]|by apply nodup_names].
  cbn [rbind]. rewrite (params_parse_head _ _ _ _ (phrase n)); [|cbn; set_solver|].
  - cbn [rbind]. unfold params_finished. rewrite bool_decide_true by done. cbn. by destruct n.
  - unfold newtype_to_string. rewrite codephrase_from_to_string; [done|].
    eapply N.lt_le_trans; [exact Hn|apply length_bits_le].
Qed.

(** The nonce a failed operation minted is outstanding. *)
Definition outstanding st (n : Nonce) (since : Instant) : Prop := lru_peek (nonces st) n = Some since.

Lemma put_peek {K V} `{EqDecision K} (c : lru K V) n v :
  (0 < lru_cap c)%nat → lru_peek (lru_put c n v) n = Some v.
Proof.
  intros Hc. rewrite lru_peek_spec, lru_put_spec. destruct (lru_cap c) as [|k]; [lia|].
  cbn. by rewrite bool_decide_true.
Qed.

(** A nonce minted at [t], behind at most [k] that were minted later. *)
Definition kept (n : Nonce) (t : Instant) (k : nat) (c : lru Nonce Instant) : Prop :=
  ∃ l1 l2, lru_entries c = l1 ++ ((n, t) :: l2) ∧ (n ∉ l1.*1) ∧ (length l1 <= k)%nat.

Lemma kept_peek n t k c : kept n t k c → lru_peek c n = Some t.
Proof.
  intros (l1&l2&E&Hn&_). rewrite lru_peek_spec, E. clear E. induction l1 as [|[m u] l1 IH]; cbn in *.
  - by rewrite bool_decide_true.
  - rewrite bool_decide_false by set_solver. apply IH. set_solver.
Qed.

Lemma peek_kept n t c : (0 < lru_cap c)%nat → kept n t 0 (lru_put c n t).
Proof.
  intros Hc. unfold kept. rewrite lru_put_spec. destruct (lru_cap c); [lia|]. cbn.
  eexists [], _. split; [done|]. split; [set_solver|done].
Qed.

Lemma kept_filter n t k m (l1 l2 : list (Nonce * Instant)) :
  m ≠ n → n ∉ l1.*1 → (length l1 <= k)%nat →
  ∃ l1' l2', filter (λ e, e.1 ≠ m) (l1 ++ ((n, t) :: l2)) = l1' ++ ((n, t) :: l2') ∧ (n ∉ l1'.*1) ∧ (length l1' <= k)%nat.
Proof.
  intros Hm Hn Hl. rewrite filter_app, filter_cons_True by done. do 2 eexists. split; [done|]. split.
  - intros ([m' u]&->&[_ Hin]%list_elem_of_filter)%list_elem_of_fmap. apply Hn.
    apply list_elem_of_fmap. by exists (m', u).
  - etransitivity; [apply length_filter|done].
Qed.

Lemma kept_pop n t k m c : m ≠ n → kept n t k c → kept n t k (lru_pop c m).2.
Proof.
  intros Hm (l1&l2&E&Hn&Hl). destruct (lru_pop_spec _ _ c m) as (_&Ef&_). unfold kept. rewrite Ef, E.
  by apply kept_filter.
Qed.

Lemma kept_put n t k m u c :
  m ≠ n → (S k < lru_cap c)%nat → kept n t k c → kept n t (S k) (lru_put c m u).
Proof.
  intros Hm Hk (l1&l2&E&Hn&Hl). unfold kept. rewrite lru_put_spec, E.
  destruct (kept_filter n t k m l1 l2 Hm Hn Hl) as (l1'&l2'&->&Hn'&Hl').
  exists ((m, u) :: l1'). rewrite app_comm_cons, take_app_ge by (cbn; lia).
  destruct (lru_cap c - _)%nat as [|j] eqn:Ej; [cbn in Ej; lia|]. cbn [take]. eexists. split; [done|].
  split; [set_solver|cbn; lia].
Qed.

Lemma refuse_failure_err {T} st (res : result T LoginError) nonce now n st' :
  (0 < lru_cap (nonces st))%nat →
  refuse_failure st res nonce now = (Err n, st') → n = nonce ∧ kept n now 0 (nonces st').
Proof.
  intros Hc. destruct res; cbn; [done|]. intros [= <- <-]. split; [done|]. by apply peek_kept.
Qed.

Lemma verify_request_nonces t0 t1 t2 st authz method target :
  nonces (verify_request t0 t1 t2 st authz method target).2 = nonces st.
Proof. apply verify_request_cases. Qed.

Lemma verify_login_cap now t1 t2 utc st authz k :
  lru_cap (nonces (verify_login now t1 t2 utc st authz k).2) = lru_cap (nonces st).
Proof.
  unfold verify_login. destruct (claim_login_cases now utc st authz k) as [[E _]|(n&E&_)];
    destruct (claim_login now utc st authz k) as [[[c who]|e] st1]; cbn in *; subst; try done;
    cbn; by destruct (lru_pop_spec _ _ (nonces st) n) as (_&_&->).
Qed.

Lemma authorize_request_err d st authz r n st' :
  (0 < lru_cap (nonces st))%nat → authorize_request d st authz r = (Err n, st') →
  n = d_nonce d ∧ kept n (d_t3 d) 0 (nonces st').
Proof.
  unfold authorize_request, authorize. intros Hc.
  pose proof (verify_request_nonces (d_t0 d) (d_t1 d) (d_t2 d) st authz (rq_method r)
    (default "" (rq_path_and_query r))) as En.
  destruct (verify_request _ _ _ _ _ _ _) as [res st1]. apply refuse_failure_err. cbn in En. by rewrite En.
Qed.

(** A response of the proxy's own: a challenge exactly on 401, and then one that
    was the last to be minted. *)
Definition well_refused d st' (resp : Response SledResponse) : Prop :=
  ∃ status ch body, resp = Own SledResponse status ch body ∧
    status ∈ [OK; BAD_REQUEST; UNAUTHORIZED; INTERNAL_SERVER_ERROR; BAD_GATEWAY; SERVICE_UNAVAILABLE] ∧
    (status ≠ UNAUTHORIZED → ch = None) ∧
    (status = UNAUTHORIZED →
       ch = Some (challenge_to_string (mkChallenge (d_nonce d))) ∧
       kept (d_nonce d) (d_t3 d) 0 (nonces st')).

Lemma well_refused_plain d st' status body :
  status ∈ [OK; BAD_REQUEST; INTERNAL_SERVER_ERROR; BAD_GATEWAY; SERVICE_UNAVAILABLE] →
  well_refused d st' (Own SledResponse status None body).
Proof.
  intros Hs. exists status, None, body. split; [done|]. split; [set_solver|]. split; [done|].
  intros ->. exfalso. revert Hs. by rewrite !elem_of_cons, elem_of_nil; intros [|[|[|[|[|[]]]]]].
Qed.

Lemma well_refused_json d st' body : well_refused d st' (json_response SledResponse body).
Proof. unfold json_response. case_match; apply well_refused_plain; set_solver. Qed.

Lemma well_refused_401 d st' n :
  n = d_nonce d ∧ kept n (d_t3 d) 0 (nonces st') → well_refused d st' (login_refused SledResponse n).
Proof.
  intros [-> Ho]. do 3 eexists. split; [done|]. split; [set_solver|]. by split.
Qed.

Lemma check_login_answer d st r resp st' :
  (0 < lru_cap (nonces st))%nat →
  check d st r = (Answer SledResponse resp, st') → well_refused d st' resp.
Proof.
  intros Hc. unfold check_login. destruct (needs_no_login r); [done|].
  assert (Hgo : ∀ authz,
    (if bool_decide (rq_method r = "POST") && bool_decide (rq_path r = "/iam")
     then check_iam_post SledResponse key_from_json length_limit_error d st authz r
     else check_authorized SledResponse d st authz r) = (Answer SledResponse resp, st') →
    well_refused d st' resp).
  { intros authz. destruct (_ && _).
    - unfold check_iam_post. destruct (login_key _ _ _) as [key|e];
        [|intros [= <- <-]; apply well_refused_plain; set_solver].
      assert (Hres : ∀ n st1, match key with
          | Some k => login (d_t0 d) (d_t1 d) (d_t2 d) (d_t3 d) (d_utc d) (d_nonce d) st authz k
          | None => authorize_request d st authz r end = (Err n, st1) →
        n = d_nonce d ∧ kept n (d_t3 d) 0 (nonces st1)).
      { intros n st1. destruct key as [k|]; [|by apply authorize_request_err]. unfold login.
        pose proof (verify_login_cap (d_t0 d) (d_t1 d) (d_t2 d) (d_utc d) st authz k) as Ec.
        destruct (verify_login _ _ _ _ _ _ _) as [res st2]. apply refuse_failure_err. cbn in Ec. by rewrite Ec. }
      destruct (match key with Some _ => _ | None => _ end) as [[who|n] st1]; intros [= <- <-].
      + apply well_refused_json.
      + by apply well_refused_401, Hres.
    - unfold check_authorized. destruct (authorize_request d st authz r) as [[who|n] st1] eqn:Ea.
      + destruct (_ && _); intros [= <- <-]. apply well_refused_json.
      + intros [= <- <-]. apply well_refused_401. by apply (authorize_request_err d st authz r). }
  destruct (rq_authorization r) as [|h [|h2 hs]]; [apply (Hgo None)|apply (Hgo h)|].
  intros [= <- <-]. apply well_refused_plain. set_solver.
Qed.

Lemma route_err_refused rt d st' r resp : route_of rt r = Err resp → well_refused d st' resp.
Proof.
  pose proof (route_cases rt r) as Hr. cbv zeta in Hr. intros E. rewrite E in Hr.
  assert (H4 : ∀ m, well_refused d st' (error_response SledResponse BAD_REQUEST m))
    by (intros m; apply well_refused_plain; set_solver).
  assert (H2 : ∀ m, well_refused d st' (error_response SledResponse BAD_GATEWAY m))
    by (intros m; apply well_refused_plain; set_solver).
  assert (H3 : ∀ m, well_refused d st' (error_response SledResponse SERVICE_UNAVAILABLE m))
    by (intros m; apply well_refused_plain; set_solver).
  destruct (named_target percent_decode r) as [[[|ids]|bad]|]; [done| | |].
  - destruct Hr as [(?&?&?&?&_&_&_&?)|(_&m&[= ->])]; done.
  - by destruct Hr as [m [= ->]].
  - destruct (home SocketAddr rt); [destruct Hr as [(?&_&?)|(_&m&[= ->])]; done|].
    destruct Hr as [(?&?&_&?&_)|(_&m&[= ->])]; done.
Qed.

(** The nonce whose credentials a request presents to log in with. *)
Definition presented r : option Nonce :=
  h ← head (rq_authorization r); s ← h;
  match authn_from_str s with Ok (Initial c) => Some (c_nonce c) | _ => None end.

(** What one request does to the table of nonces: it takes out the one whose
    credentials it presents, and puts in the one it is refused with. *)
Definition touched st d r st' : Prop :=
  ∃ c, (c = nonces st ∨ ∃ m, presented r = Some m ∧ c = (lru_pop (nonces st) m).2) ∧
    (nonces st' = c ∨ nonces st' = lru_put c (d_nonce d) (d_t3 d)).

Lemma refuse_failure_touched {T} st (res : result T LoginError) nonce now :
  nonces (refuse_failure st res nonce now).2 = nonces st ∨
  nonces (refuse_failure st res nonce now).2 = lru_put (nonces st) nonce now.
Proof. destruct res; [by left|by right]. Qed.

Lemma authorize_request_touched d st authz r : touched st d r (authorize_request d st authz r).2.
Proof.
  exists (nonces st). split; [by left|]. unfold authorize_request, authorize.
  pose proof (verify_request_nonces (d_t0 d) (d_t1 d) (d_t2 d) st authz (rq_method r)
    (default "" (rq_path_and_query r))) as En.
  destruct (verify_request _ _ _ _ _ _ _) as [res st1]. cbn in En. rewrite <- En. apply refuse_failure_touched.
Qed.

Lemma verify_login_touched now t1 t2 utc st authz k :
  nonces (verify_login now t1 t2 utc st authz k).2 = nonces st ∨
  ∃ m, (s ← authz; match authn_from_str s with Ok (Initial c) => Some (c_nonce c) | _ => None end) = Some m ∧
    nonces (verify_login now t1 t2 utc st authz k).2 = (lru_pop (nonces st) m).2.
Proof.
  unfold verify_login, claim_login. destruct authz as [s|]; [|by left]. cbn [mbind option_bind].
  destruct (authn_from_str s) as [[c|]|]; [|by left..]. right. exists (c_nonce c). split; [done|].
  destruct (lru_pop (nonces st) (c_nonce c)) as [minted ns]. repeat case_match; simplify_eq; done.
Qed.

Lemma decide_touched rt d st r : touched st d r (decide rt d st r).2.
Proof.
  assert (H0 : touched st d r st) by (exists (nonces st); split; by left).
  assert (Hc : touched st d r (check d st r).2).
  { unfold check_login. destruct (needs_no_login r); [done|].
    assert (Hgo : ∀ authz, authz = (h ← head (rq_authorization r); h) →
      touched st d r (if bool_decide (rq_method r = "POST") && bool_decide (rq_path r = "/iam")
       then check_iam_post SledResponse key_from_json length_limit_error d st authz r
       else check_authorized SledResponse d st authz r).2).
    { intros authz Ea. pose proof (authorize_request_touched d st authz r) as Hauth. destruct (_ && _).
      - unfold check_iam_post. destruct (login_key _ _ _) as [[k|]|e]; [|by destruct (authorize_request _ _ _ _)|done].
        destruct (login _ _ _ _ _ _ _ _ _) as [res st1] eqn:El. cbn. unfold login in El.
        pose proof (verify_login_touched (d_t0 d) (d_t1 d) (d_t2 d) (d_utc d) st authz k) as Hv.
        destruct (verify_login _ _ _ _ _ _ _) as [res1 st2]. cbn in Hv.
        exists (nonces st2). split.
        + destruct Hv as [->|(m&Hm&->)]; [by left|right]. exists m. split; [|done]. unfold presented.
          rewrite Ea in Hm. by destruct (head (rq_authorization r)).
        + replace st1 with (refuse_failure st2 res1 (d_nonce d) (d_t3 d)).2 by (by rewrite El).
          apply refuse_failure_touched.
      - unfold check_authorized. by destruct (authorize_request _ _ _ _) as [[who|n] st1]. }
    destruct (rq_authorization r) as [|h [|h2 hs]]; [by apply Hgo|by apply Hgo|done]. }
  unfold decide_request. destruct (own_version _ _ _ r); [done|].
  destruct (check d st r) as [[r1|a] st1]; [|done]. by destruct (route_of rt r1).
Qed.

Lemma touched_kept n t k st d r st' :
  presented r ≠ Some n → d_nonce d ≠ n → (S k < lru_cap (nonces st))%nat → touched st d r st' →
  kept n t k (nonces st) → kept n t (S k) (nonces st') ∧ lru_cap (nonces st') = lru_cap (nonces st).
Proof.
  intros Hp Hd Hk (c&Hc&Hc') Hin.
  assert (Hkc : kept n t k c ∧ lru_cap c = lru_cap (nonces st)).
  { destruct Hc as [->|(m&Hm&->)]; [done|]. split; [apply kept_pop; congruence|apply lru_pop_spec]. }
  destruct Hkc as [Hkc Ec]. destruct Hc' as [->| ->]; rewrite ?lru_put_cap.
  - split; [|done]. destruct Hkc as (l1&l2&?&?&?). exists l1, l2. split_and!; [done..|lia].
  - split; [apply kept_put; [done|lia|done]|done].
Qed.

Lemma serve_all_kept n t l : ∀ k st,
  (k + length l < lru_cap (nonces st))%nat →
  Forall (λ x : Router SocketAddr * Draws * HttpRequest, presented x.2 ≠ Some n ∧ d_nonce x.1.2 ≠ n) l →
  kept n t k (nonces st) →
  kept n t (k + length l) (nonces (served st l).2).
Proof.
  induction l as [|[[rt d] r] l IH]; intros k st Hk Hf Hin; cbn [serve_all length fst snd].
  - by rewrite Nat.add_0_r.
  - apply Forall_cons_1 in Hf as [[Hp Hd] Hf]. cbn in Hk.
    destruct (touched_kept n t k st d r _ Hp Hd ltac:(lia) (decide_touched rt d st r) Hin) as [Hin' Ec].
    destruct (decide rt d st r) as [o st1]. cbn [fst snd] in *.
    specialize (IH (S k) st1). destruct (served st1 l) as [fs st2]. cbn in *.
    rewrite <- Nat.add_succ_comm. apply IH; [lia|done|done].
Qed.

Lemma decide_cap rt d st r : lru_cap (nonces (decide rt d st r).2) = lru_cap (nonces st).
Proof.
  destruct (decide_touched rt d st r) as (c&Hc&Hc').
  assert (E : lru_cap c = lru_cap (nonces st)) by (destruct Hc as [->|(m&_&->)]; [done|apply lru_pop_spec]).
  by destruct Hc' as [->| ->]; rewrite ?lru_put_cap.
Qed.

Lemma claim_not_refused st n t now utc h c k :
  outstanding st n t → authn_from_str h = Ok (Initial c) → c_nonce c = n → elapsed now t < NONCE_TTL →
  (claim_login now utc st (Some h) k).1 ≠ Err LNonceNotFound ∧
  (claim_login now utc st (Some h) k).1 ≠ Err LNonceExpired.
Proof.
  intros Ho Eh Ec Hlt. unfold claim_login. rewrite Eh, Ec.
  destruct (lru_pop_spec _ _ (nonces st) n) as (Ep&_&_).
  destruct (lru_pop (nonces st) n) as [m ns]. cbn in Ep. rewrite Ho in Ep. subst m.
  rewrite (proj2 (N.leb_gt _ _) Hlt). split; repeat case_match; cbn; congruence.
Qed.

(** C30. What the proxy refuses, it refuses usefully.  Every answer it makes
    itself has one of six statuses; it carries a challenge exactly when it is a
    401; and that challenge reads back as a nonce.  Initial credentials for that
    nonce, presented before it expires, are not refused on account of it, as
    long as nobody has presented it before and fewer requests than the table
    of nonces holds were served since the refusal: any such requests, with any
    clocks and any other nonces, leave it outstanding.  (At capacity, a newer
    refusal evicts the oldest nonce.) *)
Theorem refusals_carry_usable_challenges rt d st r resp st' :
  (0 < lru_cap (nonces st))%nat → phrase_wf (d_nonce d) →
  decide rt d st r = (Answered SocketAddr SledResponse resp, st') →
  ∃ status ch body, resp = Own SledResponse status ch body ∧
    status ∈ [OK; BAD_REQUEST; UNAUTHORIZED; INTERNAL_SERVER_ERROR; BAD_GATEWAY; SERVICE_UNAVAILABLE] ∧
    (status ≠ UNAUTHORIZED → ch = None) ∧
    (status = UNAUTHORIZED →
       ∃ s, ch = Some s ∧ challenge_from_str s = Ok (mkChallenge (d_nonce d)) ∧
       ∀ l, (length l < lru_cap (nonces st))%nat →
         Forall (λ x : Router SocketAddr * Draws * HttpRequest,
                   presented x.2 ≠ Some (d_nonce d) ∧ d_nonce x.1.2 ≠ d_nonce d) l →
         ∀ now utc h c k, authn_from_str h = Ok (Initial c) → c_nonce c = d_nonce d →
         elapsed now (d_t3 d) < NONCE_TTL →
         (claim_login now utc (served st' l).2 (Some h) k).1 ≠ Err LNonceNotFound ∧
         (claim_login now utc (served st' l).2 (Some h) k).1 ≠ Err LNonceExpired).
Proof.
  intros Hc Hn Hd. assert (Hw : well_refused d st' resp).
  { unfold decide_request in Hd. destruct (own_version _ _ _ r) as [o|] eqn:Eo.
    - injection Hd as <- <-. unfold own_version in Eo. destruct (_ || _); [done|].
      injection Eo as <-. apply well_refused_json.
    - destruct (check d st r) as [[r1|a] st1] eqn:Ec.
      + destruct (route_of rt r1) as [addr|e] eqn:Er; [done|]. injection Hd as <- <-.
        by eapply route_err_refused.
      + injection Hd as <- <-. by eapply check_login_answer. }
  assert (Et := decide_cap rt d st r). rewrite Hd in Et. cbn in Et.
  destruct Hw as (status&ch&body&->&Hs&Hno&Hyes). exists status, ch, body. split; [done|].
  split; [done|]. split; [done|]. intros E. destruct (Hyes E) as [-> Hk]. eexists. split; [done|].
  split; [by apply challenge_roundtrip|]. intros l Hl Hf now utc h c k.
  apply claim_not_refused. eapply kept_peek, (serve_all_kept _ _ l 0); [by rewrite Et|done|done].
Qed.
End facts.
