(* ===== verification/History.v ===== *)
(** * Job history ([server/src/history.rs])

    The bounded, lossy record of job statuses across the rack, and its
    eviction rule.  The invariant [history_wf] ties the table of running jobs
    and the causal index to the status table. *)
From S2P Require Import Prelude External Codephrases Targets Keys Jobs.
Open Scope N_scope.

(** Maximum number of historical job statuses: 32 sleds times 2,048 jobs. *)
Definition MAX_HISTORY : N := 32 * 2048.

Section history.
Context `{!Rumors, !BaseboardOps}.

(** [JobHistory]. *)
Record JobHistory := mkJobHistory {
  causal_jobs : gset (Rank * JobId * BaseboardId);
  job_status : gmap JobId JobStatusMap;
  running : gmap (JobId * BaseboardId) DateTime;
}.

Definition history_empty : JobHistory := mkJobHistory ∅ ∅ ∅.

(** The order of [BTreeSet<(Rank, JobId, BaseboardId)>]. *)
Definition causal_le : relation (Rank * JobId * BaseboardId) :=
  λ '(r1, i1, b1) '(r2, i2, b2),
    (rank_le r1 r2 ∧ r1 ≠ r2) ∨
    (r1 = r2 ∧ ((phrase_le i1 i2 ∧ i1 ≠ i2) ∨ (i1 = i2 ∧ baseboard_le b1 b2))).
#[export] Instance causal_le_dec : RelDecision causal_le.
Proof. intros [[r1 i1] b1] [[r2 i2] b2]. unfold causal_le. apply _. Defined.

Definition causal_id (e : Rank * JobId * BaseboardId) : JobId := e.1.2.

(** [JobHistory::contains], [JobHistory::get_job_status] and its usual
    continuation, the status on one sled. *)
Definition history_contains (h : JobHistory) (id : JobId) : bool :=
  bool_decide (is_Some (job_status h !! id)).
Definition get_job_status (h : JobHistory) (id : JobId) : option JobStatusMap :=
  job_status h !! id.
Definition status_on (h : JobHistory) (id : JobId) (b : BaseboardId) : option JobStatus :=
  m ← job_status h !! id; m !! b.

(** ** Eviction *)

(** Jobs ineligible for eviction: queued locally, or running anywhere. *)
Definition ineligible {Q} (queued : option (gmap JobId Q)) (h : JobHistory) : gset JobId :=
  match queued with Some q => dom q | None => ∅ end
  ∪ set_map fst (dom (running h)).

Definition causal_ids (h : JobHistory) : gset JobId := set_map causal_id (causal_jobs h).

(** The next job to evict: the first one not in the causal index, else the
    causally oldest.  [inel] and [causal] are computed once per collection. *)
Definition evictee (inel causal : gset JobId) (h : JobHistory) : option JobId :=
  match find_first (λ id, bool_decide (id ∉ inel) && bool_decide (id ∉ causal))
          (sorted_elements phrase_le (dom (job_status h))) with
  | Some id => Some id
  | None =>
    find_first (λ id, bool_decide (id ∉ inel) && bool_decide (is_Some (job_status h !! id)))
      (map causal_id (sorted_elements causal_le (causal_jobs h)))
  end.

Definition evict (id : JobId) (h : JobHistory) : JobHistory :=
  mkJobHistory (filter (λ e, causal_id e ≠ id) (causal_jobs h))
    (delete id (job_status h)) (running h).

Definition history_len (h : JobHistory) : N := N.of_nat (size (job_status h)).
Definition low_water_mark : N := MAX_HISTORY - MAX_HISTORY / 16.

(** The eviction loop.  Every round removes a job, so the number of jobs is
    enough fuel. *)
Fixpoint gc_loop (fuel : nat) (inel causal : gset JobId) (h : JobHistory) : JobHistory :=
  match fuel with
  | O => h
  | S fuel =>
    if low_water_mark <? history_len h then
      match evictee inel causal h with
      | Some id => gc_loop fuel inel causal (evict id h)
      | None => h
      end
    else h
  end.

(** [JobHistory::gc]. *)
Definition gc {Q} (queued : option (gmap JobId Q)) (h : JobHistory) : JobHistory :=
  if history_len h <=? MAX_HISTORY then h
  else gc_loop (size (job_status h)) (ineligible queued h) (causal_ids h) h.

(** ** Updates *)

(** [JobHistory::set_job_status] before it collects. *)
Definition write_status (h : JobHistory) (id : JobId) (b : BaseboardId) (s : JobStatus)
    (rank : option Rank) : JobHistory :=
  mkJobHistory
    (match rank with Some r => {[(r, id, b)]} ∪ causal_jobs h | None => causal_jobs h end)
    (<[id := <[b := s]> (default ∅ (job_status h !! id))]> (job_status h))
    (match s with
     | Started _ t => <[(id, b) := t]> (running h)
     | _ => delete (id, b) (running h)
     end).

(** [JobHistory::set_job_status]. *)
Definition set_job_status {Q} (h : JobHistory) (id : JobId) (b : BaseboardId) (s : JobStatus)
    (rank : option Rank) (queued : option (gmap JobId Q)) : JobHistory :=
  gc queued (write_status h id b s rank).

(** [JobHistory::transition_job_status]: also returns the new status. *)
Definition transition_job_status {Q} (h : JobHistory) (id : JobId) (b : BaseboardId)
    (rank : option Rank) (transition : option JobStatus → option JobStatus)
    (queued : option (gmap JobId Q)) : option JobStatus * JobHistory :=
  match transition (status_on h id b) with
  | Some new => (Some new, set_job_status h id b new rank queued)
  | None => (None, h)
  end.

(** ** Listing *)

Definition status_map_time (m : JobStatusMap) : option DateTime :=
  foldr (λ t acc, Some (match acc with Some u => Z.max t u | None => t end))
    None (map status_time (map_to_list m).*2).

(** Descending by the latest timestamp of the job's statuses ([Reverse]). *)
Definition newer_first (h : JobHistory) : relation JobId := λ i j,
  match status_map_time (default ∅ (job_status h !! j)),
        status_map_time (default ∅ (job_status h !! i)) with
  | None, _ => True
  | Some _, None => False
  | Some tj, Some ti => (tj <= ti)%Z
  end.
#[export] Instance newer_first_dec h : RelDecision (newer_first h).
Proof. intros i j. unfold newer_first. repeat case_match; apply _. Defined.

(** Insertion keeps earlier elements first among equals, as [sort_by_key] does. *)
Fixpoint insert_stable (h : JobHistory) (i : JobId) (l : list JobId) : list JobId :=
  match l with
  | [] => [i]
  | j :: l => if decide (newer_first h i j) then i :: j :: l else j :: insert_stable h i l
  end.

Fixpoint dedup_ids (seen : gset JobId) (l : list JobId) : list JobId :=
  match l with
  | [] => []
  | i :: l => if decide (i ∈ seen) then dedup_ids seen l else i :: dedup_ids ({[i]} ∪ seen) l
  end.

(** [JobHistory::iter]: locally generated jobs newest first, then causal ones
    newest first, one status map each. *)
Definition history_ids (h : JobHistory) : list JobId :=
  let causal := causal_ids h in
  let acausal := filter (.∉ causal) (sorted_elements phrase_le (dom (job_status h))) in
  foldr (insert_stable h) [] acausal
  ++ dedup_ids ∅ (map causal_id (reverse (sorted_elements causal_le (causal_jobs h)))).

Definition history_iter (h : JobHistory) : list JobStatusMap :=
  omap (λ id, job_status h !! id) (history_ids h).

(** ** Invariant *)

(** The running table lists exactly the [Started] statuses, the causal index
    only names known jobs, and no job is listed without a status. *)
Record history_wf (h : JobHistory) : Prop := {
  wf_running : ∀ id b t, running h !! (id, b) = Some t ↔
    ∃ j, status_on h id b = Some (Started j t);
  wf_causal : ∀ e, e ∈ causal_jobs h → is_Some (job_status h !! causal_id e);
}.

Lemma history_wf_empty : history_wf history_empty.
Proof.
  split; unfold status_on; simpl.
  - intros id b t. rewrite lookup_empty. split; [done|]. by intros [j Hj].
  - intros e He. set_solver.
Qed.

Lemma status_on_evict h id id' b :
  status_on (evict id h) id' b = if decide (id = id') then None else status_on h id' b.
Proof. unfold status_on, evict; simpl. rewrite lookup_delete. by case_decide. Qed.

Lemma status_on_write h id b s r id' b' :
  status_on (write_status h id b s r) id' b' =
  if decide (id = id' ∧ b = b') then Some s else status_on h id' b'.
Proof.
  unfold status_on, write_status; simpl. rewrite lookup_insert.
  destruct (decide (id = id')) as [->|].
  - simpl. rewrite lookup_insert. destruct (decide (b = b')) as [->|].
    + by rewrite decide_True.
    + rewrite decide_False by naive_solver. by destruct (job_status h !! id').
  - rewrite decide_False by naive_solver. done.
Qed.

Lemma history_wf_record h id b s r :
  history_wf h → history_wf (write_status h id b s r).
Proof.
  intros [Hr Hc]. split.
  - intros id' b' t. rewrite status_on_write.
    destruct (decide (id = id' ∧ b = b')) as [[-> ->]|Hne].
    + unfold write_status; cbn [running].
      destruct s; try (rewrite lookup_delete_eq; split; [done|by intros [j [= ]]]).
      rewrite lookup_insert_eq. naive_solver.
    + rewrite <- Hr. unfold write_status; cbn [running].
      assert ((id, b) ≠ (id', b')) by naive_solver.
      destruct s; by rewrite ?lookup_delete_ne, ?lookup_insert_ne.
  - intros e He. unfold write_status in *; cbn [causal_jobs job_status] in *.
    rewrite lookup_insert. case_decide; [done|]. apply Hc.
    destruct r as [r|]; [|done]. apply elem_of_union in He as [->%elem_of_singleton|]; [|done].
    by simpl in *.
Qed.

Lemma history_wf_evict h id :
  history_wf h → (∀ b, running h !! (id, b) = None) → history_wf (evict id h).
Proof.
  intros [Hr Hc] Hnr. split.
  - intros id' b t. rewrite status_on_evict. case_decide as E.
    + subst id'. change (running (evict id h)) with (running h). rewrite Hnr.
      split; [done|by intros [j Hj]].
    + apply Hr.
  - intros e. unfold evict; cbn [causal_jobs job_status]. rewrite elem_of_filter.
    intros [Hne He]. rewrite lookup_delete_ne by done. by apply Hc.
Qed.

Lemma not_ineligible_not_running {Q} (q : option (gmap JobId Q)) h id :
  id ∉ ineligible q h → ∀ b, running h !! (id, b) = None.
Proof.
  unfold ineligible. intros Hn b. destruct (running h !! (id, b)) eqn:E; [|done].
  destruct Hn. apply elem_of_union_r, elem_of_map. exists (id, b). split; [done|].
  apply elem_of_dom. eauto.
Qed.

Lemma evictee_spec inel causal h id :
  evictee inel causal h = Some id → (id ∉ inel) ∧ is_Some (job_status h !! id).
Proof.
  unfold evictee. case_match eqn:E; intros ?; simplify_eq.
  - apply find_first_Some in E as [Hin [H1 _]%andb_prop].
    apply elem_of_sorted_elements, elem_of_dom in Hin. by apply bool_decide_eq_true in H1.
  - apply find_first_Some in H1 as [_ [H1 H2]%andb_prop].
    apply bool_decide_eq_true in H1, H2. done.
Qed.

(** ** The eviction loop *)

Lemma gc_loop_lookup fuel inel causal h id :
  job_status (gc_loop fuel inel causal h) !! id = job_status h !! id ∨
  ((id ∉ inel) ∧ job_status (gc_loop fuel inel causal h) !! id = None).
Proof.
  revert h; induction fuel as [|fuel IH]; intros h; simpl; [by left|].
  case_match; [|by left]. destruct (evictee inel causal h) as [v|] eqn:E; [|by left].
  apply evictee_spec in E as [Hv _]. destruct (decide (v = id)) as [->|Hne].
  - right. split; [done|]. destruct (IH (evict id h)) as [->|[_ ?]]; [|done].
    unfold evict; simpl. apply lookup_delete_eq.
  - destruct (IH (evict v h)) as [->|?]; [left|by right].
    unfold evict; simpl. by rewrite lookup_delete_ne.
Qed.

Lemma gc_loop_running fuel inel causal h : running (gc_loop fuel inel causal h) = running h.
Proof.
  revert h; induction fuel as [|fuel IH]; intros h; simpl; [done|].
  repeat case_match; try done. by rewrite IH.
Qed.

Lemma gc_loop_wf fuel inel causal h :
  history_wf h → (∀ id, id ∉ inel → ∀ b, running h !! (id, b) = None) →
  history_wf (gc_loop fuel inel causal h).
Proof.
  revert h; induction fuel as [|fuel IH]; intros h Hwf Hinel; simpl; [done|].
  case_match; [|done]. destruct (evictee inel causal h) as [v|] eqn:E; [|done].
  apply evictee_spec in E as [Hv _]. apply IH; [|done].
  apply history_wf_evict; [done|]. by apply Hinel.
Qed.

(** Every job of the cached causal set that is still known is still indexed. *)
Definition causal_cached (causal : gset JobId) (h : JobHistory) : Prop :=
  ∀ id, id ∈ causal → is_Some (job_status h !! id) →
    ∃ e, e ∈ causal_jobs h ∧ causal_id e = id.

Lemma causal_cached_evict causal h v : causal_cached causal h → causal_cached causal (evict v h).
Proof.
  intros Hc id Hid. unfold evict; simpl. rewrite lookup_delete. case_decide; [by intros []|].
  intros Hs. destruct (Hc id Hid Hs) as (e&He&<-). exists e. split; [|done].
  apply elem_of_filter. split; [by apply not_eq_sym|done].
Qed.

Lemma evictee_None inel causal h :
  causal_cached causal h → evictee inel causal h = None → dom (job_status h) ⊆ inel.
Proof.
  intros Hc. unfold evictee. case_match eqn:E1; [done|]. intros E2 id Hid.
  destruct (decide (id ∈ inel)) as [|Hn]; [done|].
  assert (Hs : is_Some (job_status h !! id)) by (by apply elem_of_dom).
  destruct (decide (id ∈ causal)) as [Hin|Hnc].
  - destruct (Hc id Hin Hs) as (e&He&<-).
    apply find_first_None with (x := causal_id e) in E2.
    + by rewrite !bool_decide_true in E2.
    + apply list_elem_of_fmap. exists e. split; [done|]. by apply elem_of_sorted_elements.
  - apply find_first_None with (x := id) in E1.
    + by rewrite !bool_decide_true in E1.
    + by apply elem_of_sorted_elements.
Qed.

Lemma gc_loop_done fuel inel causal h :
  causal_cached causal h → (size (job_status h) <= fuel)%nat →
  history_len (gc_loop fuel inel causal h) <= low_water_mark ∨
  dom (job_status (gc_loop fuel inel causal h)) ⊆ inel.
Proof.
  revert h; induction fuel as [|fuel IH]; intros h Hc Hf; simpl.
  - left. unfold history_len. lia.
  - destruct (N.ltb_spec low_water_mark (history_len h)) as [Hlt|]; [|by left].
    destruct (evictee inel causal h) as [v|] eqn:E.
    + apply IH; [by apply causal_cached_evict|].
      apply evictee_spec in E as [_ [m Hm]]. unfold evict; simpl.
      rewrite map_size_delete, Hm. lia.
    + right. by eapply evictee_None.
Qed.

Lemma causal_cached_ids h : causal_cached (causal_ids h) h.
Proof.
  intros id. unfold causal_ids. rewrite elem_of_map. intros (e&->&He) _. by exists e.
Qed.

Section with_queue.
Context {Q : Type}.
Implicit Types q : option (gmap JobId Q).

Lemma gc_wf q h : history_wf h → history_wf (gc q h).
Proof.
  intros Hwf. unfold gc. case_match; [done|]. apply gc_loop_wf; [done|].
  apply not_ineligible_not_running.
Qed.

Lemma gc_lookup q h id :
  job_status (gc q h) !! id = job_status h !! id ∨
  ((id ∉ ineligible q h) ∧ job_status (gc q h) !! id = None).
Proof. unfold gc. case_match; [by left|]. apply gc_loop_lookup. Qed.

Lemma set_job_status_wf h id b s r q :
  history_wf h → history_wf (set_job_status h id b s r q).
Proof. intros Hwf. by apply gc_wf, history_wf_record. Qed.

(** What an update leaves for one job on one sled: the written status, the old
    one, or nothing at all when the whole job was evicted. *)
Lemma set_job_status_on h id b s r q id' b' :
  status_on (set_job_status h id b s r q) id' b' =
    (if decide (id = id' ∧ b = b') then Some s else status_on h id' b') ∨
  job_status (set_job_status h id b s r q) !! id' = None.
Proof.
  rewrite <- (status_on_write h id b s r). unfold set_job_status.
  destruct (gc_lookup q (write_status h id b s r) id') as [E|[_ E]]; [left|by right].
  unfold status_on. by rewrite E.
Qed.

Lemma transition_wf h id b r f q :
  history_wf h → history_wf (transition_job_status h id b r f q).2.
Proof. intros Hwf. unfold transition_job_status. case_match; [|done]. by apply set_job_status_wf. Qed.

(** C40. The history's tables stay consistent through every update: the running
    table lists exactly the jobs whose status is [Started], with their start
    times, and the causal index only names known jobs. *)
Theorem history_update_wf h id b s r q f :
  history_wf h →
  history_wf (set_job_status h id b s r q) ∧
  history_wf (transition_job_status h id b r f q).2.
Proof. intros Hwf. split; [by apply set_job_status_wf|by apply transition_wf]. Qed.

(** Garbage collection protects live jobs and bounds the history: it never
    removes a job that is queued locally or running anywhere, it leaves every
    other job untouched or removes it whole, and afterwards the history fits its
    limit unless every remaining job is protected. *)
Theorem gc_spec q h :
  (∀ id, id ∈ ineligible q h → job_status (gc q h) !! id = job_status h !! id) ∧
  (∀ id, job_status (gc q h) !! id = job_status h !! id ∨ job_status (gc q h) !! id = None) ∧
  running (gc q h) = running h ∧
  (history_len (gc q h) <= MAX_HISTORY ∨ dom (job_status (gc q h)) ⊆ ineligible q h).
Proof.
  split_and!.
  - intros id Hid. destruct (gc_lookup q h id) as [|[? _]]; done.
  - intros id. destruct (gc_lookup q h id) as [|[_ ?]]; [by left|by right].
  - unfold gc. case_match; [done|]. apply gc_loop_running.
  - unfold gc. destruct (N.leb_spec (history_len h) MAX_HISTORY) as [|Hgt]; [by left|].
    destruct (gc_loop_done (size (job_status h)) (ineligible q h) (causal_ids h) h) as [Hle|];
      [apply causal_cached_ids|done| |by right].
    left. etrans; [exact Hle|]. by vm_compute.
Qed.
End with_queue.
End history.
