(* ===== verification/Boundary.v ===== *)
(** * The execution boundary ([server/src/locker/boundary.rs])

    The last job this sled committed to running, and the store that keeps it.
    The durable write itself is a locker tenant's; here its outcome is an
    argument ([Locker.v] models the tenant). *)
From S2P Require Import Prelude External Codephrases Targets Keys Jobs.

Section boundary.
Context `{!Rumors}.

(** [Boundary]. *)
Record Boundary := mkBoundary {
  b_network : Network;
  b_session : SessionId;
  b_seq : SessionSeq;
  b_job : JobId;
  b_successor : JobId;
  b_status : option JobStatus;
}.

(** The in-memory half of [BoundaryStore]. *)
Record BoundaryStore := mkBoundaryStore { stored : option Boundary }.

(** Whether a recorded status gives way to a new one: nothing recorded yet, or
    a stop displacing an adjudicated interruption. *)
Definition displaces (recorded : option JobStatus) (status : JobStatus) : bool :=
  match recorded, status with
  | None, _ => true
  | Some (Error _ _ PInterrupted), Stopped _ _ _ _ _ => true
  | _, _ => false
  end.

(** The record [record_status] writes, if it writes one. *)
Definition status_update (s : BoundaryStore) (status : JobStatus) : option Boundary :=
  match stored s with
  | Some b =>
    if bool_decide (b_job b = status_job_id status) && displaces (b_status b) status then
      Some (mkBoundary (b_network b) (b_session b) (b_seq b) (b_job b) (b_successor b) (Some status))
    else None
  | None => None
  end.

(** [BoundaryStore::record_status]; [write] is the durable write.  The
    [assert!] that the status is terminal is the [None] case. *)
Definition record_status (write : Boundary → bool) (s : BoundaryStore) (status : JobStatus) :
    option BoundaryStore :=
  if negb (is_terminal status) then None
  else
    Some match status_update s status with
         | Some updated => if write updated then mkBoundaryStore (Some updated) else s
         | None => s
         end.

(** [BoundaryStore::advance]: commit to a job; [Err] means it must not run. *)
Definition advance (write : Boundary → bool) (s : BoundaryStore) (b : Boundary) :
    result BoundaryStore () :=
  if write b then Ok (mkBoundaryStore (Some b)) else Err ().

(** The durable record of how the boundary job ended is written once and
    only ever improved: it keeps naming the same job, session, universe and
    successor; a recorded ending is replaced only when a real stop displaces an
    adjudicated interruption; and endings of other jobs never touch it. *)
Theorem record_status_spec write s status s' b :
  record_status write s status = Some s' →
  stored s = Some b →
  ∃ b', stored s' = Some b' ∧
    b_network b' = b_network b ∧ b_session b' = b_session b ∧ b_seq b' = b_seq b ∧
    b_job b' = b_job b ∧ b_successor b' = b_successor b ∧
    (b_status b' = b_status b ∨
     (b_status b' = Some status ∧ status_job_id status = b_job b ∧ is_terminal status = true ∧
      (b_status b = None ∨
       ∃ i t i' t1 t2 res out, b_status b = Some (Error i t PInterrupted) ∧
         status = Stopped i' t1 t2 res out))).
Proof.
  unfold record_status, status_update. destruct (is_terminal status) eqn:Et; [|done]. cbn [negb].
  intros [= <-] Es. rewrite Es. case_bool_decide as Ej; cbn [andb]; [|exists b; split_and!; [done..|by left]].
  destruct (displaces (b_status b) status) eqn:Ed; [|exists b; split_and!; [done..|by left]].
  destruct (write _); [|exists b; split_and!; [done..|by left]].
  eexists. split; [done|]. cbn. do 5 (split; [done|]). right. split_and!; [done..|].
  unfold displaces in Ed. cases_in Ed; [right|by left]. by eauto 10.
Qed.
End boundary.
