(* ===== verification/Locker.v ===== *)
(** * Durable records ([server/src/locker.rs])

    Slot files hold a record inside an envelope; a store writes every slot, a
    load weighs them.  The file system is an argument: which reads fail, and how
    each attempted write ends.  A write replaces a file whole or not at all, as
    [atomicwrites] documents. *)
From S2P Require Import Prelude External Codephrases Hash Targets Keys Jobs.
Open Scope N_scope.

Definition MAGIC_LEN : nat := 12.
Definition NONCE_LEN : nat := 32.
Definition DIGEST_LEN : nat := 32.
Definition ENVELOPE_VERSION : N := 1.
Definition U16_MAX : N := 65535.

(** ** UTF-8 ([String::from_utf8]) *)

Definition in_range (lo hi : N) (b : byte) : bool :=
  (lo <=? Byte.to_N b) && (Byte.to_N b <=? hi).
Definition continuation : byte → bool := in_range 128 191.

(** One encoded character: its length, if the bytes start with one. *)
Definition utf8_char (bs : list byte) : option nat :=
  match bs with
  | b :: _ =>
    if in_range 0 127 b then Some 1%nat
    else
      match bs with
      | _ :: c1 :: rest =>
        if in_range 194 223 b then if continuation c1 then Some 2%nat else None
        else
          match rest with
          | c2 :: rest =>
            if (in_range 224 224 b && in_range 160 191 c1 && continuation c2)
               || ((in_range 225 236 b || in_range 238 239 b) && continuation c1 && continuation c2)
               || (in_range 237 237 b && in_range 128 159 c1 && continuation c2)
            then Some 3%nat
            else
              match rest with
              | c3 :: _ =>
                if ((in_range 240 240 b && in_range 144 191 c1)
                    || (in_range 241 243 b && continuation c1)
                    || (in_range 244 244 b && in_range 128 143 c1))
                   && continuation c2 && continuation c3
                then Some 4%nat else None
              | [] => None
              end
          | [] => None
          end
      | _ => None
      end
  | [] => None
  end.

(** Every character takes at least a byte, so the length is enough fuel. *)
Fixpoint utf8_valid_go (fuel : nat) (bs : list byte) : bool :=
  match bs with
  | [] => true
  | _ =>
    match fuel with
    | O => false
    | S fuel =>
      match utf8_char bs with
      | Some n => utf8_valid_go fuel (drop n bs)
      | None => false
      end
    end
  end.
Definition utf8_valid (bs : list byte) : bool := utf8_valid_go (length bs) bs.

Definition string_from_utf8 (bs : list byte) : option string :=
  if utf8_valid bs then Some (String.string_of_list_byte bs) else None.

(** ** Envelopes *)

Record Envelope := mkEnvelope {
  e_nonce : Nonce;
  e_seq : N;
  e_baseboard : BaseboardId;
  e_record : list byte;
}.

(** [Envelope::put]: a length prefix, then the field, truncated to its width. *)
Definition put (bytes field : list byte) : list byte :=
  let field := take (N.to_nat (N.min (N.of_nat (length field)) U16_MAX)) field in
  bytes ++ be_bytes 2 (N.of_nat (length field)) ++ field.

(** [Buf::try_get_u16]. *)
Definition try_get_u16 (bytes : list byte) : option (N * list byte) :=
  if (length bytes <? 2)%nat then None else Some (be_value (take 2 bytes), drop 2 bytes).

(** [Envelope::take]: the field and the rest. *)
Definition take_field (bytes : list byte) : option (list byte * list byte) :=
  '(len, rest) ← try_get_u16 bytes;
  if (length rest <? N.to_nat len)%nat then None
  else Some (take (N.to_nat len) rest, drop (N.to_nat len) rest).

(** [try_into] an array of [n] bytes. *)
Definition exactly (n : nat) (bytes : list byte) : option (list byte) :=
  if (length bytes =? n)%nat then Some bytes else None.

Fixpoint strip_magic (magic bytes : list byte) : option (list byte) :=
  match magic, bytes with
  | [], _ => Some bytes
  | m :: magic, b :: bytes => if bool_decide (m = b) then strip_magic magic bytes else None
  | _, [] => None
  end.

Section locker.
Context {Isha : Sha3}.

(** [Envelope::digest]. *)
Definition digest (prefix record : list byte) : list byte :=
  finalize (update_with_len (update_with_len hasher_new prefix) record).

(** The bytes before the digest field. *)
Definition envelope_prefix (magic : list byte) (nonce : Nonce) (sq : N) (b : BaseboardId) : list byte :=
  foldl put (magic ++ be_bytes 2 ENVELOPE_VERSION)
    [newtype_to_be_bytes nonce; be_bytes 8 sq;
     bytes_of_string (part_number b); bytes_of_string (serial_number b)].

(** [Envelope::encode]. *)
Definition encode_envelope (magic : list byte) (nonce : Nonce) (sq : N) (b : BaseboardId)
    (record : list byte) : list byte :=
  let bytes := envelope_prefix magic nonce sq b in
  put bytes (digest bytes record) ++ record.

(** [Envelope::decode]. *)
Definition decode_envelope (magic bytes : list byte) : option Envelope :=
  rest ← strip_magic magic bytes;
  '(version, rest) ← try_get_u16 rest;
  if negb (version =? ENVELOPE_VERSION) then None
  else
    '(nonce, rest) ← take_field rest;
    nonce ← exactly NONCE_LEN nonce;
    '(sq, rest) ← take_field rest;
    sq ← exactly 8 sq;
    '(part, rest) ← take_field rest;
    '(serial, rest) ← take_field rest;
    let prefix := take (length bytes - length rest) bytes in
    '(dg, record) ← take_field rest;
    dg ← exactly DIGEST_LEN dg;
    part ← string_from_utf8 part;
    serial ← string_from_utf8 serial;
    if bool_decide (digest prefix record = dg)
    then Some (mkEnvelope (newtype_from_be_bytes nonce) (be_value sq) (mkBaseboardId part serial) record)
    else None.

(** ** Slots *)

(** One slot: whether it was claimed at startup, and the tenant's file in it. *)
Record Slot := mkSlot { slot_claimed : bool; slot_file : option (list byte) }.

(** How an attempt to write a file ends. *)
Inductive WriteOutcome := WDone | WNotFound | WFailed.

(** What the file system does to one [Slot::write]: the first attempt, the
    healing of a wiped directory, the second attempt. *)
Record SlotIo := mkSlotIo { w_first : WriteOutcome; w_heal : bool; w_second : WriteOutcome }.
Definition io_ok : SlotIo := mkSlotIo WDone true WDone.

(** [Slot::write]. *)
Definition slot_write (io : SlotIo) (s : Slot) (envelope : list byte) : bool * Slot :=
  if negb (slot_claimed s) then (false, s)
  else
    match w_first io with
    | WDone => (true, mkSlot true (Some envelope))
    | WFailed => (false, s)
    | WNotFound =>
      if w_heal io then
        match w_second io with
        | WDone => (true, mkSlot true (Some envelope))
        | _ => (false, mkSlot true None)
        end
      else (false, mkSlot true None)
    end.

Inductive StoreError := SIo | SSuperseded.

(** The loop of [commit]: stop at the first failure. *)
Fixpoint write_slots (io : nat → SlotIo) (slots : list Slot) (envelope : list byte) : bool * list Slot :=
  match slots with
  | [] => (true, [])
  | s :: slots =>
    match slot_write (io O) s envelope with
    | (true, s) =>
      let '(ok, slots) := write_slots (λ i, io (S i)) slots envelope in (ok, s :: slots)
    | (false, s) => (false, s :: slots)
    end
  end.

(** [commit]: the result, the committed number and the slots. *)
Definition commit_store (io : nat → SlotIo) (committed : N) (slots : list Slot) (sq : N)
    (envelope : list byte) : result () StoreError * N * list Slot :=
  if sq <=? committed then (Err SSuperseded, committed, slots)
  else
    match write_slots io slots envelope with
    | (true, slots) => (Ok (), sq, slots)
    | (false, slots) => (Err SIo, committed, slots)
    end.

(** ** Tenants *)

(** [Tenant], with the slots it shares with its locker. *)
Record Tenant := mkTenant {
  t_magic : list byte;
  t_baseboard : BaseboardId;
  t_nonce : Nonce;
  t_reserved : N;
  t_committed : N;
  t_slots : list Slot;
}.

Definition with_reserved (t : Tenant) (r : N) : Tenant :=
  mkTenant (t_magic t) (t_baseboard t) (t_nonce t) r (t_committed t) (t_slots t).

(** [Tenant::envelope]. *)
Definition envelope (t : Tenant) (sq : N) (record : list byte) : list byte :=
  encode_envelope (t_magic t) (t_nonce t) sq (t_baseboard t) record.

(** [Guard::store]; the reserved number is a [u64]. *)
Definition store (io : nat → SlotIo) (t : Tenant) (record : list byte) :
    result () StoreError * Tenant :=
  match t_slots t with
  | [] => (Ok (), t)
  | _ =>
    let sq := (t_reserved t + 1) mod 2 ^ 64 in
    let '(r, committed, slots) :=
      commit_store io (t_committed t) (t_slots t) sq (envelope t sq record) in
    (r, mkTenant (t_magic t) (t_baseboard t) (t_nonce t) sq committed slots)
  end.

(** [Discard] and [Verdict]; paths are slot numbers. *)
Inductive Discard :=
| Disagree
| Foreign (slot : nat) (b : BaseboardId)
| Corrupt (slot : nat)
| DiscardIo (slot : nat).

Inductive Verdict :=
| Adopt (record : list byte)
| Restore (record : list byte)
| Empty
| VDiscard (reason : Discard).

(** The reading loop of [Guard::load]; [fails] tells which reads fail. *)
Fixpoint scan (fails : nat → bool) (magic : list byte) (b : BaseboardId) (i : nat) (slots : list Slot)
    (found : list Envelope) : result (list Envelope) Discard :=
  match slots with
  | [] => Ok found
  | s :: slots =>
    if fails i then Err (DiscardIo i)
    else
      match slot_file s with
      | None => scan fails magic b (S i) slots found
      | Some bytes =>
        match decode_envelope magic bytes with
        | None => Err (Corrupt i)
        | Some e =>
          if bool_decide (e_baseboard e ≠ b) then Err (Foreign i (e_baseboard e))
          else scan fails magic b (S i) slots (found ++ [e])
        end
      end
  end.

(** [Iterator::max_by_key]: the last of the maximal ones. *)
Definition max_by_seq (e0 : Envelope) (l : list Envelope) : Envelope :=
  foldl (λ m e, if e_seq m <=? e_seq e then e else m) e0 l.

(** [Guard::load]; [io] is what the file system does to a repair. *)
Definition load (fails : nat → bool) (io : nat → SlotIo) (t : Tenant) : Verdict * Tenant :=
  match t_slots t with
  | [] => (Empty, t)
  | _ =>
    match scan fails (t_magic t) (t_baseboard t) 0 (t_slots t) [] with
    | Err reason => (VDiscard reason, t)
    | Ok [] => (Empty, t)
    | Ok (e0 :: found) =>
      let restored := (length (e0 :: found) <? length (t_slots t))%nat in
      if negb (forallb (λ e, bool_decide (e_record e = e_record e0)) (e0 :: found)) then
        let newest := max_by_seq e0 found in
        let torn :=
          forallb (λ e, bool_decide (e_nonce e = e_nonce newest)) (e0 :: found)
          && (length (filter (λ e, e_seq e = e_seq newest) (e0 :: found)) =? 1)%nat in
        if negb torn then (VDiscard Disagree, t)
        else
          let t := with_reserved t (N.max (e_seq newest) (t_reserved t)) in
          (Adopt (e_record newest), (store io t (e_record newest)).2)
      else
        let newest := foldl (λ m e, N.max m (e_seq e)) (e_seq e0) found in
        let t := with_reserved t (N.max newest (t_reserved t)) in
        if restored then (Restore (e_record e0), (store io t (e_record e0)).2)
        else (Adopt (e_record e0), t)
    end
  end.

(** ** Envelope round trip *)

Definition frame2 (f : list byte) : list byte := be_bytes 2 (N.of_nat (length f)) ++ f.

Definition fits_u16 (f : list byte) : Prop := (N.of_nat (length f) <= U16_MAX).

Lemma put_frame2 bytes f : fits_u16 f → put bytes f = bytes ++ frame2 f.
Proof.
  unfold fits_u16, put, frame2. intros Hf. rewrite N.min_l, Nat2N.id, firstn_all by done. done.
Qed.

Lemma try_get_u16_app n rest : n <= U16_MAX → try_get_u16 (be_bytes 2 n ++ rest) = Some (n, rest).
Proof.
  unfold U16_MAX. intros Hn. unfold try_get_u16.
  rewrite length_app, length_be_bytes, (proj2 (Nat.ltb_ge _ _)) by lia.
  rewrite take_app_length', drop_app_length' by (by rewrite length_be_bytes).
  rewrite be_value_be_bytes, N.mod_small by (change (256 ^ N.of_nat 2) with 65536; lia). done.
Qed.

Lemma take_field_frame2 f rest : fits_u16 f → take_field (frame2 f ++ rest) = Some (f, rest).
Proof.
  intros Hf. unfold take_field, frame2. rewrite <- app_assoc, try_get_u16_app by done.
  cbn [mbind option_bind]. rewrite Nat2N.id, length_app, (proj2 (Nat.ltb_ge _ _)) by lia.
  by rewrite take_app_length, drop_app_length.
Qed.

Lemma strip_magic_app magic bytes : strip_magic magic (magic ++ bytes) = Some bytes.
Proof. induction magic as [|m magic IH]; [by destruct bytes|]. cbn. by rewrite bool_decide_true. Qed.

Lemma exactly_length n bytes : length bytes = n → exactly n bytes = Some bytes.
Proof. intros <-. unfold exactly. by rewrite Nat.eqb_refl. Qed.

Lemma string_from_utf8_of s :
  utf8_valid (bytes_of_string s) = true → string_from_utf8 (bytes_of_string s) = Some s.
Proof.
  intros Hs. unfold string_from_utf8. rewrite Hs. f_equal. apply String.string_of_list_byte_of_string.
Qed.

Lemma newtype_bytes_canonical name (p : Phrase name) :
  phrase p < 2 ^ length_bits (newtype_length name) →
  newtype_from_be_bytes (newtype_to_be_bytes p) = p.
Proof.
  intros Hp. unfold newtype_from_be_bytes, newtype_to_be_bytes, to_be_bytes, from_be_bytes.
  pose proof (length_bits_le (newtype_length name)).
  rewrite be_value_be_bytes, N.mod_small
    by (change (256 ^ N.of_nat 32) with U256_LIMIT; lia).
  rewrite canonical_fixed by done. by destruct p.
Qed.

(** What a locker writes: a [u64] number, a nonce of its type's width, and a
    baseboard whose names are UTF-8 and fit their length prefix. *)
Definition envelope_wf (nonce : Nonce) (sq : N) (b : BaseboardId) : Prop :=
  phrase nonce < 2 ^ length_bits (newtype_length NNonce) ∧ sq < 2 ^ 64 ∧
  utf8_valid (bytes_of_string (part_number b)) = true ∧
  utf8_valid (bytes_of_string (serial_number b)) = true ∧
  fits_u16 (bytes_of_string (part_number b)) ∧ fits_u16 (bytes_of_string (serial_number b)).

Lemma envelope_prefix_frames magic nonce sq b :
  envelope_wf nonce sq b →
  envelope_prefix magic nonce sq b
  = magic ++ be_bytes 2 ENVELOPE_VERSION ++ frame2 (newtype_to_be_bytes nonce)
    ++ frame2 (be_bytes 8 sq) ++ frame2 (bytes_of_string (part_number b))
    ++ frame2 (bytes_of_string (serial_number b)).
Proof.
  intros (_&_&_&_&Hp&Hs). unfold envelope_prefix. cbn [foldl].
  rewrite !put_frame2 by (done || (unfold fits_u16; rewrite length_be_bytes; done)).
  by rewrite <- !app_assoc.
Qed.

Lemma digest_length prefix record : length (digest prefix record) = 32%nat.
Proof. apply sha3_256_length. Qed.

Lemma decode_encode_envelope magic nonce sq b record :
  envelope_wf nonce sq b →
  decode_envelope magic (encode_envelope magic nonce sq b record)
  = Some (mkEnvelope nonce sq b record).
Proof.
  intros Hwf. pose proof Hwf as (Hn&Hs&Up&Us&Fp&Fs). unfold encode_envelope.
  set (P := envelope_prefix magic nonce sq b). set (D := digest P record).
  assert (FD : fits_u16 D) by (unfold fits_u16, D; rewrite digest_length; done).
  assert (Fn : fits_u16 (newtype_to_be_bytes nonce))
    by (unfold fits_u16, newtype_to_be_bytes, to_be_bytes; rewrite length_be_bytes; done).
  assert (Fq : fits_u16 (be_bytes 8 sq)) by (unfold fits_u16; rewrite length_be_bytes; done).
  rewrite put_frame2, <- app_assoc by done. unfold decode_envelope.
  assert (Es : strip_magic magic (P ++ frame2 D ++ record) = Some (be_bytes 2 ENVELOPE_VERSION ++
    frame2 (newtype_to_be_bytes nonce) ++ frame2 (be_bytes 8 sq) ++
    frame2 (bytes_of_string (part_number b)) ++ frame2 (bytes_of_string (serial_number b)) ++
    frame2 D ++ record)).
  { generalize D. intros D'. unfold P. rewrite (envelope_prefix_frames magic nonce sq b Hwf), <- !app_assoc.
    apply strip_magic_app. }
  rewrite Es. cbn [mbind option_bind].
  rewrite try_get_u16_app by done. cbn [mbind option_bind]. rewrite N.eqb_refl. cbn [negb].
  rewrite take_field_frame2 by done. cbn [mbind option_bind].
  rewrite exactly_length by apply length_be_bytes. cbn [mbind option_bind].
  rewrite take_field_frame2 by done. cbn [mbind option_bind].
  rewrite exactly_length by apply length_be_bytes. cbn [mbind option_bind].
  rewrite take_field_frame2 by done. cbn [mbind option_bind].
  rewrite take_field_frame2 by done. cbn [mbind option_bind]. cbv zeta.
  replace (take (length (P ++ frame2 D ++ record) - length (frame2 D ++ record))
             (P ++ frame2 D ++ record)) with P.
  2:{ rewrite (length_app P), Nat.add_sub. by rewrite take_app_length. }
  rewrite take_field_frame2 by done. cbn [mbind option_bind].
  rewrite exactly_length by apply digest_length. cbn [mbind option_bind].
  rewrite !string_from_utf8_of by done. cbn [mbind option_bind].
  rewrite bool_decide_true by done. rewrite newtype_bytes_canonical by done.
  rewrite be_value_be_bytes, N.mod_small by done. by destruct b.
Qed.

(** A stored record reads back: decoding what a locker encodes yields the
    same nonce, number, baseboard and record, and under another tenant's magic it
    yields nothing. *)
Theorem envelope_roundtrip magic magic' nonce sq b record :
  envelope_wf nonce sq b → length magic' = length magic → magic' ≠ magic →
  decode_envelope magic (encode_envelope magic nonce sq b record)
  = Some (mkEnvelope nonce sq b record) ∧
  decode_envelope magic' (encode_envelope magic nonce sq b record) = None.
Proof.
  intros Hwf Hl Hne. split; [by apply decode_encode_envelope|].
  unfold encode_envelope. rewrite put_frame2 by (unfold fits_u16; rewrite digest_length; done).
  rewrite (envelope_prefix_frames magic nonce sq b Hwf), <- !app_assoc.
  unfold decode_envelope. generalize (be_bytes 2 ENVELOPE_VERSION ++
    frame2 (newtype_to_be_bytes nonce) ++ frame2 (be_bytes 8 sq) ++
    frame2 (bytes_of_string (part_number b)) ++ frame2 (bytes_of_string (serial_number b)) ++
    frame2 (digest (magic ++ be_bytes 2 ENVELOPE_VERSION ++
    frame2 (newtype_to_be_bytes nonce) ++ frame2 (be_bytes 8 sq) ++
    frame2 (bytes_of_string (part_number b)) ++ frame2 (bytes_of_string (serial_number b))) record)
    ++ record). intros rest.
  assert (E : strip_magic magic' (magic ++ rest) = None); [|by rewrite E].
  revert magic' Hl Hne. clear. induction magic as [|m magic IH]; intros [|m' magic']; cbn; try done.
  intros [= Hl] Hne. case_bool_decide as Em; [|done]. subst. apply IH; [done|congruence].
Qed.

(** ** The pair rules *)

(** What a slot shows to a load. *)
Inductive Reading := Missing | Holds (e : Envelope) | Bad.

Definition reading (fails : nat → bool) (magic : list byte) (b : BaseboardId) (i : nat) (s : Slot) :
    Reading :=
  if fails i then Bad
  else
    match slot_file s with
    | None => Missing
    | Some bytes =>
      match decode_envelope magic bytes with
      | Some e => if bool_decide (e_baseboard e = b) then Holds e else Bad
      | None => Bad
      end
    end.

(** The verdict without the reason of a discard. *)
Inductive Ruling := RAdopt (record : list byte) | RRestore (record : list byte) | REmpty | RDiscard.

Definition ruling (v : Verdict) : Ruling :=
  match v with
  | Adopt r => RAdopt r
  | Restore r => RRestore r
  | Empty => REmpty
  | VDiscard _ => RDiscard
  end.

(** The table of the module's documentation, for a pair of slots. *)
Definition pair_rules (x y : Reading) : Ruling :=
  match x, y with
  | Bad, _ | _, Bad => RDiscard
  | Missing, Missing => REmpty
  | Holds e, Missing | Missing, Holds e => RRestore (e_record e)
  | Holds a, Holds b =>
    if decide (e_record a = e_record b) then RAdopt (e_record a)
    else if decide (e_nonce a = e_nonce b) then
      match e_seq a ?= e_seq b with
      | Lt => RAdopt (e_record b)
      | Gt => RAdopt (e_record a)
      | Eq => RDiscard
      end
    else RDiscard
  end.

(** The loop of [load] over the readings. *)
Lemma scan_reading fails magic b i s slots found :
  scan fails magic b i (s :: slots) found =
  match reading fails magic b i s with
  | Missing => scan fails magic b (S i) slots found
  | Holds e => scan fails magic b (S i) slots (found ++ [e])
  | Bad => match scan fails magic b i [s] found with Err r => Err r | Ok l => Ok l end
  end.
Proof.
  unfold reading. cbn [scan]. destruct (fails i); [done|]. destruct (slot_file s) as [bytes|]; [|done].
  destruct (decode_envelope magic bytes) as [e|]; [|done].
  destruct (decide (e_baseboard e = b)) as [Eb|Eb].
  - by rewrite (bool_decide_false (e_baseboard e ≠ b)), (bool_decide_true (e_baseboard e = b)) by auto.
  - by rewrite (bool_decide_true (e_baseboard e ≠ b)), (bool_decide_false (e_baseboard e = b)).
Qed.

Lemma scan_bad fails magic b i s found :
  reading fails magic b i s = Bad → ∃ r, scan fails magic b i [s] found = Err r.
Proof.
  unfold reading. cbn [scan]. destruct (fails i); [by eexists|].
  destruct (slot_file s) as [bytes|]; [|done]. destruct (decode_envelope magic bytes) as [e|]; [|by eexists].
  case_bool_decide; [done|]. intros _. rewrite bool_decide_true by done. by eexists.
Qed.

(** A load of two slots follows the documented table: equal records are
    adopted, a lone record restored, two records torn by one process resolve to
    the newer write, and anything foreign, corrupt, unreadable or contradictory
    is discarded. *)
Theorem load_follows_pair_rules fails io magic b nonce r c s0 s1 :
  let t := mkTenant magic b nonce r c [s0; s1] in
  ruling (load fails io t).1
  = pair_rules (reading fails magic b 0 s0) (reading fails magic b 1 s1).
Proof.
  cbv zeta. unfold load. cbn [t_slots t_magic t_baseboard]. rewrite scan_reading.
  destruct (reading fails magic b 0 s0) as [|e0|] eqn:E0.
  - rewrite scan_reading. destruct (reading fails magic b 1 s1) as [|e1|] eqn:E1; [done| |].
    + cbn. by rewrite bool_decide_true.
    + destruct (scan_bad _ _ _ _ _ [] E1) as [x ->]. done.
  - rewrite scan_reading. destruct (reading fails magic b 1 s1) as [|e1|] eqn:E1.
    + cbn. by rewrite bool_decide_true.
    + cbn [scan app]. cbn [forallb max_by_seq foldl pair_rules].
      destruct (decide (e_record e0 = e_record e1)) as [Er|Er].
      { rewrite !bool_decide_true by done. done. }
      rewrite (bool_decide_true (e_record e0 = e_record e0)), (bool_decide_false (e_record e1 = e_record e0))
        by (done || congruence). cbn [andb negb].
      destruct (N.compare_spec (e_seq e0) (e_seq e1)) as [Hc|Hc|Hc].
      * rewrite (proj2 (N.leb_le _ _)) by lia. rewrite !filter_cons, !decide_True by done.
        cbn. rewrite andb_false_r. cbn. by destruct (decide _).
      * rewrite (proj2 (N.leb_le _ _)) by lia. rewrite filter_cons_False by lia.
        rewrite filter_cons_True by done. cbn.
        destruct (decide (e_nonce e0 = e_nonce e1)); [rewrite !bool_decide_true by done; done|].
        by rewrite bool_decide_false.
      * rewrite (proj2 (N.leb_gt _ _)) by lia. rewrite filter_cons_True by done.
        rewrite filter_cons_False by lia. cbn.
        destruct (decide (e_nonce e0 = e_nonce e1)) as [En|En]; [rewrite !bool_decide_true by done; done|].
        rewrite (bool_decide_true (e_nonce e0 = e_nonce e0)), (bool_decide_false (e_nonce e1 = e_nonce e0))
          by (done || congruence). done.
    + destruct (scan_bad _ _ _ _ _ ([] ++ [e0]) E1) as [x ->]. done.
  - destruct (scan_bad _ _ _ _ _ [] E0) as [x ->]. by destruct (reading fails magic b 1 s1).
Qed.

(** ** Stores that succeed, fail or crash *)

Lemma write_slots_each io slots env :
  let r := write_slots io slots env in
  length r.2 = length slots ∧
  (r.1 = true → Forall (λ s, s = mkSlot true (Some env)) r.2) ∧
  Forall (λ s', slot_file s' = Some env ∨ slot_file s' = None ∨
                ∃ s, s ∈ slots ∧ slot_file s' = slot_file s) r.2.
Proof.
  cbv zeta. revert io; induction slots as [|s slots IH]; intros io; [done|].
  cbn [write_slots].
  assert (Hkeep : Forall (λ s', slot_file s' = Some env ∨ slot_file s' = None ∨
      ∃ x, x ∈ s :: slots ∧ slot_file s' = slot_file x) slots).
  { apply Forall_forall. intros x Hx. right; right. exists x. by split; [right|]. }
  assert (Hw : (slot_write (io O) s env).1 = true → (slot_write (io O) s env).2 = mkSlot true (Some env)).
  { unfold slot_write. repeat case_match; done. }
  assert (Hs : slot_file (slot_write (io O) s env).2 = Some env ∨
      slot_file (slot_write (io O) s env).2 = None ∨
      ∃ x, x ∈ s :: slots ∧ slot_file (slot_write (io O) s env).2 = slot_file x).
  { unfold slot_write. repeat case_match; cbn; eauto; right; right; exists s; by split; [left|]. }
  destruct (slot_write (io O) s env) as [[] s']; cbn [fst snd] in *.
  - destruct (IH (λ i, io (S i))) as (H1&H2&H3).
    destruct (write_slots (λ i, io (S i)) slots env) as [ok slots']. cbn [fst snd length] in *.
    split_and!; [lia| |].
    + intros Hok. constructor; auto.
    + constructor; [done|]. eapply Forall_impl; [exact H3|]. cbn.
      intros x [?|[?|(y&Hy&?)]]; eauto. right; right. exists y. by split; [right|].
  - split_and!; [done|done|by constructor].
Qed.

(** Everything a load can find is in some slot. *)
Lemma scan_found fails magic b i slots found l :
  scan fails magic b i slots found = Ok l →
  ∃ l', l = found ++ l' ∧ Forall (λ e, ∃ s bytes, s ∈ slots ∧ slot_file s = Some bytes ∧
    decode_envelope magic bytes = Some e ∧ e_baseboard e = b) l' ∧ (length l' <= length slots)%nat.
Proof.
  revert i found; induction slots as [|s slots IH]; intros i found; cbn [scan].
  - intros [= <-]. exists []. by rewrite app_nil_r.
  - assert (Hmono : ∀ l', Forall (λ e, ∃ s bytes, s ∈ slots ∧ slot_file s = Some bytes ∧
        decode_envelope magic bytes = Some e ∧ e_baseboard e = b) l' →
      Forall (λ e, ∃ s' bytes, s' ∈ s :: slots ∧ slot_file s' = Some bytes ∧
        decode_envelope magic bytes = Some e ∧ e_baseboard e = b) l').
    { intros l' Hl'. eapply Forall_impl; [exact Hl'|]. intros e (x&y&?&?). exists x, y.
      by split; [right|]. }
    destruct (fails i); [done|]. destruct (slot_file s) as [bytes|] eqn:Ef.
    + destruct (decode_envelope magic bytes) as [e|] eqn:Ed; [|done].
      case_bool_decide as Eb; [done|]. intros (l' & -> & Hl & Hlen)%IH. exists (e :: l').
      rewrite <- app_assoc. split_and!; [done| |cbn; lia]. constructor; [|auto].
      exists s, bytes. split_and!; [by left|done..].
    + intros (l' & -> & Hl & Hlen)%IH. exists l'. split_and!; [done|auto|cbn; lia].
Qed.

Lemma max_by_seq_elem e0 l : max_by_seq e0 l ∈ e0 :: l.
Proof.
  unfold max_by_seq. revert e0; induction l as [|e l IH]; intros e0; cbn; [set_solver|].
  specialize (IH (if e_seq e0 <=? e_seq e then e else e0)). case_match; set_solver.
Qed.

(** The record a load returns is held, intact and as this sled's own, by a slot. *)
Lemma load_held fails io t r :
  (load fails io t).1 = Adopt r ∨ (load fails io t).1 = Restore r →
  ∃ s bytes e, s ∈ t_slots t ∧ slot_file s = Some bytes ∧
    decode_envelope (t_magic t) bytes = Some e ∧ e_baseboard e = t_baseboard t ∧ e_record e = r.
Proof.
  unfold load. destruct (t_slots t) as [|s0 ss] eqn:Es; [intros []; done|]. rewrite <- Es.
  destruct (scan _ _ _ _ _ _) as [[|e0 found]|reason] eqn:Esc; [intros []; done| |intros []; done].
  apply scan_found in Esc as (l'&El&Hall&_). cbn in El. subst l'.
  rewrite Forall_forall in Hall.
  assert (Hgo : ∀ e, e ∈ e0 :: found → e_record e = r → ∃ s bytes e, s ∈ t_slots t ∧
    slot_file s = Some bytes ∧ decode_envelope (t_magic t) bytes = Some e ∧
    e_baseboard e = t_baseboard t ∧ e_record e = r).
  { intros e He Hr. destruct (Hall e He) as (s&bytes&?&?&?&?). by exists s, bytes, e. }
  destruct (negb (forallb _ _)).
  - destruct (negb (_ && _)); [intros []; done|].
    intros [[= E]|?]; [|done]. apply (Hgo _ (max_by_seq_elem e0 found) E).
  - destruct (_ <? _)%nat; intros [E|E]; try done; injection E as E; apply (Hgo e0); set_solver.
Qed.

Lemma scan_uniform magic b i slots bytes e found :
  Forall (λ s, slot_file s = Some bytes) slots →
  decode_envelope magic bytes = Some e → e_baseboard e = b →
  scan (λ _, false) magic b i slots found = Ok (found ++ replicate (length slots) e).
Proof.
  intros Hs Hd Hb. revert i found; induction Hs as [|s slots Hf Hs IH]; intros i found.
  - by rewrite app_nil_r.
  - cbn [scan]. rewrite Hf, Hd, bool_decide_false by auto. rewrite IH. by rewrite <- app_assoc.
Qed.

(** A stored record is the one loaded. *)
Lemma stored_is_loaded io io' t record t' nonce' r' c' :
  envelope_wf (t_nonce t) ((t_reserved t + 1) mod 2 ^ 64) (t_baseboard t) →
  t_slots t ≠ [] →
  store io t record = (Ok (), t') →
  (load (λ _, false) io' (mkTenant (t_magic t) (t_baseboard t) nonce' r' c' (t_slots t'))).1
  = Adopt record.
Proof.
  intros Hwf Hne. unfold store. destruct (t_slots t) as [|s0 ss] eqn:Es; [done|]. clear Hne.
  unfold commit_store. destruct (_ <=? _); [done|].
  destruct (write_slots_each io (s0 :: ss)
    (envelope t ((t_reserved t + 1) mod 2 ^ 64) record)) as (Hl&Hok&_).
  destruct (write_slots io _ _) as [[] slots']; cbn [fst snd] in *; [|done].
  intros [= <-]. cbn [t_slots]. specialize (Hok eq_refl).
  set (e := mkEnvelope (t_nonce t) ((t_reserved t + 1) mod 2 ^ 64) (t_baseboard t) record).
  unfold load. cbn [t_slots t_magic t_baseboard].
  destruct slots' as [|s1 ss']; [done|].
  rewrite (scan_uniform _ _ _ _ (envelope t ((t_reserved t + 1) mod 2 ^ 64) record) e).
  2:{ eapply Forall_impl; [exact Hok|]. by intros s ->. }
  2:{ by apply decode_encode_envelope. }
  2:{ done. }
  assert (Hsame : ∀ n, forallb (λ x, bool_decide (e_record x = e_record e)) (replicate n e) = true).
  { induction n as [|n IH]; [done|]. cbn [replicate forallb]. by rewrite IH, bool_decide_true by done. }
  change ([] ++ replicate (length (s1 :: ss')) e) with (replicate (length (s1 :: ss')) e).
  cbn [length replicate]. specialize (Hsame (S (length ss'))). cbn [replicate] in Hsame.
  rewrite Hsame. cbn [negb]. rewrite length_replicate, Nat.ltb_irrefl. done.
Qed.

(** A store that reports success survives: whoever loads the tenant next,
    in the same process or after a restart with a new nonce, adopts exactly the
    stored record. *)
Theorem store_then_load io io' t record t' nonce' r' c' :
  envelope_wf (t_nonce t) ((t_reserved t + 1) mod 2 ^ 64) (t_baseboard t) →
  t_slots t ≠ [] →
  store io t record = (Ok (), t') →
  (load (λ _, false) io' (mkTenant (t_magic t) (t_baseboard t) nonce' r' c' (t_slots t'))).1
  = Adopt record.
Proof. apply stored_is_loaded. Qed.

(** A load depends on which reads fail, not on how that is told. *)
Lemma scan_reads_ext fails fails' magic b i slots found :
  (∀ j, fails j = fails' j) → scan fails magic b i slots found = scan fails' magic b i slots found.
Proof.
  intros H. revert i found. induction slots as [|s slots IH]; intros i found; cbn; [done|]. rewrite H.
  by repeat (case_match; rewrite ?IH).
Qed.

Lemma load_reads_ext fails fails' io t : (∀ j, fails j = fails' j) → load fails io t = load fails' io t.
Proof. intros H. unfold load. by rewrite (scan_reads_ext fails fails'). Qed.

(** What a store leaves in the slots. *)
Lemma store_files io t record s :
  s ∈ t_slots (store io t record).2 →
  slot_file s = Some (envelope t ((t_reserved t + 1) mod 2 ^ 64) record) ∨ slot_file s = None ∨
  ∃ s0, s0 ∈ t_slots t ∧ slot_file s = slot_file s0.
Proof.
  unfold store. destruct (t_slots t) as [|s0 ss] eqn:Es; [cbn; rewrite Es; set_solver|].
  unfold commit_store. destruct (_ <=? _); [cbn; eauto|].
  destruct (write_slots_each io (s0 :: ss)
    (envelope t ((t_reserved t + 1) mod 2 ^ 64) record)) as (_&_&Heach).
  destruct (write_slots io _ _) as [[] slots']; cbn [fst snd t_slots] in *;
    rewrite Forall_forall in Heach; apply Heach.
Qed.

(** What a successful store leaves in the slots. *)
Lemma store_slots_length io t record : length (t_slots (store io t record).2) = length (t_slots t).
Proof.
  unfold store. destruct (t_slots t) as [|s0 ss] eqn:Es; [cbn; by rewrite Es|].
  unfold commit_store. destruct (_ <=? _); [done|].
  destruct (write_slots_each io (s0 :: ss) (envelope t ((t_reserved t + 1) mod 2 ^ 64) record)) as (Hl&_).
  by destruct (write_slots io _ _) as [[] slots'].
Qed.

Lemma store_ok_files io t record t' s :
  store io t record = (Ok (), t') → s ∈ t_slots t' →
  slot_file s = Some (envelope t ((t_reserved t + 1) mod 2 ^ 64) record).
Proof.
  unfold store. destruct (t_slots t) as [|s0 ss] eqn:Es; [intros [= <-]; rewrite Es; set_solver|].
  unfold commit_store. destruct (_ <=? _); [done|].
  destruct (write_slots_each io (s0 :: ss)
    (envelope t ((t_reserved t + 1) mod 2 ^ 64) record)) as (_&Hok&_).
  destruct (write_slots io _ _) as [[] slots']; cbn [fst snd] in *; [|done].
  intros [= <-] Hs. cbn [t_slots] in Hs. specialize (Hok eq_refl). rewrite Forall_forall in Hok.
  by rewrite (Hok s Hs).
Qed.

(** Reading slots whose files are all intact and this sled's. *)
Definition slot_envelope (magic : list byte) (s : Slot) : option Envelope := slot_file s ≫= decode_envelope magic.
Lemma scan_intact fails magic b i slots found :
  (∀ s bytes, s ∈ slots → slot_file s = Some bytes → ∃ e, decode_envelope magic bytes = Some e ∧ e_baseboard e = b) →
  scan fails magic b i slots found = Ok (found ++ omap (slot_envelope magic) slots) ∨
  ∃ j, scan fails magic b i slots found = Err (DiscardIo j) ∧ fails j = true.
Proof.
  revert i found; induction slots as [|s slots IH]; intros i found Hall; cbn [scan]; [left; by rewrite app_nil_r|].
  destruct (fails i) eqn:Ef; [right; eauto|]. cbn [omap list_omap]. unfold slot_envelope at 1.
  assert (Hrest : ∀ x bytes, x ∈ slots → slot_file x = Some bytes → ∃ e, decode_envelope magic bytes = Some e ∧ e_baseboard e = b)
    by (intros x bytes Hx; apply Hall; by right).
  destruct (slot_file s) as [bytes|] eqn:Es; cbn; [|by apply IH].
  destruct (Hall s bytes) as (e&->&Hb); [by left|done|]. rewrite bool_decide_false by auto.
  destruct (IH (S i) (found ++ [e]) Hrest) as [->|?]; [left; by rewrite <- app_assoc|by right].
Qed.

Lemma scan_length {A B} (f : A → option B) l : (length (omap f l) <= length l)%nat.
Proof. induction l as [|x l IH]; cbn; [done|]. destruct (f x); cbn; lia. Qed.

(** A load of two records: both are found, or one, or none; and two slots that one
    process tore apart, by writes of different numbers, are not in disagreement. *)
Lemma load_of_two fails io t (e1 e2 : Envelope) :
  (∀ s bytes, s ∈ t_slots t → slot_file s = Some bytes →
     ∃ e, decode_envelope (t_magic t) bytes = Some e ∧ (e = e1 ∨ e = e2) ∧ e_baseboard e = t_baseboard t) →
  match (load fails io t).1 with
  | Adopt r | Restore r => r = e_record e1 ∨ r = e_record e2
  | Empty => Forall (λ s, slot_file s = None) (t_slots t)
  | VDiscard _ => (∃ i, fails i = true) ∨
      (∃ s1 s2, s1 ∈ t_slots t ∧ s2 ∈ t_slots t ∧
         slot_envelope (t_magic t) s1 = Some e1 ∧ slot_envelope (t_magic t) s2 = Some e2) ∧
      e_record e1 ≠ e_record e2 ∧ (e_nonce e1 ≠ e_nonce e2 ∨ e_seq e1 = e_seq e2 ∨ 2 < length (t_slots t))%nat
  end.
Proof.
  intros Hall. destruct (scan_intact fails (t_magic t) (t_baseboard t) 0 (t_slots t) []) as [Hs|(j&Hs&Hj)].
  { intros s bytes Hin Hf. destruct (Hall s bytes Hin Hf) as (e&He&_&Hb). eauto. }
  2: { unfold load. destruct (t_slots t) as [|s0 ss]; [by apply Forall_nil|]. rewrite Hs. left. by exists j. }
  unfold load. destruct (t_slots t) as [|s0 ss] eqn:Et; [by apply Forall_nil|]. rewrite Hs.
  set (slots := s0 :: ss) in *. cbn [app].
  assert (Hl : ∀ e, e ∈ omap (slot_envelope (t_magic t)) slots → e = e1 ∨ e = e2).
  { intros e (s&Hin&He)%list_elem_of_omap. unfold slot_envelope in He. destruct (slot_file s) as [bytes|] eqn:Ef; [|done].
    destruct (Hall s bytes Hin Ef) as (e'&He'&?&_). cbn in He. congruence. }
  assert (Hlen := scan_length (slot_envelope (t_magic t)) slots).
  assert (Hin : ∀ e, e ∈ omap (slot_envelope (t_magic t)) slots → ∃ s, s ∈ slots ∧ slot_envelope (t_magic t) s = Some e)
    by (intros e (s&?&?)%list_elem_of_omap; eauto).
  destruct (omap (slot_envelope (t_magic t)) slots) as [|e0 found] eqn:Eo.
  { apply Forall_forall. intros s Hs'. destruct (slot_file s) as [bytes|] eqn:Ef; [|done].
    destruct (Hall s bytes Hs' Ef) as (e&He&_). assert (e ∈ omap (slot_envelope (t_magic t)) slots) as Hx.
    { apply list_elem_of_omap. exists s. unfold slot_envelope. by rewrite Ef. }
    rewrite Eo in Hx. by apply elem_of_nil in Hx. }
  assert (Hrec : ∀ e, e ∈ e0 :: found → e_record e = e_record e1 ∨ e_record e = e_record e2).
  { intros e [->| ->]%Hl; auto. }
  destruct (forallb (λ e, bool_decide (e_record e = e_record e0)) (e0 :: found)) eqn:Eall; cbn [negb].
  { destruct (_ <? _)%nat; apply (Hrec e0); by apply elem_of_cons; left. }
  destruct (negb _) eqn:Etorn; [|apply Hrec, max_by_seq_elem]. right.
  assert (Hboth : ∃ e, e ∈ found ∧ e_record e ≠ e_record e0).
  { destruct (decide (Exists (λ e, e_record e ≠ e_record e0) found)) as [(e&He&Hne)%Exists_exists|Hno]; [eauto|].
    apply not_true_iff_false in Eall. exfalso. apply Eall, forallb_forall. intros e He. apply bool_decide_eq_true, dec_stable.
    intros Hne. apply Hno, Exists_exists. apply list_elem_of_In, elem_of_cons in He as [->|He]; [done|eauto]. }
  destruct Hboth as (e&He&Hne). assert (Hne' : e_record e1 ≠ e_record e2).
  { destruct (Hl e0) as [->| ->]; [left|..]; destruct (Hl e) as [->| ->]; try done; by right. }
  split_and!; [|done|].
  - destruct (Hin e0) as (x&Hx&Ex); [left|]. destruct (Hin e) as (y&Hy&Ey); [by right|].
    destruct (Hl e0) as [->| ->]; [left|..]; (destruct (Hl e) as [->| ->]; [by right|..]); try done; eauto 7.
  - destruct (decide (e_nonce e1 = e_nonce e2)) as [En|]; [right|by left].
    destruct (decide (e_seq e1 = e_seq e2)) as [|Eq]; [by left|right].
    destruct found as [|e' [|]]; [by apply elem_of_nil in He| |unfold slots in *; cbn [length] in *; lia]. exfalso.
    apply list_elem_of_singleton in He as <-.
    assert (Hn : e_nonce e0 = e_nonce e ∧ e_seq e0 ≠ e_seq e).
    { destruct (Hl e0) as [->| ->]; [left|..]; (destruct (Hl e) as [->| ->]; [right; left|..]); try done; auto. }
    destruct Hn as [Hn Hq]. apply negb_true_iff in Etorn. unfold max_by_seq in Etorn. cbn [foldl] in Etorn.
    destruct (e_seq e0 <=? e_seq e); cbn [forallb] in Etorn; rewrite Hn, !bool_decide_true in Etorn by done; cbn [andb] in Etorn.
    + rewrite filter_cons_False, filter_cons_True in Etorn by done. done.
    + rewrite filter_cons_True, filter_cons_False in Etorn by auto. done.
Qed.

(** C34. A store that fails or crashes half way cannot corrupt.  Every slot held a
    record [old] of this sled, and a store of [new] is cut short at any slot, in any
    way.  What the next load returns is [old] or [new].  It finds no record only if
    every slot was wiped meanwhile.  It discards only if a slot cannot be read, or if
    slots hold both records and it cannot tell which is newer: they are of two lives of
    the server, or of one number, or there are more than two slots. *)
Theorem torn_store_safe io fails io' t new n0 q0 old nonce' r' c' v :
  envelope_wf (t_nonce t) ((t_reserved t + 1) mod 2 ^ 64) (t_baseboard t) →
  envelope_wf n0 q0 (t_baseboard t) →
  Forall (λ s, slot_file s = Some (encode_envelope (t_magic t) n0 q0 (t_baseboard t) old)) (t_slots t) →
  let slots := t_slots (store io t new).2 in
  (load fails io' (mkTenant (t_magic t) (t_baseboard t) nonce' r' c' slots)).1 = v →
  match v with
  | Adopt r | Restore r => r = old ∨ r = new
  | Empty => Forall (λ s, slot_file s = None) slots
  | VDiscard _ => (∃ i, fails i = true) ∨
      (∃ s1 s2, s1 ∈ slots ∧ s2 ∈ slots ∧
         slot_file s1 = Some (encode_envelope (t_magic t) n0 q0 (t_baseboard t) old) ∧
         slot_file s2 = Some (envelope t ((t_reserved t + 1) mod 2 ^ 64) new)) ∧
      old ≠ new ∧
      (n0 ≠ t_nonce t ∨ q0 = (t_reserved t + 1) mod 2 ^ 64 ∨ (2 < length (t_slots t))%nat)
  end.
Proof.
  intros Hwf Hwf0 Hall slots Hv. set (sq := (t_reserved t + 1) mod 2 ^ 64) in *.
  set (old_bytes := encode_envelope (t_magic t) n0 q0 (t_baseboard t) old) in *.
  set (e1 := mkEnvelope n0 q0 (t_baseboard t) old). set (e2 := mkEnvelope (t_nonce t) sq (t_baseboard t) new).
  assert (D1 : decode_envelope (t_magic t) old_bytes = Some e1) by (by apply decode_encode_envelope).
  assert (D2 : decode_envelope (t_magic t) (envelope t sq new) = Some e2) by (by apply decode_encode_envelope).
  assert (Hfile : ∀ s bytes, s ∈ slots → slot_file s = Some bytes → bytes = old_bytes ∨ bytes = envelope t sq new).
  { intros s bytes Hs Hf. rewrite Forall_forall in Hall. destruct (store_files _ _ _ _ Hs) as [E|[E|(x&Hx&E)]];
      [right; fold sq in E; congruence|congruence|left]. rewrite (Hall _ Hx) in E. congruence. }
  pose proof (load_of_two fails io' (mkTenant (t_magic t) (t_baseboard t) nonce' r' c' slots) e1 e2) as H2.
  cbn [t_slots t_magic t_baseboard] in H2. rewrite Hv in H2.
  assert (Hin : ∀ s bytes, s ∈ slots → slot_file s = Some bytes →
    ∃ e, decode_envelope (t_magic t) bytes = Some e ∧ (e = e1 ∨ e = e2) ∧ e_baseboard e = t_baseboard t).
  { intros s bytes Hs Hf. destruct (Hfile s bytes Hs Hf) as [->| ->]; eauto. }
  specialize (H2 Hin). destruct v as [r|r| |reason]; [done..|]. destruct H2 as [?|((s1&s2&Hs1&Hs2&E1&E2)&Hne&Hor)]; [by left|].
  right. cbn in Hne, Hor. split_and!; [|done|].
  - exists s1, s2. unfold slot_envelope in E1, E2. destruct (slot_file s1) as [b1|] eqn:F1; [|done].
    destruct (slot_file s2) as [b2|] eqn:F2; [|done]. cbn in E1, E2.
    assert (Hdiff : e1 ≠ e2) by (intros [= ? ? ?]; done).
    destruct (Hfile _ _ Hs1 F1) as [->| ->], (Hfile _ _ Hs2 F2) as [->| ->]; try done; destruct Hdiff; congruence.
  - by rewrite <- (store_slots_length io t new).
Qed.

(** ** Concurrent commits *)

(** Commits of one tenant, in the order their blocking halves run. *)
Fixpoint run_commits (committed : N) (slots : list Slot) (l : list (N * list byte)) : N * list Slot :=
  match l with
  | [] => (committed, slots)
  | (sq, env) :: l =>
    let '(_, committed, slots) := commit_store (λ _, io_ok) committed slots sq env in
    run_commits committed slots l
  end.

Lemma write_slots_ok slots env :
  Forall (λ s, slot_claimed s = true) slots →
  write_slots (λ _, io_ok) slots env = (true, replicate (length slots) (mkSlot true (Some env))).
Proof.
  induction 1 as [|s slots Hs Hss IH]; [done|]. cbn [write_slots]. unfold slot_write at 1.
  rewrite Hs. cbn. by rewrite IH.
Qed.

(** A delayed store cannot overwrite a newer one: however the blocking
    halves of a tenant's stores are reordered, on working slots the slots end up
    with the record of the highest sequence number, and stores that lost the
    race report that they were superseded. *)
Theorem newest_commit_wins committed slots l sq env :
  Forall (λ s, slot_claimed s = true) slots →
  (sq, env) ∈ l → committed < sq →
  (∀ q e, (q, e) ∈ l → q < sq ∨ (q, e) = (sq, env)) →
  (run_commits committed slots l).1 = sq ∧
  (run_commits committed slots l).2 = replicate (length slots) (mkSlot true (Some env)).
Proof.
  intros Hs Hin Hc Hmax. revert committed slots Hs Hc Hin Hmax.
  assert (Hdone : ∀ l slots, (∀ q e, (q, e) ∈ l → q < sq ∨ (q, e) = (sq, env)) →
    run_commits sq slots l = (sq, slots)).
  { clear. induction l as [|[q e] l IH]; intros slots Hmax; [done|]. cbn [run_commits].
    unfold commit_store. rewrite (proj2 (N.leb_le _ _)).
    - apply IH. set_solver.
    - destruct (Hmax q e) as [?|[= -> _]]; [set_solver|lia..]. }
  induction l as [|[q e] l IH]; intros committed slots Hs Hc Hin Hmax; [set_solver|].
  cbn [run_commits]. unfold commit_store. rewrite write_slots_ok by done.
  destruct (Hmax q e) as [Hq|[= -> ->]]; [set_solver| |].
  - assert (Hin' : (sq, env) ∈ l) by (apply elem_of_cons in Hin as [[= -> _]|?]; [lia|done]).
    destruct (q <=? committed).
    + apply IH; [done..|set_solver].
    + destruct (IH q (replicate (length slots) (mkSlot true (Some e)))) as [-> ->];
        [by apply Forall_replicate|done|done|set_solver|]. by rewrite length_replicate.
  - rewrite (proj2 (N.leb_gt _ _)) by done. rewrite Hdone; [done|set_solver].
Qed.
End locker.
