(* ===== verification/Slots.v ===== *)
(** * Slot locks ([server/src/locker.rs])

    Each slot directory holds a lock file, which a locker locks for as long as it
    lives; a slot whose directory is wiped is healed.  Here is one slot, its directory
    and lock files, and any number of processes with a locker each.  Every call of the
    file system is a step of its own, and the steps of processes interleave: creating
    the lock file, locking it, opening the parent, replacing a record (one call of the
    [atomicwrites] crate), recreating the directory.  What the file system refuses is
    told by the operation.  No one but a locker makes the directory. *)
From S2P Require Import Prelude.

(** Lock files are numbered as they are created; their locks are POSIX record locks:
    held by a process, and dropped when it closes the file or ends. *)
Abbreviation Inode := nat.
Abbreviation Pid := nat.

(** The slot's directory: its lock file, and the records in it. *)
Record SlotDir := mkSlotDir { sd_lock : option Inode; sd_files : gmap string (list byte) }.
Definition empty_dir : SlotDir := mkSlotDir None ∅.

(** What a process has of the slot: [SlotState], or where it is in claiming the slot
    ([Slot::claim]: the lock file is open; it is locked) or in a [Slot::write] that found
    the directory gone (it is to be made; it is there; the new lock file is open; it is
    locked, and the write is to be tried again). *)
Inductive Claim :=
| Broken
| Opened (lock : Inode)
| Entering (lock : Inode)
| Claimed (lock : Inode)
| Missing (lock : Inode) (file : string) (envelope : list byte)
| Healing (lock : Inode) (file : string) (envelope : list byte)
| Reopened (lock fresh : Inode) (file : string) (envelope : list byte)
| Healed (lock : Inode) (file : string) (envelope : list byte).

Record Disk := mkDisk {
  dk_dir : option SlotDir;
  dk_next : Inode;
  dk_held : gmap Inode Pid;
  dk_claims : gmap Pid Claim;
}.
Definition with_dir (k : Disk) (d : option SlotDir) : Disk := mkDisk d (dk_next k) (dk_held k) (dk_claims k).
Definition with_held (k : Disk) (held : gmap Inode Pid) : Disk := mkDisk (dk_dir k) (dk_next k) held (dk_claims k).
Definition with_claims (k : Disk) (claims : gmap Pid Claim) : Disk := mkDisk (dk_dir k) (dk_next k) (dk_held k) claims.
Definition claim_set (k : Disk) (p : Pid) (c : Claim) : Disk := with_claims k (<[p := c]> (dk_claims k)).

(** [File::create] of the lock file: the one that is there, or a new one; none where
    there is no directory, or the file system refuses. *)
Definition create_lock (create : bool) (k : Disk) : option (Inode * Disk) :=
  match dk_dir k with
  | Some d =>
    if create then
      Some match sd_lock d with
           | Some i => (i, k)
           | None =>
             (dk_next k, mkDisk (Some (mkSlotDir (Some (dk_next k)) (sd_files d))) (S (dk_next k)) (dk_held k) (dk_claims k))
           end
    else None
  | None => None
  end.

(** [fcntl_lock] of an open lock file. *)
Definition lock_take (p : Pid) (i : Inode) (k : Disk) : option Disk :=
  match dk_held k !! i with
  | Some q => if bool_decide (q = p) then Some k else None
  | None => Some (with_held k (<[i := p]> (dk_held k)))
  end.

(** A dropped [LockFile] closes its file. *)
Definition lock_drop (p : Pid) (i : Inode) (k : Disk) : Disk :=
  match dk_held k !! i with
  | Some q => if bool_decide (q = p) then with_held k (delete i (dk_held k)) else k
  | None => k
  end.

(** Whether the file [i] is not the lock file of a directory that is there: it was
    removed after it was opened. *)
Definition stale (k : Disk) (i : Inode) : bool :=
  match dk_dir k with Some d => negb (bool_decide (sd_lock d = Some i)) | None => true end.

(** [write_envelope]: the record is replaced as a whole. *)
Inductive Written := Wrote | NotFound | WriteError.
Definition write_envelope (file : string) (envelope : list byte) (ok : bool) (k : Disk) : Written * Disk :=
  match dk_dir k with
  | None => (if ok then NotFound else WriteError, k)
  | Some d =>
    if ok then (Wrote, with_dir k (Some (mkSlotDir (sd_lock d) (<[file := envelope]> (sd_files d))))) else (WriteError, k)
  end.

(** [mkdirat], where a directory that is there will do. *)
Definition make_dir (ok : bool) (k : Disk) : bool * Disk :=
  match dk_dir k with
  | Some _ => (true, k)
  | None => if ok then (true, with_dir k (Some empty_dir)) else (false, k)
  end.

(** What processes do, a call each, and what comes of it.  [Slot::claim] is [OpOpen],
    [OpLock], [OpParent]; [Slot::write] is [OpWrite], and if the directory is gone
    [OpMkdir], [OpReopen], [OpRelock], [OpRewrite].  A slot may be wiped, and a process
    may end, at any time. *)
Inductive Op :=
| OpOpen (p : Pid) (create : bool)
| OpLock (p : Pid)
| OpParent (p : Pid) (parent : bool)
| OpWrite (p : Pid) (file : string) (envelope : list byte) (ok : bool)
| OpMkdir (p : Pid) (ok : bool)
| OpReopen (p : Pid) (create : bool)
| OpRelock (p : Pid)
| OpRewrite (p : Pid) (ok : bool)
| OpExit (p : Pid)
| OpWipe.
(** A lock taken, by a claim or a heal, is of the file in the directory or of a stale one. *)
Inductive OpOutcome :=
| OkOpen | IsLocked | IsBroken | OkLocked (stale : bool) | OkClaimed
| OkWritten (p : Pid) | WriteFailed | IsMissing | OkMade | OkReopened | HealFailed | OkHealed (stale : bool) | Gone.

Definition slot_op (k : Disk) (op : Op) : option (OpOutcome * Disk) :=
  match op with
  | OpOpen p create =>
    match dk_claims k !! p with
    | Some _ => None
    | None =>
      match create_lock create k with
      | Some (i, k) => Some (OkOpen, claim_set k p (Opened i))
      | None => Some (IsBroken, claim_set k p Broken)
      end
    end
  | OpLock p =>
    match dk_claims k !! p with
    | Some (Opened i) =>
      match lock_take p i k with
      | Some k' => Some (OkLocked (stale k i), claim_set k' p (Entering i))
      | None => Some (IsLocked, with_claims k (delete p (dk_claims k)))
      end
    | _ => None
    end
  | OpParent p parent =>
    match dk_claims k !! p with
    | Some (Entering i) =>
      if parent then Some (OkClaimed, claim_set k p (Claimed i))
      else Some (IsBroken, claim_set (lock_drop p i k) p Broken)
    | _ => None
    end
  | OpWrite p file envelope ok =>
    match dk_claims k !! p with
    | Some Broken => Some (IsBroken, k)
    | Some (Claimed i) =>
      match write_envelope file envelope ok k with
      | (Wrote, k) => Some (OkWritten p, k)
      | (WriteError, k) => Some (WriteFailed, k)
      | (NotFound, k) => Some (IsMissing, claim_set k p (Missing i file envelope))
      end
    | _ => None
    end
  | OpMkdir p ok =>
    match dk_claims k !! p with
    | Some (Missing i file envelope) =>
      match make_dir ok k with
      | (true, k) => Some (OkMade, claim_set k p (Healing i file envelope))
      | (false, k) => Some (WriteFailed, claim_set k p (Claimed i))
      end
    | _ => None
    end
  | OpReopen p create =>
    match dk_claims k !! p with
    | Some (Healing i file envelope) =>
      match create_lock create k with
      | Some (j, k) => Some (OkReopened, claim_set k p (Reopened i j file envelope))
      | None => Some (HealFailed, claim_set k p (Claimed i))
      end
    | _ => None
    end
  | OpRelock p =>
    match dk_claims k !! p with
    | Some (Reopened i j file envelope) =>
      match lock_take p j k with
      | Some k' => Some (OkHealed (stale k j), claim_set (lock_drop p i k') p (Healed j file envelope))
      | None => Some (HealFailed, claim_set k p (Claimed i))
      end
    | _ => None
    end
  | OpRewrite p ok =>
    match dk_claims k !! p with
    | Some (Healed i file envelope) =>
      let '(r, k) := write_envelope file envelope ok k in
      Some (match r with Wrote => OkWritten p | _ => WriteFailed end, claim_set k p (Claimed i))
    | _ => None
    end
  | OpExit p =>
    match dk_claims k !! p with
    | Some _ =>
      Some (Gone, mkDisk (dk_dir k) (dk_next k) (filter (λ x, x.2 ≠ p) (dk_held k)) (delete p (dk_claims k)))
    | None => None
    end
  | OpWipe => Some (Gone, with_dir k None)
  end.

(** The slot as it is found, unlocked. *)
Definition disk_new (files : gmap string (list byte)) : Disk := mkDisk (Some (mkSlotDir None files)) 0 ∅ ∅.

(** A heal that ends without its lock, or a lock taken on a file that is no longer the
    directory's. *)
Definition slips (out : OpOutcome) : bool :=
  match out with HealFailed | OkLocked true | OkHealed true => true | _ => false end.

(** Runs without either. *)
Inductive healthy : Disk → Prop :=
| healthy_new files : healthy (disk_new files)
| healthy_step k op out k' : healthy k → slot_op k op = Some (out, k') → slips out = false → healthy k'.

(** A run of operations. *)
Fixpoint slot_ops (k : Disk) (ops : list Op) : option (list OpOutcome * Disk) :=
  match ops with
  | [] => Some ([], k)
  | op :: ops =>
    '(out, k) ← slot_op k op; '(outs, k) ← slot_ops k ops; Some (out :: outs, k)
  end.

(** ** One claimant at a time *)

(** The lock of a claim; of one that may write, or will when its claim ends well; and
    of one that has found the directory gone. *)
Definition claim_lock (c : Claim) : option Inode :=
  match c with
  | Broken | Opened _ => None
  | Entering i | Claimed i | Missing i _ _ | Healing i _ _ | Reopened i _ _ _ | Healed i _ _ => Some i
  end.
Definition active_lock (c : Claim) : option Inode :=
  match c with Entering i | Claimed i | Healed i _ _ => Some i | _ => None end.
Definition waiting_lock (c : Claim) : option Inode :=
  match c with Missing i _ _ | Healing i _ _ | Reopened i _ _ _ => Some i | _ => None end.
Definition is_missing (c : Claim) : bool := match c with Missing _ _ _ => true | _ => false end.
(** Claims of which there is one at a time. *)
Definition lone (c : Claim) : bool := match c with Entering _ | Claimed _ | Missing _ _ _ | Healed _ _ _ => true | _ => false end.

Record slot_ok (k : Disk) : Prop := mkSlotOk {
  ok_dir : ∀ d i, dk_dir k = Some d → sd_lock d = Some i → (i < dk_next k)%nat;
  ok_held : ∀ i p, dk_held k !! i = Some p → (i < dk_next k)%nat;
  ok_claim : ∀ p c i, dk_claims k !! p = Some c → claim_lock c = Some i → dk_held k !! i = Some p;
  ok_active : ∀ p c i d, dk_claims k !! p = Some c → active_lock c = Some i → dk_dir k = Some d → sd_lock d = Some i;
  ok_waiting : ∀ p c i d, dk_claims k !! p = Some c → waiting_lock c = Some i → dk_dir k = Some d → sd_lock d ≠ Some i;
  ok_one : ∀ p q c c', dk_claims k !! p = Some c → dk_claims k !! q = Some c' → lone c = true → lone c' = true → p = q;
  ok_missing : ∀ p c, dk_claims k !! p = Some c → is_missing c = true → dk_dir k = None;
}.

Lemma active_claim c i : active_lock c = Some i → claim_lock c = Some i.
Proof. by destruct c. Qed.
Lemma waiting_claim c i : waiting_lock c = Some i → claim_lock c = Some i.
Proof. by destruct c. Qed.
Lemma lone_active c : lone c = true → is_missing c = false → is_Some (active_lock c).
Proof. destruct c; cbn; try done; eauto. Qed.
#[local] Hint Resolve active_claim waiting_claim : core.

Lemma slot_ok_new files : slot_ok (disk_new files).
Proof. split; cbn; intros *; rewrite ?lookup_empty; try done. by intros [= <-]. Qed.

(** A claim that changes: [c'] keeps to what [c] held, and to the directory. *)
Lemma slot_ok_reclaim k p c c' :
  slot_ok k → dk_claims k !! p = Some c → (∀ i, claim_lock c' = Some i → claim_lock c = Some i) →
  (∀ i d, active_lock c' = Some i → dk_dir k = Some d → sd_lock d = Some i) →
  (∀ i d, waiting_lock c' = Some i → dk_dir k = Some d → sd_lock d ≠ Some i) →
  (lone c' = true → lone c = true) → (is_missing c' = true → dk_dir k = None) →
  slot_ok (claim_set k p c').
Proof.
  intros [Hd Hh Hc Ha Hw Ho Hm] Hp Hl Hact Hwait Hlone Hmiss. split; cbn; try done.
  - intros q c1 i. rewrite lookup_insert. case_decide; [intros [= <-]; subst|]; eauto.
  - intros q c1 i d. rewrite lookup_insert. case_decide; [intros [= <-]; subst|]; eauto.
  - intros q c1 i d. rewrite lookup_insert. case_decide; [intros [= <-]; subst|]; eauto.
  - assert (Hall : ∀ q c1, <[p := c']> (dk_claims k) !! q = Some c1 → lone c1 = true →
      ∃ c2, dk_claims k !! q = Some c2 ∧ lone c2 = true).
    { intros q c1. rewrite lookup_insert. case_decide; [|eauto]. intros [= <-] Hi. subst. eauto. }
    intros q q' c1 c2 H1 H2 A1 A2. apply Hall in H1 as (c3&H3&A3), H2 as (c4&H4&A4); [|done..]. by eapply Ho.
  - intros q c1. rewrite lookup_insert. case_decide; [intros [= <-]; subst|]; eauto.
Qed.

(** A claim that holds nothing. *)
Lemma slot_ok_unlocked k p c : slot_ok k → claim_lock c = None → lone c = false → slot_ok (claim_set k p c).
Proof.
  intros [Hd Hh Hc Ha Hw Ho Hm] Hn Hl. assert (is_missing c = false) as Hmiss by (by destruct c).
  assert (Ha' : active_lock c = None) by (by destruct c). assert (Hw' : waiting_lock c = None) by (by destruct c).
  split; cbn; try done.
  - intros q c1 i. rewrite lookup_insert. case_decide; [intros [= <-]; by rewrite Hn|apply Hc].
  - intros q c1 i d. rewrite lookup_insert. case_decide; [intros [= <-]; by rewrite Ha'|apply Ha].
  - intros q c1 i d. rewrite lookup_insert. case_decide; [intros [= <-]; by rewrite Hw'|apply Hw].
  - intros q q' c1 c2. rewrite !lookup_insert. repeat case_decide; [by subst|intros [= <-]; by rewrite Hl|intros ? [= <-]; by rewrite Hl|].
    apply Ho.
  - intros q c1. rewrite lookup_insert. case_decide; [intros [= <-]; by rewrite Hmiss|apply Hm].
Qed.

(** The lock file made. *)
Lemma create_lock_ok create k i k' :
  slot_ok k → create_lock create k = Some (i, k') →
  slot_ok k' ∧ dk_claims k' = dk_claims k ∧ ∃ d, dk_dir k' = Some d ∧ sd_lock d = Some i.
Proof.
  intros Hok. unfold create_lock. destruct (dk_dir k) as [d|] eqn:Ed; [|done]. destruct create; [|done].
  destruct (sd_lock d) as [j|] eqn:Ej; intros [= <- <-]; [eauto|]. split; [|split; [done|eexists; split; done]].
  destruct Hok as [Hd Hh Hc Ha Hw Ho Hm]. split; cbn; try done.
  - intros d' j [= <-] [= <-]. lia.
  - intros j q Hj%Hh. lia.
  - intros q c j d' Hq Hj [= <-]. specialize (Ha _ _ _ _ Hq Hj Ed). congruence.
  - intros q c j d' Hq Hj [= <-] [= <-]. apply waiting_claim, (Hc _ _ _ Hq), Hh in Hj. lia.
  - intros q c Hq Hj. by rewrite (Hm _ _ Hq Hj) in Ed.
Qed.

(** The lock of the directory's file can be taken by no one but the one who may write. *)
Lemma lock_take_alone p i k k' q c :
  slot_ok k → lock_take p i k = Some k' → stale k i = false → dk_claims k !! q = Some c → lone c = true → q = p.
Proof.
  intros Hok Ht Hs Hq Hl. unfold stale in Hs. destruct (dk_dir k) as [d|] eqn:Ed; [|done].
  apply negb_false_iff, bool_decide_eq_true in Hs.
  destruct (is_missing c) eqn:Em; [by rewrite (ok_missing _ Hok _ _ Hq Em) in Ed|].
  destruct (lone_active c Hl Em) as [j Hj]. assert (Hd := ok_active _ Hok _ _ _ _ Hq Hj Ed).
  apply active_claim, (ok_claim _ Hok _ _ _ Hq) in Hj. replace j with i in * by congruence. unfold lock_take in Ht.
  rewrite Hj in Ht. by case_bool_decide.
Qed.

Lemma slot_ok_took p i k k' c c' :
  slot_ok k → lock_take p i k = Some k' → stale k i = false → dk_claims k !! p = Some c → lone c = false →
  active_lock c' = Some i → slot_ok (claim_set k' p c').
Proof.
  intros Hok Ht Hs Hp Hl Hc. assert (Halone := λ q c', lock_take_alone p i k k' q c' Hok Ht Hs).
  assert (Hnone : ∀ q c', dk_claims k !! q = Some c' → lone c' = false).
  { intros q c1 Hq. destruct (lone c1) eqn:E; [|done]. assert (q = p) as -> by by eapply Halone. congruence. }
  unfold stale in Hs. destruct (dk_dir k) as [d|] eqn:Ed; [|done]. apply negb_false_iff, bool_decide_eq_true in Hs.
  assert (Hk' : dk_dir k' = Some d ∧ dk_next k' = dk_next k ∧ dk_claims k' = dk_claims k ∧ dk_held k' = <[i := p]> (dk_held k)).
  { unfold lock_take in Ht. destruct (dk_held k !! i) as [q|] eqn:Eh; [case_bool_decide; [|done]|]; injection Ht as <-; subst;
      split_and!; try done. by rewrite insert_id. }
  destruct Hk' as (Ed'&En&Ec&Eh). assert (Hm' : is_missing c' = false) by (by destruct c').
  destruct Hok as [Hd Hh Hcl Ha Hw Ho Hm]. split; cbn; rewrite ?Ed', ?En, ?Ec, ?Eh.
  - intros d' j [= <-]. by apply Hd.
  - intros j q. rewrite lookup_insert. case_decide; [intros _; subst; by eapply Hd|apply Hh].
  - intros q c1 j. rewrite !lookup_insert. case_decide as Hq; [subst|].
    + intros [= <-] Hj. apply active_claim in Hc. by rewrite decide_True by congruence.
    + intros Hc1 Hj. apply (Hcl _ _ _ Hc1) in Hj. case_decide; [subst|done]. unfold lock_take in Ht. rewrite Hj in Ht.
      case_bool_decide; [congruence|done].
  - intros q c1 j d' Hq Hj [= <-]. rewrite lookup_insert in Hq. case_decide; [congruence|].
    apply Hnone in Hq. by destruct c1.
  - intros q c1 j d' Hq Hj [= <-]. rewrite lookup_insert in Hq. case_decide; [injection Hq as <-; by destruct c'|by eapply Hw].
  - intros q q' c1 c2. rewrite !lookup_insert. repeat case_decide; [by subst|..].
    + intros _ H2%Hnone _. congruence.
    + intros H1%Hnone _. congruence.
    + intros H1%Hnone _. congruence.
  - intros q c1. rewrite lookup_insert. case_decide; [intros [= <-]; congruence|]. intros Hq Hmq. by rewrite (Hm _ _ Hq Hmq) in Ed.
Qed.

(** Dropping a lock that is no claim's. *)
Lemma slot_ok_drop p i k :
  slot_ok k → (∀ c, dk_claims k !! p = Some c → claim_lock c ≠ Some i) → slot_ok (lock_drop p i k).
Proof.
  intros Hok Hp. unfold lock_drop. destruct (dk_held k !! i) as [q|] eqn:Eh; [|done]. case_bool_decide as Hq; [subst q|done].
  destruct Hok as [Hd Hh Hc Ha Hw Ho Hm]. split; cbn; try done.
  - intros j q [_ Hj]%lookup_delete_Some. by eapply Hh.
  - intros q c j Hq Hj. assert (Hl := Hc _ _ _ Hq Hj). rewrite lookup_delete_Some. split; [|done].
    intros <-. assert (q = p) as -> by congruence. by eapply Hp.
Qed.

Lemma claim_set_drop k p i c : claim_set (lock_drop p i k) p c = lock_drop p i (claim_set k p c).
Proof. unfold lock_drop. cbn. destruct (dk_held k !! i); [|done]. by case_bool_decide. Qed.

(** The directory's files change, or it is wiped, or made anew by the one who missed it. *)
Lemma slot_ok_files k d files :
  slot_ok k → dk_dir k = Some d → slot_ok (with_dir k (Some (mkSlotDir (sd_lock d) files))).
Proof.
  intros [Hd Hh Hc Ha Hw Ho Hm] E. split; cbn; try done.
  - intros d' i [= <-] Hi. exact (Hd _ _ E Hi).
  - intros p c i d' Hp Hi [= <-]. exact (Ha _ _ _ _ Hp Hi E).
  - intros p c i d' Hp Hi [= <-]. exact (Hw _ _ _ _ Hp Hi E).
  - intros p c Hp Hi. by rewrite (Hm _ _ Hp Hi) in E.
Qed.
Lemma slot_ok_wipe k : slot_ok k → slot_ok (with_dir k None).
Proof. intros [Hd Hh Hc Ha Hw Ho Hm]. split; cbn; done. Qed.
Lemma slot_ok_made k p i file envelope :
  slot_ok k → dk_claims k !! p = Some (Missing i file envelope) →
  slot_ok (claim_set (with_dir k (Some empty_dir)) p (Healing i file envelope)).
Proof.
  intros [Hd Hh Hc Ha Hw Ho Hm] Hp.
  assert (Hnone : ∀ q c, q ≠ p → dk_claims k !! q = Some c → lone c = false).
  { intros q c Hne Hq. destruct (lone c) eqn:E; [|done]. by specialize (Ho _ _ _ _ Hq Hp E eq_refl). }
  split; cbn; try done.
  - by intros d j [= <-].
  - intros q c j. rewrite lookup_insert. case_decide; [intros [= <-] Hj; subst; by eapply Hc|by eapply Hc].
  - intros q c j d Hq Hj [= <-]. rewrite lookup_insert in Hq. case_decide; [by injection Hq as <-|].
    apply Hnone in Hq; [by destruct c|done].
  - by intros q c j d _ _ [= <-].
  - intros q q' c c'. rewrite !lookup_insert. repeat case_decide; [by subst|by intros [= <-]|by intros ? [= <-]|]. apply Ho.
  - intros q c. rewrite lookup_insert. case_decide; [by intros [= <-]|]. intros Hq Hmq. apply Hnone in Hq; [by destruct c|done].
Qed.

Lemma slot_ok_exit k p :
  slot_ok k → slot_ok (mkDisk (dk_dir k) (dk_next k) (filter (λ x, x.2 ≠ p) (dk_held k)) (delete p (dk_claims k))).
Proof.
  intros [Hd Hh Hc Ha Hw Ho Hm]. split; cbn; try done.
  - intros i q [Hi _]%map_lookup_filter_Some. by eapply Hh.
  - intros q c i [Hne Hq]%lookup_delete_Some Hi. apply map_lookup_filter_Some. split; [by eapply Hc|]. cbn. congruence.
  - intros q c i d [_ Hq]%lookup_delete_Some. by eapply Ha.
  - intros q c i d [_ Hq]%lookup_delete_Some. by eapply Hw.
  - intros q q' c c' [_ Hq]%lookup_delete_Some [_ Hq']%lookup_delete_Some. by eapply Ho.
  - intros q c [_ Hq]%lookup_delete_Some. by eapply Hm.
Qed.
Lemma slot_ok_leave k p : slot_ok k → slot_ok (with_claims k (delete p (dk_claims k))).
Proof.
  intros [Hd Hh Hc Ha Hw Ho Hm]. split; cbn; try done.
  - intros q c i [Hne Hq]%lookup_delete_Some. by eapply Hc.
  - intros q c i d [_ Hq]%lookup_delete_Some. by eapply Ha.
  - intros q c i d [_ Hq]%lookup_delete_Some. by eapply Hw.
  - intros q q' c c' [_ Hq]%lookup_delete_Some [_ Hq']%lookup_delete_Some. by eapply Ho.
  - intros q c [_ Hq]%lookup_delete_Some. by eapply Hm.
Qed.

(** What a write comes to. *)
Lemma write_envelope_ok file envelope ok k r k' :
  write_envelope file envelope ok k = (r, k') → slot_ok k →
  slot_ok k' ∧ dk_claims k' = dk_claims k ∧
  match r with
  | Wrote => ∃ d, dk_dir k' = Some d ∧ sd_files d !! file = Some envelope
  | NotFound => k' = k ∧ dk_dir k = None
  | WriteError => k' = k
  end.
Proof.
  unfold write_envelope. intros Hw Hok.
  destruct (dk_dir k) as [d|] eqn:Ed; destruct ok; injection Hw as <- <-; try done.
  split; [by apply slot_ok_files|]. split; [done|]. eexists. split; [done|]. cbn. by rewrite lookup_insert_eq.
Qed.

Lemma slot_op_ok k op out k' : slot_ok k → slot_op k op = Some (out, k') → slips out = false → slot_ok k'.
Proof.
  intros Hok. destruct op as [p create|p|p parent|p file envelope ok|p ok|p create|p|p ok|p|]; cbn [slot_op]; intros Hs Hout.
  - destruct (dk_claims k !! p) eqn:Ep; [done|]. destruct (create_lock create k) as [[i k1]|] eqn:Ec; injection Hs as <- <-.
    + apply create_lock_ok in Ec as (H1&_); [|done]. by apply slot_ok_unlocked.
    + by apply slot_ok_unlocked.
  - destruct (dk_claims k !! p) as [[| | | | | | |]|] eqn:Ep; try done.
    destruct (lock_take p lock k) as [k1|] eqn:Et; injection Hs as <- <-; [|by apply slot_ok_leave].
    cbn in Hout. destruct (stale k lock) eqn:Es; [done|]. by eapply slot_ok_took.
  - destruct (dk_claims k !! p) as [[|i|i| | | | |]|] eqn:Ep; try done. destruct parent; injection Hs as <- <-.
    + eapply slot_ok_reclaim; try done. intros j d [= <-]. by apply (ok_active _ Hok _ _ _ _ Ep).
    + rewrite claim_set_drop. apply slot_ok_drop; [by apply slot_ok_unlocked|]. intros c. cbn. rewrite lookup_insert_eq. by intros [= <-].
  - destruct (dk_claims k !! p) as [[| | |i| | | |]|] eqn:Ep; try done; [by injection Hs as <- <-|].
    destruct (write_envelope file envelope ok k) as [r k1] eqn:Ew. apply write_envelope_ok in Ew as (H1&Hc&Hr); [|done].
    destruct r; injection Hs as <- <-; try done. destruct Hr as [-> Hdir]. eapply slot_ok_reclaim; try done; cbn; congruence.
  - destruct (dk_claims k !! p) as [[| | | |i f e| | |]|] eqn:Ep; try done. assert (Hdir := ok_missing _ Hok _ _ Ep eq_refl).
    unfold make_dir in Hs. rewrite Hdir in Hs. destruct ok; injection Hs as <- <-; [by apply slot_ok_made|].
    eapply slot_ok_reclaim; try done; cbn; congruence.
  - destruct (dk_claims k !! p) as [[| | | | |i f e| |]|] eqn:Ep; try done.
    destruct (create_lock create k) as [[j k1]|] eqn:Ec; injection Hs as <- <-; [|done].
    apply create_lock_ok in Ec as (H1&Hc&_); [|done]. rewrite <- Hc in Ep.
    eapply slot_ok_reclaim; try done. intros l d [= <-]. by apply (ok_waiting _ H1 _ _ _ _ Ep).
  - destruct (dk_claims k !! p) as [[| | | | | |i j f e|]|] eqn:Ep; try done.
    destruct (lock_take p j k) as [k1|] eqn:Et; injection Hs as <- <-; [|done].
    cbn in Hout. destruct (stale k j) eqn:Es; [done|]. rewrite claim_set_drop.
    apply slot_ok_drop; [by eapply slot_ok_took|]. intros c. cbn. rewrite lookup_insert_eq. intros [= <-] [= ->].
    unfold stale in Es. destruct (dk_dir k) as [d|] eqn:Ed; [|done]. apply negb_false_iff, bool_decide_eq_true in Es.
    by apply (ok_waiting _ Hok _ _ _ _ Ep eq_refl Ed).
  - destruct (dk_claims k !! p) as [[| | | | | | |i f e]|] eqn:Ep; try done.
    destruct (write_envelope f e ok k) as [r k1] eqn:Ew. apply write_envelope_ok in Ew as (H1&Hc&_); [|done].
    injection Hs as _ <-. rewrite <- Hc in Ep. eapply slot_ok_reclaim; try done. intros l d [= <-]. by apply (ok_active _ H1 _ _ _ _ Ep).
  - destruct (dk_claims k !! p); [|done]. injection Hs as <- <-. by apply slot_ok_exit.
  - injection Hs as <- <-. by apply slot_ok_wipe.
Qed.

Lemma healthy_ok k : healthy k → slot_ok k.
Proof. induction 1; [apply slot_ok_new|by eapply slot_op_ok]. Qed.

(** What a write that ended well leaves: a claim, and a directory. *)
Lemma written_claimed k op p k' :
  slot_ok k → slot_op k op = Some (OkWritten p, k') →
  ∃ i d file envelope, dk_claims k' !! p = Some (Claimed i) ∧ dk_dir k' = Some d ∧ sd_files d !! file = Some envelope.
Proof.
  intros Hok Hs. destruct op as [q create|q|q parent|q file envelope ok|q ok|q create|q|q ok|q|]; cbn [slot_op] in Hs.
  all: try (destruct (dk_claims k !! q) as [c|] eqn:Ep; [|try done]; try (destruct c as [|i|i|i|i f e|i f e|i j f e|i f e]); try done).
  - by destruct (create_lock create k) as [[? ?]|].
  - by destruct (lock_take q i k).
  - by destruct parent.
  - destruct (write_envelope file envelope ok k) as [r k1] eqn:Ew. apply write_envelope_ok in Ew as (H1&Hc&Hd); [|done].
    destruct r; try done. injection Hs as <- <-. destruct Hd as (d&Hd&Hf). exists i, d, file, envelope. by rewrite Hc.
  - by destruct (make_dir ok k) as [[] ?].
  - by destruct (create_lock create k) as [[? ?]|].
  - by destruct (lock_take q j k).
  - destruct (write_envelope f e ok k) as [r k1] eqn:Ew. apply write_envelope_ok in Ew as (H1&Hc&Hd); [|done].
    destruct r; injection Hs as Hq <-; try done. subst q. destruct Hd as (d&Hd&Hf). exists i, d, f, e. cbn. by rewrite lookup_insert_eq.
  - done.
Qed.

(** C35. One process writes a slot.  Whatever is wiped, claimed, healed and ended in
    between, call by call, as long as no heal ends without its lock and no lock is taken
    on a lock file that has been removed from under its opener: a process that has
    written the slot holds the lock of the lock file that is in the directory it wrote
    to; no other process has a claim with which it could write; and no other can get
    one, for whoever has the directory's lock file open is refused its lock until the
    writer ends or the slot is wiped. *)
Theorem writers_hold_the_lock k op p k' :
  healthy k → slot_op k op = Some (OkWritten p, k') →
  ∃ d i, dk_dir k' = Some d ∧ sd_lock d = Some i ∧ dk_held k' !! i = Some p ∧
    (∀ q c, dk_claims k' !! q = Some c → is_Some (active_lock c) → q = p) ∧
    (∀ q out k'', slot_op k' (OpLock q) = Some (out, k'') → out = IsLocked ∨ out = OkLocked true) ∧
    (∀ q out k'', slot_op k' (OpRelock q) = Some (out, k'') → out = HealFailed ∨ out = OkHealed true).
Proof.
  intros Hk Hs. apply healthy_ok in Hk. assert (Hok : slot_ok k') by by eapply slot_op_ok.
  destruct (written_claimed _ _ _ _ Hk Hs) as (i&d&_&_&Hc&Hd&_).
  assert (Hone : ∀ q i k'', lock_take q i k' = Some k'' → stale k' i = false → q = p).
  { intros q j k'' Ht Hst. symmetry. by eapply lock_take_alone. }
  exists d, i. split_and!; [done|by eapply (ok_active _ Hok)|by eapply (ok_claim _ Hok)|..].
  - intros q c Hq [j Hj]. eapply (ok_one _ Hok); [exact Hq|exact Hc| |done]. by destruct c.
  - intros q out k''. cbn [slot_op]. destruct (dk_claims k' !! q) as [[|j| | | | | |]|] eqn:Eq; try done.
    destruct (lock_take q j k') eqn:Et; intros [= <- <-]; [|by left]. destruct (stale k' j) eqn:Es; [by right|].
    apply Hone in Et; [congruence|done].
  - intros q out k''. cbn [slot_op]. destruct (dk_claims k' !! q) as [[| | | | | |j l f e|]|] eqn:Eq; try done.
    destruct (lock_take q l k') eqn:Et; intros [= <- <-]; [|by left]. destruct (stale k' l) eqn:Es; [by right|].
    apply Hone in Et; [congruence|done].
Qed.

(** ** The two slips *)

(** A failed heal ends one write and not the claim.  The first process's slot is wiped;
    it makes the directory anew, and the second claims it before the first takes the
    lock.  The first fails to heal the slot, as it should, but keeps the lock it had on
    the file that was wiped; and its next write succeeds, in the slot whose lock the
    second process holds. *)
Definition failed_heal (r r' : list byte) : list Op :=
  [OpOpen 1 true; OpLock 1; OpParent 1 true; OpWipe; OpWrite 1 "record" r true; OpMkdir 1 true;
   OpOpen 2 true; OpLock 2; OpParent 2 true; OpReopen 1 true; OpRelock 1; OpWrite 1 "record" r' true].

Example failed_heal_writes_unlocked files r r' :
  ∃ k d, slot_ops (disk_new files) (failed_heal r r') =
      Some ([OkOpen; OkLocked false; OkClaimed; Gone; IsMissing; OkMade; OkOpen; OkLocked false; OkClaimed; OkReopened;
             HealFailed; OkWritten 1], k) ∧
    dk_dir k = Some d ∧ sd_lock d = Some 1%nat ∧ dk_held k !! 1%nat = Some 2%nat ∧ sd_files d !! "record" = Some r'.
Proof.
  eexists _, _. split; [reflexivity|]. split; [reflexivity|]. split; [reflexivity|]. split; reflexivity.
Qed.

(** A lock can be taken on a lock file that is gone.  The second process opens the lock
    file that the first holds; the slot is wiped, and the first heals it, dropping its
    old lock; then the second locks the file it opened, and both write. *)
Definition stale_lock (r r' : list byte) : list Op :=
  [OpOpen 1 true; OpLock 1; OpParent 1 true; OpOpen 2 true; OpWipe; OpWrite 1 "record" r true; OpMkdir 1 true;
   OpReopen 1 true; OpRelock 1; OpRewrite 1 true; OpLock 2; OpParent 2 true; OpWrite 2 "record" r' true].

Example stale_lock_writes_unlocked files r r' :
  ∃ k d, slot_ops (disk_new files) (stale_lock r r') =
      Some ([OkOpen; OkLocked false; OkClaimed; OkOpen; Gone; IsMissing; OkMade; OkReopened; OkHealed false; OkWritten 1;
             OkLocked true; OkClaimed; OkWritten 2], k) ∧
    dk_dir k = Some d ∧ sd_lock d = Some 1%nat ∧ dk_held k !! 1%nat = Some 1%nat ∧ sd_files d !! "record" = Some r'.
Proof.
  eexists _, _. split; [reflexivity|]. split; [reflexivity|]. split; [reflexivity|]. split; reflexivity.
Qed.

(** A run in which a wiped slot is healed, and written. *)
Definition healed_run (r : list byte) : list Op :=
  [OpOpen 1 true; OpLock 1; OpParent 1 true; OpWipe; OpWrite 1 "record" r true; OpOpen 2 true; OpMkdir 1 true;
   OpOpen 3 true; OpReopen 1 true; OpRelock 1; OpRewrite 1 true].

Lemma healthy_ops k ops outs k' :
  healthy k → slot_ops k ops = Some (outs, k') → forallb (λ out, negb (slips out)) outs = true → healthy k'.
Proof.
  revert k outs. induction ops as [|op ops IH]; intros k outs Hk; cbn; [by intros [= <- <-]|].
  destruct (slot_op k op) as [[out k1]|] eqn:Eo; [|done]. cbn. destruct (slot_ops k1 ops) as [[outs1 k2]|] eqn:Es; [|done].
  cbn. intros [= <- <-]. cbn. intros [Hn1%negb_true_iff Hn2]%andb_prop. eapply IH; [|exact Es|done].
  by eapply healthy_step.
Qed.

Definition disk0 : Disk := disk_new ∅.
Definition disk_healed : Disk := match slot_ops disk0 (take 10 (healed_run [])) with Some (_, k) => k | None => disk0 end.
Definition disk_written : Disk := match slot_op disk_healed (OpRewrite 1 true) with Some (_, k) => k | None => disk0 end.

Lemma writers_hold_the_lock_witness :
  ∃ d i, dk_dir disk_written = Some d ∧ sd_lock d = Some i ∧ dk_held disk_written !! i = Some 1%nat.
Proof.
  destruct (writers_hold_the_lock disk_healed (OpRewrite 1 true) 1 disk_written) as (d&i&Hd&Hi&Hh&_).
  - eapply (healthy_ops disk0 (take 10 (healed_run []))); [apply healthy_new|reflexivity|reflexivity].
  - reflexivity.
  - exists d, i. split; [exact Hd|]. split; [exact Hi|exact Hh].
Defined.
