(* ===== verification/Executor.v ===== *)
(** * The job executor's front end ([server/src/executor.rs])

    The synchronous half of the executor: command screening, the bounded launch
    queue, stop tokens, and the launcher that commits the execution boundary
    before it spawns.  Spawning the process itself is operating-system work. *)
From S2P Require Import Prelude External Codephrases Targets Keys Jobs Messages Boundary.

Definition LAUNCH_CHANNEL_CAPACITY : nat := 16.

Definition dash : Ascii.ascii := Ascii.ascii_of_N 45.

(** [Executor::check_command]. *)
Definition check_command (j : JobStartRequest) : result () ProcessError :=
  match command j with
  | String c _ => if Ascii.eqb c dash then Err PInvalidCommand else Ok ()
  | EmptyString => Ok ()
  end.

(** A [watch] channel for an interactive job's attachment point, and the
    cancellation token of a job, are identified by numbers. *)
Abbreviation ChannelId := N.

Section executor.
Context `{!Rumors}.

(** [Launch]: one validated job on its way to the launcher. *)
Record Launch := mkLaunch {
  l_request : VerifiedJob;
  l_params : JobStartParams;
  l_attachment : ChannelId;
  l_boundary : Boundary;
}.

(** [Executor]: [ex_open] is whether the event channel is still open (it closes
    on shutdown), [ex_stop] the jobs whose stop token is held, [ex_launch] the
    launch queue, [ex_cancelled] the jobs whose token was cancelled, and
    [ex_refused] the refusal events announced so far. *)
Record Executor := mkExecutor {
  ex_open : bool;
  ex_stop : gset JobId;
  ex_launch : list Launch;
  ex_cancelled : gset JobId;
  ex_refused : list (JobId * ProcessError);
}.

Definition launch_full_error : ProcessError := PIo "queueing the job for launch" "no available capacity".

(** [Executor::job_start]: queue a launch, or refuse it when the queue is full. *)
Definition ex_job_start (e : Executor) (request : VerifiedJob) (params : JobStartParams)
    (attachment : ChannelId) (boundary : Boundary) : Executor :=
  if negb (ex_open e) then e
  else
    let id := job_id (payload (signed request)) in
    if (length (ex_launch e) <? LAUNCH_CHANNEL_CAPACITY)%nat then
      mkExecutor true ({[id]} ∪ ex_stop e)
        (ex_launch e ++ [mkLaunch request params attachment boundary])
        (ex_cancelled e) (ex_refused e)
    else
      mkExecutor true (ex_stop e ∖ {[id]}) (ex_launch e) (ex_cancelled e)
        (ex_refused e ++ [(id, launch_full_error)]).

(** [Executor::job_stop]: cancel a held token. *)
Definition ex_job_stop (e : Executor) (id : JobId) : Executor :=
  if bool_decide (id ∈ ex_stop e) then
    mkExecutor (ex_open e) (ex_stop e ∖ {[id]}) (ex_launch e) ({[id]} ∪ ex_cancelled e) (ex_refused e)
  else e.

(** [Executor::job_stopped]: drop the token of a job that ended. *)
Definition ex_job_stopped (e : Executor) (id : JobId) : Executor :=
  mkExecutor (ex_open e) (ex_stop e ∖ {[id]}) (ex_launch e) (ex_cancelled e) (ex_refused e).

(** [Executor::in_flight]. *)
Definition in_flight (e : Executor) : gset JobId := ex_stop e.

(** One turn of the launcher task of [Executor::new]: advance the boundary
    durably, then spawn; a boundary that cannot be written refuses the job. *)
Inductive LaunchOutcome :=
| Spawned (l : Launch)
| Refused (id : JobId) (error : ProcessError).

Definition launch_next (write : Boundary → bool) (store : BoundaryStore) (e : Executor) :
    option (LaunchOutcome * BoundaryStore * Executor) :=
  match ex_launch e with
  | [] => None
  | l :: rest =>
    let e' := mkExecutor (ex_open e) (ex_stop e) rest (ex_cancelled e) (ex_refused e) in
    Some match advance write store (l_boundary l) with
         | Ok store' => (Spawned l, store', e')
         | Err _ =>
           (Refused (job_id (payload (signed (l_request l))))
              (PIo "recording the execution boundary" ""), store, e')
         end
  end.

(** The launcher over a whole queue. *)
Fixpoint launch_all (fuel : nat) (write : Boundary → bool) (store : BoundaryStore) (e : Executor) :
    list LaunchOutcome * BoundaryStore * Executor :=
  match fuel with
  | O => ([], store, e)
  | S fuel =>
    match launch_next write store e with
    | None => ([], store, e)
    | Some (o, store, e) =>
      let '(os, store, e) := launch_all fuel write store e in (o :: os, store, e)
    end
  end.

(** The launches an outcome list spawned, in order. *)
Definition spawned (os : list LaunchOutcome) : list Launch :=
  omap (λ o, match o with Spawned l => Some l | Refused _ _ => None end) os.

Lemma launch_all_spec write store e os store' e' :
  launch_all (length (ex_launch e)) write store e = (os, store', e') →
  ex_launch e' = [] ∧
  spawned os = filter (λ l, write (l_boundary l) = true) (ex_launch e) ∧
  stored store' = match last (spawned os) with Some l => Some (l_boundary l) | None => stored store end.
Proof.
  destruct e as [op stp ls canc ref]. cbn [ex_launch].
  revert store os store' e'; induction ls as [|l ls IH]; intros store os store' e'.
  - intros [= <- <- <-]. done.
  - cbn [length launch_all launch_next ex_launch]. unfold advance.
    destruct (write (l_boundary l)) eqn:Ew; cbv beta iota zeta.
    + destruct (launch_all _ _ _ _) as [[os1 st1] e1] eqn:E1. intros [= <- <- <-].
      apply IH in E1 as (H1&H2&H3). split; [done|].
      change (spawned (Spawned l :: os1)) with (l :: spawned os1).
      rewrite filter_cons_True, last_cons, H3, H2 by done. split; [done|].
      by destruct (last (filter _ ls)).
    + destruct (launch_all _ _ _ _) as [[os1 st1] e1] eqn:E1. intros [= <- <- <-].
      apply IH in E1 as (H1&H2&H3). split; [done|].
      rewrite filter_cons_False by congruence. done.
Qed.

(** No job starts without a durable commitment: draining the launch queue
    spawns, in queue order, exactly the jobs whose boundary could be written,
    and the store ends up naming the last of them. *)
Theorem launch_commits_before_spawn write store e os store' e' :
  launch_all (length (ex_launch e)) write store e = (os, store', e') →
  ex_launch e' = [] ∧
  Forall (λ l, write (l_boundary l) = true) (spawned os) ∧
  spawned os `sublist_of` ex_launch e ∧
  stored store' = match last (spawned os) with Some l => Some (l_boundary l) | None => stored store end.
Proof.
  intros (H1&H2&H3)%launch_all_spec. split_and!; [done| | |done]; rewrite H2.
  - apply Forall_forall. intros l Hl. by apply list_elem_of_filter in Hl as [? _].
  - apply sublist_filter.
Qed.
End executor.
