(* ===== verification/State.v ===== *)
(** * The session state machine ([server/src/state.rs])

    Every sled runs this machine over causally ordered gossip.  The file holds
    its data and one definition per method of [State], in the order of the
    source; [StateFacts.v] proves the invariants.  Logging is not modelled.

    Channels created with [watch::channel] are numbered: [st_next_channel] is
    the next fresh number, [st_attachments] the receiving ends this sled holds,
    and the sending end travels in the [Run] output. *)
From S2P Require Import Prelude External Codephrases Hash Targets Keys Jobs Messages.
From S2P Require Import Rack Certs History Boundary Executor.
Open Scope N_scope.

Definition MAX_QUEUED_JOBS : N := 1000.
Definition MAX_PENDING_STARTS : nat := 10.

(** [QueuedJob]: a job waiting for its turn in the causal chain. *)
Record QueuedJob := mkQueuedJob {
  q_job : VerifiedJob;
  q_params : JobStartParams;
  q_sleds : gset BaseboardId;
  q_replayed : bool;
}.
Abbreviation QueuedJobs := (gmap JobId QueuedJob).

(** [PendingStart]: a session start that no verified job has confirmed yet. *)
Record PendingStart := mkPendingStart {
  ps_preimage : SessionPreimage;
  ps_actor : KeyId;
  ps_live : bool;
}.

(** [SessionState]. *)
Record ActiveSession := mkActive {
  a_seq : SessionSeq;
  a_live : bool;
  a_session : Session;
  a_queued_jobs : QueuedJobs;
  a_attach_grants : gmap KeyId Access;
}.

Inductive SessionState :=
| Inactive
| Active (a : ActiveSession).

(** [SessionState::session], [queued_jobs], [rank]. *)
Definition state_session (s : SessionState) : option Session :=
  match s with Inactive => None | Active a => Some (a_session a) end.

Definition state_queued_jobs (s : SessionState) : option QueuedJobs :=
  match s with Inactive => None | Active a => Some (a_queued_jobs a) end.

(** Where a session stands: signer-assigned sequence number, then identifier. *)
Abbreviation SessionRank := (SessionSeq * SessionId)%type.

Definition state_rank (s : SessionState) : option SessionRank :=
  match s with Inactive => None | Active a => Some (a_seq a, sess_id (a_session a)) end.

(** The derived order on [Option<(SessionSeq, SessionId)>]. *)
Definition session_rank_leb (x y : SessionRank) : bool :=
  (phrase x.1 <? phrase y.1) || ((phrase x.1 =? phrase y.1) && (phrase x.2 <=? phrase y.2)).

Definition opt_rank_leb (x y : option SessionRank) : bool :=
  match x, y with
  | None, _ => true
  | Some _, None => false
  | Some x, Some y => session_rank_leb x y
  end.

(** [SessionState::attach_access]. *)
Definition attach_access (s : SessionState) (kid : KeyId) : option Access :=
  match s with
  | Inactive => None
  | Active a =>
    if bool_decide (started_by (a_session a) = Some kid) then Some ReadWrite
    else a_attach_grants a !! kid
  end.

Inductive Admission := Admit | Refuse.

Section state.
Context {Irum : Rumors} {Ibb : BaseboardOps} {Isha : Sha3} {Ilru : LruCache} {Ipki : Pki}.

(** [Past]: this incarnation's relationship to its own past. *)
Record Past := mkPast {
  birth : Version;
  committed : option Boundary;
  network : Network;
  zombies : gset JobId;
  reaped : gset JobId;
  adjudicated : option JobId;
}.

Definition past_new (birth : Version) (committed : option Boundary) (network : Network) : Past :=
  mkPast birth committed network ∅ ∅ None.

(** [Past::screen]: may the active session run a job here? *)
Definition screen (p : Past) (session : SessionId) (seq : SessionSeq) (live : bool) : Admission :=
  match committed p with
  | Some b =>
    if (phrase (b_seq b) <? phrase seq)
       || (bool_decide (b_network b = network p) && bool_decide (b_session b = session))
    then Admit else Refuse
  | None => if live then Admit else Refuse
  end.

(** [Past::boundary]: the boundary record, if it is of this universe. *)
Definition past_boundary (p : Past) : option Boundary :=
  match committed p with
  | Some b => if bool_decide (b_network b = network p) then Some b else None
  | None => None
  end.

(** [Past::is_live]. *)
Definition past_is_live (p : Past) (v : Version) : bool := version_ge v (birth p).

(** [Input], [Run], [Output]. *)
Inductive Input :=
| ICubbies (c : Cubbies)
| IGossip (v : Version) (m : VersionedMessage)
| IDrained.

Record Run := mkRun {
  r_job : VerifiedJob;
  r_params : JobStartParams;
  r_boundary : Boundary;
  r_attachment : ChannelId;
}.

Inductive Output :=
| ORun (r : Run)
| ORan (s : JobStatus)
| OStop (id : JobId)
| OGossip (m : Message).

(** [Output::job_event]. *)
Definition job_event (own : BaseboardId) (e : JobEvent) : Output := OGossip (MEvent own (EvJob e)).

(** [State]. *)
Record State := mkState {
  st_rack : Rack;
  st_history : JobHistory;
  st_session : SessionState;
  st_pending_starts : lru SessionId PendingStart;
  st_attachments : gmap JobId ChannelId;
  st_certs : Certificates;
  st_past : Past;
  st_next_channel : ChannelId;
}.

Definition own (st : State) : BaseboardId := own_baseboard (st_rack st).

Definition with_rack (st : State) (x : Rack) : State :=
  mkState x (st_history st) (st_session st) (st_pending_starts st) (st_attachments st)
    (st_certs st) (st_past st) (st_next_channel st).
Definition with_history (st : State) (x : JobHistory) : State :=
  mkState (st_rack st) x (st_session st) (st_pending_starts st) (st_attachments st)
    (st_certs st) (st_past st) (st_next_channel st).
Definition with_session (st : State) (x : SessionState) : State :=
  mkState (st_rack st) (st_history st) x (st_pending_starts st) (st_attachments st)
    (st_certs st) (st_past st) (st_next_channel st).
Definition with_pending (st : State) (x : lru SessionId PendingStart) : State :=
  mkState (st_rack st) (st_history st) (st_session st) x (st_attachments st)
    (st_certs st) (st_past st) (st_next_channel st).
Definition with_attachments (st : State) (x : gmap JobId ChannelId) : State :=
  mkState (st_rack st) (st_history st) (st_session st) (st_pending_starts st) x
    (st_certs st) (st_past st) (st_next_channel st).
Definition with_past (st : State) (x : Past) : State :=
  mkState (st_rack st) (st_history st) (st_session st) (st_pending_starts st) (st_attachments st)
    (st_certs st) x (st_next_channel st).

(** [State::new]; [current] is the build's [VersionInfo::current()]. *)
Definition state_new (current : VersionInfo) (own_baseboard : BaseboardId)
    (trust_anchors : list Certificate) (past : Past) : result State KeyError :=
  rbind (certificates_new trust_anchors) (λ certs,
    Ok (mkState (rack_new current own_baseboard) history_empty Inactive
          (lru_new MAX_PENDING_STARTS) ∅ certs past 0)).

(** [State::pending_rank], [is_live], [is_job_known], [own_running_jobs], [zombies]. *)
Definition pending_rank (st : State) (sid : SessionId) : option SessionRank :=
  (λ start, (seq (ps_preimage start), sid)) <$> lru_peek (st_pending_starts st) sid.

Definition is_live (st : State) (v : Version) : bool := past_is_live (st_past st) v.

Definition is_job_known (st : State) (id : JobId) : bool :=
  history_contains (st_history st) id ||
  match state_queued_jobs (st_session st) with
  | Some q => bool_decide (is_Some (q !! id))
  | None => false
  end.

Definition own_running_jobs (st : State) : gset JobId :=
  set_map fst (filter (λ p : JobId * BaseboardId, p.2 = own st) (dom (running (st_history st)))).

Definition state_zombies (st : State) : gset JobId :=
  filter (λ id, is_Some (running (st_history st) !! (id, own st))) (zombies (st_past st)).

(** [State::skip_queued_jobs], in queue order. *)
Definition skip_queued_jobs (st : State) (now : DateTime) : list Output :=
  match state_queued_jobs (st_session st) with
  | None => []
  | Some q =>
    omap (λ id,
      match q !! id with
      | Some qj =>
        if negb (q_replayed qj) && bool_decide (own st ∈ q_sleds qj)
        then Some (job_event (own st) (ESkipped id now SessionEnded)) else None
      | None => None
      end) (sorted_elements phrase_le (dom q))
  end.

(** [State::reap_zombies]. *)
Definition reap_zombies (st : State) (now : DateTime) : State * list Output :=
  let fresh := filter (.∉ reaped (st_past st)) (sorted_elements phrase_le (state_zombies st)) in
  let p := st_past st in
  (with_past st (mkPast (birth p) (committed p) (network p) (zombies p)
                   (list_to_set fresh ∪ reaped p) (adjudicated p)),
   map (λ id, job_event (own st) (EError id now PInterrupted)) fresh).

(** [State::adjudicate_boundary]. *)
Definition adjudicate_boundary (st : State) (now : DateTime) : State * list Output :=
  match past_boundary (st_past st) with
  | None => (st, [])
  | Some b =>
    let id := b_job b in
    if bool_decide (adjudicated (st_past st) = Some id) then (st, [])
    else
      let p := st_past st in
      let st := with_past st (mkPast (birth p) (committed p) (network p) (zombies p)
                                (reaped p) (Some id)) in
      let witnessed :=
        match get_job_status (st_history st) id with
        | Some m => bool_decide (is_Some (m !! own st))
        | None => false
        end in
      if witnessed then (st, [])
      else
        let events :=
          match b_status b with
          | Some (Stopped _ t1 t2 res out) => [EStart id t1; EStop id t2 res out]
          | Some (Error _ t e) => [EError id t e]
          | Some _ | None => [EError id now PInterrupted]
          end in
        (st, map (job_event (own st)) events)
  end.

(** [State::settle]. *)
Definition settle (st : State) (now : DateTime) (net : option Network) : State * list Output :=
  let '(st, outputs) := reap_zombies st now in
  match net with
  | Some _ => let '(st, more) := adjudicate_boundary st now in (st, outputs ++ more)
  | None => (st, outputs)
  end.

(** [State::enqueue_job]. *)
Definition enqueue_job (st : State) (now : DateTime) (queued : QueuedJob) (actor : KeyId) : State :=
  match st_session st with
  | Inactive => st
  | Active a =>
    let id := job_id (payload (signed (q_job queued))) in
    let replayed := q_replayed queued in
    let targeted := bool_decide (own st ∈ q_sleds queued) in
    if negb replayed && history_contains (st_history st) id then st
    else if negb replayed && (MAX_QUEUED_JOBS <=? N.of_nat (size (a_queued_jobs a)))
            && bool_decide (a_queued_jobs a !! id = None) then st
    else
      let q := <[id := queued]> (a_queued_jobs a) in
      let st := with_session st
        (Active (mkActive (a_seq a) (a_live a) (a_session a) q (a_attach_grants a))) in
      if targeted && negb replayed then
        with_history st
          (set_job_status (st_history st) id (own st) (Queued id now actor) None (Some q))
      else st
  end.

(** The transition [cancel_job] applies. *)
Definition cancel_transition (id : JobId) (now : DateTime) (actor : KeyId) (old : option JobStatus) :
    option JobStatus :=
  match old with
  | None | Some (Queued _ _ _) => Some (Cancelled id now actor)
  | _ => None
  end.

(** [State::cancel_job]. *)
Definition cancel_job (st : State) (now : DateTime) (id : JobId) (actor : KeyId) (replayed : bool) :
    State :=
  match st_session st with
  | Inactive => st
  | Active a =>
    let q := delete id (a_queued_jobs a) in
    let cancel_here :=
      match a_queued_jobs a !! id with
      | Some queued => bool_decide (own st ∈ q_sleds queued)
      | None => negb (history_contains (st_history st) id)
      end in
    let st := with_session st
      (Active (mkActive (a_seq a) (a_live a) (a_session a) q (a_attach_grants a))) in
    if negb replayed && cancel_here then
      with_history st
        (transition_job_status (st_history st) id (own st) None
           (cancel_transition id now actor) (Some q)).2
    else st
  end.

(** ** Releasing jobs *)

(** What [release_ready_jobs] changes in its loop. *)
Record Release := mkRelease {
  rl_session : Session;
  rl_queue : QueuedJobs;
  rl_attachments : gmap JobId ChannelId;
  rl_next_channel : ChannelId;
  rl_outputs : list Output;
}.

(** The boundary a released job commits to. *)
Definition boundary_for (net : Network) (s : Session) (seq : SessionSeq) (job : SignedJob) :
    Boundary :=
  mkBoundary net (sess_id s) seq (job_id (payload job))
    (next_job_id (sess_id s) (LSome job)) None.

(** Whether the history lets a job run: no status anywhere, or queued here. *)
Definition runnable (st : State) (id : JobId) : bool :=
  match get_job_status (st_history st) id with
  | Some m => match m !! own st with Some (Queued _ _ _) => true | _ => false end
  | None => true
  end.

(** The body of the loop, for the queued job [q] at the chain's next position. *)
Definition release_one (st : State) (now : DateTime) (net : Network) (seq : SessionSeq) (live : bool)
    (q : QueuedJob) (r : Release) : Release :=
  let admission := screen (st_past st) (sess_id (rl_session r)) seq live in
  let request := q_job q in
  let job := signed request in
  let id := job_id (payload job) in
  let advance (attachments : gmap JobId ChannelId) (next : ChannelId) (out : list Output) :=
    mkRelease (job_started (rl_session r) job)
      (delete (session_next_job_id (rl_session r)) (rl_queue r))
      attachments next (rl_outputs r ++ out) in
  let keep := advance (rl_attachments r) (rl_next_channel r) in
  if bool_decide (own st ∈ q_sleds q) then
    match check_target (st_rack st) (payload job) with
    | Some reason =>
      keep (if q_replayed q then [] else [job_event (own st) (ESkipped id now reason)])
    | None =>
      match admission with
      | Refuse =>
        keep (if q_replayed q then []
              else [job_event (own st) (ESkipped id now SessionSuperseded)])
      | Admit =>
        if runnable st id then
          match check_command (payload job) with
          | Err error => keep [job_event (own st) (EError id now error)]
          | Ok _ =>
            let ch := rl_next_channel r in
            advance (<[id := ch]> (rl_attachments r)) (ch + 1)
              [ORun (mkRun request (q_params q) (boundary_for net (rl_session r) seq job) ch)]
          end
        else keep []
      end
    end
  else keep [].

(** The [loop]: stop when the chain's next job is not queued.  Every turn takes
    a job off the queue, so its size is enough fuel. *)
Fixpoint release_loop (fuel : nat) (st : State) (now : DateTime) (net : Network) (seq : SessionSeq)
    (live : bool) (r : Release) : Release :=
  match fuel with
  | O => r
  | S fuel =>
    match rl_queue r !! session_next_job_id (rl_session r) with
    | None => r
    | Some q => release_loop fuel st now net seq live (release_one st now net seq live q r)
    end
  end.

(** The drain without a universe: advance the chain, run nothing. *)
Fixpoint drain_loop (fuel : nat) (s : Session) (q : QueuedJobs) : Session * QueuedJobs :=
  match fuel with
  | O => (s, q)
  | S fuel =>
    match q !! session_next_job_id s with
    | None => (s, q)
    | Some queued =>
      drain_loop fuel (job_started s (signed (q_job queued))) (delete (session_next_job_id s) q)
    end
  end.

(** [State::release_ready_jobs]. *)
Definition release_ready_jobs (st : State) (now : DateTime) (net : option Network) :
    State * list Output :=
  match st_session st with
  | Inactive => (st, [])
  | Active a =>
    match net with
    | None =>
      let '(s, q) := drain_loop (size (a_queued_jobs a)) (a_session a) (a_queued_jobs a) in
      (with_session st (Active (mkActive (a_seq a) (a_live a) s q (a_attach_grants a))), [])
    | Some net =>
      let r := release_loop (size (a_queued_jobs a)) st now net (a_seq a) (a_live a)
                 (mkRelease (a_session a) (a_queued_jobs a) (st_attachments st)
                    (st_next_channel st) []) in
      (mkState (st_rack st) (st_history st)
         (Active (mkActive (a_seq a) (a_live a) (rl_session r) (rl_queue r) (a_attach_grants a)))
         (st_pending_starts st) (rl_attachments r) (st_certs st) (st_past st) (rl_next_channel r),
       rl_outputs r)
    end
  end.

(** ** Handlers *)

(** [State::handle_session_request]. *)
Definition handle_session_request (st : State) (now : DateTime) (net : option Network)
    (v : Version) (actor : KeyId) (req : SessionRequest) : State * list Output :=
  match req with
  | SRStart preimage =>
    let sid := preimage_session_id preimage in
    let duplicate :=
      match st_session st with
      | Active a => bool_decide (sess_id (a_session a) = sid)
      | Inactive => false
      end in
    let stale :=
      match st_session st with
      | Active a => opt_rank_leb (Some (seq preimage, sid)) (state_rank (st_session st))
      | Inactive => false
      end in
    if duplicate then (st, [])
    else if stale then (st, [])
    else if lru_contains (st_pending_starts st) sid then (st, [])
    else
      (with_pending st (lru_put (st_pending_starts st) sid
         (mkPendingStart preimage actor (is_live st v))), [])
  | SRStop sid =>
    match st_session st with
    | Active a =>
      if bool_decide (sess_id (a_session a) = sid) then
        if bool_decide (started_by (a_session a) ≠ Some actor) then (st, [])
        else (with_session st Inactive, skip_queued_jobs st now)
      else (st, [])
    | Inactive => (st, [])
    end
  | SRAllowAttach sid kid access =>
    match st_session st with
    | Active a =>
      if bool_decide (sess_id (a_session a) = sid)
         && bool_decide (started_by (a_session a) = Some actor) then
        (with_session st (Active (mkActive (a_seq a) (a_live a) (a_session a) (a_queued_jobs a)
           (<[kid := access]> (a_attach_grants a)))), [])
      else (st, [])
    | Inactive => (st, [])
    end
  | SRDenyAttach sid kid =>
    match st_session st with
    | Active a =>
      if bool_decide (sess_id (a_session a) = sid)
         && bool_decide (started_by (a_session a) = Some actor) then
        (with_session st (Active (mkActive (a_seq a) (a_live a) (a_session a) (a_queued_jobs a)
           (delete kid (a_attach_grants a)))), [])
      else (st, [])
    | Inactive => (st, [])
    end
  | SRSkip sid id =>
    let replayed := negb (is_live st v) in
    match st_session st with
    | Active a =>
      if bool_decide (sess_id (a_session a) = sid) then
        if bool_decide (started_by (a_session a) ≠ Some actor) then (st, [])
        else
          let '(moved, s) := skip_job (a_session a) id in
          if moved then
            let st := with_session st (Active (mkActive (a_seq a) (a_live a) s
                        (a_queued_jobs a) (a_attach_grants a))) in
            release_ready_jobs (cancel_job st now id actor replayed) now net
          else (st, [])
      else (st, [])
    | Inactive => (st, [])
    end
  end.

(** [State::confirm_start]. *)
Definition confirm_start (st : State) (now : DateTime) (sid : SessionId) : State * list Output :=
  let '(popped, pending) := lru_pop (st_pending_starts st) sid in
  let st := with_pending st pending in
  match popped with
  | None => (st, [])
  | Some start =>
    if opt_rank_leb (Some (seq (ps_preimage start), sid)) (state_rank (st_session st))
    then (st, [])
    else
      let s := session_started sid (ps_actor start) in
      let s :=
        match past_boundary (st_past st) with
        | Some b => if bool_decide (b_session b = sid) then resume_at s (b_successor b) else s
        | None => s
        end in
      let outputs := skip_queued_jobs st now in
      (with_session st (Active (mkActive (seq (ps_preimage start)) (ps_live start) s ∅ ∅)), outputs)
  end.

(** [State::handle_job_request]. *)
Definition handle_job_request (st : State) (now : DateTime) (net : option Network)
    (v : Version) (actor : KeyId) (req : JobRequest) : State * list Output :=
  match req with
  | JRStart sj params sleds =>
    match certs_verify (st_certs st) sj with
    | Err _ => (st, [])
    | Ok job =>
      let sid := session_id (payload sj) in
      let live := is_live st v in
      let '(st, out1) := confirm_start st now sid in
      if match state_session (st_session st) with
         | Some s => bool_decide (sess_id s = sid) | None => false end
      then
        let queued := mkQueuedJob job params sleds (negb live) in
        let '(st, out2) := release_ready_jobs (enqueue_job st now queued actor) now net in
        (st, out1 ++ out2)
      else
        let id := job_id (payload sj) in
        if live && bool_decide (own st ∈ sleds) && negb (history_contains (st_history st) id)
        then (st, out1 ++ [job_event (own st) (ESkipped id now SessionEnded)])
        else (st, out1)
    end
  | JRStop id =>
    if bool_decide ((s ← state_session (st_session st); started_by s) ≠ Some actor) then (st, [])
    else if negb (is_job_known st id) then (st, [])
    else
      let replayed := negb (is_live st v) in
      (cancel_job st now id actor replayed, [OStop id])
  end.

(** The status transitions of [State::handle_event]. *)
Definition stop_transition (id : JobId) (at_ : DateTime) (res : result Z ProcessError)
    (output : JobOutputState) (old : option JobStatus) : option JobStatus :=
  match old with
  | Some (Started _ t) => Some (Stopped id t at_ res output)
  | Some (Error _ t PInterrupted) => Some (Stopped id t at_ res output)
  | _ => None
  end.

Definition error_transition (id : JobId) (at_ : DateTime) (error : ProcessError)
    (old : option JobStatus) : option JobStatus :=
  match old with
  | None | Some (Queued _ _ _) | Some (Started _ _) => Some (Error id at_ error)
  | _ => None
  end.

Definition skipped_transition (id : JobId) (at_ : DateTime) (reason : SkipReason)
    (old : option JobStatus) : option JobStatus :=
  match old with
  | None | Some (Queued _ _ _) | Some (Started _ _) => Some (Skipped id at_ reason)
  | _ => None
  end.

(** Leaving the zombie set and closing the attachment of a job that ended here. *)
Definition end_own_job (st : State) (b : BaseboardId) (id : JobId) : State :=
  if bool_decide (b = own st) then
    let p := st_past st in
    with_past (with_attachments st (delete id (st_attachments st)))
      (mkPast (birth p) (committed p) (network p) (zombies p ∖ {[id]}) (reaped p) (adjudicated p))
  else st.

Definition transition_in (st : State) (v : Version) (b : BaseboardId) (id : JobId)
    (f : option JobStatus → option JobStatus) : State * option JobStatus :=
  let '(new, h) := transition_job_status (st_history st) id b (Some (version_rank v)) f
                     (state_queued_jobs (st_session st)) in
  (with_history st h, new).

(** Whether a sled already reported how a job ended. *)
Definition settled_on (h : JobHistory) (id : JobId) (b : BaseboardId) : bool :=
  match status_on h id b with Some s => is_terminal s | None => false end.

(** The [JobEvent] arms of [State::handle_event]; [None] as status when the arm
    reports none, with the early return of a start for a settled job. *)
Definition handle_job_event (st : State) (v : Version) (b : BaseboardId) (e : JobEvent) :
    State * option JobStatus :=
  match e with
  | EStart id at_ =>
    if settled_on (st_history st) id b then (st, None)
    else
      let p := st_past st in
      let st :=
        if bool_decide (b = own st) && negb (past_is_live p v) then
          with_past st (mkPast (birth p) (committed p) (network p) ({[id]} ∪ zombies p)
                          (reaped p) (adjudicated p))
        else st in
      (with_history st (set_job_status (st_history st) id b (Started id at_)
         (Some (version_rank v)) (state_queued_jobs (st_session st))), None)
  | EStop id at_ res output =>
    transition_in (end_own_job st b id) v b id (stop_transition id at_ res output)
  | EError id at_ error =>
    transition_in (end_own_job st b id) v b id (error_transition id at_ error)
  | ESkipped id at_ reason =>
    transition_in st v b id (skipped_transition id at_ reason)
  end.

(** [State::handle_event]. *)
Definition handle_event (st : State) (v : Version) (b : BaseboardId) (e : Event) :
    State * list Output :=
  match e with
  | EvJob je =>
    let '(st, status) := handle_job_event st v b je in
    (st, match status with
         | Some s => if is_terminal s && bool_decide (b = own st) then [ORan s] else []
         | None => []
         end)
  | EvVersion info => (with_rack st (known_version (st_rack st) b info).2, [])
  end.

(** [State::update] and [State::step]. *)
Definition state_update (st : State) (now : DateTime) (net : option Network) (v : Version)
    (m : VersionedMessage) : State * list Output :=
  match m with
  | V0 (MRequest (RSession r)) => handle_session_request st now net v (actor r) (request r)
  | V0 (MRequest (RJob r)) => handle_job_request st now net v (actor r) (request r)
  | V0 (MEvent b e) => handle_event st v b e
  | Unknown version _ => (with_rack st (unknown_version (st_rack st) version).2, [])
  end.

Definition step (st : State) (now : DateTime) (net : option Network) (i : Input) :
    State * list Output :=
  match i with
  | ICubbies c => (with_rack st (set_cubbies (st_rack st) c), [])
  | IGossip v m => state_update st now net v m
  | IDrained => settle st now net
  end.

(** ** Reachable states *)

(** One input of the driver: the clock, the connection and the input. *)
Record Tick := mkTick { t_now : DateTime; t_net : option Network; t_input : Input }.

(** Run the machine over a sequence of inputs, collecting the outputs. *)
Fixpoint run_ticks (st : State) (ts : list Tick) : State * list Output :=
  match ts with
  | [] => (st, [])
  | t :: ts =>
    let '(st, o1) := step st (t_now t) (t_net t) (t_input t) in
    let '(st, o2) := run_ticks st ts in (st, o1 ++ o2)
  end.

(** States a life of the server can be in: born with [state_new], then stepped. *)
Inductive reachable (current : VersionInfo) (own_b : BaseboardId) (trust : list Certificate)
    (birth0 : Version) (committed0 : option Boundary) (network0 : Network) : State → Prop :=
| reachable_new st :
    state_new current own_b trust (past_new birth0 committed0 network0) = Ok st →
    reachable current own_b trust birth0 committed0 network0 st
| reachable_step st now net i :
    reachable current own_b trust birth0 committed0 network0 st →
    reachable current own_b trust birth0 committed0 network0 (step st now net i).1.
End state.
