(* ===== verification/Sled.v ===== *)
(** * One sled's server: driver, executor and boundary store together
    ([StateManager::run], [apply], [apply_outputs], [drain_ready] and
    [enter_universe] of [server/src/state.rs])

    The driver feeds requests, executor events, gossip, cubby maps and universe
    changes to the state machine and applies its outputs.  Next to it run the
    launcher, which commits the execution boundary before it spawns, and one
    task per recorded ending.  Each of them takes a turn at a time, in any
    order: an event of the sled is one such turn, or a restart of the process.
    What the runtime decides (clocks, versions, which messages are already
    delivered, how a durable write ends) is part of the event. *)
From S2P Require Import Prelude External Codephrases Hash Targets Keys Jobs Messages.
From S2P Require Import Rack Certs History Boundary Executor State.
Open Scope N_scope.

(** How a durable write ends: it landed; it failed and left the old record; or
    it failed although the new record is what the next load finds (a crash
    after the first slot was written, see [Locker.v]). *)
Inductive Durability := Landed | FailedOld | FailedNew.

Definition landed (w : Durability) : bool := match w with Landed => true | _ => false end.

Section sled.
Context {Irum : Rumors} {Ibb : BaseboardOps} {Isha : Sha3} {Ilru : LruCache} {Ipki : Pki}.
(** What a server is started with: its build, its baseboard, its anchors. *)
Variables (current : VersionInfo) (own_b : BaseboardId) (trust : list Certificate).

(** The locals of [StateManager::run], its executor, the boundary store in
    memory and on disk, and the endings whose recording is under way.  [sd_sent]
    is what this server gossiped into its current universe.  [sd_spawned] and
    [sd_before] record the launches that were spawned since the state was
    created, and before that, in this and earlier processes. *)
Record Sled := mkSled {
  sd_state : State;
  sd_exec : Executor;
  sd_store : BoundaryStore;
  sd_disk : option Boundary;
  sd_recording : list JobStatus;
  sd_network : option Network;
  sd_doomed : gset JobId;
  sd_requests_empty : bool;
  sd_events_empty : bool;
  sd_sent : list Message;
  sd_spawned : list Launch;
  sd_before : list Launch;
}.

Definition with_sent (s : Sled) (m : Message) : Sled :=
  mkSled (sd_state s) (sd_exec s) (sd_store s) (sd_disk s) (sd_recording s) (sd_network s)
    (sd_doomed s) (sd_requests_empty s) (sd_events_empty s) (sd_sent s ++ [m])
    (sd_spawned s) (sd_before s).
Definition with_exec (s : Sled) (e : Executor) (recording : list JobStatus) : Sled :=
  mkSled (sd_state s) e (sd_store s) (sd_disk s) recording (sd_network s)
    (sd_doomed s) (sd_requests_empty s) (sd_events_empty s) (sd_sent s) (sd_spawned s) (sd_before s).
Definition with_state (s : Sled) (st : State) : Sled :=
  mkSled st (sd_exec s) (sd_store s) (sd_disk s) (sd_recording s) (sd_network s)
    (sd_doomed s) (sd_requests_empty s) (sd_events_empty s) (sd_sent s) (sd_spawned s) (sd_before s).
Definition with_boundary (s : Sled) (store : BoundaryStore) (disk : option Boundary) : Sled :=
  mkSled (sd_state s) (sd_exec s) store disk (sd_recording s) (sd_network s)
    (sd_doomed s) (sd_requests_empty s) (sd_events_empty s) (sd_sent s) (sd_spawned s) (sd_before s).

(** ** Outputs and inputs *)

(** One turn of the loop of [apply_outputs]. *)
Definition apply_output (s : Sled) (o : Output) : Sled :=
  match o with
  | ORun r =>
    with_exec s (ex_job_start (sd_exec s) (r_job r) (r_params r) (r_attachment r) (r_boundary r))
      (sd_recording s)
  | OStop id => with_exec s (ex_job_stop (sd_exec s) id) (sd_recording s)
  | ORan status =>
    with_exec s (ex_job_stopped (sd_exec s) (status_job_id status)) (sd_recording s ++ [status])
  | OGossip m => match sd_network s with Some _ => with_sent s m | None => s end
  end.

Definition apply_outputs (s : Sled) (outputs : list Output) : Sled := foldl apply_output s outputs.

(** [apply]: step the machine, then apply its outputs. *)
Definition apply_input (s : Sled) (now : DateTime) (i : Input) : Sled :=
  let '(st, outputs) := step (sd_state s) now (sd_network s) i in
  apply_outputs (with_state s st) outputs.

Fixpoint apply_all (s : Sled) (l : list (DateTime * Input)) : Sled :=
  match l with
  | [] => s
  | (now, i) :: l => apply_all (apply_input s now i) l
  end.

(** ** Universes and processes *)

(** [enter_universe]: the state of a server entering the universe [net], whose
    announcement was sent at version [birth]. *)
Definition enter_universe (store : BoundaryStore) (birth : Version) (net : Network) :
    result State KeyError :=
  state_new current own_b trust (past_new birth (stored store) net).

(** [Message::Event(own_baseboard, Event::Version(VersionInfo::current()))]. *)
Definition announcement : Message := MEvent own_b (EvVersion current).

(** A new process: [BoundaryStore::load] finds [record], and [run] enters its
    first universe with the cubby map it finds. *)
Definition boot (record : option Boundary) (birth : Version) (net : Network) (cubbies : Cubbies)
    (before : list Launch) : option Sled :=
  match enter_universe (mkBoundaryStore record) birth net with
  | Err _ => None
  | Ok st =>
    Some (mkSled (with_rack st (set_cubbies (st_rack st) cubbies))
            (mkExecutor true ∅ [] ∅ []) (mkBoundaryStore record) record [] (Some net)
            ∅ false false [announcement] [] before)
  end.

(** The swap arm of the loop: every job in flight is killed and its events are
    doomed, and a fresh state enters the new universe. *)
Definition swap_universe (s : Sled) (birth : Version) (net : Network) : option Sled :=
  match enter_universe (sd_store s) birth net with
  | Err _ => None
  | Ok st =>
    let flying := in_flight (sd_exec s) in
    Some (mkSled (with_rack st (set_cubbies (st_rack st) (cubbies (st_rack (sd_state s)))))
            (foldl ex_job_stop (sd_exec s) (sorted_elements phrase_le flying))
            (sd_store s) (sd_disk s) (sd_recording s) (Some net)
            (flying ∪ sd_doomed s) (sd_requests_empty s) (sd_events_empty s)
            [announcement] [] (sd_before s ++ sd_spawned s))
  end.

(** ** Turns *)

Inductive SledEvent :=
(** The arms of the [select!] of [StateManager::run]. *)
| SRequest (r : option Request)
| SEvent (e : option Event)
| SMessage (now : DateTime) (v : Version) (m : VersionedMessage)
    (delivered : list (Version * VersionedMessage))
| SCubbies (now : DateTime) (c : Cubbies)
| SSwap (now : DateTime) (birth : Version) (net : Network)
    (delivered : list (Version * VersionedMessage))
| SShutdown
(** A turn of the launcher, and the end of one [record_status] task. *)
| SLaunch (w : Durability)
| SRecord (k : nat) (w : Durability)
(** The process dies, and a new one finds the durable record, or finds it lost. *)
| SRestart (birth : Version) (net : Network) (c : Cubbies) (lost : bool).

(** The executor's events, once the state has been told: those of jobs killed
    at a swap are dropped, until their ending. *)
Definition forward_event (s : Sled) (e : Event) : Sled :=
  let forward :=
    match sd_network s with Some _ => with_sent s (MEvent own_b e) | None => s end in
  match e with
  | EvJob je =>
    if bool_decide (event_job_id je ∈ sd_doomed s) then
      match je with
      | EStop id _ _ _ | EError id _ _ =>
        mkSled (sd_state s) (sd_exec s) (sd_store s) (sd_disk s) (sd_recording s) (sd_network s)
          (sd_doomed s ∖ {[id]}) (sd_requests_empty s) (sd_events_empty s) (sd_sent s)
          (sd_spawned s) (sd_before s)
      | _ => s
      end
    else forward
  | EvVersion _ => forward
  end.

(** The head of the loop: once requests and events have ended, the network
    handle is dropped. *)
Definition drop_network (s : Sled) : Sled :=
  if sd_requests_empty s && sd_events_empty s then
    mkSled (sd_state s) (sd_exec s) (sd_store s) (sd_disk s) (sd_recording s) None
      (sd_doomed s) (sd_requests_empty s) (sd_events_empty s) (sd_sent s) (sd_spawned s) (sd_before s)
  else s.

Definition with_empty (s : Sled) (requests events : bool) : Sled :=
  mkSled (sd_state s) (sd_exec s) (sd_store s) (sd_disk s) (sd_recording s) (sd_network s)
    (sd_doomed s) requests events (sd_sent s) (sd_spawned s) (sd_before s).

(** [drain_ready] followed by [Input::Drained]. *)
Definition drain_inputs (now : DateTime) (delivered : list (Version * VersionedMessage)) :
    list (DateTime * Input) :=
  map (λ d, (now, IGossip d.1 d.2)) delivered ++ [(now, IDrained)].

(** The launcher's turn: [boundary.advance(...)], then [spawn(job_spawn(...))]. *)
Definition launch_turn (s : Sled) (w : Durability) : Sled :=
  match launch_next (λ _, landed w) (sd_store s) (sd_exec s) with
  | None => s
  | Some (o, store, e) =>
    let s' := with_exec s e (sd_recording s) in
    match o with
    | Spawned l =>
      mkSled (sd_state s) e store (Some (l_boundary l)) (sd_recording s) (sd_network s)
        (sd_doomed s) (sd_requests_empty s) (sd_events_empty s) (sd_sent s)
        (sd_spawned s ++ [l]) (sd_before s)
    | Refused _ _ =>
      with_boundary s' store
        (match w, ex_launch (sd_exec s) with
         | FailedNew, l :: _ => Some (l_boundary l)
         | _, _ => sd_disk s
         end)
    end
  end.

(** The end of one of the tasks [apply_outputs] spawned. *)
Definition record_turn (s : Sled) (k : nat) (w : Durability) : Sled :=
  match sd_recording s !! k with
  | None => s
  | Some status =>
    let s := with_exec s (sd_exec s) (delete k (sd_recording s)) in
    match record_status (λ _, landed w) (sd_store s) status with
    | Some store =>
      with_boundary s store
        (match status_update (sd_store s) status, w with
         | Some updated, (Landed | FailedNew) => Some updated
         | _, _ => sd_disk s
         end)
    | None => s
    end
  end.

(** One turn, up to the inputs it then applies. *)
Definition prepare (s : Sled) (e : SledEvent) : Sled * list (DateTime * Input) :=
  match e with
  | SRequest None => (with_empty (drop_network s) true (sd_events_empty s), [])
  | SRequest (Some r) =>
    let s := drop_network s in
    (match sd_network s with Some _ => with_sent s (MRequest r) | None => s end, [])
  | SEvent None => (with_empty (drop_network s) (sd_requests_empty s) true, [])
  | SEvent (Some e) => (forward_event (drop_network s) e, [])
  | SMessage now v m delivered =>
    let s := drop_network s in
    (s, (now, IGossip v m) ::
        (if is_live (sd_state s) v then [] else drain_inputs now delivered))
  | SCubbies now c => (drop_network s, [(now, ICubbies c)])
  | SSwap now birth net delivered =>
    let s := drop_network s in
    match sd_network s with
    | None => (s, [])
    | Some _ =>
      match swap_universe s birth net with
      | None => (s, [])
      | Some s => (s, drain_inputs now delivered)
      end
    end
  | SShutdown =>
    let e := sd_exec s in
    let s := with_exec (drop_network s)
      (mkExecutor false (ex_stop e) (ex_launch e) (ex_stop e ∪ ex_cancelled e) (ex_refused e))
      (sd_recording s) in
    (with_empty s true (sd_events_empty s), [])
  | SLaunch w => (launch_turn s w, [])
  | SRecord k w => (record_turn s k w, [])
  | SRestart birth net c lost =>
    match boot (if lost then None else sd_disk s) birth net c (sd_before s ++ sd_spawned s) with
    | None => (s, [])
    | Some s => (s, [])
    end
  end.

Definition sled_step (s : Sled) (e : SledEvent) : Sled :=
  let '(s, inputs) := prepare s e in apply_all s inputs.

Definition sled_run (s : Sled) (es : list SledEvent) : Sled := foldl sled_step s es.

(** Everything the sled ever spawned, oldest first. *)
Definition all_spawned (s : Sled) : list Launch := sd_before s ++ sd_spawned s.
End sled.
