(* ===== verification/StateFacts.v ===== *)
(** * Correctness of the session state machine

    The invariant of reachable states, what a job must satisfy to be run, and
    how sessions, statuses and the past evolve.  All statements are about the
    definitions of [State.v]. *)
From S2P Require Import Prelude External Codephrases Hash Targets Keys Jobs Messages.
From S2P Require Import Rack Certs History Boundary Executor State.
Open Scope N_scope.

Section facts.
Context {Irum : Rumors} {Ibb : BaseboardOps} {Isha : Sha3} {Ilru : LruCache} {Ipki : Pki}.
Implicit Types st : State.

(** ** The release loop *)

Lemma release_one_chain st now net sq live q r :
  rl_session (release_one st now net sq live q r) = job_started (rl_session r) (signed (q_job q)) ∧
  rl_queue (release_one st now net sq live q r)
  = delete (session_next_job_id (rl_session r)) (rl_queue r).
Proof. unfold release_one. by repeat case_match. Qed.

Lemma release_loop_chain fuel st now net sq live r :
  (rl_session (release_loop fuel st now net sq live r),
   rl_queue (release_loop fuel st now net sq live r))
  = drain_loop fuel (rl_session r) (rl_queue r).
Proof.
  revert r; induction fuel as [|fuel IH]; intros r; simpl; [done|].
  destruct (rl_queue r !! session_next_job_id (rl_session r)) as [q|]; [|done].
  rewrite IH. by destruct (release_one_chain st now net sq live q r) as [-> ->].
Qed.

Lemma drain_loop_keeps fuel s q :
  sess_id (drain_loop fuel s q).1 = sess_id s ∧
  started_by (drain_loop fuel s q).1 = started_by s ∧
  (drain_loop fuel s q).2 ⊆ q.
Proof.
  revert s q; induction fuel as [|fuel IH]; intros s q; simpl; [done|].
  destruct (q !! session_next_job_id s) as [qj|] eqn:E; [|done].
  destruct (IH (job_started s (signed (q_job qj))) (delete (session_next_job_id s) q)) as (->&->&Hs).
  split_and!; [done..|]. etrans; [exact Hs|]. apply delete_subseteq.
Qed.

Lemma drain_loop_done fuel s q :
  (size q <= fuel)%nat →
  (drain_loop fuel s q).2 !! session_next_job_id (drain_loop fuel s q).1 = None.
Proof.
  revert s q; induction fuel as [|fuel IH]; intros s q Hf; simpl.
  - rewrite (map_size_empty_inv q) by lia. apply lookup_empty.
  - destruct (q !! session_next_job_id s) as [qj|] eqn:E; [|done].
    apply IH. rewrite map_size_delete, E. lia.
Qed.

(** What the executor may rely on for every job it is told to run. *)
Record run_ok (st : State) (net : Network) (a : ActiveSession) (q : QueuedJob) (r : Run) : Prop := {
  run_job : r_job r = q_job q;
  run_params : r_params r = q_params q;
  run_sled : own st ∈ q_sleds q;
  run_target : check_target (st_rack st) (payload (signed (r_job r))) = None;
  run_admitted : screen (st_past st) (sess_id (a_session a)) (a_seq a) (a_live a) = Admit;
  run_fresh : runnable st (job_id (payload (signed (r_job r)))) = true;
  run_command : check_command (payload (signed (r_job r))) = Ok ();
  run_boundary : r_boundary r = boundary_for net (a_session a) (a_seq a) (signed (r_job r));
}.

Lemma boundary_for_sess net s s' sq job :
  sess_id s = sess_id s' → boundary_for net s sq job = boundary_for net s' sq job.
Proof. unfold boundary_for. by intros ->. Qed.

Lemma release_one_runs st now net a q r run :
  sess_id (rl_session r) = sess_id (a_session a) →
  ORun run ∈ rl_outputs (release_one st now net (a_seq a) (a_live a) q r) →
  ORun run ∈ rl_outputs r ∨ run_ok st net a q run.
Proof.
  intros Hs. unfold release_one.
  case_bool_decide as Hown; [|rewrite app_nil_r; by left].
  destruct (check_target _ _) eqn:Et.
  { destruct (q_replayed q); cbn; rewrite elem_of_app; [set_solver|].
    intros [?|Hx]; [by left|]. apply list_elem_of_singleton in Hx. discriminate Hx. }
  destruct (screen _ _ _ _) eqn:Esc.
  2:{ destruct (q_replayed q); cbn; rewrite elem_of_app; [set_solver|].
      intros [?|Hx]; [by left|]. apply list_elem_of_singleton in Hx. discriminate Hx. }
  destruct (runnable _ _) eqn:Er; [|rewrite app_nil_r; by left].
  destruct (check_command _) as [[]|] eqn:Ec; cbn; rewrite elem_of_app.
  - intros [?|Hx]; [by left|right]. apply list_elem_of_singleton in Hx. injection Hx as ->.
    rewrite Hs in Esc. by split; [..|apply boundary_for_sess].
  - intros [?|Hx]; [by left|]. apply list_elem_of_singleton in Hx. discriminate Hx.
Qed.

Lemma release_loop_runs fuel st now net a r run :
  sess_id (rl_session r) = sess_id (a_session a) →
  ORun run ∈ rl_outputs (release_loop fuel st now net (a_seq a) (a_live a) r) →
  ORun run ∈ rl_outputs r ∨ ∃ id q, rl_queue r !! id = Some q ∧ run_ok st net a q run.
Proof.
  revert r; induction fuel as [|fuel IH]; intros r Hs; simpl; [by left|].
  destruct (rl_queue r !! session_next_job_id (rl_session r)) as [q|] eqn:E; [|by left].
  destruct (release_one_chain st now net (a_seq a) (a_live a) q r) as [E1 E2].
  intros [H1|(id&q'&Hq&Hr)]%IH; [| |by rewrite E1].
  - apply release_one_runs in H1 as [?|?]; [by left|right; eauto|done].
  - right. rewrite E2 in Hq. apply lookup_delete_Some in Hq as [_ Hq]. eauto.
Qed.

(** ** The invariant *)

(** Queued jobs are verified, filed under their own identifier, and belong to
    the active session. *)
Definition queue_ok (certs : Certificates) (sid : SessionId) (q : QueuedJobs) : Prop :=
  ∀ id qj, q !! id = Some qj →
    certs_verify certs (signed (q_job qj)) = Ok (q_job qj) ∧
    job_id (payload (signed (q_job qj))) = id ∧
    session_id (payload (signed (q_job qj))) = sid.

(** The active session has a starter and stands at the rank its preimage gives. *)
Definition session_ok (certs : Certificates) (s : SessionState) : Prop :=
  match s with
  | Inactive => True
  | Active a =>
    queue_ok certs (sess_id (a_session a)) (a_queued_jobs a) ∧
    is_Some (started_by (a_session a)) ∧
    ∃ p, preimage_session_id p = sess_id (a_session a) ∧ seq p = a_seq a
  end.

(** Pending starts are filed under the identifier of their preimage, at most
    [MAX_PENDING_STARTS] of them. *)
Definition pending_ok (c : lru SessionId PendingStart) : Prop :=
  lru_cap c = MAX_PENDING_STARTS ∧
  (length (lru_entries c) <= MAX_PENDING_STARTS)%nat ∧
  Forall (λ e, preimage_session_id (ps_preimage e.2) = e.1) (lru_entries c).

(** Attachment points use distinct channels that were already created. *)
Definition attach_ok (m : gmap JobId ChannelId) (next : ChannelId) : Prop :=
  (∀ id ch, m !! id = Some ch → ch < next) ∧
  (∀ i j ch, m !! i = Some ch → m !! j = Some ch → i = j).

Record state_wf (st : State) : Prop := {
  swf_history : history_wf (st_history st);
  swf_session : session_ok (st_certs st) (st_session st);
  swf_pending : pending_ok (st_pending_starts st);
  swf_attach : attach_ok (st_attachments st) (st_next_channel st);
}.

(** What never changes during a life. *)
Record same_life (st st' : State) : Prop := {
  sl_certs : st_certs st' = st_certs st;
  sl_own : own st' = own st;
  sl_birth : birth (st_past st') = birth (st_past st);
  sl_committed : committed (st_past st') = committed (st_past st);
  sl_network : network (st_past st') = network (st_past st);
}.

#[export] Instance same_life_preorder : PreOrder same_life.
Proof.
  split; [by intros st|]. intros x y z [] []. split; by etrans.
Qed.

Lemma wf_with_rack st r : state_wf st → state_wf (with_rack st r).
Proof. by intros []. Qed.
Lemma wf_with_past st p : state_wf st → state_wf (with_past st p).
Proof. by intros []. Qed.
Lemma wf_with_history st h : state_wf st → history_wf h → state_wf (with_history st h).
Proof. by intros []. Qed.
Lemma wf_with_session st s : state_wf st → session_ok (st_certs st) s → state_wf (with_session st s).
Proof. by intros []. Qed.
Lemma wf_with_pending st c : state_wf st → pending_ok c → state_wf (with_pending st c).
Proof. by intros []. Qed.
Lemma wf_with_attachments st m :
  state_wf st → attach_ok m (st_next_channel st) → state_wf (with_attachments st m).
Proof. by intros []. Qed.
Hint Resolve wf_with_rack wf_with_past wf_with_history wf_with_session wf_with_pending
  wf_with_attachments : sush.

Lemma attach_ok_delete m n id : attach_ok m n → attach_ok (delete id m) n.
Proof.
  intros [H1 H2]. split.
  - intros i ch [_ Hi]%lookup_delete_Some. eauto.
  - intros i j ch [_ Hi]%lookup_delete_Some [_ Hj]%lookup_delete_Some. eauto.
Qed.

Lemma attach_ok_insert m n id : attach_ok m n → attach_ok (<[id := n]> m) (n + 1).
Proof.
  intros [H1 H2]. split.
  - intros i ch. rewrite lookup_insert. case_decide; [intros [= <-]; lia|].
    intros Hi%H1. lia.
  - intros i j ch. rewrite !lookup_insert.
    repeat case_decide; subst; try done; [intros [= <-] Hj%H1; lia|intros Hi%H1 [= <-]; lia|].
    apply H2.
Qed.

Lemma queue_ok_subseteq certs sid (q q' : QueuedJobs) : q' ⊆ q → queue_ok certs sid q → queue_ok certs sid q'.
Proof. intros Hs Hq id qj Hid. apply Hq. by eapply lookup_weaken. Qed.

Lemma enqueue_job_wf st now qj actor :
  state_wf st →
  (∀ a, st_session st = Active a →
     certs_verify (st_certs st) (signed (q_job qj)) = Ok (q_job qj) ∧
     session_id (payload (signed (q_job qj))) = sess_id (a_session a)) →
  state_wf (enqueue_job st now qj actor).
Proof.
  intros Hwf Hv. unfold enqueue_job. destruct (st_session st) as [|a] eqn:Es; [done|].
  case_match; [done|]. case_match; [done|].
  assert (Hnew : session_ok (st_certs st) (Active (mkActive (a_seq a) (a_live a) (a_session a)
     (<[job_id (payload (signed (q_job qj))) := qj]> (a_queued_jobs a)) (a_attach_grants a)))).
  { pose proof (swf_session _ Hwf) as Hs. rewrite Es in Hs. destruct Hs as (Hq&Hst&Hp).
    split_and!; [|done..]. intros id q. cbn. rewrite lookup_insert. case_decide; [|apply Hq].
    intros [= <-]. destruct (Hv a) as [? ?]; done. }
  case_match; auto with sush. apply wf_with_history; [by auto with sush|].
  apply set_job_status_wf, Hwf.
Qed.

Lemma cancel_job_wf st now id actor replayed :
  state_wf st → state_wf (cancel_job st now id actor replayed).
Proof.
  intros Hwf. unfold cancel_job. destruct (st_session st) as [|a] eqn:Es; [done|].
  assert (Hnew : session_ok (st_certs st) (Active (mkActive (a_seq a) (a_live a) (a_session a)
     (delete id (a_queued_jobs a)) (a_attach_grants a)))).
  { pose proof (swf_session _ Hwf) as Hs. rewrite Es in Hs. destruct Hs as (Hq&Hst&Hp).
    split_and!; [|done..]. eapply queue_ok_subseteq; [|exact Hq]. apply delete_subseteq. }
  destruct (negb replayed && _); auto with sush.
  apply wf_with_history; [by auto with sush|]. apply transition_wf, Hwf.
Qed.

Lemma release_one_attach st now net sq live q r :
  attach_ok (rl_attachments r) (rl_next_channel r) →
  attach_ok (rl_attachments (release_one st now net sq live q r))
    (rl_next_channel (release_one st now net sq live q r)).
Proof. intros Ha. unfold release_one. repeat case_match; try done. by apply attach_ok_insert. Qed.

Lemma release_loop_attach fuel st now net sq live r :
  attach_ok (rl_attachments r) (rl_next_channel r) →
  attach_ok (rl_attachments (release_loop fuel st now net sq live r))
    (rl_next_channel (release_loop fuel st now net sq live r)).
Proof.
  revert r; induction fuel as [|fuel IH]; intros r Ha; simpl; [done|].
  case_match; [|done]. by apply IH, release_one_attach.
Qed.

(** What releasing leaves of the active session. *)
Lemma release_ready_jobs_session st now net a :
  st_session st = Active a →
  ∃ s q, drain_loop (size (a_queued_jobs a)) (a_session a) (a_queued_jobs a) = (s, q) ∧
    st_session (release_ready_jobs st now net).1
    = Active (mkActive (a_seq a) (a_live a) s q (a_attach_grants a)).
Proof.
  intros Es. unfold release_ready_jobs. rewrite Es. destruct net as [net|].
  - eexists _, _. split; [|done].
    pose proof (release_loop_chain (size (a_queued_jobs a)) st now net (a_seq a) (a_live a)
      (mkRelease (a_session a) (a_queued_jobs a) (st_attachments st) (st_next_channel st) [])) as E.
    cbn in E. by rewrite <- E.
  - destruct (drain_loop _ _ _) as [s q]. by exists s, q.
Qed.

Lemma release_ready_jobs_frame st now net :
  let st' := (release_ready_jobs st now net).1 in
  st_rack st' = st_rack st ∧ st_history st' = st_history st ∧
  st_pending_starts st' = st_pending_starts st ∧ st_certs st' = st_certs st ∧
  st_past st' = st_past st.
Proof. unfold release_ready_jobs. repeat case_match; simplify_eq; done. Qed.

Lemma release_ready_jobs_wf st now net :
  state_wf st → state_wf (release_ready_jobs st now net).1.
Proof.
  intros Hwf. destruct (release_ready_jobs_frame st now net) as (_&Eh&Ep&Ec&_).
  destruct Hwf as [Hh Hs Hp Ha]. split; [by rewrite Eh| |by rewrite Ep|].
  - rewrite Ec. destruct (st_session st) as [|a] eqn:Es.
    + unfold release_ready_jobs. rewrite Es. cbn. by rewrite Es.
    + destruct (release_ready_jobs_session st now net a Es) as (s&q&Ed&->).
      destruct Hs as (Hq&Hst&Hpre).
      destruct (drain_loop_keeps (size (a_queued_jobs a)) (a_session a) (a_queued_jobs a))
        as (E1&E2&E3). rewrite Ed in E1, E2, E3. cbn in *. rewrite E1, E2.
      split_and!; [|done..]. by eapply queue_ok_subseteq.
  - unfold release_ready_jobs. repeat case_match; simplify_eq; try done.
    cbn. by apply release_loop_attach.
Qed.

Lemma pending_ok_new : pending_ok (lru_new MAX_PENDING_STARTS).
Proof.
  destruct (lru_new_spec SessionId PendingStart MAX_PENDING_STARTS) as [E1 E2].
  split_and!; [done|rewrite E1; simpl; lia|by rewrite E1].
Qed.

Lemma pending_ok_put c p actor live :
  pending_ok c → pending_ok (lru_put c (preimage_session_id p) (mkPendingStart p actor live)).
Proof.
  intros (Hc&Hl&Hf). split_and!; rewrite ?lru_put_cap, ?lru_put_spec, ?Hc; [done| |].
  - rewrite length_take. lia.
  - apply Forall_take. constructor; [done|].
    apply Forall_forall. intros e [_ He]%list_elem_of_filter.
    rewrite Forall_forall in Hf. auto.
Qed.

Lemma pending_ok_pop c sid : pending_ok c → pending_ok (lru_pop c sid).2.
Proof.
  intros (Hc&Hl&Hf). destruct (lru_pop_spec _ _ c sid) as (_&E1&E2).
  split_and!; rewrite ?E1, ?E2; [done| |].
  - etrans; [apply length_filter|done].
  - apply Forall_forall. intros e [_ He]%list_elem_of_filter.
    rewrite Forall_forall in Hf. auto.
Qed.

Lemma lru_peek_Some {V} (c : lru SessionId V) sid v : lru_peek c sid = Some v → (sid, v) ∈ lru_entries c.
Proof.
  rewrite lru_peek_spec. destruct (find_first _ _) as [[k w]|] eqn:E; [|done]. intros [= <-].
  apply find_first_Some in E as [Hin Hk]. apply bool_decide_eq_true in Hk. by cbn in *; subst.
Qed.

Lemma lru_pop_Some {V} (c : lru SessionId V) sid v : (lru_pop c sid).1 = Some v → (sid, v) ∈ lru_entries c.
Proof. destruct (lru_pop_spec _ _ c sid) as (->&_&_). apply lru_peek_Some. Qed.

(** Confirming a pending start: either the active session stays, or the start
    outranks it and becomes the active session with an empty queue. *)
Lemma confirm_start_cases st now sid :
  let st' := (confirm_start st now sid).1 in
  st' = with_pending st (lru_pop (st_pending_starts st) sid).2 ∧ (confirm_start st now sid).2 = [] ∨
  ∃ start s, (sid, start) ∈ lru_entries (st_pending_starts st) ∧
    opt_rank_leb (Some (seq (ps_preimage start), sid)) (state_rank (st_session st)) = false ∧
    sess_id s = sid ∧ started_by s = Some (ps_actor start) ∧
    s = match past_boundary (st_past st) with
        | Some b => if bool_decide (b_session b = sid)
                    then resume_at (session_started sid (ps_actor start)) (b_successor b)
                    else session_started sid (ps_actor start)
        | None => session_started sid (ps_actor start)
        end ∧
    st' = with_session (with_pending st (lru_pop (st_pending_starts st) sid).2)
            (Active (mkActive (seq (ps_preimage start)) (ps_live start) s ∅ ∅)) ∧
    (confirm_start st now sid).2 = skip_queued_jobs st now.
Proof.
  unfold confirm_start. destruct (lru_pop _ sid) as [[start|] c] eqn:E; cbn -[opt_rank_leb]; [|by left].
  destruct (opt_rank_leb _ _) eqn:Er; [by left|]. right.
  exists start. eexists. split_and!; [|done|..|done|done|done].
  - apply lru_pop_Some. by rewrite E.
  - destruct (past_boundary (st_past st)); [case_bool_decide|]; done.
  - destruct (past_boundary (st_past st)); [case_bool_decide|]; done.
Qed.

Lemma confirm_start_wf st now sid : state_wf st → state_wf (confirm_start st now sid).1.
Proof.
  intros Hwf. pose proof (pending_ok_pop _ sid (swf_pending _ Hwf)) as Hpop.
  destruct (confirm_start_cases st now sid) as [[-> _]|(start&s&Hin&_&Hid&Hby&_&->&_)].
  - by apply wf_with_pending.
  - apply wf_with_session; [auto with sush|]. split_and!.
    + intros id qj Hq. cbn in Hq. by rewrite lookup_empty in Hq.
    + cbn. rewrite Hby. by eexists.
    + exists (ps_preimage start). cbn. rewrite Hid. split; [|done].
      destruct (swf_pending _ Hwf) as (_&_&Hf). rewrite Forall_forall in Hf.
      by apply (Hf (sid, start)).
Qed.

Lemma handle_session_request_wf st now net v actor req :
  state_wf st → state_wf (handle_session_request st now net v actor req).1.
Proof.
  intros Hwf. pose proof (swf_session _ Hwf) as Hs.
  unfold handle_session_request.
  destruct req as [p|sid|sid id|sid kid access|sid kid].
  - assert (Hput : state_wf (with_pending st (lru_put (st_pending_starts st)
        (preimage_session_id p) (mkPendingStart p actor (is_live st v)))))
      by (apply wf_with_pending; [done|]; apply pending_ok_put, Hwf).
    by repeat case_match.
  - repeat case_match; try done. by apply wf_with_session.
  - destruct (st_session st) as [|a] eqn:Es; [done|].
    case_bool_decide; [|done]. case_bool_decide; [done|].
    destruct (skip_job (a_session a) id) as [moved s] eqn:Esk.
    destruct moved; [|done]. destruct (skip_job_keeps (a_session a) id) as [E1 E2].
    rewrite Esk in E1, E2. cbn in E1, E2.
    apply release_ready_jobs_wf, cancel_job_wf, wf_with_session; [done|].
    unfold session_ok in *. cbn. by rewrite E1, E2.
  - destruct (st_session st) as [|a] eqn:Es; [done|]. case_match; [|done]. by apply wf_with_session.
  - destruct (st_session st) as [|a] eqn:Es; [done|]. case_match; [|done]. by apply wf_with_session.
Qed.

Lemma certs_confirm st now sid : st_certs (confirm_start st now sid).1 = st_certs st.
Proof. unfold confirm_start. repeat case_match; simplify_eq; done. Qed.

Lemma handle_job_request_wf st now net v actor req :
  state_wf st → state_wf (handle_job_request st now net v actor req).1.
Proof.
  intros Hwf. unfold handle_job_request. destruct req as [sj params sleds|id].
  - destruct (certs_verify (st_certs st) sj) as [job|] eqn:Ev; [|done].
    pose proof (confirm_start_wf st now (session_id (payload sj)) Hwf) as Hwf1.
    pose proof (certs_confirm st now (session_id (payload sj))) as Hc.
    destruct (confirm_start st now (session_id (payload sj))) as [st1 out1].
    cbn [fst] in *. destruct (match state_session (st_session st1) with
      Some s => bool_decide (sess_id s = session_id (payload sj)) | None => false end) eqn:Ea.
    + pose proof (release_ready_jobs_wf
        (enqueue_job st1 now (mkQueuedJob job params sleds (negb (is_live st v))) actor) now net) as Hr.
      destruct (release_ready_jobs _ now net) as [st2 out2]. apply Hr.
      apply enqueue_job_wf; [done|]. intros a Hsa. cbn.
      pose proof (certs_verify_signed _ _ _ Ev) as Hsig. rewrite Hsig, Hc. split; [done|].
      rewrite Hsa in Ea. cbn in Ea. by apply bool_decide_eq_true in Ea.
    + by repeat case_match.
  - repeat case_match; try done. by apply cancel_job_wf.
Qed.

Lemma end_own_job_wf st b id : state_wf st → state_wf (end_own_job st b id).
Proof.
  intros Hwf. unfold end_own_job. case_match; [|done].
  apply wf_with_past, wf_with_attachments; [done|]. apply attach_ok_delete, Hwf.
Qed.

Lemma transition_in_wf st v b id f : state_wf st → state_wf (transition_in st v b id f).1.
Proof.
  intros Hwf. unfold transition_in.
  pose proof (transition_wf (st_history st) id b (Some (version_rank v)) f
    (state_queued_jobs (st_session st)) (swf_history _ Hwf)) as Ht.
  destruct (transition_job_status _ _ _ _ _ _) as [n h]. by apply wf_with_history.
Qed.

Lemma handle_job_event_wf st v b e : state_wf st → state_wf (handle_job_event st v b e).1.
Proof.
  intros Hwf. destruct e; cbn [handle_job_event];
    try (by apply transition_in_wf; try apply end_own_job_wf).
  destruct (settled_on _ _ _); [done|].
  apply wf_with_history; [by case_match; auto with sush|].
  apply set_job_status_wf. by case_match; apply Hwf.
Qed.

Lemma reap_zombies_past st now : ∃ p, (reap_zombies st now).1 = with_past st p ∧
  birth p = birth (st_past st) ∧ committed p = committed (st_past st) ∧
  network p = network (st_past st).
Proof. by eexists. Qed.

Lemma adjudicate_past st now : ∃ p, (adjudicate_boundary st now).1 = with_past st p ∧
  birth p = birth (st_past st) ∧ committed p = committed (st_past st) ∧
  network p = network (st_past st).
Proof.
  unfold adjudicate_boundary. destruct (past_boundary (st_past st)) as [b|].
  - case_bool_decide; [|case_match; by eexists]. exists (st_past st). by destruct st.
  - exists (st_past st). by destruct st.
Qed.

Lemma step_wf st now net i : state_wf st → state_wf (step st now net i).1.
Proof.
  intros Hwf. destruct i as [c|v m|]; cbn [step].
  - by apply wf_with_rack.
  - destruct m as [[[r|r]|b e]|ver msg]; cbn [state_update].
    + by apply handle_session_request_wf.
    + by apply handle_job_request_wf.
    + destruct e as [je|info]; cbn [handle_event]; [|by apply wf_with_rack].
      pose proof (handle_job_event_wf st v b je Hwf) as Hj.
      by destruct (handle_job_event st v b je).
    + by apply wf_with_rack.
  - unfold settle. destruct (reap_zombies_past st now) as (p&E&_).
    destruct (reap_zombies st now) as [st1 o1]. cbn in E. subst st1.
    destruct net; [|cbn; auto with sush].
    destruct (adjudicate_past (with_past st p) now) as (p'&E&_).
    destruct (adjudicate_boundary (with_past st p) now) as [st2 o2]. cbn in *. subst st2.
    auto with sush.
Qed.

Lemma reachable_wf current own_b trust b0 c0 n0 st :
  reachable current own_b trust b0 c0 n0 st → state_wf st.
Proof.
  induction 1 as [st Hn|st now net i _ IH]; [|by apply step_wf].
  unfold state_new in Hn. destruct (certificates_new trust) as [certs|]; [|done].
  injection Hn as <-. split; cbn.
  - apply history_wf_empty.
  - done.
  - apply pending_ok_new.
  - split; [intros ?? He|intros ??? He]; by rewrite lookup_empty in He.
Qed.

(** ** Authority to run *)

(** Every condition a run must meet, in the state the step ends in. *)
Definition authorised (st : State) (net : option Network) (r : Run) : Prop :=
  ∃ a, st_session st = Active a ∧
    let job := signed (r_job r) in
    certs_verify (st_certs st) job = Ok (r_job r) ∧
    session_id (payload job) = sess_id (a_session a) ∧
    check_target (st_rack st) (payload job) = None ∧
    check_command (payload job) = Ok () ∧
    screen (st_past st) (sess_id (a_session a)) (a_seq a) (a_live a) = Admit ∧
    runnable st (job_id (payload job)) = true ∧
    (∃ n, net = Some n ∧
      r_boundary r = mkBoundary n (sess_id (a_session a)) (a_seq a) (job_id (payload job))
                       (next_job_id (sess_id (a_session a)) (LSome job)) None).

Lemma release_ready_jobs_authorised st now net r :
  state_wf st →
  ORun r ∈ (release_ready_jobs st now net).2 →
  authorised (release_ready_jobs st now net).1 net r.
Proof.
  intros Hwf Hr.
  destruct (release_ready_jobs_frame st now net) as (Erk&Eh&_&Ec&Ep).
  assert (Hown : own (release_ready_jobs st now net).1 = own st) by (unfold own; by rewrite Erk).
  destruct (st_session st) as [|a] eqn:Es.
  { unfold release_ready_jobs in Hr. rewrite Es in Hr. set_solver. }
  destruct (release_ready_jobs_session st now net a Es) as (s&q&Ed&Es').
  pose proof (drain_loop_keeps (size (a_queued_jobs a)) (a_session a) (a_queued_jobs a)) as Hk.
  rewrite Ed in Hk. destruct Hk as (Hid&_&_). cbn in Hid.
  destruct net as [n|].
  2:{ unfold release_ready_jobs in Hr. rewrite Es in Hr.
      destruct (drain_loop _ _ _). set_solver. }
  assert (Hrun : ∃ id qj, a_queued_jobs a !! id = Some qj ∧ run_ok st n a qj r).
  { unfold release_ready_jobs in Hr. rewrite Es in Hr. cbn [snd] in Hr.
    apply release_loop_runs in Hr as [Hr|Hr]; [set_solver|done|done]. }
  destruct Hrun as (id&qj&Hq&[Hj _ _ Ht Ha Hf Hcmd Hb]).
  pose proof (swf_session _ Hwf) as Hs. rewrite Es in Hs. destruct Hs as (Hqok&_&_).
  destruct (Hqok id qj Hq) as (Hv&_&Hsid).
  eexists. split; [exact Es'|]. cbn. rewrite Erk, Ec, Ep, Hid, Hj in *.
  split_and!; [done..| |].
  - unfold runnable, get_job_status in *. by rewrite Eh, Hown.
  - exists n. split; [done|]. rewrite Hb. by unfold boundary_for.
Qed.

Lemma skip_queued_jobs_no_run st now r : ORun r ∉ skip_queued_jobs st now.
Proof.
  unfold skip_queued_jobs. destruct (state_queued_jobs _) as [q|]; [|set_solver].
  rewrite list_elem_of_omap. intros (id&_&He). by repeat case_match.
Qed.

(** Settling only announces events of this sled. *)
Lemma settle_outputs st now net :
  Forall (λ o, ∃ e, o = job_event (own st) e) (settle st now net).2.
Proof.
  assert (Hreap : Forall (λ o, ∃ e, o = job_event (own st) e) (reap_zombies st now).2).
  { cbn. apply Forall_fmap, Forall_forall. intros id _. by eexists. }
  assert (Hadj : ∀ st', own st' = own st →
    Forall (λ o, ∃ e, o = job_event (own st) e) (adjudicate_boundary st' now).2).
  { intros st' <-. unfold adjudicate_boundary.
    destruct (past_boundary _) as [b|]; [|by constructor].
    case_bool_decide; [by constructor|]. cbv zeta.
    destruct (match get_job_status _ _ with Some m => _ | None => _ end); [by constructor|].
    apply Forall_fmap, Forall_forall. intros e _. by eexists. }
  unfold settle. destruct (reap_zombies_past st now) as (p&E&_).
  destruct (reap_zombies st now) as [st1 o1]. cbn in E, Hreap. subst st1.
  destruct net; [|done]. specialize (Hadj (with_past st p) eq_refl).
  destruct (adjudicate_boundary _ now) as [st2 o2]. apply Forall_app. by split.
Qed.

Lemma step_runs_authorised st now net i r :
  state_wf st →
  ORun r ∈ (step st now net i).2 →
  authorised (step st now net i).1 net r.
Proof.
  intros Hwf. destruct i as [c|v m|]; cbn [step]; [set_solver| |].
  - destruct m as [[[rq|rq]|b e]|ver msg]; cbn [state_update]; [| | |set_solver].
    + unfold handle_session_request.
      destruct (request rq) as [p|sid|sid id|sid kid access|sid kid].
      * repeat case_match; set_solver.
      * repeat case_match; try set_solver. cbn. by intros ?%skip_queued_jobs_no_run.
      * pose proof (handle_session_request_wf st now net v (actor rq) (SRSkip sid id) Hwf) as Hw.
        unfold handle_session_request in Hw.
        destruct (st_session st) as [|a] eqn:Es; [set_solver|].
        case_bool_decide; [|set_solver]. case_bool_decide; [set_solver|].
        destruct (skip_job (a_session a) id) as [moved s] eqn:Esk.
        destruct moved; [|set_solver].
        apply release_ready_jobs_authorised, cancel_job_wf, wf_with_session; [done|].
        destruct (skip_job_keeps (a_session a) id) as [E1 E2].
        rewrite Esk in E1, E2. cbn in E1, E2.
        pose proof (swf_session _ Hwf) as Hs. rewrite Es in Hs.
        unfold session_ok in *. cbn. by rewrite E1, E2.
      * repeat case_match; set_solver.
      * repeat case_match; set_solver.
    + unfold handle_job_request. destruct (request rq) as [sj params sleds|id].
      2:{ repeat case_match; set_solver. }
      destruct (certs_verify (st_certs st) sj) as [job|] eqn:Ev; [|set_solver].
      pose proof (confirm_start_wf st now (session_id (payload sj)) Hwf) as Hwf1.
      pose proof (certs_confirm st now (session_id (payload sj))) as Hc.
      assert (Hno : ORun r ∉ (confirm_start st now (session_id (payload sj))).2).
      { destruct (confirm_start_cases st now (session_id (payload sj)))
          as [[_ ->]|(?&?&_&_&_&_&_&_&->)]; [set_solver|apply skip_queued_jobs_no_run]. }
      destruct (confirm_start st now (session_id (payload sj))) as [st1 out1].
      cbn [fst snd] in *.
      destruct (match state_session (st_session st1) with
        Some s => bool_decide (sess_id s = session_id (payload sj)) | None => false end) eqn:Ea.
      2:{ destruct (_ && negb _); cbn; [|done]. intros [?|Hx]%elem_of_app; [done|].
          apply list_elem_of_singleton in Hx. discriminate Hx. }
      pose proof (release_ready_jobs_authorised
        (enqueue_job st1 now (mkQueuedJob job params sleds (negb (is_live st v))) (actor rq))
        now net r) as Hr.
      destruct (release_ready_jobs _ now net) as [st2 out2]. cbn [fst snd] in *.
      intros [?|Hin]%elem_of_app; [done|]. apply Hr; [|done].
      apply enqueue_job_wf; [done|]. intros a Hsa. cbn.
      pose proof (certs_verify_signed _ _ _ Ev) as Hsig. rewrite Hsig, Hc. split; [done|].
      rewrite Hsa in Ea. cbn in Ea. by apply bool_decide_eq_true in Ea.
    + destruct e as [je|info]; cbn [handle_event]; [|set_solver].
      destruct (handle_job_event st v b je) as [st1 [s|]]; cbn; [|set_solver].
      case_match; [|set_solver]. intros Hx. apply list_elem_of_singleton in Hx. discriminate Hx.
  - intros Hx. pose proof (settle_outputs st now net) as Hall.
    rewrite Forall_forall in Hall. by destruct (Hall _ Hx).
Qed.

(** C2. Only authorised jobs run.  In every life of the server, whatever
    gossip delivers, a job handed to the executor carries a signature a trust
    anchor verified, belongs to the active session, names this sled in its
    signed target, has a launchable command, is admitted by the boundary screen,
    has no earlier outcome on this sled, and commits a boundary record that
    names it, its session, its universe and its successor. *)
Theorem only_authorised_jobs_run current own_b trust b0 c0 n0 st now net i r :
  reachable current own_b trust b0 c0 n0 st →
  ORun r ∈ (step st now net i).2 →
  authorised (step st now net i).1 net r.
Proof. intros Hr%reachable_wf. by apply step_runs_authorised. Qed.
End facts.
