(* ===== verification/SessionFacts.v ===== *)
(** * Sessions: release order, succession, authority and restarts

    Theorems about the session side of the state machine of [State.v]. *)
From S2P Require Import Prelude External Codephrases Hash Targets Keys Jobs Messages.
From S2P Require Import Rack Certs History Boundary Executor State StateFacts.
Open Scope N_scope.

(** ** The order on session ranks *)

Definition opt_rank_max (x y : option SessionRank) : option SessionRank :=
  if opt_rank_leb x y then y else x.

Lemma opt_rank_leb_refl x : opt_rank_leb x x = true.
Proof.
  destruct x as [[a b]|]; [|done]. cbn. unfold session_rank_leb. cbn.
  rewrite N.eqb_refl, N.leb_refl. apply orb_true_r.
Qed.

Lemma session_rank_leb_spec x y :
  session_rank_leb x y = true ↔
  phrase x.1 < phrase y.1 ∨ (phrase x.1 = phrase y.1 ∧ phrase x.2 <= phrase y.2).
Proof.
  unfold session_rank_leb.
  rewrite orb_true_iff, andb_true_iff, N.ltb_lt, N.eqb_eq, N.leb_le. done.
Qed.

Lemma opt_rank_leb_total x y : opt_rank_leb x y = false → opt_rank_leb y x = true.
Proof.
  destruct x as [x|], y as [y|]; cbn; try done. intros E. apply session_rank_leb_spec.
  destruct (session_rank_leb_spec x y) as [_ Hs]. destruct (decide (
    phrase x.1 < phrase y.1 ∨ phrase x.1 = phrase y.1 ∧ phrase x.2 <= phrase y.2)) as [Hd|];
    [apply Hs in Hd; congruence|lia].
Qed.

Lemma opt_rank_leb_antisym x y :
  opt_rank_leb x y = true → opt_rank_leb y x = true → x = y.
Proof.
  destruct x as [[[a] [b]]|], y as [[[c] [d]]|]; cbn; try done.
  rewrite !session_rank_leb_spec. cbn. intros H1 H2.
  assert (a = c ∧ b = d) as [-> ->] by lia. done.
Qed.

Lemma opt_rank_leb_trans x y z :
  opt_rank_leb x y = true → opt_rank_leb y z = true → opt_rank_leb x z = true.
Proof.
  destruct x as [x|], y as [y|], z as [z|]; cbn; try done.
  rewrite !session_rank_leb_spec. lia.
Qed.

Lemma opt_rank_max_comm x y : opt_rank_max x y = opt_rank_max y x.
Proof.
  unfold opt_rank_max. destruct (opt_rank_leb x y) eqn:E1, (opt_rank_leb y x) eqn:E2; try done.
  - by apply opt_rank_leb_antisym.
  - apply opt_rank_leb_total in E1. congruence.
Qed.

Lemma opt_rank_max_assoc x y z :
  opt_rank_max x (opt_rank_max y z) = opt_rank_max (opt_rank_max x y) z.
Proof.
  unfold opt_rank_max.
  destruct (opt_rank_leb y z) eqn:E1, (opt_rank_leb x y) eqn:E2;
    rewrite ?E1, ?E2; try done.
  - by rewrite (opt_rank_leb_trans x y z) by done.
  - destruct (opt_rank_leb x z) eqn:E3; [|done].
    apply opt_rank_leb_total in E2. rewrite (opt_rank_leb_trans y x z) in E1; done.
Qed.

Lemma opt_rank_max_le x y : opt_rank_leb x (opt_rank_max x y) = true.
Proof. unfold opt_rank_max. case_match; [done|apply opt_rank_leb_refl]. Qed.

Section facts.
Context {Irum : Rumors} {Ibb : BaseboardOps} {Isha : Sha3} {Ilru : LruCache} {Ipki : Pki}.
Implicit Types st : State.

(** ** Release order *)

(** The identifiers the chain takes off the queue, in order. *)
Fixpoint drained_ids (fuel : nat) (s : Session) (q : QueuedJobs) : list JobId :=
  match fuel with
  | O => []
  | S fuel =>
    match q !! session_next_job_id s with
    | None => []
    | Some qj =>
      session_next_job_id s ::
        drained_ids fuel (job_started s (signed (q_job qj))) (delete (session_next_job_id s) q)
    end
  end.

(** The jobs an output list starts, in order. *)
Definition run_ids (out : list Output) : list JobId :=
  omap (λ o, match o with ORun r => Some (job_id (payload (signed (r_job r)))) | _ => None end) out.

Lemma run_ids_app o1 o2 : run_ids (o1 ++ o2) = run_ids o1 ++ run_ids o2.
Proof. apply omap_app. Qed.

Lemma drained_ids_queued fuel s q : ∀ id, id ∈ drained_ids fuel s q → is_Some (q !! id).
Proof.
  revert s q; induction fuel as [|fuel IH]; intros s q id; simpl; [set_solver|].
  destruct (q !! session_next_job_id s) as [qj|] eqn:E; [|set_solver].
  intros [->|Hin]%elem_of_cons; [by eexists|].
  apply IH in Hin as [x Hx]. apply lookup_delete_Some in Hx as [_ Hx]. by eexists.
Qed.

Lemma drained_ids_NoDup fuel s q : NoDup (drained_ids fuel s q).
Proof.
  revert s q; induction fuel as [|fuel IH]; intros s q; simpl; [constructor|].
  destruct (q !! session_next_job_id s) as [qj|] eqn:E; [|constructor].
  constructor; [|done]. intros Hin%drained_ids_queued.
  rewrite lookup_delete_eq in Hin. by destruct Hin.
Qed.

Lemma release_one_run_ids st now net sq live q r :
  run_ids (rl_outputs (release_one st now net sq live q r)) = run_ids (rl_outputs r) ∨
  run_ids (rl_outputs (release_one st now net sq live q r))
  = run_ids (rl_outputs r) ++ [job_id (payload (signed (q_job q)))].
Proof.
  unfold release_one. repeat case_match; cbn; rewrite run_ids_app;
    first [by right | left; by rewrite app_nil_r].
Qed.

Lemma release_loop_run_ids fuel st now net sq live r :
  (∀ id qj, rl_queue r !! id = Some qj → job_id (payload (signed (q_job qj))) = id) →
  ∃ l, run_ids (rl_outputs (release_loop fuel st now net sq live r))
       = run_ids (rl_outputs r) ++ l ∧
       l `sublist_of` drained_ids fuel (rl_session r) (rl_queue r).
Proof.
  revert r; induction fuel as [|fuel IH]; intros r Hq; simpl.
  { exists []. by rewrite app_nil_r. }
  destruct (rl_queue r !! session_next_job_id (rl_session r)) as [q|] eqn:E.
  2:{ exists []. by rewrite app_nil_r. }
  destruct (release_one_chain st now net sq live q r) as [E1 E2].
  destruct (IH (release_one st now net sq live q r)) as (l&Hl&Hs).
  { intros id qj. rewrite E2. intros [_ Hi]%lookup_delete_Some. eauto. }
  rewrite E1, E2 in Hs. rewrite Hl.
  destruct (release_one_run_ids st now net sq live q r) as [E3|E3]; rewrite E3.
  - exists l. split; [done|]. by apply sublist_cons.
  - exists (session_next_job_id (rl_session r) :: l). split; [|by apply sublist_skip].
    rewrite <- app_assoc, (Hq _ _ E). done.
Qed.

(** C9. Jobs run in chain order, each at most once per release: the jobs one
    release hands to the executor form a duplicate-free subsequence of the chain
    positions it walks, and the walk goes on until the chain's next job is not
    queued. *)
Theorem release_in_chain_order current own_b trust b0 c0 n0 st now net a :
  reachable current own_b trust b0 c0 n0 st →
  st_session st = Active a →
  let chain := drained_ids (size (a_queued_jobs a)) (a_session a) (a_queued_jobs a) in
  run_ids (release_ready_jobs st now net).2 `sublist_of` chain ∧ NoDup chain ∧
  ∃ a', st_session (release_ready_jobs st now net).1 = Active a' ∧
    a_queued_jobs a' !! session_next_job_id (a_session a') = None ∧
    a_queued_jobs a' ⊆ a_queued_jobs a.
Proof.
  intros Hwf%reachable_wf Es. cbv zeta. split_and!.
  - unfold release_ready_jobs. rewrite Es. destruct net as [n|]; cbn [snd].
    2:{ destruct (drain_loop _ _ _). apply sublist_nil_l. }
    destruct (release_loop_run_ids (size (a_queued_jobs a)) st now n (a_seq a) (a_live a)
      (mkRelease (a_session a) (a_queued_jobs a) (st_attachments st) (st_next_channel st) []))
      as (l & -> & Hs); [|done].
    pose proof (swf_session _ Hwf) as Hs. rewrite Es in Hs. destruct Hs as (Hq&_).
    intros id qj Hi. by apply Hq in Hi as (_&?&_).
  - apply drained_ids_NoDup.
  - destruct (release_ready_jobs_session st now net a Es) as (s&q&Ed&E). eexists. split; [exact E|].
    pose proof (drain_loop_done (size (a_queued_jobs a)) (a_session a) (a_queued_jobs a)) as Hd.
    pose proof (drain_loop_keeps (size (a_queued_jobs a)) (a_session a) (a_queued_jobs a)) as Hk.
    rewrite Ed in Hd, Hk. cbn in *. split; [by apply Hd|]. by destruct Hk as (_&_&?).
Qed.

(** Losing the universe does not change where a session stands: releasing
    with a gossip connection and draining without one advance the chain and the
    queue identically; draining only withholds the outputs. *)
Theorem drain_equals_release st now n :
  st_session (release_ready_jobs st now None).1 = st_session (release_ready_jobs st now (Some n)).1
  ∧ (release_ready_jobs st now None).2 = [].
Proof.
  destruct (st_session st) as [|a] eqn:Es.
  - unfold release_ready_jobs. by rewrite Es.
  - split.
    + destruct (release_ready_jobs_session st now None a Es) as (s&q&Ed&->).
      destruct (release_ready_jobs_session st now (Some n) a Es) as (s'&q'&Ed'&->). congruence.
    + unfold release_ready_jobs. rewrite Es. by destruct (drain_loop _ _ _).
Qed.

(** ** What operations leave of the active session *)

(** The same session, up to its queue and its place in the chain. *)
Definition same_session (x y : SessionState) : Prop :=
  match x, y with
  | Inactive, Inactive => True
  | Active a, Active b =>
    a_seq b = a_seq a ∧ a_live b = a_live a ∧ sess_id (a_session b) = sess_id (a_session a) ∧
    started_by (a_session b) = started_by (a_session a) ∧ a_attach_grants b = a_attach_grants a
  | _, _ => False
  end.

#[export] Instance same_session_preorder : PreOrder same_session.
Proof.
  split; [by intros []|].
  intros [|x] [|y] [|z]; cbn; try done.
  intros (?&?&?&?&?) (?&?&?&?&?). split_and!; congruence.
Qed.

Lemma same_session_rank x y : same_session x y → state_rank y = state_rank x.
Proof. destruct x, y; cbn; try done. by intros (->&_&->&_&_). Qed.

Lemma same_session_access x y kid : same_session x y → attach_access y kid = attach_access x kid.
Proof. destruct x, y; cbn; try done. by intros (_&_&_&->&->). Qed.

(** Same life, same rack, same pending starts, same session. *)
Record quiet (st st' : State) : Prop := {
  quiet_rack : st_rack st' = st_rack st;
  quiet_certs : st_certs st' = st_certs st;
  quiet_past : st_past st' = st_past st;
  quiet_pending : st_pending_starts st' = st_pending_starts st;
  quiet_session : same_session (st_session st) (st_session st');
}.

#[export] Instance quiet_preorder : PreOrder quiet.
Proof. split; [by intros st; split|]. intros x y z [] []. split; by etrans. Qed.

Lemma quiet_same_life st st' : quiet st st' → same_life st st'.
Proof. intros [E1 E2 E3 _ _]. split; unfold own; rewrite ?E1, ?E2, ?E3; done. Qed.

Lemma enqueue_job_quiet st now qj actor : quiet st (enqueue_job st now qj actor).
Proof.
  unfold enqueue_job. destruct (st_session st) as [|a] eqn:Es; [done|].
  repeat case_match; split; cbn; rewrite ?Es; done.
Qed.

Lemma cancel_job_quiet st now id actor replayed : quiet st (cancel_job st now id actor replayed).
Proof.
  unfold cancel_job. destruct (st_session st) as [|a] eqn:Es; [done|].
  destruct (negb replayed && _); split; cbn; rewrite ?Es; done.
Qed.

Lemma release_ready_jobs_quiet st now net : quiet st (release_ready_jobs st now net).1.
Proof.
  destruct (release_ready_jobs_frame st now net) as (E1&_&E2&E3&E4).
  split; [done..|]. destruct (st_session st) as [|a] eqn:Es.
  - unfold release_ready_jobs. rewrite Es. cbn. by rewrite Es.
  - destruct (release_ready_jobs_session st now net a Es) as (s&q&Ed&->).
    destruct (drain_loop_keeps (size (a_queued_jobs a)) (a_session a) (a_queued_jobs a)) as (H1&H2&_).
    rewrite Ed in H1, H2. by cbn in *.
Qed.

Lemma skip_quiet st a s id moved :
  st_session st = Active a → skip_job (a_session a) id = (moved, s) →
  quiet st (with_session st (Active (mkActive (a_seq a) (a_live a) s (a_queued_jobs a)
                                       (a_attach_grants a)))).
Proof.
  intros Es Esk. destruct (skip_job_keeps (a_session a) id) as [E1 E2].
  rewrite Esk in E1, E2. split; [done..|]. rewrite Es. cbn in *. done.
Qed.

(** The three ways a step can touch the session. *)
Inductive session_change st i st' : Prop :=
| sc_same : same_session (st_session st) (st_session st') → session_change st i st'
| sc_confirm v r sj params sleds start a :
    i = IGossip v (V0 (MRequest (RJob r))) → request r = JRStart sj params sleds →
    (session_id (payload sj), start) ∈ lru_entries (st_pending_starts st) →
    opt_rank_leb (Some (seq (ps_preimage start), session_id (payload sj)))
      (state_rank (st_session st)) = false →
    st_session st' = Active a →
    a_seq a = seq (ps_preimage start) → a_live a = ps_live start →
    sess_id (a_session a) = session_id (payload sj) →
    started_by (a_session a) = Some (ps_actor start) → a_attach_grants a = ∅ →
    session_change st i st'
| sc_starter v r a :
    i = IGossip v (V0 (MRequest (RSession r))) →
    st_session st = Active a → started_by (a_session a) = Some (actor r) →
    (request r = SRStop (sess_id (a_session a)) ∧ st_session st' = Inactive ∨
     (∃ kid access, request r = SRAllowAttach (sess_id (a_session a)) kid access ∧
        st_session st' = Active (mkActive (a_seq a) (a_live a) (a_session a) (a_queued_jobs a)
                                   (<[kid := access]> (a_attach_grants a)))) ∨
     (∃ kid, request r = SRDenyAttach (sess_id (a_session a)) kid ∧
        st_session st' = Active (mkActive (a_seq a) (a_live a) (a_session a) (a_queued_jobs a)
                                   (delete kid (a_attach_grants a))))) →
    session_change st i st'.

Lemma handle_session_request_change st now net v r :
  session_change st (IGossip v (V0 (MRequest (RSession r))))
    (handle_session_request st now net v (actor r) (request r)).1.
Proof.
  unfold handle_session_request. destruct (request r) as [p|sid|sid id|sid kid access|sid kid] eqn:Er.
  - apply sc_same. apply reflexive_eq. symmetry. by repeat case_match.
  - destruct (st_session st) as [|a] eqn:Es; [by apply sc_same; cbn; rewrite Es|].
    case_bool_decide as Hs; [|by apply sc_same; cbn; rewrite Es].
    case_bool_decide as Ha; [by apply sc_same; cbn; rewrite Es|].
    eapply sc_starter; [done|exact Es| |left; subst; done].
    destruct (decide (started_by (a_session a) = Some (actor r))); done.
  - destruct (st_session st) as [|a] eqn:Es; [by apply sc_same; cbn; rewrite Es|].
    case_bool_decide as Hs; [|by apply sc_same; cbn; rewrite Es].
    case_bool_decide as Ha; [by apply sc_same; cbn; rewrite Es|].
    destruct (skip_job (a_session a) id) as [moved s] eqn:Esk.
    destruct moved; [|by apply sc_same; cbn; rewrite Es].
    apply sc_same, quiet_session. etrans; [by eapply skip_quiet|].
    etrans; [apply cancel_job_quiet|apply release_ready_jobs_quiet].
  - destruct (st_session st) as [|a] eqn:Es; [by apply sc_same; cbn; rewrite Es|].
    case_bool_decide as Hs; [|by apply sc_same; cbn; rewrite Es].
    case_bool_decide as Ha; cbn [andb]; [|by apply sc_same; cbn; rewrite Es].
    eapply sc_starter; [done|exact Es|done|]. right; left. subst. by exists kid, access.
  - destruct (st_session st) as [|a] eqn:Es; [by apply sc_same; cbn; rewrite Es|].
    case_bool_decide as Hs; [|by apply sc_same; cbn; rewrite Es].
    case_bool_decide as Ha; cbn [andb]; [|by apply sc_same; cbn; rewrite Es].
    eapply sc_starter; [done|exact Es|done|]. right; right. subst. by exists kid.
Qed.

Lemma handle_job_request_change st now net v r :
  session_change st (IGossip v (V0 (MRequest (RJob r))))
    (handle_job_request st now net v (actor r) (request r)).1.
Proof.
  unfold handle_job_request. destruct (request r) as [sj params sleds|id] eqn:Er.
  2:{ apply sc_same. repeat case_match; try done. cbn. apply quiet_session, cancel_job_quiet. }
  destruct (certs_verify (st_certs st) sj) as [job|] eqn:Ev; [|by apply sc_same].
  pose proof (confirm_start_cases st now (session_id (payload sj))) as Hc.
  destruct (confirm_start st now (session_id (payload sj))) as [st1 o1]. cbn [fst snd] in Hc.
  set (fin := fst _).
  assert (Hss : same_session (st_session st1) (st_session fin)).
  { unfold fin. destruct (match state_session (st_session st1) with
      Some s => bool_decide (sess_id s = session_id (payload sj)) | None => false end);
      [|by destruct (_ && negb _)].
    pose proof (release_ready_jobs_quiet (enqueue_job st1 now
      (mkQueuedJob job params sleds (negb (is_live st v))) (actor r)) now net) as Hq.
    destruct (release_ready_jobs _ now net) as [st2 o2]. cbn [fst] in *.
    apply quiet_session. etrans; [apply enqueue_job_quiet|exact Hq]. }
  clearbody fin. destruct Hc as [[-> _]|(start&s&Hin&Hrk&Hid&Hby&_&->&_)]; [by apply sc_same|].
  cbn in Hss. destruct (st_session fin) as [|a] eqn:Ef; [done|].
  destruct Hss as (E1&E2&E3&E4&E5). cbn in *.
  eapply sc_confirm; try done; congruence.
Qed.

Lemma settle_past st now net : ∃ p, (settle st now net).1 = with_past st p ∧
  birth p = birth (st_past st) ∧ committed p = committed (st_past st) ∧
  network p = network (st_past st).
Proof.
  unfold settle. destruct (reap_zombies_past st now) as (p&E&H1&H2&H3).
  destruct (reap_zombies st now) as [st1 o1]. cbn in E. subst st1.
  destruct net; [|by exists p].
  destruct (adjudicate_past (with_past st p) now) as (p'&E&H4&H5&H6).
  destruct (adjudicate_boundary (with_past st p) now) as [st2 o2]. cbn in *. subst st2.
  exists p'. split_and!; [done|congruence..].
Qed.

Lemma handle_job_event_frame st v b e :
  let st' := (handle_job_event st v b e).1 in
  st_session st' = st_session st ∧ st_certs st' = st_certs st ∧ st_rack st' = st_rack st ∧
  birth (st_past st') = birth (st_past st) ∧ committed (st_past st') = committed (st_past st) ∧
  network (st_past st') = network (st_past st).
Proof.
  assert (Hend : ∀ id, let st' := end_own_job st b id in
    st_session st' = st_session st ∧ st_certs st' = st_certs st ∧ st_rack st' = st_rack st ∧
    birth (st_past st') = birth (st_past st) ∧ committed (st_past st') = committed (st_past st) ∧
    network (st_past st') = network (st_past st)).
  { intros id. unfold end_own_job. by case_match. }
  assert (Htr : ∀ st1 id f, let st' := (transition_in st1 v b id f).1 in
    st_session st' = st_session st1 ∧ st_certs st' = st_certs st1 ∧ st_rack st' = st_rack st1 ∧
    st_past st' = st_past st1).
  { intros st1 id f. unfold transition_in. by destruct (transition_job_status _ _ _ _ _ _). }
  destruct e as [id t|id t res out|id t err|id t reason]; cbn [handle_job_event].
  - destruct (settled_on _ _ _); [done|]. by destruct (bool_decide (b = own st) && _).
  - destruct (Htr (end_own_job st b id) id (stop_transition id t res out)) as (->&->&->&->). apply Hend.
  - destruct (Htr (end_own_job st b id) id (error_transition id t err)) as (->&->&->&->). apply Hend.
  - destruct (Htr st id (skipped_transition id t reason)) as (->&->&->&->). done.
Qed.

Lemma step_change st now net i : session_change st i (step st now net i).1.
Proof.
  destruct i as [c|v m|]; cbn [step]; [by apply sc_same| |].
  - destruct m as [[[r|r]|b e]|ver msg]; cbn [state_update]; [| | |by apply sc_same].
    + apply handle_session_request_change.
    + apply handle_job_request_change.
    + apply sc_same, reflexive_eq. destruct e as [je|info]; [|done]. cbn [handle_event].
      destruct (handle_job_event_frame st v b je) as [E _].
      by destruct (handle_job_event st v b je).
  - apply sc_same, reflexive_eq. destruct (settle_past st now net) as (p&->&_). done.
Qed.

Lemma confirm_start_life st now sid : same_life st (confirm_start st now sid).1.
Proof. unfold confirm_start. repeat case_match; simplify_eq; done. Qed.

Lemma step_same_life st now net i : same_life st (step st now net i).1.
Proof.
  destruct i as [c|v m|]; cbn [step]; [done| |].
  - destruct m as [[[r|r]|b e]|ver msg]; cbn [state_update].
    + unfold handle_session_request.
      destruct (request r) as [p|sid|sid id|sid kid access|sid kid]; try (by repeat case_match).
      destruct (st_session st) as [|a] eqn:Es; [done|].
      case_bool_decide; [|done]. case_bool_decide; [done|].
      destruct (skip_job (a_session a) id) as [moved s] eqn:Esk. destruct moved; [|done].
      apply quiet_same_life. etrans; [by eapply skip_quiet|].
      etrans; [apply cancel_job_quiet|apply release_ready_jobs_quiet].
    + unfold handle_job_request. destruct (request r) as [sj params sleds|id].
      2:{ repeat case_match; try done. apply quiet_same_life, cancel_job_quiet. }
      destruct (certs_verify _ _) as [job|]; [|done].
      pose proof (confirm_start_life st now (session_id (payload sj))) as Hl.
      destruct (confirm_start st now (session_id (payload sj))) as [st1 o1]. cbn [fst] in Hl.
      destruct (match state_session (st_session st1) with
                | Some s => bool_decide (sess_id s = session_id (payload sj)) | None => false end);
        [|by destruct (_ && negb _)].
      etrans; [exact Hl|]. apply quiet_same_life.
      pose proof (release_ready_jobs_quiet (enqueue_job st1 now
        (mkQueuedJob job params sleds (negb (is_live st v))) (actor r)) now net) as Hq.
      destruct (release_ready_jobs _ now net) as [st2 o2]. cbn [fst] in *.
      etrans; [apply enqueue_job_quiet|exact Hq].
    + destruct e as [je|info]; cbn [handle_event].
      * destruct (handle_job_event_frame st v b je) as (_&E1&E2&E3&E4&E5).
        destruct (handle_job_event st v b je) as [st1 s]. cbn in *.
        split; unfold own; rewrite ?E1, ?E2; done.
      * unfold known_version. by case_match.
    + done.
  - destruct (settle_past st now net) as (p&->&E1&E2&E3). done.
Qed.

Lemma reachable_life current own_b trust b0 c0 n0 st :
  reachable current own_b trust b0 c0 n0 st →
  own st = own_b ∧ birth (st_past st) = b0 ∧ committed (st_past st) = c0 ∧
  network (st_past st) = n0.
Proof.
  induction 1 as [st Hn|st now net i _ (E1&E2&E3&E4)].
  - unfold state_new in Hn. destruct (certificates_new trust) as [certs|]; [|done].
    by injection Hn as <-.
  - destruct (step_same_life st now net i) as [_ F1 F2 F3 F4]. split_and!; congruence.
Qed.

(** Sessions only move forward: no input makes the active session stand
    lower in the signer's order, except a stop of the active session by the key
    that started it, which leaves no session. *)
Theorem session_rank_monotone st now net i :
  let st' := (step st now net i).1 in
  opt_rank_leb (state_rank (st_session st)) (state_rank (st_session st')) = true ∨
  (st_session st' = Inactive ∧
   ∃ v r a, i = IGossip v (V0 (MRequest (RSession r))) ∧ st_session st = Active a ∧
     request r = SRStop (sess_id (a_session a)) ∧ started_by (a_session a) = Some (actor r)).
Proof.
  cbv zeta. destruct (step_change st now net i)
    as [Hs|v r sj params sleds start a _ _ _ Hrk Es E1 _ E2 _ _
       |v r a Hi Es Hby [[Hr ->]|[(kid&acc&_&->)|(kid&_&->)]]].
  - left. rewrite (same_session_rank _ _ Hs). apply opt_rank_leb_refl.
  - left. rewrite Es. cbn [state_rank]. rewrite E1, E2. by apply opt_rank_leb_total.
  - right. split; [done|]. by exists v, r, a.
  - left. rewrite Es. apply opt_rank_leb_refl.
  - left. rewrite Es. apply opt_rank_leb_refl.
Qed.

(** Attach access is the starter's to give: a step changes the access a key
    has only by the starter allowing or denying that key, by the starter
    stopping the session, or by a higher-ranked session taking over. *)
Theorem attach_access_authority st now net i kid :
  let st' := (step st now net i).1 in
  attach_access (st_session st') kid = attach_access (st_session st) kid ∨
  state_rank (st_session st') ≠ state_rank (st_session st) ∨
  ∃ v r a, i = IGossip v (V0 (MRequest (RSession r))) ∧ st_session st = Active a ∧
    started_by (a_session a) = Some (actor r) ∧
    ((∃ access, request r = SRAllowAttach (sess_id (a_session a)) kid access ∧
       attach_access (st_session st') kid =
         Some (if bool_decide (kid = actor r) then ReadWrite else access)) ∨
     (request r = SRDenyAttach (sess_id (a_session a)) kid ∧
       attach_access (st_session st') kid =
         (if bool_decide (kid = actor r) then Some ReadWrite else None))).
Proof.
  cbv zeta. destruct (step_change st now net i)
    as [Hs|v r sj params sleds start a _ _ _ Hrk Es E1 _ E2 _ _
       |v r a Hi Es Hby [[Hr Ei]|[(k&acc&Hr&Ei)|(k&Hr&Ei)]]].
  - left. by apply same_session_access.
  - right; left. rewrite Es. cbn [state_rank]. rewrite E1, E2. intros E.
    rewrite E, opt_rank_leb_refl in Hrk. done.
  - right; left. rewrite Ei, Es. done.
  - rewrite Ei, Es. destruct (decide (k = kid)) as [->|Hne].
    + right; right. exists v, r, a. split_and!; [done..|]. left. exists acc. split; [done|]. cbn.
      rewrite Hby, lookup_insert_eq. repeat case_bool_decide; simplify_eq; done.
    + left. cbn. by rewrite lookup_insert_ne.
  - rewrite Ei, Es. destruct (decide (k = kid)) as [->|Hne].
    + right; right. exists v, r, a. split_and!; [done..|]. right. split; [done|]. cbn.
      rewrite Hby, lookup_delete_eq. repeat case_bool_decide; simplify_eq; done.
    + left. cbn. by rewrite lookup_delete_ne.
Qed.

(** No session without a preimage: in every reachable state the active
    session and every pending start are filed under the hash of a preimage that
    also fixes their place in the signer's order, the active session has a known
    starter, every queued job is verified and belongs to it, and at most
    [MAX_PENDING_STARTS] starts are pending. *)
Theorem sessions_are_genuine current own_b trust b0 c0 n0 st :
  reachable current own_b trust b0 c0 n0 st →
  session_ok (st_certs st) (st_session st) ∧ pending_ok (st_pending_starts st).
Proof. intros [_ Hs Hp _]%reachable_wf. done. Qed.

(** ** Convergence of session succession *)

(** Confirming a list of pending starts, one after the other. *)
Definition confirm_all (st : State) (now : DateTime) (l : list SessionId) : State :=
  foldl (λ st sid, (confirm_start st now sid).1) st l.

Lemma lru_peek_pop {V} (c : lru SessionId V) sid sid' :
  lru_peek (lru_pop c sid).2 sid' = if decide (sid' = sid) then None else lru_peek c sid'.
Proof.
  rewrite !lru_peek_spec. destruct (lru_pop_spec _ _ c sid) as (_ & -> & _).
  induction (lru_entries c) as [|[k v] l IH]; [by case_decide|].
  rewrite filter_cons. cbn [fst]. destruct (decide (k = sid)) as [->|Hk].
  - rewrite decide_False by naive_solver. rewrite IH. case_decide; [done|].
    cbn [List.find fst]. by rewrite bool_decide_false by congruence.
  - rewrite decide_True by done. cbn [List.find fst]. case_bool_decide; [|done].
    by rewrite decide_False by congruence.
Qed.

Lemma confirm_start_rank st now sid :
  state_rank (st_session (confirm_start st now sid).1)
  = opt_rank_max (state_rank (st_session st)) (pending_rank st sid) ∧
  st_pending_starts (confirm_start st now sid).1 = (lru_pop (st_pending_starts st) sid).2.
Proof.
  unfold confirm_start, pending_rank.
  pose proof (lru_pop_spec _ _ (st_pending_starts st) sid) as (E&_&_).
  destruct (lru_pop (st_pending_starts st) sid) as [popped c]. cbn [fst] in E. subst popped.
  destruct (lru_peek _ sid) as [start|]; cbn -[opt_rank_leb opt_rank_max].
  2:{ unfold opt_rank_max. by destruct (state_rank _). }
  destruct (opt_rank_leb (Some _) _) eqn:Er; cbn -[opt_rank_leb opt_rank_max]; (split; [|done]).
  - rewrite opt_rank_max_comm. unfold opt_rank_max. by rewrite Er.
  - unfold opt_rank_max. rewrite (opt_rank_leb_total _ _ Er).
    destruct (past_boundary _); [case_bool_decide|]; done.
Qed.

Lemma foldl_max_le r l : opt_rank_leb r (foldl opt_rank_max r l) = true.
Proof.
  revert r; induction l as [|x l IH]; intros r; simpl; [apply opt_rank_leb_refl|].
  eapply opt_rank_leb_trans; [apply opt_rank_max_le|apply IH].
Qed.

(** Forgetting a rank that is already dominated does not change the maximum. *)
Lemma foldl_max_forget (f : SessionId → option SessionRank) sid r l :
  opt_rank_leb (f sid) r = true →
  foldl opt_rank_max r (map (λ i, if decide (i = sid) then None else f i) l)
  = foldl opt_rank_max r (map f l).
Proof.
  revert r; induction l as [|x l IH]; intros r Hr; [done|]. cbn [map foldl].
  assert (E : opt_rank_max r (if decide (x = sid) then None else f x) = opt_rank_max r (f x)).
  { case_decide as Ex; [subst x|done].
    rewrite (opt_rank_max_comm r (f sid)), (opt_rank_max_comm r None).
    unfold opt_rank_max. by rewrite Hr. }
  rewrite E. apply IH. eapply opt_rank_leb_trans; [exact Hr|apply opt_rank_max_le].
Qed.

Lemma confirm_all_rank st now l :
  state_rank (st_session (confirm_all st now l))
  = foldl opt_rank_max (state_rank (st_session st)) (map (pending_rank st) l).
Proof.
  revert st; induction l as [|sid l IH]; intros st; [done|].
  unfold confirm_all in *. cbn [foldl map]. rewrite IH.
  destruct (confirm_start_rank st now sid) as [-> Hp].
  rewrite <- (foldl_max_forget (pending_rank st) sid).
  2:{ rewrite opt_rank_max_comm. apply opt_rank_max_le. }
  f_equal. apply map_ext. intros i. unfold pending_rank at 1. rewrite Hp, lru_peek_pop.
  by case_decide.
Qed.

Lemma foldl_max_perm l l' r : l ≡ₚ l' → foldl opt_rank_max r l = foldl opt_rank_max r l'.
Proof.
  intros Hp. revert r. induction Hp as [| |x y l|]; intros r; cbn; [done|auto| |congruence].
  f_equal. rewrite <- !opt_rank_max_assoc. f_equal. apply opt_rank_max_comm.
Qed.

(** The session a pending start becomes. *)
Definition session_from (p : Past) (sid : SessionId) (start : PendingStart) : SessionState :=
  Active (mkActive (seq (ps_preimage start)) (ps_live start)
    (match past_boundary p with
     | Some b =>
       if bool_decide (b_session b = sid) then resume_at (session_started sid (ps_actor start)) (b_successor b)
       else session_started sid (ps_actor start)
     | None => session_started sid (ps_actor start)
     end) ∅ ∅).

Lemma session_from_rank p sid start :
  state_rank (session_from p sid start) = Some (seq (ps_preimage start), sid).
Proof. unfold session_from. cbn. repeat case_match; done. Qed.

(** Confirming leaves the session, or puts a start of a higher rank in its place. *)
Definition taken_over (st : State) (l : list SessionId) (s : SessionState) : Prop :=
  ∃ sid start, sid ∈ l ∧ lru_peek (st_pending_starts st) sid = Some start ∧ s = session_from (st_past st) sid start.

Lemma confirm_start_takeover st now sid :
  let st' := (confirm_start st now sid).1 in
  st_past st' = st_past st ∧ st_pending_starts st' = (lru_pop (st_pending_starts st) sid).2 ∧
  (st_session st' = st_session st ∨
   taken_over st [sid] (st_session st') ∧ opt_rank_leb (state_rank (st_session st')) (state_rank (st_session st)) = false).
Proof.
  cbv zeta. destruct (confirm_start_rank st now sid) as [Hr Hpe]. split_and!; [|done|]; revert Hr; unfold confirm_start;
    pose proof (lru_pop_spec _ _ (st_pending_starts st) sid) as (E&_&_);
    destruct (lru_pop (st_pending_starts st) sid) as [popped c]; cbn [fst] in E; subst popped;
    destruct (lru_peek _ sid) as [start|] eqn:Es; cbn -[opt_rank_leb opt_rank_max]; try done; [intros _; by case_match| |intros _; by left].
  destruct (opt_rank_leb (Some _) _) eqn:Er; [by left|]. intros _. right. split.
  - exists sid, start. by split_and!; [apply list_elem_of_singleton|..].
  - change (opt_rank_leb (state_rank (session_from (st_past st) sid start)) (state_rank (st_session st)) = false).
    by rewrite session_from_rank.
Qed.

Lemma confirm_all_cases st now l :
  let s := st_session (confirm_all st now l) in
  s = st_session st ∨ taken_over st l s ∧ opt_rank_leb (state_rank s) (state_rank (st_session st)) = false.
Proof.
  cbv zeta. revert st. induction l as [|sid l IH]; intros st; [by left|].
  unfold confirm_all in *. cbn [foldl]. destruct (confirm_start_takeover st now sid) as (Ep&Epe&Hc).
  set (st1 := (confirm_start st now sid).1) in *. clearbody st1.
  destruct (IH st1) as [->|[(sid'&start&Hin&Hl&Es) Hr]].
  - destruct Hc as [->|[(sid'&start&Hin&Hl&Es) Hr]]; [by left|right]. split; [|done].
    exists sid', start. split_and!; [|done..]. apply list_elem_of_singleton in Hin as ->. by left.
  - right. rewrite Epe, lru_peek_pop in Hl. case_decide; [done|]. split.
    + exists sid', start. rewrite <- Ep. split_and!; [by right|done..].
    + destruct Hc as [<-|[_ Hr']]; [done|]. apply not_true_is_false. intros Hle.
      apply opt_rank_leb_total in Hr'. by rewrite (opt_rank_leb_trans _ _ _ Hle Hr') in Hr.
Qed.

(** C28. Sleds agree on the session whatever the order of arrival.  Confirming the same
    pending starts in two orders leaves the same session, with the same starter and at
    the same position; it is the one active before, unchanged, or a session freshly
    begun from one of the starts; and nothing outranks it, neither the one active
    before nor any of the starts. *)
Theorem succession_converges st now l l' :
  l ≡ₚ l' →
  let s := st_session (confirm_all st now l) in
  s = st_session (confirm_all st now l') ∧
  (s = st_session st ∨
   ∃ sid start, sid ∈ l ∧ lru_peek (st_pending_starts st) sid = Some start ∧ s = session_from (st_past st) sid start) ∧
  opt_rank_leb (state_rank (st_session st)) (state_rank s) = true ∧
  ∀ sid, sid ∈ l → opt_rank_leb (pending_rank st sid) (state_rank s) = true.
Proof.
  intros Hp. cbv zeta. assert (Er : state_rank (st_session (confirm_all st now l)) = state_rank (st_session (confirm_all st now l'))).
  { rewrite !confirm_all_rank. by apply foldl_max_perm, fmap_Permutation. }
  split_and!.
  - destruct (confirm_all_cases st now l) as [E1|[(sid&start&_&Hl&E1) H1]],
      (confirm_all_cases st now l') as [E2|[(sid'&start'&_&Hl'&E2) H2]].
    + by rewrite E1, E2.
    + rewrite <- Er, E1, opt_rank_leb_refl in H2. done.
    + rewrite Er, E2, opt_rank_leb_refl in H1. done.
    + rewrite E1, E2, !session_from_rank in Er. injection Er as Eq Esid. subst sid'. rewrite E1, E2. congruence.
  - destruct (confirm_all_cases st now l) as [|[H _]]; [by left|by right].
  - rewrite confirm_all_rank. apply foldl_max_le.
  - intros sid (l1&l2&->)%list_elem_of_split. rewrite confirm_all_rank, map_app, foldl_app. cbn [map foldl].
    eapply opt_rank_leb_trans; [|apply foldl_max_le].
    rewrite opt_rank_max_comm. apply opt_rank_max_le.
Qed.

(** ** Restarts *)

(** A boundary record with an ending recorded in it since. *)
Definition with_ending (b : Boundary) (ending : option JobStatus) : Boundary :=
  mkBoundary (b_network b) (b_session b) (b_seq b) (b_job b) (b_successor b) ending.

(** C27. A restarted sled picks the chain up where it left it.  When the session of a
    boundary record written in the same universe, whatever ending of its job was
    recorded in it since, is confirmed again and outranks the session that is active,
    the next job the sled expects is the successor of the job it committed to, and the
    screen admits the session even though its start is replayed. *)
Theorem resume_continues_chain st now n job start s ending :
  committed (st_past st) = Some (with_ending (boundary_for n s (seq (ps_preimage start)) job) ending) →
  network (st_past st) = n →
  lru_peek (st_pending_starts st) (sess_id s) = Some start →
  opt_rank_leb (Some (seq (ps_preimage start), sess_id s)) (state_rank (st_session st)) = false →
  ∃ a, st_session (confirm_start st now (sess_id s)).1 = Active a ∧
    session_next_job_id (a_session a) = session_next_job_id (job_started s job) ∧
    started_by (a_session a) = Some (ps_actor start) ∧
    screen (st_past st) (sess_id (a_session a)) (a_seq a) (a_live a) = Admit.
Proof.
  intros Hc Hn Hp Hr. unfold confirm_start.
  pose proof (lru_pop_spec _ _ (st_pending_starts st) (sess_id s)) as (E&_&_).
  destruct (lru_pop _ _) as [popped c]. cbn [fst] in E. rewrite E, Hp. cbn -[opt_rank_leb].
  rewrite Hr. unfold past_boundary. rewrite Hc. cbn. rewrite Hn.
  rewrite !(bool_decide_true _) by done. eexists. split; [done|]. cbn. split_and!; [done..|].
  unfold screen. rewrite Hc. cbn. rewrite Hn, !(bool_decide_true _) by done.
  by rewrite orb_true_r.
Qed.

(** ** Authority of requests *)

(** C33. Only the starter commands a session: a stop, skip, allow or deny by any
    other key, or one that finds no session, changes nothing and announces
    nothing; neither does a job stop. *)
Theorem strangers_command_nothing st now net v k req id :
  (∀ a, st_session st = Active a → started_by (a_session a) ≠ Some k) →
  (match req with SRStart _ => False | _ => True end) →
  handle_session_request st now net v k req = (st, []) ∧
  handle_job_request st now net v k (JRStop id) = (st, []).
Proof.
  intros Hk Hreq. split.
  - destruct req as [p|sid|sid j|sid kid access|sid kid]; [done|..]; unfold handle_session_request;
      (destruct (st_session st) as [|a] eqn:Es; [done|]); specialize (Hk a eq_refl);
      (case_bool_decide; [|done]); by case_bool_decide.
  - unfold handle_job_request. rewrite bool_decide_true; [done|].
    destruct (st_session st) as [|a] eqn:Es; [done|]. cbn. by apply Hk.
Qed.

(** ** The queue's bound *)

Definition queue_size (s : SessionState) : N :=
  match s with Inactive => 0 | Active a => N.of_nat (size (a_queued_jobs a)) end.

Lemma release_queue_size st now net :
  queue_size (st_session (release_ready_jobs st now net).1) <= queue_size (st_session st).
Proof.
  destruct (st_session st) as [|a] eqn:Es.
  - unfold release_ready_jobs. rewrite Es. cbn. by rewrite Es.
  - destruct (release_ready_jobs_session st now net a Es) as (s&q&Ed&->). cbn.
    destruct (drain_loop_keeps (size (a_queued_jobs a)) (a_session a) (a_queued_jobs a)) as (_&_&Hs).
    rewrite Ed in Hs. cbn in Hs. apply map_subseteq_size in Hs. lia.
Qed.

Lemma cancel_queue_size st now id k r :
  queue_size (st_session (cancel_job st now id k r)) <= queue_size (st_session st).
Proof.
  unfold cancel_job. destruct (st_session st) as [|a] eqn:Es; [by rewrite Es|].
  assert (Hd : (size (delete id (a_queued_jobs a)) <= size (a_queued_jobs a))%nat)
    by apply map_subseteq_size, delete_subseteq.
  destruct (negb r && _); cbn; lia.
Qed.

Lemma enqueue_queue_size st now qj k :
  q_replayed qj = false →
  queue_size (st_session (enqueue_job st now qj k))
  <= N.max MAX_QUEUED_JOBS (queue_size (st_session st)).
Proof.
  intros Hr. unfold enqueue_job. destruct (st_session st) as [|a] eqn:Es; [rewrite Es; cbn; lia|].
  rewrite Hr. cbn [negb andb]. case_match; [rewrite Es; lia|].
  set (id := job_id _). destruct (N.leb_spec MAX_QUEUED_JOBS (N.of_nat (size (a_queued_jobs a)))) as [Hge|Hlt];
    cbn [andb].
  - case_bool_decide as Hn; [rewrite Es; lia|].
    assert (Hs : size (<[id := qj]> (a_queued_jobs a)) = size (a_queued_jobs a)).
    { rewrite map_size_insert. destruct (a_queued_jobs a !! id); done. }
    destruct (bool_decide _ && _); cbn; rewrite Hs; lia.
  - assert (Hs : (size (<[id := qj]> (a_queued_jobs a)) <= S (size (a_queued_jobs a)))%nat).
    { rewrite map_size_insert. destruct (a_queued_jobs a !! id); cbn; lia. }
    destruct (bool_decide _ && _); cbn; lia.
Qed.

Lemma confirm_queue_size st now sid :
  queue_size (st_session (confirm_start st now sid).1) <= queue_size (st_session st).
Proof.
  destruct (confirm_start_cases st now sid) as [[-> _]|(start&s&_&_&_&_&_&->&_)]; [done|].
  cbn [queue_size st_session with_session a_queued_jobs]. rewrite map_size_empty. lia.
Qed.

(** Close a bound on the queue of a session that is known by an equation. *)
Ltac queue_lia :=
  cbn -[N.max];
  repeat match goal with E : st_session _ = _ |- _ => progress rewrite ?E end;
  cbn -[N.max]; lia.

(** Live traffic cannot flood the queue: no live message, from any key and
    with any content, leaves more than [MAX_QUEUED_JOBS] jobs queued unless that
    many were queued before it. *)
Theorem live_queue_bounded st now net v m :
  is_live st v = true →
  queue_size (st_session (step st now net (IGossip v m)).1)
  <= N.max MAX_QUEUED_JOBS (queue_size (st_session st)).
Proof.
  intros Hl. destruct m as [[[r|r]|b e]|ver msg]; cbn [step state_update].
  - unfold handle_session_request. destruct (request r) as [p|sid|sid id|sid kid access|sid kid].
    + destruct (st_session st) as [|a] eqn:Es; repeat case_match; queue_lia.
    + destruct (st_session st) as [|a] eqn:Es; [queue_lia|].
      repeat case_bool_decide; queue_lia.
    + destruct (st_session st) as [|a] eqn:Es; [queue_lia|].
      case_bool_decide; [|queue_lia]. case_bool_decide; [queue_lia|].
      destruct (skip_job (a_session a) id) as [[] s]; [|queue_lia].
      etrans; [apply release_queue_size|]. etrans; [apply cancel_queue_size|]. queue_lia.
    + destruct (st_session st) as [|a] eqn:Es; [queue_lia|].
      destruct (_ && _); queue_lia.
    + destruct (st_session st) as [|a] eqn:Es; [queue_lia|].
      destruct (_ && _); queue_lia.
  - unfold handle_job_request. destruct (request r) as [sj params sleds|id].
    2:{ repeat case_match; cbn -[N.max]; try lia. etrans; [apply cancel_queue_size|lia]. }
    destruct (certs_verify _ _) as [job|]; [|queue_lia].
    pose proof (confirm_queue_size st now (session_id (payload sj))) as Hc.
    destruct (confirm_start st now (session_id (payload sj))) as [st1 o1]. cbn [fst] in Hc.
    destruct (match state_session (st_session st1) with
      Some s => bool_decide (sess_id s = session_id (payload sj)) | None => false end).
    2:{ destruct (_ && negb _); queue_lia. }
    rewrite Hl. cbn [negb].
    pose proof (release_queue_size (enqueue_job st1 now (mkQueuedJob job params sleds false) (actor r))
      now net) as Hr.
    destruct (release_ready_jobs _ now net) as [st2 o2]. cbn [fst] in *.
    etrans; [exact Hr|]. etrans; [by apply enqueue_queue_size|]. lia.
  - destruct e as [je|info]; cbn [handle_event]; [|queue_lia].
    destruct (handle_job_event_frame st v b je) as [E _].
    destruct (handle_job_event st v b je) as [st1 s]. cbn in *. rewrite E. lia.
  - queue_lia.
Qed.
End facts.
