(* ===== verification/StatusFacts.v ===== *)
(** * Job statuses: monotonicity, convergence and zombies

    How the statuses the state machine of [State.v] records evolve, whatever
    gossip delivers and in whatever order, and how a restarted sled settles the
    jobs its predecessor left running. *)
From S2P Require Import Prelude External Codephrases Hash Targets Keys Jobs Messages.
From S2P Require Import Rack Certs History Boundary Executor State StateFacts.
Open Scope N_scope.

(** ** The order on statuses *)

(** How settled a job is on a sled: unknown, queued, started, presumed
    interrupted, ended. *)
Definition status_rank (s : option JobStatus) : nat :=
  match s with
  | None => 0
  | Some (Queued _ _ _) => 1
  | Some (Started _ _) => 2
  | Some (Error _ _ PInterrupted) => 3
  | Some _ => 4
  end.

(** A status may be replaced by a more settled one; only an unsettled status may
    be restated. *)
Definition status_succ (old new : option JobStatus) : Prop :=
  old = new ∨ (status_rank old < status_rank new)%nat ∨
  (status_rank old = status_rank new ∧ (status_rank old <= 2)%nat).

Section facts.
Context {Irum : Rumors} {Ibb : BaseboardOps} {Isha : Sha3} {Ilru : LruCache} {Ipki : Pki}.
Implicit Types st : State.

(** What history the job leaves: advanced, or evicted whole by a full history. *)
Definition advances (h h' : JobHistory) : Prop := ∀ id b,
  status_succ (status_on h id b) (status_on h' id b) ∨
  (MAX_HISTORY <= history_len h ∧ job_status h' !! id = None).

Lemma advances_refl h : advances h h.
Proof. intros id b. left. by left. Qed.

Lemma history_len_write h id b s r :
  history_len (write_status h id b s r) <= history_len h + 1 ∧
  (is_Some (job_status h !! id) → history_len (write_status h id b s r) = history_len h).
Proof.
  unfold history_len, write_status. cbn [job_status]. rewrite map_size_insert.
  destruct (job_status h !! id); cbn; split; [lia|done|lia|by intros []].
Qed.

Section queue.
Context {Q : Type}.
Implicit Types q : option (gmap JobId Q).

(** Below its limit the history loses nothing. *)
Lemma set_job_status_roomy h id b s r q :
  history_len (write_status h id b s r) <= MAX_HISTORY →
  set_job_status h id b s r q = write_status h id b s r.
Proof. intros Hl. unfold set_job_status, gc. by rewrite (proj2 (N.leb_le _ _) Hl). Qed.

Lemma set_job_status_advances h id b s r q :
  status_succ (status_on h id b) (Some s) → advances h (set_job_status h id b s r q).
Proof.
  intros Hs id' b'. destruct (history_len_write h id b s r) as [Hlen _].
  destruct (N.le_gt_cases (history_len (write_status h id b s r)) MAX_HISTORY) as [Hle|Hgt].
  - left. rewrite set_job_status_roomy, status_on_write by done.
    case_decide as Hd; [by destruct Hd as [-> ->]|by left].
  - destruct (set_job_status_on h id b s r q id' b') as [E|E]; [left|right; split; [lia|done]].
    rewrite E. case_decide as Hd; [by destruct Hd as [-> ->]|by left].
Qed.

Lemma transition_advances h id b r f q :
  (∀ n, f (status_on h id b) = Some n → status_succ (status_on h id b) (Some n)) →
  advances h (transition_job_status h id b r f q).2.
Proof.
  intros Hf. unfold transition_job_status. destruct (f (status_on h id b)) as [n|] eqn:E.
  - by apply set_job_status_advances, Hf.
  - apply advances_refl.
Qed.
End queue.

Lemma cancel_transition_succ id now k old n :
  cancel_transition id now k old = Some n → status_succ old (Some n).
Proof. destruct old as [[]|]; intros [= <-]; right; left; cbn; lia. Qed.

(** The transition of an event that reports an ending. *)
Definition ending (e : JobEvent) : option (option JobStatus → option JobStatus) :=
  match e with
  | EStart _ _ => None
  | EStop id t res out => Some (stop_transition id t res out)
  | EError id t err => Some (error_transition id t err)
  | ESkipped id t reason => Some (skipped_transition id t reason)
  end.

Lemma ending_strict e f old n :
  ending e = Some f → f old = Some n →
  status_job_id n = event_job_id e ∧ is_terminal n = true ∧
  (status_rank old < status_rank (Some n))%nat.
Proof.
  destruct e as [id t|id t res out|id t err|id t reason]; cbn; intros He Hf; [done|injection He as <-..];
    destruct old as [[]|]; cbn in Hf; cases_in Hf; split_and!; try done; cbn; repeat case_match; simplify_eq/=; first [done|lia].
Qed.

Lemma ending_succ e f old n : ending e = Some f → f old = Some n → status_succ old (Some n).
Proof. intros He Hf. right; left. by eapply ending_strict. Qed.

Lemma start_succ h id b t :
  settled_on h id b = false → status_succ (status_on h id b) (Some (Started id t)).
Proof.
  unfold settled_on. destruct (status_on h id b) as [[]|]; cbn; try done; intros _;
    try (right; left; cbn; lia). right; right. cbn. lia.
Qed.

Lemma enqueue_job_advances st now qj k : advances (st_history st) (st_history (enqueue_job st now qj k)).
Proof.
  unfold enqueue_job. destruct (st_session st) as [|a]; [apply advances_refl|].
  destruct (negb (q_replayed qj) && history_contains _ _) eqn:E1; [apply advances_refl|].
  case_match; [apply advances_refl|].
  destruct (bool_decide _ && negb (q_replayed qj)) eqn:E2; [|apply advances_refl].
  apply andb_prop in E2 as [_ E2]. rewrite E2 in E1. cbn in E1.
  apply bool_decide_eq_false, eq_None_not_Some in E1. apply set_job_status_advances.
  cbn [st_history with_session with_history]. unfold status_on. rewrite E1.
  right; left. cbn. lia.
Qed.

Lemma cancel_job_advances st now id k r : advances (st_history st) (st_history (cancel_job st now id k r)).
Proof.
  unfold cancel_job. destruct (st_session st) as [|a]; [apply advances_refl|].
  destruct (negb r && _); [|apply advances_refl].
  apply transition_advances. intros n. apply cancel_transition_succ.
Qed.

Lemma transition_in_history st v b id f :
  (∀ n, f (status_on (st_history st) id b) = Some n →
        status_succ (status_on (st_history st) id b) (Some n)) →
  advances (st_history st) (st_history (transition_in st v b id f).1).
Proof.
  intros Hf. unfold transition_in.
  pose proof (transition_advances (st_history st) id b (Some (version_rank v)) f
    (state_queued_jobs (st_session st)) Hf) as Ht.
  by destruct (transition_job_status _ _ _ _ _ _).
Qed.

Lemma end_own_job_history st b id : st_history (end_own_job st b id) = st_history st.
Proof. unfold end_own_job. by case_match. Qed.

Lemma handle_job_event_advances st v b e :
  advances (st_history st) (st_history (handle_job_event st v b e).1).
Proof.
  destruct e as [id t|id t res out|id t err|id t reason]; cbn [handle_job_event].
  - destruct (settled_on _ _ _) eqn:Es; [apply advances_refl|]. cbn.
    destruct (bool_decide _ && _); by apply set_job_status_advances, start_succ.
  - rewrite <- (end_own_job_history st b id). apply transition_in_history.
    intros n. by apply (ending_succ (EStop id t res out)).
  - rewrite <- (end_own_job_history st b id). apply transition_in_history.
    intros n. by apply (ending_succ (EError id t err)).
  - apply transition_in_history. intros n. by apply (ending_succ (ESkipped id t reason)).
Qed.

Lemma confirm_start_history st now sid : st_history (confirm_start st now sid).1 = st_history st.
Proof. unfold confirm_start. repeat case_match; simplify_eq; done. Qed.

Lemma release_history st now net : st_history (release_ready_jobs st now net).1 = st_history st.
Proof. by destruct (release_ready_jobs_frame st now net) as (_&->&_). Qed.

Lemma step_advances st now net i : advances (st_history st) (st_history (step st now net i).1).
Proof.
  destruct i as [c|v m|]; cbn [step]; [apply advances_refl| |].
  - destruct m as [[[r|r]|b e]|ver msg]; cbn [state_update].
    + unfold handle_session_request.
      destruct (request r) as [p|sid|sid id|sid kid access|sid kid].
      3:{ destruct (st_session st) as [|a]; [apply advances_refl|].
          case_bool_decide; [|apply advances_refl]. case_bool_decide; [apply advances_refl|].
          destruct (skip_job (a_session a) id) as [[] s]; [|apply advances_refl].
          rewrite release_history. apply (cancel_job_advances (with_session st _)). }
      all: repeat case_match; apply advances_refl.
    + unfold handle_job_request. destruct (request r) as [sj params sleds|id].
      2:{ repeat case_match; try apply advances_refl. apply cancel_job_advances. }
      destruct (certs_verify _ _) as [job|]; [|apply advances_refl].
      pose proof (confirm_start_history st now (session_id (payload sj))) as Hc.
      destruct (confirm_start st now (session_id (payload sj))) as [st1 o1]. cbn [fst] in Hc.
      destruct (match state_session (st_session st1) with
        Some s => bool_decide (sess_id s = session_id (payload sj)) | None => false end).
      2:{ rewrite <- Hc. destruct (_ && negb _); apply advances_refl. }
      pose proof (release_history (enqueue_job st1 now
        (mkQueuedJob job params sleds (negb (is_live st v))) (actor r)) now net) as Hr.
      destruct (release_ready_jobs _ now net) as [st2 o2]. cbn [fst] in *.
      rewrite Hr, <- Hc. apply enqueue_job_advances.
    + destruct e as [je|info]; cbn [handle_event]; [|apply advances_refl].
      pose proof (handle_job_event_advances st v b je) as Hj.
      by destruct (handle_job_event st v b je).
    + apply advances_refl.
  - unfold settle. destruct (reap_zombies_past st now) as (p&E&_).
    destruct (reap_zombies st now) as [st1 o1]. cbn in E. subst st1.
    destruct net; [|apply advances_refl].
    destruct (adjudicate_past (with_past st p) now) as (p'&E&_).
    destruct (adjudicate_boundary (with_past st p) now) as [st2 o2]. cbn in *. subst st2.
    apply advances_refl.
Qed.

(** C11. Statuses only move forward: whatever a step processes, the status of a
    job on a sled is unchanged or replaced by a more settled one (unknown,
    queued, started, presumed interrupted, ended); in particular a job that
    ended keeps its ending, and the only ending that gives way is a presumed
    interruption, to a real one.  A status disappears only with its whole job,
    and only when the history is full. *)
Theorem status_monotone st now net i id b :
  let old := status_on (st_history st) id b in
  let new := status_on (st_history (step st now net i).1) id b in
  ((status_rank old <= status_rank new)%nat ∧ (status_rank old = 4%nat → new = old)
   ∧ (status_rank old = 3%nat → new = old ∨ status_rank new = 4%nat)) ∨
  (MAX_HISTORY <= history_len (st_history st) ∧
   job_status (st_history (step st now net i).1) !! id = None).
Proof.
  cbv zeta. destruct (step_advances st now net i id b) as [Hs|]; [left|by right].
  assert (Hmax : ∀ s, (status_rank s <= 4)%nat) by (intros [[]|]; cbn; repeat case_match; lia).
  pose proof (Hmax (status_on (st_history (step st now net i).1) id b)).
  destruct Hs as [->|[?|[? ?]]].
  - split_and!; [done..|by left].
  - split_and!; [lia..|]. right. lia.
  - split_and!; lia.
Qed.

(** ** Convergence of verdicts *)

(** Below the limit, an event that reports an ending has the effect of its
    transition on the status of its job, and no other. *)
Lemma transition_in_roomy st v b id f :
  history_len (st_history st) < MAX_HISTORY →
  let st' := (transition_in st v b id f).1 in
  (∀ id' b', status_on (st_history st') id' b' =
    if decide (id = id' ∧ b = b')
    then match f (status_on (st_history st) id b) with
         | Some n => Some n | None => status_on (st_history st) id b end
    else status_on (st_history st) id' b') ∧
  (is_Some (status_on (st_history st) id b) → history_len (st_history st') = history_len (st_history st)).
Proof.
  intros Hl. unfold transition_in, transition_job_status.
  destruct (f (status_on (st_history st) id b)) as [n|] eqn:Ef; cbn.
  - destruct (history_len_write (st_history st) id b n (Some (version_rank v))) as [H1 H2].
    rewrite set_job_status_roomy by lia. split; [by intros; rewrite status_on_write|].
    unfold status_on. intros [s Hs]. apply H2. destruct (job_status (st_history st) !! id); [by eexists|done].
  - split; [|done]. intros id' b'. case_decide as Hd; [by destruct Hd as [-> ->]|done].
Qed.

(** Two events of one sled, delivered one after the other. *)
Definition two_events (st : State) (v1 v2 : Version) (b : BaseboardId) (e1 e2 : JobEvent) : State :=
  (handle_event (handle_event st v1 b (EvJob e1)).1 v2 b (EvJob e2)).1.

Lemma handle_event_job st v b e :
  (handle_event st v b (EvJob e)).1 = (handle_job_event st v b e).1.
Proof. cbn. by destruct (handle_job_event st v b e). Qed.

Lemma ending_roomy st v b e f :
  ending e = Some f → history_len (st_history st) < MAX_HISTORY →
  let st' := (handle_job_event st v b e).1 in
  let id := event_job_id e in
  let old := status_on (st_history st) id b in
  status_on (st_history st') id b = match f old with Some n => Some n | None => old end ∧
  (is_Some old → history_len (st_history st') = history_len (st_history st)).
Proof.
  intros He Hl. cbv zeta.
  destruct e as [id t|id t res out|id t err|id t reason]; cbn in He; [done|injection He as <-..];
    cbn [handle_job_event event_job_id];
    [rewrite <- (end_own_job_history st b id) in Hl |- *..|];
    edestruct transition_in_roomy as [E1 E2]; [exact Hl| |exact Hl| |exact Hl|];
    (split; [rewrite E1, decide_True by done; reflexivity|exact E2]).
Qed.

(** The status an optional transition leaves. *)
Definition moved (f : option JobStatus → option JobStatus) (old : option JobStatus) : option JobStatus :=
  match f old with Some n => Some n | None => old end.

Lemma two_endings st v1 v2 b e1 e2 f1 f2 old :
  ending e1 = Some f1 → ending e2 = Some f2 → event_job_id e1 = event_job_id e2 →
  status_on (st_history st) (event_job_id e1) b = Some old →
  history_len (st_history st) < MAX_HISTORY →
  status_on (st_history (two_events st v1 v2 b e1 e2)) (event_job_id e1) b
  = moved f2 (moved f1 (Some old)).
Proof.
  intros H1 H2 Hid Hs Hl. unfold two_events. rewrite !handle_event_job.
  destruct (ending_roomy st v1 b e1 f1 H1 Hl) as [E1 L1]. rewrite Hs in E1, L1.
  destruct (ending_roomy (handle_job_event st v1 b e1).1 v2 b e2 f2 H2) as [E2 _].
  { rewrite L1; [done|by eexists]. }
  rewrite <- Hid in E2. by rewrite E2, E1.
Qed.

(** A real ending and a presumed interruption agree in either order: a
    sled's own report that a running job stopped and the verdict that it was
    interrupted leave every observer with the same stop time, result and
    output, whichever arrives first. *)
Theorem stop_beats_interruption st v1 v2 b id i0 t0 t res out t' :
  status_on (st_history st) id b = Some (Started i0 t0) →
  history_len (st_history st) < MAX_HISTORY →
  (∃ s, status_on (st_history (two_events st v1 v2 b (EStop id t res out) (EError id t' PInterrupted)))
          id b = Some (Stopped id s t res out)) ∧
  (∃ s, status_on (st_history (two_events st v1 v2 b (EError id t' PInterrupted) (EStop id t res out)))
          id b = Some (Stopped id s t res out)).
Proof.
  intros Hs Hl. split; eexists.
  - by apply (two_endings st v1 v2 b (EStop id t res out) (EError id t' PInterrupted)
                _ _ _ eq_refl eq_refl eq_refl Hs Hl).
  - by apply (two_endings st v1 v2 b (EError id t' PInterrupted) (EStop id t res out)
                _ _ _ eq_refl eq_refl eq_refl Hs Hl).
Qed.

(** A start that arrives after its job's verdict is ignored: an error or a
    skip and the start of the same job leave the same status in either order. *)
Theorem verdict_beats_start st v1 v2 b id t e f :
  ending e = Some f → event_job_id e = id →
  (∀ t res out, e ≠ EStop id t res out) →
  settled_on (st_history st) id b = false →
  history_len (st_history st) + 1 < MAX_HISTORY →
  status_on (st_history (two_events st v1 v2 b (EStart id t) e)) id b
  = status_on (st_history (two_events st v1 v2 b e (EStart id t))) id b ∧
  settled_on (st_history (two_events st v1 v2 b e (EStart id t))) id b = true.
Proof.
  intros He Hid Hns Hset Hl. unfold two_events. rewrite !handle_event_job.
  destruct (history_len_write (st_history st) id b (Started id t) (Some (version_rank v1))) as [L1 _].
  assert (Hst : ∃ n, f (status_on (st_history st) id b) = Some n ∧ f (Some (Started id t)) = Some n
                     ∧ is_terminal n = true).
  { unfold settled_on in Hset. destruct e; cbn in He, Hid; try done; injection He as <-; subst;
      [by destruct (Hns at_ res output)|..];
      destruct (status_on _ id b) as [[]|]; cbn in Hset |- *; try done; by eexists. }
  destruct Hst as (n&Hn1&Hn2&Hn3).
  assert (E1 : st_history (handle_job_event st v1 b (EStart id t)).1
               = write_status (st_history st) id b (Started id t) (Some (version_rank v1))).
  { cbn [handle_job_event]. rewrite Hset. cbn.
    destruct (bool_decide _ && _); apply set_job_status_roomy; lia. }
  destruct (ending_roomy (handle_job_event st v1 b (EStart id t)).1 v2 b e f He) as [E2 _].
  { rewrite E1. lia. }
  rewrite Hid, E1, status_on_write, decide_True, Hn2 in E2 by done. rewrite E2.
  destruct (ending_roomy st v1 b e f He) as [E3 _]; [lia|]. rewrite Hid, Hn1 in E3.
  assert (E4 : settled_on (st_history (handle_job_event st v1 b e).1) id b = true)
    by (unfold settled_on; by rewrite E3).
  cbn [handle_job_event]. rewrite E4. cbn [fst]. by rewrite E3.
Qed.

(** ** Endings of this sled's own jobs *)

(** Outputs other than reports of endings. *)
Definition not_ran (o : Output) : Prop := match o with ORan _ => False | _ => True end.

Lemma release_one_not_ran st now net sq live q r :
  Forall not_ran (rl_outputs r) → Forall not_ran (rl_outputs (release_one st now net sq live q r)).
Proof.
  intros Hr. unfold release_one.
  repeat case_match; cbn; apply Forall_app; split; try done; by repeat constructor.
Qed.

Lemma release_loop_not_ran fuel st now net sq live r :
  Forall not_ran (rl_outputs r) → Forall not_ran (rl_outputs (release_loop fuel st now net sq live r)).
Proof.
  revert r; induction fuel as [|fuel IH]; intros r Hr; cbn; [done|].
  case_match; [|done]. by apply IH, release_one_not_ran.
Qed.

Lemma release_not_ran st now net : Forall not_ran (release_ready_jobs st now net).2.
Proof.
  unfold release_ready_jobs. destruct (st_session st) as [|a]; [constructor|].
  destruct net as [n|]; cbn; [by apply release_loop_not_ran|]. by destruct (drain_loop _ _ _).
Qed.

Lemma skip_queued_not_ran st now : Forall not_ran (skip_queued_jobs st now).
Proof.
  unfold skip_queued_jobs. destruct (state_queued_jobs _) as [q|]; [|constructor].
  apply Forall_forall. intros o. rewrite list_elem_of_omap. intros (id&_&He).
  by repeat case_match; simplify_eq.
Qed.

Lemma step_ran st now net i s :
  ORan s ∈ (step st now net i).2 →
  ∃ v b e, i = IGossip v (V0 (MEvent b (EvJob e))).
Proof.
  assert (Hno : ∀ out, Forall not_ran out → ORan s ∉ out).
  { intros out Hall Hin. rewrite Forall_forall in Hall. by apply Hall in Hin. }
  destruct i as [c|v m|]; cbn [step]; [set_solver| |].
  - destruct m as [[[r|r]|b [e|info]]|ver msg]; cbn [state_update]; [| |by eauto|set_solver..].
    + intros Hin. exfalso. revert Hin. apply Hno. unfold handle_session_request.
      destruct (request r) as [p|sid|sid id|sid kid access|sid kid]; repeat case_match;
        first [constructor | apply skip_queued_not_ran | apply release_not_ran].
    + intros Hin. exfalso. revert Hin. apply Hno. unfold handle_job_request.
      destruct (request r) as [sj params sleds|id]; [|repeat case_match; by repeat constructor].
      destruct (certs_verify _ _) as [job|]; [|constructor].
      assert (Hc : Forall not_ran (confirm_start st now (session_id (payload sj))).2).
      { destruct (confirm_start_cases st now (session_id (payload sj)))
          as [[_ ->]|(?&?&_&_&_&_&_&_&->)]; [constructor|apply skip_queued_not_ran]. }
      destruct (confirm_start st now (session_id (payload sj))) as [st1 o1]. cbn [snd] in Hc.
      destruct (match state_session (st_session st1) with
        Some s => bool_decide (sess_id s = session_id (payload sj)) | None => false end).
      2:{ destruct (_ && negb _); cbn; [|done]. apply Forall_app. split; [done|].
          by repeat constructor. }
      pose proof (release_not_ran (enqueue_job st1 now
        (mkQueuedJob job params sleds (negb (is_live st v))) (actor r)) now net) as Hr.
      destruct (release_ready_jobs _ now net) as [st2 o2]. by apply Forall_app.
  - intros Hin. exfalso. pose proof (settle_outputs st now net) as Hall.
    rewrite Forall_forall in Hall. by destruct (Hall _ Hin).
Qed.

Lemma handle_job_event_own st v b e : own (handle_job_event st v b e).1 = own st.
Proof.
  assert (Htr : ∀ st1 id f, own (transition_in st1 v b id f).1 = own st1).
  { intros. unfold transition_in. by destruct (transition_job_status _ _ _ _ _ _). }
  assert (Hend : ∀ id, own (end_own_job st b id) = own st).
  { intros. unfold end_own_job. by case_match. }
  destruct e; cbn [handle_job_event]; rewrite ?Htr, ?Hend; try done.
  destruct (settled_on _ _ _); [done|]. cbn. by destruct (bool_decide _ && _).
Qed.

Lemma transition_in_reports st v b id f s :
  (transition_in st v b id f).2 = Some s →
  f (status_on (st_history st) id b) = Some s ∧
  (status_on (st_history (transition_in st v b id f).1) id b = Some s ∨
   job_status (st_history (transition_in st v b id f).1) !! id = None).
Proof.
  unfold transition_in, transition_job_status.
  destruct (f (status_on (st_history st) id b)) as [n|] eqn:Ef; cbn; [|done].
  intros [= ->]. split; [done|].
  destruct (set_job_status_on (st_history st) id b s (Some (version_rank v))
    (state_queued_jobs (st_session st)) id b) as [E|E]; [left|by right].
  rewrite E. by rewrite decide_True.
Qed.

(** An event that settles a job: the status it reports. *)
Lemma handle_job_event_reports st v b e s :
  (handle_job_event st v b e).2 = Some s →
  status_job_id s = event_job_id e ∧ is_terminal s = true ∧
  (status_rank (status_on (st_history st) (event_job_id e) b) < status_rank (Some s))%nat ∧
  (status_on (st_history (handle_job_event st v b e).1) (event_job_id e) b = Some s ∨
   job_status (st_history (handle_job_event st v b e).1) !! event_job_id e = None).
Proof.
  destruct e as [id t|id t res out|id t err|id t reason]; cbn [handle_job_event event_job_id].
  - by destruct (settled_on _ _ _).
  - intros [Hf Hr]%transition_in_reports. rewrite end_own_job_history in Hf.
    by destruct (ending_strict (EStop id t res out) _ _ _ eq_refl Hf) as (?&?&?).
  - intros [Hf Hr]%transition_in_reports. rewrite end_own_job_history in Hf.
    by destruct (ending_strict (EError id t err) _ _ _ eq_refl Hf) as (?&?&?).
  - intros [Hf Hr]%transition_in_reports.
    by destruct (ending_strict (ESkipped id t reason) _ _ _ eq_refl Hf) as (?&?&?).
Qed.

(** What the boundary store is told is the truth: a step reports an ending
    only for a job of this sled, only on its first settling or when a stop
    displaces a presumed interruption, and the report is the status the history
    then holds, unless a full history evicted the job. *)
Theorem reported_endings_recorded st now net i s :
  ORan s ∈ (step st now net i).2 →
  let id := status_job_id s in
  is_terminal s = true ∧
  (status_rank (status_on (st_history st) id (own st)) < status_rank (Some s))%nat ∧
  (status_on (st_history (step st now net i).1) id (own st) = Some s ∨
   job_status (st_history (step st now net i).1) !! id = None).
Proof.
  intros Hin. pose proof (step_ran _ _ _ _ _ Hin) as (v&b&e&->). cbn in Hin |- *.
  pose proof (handle_job_event_reports st v b e s) as Hr.
  pose proof (handle_job_event_own st v b e) as Ho.
  destruct (handle_job_event st v b e) as [st1 [s'|]]; [|set_solver]. cbn [fst snd] in *.
  destruct (is_terminal s' && bool_decide (b = own st1)) eqn:E; [|set_solver].
  apply list_elem_of_singleton in Hin. injection Hin as <-.
  apply andb_prop in E as [_ ->%bool_decide_eq_true].
  destruct (Hr eq_refl) as (->&H1&H2&H3). by rewrite Ho in *.
Qed.

(** ** Settling the past *)

Lemma reap_none st now :
  (∀ id, id ∈ state_zombies st → id ∈ reaped (st_past st)) → (reap_zombies st now).2 = [].
Proof.
  intros Hz. unfold reap_zombies. cbn.
  assert (E : filter (.∉ reaped (st_past st)) (sorted_elements phrase_le (state_zombies st)) = []).
  { apply elem_of_nil_inv. intros id [Hn Hi]%list_elem_of_filter.
    apply elem_of_sorted_elements in Hi. destruct Hn. by apply Hz. }
  by rewrite E.
Qed.

Lemma reap_complete st now id :
  id ∈ state_zombies st →
  state_zombies (reap_zombies st now).1 = state_zombies st ∧
  id ∈ reaped (st_past (reap_zombies st now).1) ∧
  (id ∉ reaped (st_past st) → job_event (own st) (EError id now PInterrupted) ∈ (reap_zombies st now).2).
Proof.
  intros Hz. split; [done|]. cbn. split.
  - destruct (decide (id ∈ reaped (st_past st))); [set_solver|].
    apply elem_of_union_l, elem_of_list_to_set, list_elem_of_filter.
    by rewrite elem_of_sorted_elements.
  - intros Hn. apply list_elem_of_fmap. exists id. split; [done|]. apply list_elem_of_filter.
    by rewrite elem_of_sorted_elements.
Qed.

Lemma adjudicate_frame st now :
  let st' := (adjudicate_boundary st now).1 in
  st_history st' = st_history st ∧ own st' = own st ∧
  zombies (st_past st') = zombies (st_past st) ∧ reaped (st_past st') = reaped (st_past st) ∧
  past_boundary (st_past st') = past_boundary (st_past st) ∧
  (∀ b, past_boundary (st_past st) = Some b → adjudicated (st_past st') = Some (b_job b)).
Proof.
  unfold adjudicate_boundary. destruct (past_boundary (st_past st)) as [b|] eqn:Eb; [|done].
  case_bool_decide as Ea.
  { split_and!; [done..|]. by intros ? [= <-]. }
  cbv zeta. destruct (match get_job_status _ _ with Some m => _ | None => _ end);
    (split_and!; [done..|exact Eb|by intros ? [= <-]]).
Qed.

(** A restart settles the jobs it cut short, once: settling announces an
    interruption for every job of this sled that a previous life left running
    and that was not announced before, settling again announces nothing, and
    the announcement, when gossip delivers it, ends the job's zombie life. *)
Theorem zombies_settled_once st now now' n net' v id :
  (id ∈ state_zombies st → id ∉ reaped (st_past st) →
   job_event (own st) (EError id now PInterrupted) ∈ (settle st now (Some n)).2) ∧
  (settle (settle st now (Some n)).1 now' net').2 = [] ∧
  id ∉ state_zombies (handle_event st v (own st) (EvJob (EError id now PInterrupted))).1.
Proof.
  split_and!.
  - intros Hz Hn. destruct (reap_complete st now id Hz) as (_&_&Hin). specialize (Hin Hn).
    unfold settle. destruct (reap_zombies st now) as [st1 o1].
    destruct (adjudicate_boundary st1 now) as [st2 o2]. cbn in *. set_solver.
  - unfold settle at 2. pose proof (λ i, reap_complete st now i) as Hc.
    assert (Hz1 : state_zombies (reap_zombies st now).1 = state_zombies st) by done.
    destruct (reap_zombies st now) as [st1 o1]. cbn [fst] in *.
    destruct (adjudicate_frame st1 now) as (Eh&Eo&Ez&Er&Eb&Ea).
    destruct (adjudicate_boundary st1 now) as [st2 o2]. cbn [fst] in *.
    assert (Hz2 : state_zombies st2 = state_zombies st1) by (unfold state_zombies; by rewrite Eh, Eo, Ez).
    assert (Hreap : (reap_zombies st2 now').2 = []).
    { apply reap_none. rewrite Er, Hz2, Hz1. intros i Hi. by destruct (Hc i Hi) as (_&?&_). }
    unfold settle. destruct (reap_zombies_past st2 now') as (p&E&_).
    assert (Epb : past_boundary p = past_boundary (st_past st2) ∧ adjudicated p = adjudicated (st_past st2)).
    { cbn in E. apply (f_equal st_past) in E. cbn in E. by subst p. }
    destruct (reap_zombies st2 now') as [st3 o3]. cbn [fst snd] in *. subst st3 o3.
    destruct net'; [|done]. unfold adjudicate_boundary. cbn [st_past with_past].
    destruct Epb as [-> Ead]. rewrite Eb. destruct (past_boundary (st_past st1)) as [b|]; [|done].
    by rewrite bool_decide_true by (rewrite Ead; by apply Ea).
  - rewrite handle_event_job. cbn [handle_job_event]. unfold state_zombies.
    rewrite elem_of_filter. intros [_ Hz]. revert Hz. unfold transition_in, end_own_job.
    rewrite bool_decide_true by done. destruct (transition_job_status _ _ _ _ _ _). cbn. set_solver.
Qed.

(** The boundary job's fate is adjudicated exactly when nobody witnessed
    it: with a boundary record of this universe that was not adjudicated yet,
    a sled that finds no status of its own for the recorded job announces the
    recorded ending, or an interruption when none was recorded, and announces
    nothing if the rack already knows. *)
Theorem adjudication_spec st now b :
  past_boundary (st_past st) = Some b →
  adjudicated (st_past st) ≠ Some (b_job b) →
  (adjudicate_boundary st now).2 =
  match status_on (st_history st) (b_job b) (own st) with
  | Some _ => []
  | None =>
    match b_status b with
    | Some (Stopped _ t1 t2 res out) =>
      [job_event (own st) (EStart (b_job b) t1); job_event (own st) (EStop (b_job b) t2 res out)]
    | Some (Error _ t e) => [job_event (own st) (EError (b_job b) t e)]
    | _ => [job_event (own st) (EError (b_job b) now PInterrupted)]
    end
  end ∧ adjudicated (st_past (adjudicate_boundary st now).1) = Some (b_job b).
Proof.
  intros Hb Ha. split; [|by apply adjudicate_frame].
  unfold adjudicate_boundary. rewrite Hb, bool_decide_false by done. cbv zeta.
  unfold status_on, get_job_status. cbn [st_history with_past].
  change (own (with_past st _)) with (own st).
  destruct (job_status (st_history st) !! b_job b) as [m|]; cbn.
  - destruct (m !! own st) eqn:Em; cbn; [done|]. by destruct (b_status b) as [[]|].
  - by destruct (b_status b) as [[]|].
Qed.
End facts.
