(* ===== verification/SledFacts.v ===== *)
(** * No job is spawned twice

    The composition of the state machine, the executor and the boundary store
    across restarts: whatever gossip delivers, however durable writes fail, and
    whenever the process dies, a sled spawns each signed job at most once.

    The proof orders launches by the rank of their session, then by their
    position in its chain, and shows that launches only move forward in that
    order.  Session identifiers and chain positions are hashes, so the order is
    given by a labelling of the trace's own sessions and jobs: [seq_of] says
    which sequence number an identifier stands for, [pos] where in its chain a
    job identifier stands.  A labelling exists when the trace exhibits no
    collision of the identifier hash. *)
From S2P Require Import Prelude External Codephrases Hash Targets Keys Jobs Messages.
From S2P Require Import Rack Certs History Boundary Executor State Sled StateFacts SessionFacts StatusFacts.
Open Scope N_scope.

Section facts.
Context {Irum : Rumors} {Ibb : BaseboardOps} {Isha : Sha3} {Ilru : LruCache} {Ipki : Pki}.
Implicit Types (st : State) (b x y : Boundary).

(** ** Orderly sessions *)

(** The launches since the state was created, in this process or still queued
    from before; when the state was created without a record, all launches. *)
Definition recent (s : Sled) : list Boundary :=
  map l_boundary
    ((match committed (st_past (sd_state s)) with Some _ => [] | None => sd_before s end)
     ++ sd_spawned s ++ ex_launch (sd_exec s)).

(** The record the state was created with. *)
Definition commitment (s : Sled) : list Boundary :=
  match committed (st_past (sd_state s)) with Some c => [c] | None => [] end.

(** Whether the active session may run jobs here. *)
Definition admits (st : State) : bool :=
  match st_session st with
  | Active a =>
    match screen (st_past st) (sess_id (a_session a)) (a_seq a) (a_live a) with
    | Admit => true
    | Refuse => false
    end
  | Inactive => false
  end.

(** Whether the active session ranks above every one of these launches. *)
Definition outranks (st : State) (bs : list Boundary) : bool :=
  match st_session st with
  | Active a =>
    forallb (λ b, negb (session_rank_leb (a_seq a, sess_id (a_session a)) (b_seq b, b_session b))) bs
  | Inactive => true
  end.

(** A session this input activates, if it may run jobs, outranks the recent
    launches. *)
Definition orderly_input (s : Sled) (now : DateTime) (i : Input) : bool :=
  let st := (step (sd_state s) now (sd_network s) i).1 in
  bool_decide (state_rank (st_session st) = state_rank (st_session (sd_state s)))
  || negb (admits st) || outranks st (recent s).

Fixpoint orderly_inputs (s : Sled) (l : list (DateTime * Input)) : bool :=
  match l with
  | [] => true
  | (now, i) :: l => orderly_input s now i && orderly_inputs (apply_input s now i) l
  end.

Fixpoint orderly_run (current : VersionInfo) (own_b : BaseboardId) (trust : list Certificate)
    (s : Sled) (es : list SledEvent) : bool :=
  match es with
  | [] => true
  | e :: es =>
    let '(s', l) := prepare current own_b trust s e in
    orderly_inputs s' l && orderly_run current own_b trust (sled_step current own_b trust s e) es
  end.

(** ** Labels *)

Section labels.
Variables (seq_of : SessionId → SessionSeq) (pos : JobId → nat).

(** The job stands before its successor. *)
Definition job_labelled (job : SignedJob) : Prop :=
  (pos (job_id (payload job)) < pos (next_job_id (session_id (payload job)) (LSome job)))%nat.

Definition burn_labelled (id : JobId) : Prop :=
  ∀ sid, (pos id < pos (next_job_id sid (LBurned id)))%nat.

Definition input_labelled (i : Input) : Prop :=
  match i with
  | IGossip _ (V0 (MRequest (RSession r))) =>
    match request r with
    | SRStart p => seq p = seq_of (preimage_session_id p)
    | SRSkip _ id => burn_labelled id
    | _ => True
    end
  | IGossip _ (V0 (MRequest (RJob r))) =>
    match request r with JRStart job _ _ => job_labelled job | JRStop _ => True end
  | _ => True
  end.

(** ** The order of launches *)

Definition rank_lt (r r' : SessionRank) : Prop :=
  phrase r.1 < phrase r'.1 ∨ (phrase r.1 = phrase r'.1 ∧ phrase r.2 < phrase r'.2).

Definition rank_of (sid : SessionId) : SessionRank := (seq_of sid, sid).

(** [x] was launched before [y]. *)
Definition launch_lt x y : Prop :=
  rank_lt (rank_of (b_session x)) (rank_of (b_session y)) ∨
  (b_session x = b_session y ∧ (pos (b_job x) < pos (b_job y))%nat).

Definition launch_le x y : Prop :=
  rank_lt (rank_of (b_session x)) (rank_of (b_session y)) ∨
  (b_session x = b_session y ∧ (pos (b_job x) <= pos (b_job y))%nat).

Definition good_boundary b : Prop :=
  b_seq b = seq_of (b_session b) ∧ (pos (b_job b) < pos (b_successor b))%nat.

Lemma rank_lt_trans r1 r2 r3 : rank_lt r1 r2 → rank_lt r2 r3 → rank_lt r1 r3.
Proof. unfold rank_lt. lia. Qed.

Lemma rank_lt_irrefl r : ¬ rank_lt r r.
Proof. unfold rank_lt. lia. Qed.

Lemma rank_lt_leb r r' : session_rank_leb r r' = false → rank_lt r' r.
Proof.
  intros E. assert (¬ session_rank_leb r r' = true) as Hn by congruence.
  rewrite session_rank_leb_spec in Hn. unfold rank_lt. lia.
Qed.

Lemma launch_lt_trans x y z : launch_lt x y → launch_lt y z → launch_lt x z.
Proof.
  intros [H1|[E1 H1]] [H2|[E2 H2]]; unfold launch_lt.
  - left. by eapply rank_lt_trans.
  - left. by rewrite <- E2.
  - left. by rewrite E1.
  - right. split; [congruence|lia].
Qed.

Lemma launch_le_lt_trans x y z : launch_le x y → launch_lt y z → launch_lt x z.
Proof.
  intros [H1|[E1 H1]] [H2|[E2 H2]]; unfold launch_lt.
  - left. by eapply rank_lt_trans.
  - left. by rewrite <- E2.
  - left. by rewrite E1.
  - right. split; [congruence|lia].
Qed.

Lemma launch_lt_le x y : launch_lt x y → launch_le x y.
Proof. intros [?|[? ?]]; [by left|right; split; [done|lia]]. Qed.

Lemma launch_le_refl x : launch_le x x.
Proof. right. split; [done|lia]. Qed.

Lemma launch_lt_irrefl x : ¬ launch_lt x x.
Proof. intros [?%rank_lt_irrefl|[_ ?]]; [done|lia]. Qed.

(** ** Positions in the chain *)

(** The position [k] is behind the session's chain. *)
Definition passed (s : Session) (k : nat) : Prop :=
  match last_job s with
  | LNone => False
  | LSome job => (k <= pos (job_id (payload job)))%nat
  | LBurned id => (k <= pos id)%nat
  | LResumed next => (k < pos next)%nat
  end.

Definition last_ok (s : Session) : Prop :=
  match last_job s with
  | LSome job => (pos (job_id (payload job)) < pos (session_next_job_id s))%nat
  | LBurned id => (pos id < pos (session_next_job_id s))%nat
  | LNone | LResumed _ => True
  end.

Lemma passed_next s k : last_ok s → passed s k → (k < pos (session_next_job_id s))%nat.
Proof.
  unfold last_ok, passed. destruct (last_job s) eqn:E; try lia.
  unfold session_next_job_id. rewrite E. cbn. done.
Qed.

(** Moving along the chain of a session, launching [bs]. *)
Record chain_step (s s' : Session) (bs : list Boundary) : Prop := {
  cs_id : sess_id s' = sess_id s;
  cs_ok : last_ok s';
  cs_passed : ∀ k, passed s k → passed s' k;
  cs_sorted : StronglySorted launch_lt bs;
  cs_bounds : Forall (λ b, b_session b = sess_id s ∧ good_boundary b ∧
    passed s' (pos (b_job b)) ∧ ∀ k, passed s k → (k < pos (b_job b))%nat) bs;
}.

Lemma chain_step_refl s : last_ok s → chain_step s s [].
Proof. intros H. split; [done|done|done|constructor|constructor]. Qed.

Lemma chain_step_trans s s1 s2 bs1 bs2 :
  chain_step s s1 bs1 → chain_step s1 s2 bs2 → chain_step s s2 (bs1 ++ bs2).
Proof.
  intros [I1 O1 P1 S1 F1] [I2 O2 P2 S2 F2]. rewrite Forall_forall in F1, F2. split.
  - congruence.
  - done.
  - auto.
  - apply strongly_sorted_app. split_and!; [done|done|]. intros x y Hx Hy.
    destruct (F1 x Hx) as (E1&_&Hp&_), (F2 y Hy) as (E2&_&_&Hl).
    right. split; [congruence|]. by apply Hl.
  - apply Forall_app. split; apply Forall_forall.
    + intros x Hx. destruct (F1 x Hx) as (?&?&?&?). split_and!; auto.
    + intros y Hy. destruct (F2 y Hy) as (E2&?&?&Hl). split_and!; [congruence|done|done|auto].
Qed.

(** The boundaries of the jobs an output list runs. *)
Definition run_bounds (out : list Output) : list Boundary :=
  omap (λ o, match o with ORun r => Some (r_boundary r) | _ => None end) out.

Lemma run_bounds_app o1 o2 : run_bounds (o1 ++ o2) = run_bounds o1 ++ run_bounds o2.
Proof. apply omap_app. Qed.

Lemma elem_of_run_bounds out b : b ∈ run_bounds out → ∃ r, ORun r ∈ out ∧ r_boundary r = b.
Proof.
  unfold run_bounds. rewrite list_elem_of_omap. intros ([r| | |]&Ho&[= <-]). by exists r.
Qed.

Lemma run_bounds_nil out : (∀ r, ORun r ∉ out) → run_bounds out = [].
Proof.
  intros H. apply elem_of_nil_inv. intros b (r&Hr&_)%elem_of_run_bounds. by apply (H r).
Qed.

(** ** Releases move along the chain *)

(** What the machine knows of a session's queue. *)
Definition queue_labelled (sid : SessionId) (q : QueuedJobs) : Prop :=
  ∀ id qj, q !! id = Some qj →
    job_id (payload (signed (q_job qj))) = id ∧
    session_id (payload (signed (q_job qj))) = sid ∧
    job_labelled (signed (q_job qj)).

Lemma queue_labelled_subseteq sid (q q' : QueuedJobs) :
  q' ⊆ q → queue_labelled sid q → queue_labelled sid q'.
Proof. intros Hs Hq id qj Hid. apply Hq. by eapply lookup_weaken. Qed.

(** Taking the queued job at the next position. *)
Lemma job_started_chain s qj sq :
  last_ok s → sq = seq_of (sess_id s) →
  job_id (payload (signed (q_job qj))) = session_next_job_id s →
  session_id (payload (signed (q_job qj))) = sess_id s →
  job_labelled (signed (q_job qj)) →
  chain_step s (job_started s (signed (q_job qj))) [] ∧
  ∀ net, chain_step s (job_started s (signed (q_job qj))) [boundary_for net s sq (signed (q_job qj))].
Proof.
  intros Hok Hsq Hid Hsid Hl. set (job := signed (q_job qj)) in *.
  assert (Hl' : (pos (job_id (payload job)) < pos (session_next_job_id (job_started s job)))%nat)
    by (unfold job_labelled in Hl; by rewrite Hsid in Hl).
  assert (Hp : ∀ k, passed s k → (k < pos (job_id (payload job)))%nat).
  { intros k Hk. rewrite Hid. by apply passed_next. }
  assert (Hp' : ∀ k, passed s k → passed (job_started s job) k).
  { intros k Hk%Hp. unfold passed. cbn. lia. }
  split; [|intros net]; split; try done; by repeat constructor.
Qed.

Lemma release_one_chain_step st now net sq live qj r :
  last_ok (rl_session r) → sq = seq_of (sess_id (rl_session r)) →
  job_id (payload (signed (q_job qj))) = session_next_job_id (rl_session r) →
  session_id (payload (signed (q_job qj))) = sess_id (rl_session r) →
  job_labelled (signed (q_job qj)) →
  ∃ out, rl_outputs (release_one st now net sq live qj r) = rl_outputs r ++ out ∧
    chain_step (rl_session r) (rl_session (release_one st now net sq live qj r)) (run_bounds out).
Proof.
  intros Hok Hsq Hid Hsid Hl.
  destruct (job_started_chain (rl_session r) qj sq Hok Hsq Hid Hsid Hl) as [H0 H1].
  destruct (release_one_chain st now net sq live qj r) as [-> _].
  unfold release_one. repeat case_match; cbn [rl_outputs]; eexists; (split; [done|]);
    first [exact H0|apply H1].
Qed.

Lemma release_loop_chain_step fuel st now net sq live r :
  last_ok (rl_session r) → sq = seq_of (sess_id (rl_session r)) →
  queue_labelled (sess_id (rl_session r)) (rl_queue r) →
  ∃ out, rl_outputs (release_loop fuel st now net sq live r) = rl_outputs r ++ out ∧
    chain_step (rl_session r) (rl_session (release_loop fuel st now net sq live r)) (run_bounds out).
Proof.
  revert r; induction fuel as [|fuel IH]; intros r Hok Hsq Hq; cbn [release_loop].
  { exists []. rewrite app_nil_r. split; [done|by apply chain_step_refl]. }
  destruct (rl_queue r !! session_next_job_id (rl_session r)) as [qj|] eqn:E.
  2:{ exists []. rewrite app_nil_r. split; [done|by apply chain_step_refl]. }
  destruct (Hq _ _ E) as (Hid&Hsid&Hl).
  destruct (release_one_chain_step st now net sq live qj r Hok Hsq Hid Hsid Hl) as (o1&E1&C1).
  destruct (release_one_chain st now net sq live qj r) as [Es Eq].
  destruct (IH (release_one st now net sq live qj r)) as (o2&E2&C2).
  - apply C1.
  - by rewrite (cs_id _ _ _ C1).
  - rewrite (cs_id _ _ _ C1), Eq. eapply queue_labelled_subseteq; [apply delete_subseteq|done].
  - exists (o1 ++ o2). rewrite E2, E1, app_assoc, run_bounds_app. split; [done|].
    by eapply chain_step_trans.
Qed.

Lemma drain_loop_chain_step fuel s q :
  last_ok s → queue_labelled (sess_id s) q → chain_step s (drain_loop fuel s q).1 [].
Proof.
  revert s q; induction fuel as [|fuel IH]; intros s q Hok Hq; cbn [drain_loop];
    [by apply chain_step_refl|].
  destruct (q !! session_next_job_id s) as [qj|] eqn:E; [|by apply chain_step_refl].
  destruct (Hq _ _ E) as (Hid&Hsid&Hl).
  destruct (job_started_chain s qj (seq_of (sess_id s)) Hok eq_refl Hid Hsid Hl) as [H0 _].
  change [] with ([] ++ [] : list Boundary). eapply chain_step_trans; [exact H0|].
  apply IH; [apply H0|]. eapply queue_labelled_subseteq; [apply delete_subseteq|done].
Qed.

(** The labels of a state: of its pending starts, its session and its queue. *)
Definition active_labelled (a : ActiveSession) : Prop :=
  a_seq a = seq_of (sess_id (a_session a)) ∧ last_ok (a_session a) ∧
  queue_labelled (sess_id (a_session a)) (a_queued_jobs a).

Record state_labelled (st : State) : Prop := {
  lab_pending : Forall (λ e, seq (ps_preimage e.2) = seq_of e.1) (lru_entries (st_pending_starts st));
  lab_session : ∀ a, st_session st = Active a → active_labelled a;
}.

Lemma release_ready_chain st now net a :
  st_session st = Active a → active_labelled a →
  ∃ a', st_session (release_ready_jobs st now net).1 = Active a' ∧ active_labelled a' ∧
    a_seq a' = a_seq a ∧ a_live a' = a_live a ∧
    chain_step (a_session a) (a_session a') (run_bounds (release_ready_jobs st now net).2).
Proof.
  intros Es (Hsq&Hok&Hq).
  destruct (release_ready_jobs_session st now net a Es) as (s&q&Ed&Es').
  destruct (drain_loop_keeps (size (a_queued_jobs a)) (a_session a) (a_queued_jobs a)) as (Hid&_&Hsub).
  rewrite Ed in Hid, Hsub. cbn [fst snd] in *.
  eexists. split; [exact Es'|].
  assert (Hc : chain_step (a_session a) s (run_bounds (release_ready_jobs st now net).2)).
  { unfold release_ready_jobs. rewrite Es. destruct net as [n|].
    - pose proof (release_loop_chain (size (a_queued_jobs a)) st now n (a_seq a) (a_live a)
        (mkRelease (a_session a) (a_queued_jobs a) (st_attachments st) (st_next_channel st) [])) as E.
      cbn [rl_session rl_queue] in E. rewrite Ed in E. injection E as E1 _. cbn [snd].
      destruct (release_loop_chain_step (size (a_queued_jobs a)) st now n (a_seq a) (a_live a)
        (mkRelease (a_session a) (a_queued_jobs a) (st_attachments st) (st_next_channel st) [])
        Hok Hsq Hq) as (out&Eo&Hstep).
      cbn [rl_outputs rl_session app] in *. rewrite Eo. by rewrite <- E1.
    - pose proof (drain_loop_chain_step (size (a_queued_jobs a)) (a_session a) (a_queued_jobs a) Hok Hq) as H.
      rewrite Ed in *. exact H. }
  split_and!; try done. split_and!; cbn; [by rewrite Hid|apply Hc|].
  rewrite Hid. by eapply queue_labelled_subseteq.
Qed.

(** ** What one input does to the chain *)

Inductive step_effect (st st' : State) (bs : list Boundary) : Prop :=
(** No session afterwards: nothing was run. *)
| se_idle : st_session st' = Inactive → bs = [] → step_effect st st' bs
(** The active session moved along its chain. *)
| se_along a a' :
    st_session st = Active a → st_session st' = Active a' →
    a_seq a' = a_seq a → a_live a' = a_live a →
    chain_step (a_session a) (a_session a') bs → step_effect st st' bs
(** A start was confirmed, and its session moved from its first position. *)
| se_fresh a' s :
    st_session st' = Active a' → state_rank (st_session st') ≠ state_rank (st_session st) →
    sess_id s = sess_id (a_session a') →
    last_job s = match past_boundary (st_past st) with
                 | Some c => if bool_decide (b_session c = sess_id s)
                             then LResumed (b_successor c) else LNone
                 | None => LNone
                 end →
    chain_step s (a_session a') bs → step_effect st st' bs.

(** An input that leaves the session as it was. *)
Lemma step_effect_same st st' bs :
  state_labelled st → st_session st' = st_session st → bs = [] → step_effect st st' bs.
Proof.
  intros Hl E ->. destruct (st_session st) as [|a] eqn:Es; [by apply se_idle|].
  eapply se_along; [done|done|done|done|]. apply chain_step_refl.
  apply (lab_session _ Hl a Es).
Qed.

Lemma state_labelled_same st st' :
  state_labelled st → st_session st' = st_session st →
  st_pending_starts st' = st_pending_starts st → state_labelled st'.
Proof. intros [H1 H2] E1 E2. split; [by rewrite E2|]. intros a. rewrite E1. apply H2. Qed.

Lemma skip_job_chain s id s' :
  skip_job s id = (true, s') → burn_labelled id → last_ok s → chain_step s s' [].
Proof.
  unfold skip_job. intros E Hb Hok. destruct (_ || _) eqn:Ec; [|done]. injection E as <-.
  split; [done|apply Hb| |constructor|constructor].
  intros k Hk. unfold passed. cbn. apply orb_prop in Ec as [Ec|Ec].
  - apply bool_decide_eq_true in Ec. subst id. pose proof (passed_next _ _ Hok Hk). lia.
  - unfold passed in Hk. destruct (last_job s) as [|job|id'|next]; try discriminate.
    apply bool_decide_eq_true in Ec. by subst id.
Qed.

Lemma cancel_job_session st now id actor replayed a :
  st_session st = Active a →
  st_session (cancel_job st now id actor replayed)
  = Active (mkActive (a_seq a) (a_live a) (a_session a) (delete id (a_queued_jobs a)) (a_attach_grants a)).
Proof. intros Es. unfold cancel_job. rewrite Es. by destruct (negb replayed && _). Qed.

Lemma enqueue_job_session st now qj actor a :
  st_session st = Active a →
  ∃ q, st_session (enqueue_job st now qj actor)
       = Active (mkActive (a_seq a) (a_live a) (a_session a) q (a_attach_grants a)) ∧
    (q = a_queued_jobs a ∨ q = <[job_id (payload (signed (q_job qj))) := qj]> (a_queued_jobs a)).
Proof.
  intros Es. unfold enqueue_job. rewrite Es. destruct a as [sq live s q g]. cbn.
  case_match; [exists q; split; [done|by left]|].
  case_match; [exists q; split; [done|by left]|].
  eexists. split; [|by right]. by case_match.
Qed.

Lemma enqueue_job_labelled st now qj actor a :
  st_session st = Active a → active_labelled a →
  session_id (payload (signed (q_job qj))) = sess_id (a_session a) →
  job_labelled (signed (q_job qj)) →
  ∃ a', st_session (enqueue_job st now qj actor) = Active a' ∧ active_labelled a' ∧
    a_seq a' = a_seq a ∧ a_live a' = a_live a ∧ a_session a' = a_session a.
Proof.
  intros Es (Hsq&Hok&Hq) Hsid Hl.
  destruct (enqueue_job_session st now qj actor a Es) as (q&->&Hcase).
  eexists. split; [done|]. split_and!; try done. split_and!; [done|done|]. cbn.
  destruct Hcase as [->| ->]; [done|]. intros id qj'. rewrite lookup_insert.
  case_decide as Hid; [intros [= <-]; by split_and!|apply Hq].
Qed.

(** Cancelling the skipped job and releasing what now follows. *)
Lemma skip_release_effect st now net a id s k replayed :
  state_labelled st → st_session st = Active a → chain_step (a_session a) s [] →
  let st1 := with_session st (Active (mkActive (a_seq a) (a_live a) s (a_queued_jobs a)
               (a_attach_grants a))) in
  let res := release_ready_jobs (cancel_job st1 now id k replayed) now net in
  step_effect st res.1 (run_bounds res.2) ∧ state_labelled res.1.
Proof.
  intros Hl Es C1 st1. destruct (lab_session _ Hl a Es) as (Hsq&_&Hq).
  pose proof (cs_id _ _ _ C1) as Hid.
  pose proof (cancel_job_session st1 now id k replayed _ eq_refl) as E2.
  pose proof (quiet_pending _ _ (cancel_job_quiet st1 now id k replayed)) as Hp.
  set (st2 := cancel_job st1 now id k replayed) in *.
  destruct (release_ready_chain st2 now net _ E2) as (a'&E3&Hl3&Hs3&Hv3&C3).
  { split_and!; cbn; [by rewrite Hid|apply C1|]. rewrite Hid.
    eapply queue_labelled_subseteq; [apply delete_subseteq|done]. }
  cbv zeta. split.
  - eapply se_along; [exact Es|exact E3|done|done|].
    change (run_bounds _) with ([] ++ run_bounds (release_ready_jobs st2 now net).2).
    eapply chain_step_trans; [exact C1|exact C3].
  - split; [|intros b Hb; congruence].
    destruct (release_ready_jobs_frame st2 now net) as (_&_&->&_). rewrite Hp. apply Hl.
Qed.

(** The whole of a session request. *)
Lemma session_request_effect st now net v r :
  state_labelled st → input_labelled (IGossip v (V0 (MRequest (RSession r)))) →
  let res := handle_session_request st now net v (actor r) (request r) in
  step_effect st res.1 (run_bounds res.2) ∧ state_labelled res.1.
Proof.
  intros Hl Hi. cbv zeta. unfold handle_session_request. cbn in Hi.
  destruct (request r) as [p|sid|sid id|sid kid access|sid kid].
  - set (st1 := with_pending st _).
    assert (Hput : state_labelled st1).
    { split; [|apply Hl]. cbn. rewrite lru_put_spec. apply Forall_take. constructor; [exact Hi|].
      apply Forall_forall. intros e [_ He]%list_elem_of_filter.
      pose proof (lab_pending _ Hl) as Hp. rewrite Forall_forall in Hp. auto. }
    assert (Hsame : step_effect st st [] ∧ state_labelled st) by (split; [by apply step_effect_same|done]).
    assert (Hnew : step_effect st st1 [] ∧ state_labelled st1) by (split; [by apply step_effect_same|done]).
    clearbody st1. by repeat case_match.
  - destruct (st_session st) as [|a] eqn:Es; [split; [by apply step_effect_same; rewrite ?Es|done]|].
    case_bool_decide; [|split; [by apply step_effect_same; rewrite ?Es|done]].
    case_bool_decide; [split; [by apply step_effect_same; rewrite ?Es|done]|].
    cbn. split; [|split; [apply Hl|done]].
    apply se_idle; [done|]. apply run_bounds_nil, skip_queued_jobs_no_run.
  - destruct (st_session st) as [|a] eqn:Es; [split; [by apply step_effect_same; rewrite ?Es|done]|].
    case_bool_decide; [|split; [by apply step_effect_same; rewrite ?Es|done]].
    case_bool_decide; [split; [by apply step_effect_same; rewrite ?Es|done]|].
    destruct (skip_job (a_session a) id) as [[] s] eqn:Esk;
      [|split; [by apply step_effect_same; rewrite ?Es|done]].
    destruct (lab_session _ Hl a Es) as (Hsq&Hok&Hq).
    pose proof (skip_job_chain _ _ _ Esk Hi Hok) as C1. pose proof (cs_id _ _ _ C1) as Hid.
    apply (skip_release_effect st now net a id s); [done..|]. by apply skip_job_chain with id.
  - destruct (st_session st) as [|a] eqn:Es; [split; [by apply step_effect_same; rewrite ?Es|done]|].
    destruct (_ && _); [|split; [by apply step_effect_same; rewrite ?Es|done]].
    destruct (lab_session _ Hl a Es) as (Hsq&Hok&Hq). cbn. split.
    + eapply se_along; [done|done|done|done|]. by apply chain_step_refl.
    + split; [apply Hl|]. cbn. intros b [= <-]. done.
  - destruct (st_session st) as [|a] eqn:Es; [split; [by apply step_effect_same; rewrite ?Es|done]|].
    destruct (_ && _); [|split; [by apply step_effect_same; rewrite ?Es|done]].
    destruct (lab_session _ Hl a Es) as (Hsq&Hok&Hq). cbn. split.
    + eapply se_along; [done|done|done|done|]. by apply chain_step_refl.
    + split; [apply Hl|]. cbn. intros b [= <-]. done.
Qed.
(** ** What a job request does to the chain *)

Lemma enqueue_release_chain st now net qj actor a :
  st_session st = Active a → active_labelled a →
  session_id (payload (signed (q_job qj))) = sess_id (a_session a) →
  job_labelled (signed (q_job qj)) →
  let res := release_ready_jobs (enqueue_job st now qj actor) now net in
  st_pending_starts res.1 = st_pending_starts st ∧
  ∃ a', st_session res.1 = Active a' ∧ active_labelled a' ∧ a_seq a' = a_seq a ∧
    a_live a' = a_live a ∧ chain_step (a_session a) (a_session a') (run_bounds res.2).
Proof.
  intros Es Hl Hsid Hj. cbv zeta.
  destruct (enqueue_job_labelled st now qj actor a Es Hl Hsid Hj) as (a1&E1&Hl1&Hs1&Hv1&Hid1).
  destruct (release_ready_chain _ now net _ E1 Hl1) as (a2&E2&Hl2&Hs2&Hv2&C2).
  destruct (release_ready_jobs_frame (enqueue_job st now qj actor) now net) as (_&_&->&_).
  split; [apply enqueue_job_quiet|]. exists a2. rewrite <- Hid1.
  by split_and!; try congruence.
Qed.

Lemma state_labelled_pop st sid :
  state_labelled st → state_labelled (with_pending st (lru_pop (st_pending_starts st) sid).2).
Proof.
  intros Hl. split; [|apply Hl]. cbn. destruct (lru_pop_spec _ _ (st_pending_starts st) sid) as (_&Ee&_).
  rewrite Ee. apply Forall_forall. intros e [_ He]%list_elem_of_filter.
  pose proof (lab_pending _ Hl) as Hp. rewrite Forall_forall in Hp. auto.
Qed.

(** Confirming a start begins its session at the position the past dictates. *)
Lemma confirm_start_effect st now sid :
  state_labelled st →
  let st1 := (confirm_start st now sid).1 in
  state_labelled st1 ∧ run_bounds (confirm_start st now sid).2 = [] ∧
  (st_session st1 = st_session st ∨
   ∃ a', st_session st1 = Active a' ∧ a_queued_jobs a' = ∅ ∧
     state_rank (st_session st1) ≠ state_rank (st_session st) ∧
     last_job (a_session a') =
       match past_boundary (st_past st) with
       | Some c => if bool_decide (b_session c = sess_id (a_session a'))
                   then LResumed (b_successor c) else LNone
       | None => LNone
       end).
Proof.
  intros Hl. cbv zeta.
  destruct (confirm_start_cases st now sid) as [[-> ->]|(start&s&Hin&Hr&Hid&_&Hs&->&->)].
  { split; [by apply state_labelled_pop|]. split; [done|by left]. }
  assert (Hlast : last_job s = match past_boundary (st_past st) with
       | Some c => if bool_decide (b_session c = sess_id s) then LResumed (b_successor c) else LNone
       | None => LNone end).
  { rewrite Hid. rewrite Hs. destruct (past_boundary (st_past st)); [case_bool_decide|]; done. }
  split; [split; [apply (state_labelled_pop st sid Hl)|]|].
  - cbn. intros a [= <-]. split_and!; cbn.
    + rewrite Hid. pose proof (lab_pending _ Hl) as Hp. rewrite Forall_forall in Hp.
      exact (Hp _ Hin).
    + unfold last_ok. rewrite Hlast. by repeat case_match.
    + intros id qj Hq. by rewrite lookup_empty in Hq.
  - split; [apply run_bounds_nil, skip_queued_jobs_no_run|]. right. eexists.
    split; [done|]. split; [done|]. split; [|done]. cbn. rewrite Hid.
    intros E. rewrite <- E, opt_rank_leb_refl in Hr. done.
Qed.

Lemma job_request_effect st now net v r :
  state_labelled st → input_labelled (IGossip v (V0 (MRequest (RJob r)))) →
  let res := handle_job_request st now net v (actor r) (request r) in
  step_effect st res.1 (run_bounds res.2) ∧ state_labelled res.1.
Proof.
  intros Hl Hi. cbv zeta. unfold handle_job_request. cbn in Hi.
  destruct (request r) as [sj params sleds|id].
  - destruct (certs_verify (st_certs st) sj) as [job|] eqn:Ev;
      [|split; [by apply step_effect_same|done]].
    apply certs_verify_signed in Ev. set (sid := session_id (payload sj)).
    destruct (confirm_start_effect st now sid Hl) as (Hl1&Hno&Hcase).
    destruct (confirm_start st now sid) as [st1 out1]. cbn [fst snd] in *.
    assert (Hkeep : step_effect st st1 []).
    { destruct Hcase as [E|(a'&E&_&Hr&Hlast)]; [by apply step_effect_same|].
      eapply se_fresh; [exact E|exact Hr|done|exact Hlast|].
      apply chain_step_refl, (lab_session _ Hl1 _ E). }
    destruct (match state_session (st_session st1) with Some s => bool_decide (sess_id s = sid)
              | None => false end) eqn:Ea.
    + destruct (st_session st1) as [|a] eqn:Es1; [done|]. cbn in Ea. apply bool_decide_eq_true in Ea.
      pose proof (lab_session _ Hl1 _ Es1) as Ha.
      destruct (enqueue_release_chain st1 now net (mkQueuedJob job params sleds (negb (is_live st v)))
        (actor r) a Es1 Ha) as (Hp&a2&E2&Hl2&Hs2&Hv2&C2); cbn; [by rewrite Ev|by rewrite Ev|].
      destruct (release_ready_jobs _ now net) as [st2 out2]. cbn [fst snd] in *.
      rewrite run_bounds_app, Hno. split.
      * destruct Hcase as [E|(a'&[= <-]&_&Hr&Hlast)].
        -- eapply se_along; [symmetry; exact E|exact E2|done|done|exact C2].
        -- eapply se_fresh; [exact E2| |symmetry; apply C2|exact Hlast|exact C2].
           rewrite E2. cbn. rewrite Hs2, (cs_id _ _ _ C2). exact Hr.
      * split; [rewrite Hp; apply Hl1|]. intros b Hb. congruence.
    + destruct (_ && negb _); cbn [fst snd]; rewrite ?run_bounds_app, Hno; (split; [exact Hkeep|exact Hl1]).
  - destruct (st_session st) as [|a] eqn:Es.
    + assert (H : step_effect st st [] ∧ state_labelled st) by (split; [by apply step_effect_same|done]).
      unfold cancel_job. rewrite Es. by repeat case_match.
    + assert (H : step_effect st st [] ∧ state_labelled st) by (split; [by apply step_effect_same|done]).
      case_bool_decide; [exact H|]. destruct (negb _); [exact H|]. cbn [fst snd].
      pose proof (cancel_job_session st now id (actor r) (negb (is_live st v)) _ Es) as E.
      destruct (lab_session _ Hl a Es) as (Hsq&Hok&Hq). split.
      * eapply se_along; [exact Es|exact E|done|done|]. by apply chain_step_refl.
      * split.
        -- rewrite (quiet_pending _ _ (cancel_job_quiet st now id (actor r) (negb (is_live st v)))). apply Hl.
        -- rewrite E. intros b [= <-]. split_and!; [done|done|].
           eapply queue_labelled_subseteq; [apply delete_subseteq|done].
Qed.

Lemma handle_job_event_pending st v (b : BaseboardId) e :
  st_pending_starts (handle_job_event st v b e).1 = st_pending_starts st.
Proof.
  assert (Hend : ∀ id, st_pending_starts (end_own_job st b id) = st_pending_starts st).
  { intros id. unfold end_own_job. by case_match. }
  assert (Htr : ∀ st1 id f, st_pending_starts (transition_in st1 v b id f).1 = st_pending_starts st1).
  { intros st1 id f. unfold transition_in. by destruct (transition_job_status _ _ _ _ _ _). }
  destruct e; cbn [handle_job_event]; rewrite ?Htr; [|done..].
  destruct (settled_on _ _ _); [done|]. by destruct (bool_decide (b = own st) && _).
Qed.

(** The whole of a step. *)
Lemma step_effect_all st now net i :
  state_labelled st → input_labelled i →
  let res := step st now net i in
  step_effect st res.1 (run_bounds res.2) ∧ state_labelled res.1.
Proof.
  intros Hl Hi. cbv zeta.
  assert (Hsame : ∀ st', st_session st' = st_session st →
    st_pending_starts st' = st_pending_starts st → step_effect st st' [] ∧ state_labelled st').
  { intros st' E1 E2. split; [by apply step_effect_same|by apply (state_labelled_same st)]. }
  destruct i as [c|v m|]; cbn [step]; [by apply Hsame| |].
  - destruct m as [[[r|r]|b e]|ver msg]; cbn [state_update].
    + by apply session_request_effect.
    + by apply job_request_effect.
    + destruct e as [je|info]; cbn [handle_event]; [|by apply Hsame].
      destruct (handle_job_event_frame st v b je) as [E _].
      pose proof (handle_job_event_pending st v b je) as Ep.
      destruct (handle_job_event st v b je) as [st1 [x|]]; [|by apply Hsame].
      cbn [fst snd] in *. destruct (is_terminal x && _); by apply Hsame.
    + by apply Hsame.
  - destruct (settle_past st now net) as (p&E&_). pose proof (settle_outputs st now net) as Ho.
    destruct (settle st now net) as [st1 out]. cbn [fst snd] in *. subst st1.
    rewrite run_bounds_nil; [by apply Hsame|]. intros r Hr. rewrite Forall_forall in Ho.
    by destruct (Ho _ Hr).
Qed.

(** ** The invariant of a sled *)

(** A launch of a session's own past, or of a lesser session's. *)
Definition behind (s : Session) b : Prop :=
  rank_lt (rank_of (b_session b)) (rank_of (sess_id s)) ∨
  (b_session b = sess_id s ∧ passed s (pos (b_job b))).

Definition launch_ok (l : Launch) : Prop :=
  good_boundary (l_boundary l) ∧
  b_session (l_boundary l) = session_id (payload (signed (l_request l))) ∧
  b_job (l_boundary l) = job_id (payload (signed (l_request l))).

Definition launches (s : Sled) : list Launch := sd_before s ++ sd_spawned s ++ ex_launch (sd_exec s).

(** What a durable record may say: every spawned launch is at or below it. *)
Definition covers (ls : list Launch) (m : Boundary) : Prop :=
  good_boundary m ∧ Forall (λ l, launch_le (l_boundary l) m) ls.

Record sled_inv (s : Sled) : Prop := {
  inv_wf : state_wf (sd_state s);
  inv_labelled : state_labelled (sd_state s);
  inv_ok : Forall launch_ok (launches s);
  inv_sorted : StronglySorted launch_lt (map l_boundary (launches s));
  inv_store : ∀ m, stored (sd_store s) = Some m → covers (all_spawned s) m;
  inv_disk : ∀ m, sd_disk s = Some m → covers (all_spawned s) m;
  inv_committed : ∀ c, committed (st_past (sd_state s)) = Some c → covers (sd_before s) c;
  inv_active : ∀ a, st_session (sd_state s) = Active a → admits (sd_state s) = true →
    Forall (behind (a_session a)) (commitment s ++ recent s);
}.

(** Launches behind a session stay behind it, and precede what it launches. *)
Lemma behind_chain_step s s' bs b :
  chain_step s s' bs → behind s b → behind s' b ∧ Forall (launch_lt b) bs.
Proof.
  intros [Hid _ Hp _ Hf] Hb. split.
  - unfold behind. rewrite Hid. destruct Hb as [?|[? ?]]; [by left|right; auto].
  - eapply Forall_impl; [exact Hf|]. intros x (Hx&_&_&Hk). cbn in Hx.
    destruct Hb as [Hr|[E Hb]]; [left; by rewrite Hx|right]. split; [congruence|]. by apply Hk.
Qed.

Lemma chain_step_behind s s' bs : chain_step s s' bs → Forall (behind s') bs.
Proof.
  intros [Hid _ _ _ Hf]. eapply Forall_impl; [exact Hf|]. intros x (Hx&_&Hp&_). right.
  split; [congruence|done].
Qed.

(** ** Applying inputs *)

Definition queue (s : Sled) : list Launch := ex_launch (sd_exec s).

(** Outputs touch the executor only, and only runs lengthen its queue. *)
Record outputs_applied (s s' : Sled) (out : list Output) (ls : list Launch) : Prop := {
  oa_state : sd_state s' = sd_state s;
  oa_before : sd_before s' = sd_before s;
  oa_spawned : sd_spawned s' = sd_spawned s;
  oa_store : sd_store s' = sd_store s;
  oa_disk : sd_disk s' = sd_disk s;
  oa_queue : queue s' = queue s ++ ls;
  oa_bounds : map l_boundary ls `sublist_of` run_bounds out;
  oa_runs : Forall (λ l, ∃ r, ORun r ∈ out ∧ l_request l = r_job r ∧ l_boundary l = r_boundary r) ls;
}.

Lemma ex_job_stop_queue e id : ex_launch (ex_job_stop e id) = ex_launch e.
Proof. unfold ex_job_stop. by case_match. Qed.

Lemma outputs_applied_none s s' out :
  sd_state s' = sd_state s → sd_before s' = sd_before s → sd_spawned s' = sd_spawned s →
  sd_store s' = sd_store s → sd_disk s' = sd_disk s → queue s' = queue s →
  outputs_applied s s' out [].
Proof. intros. split; rewrite ?app_nil_r; try done. apply sublist_nil_l. Qed.

Lemma apply_output_applied s o : ∃ ls, outputs_applied s (apply_output s o) [o] ls.
Proof.
  destruct o as [r|status|id|m]; cbn [apply_output].
  - unfold ex_job_start. destruct (negb (ex_open (sd_exec s))) eqn:Eo;
      [exists []; by apply outputs_applied_none|].
    destruct (_ <? _)%nat; [|exists []; by apply outputs_applied_none].
    eexists. split; try done. apply Forall_singleton. exists r. split; [apply list_elem_of_here|done].
  - exists []. by apply outputs_applied_none.
  - exists []. apply outputs_applied_none; first [done|apply ex_job_stop_queue].
  - exists []. by destruct (sd_network s); apply outputs_applied_none.
Qed.

Lemma apply_outputs_applied s out : ∃ ls, outputs_applied s (apply_outputs s out) out ls.
Proof.
  revert s; induction out as [|o out IH]; intros s.
  { exists []. by apply outputs_applied_none. }
  destruct (apply_output_applied s o) as (l1&[A1 A2 A3 A4 A5 A6 A7 A8]).
  destruct (IH (apply_output s o)) as (l2&[B1 B2 B3 B4 B5 B6 B7 B8]).
  exists (l1 ++ l2). split; cbn [apply_outputs foldl]; unfold apply_outputs in *; try congruence.
  - by rewrite B6, A6, app_assoc.
  - rewrite map_app. change (o :: out) with ([o] ++ out). rewrite run_bounds_app.
    by apply sublist_app.
  - apply Forall_app. split; (eapply Forall_impl; [eassumption|]); intros l (r&Hr&?&?); exists r;
      (split; [|done]).
    + apply list_elem_of_singleton in Hr. subst. apply list_elem_of_here.
    + by apply list_elem_of_further.
Qed.

(** Whatever runs was admitted, and its record is about the job it runs. *)
Lemma step_runs_admitted st now net i r :
  state_wf st → ORun r ∈ (step st now net i).2 →
  admits (step st now net i).1 = true ∧
  b_session (r_boundary r) = session_id (payload (signed (r_job r))) ∧
  b_job (r_boundary r) = job_id (payload (signed (r_job r))).
Proof.
  intros Hwf Hr. destruct (step_runs_authorised st now net i r Hwf Hr)
    as (a&Es&_&Hsid&_&_&Hsc&_&n&_&->).
  unfold admits. rewrite Es, Hsc. by rewrite Hsid.
Qed.

Lemma recent_launch s b : b ∈ recent s → ∃ l, l ∈ launches s ∧ l_boundary l = b.
Proof.
  unfold recent, launches. intros (l&->&Hl)%list_elem_of_fmap. exists l. split; [|done].
  destruct (committed _); [|done]. apply elem_of_app. by right.
Qed.

Lemma recent_good s b : sled_inv s → b ∈ commitment s ++ recent s → good_boundary b.
Proof.
  intros Hinv [Hb|(l&Hl&<-)%recent_launch]%elem_of_app.
  - unfold commitment in Hb. destruct (committed _) as [c|] eqn:E; [|by apply elem_of_nil in Hb].
    apply list_elem_of_singleton in Hb as ->. by apply (inv_committed _ Hinv).
  - pose proof (inv_ok _ Hinv) as Hok. rewrite Forall_forall in Hok. by apply Hok.
Qed.

(** A session that starts out of an orderly input is ahead of everything. *)
Lemma fresh_behind s st' a' s0 :
  sled_inv s → same_life (sd_state s) st' → active_labelled a' →
  st_session st' = Active a' → admits st' = true → outranks st' (recent s) = true →
  sess_id s0 = sess_id (a_session a') →
  last_job s0 = match past_boundary (st_past (sd_state s)) with
                | Some c => if bool_decide (b_session c = sess_id s0)
                            then LResumed (b_successor c) else LNone
                | None => LNone
                end →
  Forall (behind s0) (commitment s ++ recent s).
Proof.
  intros Hinv Hlife (Hsq&_&_) Es Had Hout Hid Hlast. apply Forall_app. split; apply Forall_forall.
  - intros b Hb. pose proof (recent_good s b Hinv) as Hg.
    specialize (Hg (proj2 (elem_of_app _ _ _) (or_introl Hb))). destruct Hg as [Hbs Hbp].
    unfold commitment in Hb. destruct (committed _) as [c|] eqn:Ec; [|by apply elem_of_nil in Hb].
    apply list_elem_of_singleton in Hb as ->.
    unfold admits, screen in Had. rewrite Es, (sl_committed _ _ Hlife), Ec in Had.
    destruct (phrase (b_seq c) <? phrase (a_seq a')) eqn:Elt; cbn [orb] in Had.
    { left. left. apply N.ltb_lt in Elt. cbn. by rewrite <- Hbs, Hid, <- Hsq. }
    destruct (bool_decide (b_network c = _)) eqn:En; [|done].
    destruct (bool_decide (b_session c = sess_id (a_session a'))) eqn:Ess; [|done].
    right. unfold passed. rewrite Hlast. unfold past_boundary. rewrite Ec.
    rewrite (sl_network _ _ Hlife) in En. rewrite En, Hid, Ess.
    by apply bool_decide_eq_true in Ess.
  - intros b Hb. pose proof (recent_good s b Hinv) as Hg.
    specialize (Hg (proj2 (elem_of_app _ _ _) (or_intror Hb))). destruct Hg as [Hbs _].
    unfold outranks in Hout. rewrite Es in Hout. rewrite forallb_forall in Hout.
    apply list_elem_of_In in Hb. specialize (Hout b Hb). apply negb_true_iff in Hout.
    left. apply rank_lt_leb in Hout. unfold rank_of. by rewrite <- Hbs, Hid, <- Hsq.
Qed.

(** What an orderly step runs comes after everything behind the session. *)
Lemma step_behind s now i :
  sled_inv s → input_labelled i → orderly_input s now i = true →
  let res := step (sd_state s) now (sd_network s) i in
  admits res.1 = true →
  StronglySorted launch_lt (run_bounds res.2) ∧ Forall good_boundary (run_bounds res.2) ∧
  Forall (λ b, Forall (launch_lt b) (run_bounds res.2)) (commitment s ++ recent s) ∧
  ∀ a', st_session res.1 = Active a' →
    Forall (behind (a_session a')) ((commitment s ++ recent s) ++ run_bounds res.2).
Proof.
  intros Hinv Hi Ho. cbv zeta. intros Had.
  destruct (step_effect_all (sd_state s) now (sd_network s) i (inv_labelled _ Hinv) Hi) as [He Hl'].
  pose proof (step_same_life (sd_state s) now (sd_network s) i) as Hlife.
  unfold orderly_input in Ho. destruct (step _ now (sd_network s) i) as [st' out]. cbn [fst snd] in *.
  assert (Hgo : ∀ s0 a', st_session st' = Active a' → chain_step s0 (a_session a') (run_bounds out) →
    Forall (behind s0) (commitment s ++ recent s) →
    StronglySorted launch_lt (run_bounds out) ∧ Forall good_boundary (run_bounds out) ∧
    Forall (λ b, Forall (launch_lt b) (run_bounds out)) (commitment s ++ recent s) ∧
    ∀ a', st_session st' = Active a' →
      Forall (behind (a_session a')) ((commitment s ++ recent s) ++ run_bounds out)).
  { intros s0 a' Ea C Hb. split; [apply C|]. split.
    { eapply Forall_impl; [apply C|]. by intros x (_&?&_). }
    split; [eapply Forall_impl; [exact Hb|]; intros b Hx; by eapply behind_chain_step|].
    intros a'' Ea'. assert (a'' = a') as -> by congruence. apply Forall_app. split.
    - eapply Forall_impl; [exact Hb|]. intros b Hx. by eapply behind_chain_step.
    - by eapply chain_step_behind. }
  destruct He as [Ei _|a a' Ea Ea' Hsq Hlv C|a' s0 Ea' Hr Hid Hlast C].
  - unfold admits in Had. by rewrite Ei in Had.
  - apply (Hgo _ _ Ea' C), (inv_active _ Hinv a Ea). unfold admits in *. rewrite Ea.
    rewrite Ea', (cs_id _ _ _ C), Hsq, Hlv in Had. unfold screen in *.
    by rewrite (sl_committed _ _ Hlife), (sl_network _ _ Hlife) in Had.
  - apply (Hgo _ _ Ea' C). rewrite (bool_decide_eq_false_2 _ Hr), Had in Ho. cbn in Ho.
    apply (fresh_behind s st' a'); try done. by apply (lab_session _ Hl').
Qed.

(** Every launch precedes what comes after all of [commitment s ++ recent s]. *)
Lemma launches_before s bs :
  sled_inv s → Forall (λ b, Forall (launch_lt b) bs) (commitment s ++ recent s) →
  ∀ x y, x ∈ map l_boundary (launches s) → y ∈ bs → launch_lt x y.
Proof.
  intros Hinv Hf x y (l&->&Hl)%list_elem_of_fmap Hy. rewrite Forall_forall in Hf.
  assert (Hlt : ∀ b, b ∈ commitment s ++ recent s → launch_lt b y).
  { intros b Hb. specialize (Hf b Hb). rewrite Forall_forall in Hf. auto. }
  assert (Hrec : l ∈ sd_spawned s ++ queue s → launch_lt (l_boundary l) y).
  { intros Hin. apply Hlt, elem_of_app. right. unfold recent. apply list_elem_of_fmap.
    exists l. split; [done|]. apply elem_of_app. by right. }
  apply elem_of_app in Hl as [Hl|Hl]; [|by apply Hrec].
  unfold commitment, recent in Hlt. destruct (committed _) as [c|] eqn:Ec.
  - destruct (inv_committed _ Hinv c Ec) as [_ Hc]. rewrite Forall_forall in Hc.
    eapply launch_le_lt_trans; [by apply Hc|]. apply Hlt, elem_of_app. left. apply list_elem_of_here.
  - apply Hlt, elem_of_app. right. apply list_elem_of_fmap. exists l. split; [done|].
    apply elem_of_app. by left.
Qed.

Lemma apply_input_inv s now i :
  sled_inv s → input_labelled i → orderly_input s now i = true → sled_inv (apply_input s now i).
Proof.
  intros Hinv Hi Ho. pose proof (step_behind s now i Hinv Hi Ho) as Hkey.
  pose proof (step_wf (sd_state s) now (sd_network s) i (inv_wf _ Hinv)) as Hwf'.
  destruct (step_effect_all (sd_state s) now (sd_network s) i (inv_labelled _ Hinv) Hi) as [_ Hl'].
  pose proof (step_same_life (sd_state s) now (sd_network s) i) as Hlife.
  pose proof (λ r, step_runs_admitted (sd_state s) now (sd_network s) i r (inv_wf _ Hinv)) as Hruns.
  unfold apply_input. destruct (step _ now (sd_network s) i) as [st' out]. cbn [fst snd] in *.
  destruct (apply_outputs_applied (with_state s st') out) as (ls&[A1 A2 A3 A4 A5 A6 A7 A8]).
  set (s' := apply_outputs (with_state s st') out) in *. unfold with_state in *. cbn in A1, A2, A3, A4, A5.
  change (queue _) with (queue s) in A6 at 2. clearbody s'.
  assert (Hls : ls = [] ∨ admits st' = true).
  { destruct ls as [|l ls]; [by left|right]. apply Forall_cons in A8 as [(r&Hr&_) _].
    by apply (Hruns r). }
  assert (El : launches s' = launches s ++ ls).
  { unfold launches. rewrite A2, A3. unfold queue in A6. rewrite A6. by rewrite !app_assoc. }
  assert (Er : commitment s' ++ recent s' = (commitment s ++ recent s) ++ map l_boundary ls).
  { unfold commitment, recent. rewrite A1, A2, A3, (sl_committed _ _ Hlife). unfold queue in A6.
    rewrite A6, !map_app, !app_assoc. done. }
  assert (Hall : all_spawned s' = all_spawned s) by (unfold all_spawned; by rewrite A2, A3).
  split; rewrite ?A1; [done|done|..].
  - rewrite El. apply Forall_app. split; [apply Hinv|]. destruct Hls as [->|Had]; [done|].
    destruct (Hkey Had) as (_&Hg&_). rewrite Forall_forall in Hg.
    eapply Forall_impl; [exact A8|]. intros l (r&Hr&E1&E2). destruct (Hruns r Hr) as (_&?&?).
    split; [|by rewrite E1, E2]. rewrite E2. apply Hg. apply list_elem_of_omap. by exists (ORun r).
  - rewrite El, map_app. apply strongly_sorted_app. split; [apply Hinv|].
    destruct Hls as [->|Had]; [split; [constructor|set_solver]|].
    destruct (Hkey Had) as (Hs&_&Hf&_). split; [by eapply strongly_sorted_sublist|].
    intros x y Hx Hy. apply (launches_before s (run_bounds out)); try done.
    by eapply elem_of_sublist.
  - rewrite A4, Hall. apply Hinv.
  - rewrite A5, Hall. apply Hinv.
  - rewrite (sl_committed _ _ Hlife), A2. apply Hinv.
  - intros a' Ea' Had. rewrite Er. destruct (Hkey Had) as (_&_&_&Hb).
    specialize (Hb a' Ea'). apply Forall_app in Hb as [Hb1 Hb2]. apply Forall_app. split; [done|].
    eapply forall_sublist; [exact A7|exact Hb2].
Qed.

Lemma apply_all_inv s l :
  sled_inv s → Forall (λ ni, input_labelled ni.2) l → orderly_inputs s l = true →
  sled_inv (apply_all s l).
Proof.
  revert s; induction l as [|[now i] l IH]; intros s Hinv Hl Ho; [done|].
  apply Forall_cons in Hl as [Hi Hl]. cbn in Ho. apply andb_prop in Ho as [Ho1 Ho2].
  cbn [apply_all]. apply IH; [|done|done]. by apply apply_input_inv.
Qed.

(** ** Turns keep the invariant *)

(** A turn that leaves the machine alone and loses, at most, queued launches. *)
Lemma inv_frame s s' :
  sled_inv s → sd_state s' = sd_state s → sd_before s' = sd_before s →
  (sd_spawned s' ++ queue s') `sublist_of` (sd_spawned s ++ queue s) →
  (∀ m, stored (sd_store s') = Some m → covers (all_spawned s') m) →
  (∀ m, sd_disk s' = Some m → covers (all_spawned s') m) → sled_inv s'.
Proof.
  intros Hinv Est Eb Hsub Hm Hd.
  assert (Hl : launches s' `sublist_of` launches s).
  { unfold launches. rewrite Eb. by apply sublist_app. }
  split; rewrite ?Est, ?Eb; [apply Hinv|apply Hinv| | |done|done|apply Hinv|].
  - eapply forall_sublist; [exact Hl|apply Hinv].
  - eapply strongly_sorted_sublist; [apply sublist_map, Hl|apply Hinv].
  - intros a Ea Had. eapply forall_sublist; [|by apply (inv_active _ Hinv)].
    unfold commitment, recent. rewrite Est, Eb. apply sublist_app; [done|].
    by apply sublist_map, sublist_app.
Qed.

Lemma inv_same s s' :
  sled_inv s → sd_state s' = sd_state s → sd_before s' = sd_before s →
  sd_spawned s' = sd_spawned s → queue s' = queue s → sd_store s' = sd_store s →
  sd_disk s' = sd_disk s → sled_inv s'.
Proof.
  intros Hinv E1 E2 E3 E4 E5 E6. apply (inv_frame s); [done..| | |].
  - by rewrite E3, E4.
  - rewrite E5. unfold all_spawned. rewrite E2, E3. apply Hinv.
  - rewrite E6. unfold all_spawned. rewrite E2, E3. apply Hinv.
Qed.

(** The head of the queue is above every spawned launch. *)
Lemma head_covers s l rest :
  sled_inv s → queue s = l :: rest → covers (all_spawned s ++ [l]) (l_boundary l).
Proof.
  intros Hinv Eq. pose proof (inv_sorted _ Hinv) as Hs. pose proof (inv_ok _ Hinv) as Hok.
  unfold launches in Hs, Hok. change (ex_launch (sd_exec s)) with (queue s) in *.
  rewrite Eq, app_assoc in Hs, Hok. split.
  - rewrite Forall_forall in Hok. apply Hok, elem_of_app. right. apply list_elem_of_here.
  - apply Forall_app. split; [|apply Forall_singleton, launch_le_refl].
    rewrite map_app in Hs. apply strongly_sorted_app in Hs as (_&_&Hlt). apply Forall_forall.
    intros x Hx. apply launch_lt_le, Hlt; [|apply list_elem_of_here].
    apply list_elem_of_fmap. by exists x.
Qed.

Lemma covers_app l1 l2 m : covers (l1 ++ l2) m → covers l1 m.
Proof. by intros [Hg [? _]%Forall_app]. Qed.

Lemma launch_turn_inv s w : sled_inv s → sled_inv (launch_turn s w).
Proof.
  intros Hinv. unfold launch_turn, launch_next.
  destruct (ex_launch (sd_exec s)) as [|l rest] eqn:Eq; [done|].
  pose proof (head_covers s l rest Hinv Eq) as Hc. unfold advance. cbv zeta.
  destruct (landed w) eqn:Ew; cbn [with_exec with_boundary].
  - assert (Eb : all_spawned s ++ [l] = sd_before s ++ sd_spawned s ++ [l])
      by (unfold all_spawned; by rewrite app_assoc).
    rewrite Eb in Hc. apply (inv_frame s); cbn; [done..| |by intros m [= <-]|by intros m [= <-]].
    unfold queue. rewrite Eq. cbn. by rewrite <- app_assoc.
  - apply (inv_frame s); cbn; [done..| |apply Hinv|].
    + apply sublist_app; [done|]. unfold queue. rewrite Eq. cbn. by apply sublist_cons.
    + intros m. destruct w; try (apply Hinv). intros [= <-]. by eapply covers_app.
Qed.

Lemma status_update_covers s status m ls :
  status_update (sd_store s) status = Some m →
  (∀ m, stored (sd_store s) = Some m → covers ls m) → covers ls m.
Proof.
  unfold status_update. destruct (stored (sd_store s)) as [b|] eqn:E; [|done].
  destruct (_ && _); [|done]. intros [= <-] Hc. destruct (Hc b eq_refl) as [Hg Hf].
  by split.
Qed.

Lemma record_turn_inv s k w : sled_inv s → sled_inv (record_turn s k w).
Proof.
  intros Hinv. unfold record_turn. destruct (sd_recording s !! k) as [status|]; [|done].
  unfold record_status. destruct (negb (is_terminal status)); [by apply (inv_same s)|].
  cbn [sd_store sd_disk with_exec with_boundary].
  pose proof (inv_store _ Hinv) as Hs. pose proof (inv_disk _ Hinv) as Hd.
  destruct (status_update (sd_store s) status) as [m|] eqn:Em.
  - pose proof (status_update_covers s status m _ Em Hs) as Hm.
    apply (inv_frame s); [done..| |].
    + cbn. destruct (landed w); [by intros ? [= <-]|done].
    + cbn. destruct w; [by intros ? [= <-]|done|by intros ? [= <-]].
  - by apply (inv_frame s); cbn.
Qed.

Lemma state_new_facts current own_b trust birth record net st :
  state_new current own_b trust (past_new birth record net) = Ok st →
  state_wf st ∧ state_labelled st ∧ st_session st = Inactive ∧ committed (st_past st) = record.
Proof.
  intros E. split; [eapply reachable_wf, reachable_new, E|].
  unfold state_new in E. destruct (certificates_new trust) as [c|]; [|done]. injection E as <-.
  split_and!; [|done|done]. split; cbn; [|done].
  by destruct (lru_new_spec SessionId PendingStart MAX_PENDING_STARTS) as [-> _].
Qed.

(** A new life: the launches so far, spawned or still queued, become the past. *)
Lemma inv_new_life s st q net exec sent birth (c : Cubbies) record current own_b trust doomed re ee recs :
  sled_inv s → state_new current own_b trust (past_new birth record net) = Ok st →
  ex_launch exec = q → q `sublist_of` queue s →
  (∀ m, record = Some m → covers (all_spawned s) m) →
  ∀ store disk, (∀ m, stored store = Some m → covers (all_spawned s) m) →
  (∀ m, disk = Some m → covers (all_spawned s) m) →
  sled_inv (mkSled (with_rack st (set_cubbies (st_rack st) c)) exec store disk recs (Some net)
              doomed re ee sent [] (sd_before s ++ sd_spawned s)).
Proof.
  intros Hinv (Hwf&Hl&Ei&Ec)%state_new_facts Eq Hq Hrec store disk Hst Hd.
  assert (Hsub : (sd_before s ++ sd_spawned s) ++ ex_launch exec `sublist_of` launches s).
  { unfold launches. rewrite Eq, <- app_assoc. by repeat apply sublist_app. }
  assert (Eall : (sd_before s ++ sd_spawned s) ++ [] = all_spawned s) by by rewrite app_nil_r.
  split; unfold launches, all_spawned; cbn -[app]; rewrite ?Eall;
    [by apply wf_with_rack|by apply (state_labelled_same st)|..|exact Hst|exact Hd| |].
  - cbn. eapply forall_sublist; [exact Hsub|apply Hinv].
  - cbn. eapply strongly_sorted_sublist; [apply sublist_map, Hsub|apply Hinv].
  - intros m Em. apply Hrec. congruence.
  - intros a. by rewrite Ei.
Qed.

(** ** Runs *)

Section run.
Variables (current : VersionInfo) (own_b : BaseboardId) (trust : list Certificate).
Implicit Types (e : SledEvent) (s : Sled).

Definition delivered_labelled (l : list (Version * VersionedMessage)) : Prop :=
  Forall (λ d, input_labelled (IGossip d.1 d.2)) l.

Definition event_labelled e : Prop :=
  match e with
  | SMessage _ v m delivered => input_labelled (IGossip v m) ∧ delivered_labelled delivered
  | SSwap _ _ _ delivered => delivered_labelled delivered
  | _ => True
  end.

Lemma drain_inputs_labelled now l :
  delivered_labelled l → Forall (λ ni, input_labelled ni.2) (drain_inputs now l).
Proof.
  intros Hl. apply Forall_app. split; [|by apply Forall_singleton].
  apply Forall_fmap. eapply Forall_impl; [exact Hl|]. by intros [v m].
Qed.

Lemma stop_all_queue ex ids : ex_launch (foldl ex_job_stop ex ids) = ex_launch ex.
Proof.
  revert ex; induction ids as [|id ids IH]; intros ex; [done|]. cbn. by rewrite IH, ex_job_stop_queue.
Qed.

Lemma drop_network_inv s : sled_inv s → sled_inv (drop_network s).
Proof. intros H. unfold drop_network. case_match; [|done]. by apply (inv_same s). Qed.

Lemma forward_event_inv s ev : sled_inv s → sled_inv (forward_event own_b s ev).
Proof.
  intros H. unfold forward_event. repeat case_match; try done; by apply (inv_same s).
Qed.

Lemma swap_universe_inv s birth net s' :
  sled_inv s → swap_universe current own_b trust s birth net = Some s' → sled_inv s'.
Proof.
  intros Hinv. unfold swap_universe, enter_universe.
  destruct (state_new _ _ _ _) as [st|] eqn:E; [|done]. intros [= <-].
  eapply inv_new_life; [exact Hinv|exact E|apply stop_all_queue|reflexivity|apply Hinv..].
Qed.

Lemma restart_inv s birth net c (lost : bool) s' :
  sled_inv s →
  boot current own_b trust (if lost then None else sd_disk s) birth net c
    (sd_before s ++ sd_spawned s) = Some s' →
  sled_inv s'.
Proof.
  intros Hinv. unfold boot, enter_universe.
  destruct (state_new _ _ _ _) as [st|] eqn:E; [|done]. intros [= <-].
  assert (Hr : ∀ m, (if lost then None else sd_disk s) = Some m → covers (all_spawned s) m).
  { destruct lost; [done|apply Hinv]. }
  eapply inv_new_life; [exact Hinv|exact E|reflexivity|apply sublist_nil_l|exact Hr..].
Qed.

Lemma boot_inv record birth net c s :
  boot current own_b trust record birth net c [] = Some s →
  (∀ m, record = Some m → good_boundary m) → sled_inv s.
Proof.
  unfold boot, enter_universe. destruct (state_new _ _ _ _) as [st|] eqn:E; [|done].
  intros [= <-] Hg. apply state_new_facts in E as (Hwf&Hl&Ei&Ec). cbn in Ec.
  assert (Hc : ∀ m, record = Some m → covers [] m) by (intros m Hm; split; [auto|constructor]).
  split; unfold launches, all_spawned; cbn;
    [by apply wf_with_rack|by apply (state_labelled_same st)|constructor|constructor
    |exact Hc|exact Hc| |].
  - intros m Hm. apply Hc. by rewrite <- Ec.
  - intros a. by rewrite Ei.
Qed.

Lemma prepare_inv s e :
  sled_inv s → event_labelled e →
  sled_inv (prepare current own_b trust s e).1 ∧
  Forall (λ ni, input_labelled ni.2) (prepare current own_b trust s e).2.
Proof.
  intros Hinv He. pose proof (drop_network_inv s Hinv) as Hd.
  destruct e as [[r|]|[ev|]|now v m l|now c|now birth net l| |w|k w|birth net c lost];
    cbn [prepare fst snd]; cbn in He.
  - split; [|constructor]. destruct (sd_network _); [by apply (inv_same _ _ Hd)|done].
  - split; [by apply (inv_same _ _ Hd)|constructor].
  - split; [by apply forward_event_inv|constructor].
  - split; [by apply (inv_same _ _ Hd)|constructor].
  - split; [done|]. constructor; [apply He|]. destruct (is_live _ v); [constructor|].
    apply drain_inputs_labelled, He.
  - split; [done|]. by apply Forall_singleton.
  - destruct (sd_network (drop_network s)); [|by split].
    destruct (swap_universe _ _ _ _ _ _) as [s'|] eqn:E; [|by split].
    split; [exact (swap_universe_inv _ _ _ _ Hd E)|by apply drain_inputs_labelled].
  - split; [apply (inv_same _ _ Hd); try done|constructor]. unfold drop_network. by case_match.
  - split; [by apply launch_turn_inv|constructor].
  - split; [by apply record_turn_inv|constructor].
  - destruct (boot _ _ _ _ _ _ _ _) as [s'|] eqn:E; [|by split].
    split; [exact (restart_inv _ _ _ _ _ _ Hinv E)|constructor].
Qed.

Lemma sled_run_inv s es :
  sled_inv s → Forall event_labelled es → orderly_run current own_b trust s es = true →
  sled_inv (sled_run current own_b trust s es).
Proof.
  revert s; induction es as [|e es IH]; intros s Hinv Hl Ho; [done|].
  apply Forall_cons in Hl as [He Hl]. cbn [sled_run foldl]. cbn [orderly_run] in Ho.
  destruct (prepare_inv s e Hinv He) as [Hp Hi].
  destruct (prepare current own_b trust s e) as [s1 l] eqn:E. cbn [fst snd] in *.
  apply andb_prop in Ho as [Ho1 Ho2]. apply IH; [|done|done].
  unfold sled_step. rewrite E. by apply apply_all_inv.
Qed.

(** A launch, by the job it runs. *)
Definition launch_key (l : Launch) : SessionId * JobId :=
  (session_id (payload (signed (l_request l))), job_id (payload (signed (l_request l)))).

Lemma keys_distinct ls :
  Forall launch_ok ls → StronglySorted launch_lt (map l_boundary ls) → NoDup (map launch_key ls).
Proof.
  induction ls as [|l ls IH]; cbn; intros Hok Hs; [constructor|].
  apply Forall_cons in Hok as [(_&E1&E2) Hok]. apply StronglySorted_inv in Hs as [Hs' Hlt].
  constructor; [|by apply IH]. intros (x&Ek&Hx)%list_elem_of_fmap.
  rewrite Forall_forall in Hok. rewrite Forall_forall in Hlt. destruct (Hok x Hx) as (_&E3&E4).
  apply (launch_lt_irrefl (l_boundary x)).
  assert (Hb : launch_lt (l_boundary l) (l_boundary x)).
  { apply Hlt, list_elem_of_fmap. by exists x. }
  unfold launch_key in Ek. injection Ek as K1 K2.
  unfold launch_lt, rank_of in *. rewrite E1, E2, K1, K2, <- E3, <- E4 in Hb. exact Hb.
Qed.

(** C1. No job is spawned twice.  From a first boot, through any interleaving
    of gossip (live or replayed, in any order and any number of times), executor
    events, cubby maps, launcher turns, recorded endings, universe swaps and
    restarts, with durable writes that fail, tear or are lost, the launcher
    spawns each signed job at most once, provided that sessions are orderly: a
    session that comes to run jobs here outranks every launch since the state
    was created (every launch ever, when it was created without a record). *)
Theorem no_job_spawned_twice record birth net c s es :
  boot current own_b trust record birth net c [] = Some s →
  (∀ m, record = Some m → good_boundary m) →
  Forall event_labelled es →
  orderly_run current own_b trust s es = true →
  NoDup (map launch_key (all_spawned (sled_run current own_b trust s es))).
Proof.
  intros Hb Hg Hl Ho. pose proof (sled_run_inv s es (boot_inv _ _ _ _ _ Hb Hg) Hl Ho) as Hinv.
  pose proof (inv_ok _ Hinv) as Hok. pose proof (inv_sorted _ Hinv) as Hs.
  unfold launches in *. rewrite app_assoc in Hok, Hs. rewrite map_app in Hs.
  apply Forall_app in Hok as [Hok _]. apply strongly_sorted_app in Hs as (Hs&_&_).
  by apply keys_distinct.
Qed.
End run.
End labels.
End facts.
