(* ===== verification/Manager.v ===== *)
(** * The job manager ([server/src/manager.rs])

    The checks the HTTP handlers run before they hand a request to the state
    machine, and what they wait for afterwards.  Every [borrow] of the published
    state may see a newer state, so an operation takes the sequence of states
    its borrows see: [σ 0] the first, [σ 1] the next.  Channels and timeouts are
    not modelled; a request that passes its checks is returned. *)
From S2P Require Import Prelude External Codephrases Hash Targets Keys Jobs Messages.
From S2P Require Import Rack Certs History Boundary Executor State StateFacts SessionFacts StatusFacts.
Open Scope N_scope.

(** [JobError]; the errors of other crates are not carried. *)
Inductive JobError :=
| JAttachDenied
| JChannelClosed
| JDuplicateJobId (id : JobId)
| JExecution
| JFileIo (path : string)
| JIdentityNotFound (kid : KeyId)
| JInteractiveJob
| JInvalidCommand
| JInteractiveTarget
| JInvalidRange (len : N)
| JIo (what : string)
| JJobNotFound (id : JobId)
| JJson
| JKey (e : KeyError)
| JMultipleSessions
| JNoReachableTarget
| JNoRequester
| JNoSession
| JNotNextJob (id : JobId)
| JNotSessionStarter
| JSessionNotCurrent (sid : SessionId)
| JOutputHashMismatch (id : JobId) (h : list byte)
| JOutputFileMissing (id : JobId)
| JOutputTooBig
| JPublicKeyMismatch (kid : KeyId)
| JPublicKeyNotFound (kid : KeyId)
| JProxyOnly
| JSlice
| JTask
| JTimeout
| JTooManyOutputRequests (n : N)
| JUnknownCubby (c : N)
| JWait
| JInvalidSessionId
| JUnverifiedJob (e : KeyError).

Inductive SledHealth := Linked | Unlinked | HealthUnknown.

(** [SledVersion]. *)
Record SledVersion := mkSledVersion {
  sv_cubby : option N;
  sv_baseboard : BaseboardId;
  sv_version : option VersionInfo;
  sv_health : option SledHealth;
}.

Section manager.
Context {Irum : Rumors} {Ibb : BaseboardOps} {Isha : Sha3} {Ilru : LruCache} {Ipki : Pki}.
Local Open Scope rust_scope.
Implicit Types st : State.

(** [JobManager::cert_chain]; [None] when [Certificates::chain] does not end. *)
Definition cert_chain (st : State) (kid : KeyId) : option (result (list Certificate) JobError) :=
  map_err JKey <$> chain (st_certs st) kid.

(** ** Checks *)

(** [JobManager::session_check]. *)
Definition session_check (st : State) (sid : SessionId) : result () JobError :=
  let rank := state_rank (st_session st) in
  if (match rank with Some (_, active) => bool_decide (active = sid) | None => false end)
     || negb (opt_rank_leb (pending_rank st sid) rank)
  then Ok ()
  else match rank with None => Err JNoSession | Some _ => Err (JSessionNotCurrent sid) end.

(** [JobManager::currency_check]. *)
Definition currency_check (st : State) (sid : SessionId) : result () JobError :=
  match state_session (st_session st) with
  | None => Err JNoSession
  | Some s => if bool_decide (sess_id s ≠ sid) then Err (JSessionNotCurrent sid) else Ok ()
  end.

(** [JobManager::starter_check]. *)
Definition starter_check (st : State) (authn : KeyId) : result () JobError :=
  match state_session (st_session st) with
  | None => Err JNoSession
  | Some s => if bool_decide (started_by s = Some authn) then Ok () else Err JNotSessionStarter
  end.

(** [JobManager::known_job_check]. *)
Definition known_job_check (st : State) (id : JobId) : result () JobError :=
  if is_job_known st id then Ok () else Err (JJobNotFound id).

(** ** Session requests *)

(** [JobManager::session_start]: the request, and the condition it waits for. *)
Definition session_start (own_b : BaseboardId) (server : SessionServerNonce) (sid : SessionId)
    (client : SessionClientNonce) (signer : SessionSignerNonce) (sq : SessionSeq) :
    result SessionRequest JobError :=
  let preimage := mkSessionPreimage own_b (sush_nonce_compute client server) signer sq in
  if bool_decide (preimage_session_id preimage ≠ sid) then Err JInvalidSessionId
  else Ok (SRStart preimage).

Definition session_start_settled (st : State) (sq : SessionSeq) (sid : SessionId) : bool :=
  bool_decide (is_Some (pending_rank st sid)) || opt_rank_leb (Some (sq, sid)) (state_rank (st_session st)).

(** [JobManager::session_stop], [session_skip_job], [session_allow_attach],
    [session_deny_attach]. *)
Definition session_stop (σ : nat → State) (authn : KeyId) (sid : SessionId) :
    result SessionRequest JobError :=
  let? _ := starter_check (σ 0%nat) authn in
  let? _ := currency_check (σ 1%nat) sid in
  Ok (SRStop sid).

Definition session_skip_job (σ : nat → State) (authn : KeyId) (sid : SessionId) (id : JobId) :
    result SessionRequest JobError :=
  let? _ := starter_check (σ 0%nat) authn in
  let? _ := currency_check (σ 1%nat) sid in
  match state_session (st_session (σ 2%nat)) with
  | Some s =>
    if bool_decide (session_next_job_id s ≠ id) then Err (JNotNextJob id) else Ok (SRSkip sid id)
  | None => Ok (SRSkip sid id)
  end.

Definition session_allow_attach (σ : nat → State) (authn : KeyId) (sid : SessionId) (kid : KeyId)
    (access : Access) : result SessionRequest JobError :=
  let? _ := starter_check (σ 0%nat) authn in
  let? _ := currency_check (σ 1%nat) sid in
  Ok (SRAllowAttach sid kid access).

Definition session_deny_attach (σ : nat → State) (authn : KeyId) (sid : SessionId) (kid : KeyId) :
    result SessionRequest JobError :=
  let? _ := starter_check (σ 0%nat) authn in
  let? _ := currency_check (σ 1%nat) sid in
  Ok (SRDenyAttach sid kid).

(** ** Job requests *)

(** [JobManager::reachable_targets]. *)
Definition reachable_targets (st : State) (own_b : BaseboardId) (linked : gset BaseboardId)
    (t : Target) : result (gset BaseboardId) JobError :=
  match resolve t ({[own_b]} ∪ linked) (cubbies (st_rack st)) with
  | Err (mkUnknownCubby c) => Err (JUnknownCubby c)
  | Ok sleds => if bool_decide (sleds = ∅) then Err JNoReachableTarget else Ok sleds
  end.

(** [JobManager::job_start]: the request, and the sleds to wait for. *)
Definition job_start (σ : nat → State) (own_b : BaseboardId) (linked : gset BaseboardId)
    (job : SignedJob) (params : JobStartParams) : result (JobRequest * gset BaseboardId) JobError :=
  let? _ := map_err JUnverifiedJob (certs_verify (st_certs (σ 0%nat)) job) in
  let id := job_id (payload job) in
  if bool_decide (is_Some (get_job_status (st_history (σ 1%nat)) id)) then Err (JDuplicateJobId id)
  else
    let? _ := session_check (σ 2%nat) (session_id (payload job)) in
    if negb (target_matches_mode (payload job)) then Err JInteractiveTarget
    else
      let? sleds := reachable_targets (σ 3%nat) own_b linked (target (payload job)) in
      Ok (JRStart job params sleds, sleds).

(** The [settled] closure of [JobManager::wait_for_job]. *)
Definition wait_settled (own_b : BaseboardId) (id : JobId) (w : JobWait) (sleds : gset BaseboardId)
    (st : State) (linked : gset BaseboardId) : bool :=
  forallb (λ sled,
    (bool_decide (sled ≠ own_b) && bool_decide (sled ∉ linked))
    || match status_on (st_history st) id sled with
       | Some s => matches_status w s
       | None => false
       end) (elements sleds).

(** [JobManager::wait_for_job] over the states and links it sees; the result is
    whether it returned before they ran out. *)
Definition wait_for_job (own_b : BaseboardId) (id : JobId) (w : JobWait) (sleds : gset BaseboardId)
    (seen : list (State * gset BaseboardId)) : bool :=
  negb (wait_is_some w) || existsb (λ x, wait_settled own_b id w sleds x.1 x.2) seen.

(** [JobManager::wait_for_job_status]. *)
Definition job_status_recorded (st : State) (own_b : BaseboardId) (id : JobId) : bool :=
  bool_decide (is_Some (status_on (st_history st) id own_b)).

(** [JobManager::job_stop]: the request, and the sleds to wait for. *)
Definition job_stop (σ : nat → State) (authn : KeyId) (id : JobId) :
    result (JobRequest * gset BaseboardId) JobError :=
  let? _ := starter_check (σ 0%nat) authn in
  let? _ := known_job_check (σ 1%nat) id in
  Ok (JRStop id, default ∅ (dom <$> get_job_status (st_history (σ 2%nat)) id)).

(** [JobManager::job_status]. *)
Definition job_status_of (st : State) (id : JobId) : result JobStatusMap JobError :=
  ok_or (get_job_status (st_history st) id) (JJobNotFound id).

(** [JobManager::job_output]: whether the output may be read here. *)
Definition job_output_check (st : State) (own_b : BaseboardId) (id : JobId) (target : BaseboardId) :
    result () JobError :=
  if bool_decide (own_b = target)
     && match get_job_status (st_history st) id with
        | Some m => bool_decide (is_Some (m !! target))
        | None => false
        end
  then Ok () else Err (JJobNotFound id).

(** [JobManager::job_attachment]; [open] tells which channels hold a sender. *)
Definition job_attachment (σ : nat → State) (opened : ChannelId → bool) (own_b : BaseboardId)
    (authn : KeyId) (id : JobId) (target : BaseboardId) : result (ChannelId * Access) JobError :=
  match attach_access (st_session (σ 0%nat)) authn with
  | None => Err JAttachDenied
  | Some access =>
    match st_attachments (σ 1%nat) !! id with
    | Some ch =>
      if bool_decide (own_b = target) && opened ch then Ok (ch, access) else Err (JJobNotFound id)
    | None => Err (JJobNotFound id)
    end
  end.

(** [JobManager::job_history]. *)
Definition job_history (st : State) (limit offset : N) : list JobStatusMap :=
  take (N.to_nat limit) (drop (N.to_nat offset) (history_iter (st_history st))).

(** [JobManager::versions]: rows in baseboard order, then stably by cubby. *)
Definition find_cubby (r : Rack) (b : BaseboardId) : option N :=
  find_first (λ c, bool_decide (cubbies r !! c = Some b)) (sorted_elements N.le (dom (cubbies r))).

Definition row_le (x y : SledVersion) : bool :=
  match sv_cubby x, sv_cubby y with
  | Some a, Some b => a <=? b
  | Some _, None => true
  | None, Some _ => false
  | None, None => true
  end.

Fixpoint insert_row (x : SledVersion) (l : list SledVersion) : list SledVersion :=
  match l with
  | [] => [x]
  | y :: l => if row_le x y then x :: y :: l else y :: insert_row x l
  end.

Definition sled_versions (st : State) (own_b : BaseboardId) (linked : gset BaseboardId) :
    list SledVersion :=
  let r := st_rack st in
  let sleds := dom (versions r) ∪ list_to_set (map_to_list (cubbies r)).*2 in
  foldr insert_row []
    (map (λ b, mkSledVersion (find_cubby r b) b (versions r !! b)
                 (Some (if bool_decide (b = own_b) || bool_decide (b ∈ linked) then Linked else Unlinked)))
       (sorted_elements baseboard_le sleds)).

(** ** The checks agree with the state machine *)

Lemma session_check_active st sid :
  session_check st sid = Ok () ↔
  (∃ sq, state_rank (st_session st) = Some (sq, sid)) ∨
  opt_rank_leb (pending_rank st sid) (state_rank (st_session st)) = false.
Proof.
  unfold session_check. destruct (state_rank (st_session st)) as [[sq active]|] eqn:Er.
  - destruct (opt_rank_leb (pending_rank st sid) _) eqn:Ep; cbn -[opt_rank_leb].
    + rewrite orb_false_r. case_bool_decide as Ha; [subst|]; naive_solver.
    + rewrite orb_true_r. naive_solver.
  - destruct (opt_rank_leb (pending_rank st sid) None) eqn:Ep; cbn; naive_solver.
Qed.

(** The manager accepts a job exactly when the state machine would take it:
    its session check passes if and only if confirming the job's session would
    leave that session active. *)
Theorem session_check_exact st now sid :
  session_check st sid = Ok () ↔
  ∃ a, st_session (confirm_start st now sid).1 = Active a ∧ sess_id (a_session a) = sid.
Proof.
  rewrite session_check_active.
  destruct (confirm_start_rank st now sid) as [Hrank _].
  assert (Hid : (∃ a, st_session (confirm_start st now sid).1 = Active a ∧ sess_id (a_session a) = sid)
    ↔ ∃ sq, state_rank (st_session (confirm_start st now sid).1) = Some (sq, sid)).
  { destruct (st_session (confirm_start st now sid).1) as [|a]; cbn; naive_solver. }
  rewrite Hid, Hrank. clear Hid Hrank. unfold opt_rank_max.
  assert (Hpend : ∀ r, pending_rank st sid = Some r → r.2 = sid).
  { unfold pending_rank. destruct (lru_peek _ _); cbn; [|done]. by intros r [= <-]. }
  destruct (opt_rank_leb (state_rank (st_session st)) (pending_rank st sid)) eqn:E1.
  - destruct (opt_rank_leb (pending_rank st sid) (state_rank (st_session st))) eqn:E2.
    + rewrite (opt_rank_leb_antisym _ _ E1 E2). naive_solver.
    + split; [intros _|naive_solver]. destruct (pending_rank st sid) as [[sq s]|] eqn:Ep; [|done].
      specialize (Hpend _ eq_refl). cbn in Hpend. subst s. by exists sq.
  - apply opt_rank_leb_total in E1. rewrite E1. naive_solver.
Qed.

(** Requests that fail the manager's checks would have been ignored, and
    those that pass are acted on: on the state the checks saw, a stop, skip,
    allow or deny that is refused changes nothing in the state machine, and an
    accepted one ends the session, burns the next position, or sets the key's
    access. *)
Theorem session_checks_exact st now net v k sid id kid access :
  let σ := λ _ : nat, st in
  let after req := (handle_session_request st now net v k req).1 in
  match session_stop σ k sid with
  | Ok req => st_session (after req) = Inactive
  | Err _ => handle_session_request st now net v k (SRStop sid) = (st, [])
  end ∧
  match session_allow_attach σ k sid kid access with
  | Ok req => attach_access (st_session (after req)) kid
              = Some (if bool_decide (kid = k) then ReadWrite else access)
  | Err _ => handle_session_request st now net v k (SRAllowAttach sid kid access) = (st, [])
  end ∧
  match session_deny_attach σ k sid kid with
  | Ok req => attach_access (st_session (after req)) kid
              = (if bool_decide (kid = k) then Some ReadWrite else None)
  | Err _ => handle_session_request st now net v k (SRDenyAttach sid kid) = (st, [])
  end ∧
  match session_skip_job σ k sid id with
  | Ok req => ∃ a, st_session st = Active a ∧
                   id = session_next_job_id (a_session a) ∧ (skip_job (a_session a) id).1 = true
  | Err e => handle_session_request st now net v k (SRSkip sid id) = (st, []) ∨ e = JNotNextJob id
  end.
Proof.
  cbv zeta. unfold session_stop, session_allow_attach, session_deny_attach, session_skip_job,
    starter_check, currency_check, handle_session_request.
  destruct (st_session st) as [|a] eqn:Es; [by split_and!; [..|left]|]. cbn [state_session].
  destruct (decide (started_by (a_session a) = Some k)) as [Hby|Hby].
  2:{ rewrite (bool_decide_false (started_by (a_session a) = Some k)) by done. cbn [rbind].
      rewrite (bool_decide_true (started_by (a_session a) ≠ Some k)) by done.
      rewrite andb_false_r. split_and!; [..|left]; first [done|by case_bool_decide]. }
  rewrite (bool_decide_true (started_by (a_session a) = Some k)) by done. cbn [rbind].
  rewrite (bool_decide_false (started_by (a_session a) ≠ Some k)) by auto.
  destruct (decide (sess_id (a_session a) = sid)) as [Hid|Hid].
  2:{ rewrite (bool_decide_true (sess_id (a_session a) ≠ sid)) by done. cbn [rbind].
      rewrite (bool_decide_false (sess_id (a_session a) = sid)) by done. by split_and!; [..|left]. }
  rewrite (bool_decide_false (sess_id (a_session a) ≠ sid)) by auto. cbn [rbind].
  rewrite (bool_decide_true (sess_id (a_session a) = sid)) by done. cbn [andb fst].
  split_and!; [done|..].
  - cbn. rewrite Hby, lookup_insert_eq. repeat case_bool_decide; simplify_eq; done.
  - cbn. rewrite Hby, lookup_delete_eq. repeat case_bool_decide; simplify_eq; done.
  - case_bool_decide as Hn; cbn [rbind]; [by right|].
    exists a. split_and!; [done..|]. unfold skip_job. by rewrite bool_decide_true.
Qed.

Lemma lru_peek_put {V} (c : lru SessionId V) sid v :
  (0 < lru_cap c)%nat → lru_peek (lru_put c sid v) sid = Some v.
Proof.
  intros Hc. rewrite lru_peek_spec, lru_put_spec. destruct (lru_cap c); [lia|].
  cbn [take List.find fst]. by rewrite bool_decide_true.
Qed.

Lemma lru_contains_peek {V} (c : lru SessionId V) sid :
  lru_contains c sid = true → is_Some (lru_peek c sid).
Proof.
  rewrite lru_contains_spec, lru_peek_spec. intros Hin%bool_decide_eq_true.
  apply list_elem_of_fmap in Hin as ([k v]&->&Hin). cbn.
  destruct (find_first _ _) as [[k' v']|] eqn:E; [by eexists|]. exfalso.
  apply find_first_None with (x := (k, v)) in E; [|done]. by rewrite bool_decide_true in E.
Qed.

(** A session start never waits in vain: once the state machine has
    processed the start, the condition the manager waits for holds, unless the
    active session carries the same identifier under a different preimage, which
    takes a collision of the identifier hash. *)
Theorem session_start_settles current own_b trust b0 c0 n0 st now net v k p :
  reachable current own_b trust b0 c0 n0 st →
  session_start_settled (handle_session_request st now net v k (SRStart p)).1
    (seq p) (preimage_session_id p) = true ∨
  ∃ p', p' ≠ p ∧ preimage_session_id p' = preimage_session_id p.
Proof.
  intros Hwf%reachable_wf. unfold handle_session_request, session_start_settled.
  set (sid := preimage_session_id p).
  destruct (match st_session st with
            | Active a => bool_decide (sess_id (a_session a) = sid) | Inactive => false end) eqn:Ed.
  { destruct (st_session st) as [|a] eqn:Es; [done|]. apply bool_decide_eq_true in Ed.
    pose proof (swf_session _ Hwf) as Hs. rewrite Es in Hs. destruct Hs as (_&_&p'&Hp'&Hseq).
    destruct (decide (seq p' = seq p)) as [Ee|Ee].
    - left. cbn -[opt_rank_leb]. rewrite Es. cbn [state_rank].
      rewrite <- Hseq, Ee, Ed, opt_rank_leb_refl. apply orb_true_r.
    - right. exists p'. split; [by intros ->|]. by rewrite Hp', Ed. }
  left. destruct (match st_session st with
    | Active _ => opt_rank_leb (Some (seq p, sid)) (state_rank (st_session st))
    | Inactive => false end) eqn:Est.
  { destruct (st_session st) as [|a] eqn:Es; [done|]. cbn [fst]. rewrite Es, Est. apply orb_true_r. }
  destruct (lru_contains (st_pending_starts st) sid) eqn:Ec; cbn [fst].
  - rewrite bool_decide_true; [done|]. unfold pending_rank.
    apply lru_contains_peek in Ec as [x ->]. by eexists.
  - rewrite bool_decide_true; [done|]. unfold pending_rank. cbn [st_pending_starts with_pending].
    rewrite lru_peek_put; [by eexists|]. destruct (swf_pending _ Hwf) as (->&_). unfold MAX_PENDING_STARTS. lia.
Qed.

(** ** Waiting *)

Lemma matches_status_mono w s s' :
  status_succ (Some s) (Some s') → matches_status w s = true → matches_status w s' = true.
Proof.
  destruct w; cbn; [done| |].
  - intros [[= <-]|[Hlt|[Heq Hle]]]; [done|..]; destruct s, s'; cbn in *; repeat case_match; try done; lia.
  - intros [[= <-]|[Hlt|[Heq Hle]]]; [done|..]; destruct s, s'; cbn in *; repeat case_match; try done; lia.
Qed.

(** A satisfied wait stays satisfied: once a job has reached the awaited
    stage on every awaited sled, no further input undoes it while the history
    has room. *)
Theorem wait_settled_stable own_b id w sleds linked st now net i :
  history_len (st_history st) < MAX_HISTORY →
  wait_settled own_b id w sleds st linked = true →
  wait_settled own_b id w sleds (step st now net i).1 linked = true.
Proof.
  intros Hroom. unfold wait_settled. rewrite !forallb_forall. intros Hw sled Hin.
  specialize (Hw sled Hin). apply orb_true_iff in Hw as [Hw|Hw]; [by rewrite Hw|].
  apply orb_true_iff. right.
  destruct (step_advances st now net i id sled) as [Hs|[? _]]; [|lia].
  destruct (status_on (st_history st) id sled) as [s|]; [|done].
  destruct (status_on (st_history (step st now net i).1) id sled) as [s'|].
  - by eapply matches_status_mono.
  - destruct Hs as [?|[Hlt|[Heq _]]]; [done|cbn in Hlt; lia|]. destruct s; cbn in Heq; repeat case_match; done.
Qed.

(** ** Listing *)

(** The first [n] pages of a history, [limit] rows each. *)
Definition history_pages (st : State) (limit : N) (n : nat) : list JobStatusMap :=
  concat (map (λ i, job_history st limit (N.of_nat i * limit)) (List.seq 0 n)).

Lemma pages_take {A} (l : list A) k n :
  concat (map (λ i, take k (drop (i * k) l)) (List.seq 0 n)) = take (n * k) l.
Proof.
  induction n as [|n IH]; [done|].
  rewrite List.seq_S, map_app, concat_app, IH. cbn [map concat Nat.add]. rewrite app_nil_r.
  rewrite take_take_drop. f_equal. lia.
Qed.

(** Pages tile the history: consecutive pages of any positive size list
    every job once, in order; a page size of zero lists nothing. *)
Theorem history_pages_tile st limit n offset :
  history_pages st limit n = take (n * N.to_nat limit) (history_iter (st_history st)) ∧
  (0 < limit → (length (history_iter (st_history st)) <= n)%nat →
   history_pages st limit n = history_iter (st_history st)) ∧
  job_history st 0 offset = [].
Proof.
  assert (E : history_pages st limit n = take (n * N.to_nat limit) (history_iter (st_history st))).
  { unfold history_pages. rewrite <- pages_take. f_equal. apply map_ext. intros i.
    unfold job_history. do 2 f_equal. lia. }
  split_and!; [done| |done]. intros Hl Hn. rewrite E. apply firstn_all2. nia.
Qed.
End manager.
