(* ===== verification/Output.v ===== *)
(** * Job output directories and files ([server/src/output.rs])

    Where output is written and looked for, across moves of the base, and which
    part of a file a request is served.  A path is the list of its components;
    what the file system answers is an argument of each call, as is whether a
    permit is free. *)
From S2P Require Import Prelude External Codephrases Jobs Messages Manager.
Open Scope N_scope.

(** [Path] and [PathBuf], with [join] of a plain component. *)
Abbreviation Path := (list string).
Definition join (p : Path) (component : string) : Path := p ++ [component].

(** [std::io::ErrorKind], as far as it is looked at. *)
Inductive IoErrorKind := NotFound | OtherError.

Definition MAX_PREVIOUS_DIRS : nat := 4.
Definition MAX_OUTPUT_PERMITS : N := 100.

(** ** Directories *)

(** [OutputDirs]. *)
Record OutputDirs := mkOutputDirs {
  od_current : Path;
  od_previous : list Path;
  od_max_fsize : N;
}.

Definition output_dirs_new (current : Path) (max_fsize : N) : OutputDirs :=
  mkOutputDirs current [] max_fsize.

(** [OutputDirs::moved_to]. *)
Definition moved_to (d : OutputDirs) (current : Path) (max_fsize : N) : OutputDirs :=
  let previous :=
    (if bool_decide (current ≠ od_current d) then [od_current d] else [])
    ++ filter (λ dir, dir ≠ current) (od_previous d) in
  mkOutputDirs current (take MAX_PREVIOUS_DIRS previous) max_fsize.

(** [OutputDirs::bases]. *)
Definition bases (d : OutputDirs) : list Path := od_current d :: od_previous d.

(** [JobOutputStream::as_str]. *)
Definition output_stream_to_string (s : JobOutputStream) : string :=
  match s with Stdout => "stdout" | Stderr => "stderr" end.

(** [job_output_dir_in], [OutputDirs::job_output_dir], [job_output_path]. *)
Definition job_output_dir_in (base : Path) (id : JobId) : Path :=
  join (join base "jobs") (newtype_to_string id).

Definition job_output_path_in (base : Path) (id : JobId) (stream : JobOutputStream) : Path :=
  join (job_output_dir_in base id) (output_stream_to_string stream).

Definition job_output_path (d : OutputDirs) (id : JobId) (stream : JobOutputStream) : Path :=
  job_output_path_in (od_current d) id stream.

(** [JobOutputDir::find_job_output]; [stat] is [metadata]. *)
Definition find_job_output (stat : Path → result N IoErrorKind) (d : OutputDirs) (id : JobId)
    (stream : JobOutputStream) : Path :=
  match find_first (λ path, match stat path with Err NotFound => false | _ => true end)
          (map (λ base, job_output_path_in base id stream) (bases d)) with
  | Some path => path
  | None => job_output_path d id stream
  end.

(** ** Ranges *)

(** [ByteSize::mb(128)]. *)
Definition OUTPUT_THRESHOLD : N := 128 * 10 ^ 6.

(** The [Range] of [http_range_header]: an index or another position. *)
Inductive StartPosition := SIndex (n : N) | SOther.
Inductive EndPosition := EIndex (n : N) | ELastByte.
Record Range := mkRange { r_start : StartPosition; r_end : EndPosition }.

(** [JobOutputFileStream]: where the file is read from, and how much of it. *)
Record JobOutputFileStream := mkFileStream { fs_start : N; fs_length : N }.

(** What reading the stream yields, from a file that holds [content] then. *)
Definition stream_bytes (s : JobOutputFileStream) (content : list byte) : list byte :=
  take (N.to_nat (fs_length s)) (drop (N.to_nat (fs_start s)) content).

(** [JobOutputDir::job_output_len]. *)
Definition job_output_len (stat : Path → result N IoErrorKind) (path : Path) : result N JobError :=
  match stat path with
  | Ok len => Ok len
  | Err NotFound => Ok 0
  | Err OtherError => Err JExecution
  end.

(** The range a request may have of a file of length [len]. *)
Definition select_range (len : N) (range : option Range) : result JobOutputFileStream JobError :=
  match range with
  | Some (mkRange start end_) =>
    match start with
    | SIndex start =>
      if negb (start <? len) then Err (JInvalidRange len)
      else
        match
          match end_ with
          | EIndex e => if (e <? len) && (start <=? e) then Some (e - start + 1) else None
          | ELastByte => Some (len - start)
          end
        with
        | None => Err (JInvalidRange len)
        | Some n =>
          if N.min len OUTPUT_THRESHOLD <? n then Err (JInvalidRange len)
          else Ok (mkFileStream start n)
        end
    | SOther => Err (JInvalidRange len)
    end
  | None => if OUTPUT_THRESHOLD <? len then Err JOutputTooBig else Ok (mkFileStream 0 len)
  end.

(** The outside world, as one request meets it: whether a permit is free, the
    answers of [metadata] to the search and to the length check, of opening the
    file, and of seeking in it. *)
Record OutputWorld := mkOutputWorld {
  ow_permit : bool;
  ow_found : Path → result N IoErrorKind;
  ow_stat : Path → result N IoErrorKind;
  ow_open : Path → result () IoErrorKind;
  ow_seek : bool;
}.

(** A display of a path, to name it in an error. *)
Definition path_to_string (p : Path) : string := String.concat "/" p.

(** [JobOutputDir::job_output]: the path it opened, and the stream. *)
Definition job_output (w : OutputWorld) (d : OutputDirs) (id : JobId) (stream : JobOutputStream)
    (range : option Range) : result (Path * JobOutputFileStream) JobError :=
  if negb (ow_permit w) then Err (JTooManyOutputRequests MAX_OUTPUT_PERMITS)
  else
    let path := find_job_output (ow_found w) d id stream in
    rbind (job_output_len (ow_stat w) path) (λ len,
    match ow_open w path with
    | Err NotFound =>
      if len =? 0 then Err (JOutputFileMissing id) else Err (JFileIo (path_to_string path))
    | Err OtherError => Err (JFileIo (path_to_string path))
    | Ok _ =>
      match range with
      | Some (mkRange (SIndex start) _) =>
        if (start <? len) && negb (ow_seek w) then Err (JFileIo (path_to_string path))
        else rbind (select_range len range) (λ s, Ok (path, s))
      | _ => rbind (select_range len range) (λ s, Ok (path, s))
      end
    end).

(** ** Facts about directories *)

(** A server's directories: no base twice, and at most [MAX_PREVIOUS_DIRS]
    superseded ones. *)
Definition dirs_wf (d : OutputDirs) : Prop :=
  NoDup (bases d) ∧ (length (od_previous d) <= MAX_PREVIOUS_DIRS)%nat.

Lemma dirs_wf_new current fsize : dirs_wf (output_dirs_new current fsize).
Proof. split; [apply NoDup_singleton|cbn; lia]. Qed.

Lemma dirs_wf_moved d current fsize : dirs_wf d → dirs_wf (moved_to d current fsize).
Proof.
  intros [Hnd Hlen]. split; [|unfold moved_to; cbn [od_previous]; rewrite length_take; lia].
  unfold bases in *. cbn. apply NoDup_cons in Hnd as [Hn Hnd]. apply NoDup_cons. split.
  - intros Hin. apply (sublist_subseteq _ _ (sublist_take _ _)) in Hin.
    apply elem_of_app in Hin as [Hin|Hin].
    + case_bool_decide as E; [|set_solver]. apply list_elem_of_singleton in Hin. congruence.
    + by apply list_elem_of_filter in Hin as [? _].
  - eapply sublist_NoDup; [|apply sublist_take]. apply NoDup_app. split.
    + case_bool_decide; [apply NoDup_singleton|constructor].
    + split; [|by apply NoDup_filter].
      intros x Hx [_ Hin]%list_elem_of_filter. case_bool_decide; [|set_solver].
      apply list_elem_of_singleton in Hx as ->. done.
Qed.

Lemma bases_moved d c fsize :
  bases (moved_to d c fsize) = c :: take MAX_PREVIOUS_DIRS (filter (λ dir, dir ≠ c) (bases d)).
Proof.
  unfold bases, moved_to. cbn [od_current od_previous]. f_equal. f_equal.
  rewrite filter_cons. by case_bool_decide; case_decide.
Qed.

(** A base moves back by at most one place. *)
Lemma base_moved d c fsize b l1 l2 :
  bases d = l1 ++ b :: l2 → (length l1 < MAX_PREVIOUS_DIRS)%nat →
  ∃ l1' l2', bases (moved_to d c fsize) = l1' ++ b :: l2' ∧ (length l1' <= S (length l1))%nat.
Proof.
  intros E Hl. rewrite bases_moved, E. destruct (decide (b = c)) as [->|Hne].
  { eexists [], _. split; [done|cbn; lia]. }
  rewrite filter_app, filter_cons_True by done.
  set (k1 := filter (λ dir, dir ≠ c) l1).
  assert (Hk : (length k1 <= length l1)%nat) by apply length_filter.
  rewrite take_app_ge by lia. destruct (MAX_PREVIOUS_DIRS - length k1)%nat as [|m] eqn:Em; [lia|].
  exists (c :: k1), (take m (filter (λ dir, dir ≠ c) l2)). split; [done|cbn; lia].
Qed.

Definition move_all (d : OutputDirs) (moves : list (Path * N)) : OutputDirs :=
  foldl (λ d m, moved_to d m.1 m.2) d moves.

Lemma base_kept d moves b l1 l2 :
  bases d = l1 ++ b :: l2 → (length l1 + length moves <= MAX_PREVIOUS_DIRS)%nat →
  b ∈ bases (move_all d moves).
Proof.
  revert d l1 l2; induction moves as [|[c f] moves IH]; intros d l1 l2 E Hl; cbn in Hl.
  - cbn. rewrite E. set_solver.
  - destruct (base_moved d c f b l1 l2 E) as (l1'&l2'&E'&Hl'); [lia|].
    cbn. apply (IH _ l1' l2'); [done|lia].
Qed.

Lemma move_all_wf d moves : dirs_wf d → dirs_wf (move_all d moves).
Proof.
  revert d. induction moves as [|[c f] moves IH]; intros d Hwf; [done|]. cbn. by apply IH, dirs_wf_moved.
Qed.

Lemma found_after_moves d moves stat id stream :
  (length moves <= MAX_PREVIOUS_DIRS)%nat → stat (job_output_path d id stream) ≠ Err NotFound →
  (∀ base, base ∈ bases (move_all d moves) → base ≠ od_current d →
     stat (job_output_path_in base id stream) = Err NotFound) →
  find_job_output stat (move_all d moves) id stream = job_output_path d id stream.
Proof.
  intros Hl Hthere Hno.
  assert (Hin : od_current d ∈ bases (move_all d moves)) by by apply (base_kept d moves _ [] (od_previous d)).
  unfold find_job_output. destruct (find_first _ _) as [p|] eqn:Ef.
  - apply find_first_Some in Ef as [Hp Hok]. apply list_elem_of_fmap in Hp as (base&->&Hbase).
    destruct (decide (base = od_current d)) as [->|Hne]; [done|]. by rewrite Hno in Hok.
  - rewrite find_first_None in Ef. exfalso.
    specialize (Ef (job_output_path d id stream)). apply Hthere.
    destruct (stat (job_output_path d id stream)) as [|[]] eqn:Es; [|done|];
      (assert (true = false); [apply Ef, list_elem_of_fmap; by eexists|done]).
Qed.

(** Recorded output outlives moves.  Directories keep no base twice and at
    most [MAX_PREVIOUS_DIRS] superseded ones; and output written under the base
    in force is still found after up to that many moves, wherever they lead and
    however often, when no other base holds a file for the job. *)
Theorem output_found_after_moves d moves stat id stream :
  dirs_wf d → (length moves <= MAX_PREVIOUS_DIRS)%nat →
  stat (job_output_path d id stream) ≠ Err NotFound →
  (∀ base, base ∈ bases (move_all d moves) → base ≠ od_current d →
     stat (job_output_path_in base id stream) = Err NotFound) →
  dirs_wf (move_all d moves) ∧
  find_job_output stat (move_all d moves) id stream = job_output_path d id stream.
Proof. intros. split; [by apply move_all_wf|by apply found_after_moves]. Qed.

(** ** Facts about ranges *)

Lemma select_range_exact len a e s :
  let last := match e with EIndex b => b | ELastByte => len - 1 end in
  select_range len (Some (mkRange (SIndex a) e)) = Ok s ↔
  a <= last ∧ last < len ∧ last - a + 1 <= OUTPUT_THRESHOLD ∧ s = mkFileStream a (last - a + 1).
Proof.
  cbv zeta. unfold select_range. destruct (N.ltb_spec a len) as [Ha|Ha]; cbn [negb].
  2:{ split; [done|]. destruct e; lia. }
  destruct e as [b|].
  - destruct (N.ltb_spec b len); cbn [andb]; [|split; [done|lia]].
    destruct (N.leb_spec a b); [|split; [done|lia]].
    destruct (N.ltb_spec (N.min len OUTPUT_THRESHOLD) (b - a + 1)); [split; [done|lia]|].
    split; [intros [= <-]; split_and!; [lia..|done]|by intros (_&_&_&->)].
  - replace (len - 1 - a + 1) with (len - a) by lia.
    destruct (N.ltb_spec (N.min len OUTPUT_THRESHOLD) (len - a)); [split; [done|lia]|].
    split; [intros [= <-]; split_and!; [lia..|done]|by intros (_&_&_&->)].
Qed.

Lemma job_output_select w d id stream range path s :
  job_output w d id stream range = Ok (path, s) →
  path = find_job_output (ow_found w) d id stream ∧ ow_permit w = true ∧ ow_open w path = Ok () ∧
  ∃ len, job_output_len (ow_stat w) path = Ok len ∧ select_range len range = Ok s.
Proof.
  unfold job_output. destruct (ow_permit w); [|done]. cbn [negb].
  set (p := find_job_output _ _ _ _). destruct (job_output_len (ow_stat w) p) as [len|] eqn:El; [|done].
  cbn [rbind]. destruct (ow_open w p) as [[]|[]] eqn:Eo; [|by destruct (len =? 0)|done].
  assert (Hgo : rbind (select_range len range) (λ s, Ok (p, s)) = Ok (path, s) →
    path = p ∧ true = true ∧ ow_open w path = Ok () ∧
    ∃ len, job_output_len (ow_stat w) path = Ok len ∧ select_range len range = Ok s).
  { destruct (select_range len range) as [s'|] eqn:Er; [|done]. intros [= <- <-]. split_and!; [done..|].
    by exists len. }
  destruct range as [[[a|] e]|]; [|exact Hgo..]. destruct (_ && _); [done|exact Hgo].
Qed.

(** A request for output is served exactly the bytes it names, all of them
    inside the file and never more than [OUTPUT_THRESHOLD]: a range from [a] to
    [b] is served when [a <= b] and [b] is in the file, an open one to the last
    byte, no range the whole file; and every other range is refused with the
    file's length. *)
Theorem output_range_served w d id stream range path s :
  job_output w d id stream range = Ok (path, s) →
  ∃ len, job_output_len (ow_stat w) path = Ok len ∧
    fs_start s + fs_length s <= len ∧ fs_length s <= OUTPUT_THRESHOLD ∧
    match range with
    | None => s = mkFileStream 0 len
    | Some (mkRange (SIndex a) (EIndex b)) => a <= b ∧ b < len ∧ s = mkFileStream a (b - a + 1)
    | Some (mkRange (SIndex a) ELastByte) => a < len ∧ s = mkFileStream a (len - a)
    | Some (mkRange SOther _) => False
    end ∧
    (∀ range' e, select_range len (Some range') = Err e → e = JInvalidRange len).
Proof.
  intros (_&_&_&len&El&Es)%job_output_select. exists len. split; [done|].
  assert (Herr : ∀ range' e, select_range len (Some range') = Err e → e = JInvalidRange len).
  { intros [[a|] en] e; cbn; [|congruence]. repeat case_match; congruence. }
  destruct range as [[[a|] en]|]; [|done|].
  - apply select_range_exact in Es as (H1&H2&H3&->). cbn [fs_start fs_length].
    destruct en as [b|]; (split; [lia|]; split; [lia|]; split; [|done]).
    + by split_and!.
    + split; [lia|]. f_equal. lia.
  - cbn in Es. destruct (N.ltb_spec OUTPUT_THRESHOLD len); [done|]. injection Es as <-. cbn.
    by split_and!.
Qed.
