(* ===== verification/Download.v ===== *)
(** * Downloading job output ([client/src/commands.rs])

    The client asks for the output of a job in chunks, several at a time, writes
    each where it belongs as it arrives, and checks the hash of the whole.
    64-bit arithmetic wraps; the chunks arrive in any order; each request is
    served by the server of [Output.v]. *)
From S2P Require Import Prelude External Hash Codephrases Jobs Messages Manager Output.
Open Scope N_scope.

Definition two64 : N := 18446744073709551616.
Definition add64 (x y : N) : N := (x + y) mod two64.
Definition sub64 (x y : N) : N := (x + two64 - y) mod two64.

(** The client's [Range], both ends included. *)
Record ChunkRange := mkChunk { ck_start : N; ck_end : N }.

Definition chunk_len (r : ChunkRange) : N := add64 (sub64 (ck_end r) (ck_start r)) 1.

(** The [Range] header, as [parse_range_header] reads [bytes={start}-{end}]. *)
Definition chunk_header (r : ChunkRange) : Range := mkRange (SIndex (ck_start r)) (EIndex (ck_end r)).

(** [job_output_chunks]: the ranges to ask for; every turn of the loop moves
    [start] forward, so [len] turns are enough. *)
Fixpoint job_output_chunks (fuel : nat) (start len chunk_size : N) : list ChunkRange :=
  match fuel with
  | O => []
  | S fuel =>
    if start <? len then
      let end_ := N.min (sub64 (add64 start chunk_size) 1) (sub64 len 1) in
      mkChunk start end_ :: job_output_chunks fuel (add64 end_ 1) len chunk_size
    else []
  end.

Inductive CommandError :=
| CLengthMismatch (expected received : N)
| CServer (e : JobError)
| COutputHashMismatch
| CChunkSizeZero.

(** [seek] and [write_all]: a write past the end fills with zeros. *)
Definition write_at (file : list byte) (start : nat) (bs : list byte) : list byte :=
  take start (file ++ replicate (start - length file) x00) ++ bs ++ drop (start + length bs) file.

(** [byte_stream_to_file]. *)
Definition byte_stream_to_file (file : list byte) (bytes : list byte) (r : ChunkRange) :
    result N CommandError * list byte :=
  let n := N.of_nat (length bytes) in
  (if n =? chunk_len r then Ok n else Err (CLengthMismatch (chunk_len r) n),
   write_at file (N.to_nat (ck_start r)) bytes).

(** What the server answers to a chunk's request, its file holding [content]. *)
Definition serve_chunk (content : list byte) (r : ChunkRange) : result (list byte) CommandError :=
  map_err CServer
    (rbind (select_range (N.of_nat (length content)) (Some (chunk_header r)))
       (λ s, Ok (stream_bytes s content))).

(** The loop over [buffer_unordered]: the chunks in their order of arrival, each
    from whatever the file held when it was served. *)
Fixpoint receive_chunks (file : list byte) (arrivals : list (list byte * ChunkRange)) :
    result (list byte) CommandError :=
  match arrivals with
  | [] => Ok file
  | (content, r) :: arrivals =>
    rbind (serve_chunk content r) (λ bytes,
    let '(res, file) := byte_stream_to_file file bytes r in
    rbind res (λ _, receive_chunks file arrivals))
  end.

Section download.
Context `{!Sha3}.

(** The saving branch of [job_output_from]: into an empty file, then the hash of
    what was written.  (Hashing in chunks computes the same hash.) *)
Definition job_output_download (len chunk_size : N) (expected : list byte)
    (order : list ChunkRange → list (list byte * ChunkRange)) : result (list byte) CommandError :=
  if chunk_size =? 0 then Err CChunkSizeZero
  else
    rbind (receive_chunks [] (order (job_output_chunks (N.to_nat len) 0 len chunk_size)))
      (λ file, if bool_decide (hash file = expected) then Ok file else Err COutputHashMismatch).
End download.

(** ** The chunks tile the output *)

(** [l] covers [start, len) without gap or overlap, in pieces of at most [cs]. *)
Fixpoint tiles (cs start len : N) (l : list ChunkRange) : Prop :=
  match l with
  | [] => start = len
  | r :: l => ck_start r = start ∧ start <= ck_end r ∧ ck_end r < len ∧
              ck_end r - start + 1 <= cs ∧ tiles cs (ck_end r + 1) len l
  end.

Lemma add64_small x y : x + y < two64 → add64 x y = x + y.
Proof. intros H. by apply N.mod_small. Qed.

Lemma sub64_small x y : y <= x → x < two64 → sub64 x y = x - y.
Proof.
  intros H1 H2. unfold sub64. replace (x + two64 - y) with (x - y + 1 * two64) by lia.
  rewrite N.Div0.mod_add. apply N.mod_small. lia.
Qed.

(** No sum wraps, for a length up to [2 ^ 63], whatever the chunk size. *)
Lemma job_output_chunks_tile fuel start len cs :
  0 < cs → cs < two64 → len <= 2 ^ 63 → start <= len → (start < len → start = 0 ∨ cs <= start) →
  (N.to_nat (len - start) <= fuel)%nat →
  tiles cs start len (job_output_chunks fuel start len cs).
Proof.
  intros Hcs Hcs64 Hlen. revert start.
  assert (E64 : two64 = 2 ^ 63 + 2 ^ 63) by reflexivity.
  induction fuel as [|fuel IH]; intros start Hstart Hs Hfuel; cbn [job_output_chunks].
  { cbn. lia. }
  destruct (N.ltb_spec start len) as [Hlt|]; [|cbn; lia]. specialize (Hs Hlt).
  assert (Hsum : start + cs < two64) by (destruct Hs; lia).
  rewrite add64_small by done. rewrite !sub64_small by lia.
  set (e := N.min (start + cs - 1) (len - 1)).
  rewrite add64_small by lia. cbn [tiles ck_start ck_end].
  split_and!; [done|lia..|]. apply IH; lia.
Qed.

(** ** Writes *)

Lemma write_at_lookup file s bs i :
  write_at file s bs !! i =
  if decide (s <= i < s + length bs)%nat then bs !! (i - s)%nat
  else if decide (length file <= i < s)%nat then Some x00 else file !! i.
Proof.
  unfold write_at. set (pad := file ++ replicate (s - length file) x00).
  assert (Hp : (s <= length pad)%nat) by (unfold pad; rewrite length_app, length_replicate; lia).
  assert (Ht : length (take s pad) = s) by (rewrite length_take; lia).
  destruct (decide (s <= i < s + length bs)%nat).
  - rewrite lookup_app_r, Ht by lia. by rewrite lookup_app_l by lia.
  - destruct (decide (i < s)%nat) as [Hi|].
    + rewrite lookup_app_l, lookup_take_lt by lia. unfold pad.
      destruct (decide (length file <= i < s)%nat).
      * rewrite lookup_app_r by lia. apply lookup_replicate_2. lia.
      * apply lookup_app_l. lia.
    + rewrite decide_False by lia. rewrite lookup_app_r, Ht, lookup_app_r by lia.
      rewrite lookup_drop. f_equal. lia.
Qed.

Lemma write_at_length file s bs :
  length (write_at file s bs) = Nat.max (length file) (s + length bs).
Proof.
  unfold write_at. rewrite !length_app, length_take, length_drop, length_app, length_replicate. lia.
Qed.

(** The piece of a chunk. *)
Definition piece (content : list byte) (r : ChunkRange) : list byte :=
  take (N.to_nat (ck_end r - ck_start r + 1)) (drop (N.to_nat (ck_start r)) content).

Definition in_chunk (r : ChunkRange) (i : nat) : Prop :=
  (N.to_nat (ck_start r) <= i <= N.to_nat (ck_end r))%nat.

Definition chunk_ok (content : list byte) (r : ChunkRange) : Prop :=
  ck_start r <= ck_end r ∧ ck_end r < N.of_nat (length content) ∧
  ck_end r - ck_start r + 1 <= OUTPUT_THRESHOLD.

Lemma piece_length content r :
  chunk_ok content r → length (piece content r) = N.to_nat (ck_end r - ck_start r + 1).
Proof. intros (?&?&_). unfold piece. rewrite length_take, length_drop. lia. Qed.

(** An honest server serves it. *)
Lemma serve_chunk_ok content r :
  chunk_ok content r → N.of_nat (length content) < two64 →
  serve_chunk content r = Ok (piece content r) ∧
  chunk_len r = N.of_nat (length (piece content r)).
Proof.
  intros Hok Hlen. pose proof Hok as (H1&H2&H3). rewrite piece_length by done. split.
  - assert (E : select_range (N.of_nat (length content)) (Some (chunk_header r))
                = Ok (mkFileStream (ck_start r) (ck_end r - ck_start r + 1)))
      by (apply select_range_exact; by split_and!).
    unfold serve_chunk. by rewrite E.
  - unfold chunk_len. rewrite sub64_small, add64_small by lia. lia.
Qed.

(** A file that agrees with the content wherever it was written. *)
Definition partial (content file : list byte) (done_ : nat → Prop) : Prop :=
  (length file <= length content)%nat ∧ ∀ i, done_ i → file !! i = content !! i.

Lemma partial_write content file D r :
  chunk_ok content r → partial content file D →
  partial content (write_at file (N.to_nat (ck_start r)) (piece content r)) (λ i, in_chunk r i ∨ D i).
Proof.
  intros Hok [Hlen Hd]. pose proof (piece_length _ _ Hok) as Hp. pose proof Hok as (H1&H2&_). split.
  - rewrite write_at_length, Hp. lia.
  - intros i Hi. rewrite write_at_lookup, Hp.
    case_decide as Hin.
    + unfold piece. rewrite lookup_take_lt by lia. rewrite lookup_drop. f_equal. lia.
    + destruct Hi as [[? ?]|HD]; [lia|]. case_decide as Hge; [|by apply Hd].
      pose proof (Hd i HD) as E. rewrite lookup_ge_None_2 in E by lia. symmetry in E.
      apply lookup_ge_None in E. lia.
Qed.

Lemma receive_chunks_partial content file D l :
  N.of_nat (length content) < two64 → Forall (chunk_ok content) l → partial content file D →
  ∃ file', receive_chunks file (map (λ r, (content, r)) l) = Ok file' ∧
    partial content file' (λ i, (∃ r, r ∈ l ∧ in_chunk r i) ∨ D i).
Proof.
  intros Hc. revert file D; induction l as [|r l IH]; intros file D Hl Hp.
  { exists file. split; [done|]. split; [apply Hp|]. intros i [(?&?&_)|?]; [set_solver|by apply Hp]. }
  apply Forall_cons in Hl as [Hr Hl]. cbn [map receive_chunks].
  destruct (serve_chunk_ok content r Hr Hc) as [-> Hcl]. cbn [rbind].
  unfold byte_stream_to_file. rewrite Hcl, N.eqb_refl. cbn [rbind].
  destruct (IH _ _ Hl (partial_write content file D r Hr Hp)) as (file'&E&[Hlen Hd]).
  exists file'. split; [exact E|]. split; [done|]. intros i Hi. apply Hd.
  destruct Hi as [(x&[->|Hx]%elem_of_cons&Hin)|?]; [right; by left|left; by exists x|right; by right].
Qed.

Lemma tiles_chunks cs start len l content :
  N.of_nat (length content) = len → cs <= OUTPUT_THRESHOLD → tiles cs start len l →
  Forall (chunk_ok content) l ∧
  ∀ i, (N.to_nat start <= i < N.to_nat len)%nat → ∃ r, r ∈ l ∧ in_chunk r i.
Proof.
  intros Hc Hcs. revert start; induction l as [|r l IH]; intros start; cbn [tiles].
  { intros ->. split; [constructor|lia]. }
  intros (<-&H1&H2&H3&Ht). destruct (IH _ Ht) as [Hf Hi]. split.
  - constructor; [|done]. unfold chunk_ok. rewrite Hc. split_and!; lia.
  - intros i Hin. destruct (decide (i <= N.to_nat (ck_end r))%nat).
    + exists r. split; [set_solver|]. unfold in_chunk. lia.
    + destruct (Hi i) as (x&Hx&?); [lia|]. exists x. split; [set_solver|done].
Qed.

Section facts.
Context `{!Sha3}.

(** The whole file arrives. *)
Lemma download_all content cs order :
  N.of_nat (length content) <= 2 ^ 63 → 0 < cs → cs <= OUTPUT_THRESHOLD →
  (∀ l, ∃ p, order l = map (λ r, (content, r)) p ∧ p ≡ₚ l) →
  job_output_download (N.of_nat (length content)) cs (hash content) order = Ok content.
Proof.
  intros Hlen Hcs Hth Hord. unfold job_output_download.
  destruct (N.eqb_spec cs 0) as [|_]; [lia|]. set (len := N.of_nat (length content)) in *.
  assert (E64 : two64 = 2 ^ 63 + 2 ^ 63) by reflexivity.
  assert (Hth64 : OUTPUT_THRESHOLD < two64) by reflexivity.
  assert (Ht : tiles cs 0 len (job_output_chunks (N.to_nat len) 0 len cs)).
  { apply job_output_chunks_tile; lia. }
  destruct (tiles_chunks _ _ _ _ content eq_refl Hth Ht) as [Hf Hcov].
  destruct (Hord (job_output_chunks (N.to_nat len) 0 len cs)) as (p&->&Hp). rewrite <- Hp in Hf.
  destruct (receive_chunks_partial content [] (λ _, False) p) as (file&->&Hfl&Hfile);
    [lia|done|split; [cbn; lia|done]|]. cbn [rbind].
  assert (file = content) as ->; [|by rewrite bool_decide_true].
  apply list_eq. intros i. destruct (decide (i < length content)%nat).
  - apply Hfile. left. destruct (Hcov i) as (r&Hr&Hin); [lia|]. exists r. by rewrite Hp.
  - rewrite !lookup_ge_None_2 by lia. done.
Qed.

(** C22. A chunked download reassembles the file.  For any chunk size the server
    allows and any length up to [2 ^ 63], the client's ranges are all served,
    none of its 64-bit sums wraps, and whatever the order in which the parallel
    chunks arrive, the file it writes is the file on the sled, so its hash is
    the recorded one. *)
Theorem download_exact content cs order :
  N.of_nat (length content) <= 2 ^ 63 → 0 < cs → cs <= OUTPUT_THRESHOLD →
  (∀ l, ∃ p, order l = map (λ r, (content, r)) p ∧ p ≡ₚ l) →
  job_output_download (N.of_nat (length content)) cs (hash content) order = Ok content.
Proof. apply download_all. Qed.

(** A download that succeeds has the recorded hash, whatever the server sent. *)
Lemma download_hash len cs expected order file :
  job_output_download len cs expected order = Ok file → hash file = expected.
Proof.
  unfold job_output_download. destruct (cs =? 0); [done|]. destruct (receive_chunks _ _); [|done].
  cbn. case_bool_decide; [|done]. by intros [= <-].
Qed.
End facts.
