(* ===== verification/Server.v ===== *)
(** * The HTTP handlers of a sled ([server/src/server.rs], [error.rs], [api/src/lib.rs])

    Every endpoint of the API: who may call it, the checks it runs through the
    job manager, the request it gossips, what it waits for, and the response or
    the HTTP error it ends in.  dropshot's extraction of parameters and bodies
    is not modelled: a handler starts from its typed parameters.  The states a
    handler sees are a sequence, as in [Manager.v]; how a wait ends, whether the
    request channel is open and random nonces are arguments. *)
From S2P Require Import Prelude External Codephrases Hash Targets Keys Ssh Jobs Messages Headers Authn.
From S2P Require Import Rack Certs History Boundary Executor State Manager Output.
Open Scope N_scope.

(** ** Errors *)

(** [HttpError], by the constructors the sources use: a client error with its
    code, status and [Content-Range] header, or an internal error. *)
Inductive HttpError :=
| ForClientError (code : option string) (status : N) (content_range : option N)
| ForInternalError.

Definition client_error (code : option string) (status : N) : HttpError := ForClientError code status None.
Definition internal_error : HttpError := ForInternalError.

Definition http_status (e : HttpError) : N :=
  match e with ForClientError _ status _ => status | ForInternalError => 500 end.

(** [impl From<JobError> for HttpError]. *)
Definition http_of_job_error (e : JobError) : HttpError :=
  match e with
  | JKey _ | JChannelClosed | JExecution | JFileIo _ | JIo _ | JOutputHashMismatch _ _
  | JPublicKeyNotFound _ | JPublicKeyMismatch _ | JTask | JSlice | JWait => internal_error
  | JInvalidRange len => ForClientError None 416 (Some len)
  | JOutputTooBig => client_error None 413
  | JInteractiveJob => client_error None 404
  | JTimeout => client_error None 408
  | JTooManyOutputRequests _ => client_error None 429
  | JAttachDenied | JNotSessionStarter => client_error None 403
  | JIdentityNotFound _ | JJobNotFound _ | JOutputFileMissing _ => client_error None 404
  | JNoSession => client_error (Some "NoSession") 404
  | JSessionNotCurrent _ => client_error (Some "SessionNotCurrent") 410
  | JDuplicateJobId _ | JInteractiveTarget | JInvalidCommand | JJson | JMultipleSessions
  | JInvalidSessionId | JNoReachableTarget | JNoRequester | JUnknownCubby _
  | JUnverifiedJob _ => client_error None 400
  | JProxyOnly => client_error None 404
  | JNotNextJob _ => client_error None 409
  end.

Section server.
Context {Irum : Rumors} {Ibb : BaseboardOps} {Isha : Sha3} {Ilru : LruCache} {Ipki : Pki} {Issh : Ssh}.
Local Open Scope rust_scope.

(** [requester]. *)
Definition requester (authorization : option string) : result KeyId JobError :=
  match authorization with
  | Some s => match authn_from_str s with Ok a => Ok (authn_key_id a) | Err _ => Err JNoRequester end
  | None => Err JNoRequester
  end.

(** ** Requests and responses *)

(** The endpoints of [SushApi] but [/certs/{key_id}], with their parameters; a
    [Range] header as [parse_range_header] reads it. *)
Inductive ApiRequest :=
| ApiIam
| ApiIdentities
| ApiSession
| ApiSessionCheck (sid : SessionId)
| ApiServerNonce
| ApiSessionStart (sid : SessionId) (client : SessionClientNonce) (signer : SessionSignerNonce)
    (sq : SessionSeq)
| ApiSessionStop (sid : SessionId)
| ApiSessionSkipJob (sid : SessionId) (id : JobId)
| ApiSessionAllowAttach (sid : SessionId) (kid : KeyId) (access : Access)
| ApiSessionDenyAttach (sid : SessionId) (kid : KeyId)
| ApiJobStart (id : JobId) (job : SignedJob) (params : JobStartParams)
| ApiJobStop (id : JobId) (until : JobWait)
| ApiJobStatus (id : JobId)
| ApiJobOutput (id : JobId) (target : string) (stream : JobOutputStream)
    (range : option (result (list Range) ()))
| ApiJobAttach (id : JobId) (target : string)
| ApiJobHistory (limit offset : N)
| ApiTarget
| ApiVersions
| ApiVersion.

(** The method and the fixed path of an endpoint; [None] where the path has
    parameters. *)
Definition endpoint (q : ApiRequest) : string * option string :=
  match q with
  | ApiIam => ("POST", Some "/iam")
  | ApiIdentities => ("GET", Some "/iam")
  | ApiSession => ("GET", Some "/sessions")
  | ApiSessionCheck _ => ("GET", None)
  | ApiServerNonce => ("GET", Some "/server-nonce")
  | ApiSessionStart _ _ _ _ | ApiSessionStop _ | ApiSessionSkipJob _ _
  | ApiSessionAllowAttach _ _ _ | ApiSessionDenyAttach _ _
  | ApiJobStart _ _ _ | ApiJobStop _ _ => ("POST", None)
  | ApiJobStatus _ | ApiJobOutput _ _ _ _ | ApiJobAttach _ _ => ("GET", None)
  | ApiJobHistory _ _ => ("GET", Some "/jobs")
  | ApiTarget => ("GET", Some "/target")
  | ApiVersions => ("GET", Some "/versions")
  | ApiVersion => ("GET", Some "/version")
  end.

Inductive ApiResponse :=
| RespChain (pem : string)
| RespSession (s : Session)
| RespNoContent
| RespNonce (n : SessionServerNonce)
| RespStarted (sleds : gset BaseboardId)
| RespStatus (m : JobStatusMap)
| RespOutput (path : Path) (s : JobOutputFileStream)
| RespAttached (ch : ChannelId) (access : Access)
| RespHistory (l : list JobStatusMap)
| RespTarget (b : BaseboardId)
| RespVersions (l : list SledVersion)
| RespVersion (v : VersionInfo).

(** How a wait ended: its condition held, time ran out, or the state's
    channel closed. *)
Inductive WaitEnd := Settled | TimedOut | StateClosed.

Definition wait_result (w : WaitEnd) : result () JobError :=
  match w with Settled => Ok () | TimedOut => Err JTimeout | StateClosed => Err JChannelClosed end.

(** The manager and its surroundings during one request. *)
Record World := mkWorld {
  w_own : BaseboardId;
  w_current : VersionInfo;
  w_states : nat → State;
  w_linked : gset BaseboardId;
  w_channel : bool;
  w_wait : WaitEnd;
  w_nonce : SessionServerNonce;
  w_random : SessionServerNonce;
  w_opened : ChannelId → bool;
  w_pem : list Certificate → result string KeyError;
  w_files : OutputWorld;
  w_dirs : OutputDirs;
}.

(** What a handler leaves: its response, the requests it gossiped, and the
    server nonce. *)
Record Handled := mkHandled {
  h_response : result ApiResponse HttpError;
  h_sent : list Request;
  h_nonce : SessionServerNonce;
}.

(** ** Handlers *)

Definition reply (w : World) (r : result ApiResponse JobError) : Handled :=
  mkHandled (map_err http_of_job_error r) [] (w_nonce w).

Definition refuse (w : World) (e : HttpError) : Handled := mkHandled (Err e) [] (w_nonce w).

(** Behind [requester(authorization)?]. *)
Definition authenticated (w : World) (authorization : option string) (k : KeyId → Handled) : Handled :=
  match requester authorization with
  | Ok authn => k authn
  | Err e => refuse w (http_of_job_error e)
  end.

(** [session_request] and [job_request]: send, then [after]. *)
Definition send_then (w : World) (r : Request) (after : result ApiResponse JobError) : Handled :=
  if w_channel w then mkHandled (map_err http_of_job_error after) [r] (w_nonce w)
  else refuse w (http_of_job_error JChannelClosed).

Definition send_session (w : World) (authn : KeyId) (checked : result SessionRequest JobError)
    (after : result () JobError) : Handled :=
  match checked with
  | Err e => refuse w (http_of_job_error e)
  | Ok req => send_then w (RSession (mkAttributed authn req)) (rbind after (λ _, Ok RespNoContent))
  end.

(** The end of [wait_for_job]; without a wait it returns at once. *)
Definition job_wait (w : World) (wait : JobWait) : result () JobError :=
  if wait_is_some wait then wait_result (w_wait w) else Ok ().

(** A [target] path parameter. *)
Definition path_baseboard (w : World) (target : string) : result BaseboardId HttpError :=
  if bool_decide (target = "*") then Ok (w_own w)
  else ok_or (baseboard_from_str target) (client_error None 400).

(** [AuthorizedRangeRequest::range]. *)
Definition request_range (header : option (result (list Range) ())) : result (option Range) HttpError :=
  match header with
  | None => Ok None
  | Some (Err _) => Err (client_error None 416)
  | Some (Ok [r]) => Ok (Some r)
  | Some (Ok _) => Err (client_error None 416)
  end.

(** The handler of [/certs/{key_id}]; [None] when the chain does not end. *)
Definition handle_cert_chain (w : World) (authorization : option string) (kid : KeyId) : option Handled :=
  match requester authorization with
  | Err e => Some (refuse w (http_of_job_error e))
  | Ok _ =>
    (λ chain, reply w
       (let? certs := chain in map_err JKey (let? pem := w_pem w certs in Ok (RespChain pem))))
    <$> cert_chain (w_states w 0%nat) kid
  end.

(** The other methods of [impl SushApi for ApiServer]: identities, which only a
    proxy knows. *)
Definition api_iam (w : World) : Handled := reply w (Err JProxyOnly).
Definition api_identities (w : World) : Handled := reply w (Err JProxyOnly).

(** Sessions. *)
Definition api_session (w : World) (authorization : option string) : Handled :=
  authenticated w authorization (λ _,
    reply w (ok_or (RespSession <$> state_session (st_session (w_states w 0%nat))) JNoSession)).

Definition api_session_check (w : World) (authorization : option string) (sid : SessionId) : Handled :=
  authenticated w authorization (λ _,
    reply w (let? _ := session_check (w_states w 0%nat) sid in Ok RespNoContent)).

Definition api_server_nonce (w : World) (authorization : option string) : Handled :=
  authenticated w authorization (λ _, mkHandled (Ok (RespNonce (w_random w))) [] (w_random w)).

Definition api_session_start (w : World) (authorization : option string) (sid : SessionId)
    (client : SessionClientNonce) (signer : SessionSignerNonce) (sq : SessionSeq) : Handled :=
  authenticated w authorization (λ authn,
    send_session w authn (session_start (w_own w) (w_nonce w) sid client signer sq)
      (wait_result (w_wait w))).

Definition api_session_stop (w : World) (authorization : option string) (sid : SessionId) : Handled :=
  authenticated w authorization (λ authn,
    send_session w authn (session_stop (w_states w) authn sid) (Ok ())).

Definition api_session_skip_job (w : World) (authorization : option string) (sid : SessionId)
    (id : JobId) : Handled :=
  authenticated w authorization (λ authn,
    send_session w authn (session_skip_job (w_states w) authn sid id) (Ok ())).

Definition api_session_allow_attach (w : World) (authorization : option string) (sid : SessionId)
    (kid : KeyId) (access : Access) : Handled :=
  authenticated w authorization (λ authn,
    send_session w authn (session_allow_attach (w_states w) authn sid kid access) (Ok ())).

Definition api_session_deny_attach (w : World) (authorization : option string) (sid : SessionId)
    (kid : KeyId) : Handled :=
  authenticated w authorization (λ authn,
    send_session w authn (session_deny_attach (w_states w) authn sid kid) (Ok ())).

(** Jobs. *)
Definition api_job_start (w : World) (authorization : option string) (id : JobId) (job : SignedJob)
    (params : JobStartParams) : Handled :=
  authenticated w authorization (λ authn,
    if bool_decide (job_id (payload job) ≠ id) then refuse w (client_error None 400)
    else
      match job_start (w_states w) (w_own w) (w_linked w) job params with
      | Err e => refuse w (http_of_job_error e)
      | Ok (req, sleds) =>
        send_then w (RJob (mkAttributed authn req))
          (let? _ := job_wait w (wait params) in Ok (RespStarted sleds))
      end).

Definition api_job_stop (w : World) (authorization : option string) (id : JobId) (until : JobWait) :
    Handled :=
  authenticated w authorization (λ authn,
    match job_stop (w_states w) authn id with
    | Err e => refuse w (http_of_job_error e)
    | Ok (req, _) =>
      send_then w (RJob (mkAttributed authn req)) (let? _ := job_wait w until in Ok RespNoContent)
    end).

Definition api_job_status (w : World) (authorization : option string) (id : JobId) : Handled :=
  authenticated w authorization (λ _,
    reply w (let? m := job_status_of (w_states w 0%nat) id in Ok (RespStatus m))).

Definition api_job_output (w : World) (authorization : option string) (id : JobId) (target : string)
    (stream : JobOutputStream) (range : option (result (list Range) ())) : Handled :=
  match request_range range with
  | Err e => refuse w e
  | Ok range => authenticated w authorization (λ _,
      match path_baseboard w target with
      | Err e => refuse w e
      | Ok b =>
        reply w
          (let? _ := job_output_check (w_states w 0%nat) (w_own w) id b in
           let? (path, s) := job_output (w_files w) (w_dirs w) id stream range in
           Ok (RespOutput path s))
      end)
  end.

Definition api_job_attach (w : World) (authorization : option string) (id : JobId) (target : string) :
    Handled :=
  authenticated w authorization (λ authn,
    match path_baseboard w target with
    | Err e => refuse w e
    | Ok b =>
      reply w
        (let? (ch, access) := job_attachment (w_states w) (w_opened w) (w_own w) authn id b in
         Ok (RespAttached ch access))
    end).

Definition api_job_history (w : World) (authorization : option string) (limit offset : N) : Handled :=
  authenticated w authorization (λ _,
    reply w (Ok (RespHistory (job_history (w_states w 0%nat) limit offset)))).

(** Discovery. *)
Definition api_target (w : World) : Handled := reply w (Ok (RespTarget (w_own w))).
Definition api_versions (w : World) : Handled :=
  reply w (Ok (RespVersions (sled_versions (w_states w 0%nat) (w_own w) (w_linked w)))).
Definition api_version (w : World) : Handled := reply w (Ok (RespVersion (w_current w))).

(** The endpoint a request is for. *)
Definition handle (w : World) (authorization : option string) (q : ApiRequest) : Handled :=
  match q with
  | ApiIam => api_iam w
  | ApiIdentities => api_identities w
  | ApiSession => api_session w authorization
  | ApiSessionCheck sid => api_session_check w authorization sid
  | ApiServerNonce => api_server_nonce w authorization
  | ApiSessionStart sid client signer sq => api_session_start w authorization sid client signer sq
  | ApiSessionStop sid => api_session_stop w authorization sid
  | ApiSessionSkipJob sid id => api_session_skip_job w authorization sid id
  | ApiSessionAllowAttach sid kid access => api_session_allow_attach w authorization sid kid access
  | ApiSessionDenyAttach sid kid => api_session_deny_attach w authorization sid kid
  | ApiJobStart id job params => api_job_start w authorization id job params
  | ApiJobStop id until => api_job_stop w authorization id until
  | ApiJobStatus id => api_job_status w authorization id
  | ApiJobOutput id target stream range => api_job_output w authorization id target stream range
  | ApiJobAttach id target => api_job_attach w authorization id target
  | ApiJobHistory limit offset => api_job_history w authorization limit offset
  | ApiTarget => api_target w
  | ApiVersions => api_versions w
  | ApiVersion => api_version w
  end.

(** ** Facts *)

Lemma rbind_ok {A B E} (r : result A E) (k : A → result B E) b :
  rbind r k = Ok b → ∃ a, r = Ok a ∧ k a = Ok b.
Proof. destruct r; cbn; [eauto|done]. Qed.

(** The shapes a handler's outcome can take. *)
Inductive outcome_of (w : World) (authorization : option string) (h : Handled) : Prop :=
| oc_quiet : h_sent h = [] → outcome_of w authorization h
| oc_sent authn r after :
    requester authorization = Ok authn → request_actor r = authn → w_channel w = true →
    h = mkHandled (map_err http_of_job_error after) [r] (w_nonce w) →
    (∀ e, after = Err e → e = JTimeout ∨ e = JChannelClosed) →
    outcome_of w authorization h.

Lemma authenticated_outcome w authorization k :
  (∀ authn, requester authorization = Ok authn → outcome_of w authorization (k authn)) →
  outcome_of w authorization (authenticated w authorization k).
Proof.
  intros Hk. unfold authenticated. destruct (requester authorization) as [authn|e] eqn:E; [|by constructor].
  by apply Hk.
Qed.

Lemma wait_result_err w e : wait_result w = Err e → e = JTimeout ∨ e = JChannelClosed.
Proof. destruct w; cbn; [done| |]; intros [= <-]; [by left|by right]. Qed.

Lemma job_wait_err w jw e : job_wait w jw = Err e → e = JTimeout ∨ e = JChannelClosed.
Proof. unfold job_wait. destruct (wait_is_some jw); [apply wait_result_err|done]. Qed.

Lemma send_then_outcome w authorization authn r after :
  requester authorization = Ok authn → request_actor r = authn →
  (∀ e, after = Err e → e = JTimeout ∨ e = JChannelClosed) →
  outcome_of w authorization (send_then w r after).
Proof.
  intros Ha Hr He. unfold send_then. destruct (w_channel w) eqn:Ec; [|by constructor].
  by eapply oc_sent.
Qed.

Lemma send_session_outcome w authorization authn checked after :
  requester authorization = Ok authn →
  (∀ e, after = Err e → e = JTimeout ∨ e = JChannelClosed) →
  outcome_of w authorization (send_session w authn checked after).
Proof.
  intros Ha He. unfold send_session. destruct checked as [req|]; [|by constructor].
  apply (send_then_outcome _ _ authn); [done|done|]. intros e. destruct after; cbn; [done|].
  intros [= <-]. by apply He.
Qed.

Lemma handle_outcome w authorization q : outcome_of w authorization (handle w authorization q).
Proof.
  destruct q; cbn [handle]; try (by constructor);
    try (apply authenticated_outcome; intros authn Ha);
    try (apply send_session_outcome; [done|]; first [apply wait_result_err|done]);
    try (by constructor).
  - case_bool_decide; [by constructor|]. destruct (job_start _ _ _ _ _) as [[req sleds]|]; [|by constructor].
    apply (send_then_outcome _ _ authn); [done|done|]. intros e.
    destruct (job_wait w (wait params)) eqn:Ew; cbn; [done|]. intros [= <-]. by eapply job_wait_err.
  - destruct (job_stop _ _ _) as [[req sleds]|]; [|by constructor].
    apply (send_then_outcome _ _ authn); [done|done|]. intros e.
    destruct (job_wait w until) eqn:Ew; cbn; [done|]. intros [= <-]. by eapply job_wait_err.
  - unfold api_job_output. destruct (request_range range); [|by constructor].
    apply authenticated_outcome. intros authn Ha. destruct (path_baseboard w target); by constructor.
  - destruct (path_baseboard w target); by constructor.
Qed.

(** C31. A refused request did nothing.  A handler gossips at most one request;
    when its response is an error after gossiping, that error is a timed-out
    wait (408) or a closed channel (500); so every other error (an unreadable
    identity, a failed check, a bad target, an unsatisfiable range) means that
    nothing was gossiped. *)
Theorem refused_requests_do_nothing w authorization q e :
  h_response (handle w authorization q) = Err e →
  (length (h_sent (handle w authorization q)) <= 1)%nat ∧
  (h_sent (handle w authorization q) ≠ [] → http_status e = 408 ∨ http_status e = 500) ∧
  (http_status e ∈ [400; 403; 404; 409; 410; 413; 416; 429] → h_sent (handle w authorization q) = []).
Proof.
  destruct (handle_outcome w authorization q) as [Hq|authn r after _ _ _ -> Hafter].
  { rewrite Hq. intros _. split; [cbn; lia|]. by split. }
  cbn. intros He. destruct after as [|je]; [done|]. injection He as <-. split; [lia|].
  destruct (Hafter je eq_refl) as [->| ->]; cbn.
  - split; [by left|]. intros H. exfalso. revert H. by rewrite !elem_of_cons, elem_of_nil; intros Hx; lia.
  - split; [by right|]. intros H. exfalso. revert H. by rewrite !elem_of_cons, elem_of_nil; intros Hx; lia.
Qed.
End server.
