(* ===== verification/EndToEnd.v ===== *)
(** * From a client's request to a gossiped one

    The proxy of [Proxy.v] in front of the handlers of [Server.v]: sleds trust
    the key a forwarded request claims because the proxy has verified it, and
    the endpoints the proxy opens to everybody are the ones the handlers answer
    without a claim. *)
From S2P Require Import Prelude External Codephrases Hash Targets Keys Ssh Jobs Messages Headers Authn Login.
From S2P Require Import Proxy ProxyFacts Rack Certs History Boundary Executor State Manager Output Server.
Open Scope N_scope.

Section end_to_end.
Context {Irum : Rumors} {Ibb : BaseboardOps} {Isha : Sha3} {Ilru : LruCache} {Ipki : Pki} {Issh : Ssh}.
Variables (SocketAddr SledResponse : Type).
Variables (percent_decode : string → option string)
  (key_from_json : list byte → result (option SshPublicKey) string)
  (length_limit_error : string) (current : VersionInfo).

Abbreviation decide rt d st r :=
  (decide_request SocketAddr SledResponse percent_decode key_from_json length_limit_error current rt d st r).
Abbreviation serve st l :=
  (serve_all SocketAddr SledResponse percent_decode key_from_json length_limit_error current st l).

(** ** Identities are filed under their own keys *)

Definition identities_named (st : Logins) : Prop :=
  ∀ e, e ∈ lru_entries (identities st) → id_key_id (ci_identity e.2) = e.1.1.

Lemma identities_named_new : identities_named logins_new.
Proof.
  intros e. cbn. destruct (lru_new_spec (KeyId * Nonce) CachedIdentity MAX_CACHED_IDENTITIES) as [-> _].
  set_solver.
Qed.

Lemma claim_login_named now utc st authz k c who st' :
  claim_login now utc st authz k = (Ok (c, who), st') → id_key_id who = c_key_id c.
Proof.
  unfold claim_login. destruct authz as [s|]; [|done].
  destruct (authn_from_str s) as [[c'|]|]; [|done..].
  destruct (lru_pop (nonces st) (c_nonce c')) as [[minted|] ns]; [|done].
  destruct (NONCE_TTL <=? elapsed now minted); [done|]. case_bool_decide as Hk; [done|].
  destruct (verify_with_ssh_public_key _ k) as [v|]; [|done].
  destruct (identity_new k v utc) as [who'|] eqn:Ei; [|done]. intros [= <- <- _].
  unfold identity_new in Ei. destruct (ssh_key_id k) as [kid|]; [|done]. cbn in Hk, Ei.
  injection Hk as ->. destruct (negb _); [done|]. by injection Ei as <-.
Qed.

Lemma verify_login_named now t1 t2 utc st authz k :
  identities_named st → identities_named (verify_login now t1 t2 utc st authz k).2.
Proof.
  intros Hn. unfold verify_login.
  assert (Hc : identities (claim_login now utc st authz k).2 = identities st).
  { destruct (claim_login_cases now utc st authz k) as [[-> _]|(n&->&_)]; done. }
  destruct (claim_login now utc st authz k) as [[[c who]|e] st1] eqn:E; cbn [fst snd] in *;
    [|unfold identities_named; by rewrite Hc].
  apply claim_login_named in E. intros e. cbn.
  intros [->|[He _]]%put_elem; [done|]. apply Hn. by rewrite <- Hc.
Qed.

Lemma verify_request_named t0 t1 t2 st authz method target :
  identities_named st → identities_named (verify_request t0 t1 t2 st authz method target).2.
Proof.
  intros Hn. unfold verify_request. destruct authz as [s|]; [|done].
  destruct (authn_from_str s) as [[c|[kid [proof|]]]|]; [done| |done..].
  pose proof (lru_get_mut_spec _ _ (identities st) (kid, rs_nonce proof)) as Hg.
  destruct (lru_get_mut (identities st) (kid, rs_nonce proof)) as [[c write]|]; [|done].
  destruct Hg as [Hpk Hwr]. apply peek_elem, Hn in Hpk. cbn in Hpk.
  assert (Hw : ∀ w, ci_identity w = ci_identity c →
    ∀ e, e ∈ lru_entries (write w) → id_key_id (ci_identity e.2) = e.1.1).
  { intros w Ew e. destruct (Hwr w) as [-> _]. intros [->|He]%elem_of_cons; [cbn; by rewrite Ew|].
    apply list_elem_of_filter in He as [_ He]. by apply Hn. }
  destruct (is_still_valid t0 t1 c); cbn [negb].
  2:{ intros e [He _]%pop_elem. by eapply Hw. }
  destruct (verify_bound _ _ _ _); [|intros x; by apply Hw].
  destruct (spend _ _) as [fresh w]. destruct fresh; cbn [negb]; intros x; by apply Hw.
Qed.

Lemma refuse_failure_named {T} st (r : result T LoginError) n now :
  identities_named st → identities_named (refuse_failure st r n now).2.
Proof. by destruct r. Qed.

Lemma decide_named rt d st r : identities_named st → identities_named (decide rt d st r).2.
Proof.
  intros Hn.
  assert (Ha : ∀ authz, identities_named (authorize_request d st authz r).2).
  { intros authz. unfold authorize_request, authorize.
    pose proof (verify_request_named (d_t0 d) (d_t1 d) (d_t2 d) st authz (rq_method r)
      (default "" (rq_path_and_query r)) Hn) as H.
    destruct (verify_request _ _ _ _ _ _ _). by apply refuse_failure_named. }
  assert (Hi : ∀ authz,
    identities_named (check_iam_post SledResponse key_from_json length_limit_error d st authz r).2).
  { intros authz. unfold check_iam_post. destruct (login_key _ _ _) as [[k|]|]; [|..|done].
    - unfold login. pose proof (verify_login_named (d_t0 d) (d_t1 d) (d_t2 d) (d_utc d) st authz k Hn) as H.
      destruct (verify_login _ _ _ _ _ _ _) as [res st1].
      pose proof (refuse_failure_named st1 res (d_nonce d) (d_t3 d) H) as H'.
      by destruct (refuse_failure st1 res (d_nonce d) (d_t3 d)).
    - specialize (Ha authz). by destruct (authorize_request d st authz r). }
  assert (Hc : ∀ authz, identities_named (check_authorized SledResponse d st authz r).2).
  { intros authz. unfold check_authorized. specialize (Ha authz).
    by destruct (authorize_request d st authz r). }
  assert (Hk : identities_named (check_login SledResponse key_from_json length_limit_error d st r).2).
  { unfold check_login. destruct (needs_no_login r); [done|].
    destruct (rq_authorization r) as [|h [|h2 hs]]; [destruct (_ && _); auto..|done]. }
  unfold decide_request. destruct (own_version _ _ _ r); [done|].
  by destruct (check_login _ _ _ d st r) as [[r1|resp] st1].
Qed.

Lemma serve_named st l : identities_named st → identities_named (serve st l).2.
Proof.
  revert st; induction l as [|[[rt d] r] l IH]; intros st Hn; [done|]. cbn [serve_all].
  pose proof (decide_named rt d st r Hn) as H. destruct (decide rt d st r) as [o st1].
  specialize (IH st1 H). by destruct (serve st1 l).
Qed.

(** C4. A gossiped request names a key that was proved.  When a sled's handler
    gossips a request on behalf of one the proxy forwarded, after any history of
    the proxy, the key it is attributed to is the key of a live login of that
    proxy: the login's identity carries that very key, and the request's bound
    credentials verified under the login's ephemeral key for the request's own
    method and target. *)
Theorem gossiped_requests_are_proved l rt d r addr r' st' w api q :
  decide rt d (serve logins_new l).2 r = (ForwardTo SocketAddr SledResponse addr r', st') →
  needs_no_login r = false →
  q ∈ h_sent (handle w (h ← head (rq_authorization r'); h) api) →
  ∃ proof cached,
    lru_peek (identities (serve logins_new l).2) (request_actor q, rs_nonce proof) = Some cached ∧
    id_key_id (ci_identity cached) = request_actor q ∧
    is_still_valid (d_t0 d) (d_t1 d) cached = true ∧
    verify_bound (ci_verifier cached)
      (bound_request_new (rq_method r) (default "" (rq_path_and_query r)) (rs_seq proof))
      (request_actor q) proof = Ok ().
Proof.
  intros Hd Hn Hq. pose proof (serve_named logins_new l identities_named_new) as Hnamed.
  set (st := (serve logins_new l).2) in *.
  apply forwarded_facts in Hd as (->&_&[[? _]|(_&s&kid&proof&cached&Hs&Ha&Hp&Hv&Hb&_)]); [congruence|].
  rewrite Hs in Hq. cbn in Hq.
  destruct (handle_outcome w (Some s) api) as [Hno|authn q' after Hr Hact _ Eh _].
  { rewrite Hno in Hq. by apply elem_of_nil in Hq. }
  rewrite Eh in Hq. cbn in Hq. apply list_elem_of_singleton in Hq as ->.
  unfold requester in Hr. rewrite Ha in Hr. injection Hr as <-. rewrite Hact. cbn.
  exists proof, cached. split; [done|]. split; [|done].
  apply (Hnamed ((kid, rs_nonce proof), cached)). by apply peek_elem.
Qed.

(** ** Discovery *)

(** The proxy opens exactly the endpoints that need no identity.  Handlers
    answer the discovery endpoints alike whoever asks, and gossip nothing; every
    other endpoint, asked without an [Authorization] header, ends in an error
    and gossips nothing; and an endpoint of a fixed path is a discovery endpoint
    exactly when the proxy forwards it without a login. *)
Theorem discovery_is_what_needs_no_login w q :
  let open := existsb (λ e, bool_decide (endpoint q = (e.1, Some e.2))) UNAUTHENTICATED in
  (open = true → ∃ resp, ∀ authorization, handle w authorization q = mkHandled (Ok resp) [] (w_nonce w)) ∧
  (open = false → ∃ e, handle w None q = mkHandled (Err e) [] (w_nonce w)) ∧
  (∀ r path, endpoint q = (rq_method r, Some path) → rq_path r = path → needs_no_login r = open).
Proof.
  cbv zeta. split; [|split].
  - destruct q; cbn; try done; intros _; by eexists.
  - destruct q; cbn; try done; intros _; try (by eexists).
    unfold api_job_output. destruct (request_range range); by eexists.
  - intros r path E Ep. subst path. rewrite E. unfold needs_no_login, UNAUTHENTICATED. cbn.
    repeat case_bool_decide; simplify_eq; cbn; congruence.
Qed.
End end_to_end.
