(* ===== verification/JobIo.v ===== *)
(** * A job's streams and its clients ([server/src/io.rs], [mux.rs],
    [common/src/interactive.rs])

    The two ends a running job talks to: the streams its process writes, read
    one result at a time, and the clients attached to it, multiplexed.  Reading
    a descriptor, JSON and sockets are outside; what they deliver is an argument
    of the operation that asks for it. *)
From S2P Require Import Prelude Codephrases Jobs.
Open Scope N_scope.

(** [Duration::from_secs], in nanoseconds. *)
Definition secs (n : N) : N := n * 10 ^ 9.

(** ** The interactive protocol ([common/src/interactive.rs]) *)

Record WindowSize := mkWindowSize { ws_rows : N; ws_cols : N }.
Inductive InteractiveJobControl := WindowChange (size : WindowSize).

(** [InteractiveJobMessage]. *)
Inductive InteractiveJobMessage :=
| MControl (c : InteractiveJobControl)
| MData (bytes : list byte)
| MIgnore
| MClose.

Inductive InteractiveJobError := IgnoredMessage | JsonError (message : string).

(** [tungstenite::Message]; [WsOther] stands for pings, pongs and raw frames. *)
Inductive WebSocketMessage :=
| WsText (text : string)
| WsBinary (bytes : list byte)
| WsClose
| WsOther.

Section interactive.
Variables (from_json : string → result InteractiveJobControl string)
  (to_json : InteractiveJobControl → result string string).

(** [InteractiveJobMessage::try_from]. *)
Definition message_of_ws (m : WebSocketMessage) : result InteractiveJobMessage InteractiveJobError :=
  match m with
  | WsText text => rbind (map_err JsonError (from_json text)) (λ c, Ok (MControl c))
  | WsBinary bytes => Ok (MData bytes)
  | WsClose => Ok MClose
  | WsOther => Ok MIgnore
  end.

(** [WebSocketMessage::try_from]. *)
Definition ws_of_message (m : InteractiveJobMessage) : result WebSocketMessage InteractiveJobError :=
  match m with
  | MControl c => rbind (map_err JsonError (to_json c)) (λ text, Ok (WsText text))
  | MData bytes => Ok (WsBinary bytes)
  | MClose => Ok WsClose
  | MIgnore => Err IgnoredMessage
  end.

(** What is sent is what is received. *)
Lemma message_roundtrip m w :
  (∀ c text, to_json c = Ok text → from_json text = Ok c) →
  ws_of_message m = Ok w → message_of_ws w = Ok m.
Proof.
  intros Hj. destruct m as [c| | |]; cbn; intros E; [|by simplify_eq..].
  destruct (to_json c) as [text|] eqn:Et; cbn in E; simplify_eq. cbn. by rewrite (Hj _ _ Et).
Qed.
End interactive.

(** ** The process's streams ([server/src/io.rs]) *)

Definition INPUT_CHANNEL_CAPACITY : nat := 100.
Definition BATCH_OUTPUT_BUFFER_SIZE : N := 65536.
Definition INTERACTIVE_OUTPUT_BUFFER_SIZE : N := 8192.

(** [io::Error]: whether it is [EIO], and its text. *)
Record IoError := mkIoError { io_eio : bool; io_message : string }.

(** [StreamState], less its reader and buffer. *)
Record StreamState := mkStream { ss_eof : bool; ss_rec : bool }.
Definition stream_new : StreamState := mkStream false true.

(** [StreamState::read], once [read_buf] has returned. *)
Definition stream_read (s : StreamState) (r : result (list byte) IoError) :
    result (option (list byte)) IoError * StreamState :=
  match r with
  | Err e => (Err e, s)
  | Ok [] => (Ok None, mkStream true (ss_rec s))
  | Ok bytes => (Ok (if ss_rec s then Some bytes else None), s)
  end.

(** [JobIo]: a terminal with the channel that [relay_input] empties into it
    (what waits in it, whether it is open, what has been written), or two pipes. *)
Inductive JobIo :=
| IoInteractive (pty : StreamState) (input : list (list byte)) (relaying : bool) (typed : list (list byte))
| IoBatch (stdout stderr : StreamState).

(** [JobIo::open]. *)
Definition io_open (m : JobMode) : JobIo :=
  if is_interactive m then IoInteractive stream_new [] true []
  else IoBatch stream_new stream_new.

(** The streams [read_output] waits for. *)
Definition readable (io : JobIo) (s : JobOutputStream) : bool :=
  match io, s with
  | IoInteractive _ _ _ _, Stdout => true
  | IoInteractive _ _ _ _, Stderr => false
  | IoBatch out _, Stdout => negb (ss_eof out)
  | IoBatch _ err, Stderr => negb (ss_eof err)
  end.

(** One turn of the loop of [JobIo::read_output], the read of [s] having ended
    in [r]; no result when the loop goes round again. *)
Definition read_output (io : JobIo) (s : JobOutputStream) (r : result (list byte) IoError) :
    JobIo * option (result (list byte * JobOutputStream) IoError) :=
  match io with
  | IoInteractive pty input open typed =>
    let '(res, pty) := stream_read pty r in
    (IoInteractive pty input open typed,
     match res with
     | Ok (Some b) => Some (Ok (b, Stdout))
     | Ok None => if ss_eof pty then Some (Ok ([], Stdout)) else None
     | Err e => Some (if io_eio e then Ok ([], Stdout) else Err e)
     end)
  | IoBatch out err =>
    let '(res, io) :=
      match s with
      | Stdout => let '(res, out) := stream_read out r in (res, (out, err))
      | Stderr => let '(res, err) := stream_read err r in (res, (out, err))
      end in
    (IoBatch io.1 io.2,
     match res with
     | Ok (Some b) => Some (Ok (b, s))
     | Ok None => if ss_eof io.1 && ss_eof io.2 then Some (Ok ([], Stdout)) else None
     | Err e => Some (Err e)
     end)
  end.

(** [JobIo::write_input]: dropped when the channel is full or closed. *)
Definition write_input (io : JobIo) (bytes : list byte) : JobIo :=
  match io with
  | IoInteractive pty input open typed =>
    if open && (length input <? INPUT_CHANNEL_CAPACITY)%nat
    then IoInteractive pty (input ++ [bytes]) open typed else io
  | IoBatch _ _ => io
  end.

(** One turn of [relay_input]: a write, or the stop token's cancellation. *)
Definition relay_write (io : JobIo) (written : bool) : JobIo :=
  match io with
  | IoInteractive pty (bytes :: input) true typed =>
    if written then IoInteractive pty input true (typed ++ [bytes])
    else IoInteractive pty [] false typed
  | _ => io
  end.
Definition relay_stop (io : JobIo) : JobIo :=
  match io with
  | IoInteractive pty _ _ typed => IoInteractive pty [] false typed
  | IoBatch _ _ => io
  end.

(** [JobIo::get_window_size], [JobIo::set_window_size]; [tty] is the ioctl. *)
Definition get_window_size (io : JobIo) (tty : result WindowSize string) : result WindowSize string :=
  match io with
  | IoInteractive _ _ _ _ => tty
  | IoBatch _ _ => Err "batch jobs have no window size"
  end.
Definition set_window_size (io : JobIo) (tty : result () string) : result () string :=
  match io with
  | IoInteractive _ _ _ _ => tty
  | IoBatch _ _ => Err "batch jobs have no windows"
  end.

(** [JobIo::drain_timeout]. *)
Definition io_drain_timeout : N := secs 1.

(** [JobIo::stop_recording]. *)
Definition stop_recording (io : JobIo) (s : JobOutputStream) : JobIo :=
  match io with
  | IoInteractive pty input open typed => IoInteractive (mkStream (ss_eof pty) false) input open typed
  | IoBatch out err =>
    match s with
    | Stdout => IoBatch (mkStream (ss_eof out) false) err
    | Stderr => IoBatch out (mkStream (ss_eof err) false)
    end
  end.

(** Whether output of [s] still reaches the job. *)
Definition recording (io : JobIo) (s : JobOutputStream) : bool :=
  match io, s with
  | IoInteractive pty _ _ _, _ => ss_rec pty
  | IoBatch out _, Stdout => ss_rec out
  | IoBatch _ err, Stderr => ss_rec err
  end.

(** What was accepted for the terminal, in order. *)
Definition accepted (io : JobIo) : list (list byte) :=
  match io with IoInteractive _ input _ typed => typed ++ input | IoBatch _ _ => [] end.

(** ** Clients ([server/src/mux.rs]) *)

Abbreviation ClientId := N.

(** [WebSocketMux]: the sockets still read, the running writer tasks with what
    each was given to send, accesses, stop tokens held, and finished writers. *)
Record WebSocketMux := mkMux {
  next_client_id : ClientId;
  mx_recv : gset ClientId;
  mx_send : gmap ClientId (list WebSocketMessage);
  mx_access : gmap ClientId Access;
  mx_stop : gset ClientId;
  mx_done : gset ClientId;
}.

Definition mux_new : WebSocketMux := mkMux 0 ∅ ∅ ∅ ∅ ∅.

(** [WebSocketMux::add]. *)
Definition mux_add (m : WebSocketMux) (a : Access) (initial : list WebSocketMessage) : WebSocketMux :=
  let id := next_client_id m in
  mkMux (id + 1) ({[id]} ∪ mx_recv m) (<[id := initial]> (mx_send m)) (<[id := a]> (mx_access m))
    ({[id]} ∪ mx_stop m) (mx_done m).

(** [WebSocketMux::remove]. *)
Definition mux_remove (m : WebSocketMux) (id : ClientId) : WebSocketMux :=
  mkMux (next_client_id m) (mx_recv m ∖ {[id]}) (mx_send m) (delete id (mx_access m))
    (mx_stop m ∖ {[id]}) (mx_done m).

(** [WebSocketMux::access], [send], [is_empty]. *)
Definition mux_access (m : WebSocketMux) (id : ClientId) : option Access := mx_access m !! id.
Definition mux_send (m : WebSocketMux) (w : WebSocketMessage) : WebSocketMux :=
  mkMux (next_client_id m) (mx_recv m) ((λ l, l ++ [w]) <$> mx_send m) (mx_access m) (mx_stop m) (mx_done m).
Definition mux_is_empty (m : WebSocketMux) : bool := bool_decide (mx_recv m = ∅).

(** What its tasks and sockets do: a writer ends (its socket failed, it lagged,
    or its token was cancelled), a socket closes, a closed socket's stream ends. *)
Inductive MuxTurn := WriterEnds (id : ClientId) | SocketCloses (id : ClientId) | StreamEnds (id : ClientId).

(** The loop of [poll_next] that reaps dead clients. *)
Definition mux_reap (m : WebSocketMux) : WebSocketMux :=
  mkMux (next_client_id m) (mx_recv m ∖ mx_done m) (mx_send m)
    (filter (λ x, x.1 ∉ mx_done m) (mx_access m)) (mx_stop m ∖ mx_done m) ∅.

(** The rest of it, one result of [StreamMap] at a time, and the writers. *)
Definition mux_turn (m : WebSocketMux) (t : MuxTurn) : WebSocketMux :=
  match t with
  | WriterEnds id =>
    mkMux (next_client_id m) (mx_recv m) (delete id (mx_send m)) (mx_access m) (mx_stop m)
      (if bool_decide (is_Some (mx_send m !! id)) then {[id]} ∪ mx_done m else mx_done m)
  | SocketCloses id =>
    mkMux (next_client_id m) (mx_recv m) (mx_send m) (mx_access m) (mx_stop m ∖ {[id]}) (mx_done m)
  | StreamEnds id =>
    mkMux (next_client_id m) (mx_recv m ∖ {[id]}) (mx_send m) (mx_access m) (mx_stop m) (mx_done m)
  end.
