(* ===== verification/Job.v ===== *)
(** * Running jobs ([server/src/job.rs])

    The task that looks after one job: it records and hashes output, relays it
    to clients, streams it to a consumer, kills the job when its stop token is
    cancelled, notices its death, and drains what is left.  Each arm of its
    [select!] is a turn; so are the steps of the tasks it shares state with.  A
    turn that is not ready leads nowhere.  Output files keep their position;
    timers are deadlines. *)
From S2P Require Import Prelude External Hash Codephrases Jobs Manager Output Download JobIo.
Open Scope N_scope.

Definition INTERACTIVE_JOB_BUFFER_SIZE : N := 65536.
Definition STREAMING_LINGER : N := secs 600.
Definition STREAMING_DRAIN_LIMIT : N := secs 60.
Definition KILL_GRACE : N := secs 5.
Definition KILL_ATTEMPTS : nat := 3.

Inductive Signal := SIGTERM | SIGKILL.

(** [std::process::ExitStatus], by its [code] and [signal]. *)
Record ExitStatus := mkExitStatus { exit_code : option Z; exit_signal : option Z }.

(** [process_exit]. *)
Definition process_exit (s : ExitStatus) : result Z ProcessError :=
  match exit_code s, exit_signal s with
  | Some code, _ => Ok code
  | None, Some signal => Err (PKilled signal)
  | None, None => Err PUnknown
  end.

Section job.
Context `{!Sha3}.
(** Decoding control messages ([serde_json]), and encoding them. *)
Variables (from_json : string → result InteractiveJobControl string)
  (to_json : InteractiveJobControl → result string string).

(** ** State *)

(** An output file with its position, and its hasher. *)
Record Sink := mkSink { sk_file : list byte; sk_pos : nat; sk_hasher : Hasher }.
Definition sink_new : Sink := mkSink [] 0 hasher_new.

(** [write_all], which stops after [k] bytes when it fails, and [Hasher::update]. *)
Definition sink_write (s : Sink) (bytes : list byte) (failed : option nat) : Sink :=
  let written := match failed with None => bytes | Some k => take k bytes end in
  mkSink (write_at (sk_file s) (sk_pos s) written) (sk_pos s + length written)
    (update (sk_hasher s) bytes).
Definition sink_hash (s : Sink) (bytes : list byte) : Sink :=
  mkSink (sk_file s) (sk_pos s) (update (sk_hasher s) bytes).
Definition sink_seek (s : Sink) (pos : nat) : Sink := mkSink (sk_file s) pos (sk_hasher s).

(** What is recorded, and the first limit exceeded. *)
Record Recorder := mkRecorder {
  rc_io : JobIo; rc_stdout : Sink; rc_stderr : Sink; rc_fatal : option ProcessError;
}.

(** The stop token, and the signals sent, with their times. *)
Record Killer := mkKiller {
  kl_stop : bool; kl_killed : bool; kl_kills : nat; kl_timeout : N; kl_signals : list (N * Signal);
}.

(** The consumer task [stream_output]: waiting for its socket, for output, for
    a send to end; or gone, after closing the stream properly or not. *)
Inductive Consumer :=
| CWaiting
| CReceiving
| CSending (bytes : list byte)
| CGone (clean : bool).

Definition is_gone (c : Consumer) : bool := match c with CGone _ => true | _ => false end.
Definition is_read_write (a : Access) : bool := match a with ReadWrite => true | ReadOnly => false end.
Definition is_read_only (a : option Access) : bool := match a with Some ReadOnly => true | _ => false end.

(** Streaming: the chunk read last, whether the consumer's socket was sent, the
    end of the output, the deadlines, the channels of capacity one, the
    consumer and what it has delivered. *)
Record Streaming := mkStreaming {
  sm_pending : option (list byte); sm_attached : bool; sm_eof : bool;
  sm_linger : N; sm_drain_limit : N; sm_attach_deadline : N;
  sm_socket : bool; sm_output : option (list byte);
  sm_consumer : Consumer; sm_delivered : list (list byte);
}.

(** The loop; reaping the process, since when and after a last kill or not; and
    what [job] returns. *)
Inductive Phase :=
| Looping
| Reaping (since : N) (escalated : bool)
| Finished (res : result Z ProcessError) (output : JobOutputState).

Record Job := mkJob {
  j_mode : JobMode; j_max_fsize : N; j_clock : N;
  j_recorder : Recorder; j_killer : Killer; j_streaming : Streaming;
  j_clients : WebSocketMux; j_dead : bool; j_drain_timeout : N; j_phase : Phase;
}.

Definition with_recorder (j : Job) (r : Recorder) : Job :=
  mkJob (j_mode j) (j_max_fsize j) (j_clock j) r (j_killer j) (j_streaming j) (j_clients j) (j_dead j) (j_drain_timeout j) (j_phase j).
Definition with_killer (j : Job) (k : Killer) : Job :=
  mkJob (j_mode j) (j_max_fsize j) (j_clock j) (j_recorder j) k (j_streaming j) (j_clients j) (j_dead j) (j_drain_timeout j) (j_phase j).
Definition with_streaming (j : Job) (s : Streaming) : Job :=
  mkJob (j_mode j) (j_max_fsize j) (j_clock j) (j_recorder j) (j_killer j) s (j_clients j) (j_dead j) (j_drain_timeout j) (j_phase j).
Definition with_clients (j : Job) (m : WebSocketMux) : Job :=
  mkJob (j_mode j) (j_max_fsize j) (j_clock j) (j_recorder j) (j_killer j) (j_streaming j) m (j_dead j) (j_drain_timeout j) (j_phase j).
Definition with_dead (j : Job) (dead : bool) (drain_timeout : N) : Job :=
  mkJob (j_mode j) (j_max_fsize j) (j_clock j) (j_recorder j) (j_killer j) (j_streaming j) (j_clients j) dead drain_timeout (j_phase j).
Definition with_phase (j : Job) (p : Phase) : Job :=
  mkJob (j_mode j) (j_max_fsize j) (j_clock j) (j_recorder j) (j_killer j) (j_streaming j) (j_clients j) (j_dead j) (j_drain_timeout j) p.
Definition at_time (j : Job) (now : N) : Job :=
  mkJob (j_mode j) (j_max_fsize j) now (j_recorder j) (j_killer j) (j_streaming j) (j_clients j) (j_dead j) (j_drain_timeout j) (j_phase j).

Definition with_io (j : Job) (io : JobIo) : Job :=
  with_recorder j (mkRecorder io (rc_stdout (j_recorder j)) (rc_stderr (j_recorder j)) (rc_fatal (j_recorder j))).
Definition cancel (k : Killer) : Killer :=
  mkKiller true (kl_killed k) (kl_kills k) (kl_timeout k) (kl_signals k).
Definition stop_if (b : bool) (j : Job) : Job := if b then with_killer j (cancel (j_killer j)) else j.
Definition streaming (j : Job) : bool := bool_decide (j_mode j = StreamOutput).

(** [Job::start], and [job] up to its loop: every timer but the attachment
    deadline is set to elapse at once. *)
Definition job_begin (mode : JobMode) (max_fsize now : N) (stopped : bool) : Job :=
  mkJob mode max_fsize now
    (mkRecorder (io_open mode) sink_new sink_new None)
    (mkKiller stopped false 0 now [])
    (mkStreaming None false false now now (now + STREAMING_LINGER) false None CWaiting [])
    mux_new false now Looping.

(** [kill_job]: the signal is sent; whether it arrives is the kernel's. *)
Definition signal_sent (k : Killer) (now : N) (s : Signal) : list (N * Signal) := kl_signals k ++ [(now, s)].

(** [break]: the last chunk is offered to the consumer. *)
Definition break (j : Job) : Job :=
  let s := j_streaming j in
  let output :=
    match sm_pending s, sm_output s, sm_consumer s with
    | Some buf, None, (CWaiting | CReceiving | CSending _) => Some buf
    | _, o, _ => o
    end in
  with_phase
    (with_streaming j
       (mkStreaming None (sm_attached s) (sm_eof s) (sm_linger s) (sm_drain_limit s)
          (sm_attach_deadline s) (sm_socket s) output (sm_consumer s) (sm_delivered s)))
    (Reaping (j_clock j) false).

(** ** Output *)

Definition with_eof (s : Streaming) (linger : N) : Streaming :=
  mkStreaming (sm_pending s) (sm_attached s) true linger (sm_drain_limit s) (sm_attach_deadline s)
    (sm_socket s) (sm_output s) (sm_consumer s) (sm_delivered s).
Definition with_pending (s : Streaming) (p : option (list byte)) : Streaming :=
  mkStreaming p (sm_attached s) (sm_eof s) (sm_linger s) (sm_drain_limit s) (sm_attach_deadline s)
    (sm_socket s) (sm_output s) (sm_consumer s) (sm_delivered s).

(** A chunk of a recorded stream: hashed, written, and checked against the
    limit; whether the job must stop. *)
Definition record_chunk (max_fsize : N) (r : Recorder) (s : JobOutputStream) (buf : list byte)
    (failed : option nat) : Recorder * bool :=
  let sink := sink_write (match s with Stdout => rc_stdout r | Stderr => rc_stderr r end) buf failed in
  let over := max_fsize <? count (sk_hasher sink) in
  (mkRecorder (if over then stop_recording (rc_io r) s else rc_io r)
     (match s with Stdout => sink | Stderr => rc_stdout r end)
     (match s with Stdout => rc_stderr r | Stderr => sink end)
     (if over then Some (default (POutputLimitExceeded s max_fsize) (rc_fatal r)) else rc_fatal r),
   bool_decide (is_Some failed) || over).

(** [Message::Data(buf)] to every client. *)
Definition relay_data (j : Job) (buf : list byte) : Job :=
  if mux_is_empty (j_clients j) then j else with_clients j (mux_send (j_clients j) (WsBinary buf)).

(** The [read_output] arm. *)
Definition on_output (j : Job) (read : result (list byte * JobOutputStream) IoError)
    (failed : option nat) : Job :=
  let now := j_clock j in
  match read with
  | Ok ([], _) =>
    if streaming j then with_streaming j (with_eof (j_streaming j) (now + STREAMING_LINGER))
    else break j
  | Ok (buf, s) =>
    let j := if j_dead j && streaming j then with_dead j true (now + io_drain_timeout) else j in
    if bool_decide (s = Stdout) && streaming j then
      let r := j_recorder j in
      with_streaming
        (with_recorder j (mkRecorder (rc_io r) (sink_hash (rc_stdout r) buf) (rc_stderr r) (rc_fatal r)))
        (with_pending (j_streaming j) (Some buf))
    else
      let '(r, stop) := record_chunk (j_max_fsize j) (j_recorder j) s buf failed in
      relay_data (stop_if stop (with_recorder j r)) buf
  | Err _ =>
    if streaming j then with_streaming j (with_eof (j_streaming j) (now + STREAMING_LINGER))
    else break (with_clients j (mux_send (j_clients j) WsClose))
  end.

(** The [reserve] arm: room for the chunk, or a consumer that is gone. *)
Definition on_permit (j : Job) : option Job :=
  let s := j_streaming j in
  match sm_pending s, sm_consumer s, sm_output s with
  | None, _, _ => None
  | Some _, CGone _, _ => Some (with_streaming j (with_pending s None))
  | Some _, _, Some _ => None
  | Some buf, _, None =>
    let now := j_clock j in
    let j := if j_dead j then with_dead j true (now + io_drain_timeout) else j in
    Some (with_streaming j
      (mkStreaming None (sm_attached s) (sm_eof s)
         (if sm_eof s then now + STREAMING_LINGER else sm_linger s)
         (sm_drain_limit s) (sm_attach_deadline s) (sm_socket s) (Some buf) (sm_consumer s)
         (sm_delivered s)))
  end.

(** ** Clients *)

(** [playback_buffer], when its file operations succeed. *)
Definition playback_buffer (file : list byte) : option (list byte) :=
  match file with
  | [] => None
  | _ => Some (drop (length file - N.to_nat INTERACTIVE_JOB_BUFFER_SIZE) file)
  end.

Definition with_stdout_pos (j : Job) (pos : nat) : Job :=
  let r := j_recorder j in
  with_recorder j (mkRecorder (rc_io r) (sink_seek (rc_stdout r) pos) (rc_stderr r) (rc_fatal r)).

(** The [rx_client] arm.  [window] is the size ioctl; [playback] whether the
    playback's file operations succeed, and if not whether the position could
    be restored, or where it was left. *)
Definition on_client (j : Job) (a : Access) (window : result WindowSize string)
    (playback : result () (option nat)) : Job :=
  if streaming j then
    let s := j_streaming j in
    if negb (is_read_write a) || sm_attached s || sm_socket s || is_gone (sm_consumer s) then j
    else with_streaming j
      (mkStreaming (sm_pending s) true (sm_eof s) (sm_linger s) (sm_drain_limit s)
         (sm_attach_deadline s) true (sm_output s) (sm_consumer s) (sm_delivered s))
  else
    let file := sk_file (rc_stdout (j_recorder j)) in
    let size :=
      match get_window_size (rc_io (j_recorder j)) window with
      | Ok size => match ws_of_message to_json (MControl (WindowChange size)) with Ok m => [m] | Err _ => [] end
      | Err _ => []
      end in
    let '(history, j) :=
      match playback with
      | Ok _ => (match playback_buffer file with Some b => [WsBinary b] | None => [] end,
                 match file with [] => j | _ => with_stdout_pos j (length file) end)
      | Err None => ([], with_stdout_pos j (length file))
      | Err (Some pos) => ([], stop_if true (with_stdout_pos j pos))
      end in
    with_clients j (mux_add (j_clients j) a (size ++ history)).

(** The [clients.next()] arm.  A resize that fails is only logged. *)
Definition on_message (j : Job) (id : ClientId) (m : result WebSocketMessage string) : Job :=
  let gone := with_clients j (mux_remove (j_clients j) id) in
  match m with
  | Err _ => gone
  | Ok m =>
    match message_of_ws from_json m with
    | Err _ =>  gone
    | Ok m =>
      if is_read_only (mux_access (j_clients j) id) then j
      else
        match m with
        | MControl (WindowChange size) =>
          match ws_of_message to_json (MControl (WindowChange size)) with
          | Ok w => with_clients j (mux_send (j_clients j) w)
          | Err _ => j
          end
        | MData bytes => with_io j (write_input (rc_io (j_recorder j)) bytes)
        | MIgnore => j
        | MClose => gone
        end
    end
  end.

(** ** Turns *)

(** The steps of [stream_output]: the socket arrives, a chunk arrives, a send
    ends, the channel ends. *)
Inductive ConsumerTurn := CtSocket | CtChunk | CtSent (delivered : bool) | CtEnd.

Inductive Turn :=
(** The arms of the [select!]. *)
| TRead (s : JobOutputStream) (r : result (list byte) IoError) (failed : option nat)
| TPermit
| TClient (a : Access) (window : result WindowSize string) (playback : result () (option nat))
| TMessage (id : ClientId) (m : result WebSocketMessage string)
| TStopped
| TKillTimeout
| TExit
| TDrainLimit
| TAttachDeadline
| TLinger
| TDrainTimeout
(** Other tasks: cancelling the token, the consumer, the clients, the terminal. *)
| TCancel
| TConsumer (c : ConsumerTurn)
| TMux (m : MuxTurn)
| TReap
| TRelay (written : option bool)
(** The last [select!]: the process is reaped, the token is cancelled, the
    grace period ends. *)
| TReaped (status : result ExitStatus string)
| TLastStop
| TLastGrace.

Definition guard_job (b : bool) (j : Job) : option Job := if b then Some j else None.

Definition consumer_turn (j : Job) (t : ConsumerTurn) : option Job :=
  let s := j_streaming j in
  let next socket output consumer delivered :=
    with_streaming j
      (mkStreaming (sm_pending s) (sm_attached s) (sm_eof s) (sm_linger s) (sm_drain_limit s)
         (sm_attach_deadline s) socket output consumer delivered) in
  let open := match j_phase j with Finished _ _ => false | _ => true end in
  match t, sm_consumer s with
  | CtSocket, CWaiting =>
    if sm_socket s then Some (next false (sm_output s) CReceiving (sm_delivered s)) else None
  | CtChunk, CReceiving =>
    match sm_output s with
    | Some buf => Some (next (sm_socket s) None (CSending buf) (sm_delivered s))
    | None => None
    end
  | CtSent true, CSending buf => Some (next (sm_socket s) (sm_output s) CReceiving (sm_delivered s ++ [buf]))
  | CtSent false, CSending _ =>
    Some (stop_if true (next (sm_socket s) (sm_output s) (CGone false) (sm_delivered s)))
  | CtEnd, CWaiting =>
    if open || sm_socket s then None else Some (next false (sm_output s) (CGone false) (sm_delivered s))
  | CtEnd, CReceiving =>
    match open, sm_output s with
    | false, None => Some (next (sm_socket s) None (CGone true) (sm_delivered s))
    | _, _ => None
    end
  | _, _ => None
  end.

(** [JobOutputState], from the hashers. *)
Definition output_state (r : Recorder) : JobOutputState :=
  let out := sk_hasher (rc_stdout r) in
  let err := sk_hasher (rc_stderr r) in
  mkJobOutputState (count out) (count err) (finalize out) (finalize err).

(** The end of [job]. *)
Definition finish (j : Job) (status : result ExitStatus string) : Job :=
  with_phase j
    (Finished
       (match rc_fatal (j_recorder j) with
        | Some error => Err error
        | None =>
          match status with
          | Ok status => process_exit status
          | Err error => Err (PIo "reaping job process" error)
          end
        end)
       (output_state (j_recorder j))).

(** An arm of the loop's [select!], its guard included. *)
Definition loop_turn (j : Job) (t : Turn) : option Job :=
  let s := j_streaming j in
  let k := j_killer j in
  let now := j_clock j in
  let killed := mkKiller (kl_stop k) true (kl_kills k) (now + KILL_GRACE) (signal_sent k now SIGTERM) in
  match t with
  | TRead src r failed =>
    if bool_decide (sm_pending s = None) && negb (sm_eof s) && readable (rc_io (j_recorder j)) src then
      let '(io, read) := read_output (rc_io (j_recorder j)) src r in
      let j := with_io j io in
      Some match read with Some read => on_output j read failed | None => j end
    else None
  | TPermit => on_permit j
  | TClient a window playback =>
    if negb (j_dead j) || streaming j then Some (on_client j a window playback) else None
  | TMessage id m =>
    guard_job (negb (j_dead j) && bool_decide (id ∈ mx_recv (j_clients j))) (on_message j id m)
  | TStopped => guard_job (kl_stop k && negb (kl_killed k)) (with_killer j killed)
  | TKillTimeout =>
    guard_job (kl_killed k && (kl_kills k <? KILL_ATTEMPTS)%nat && (kl_timeout k <=? now))
      (with_killer j
         (mkKiller (kl_stop k) true (S (kl_kills k)) (now + KILL_GRACE) (signal_sent k now SIGKILL)))
  | TExit =>
    guard_job (negb (j_dead j))
      (with_dead
         (if streaming j then
            with_streaming j
              (mkStreaming (sm_pending s) (sm_attached s) (sm_eof s) (sm_linger s)
                 (now + STREAMING_DRAIN_LIMIT) (sm_attach_deadline s) (sm_socket s) (sm_output s)
                 (sm_consumer s) (sm_delivered s))
          else j)
         true (now + io_drain_timeout))
  | TDrainLimit =>
    guard_job (streaming j && j_dead j && negb (sm_eof s) && (sm_drain_limit s <=? now)) (break j)
  | TAttachDeadline =>
    guard_job (streaming j && negb (sm_attached s) && negb (sm_eof s) && (sm_attach_deadline s <=? now))
      (break (stop_if true j))
  | TLinger => guard_job (sm_eof s && (sm_linger s <=? now)) (break (stop_if true j))
  | TDrainTimeout =>
    guard_job (j_dead j && negb (sm_eof s) && (j_drain_timeout j <=? now)) (break j)
  | _ => None
  end.

(** The top of the loop. *)
Definition loop_top (j : Job) : Job :=
  match j_phase j with
  | Looping =>
    if sm_eof (j_streaming j) && sm_attached (j_streaming j)
       && bool_decide (sm_pending (j_streaming j) = None)
    then break j else j
  | _ => j
  end.

(** An arm of the last [select!]; after a kill only the reaping is left. *)
Definition reap_turn (j : Job) (since : N) (escalated : bool) (t : Turn) : option Job :=
  let k := j_killer j in
  let now := j_clock j in
  let last :=
    with_phase
      (with_killer j (mkKiller (kl_stop k) (kl_killed k) (kl_kills k) (kl_timeout k) (signal_sent k now SIGKILL)))
      (Reaping since true) in
  match t with
  | TReaped status => Some (finish j status)
  | TLastStop => guard_job (negb escalated && kl_stop k && negb (kl_killed k)) last
  | TLastGrace =>
    guard_job (negb escalated && kl_killed k && negb (j_dead j) && (since + KILL_GRACE <=? now)) last
  | _ => None
  end.

(** One turn, at the time [now]; time does not go back. *)
Definition turn (j : Job) (now : N) (t : Turn) : option Job :=
  if now <? j_clock j then None
  else
    let j := at_time j now in
    match t with
    | TCancel => Some (with_killer j (cancel (j_killer j)))
    | TConsumer c => consumer_turn j c
    | TMux m => Some (with_clients j (mux_turn (j_clients j) m))
    | TReap => Some (with_clients j (mux_reap (j_clients j)))
    | TRelay (Some written) => Some (with_io j (relay_write (rc_io (j_recorder j)) written))
    | TRelay None =>
      guard_job (kl_stop (j_killer j)) (with_io j (relay_stop (rc_io (j_recorder j))))
    | _ =>
      match j_phase j with
      | Looping => loop_top <$> loop_turn j t
      | Reaping since escalated => reap_turn j since escalated t
      | Finished _ _ => None
      end
    end.

Fixpoint run_job (j : Job) (ts : list (N * Turn)) : option Job :=
  match ts with
  | [] => Some j
  | (now, t) :: ts => j ← turn j now t; run_job j ts
  end.
End job.
