(* ===== verification/JobFacts.v ===== *)
(** * What a running job promises

    Over any sequence of turns of [Job.v]: signals are sent in order and with
    their grace periods; what is recorded is what was produced, up to the limit,
    and hashes as announced; only clients with write access reach the terminal;
    a streamed output is delivered without gaps; and a job whose process has
    died ends within fixed bounds. *)
From S2P Require Import Prelude External Hash Codephrases Jobs Manager Output Download JobIo Job.
Open Scope N_scope.

Section facts.
Context {Isha : Sha3}.
Variables (from_json : string → result InteractiveJobControl string)
  (to_json : InteractiveJobControl → result string string).

Local Abbreviation turn := (turn from_json to_json).
Local Abbreviation run_job := (run_job from_json to_json).

(** ** Runs *)

Lemma run_job_snoc j ts now t j' :
  run_job j (ts ++ [(now, t)]) = Some j' ↔
  ∃ j1, run_job j ts = Some j1 ∧ turn j1 now t = Some j'.
Proof.
  revert j. induction ts as [|[now1 t1] ts IH]; intros j; cbn.
  - split.
    + destruct (turn j now t) eqn:E; cbn; [|done]. intros [= <-]. eauto.
    + intros (j1&[= <-]&->). done.
  - destruct (turn j now1 t1) as [j1|]; cbn; [apply IH|].
    split; [done|by intros (?&?&?)].
Qed.

(** An invariant over runs: it holds of the trace so far and the state. *)
Lemma run_job_ind (P : list (N * Turn) → Job → Prop) j0 :
  P [] j0 →
  (∀ ts j now t j', run_job j0 ts = Some j → P ts j → turn j now t = Some j' → P (ts ++ [(now, t)]) j') →
  ∀ ts j, run_job j0 ts = Some j → P ts j.
Proof.
  intros H0 Hs ts. induction ts as [|[now t] ts IH] using rev_ind; intros j Hr.
  - by injection Hr as <-.
  - apply run_job_snoc in Hr as (j1&Hr&Ht). eauto.
Qed.

(** ** The parts of a turn

    What each operation leaves alone, and what it may do to the stop token and
    the phase. *)

Definition frame (j : Job) := (j_mode j, j_max_fsize j, j_clock j, j_dead j).

Lemma frame_eq j j' : frame j' = frame j →
  j_mode j' = j_mode j ∧ j_max_fsize j' = j_max_fsize j ∧ j_clock j' = j_clock j ∧ j_dead j' = j_dead j ∧
  streaming j' = streaming j.
Proof. unfold frame, streaming. intros [= -> -> -> ->]. by split_and!. Qed.

(** The token may be cancelled and the loop may end; nothing else changes
    outside the recorder, the streaming state, the clients and a streaming job's
    drain timer. *)
Definition quiet (j j' : Job) : Prop :=
  frame j' = frame j ∧
  (j_killer j' = j_killer j ∨ j_killer j' = cancel (j_killer j)) ∧
  (j_phase j' = j_phase j ∨ j_phase j = Looping ∧ j_phase j' = Reaping (j_clock j) false) ∧
  (streaming j = false → sm_pending (j_streaming j) = None →
   j_drain_timeout j' = j_drain_timeout j ∧ sm_pending (j_streaming j') = None) ∧
  (j_drain_timeout j' = j_drain_timeout j ∨ j_drain_timeout j' = j_clock j + io_drain_timeout).

Ltac op := repeat (case_match; cbn in *; simplify_eq; try done).
Ltac quietly := split_and!; unfold frame; cbn; auto; try (intros; congruence).

Lemma quiet_refl j : quiet j j.
Proof. quietly. Qed.

Lemma quiet_break j : j_phase j = Looping → quiet j (break j).
Proof. intros Hp. quietly. Qed.

Lemma quiet_stop b j j' : quiet j (stop_if false j') → quiet j (stop_if b j').
Proof.
  destruct b; [|done]. intros (H1&H2&H3&H4&H5). split_and!; [exact H1| |exact H3|exact H4|exact H5].
  right. cbn in *. by destruct H2 as [->| ->].
Qed.

Lemma quiet_relay j j' buf : quiet j j' → quiet j (relay_data j' buf).
Proof. unfold relay_data. by case_match. Qed.

Lemma quiet_output j r f : j_phase j = Looping → quiet j (on_output j r f).
Proof.
  intros Hp. unfold on_output. destruct r as [[[|b buf] src]|e].
  - case_match; [quietly|by apply quiet_break].
  - set (j1 := if j_dead j && streaming j then _ else j).
    assert (H1 : quiet j j1 ∧ j_streaming j1 = j_streaming j ∧ j_recorder j1 = j_recorder j).
    { subst j1. destruct (j_dead j) eqn:Ed, (streaming j) eqn:Es; cbn; split_and!; try done; try apply quiet_refl.
      split_and!; cbn; [unfold frame; cbn; by rewrite Ed|auto..|congruence|auto]. }
    clearbody j1. destruct H1 as (H1&_&_). destruct (bool_decide (src = Stdout) && streaming j1) eqn:Ess.
    + destruct H1 as (Ha&Hb&Hc&_&He). split_and!; [exact Ha|exact Hb|exact Hc| |exact He].
      apply andb_prop in Ess as [_ Ess]. apply frame_eq in Ha as (_&_&_&_&Ha). congruence.
    + destruct (record_chunk _ _ _ _ _) as [rc stop]. apply quiet_relay, quiet_stop.
      destruct H1 as (Ha&Hb&Hc&Hd&He). by split_and!.
  - case_match; [quietly|]. split_and!; cbn; auto.
Qed.

Lemma quiet_client j a w p : quiet j (on_client to_json j a w p).
Proof.
  unfold on_client. destruct (streaming j); [case_match; quietly|]. cbv zeta.
  destruct p as [|[pos|]].
  - destruct (sk_file _); quietly.
  - quietly.
  - quietly.
Qed.

Lemma quiet_message j id m : quiet j (on_message from_json to_json j id m).
Proof. unfold on_message. op; quietly. Qed.

Lemma quiet_permit j j' : on_permit j = Some j' → quiet j j'.
Proof.
  unfold on_permit. intros H. op; quietly; congruence.
Qed.

Lemma quiet_consumer j t j' : consumer_turn j t = Some j' → quiet j j'.
Proof. unfold consumer_turn. intros H. op; quietly. Qed.

Lemma quiet_loop_top j : quiet j (loop_top j).
Proof. unfold loop_top. repeat case_match; apply quiet_refl || by apply quiet_break. Qed.

Lemma quiet_trans j1 j2 j3 : quiet j1 j2 → quiet j2 j3 → quiet j1 j3.
Proof.
  intros (Ha1&Hb1&Hc1&Hd1&He1) (Ha2&Hb2&Hc2&Hd2&He2). unfold quiet.
  destruct (frame_eq _ _ Ha1) as (_&_&Et&_&Es).
  split_and!.
  - congruence.
  - destruct Hb2 as [->| ->], Hb1 as [->| ->]; auto.
  - destruct Hc2 as [->|[Hp ->]]; [done|]. right. rewrite Et.
    split; [|done]. by destruct Hc1 as [<-|[? Hr]]; [|congruence].
  - intros H1 H2. destruct (Hd1 H1 H2) as [E1 H3]. rewrite Es in Hd2.
    destruct (Hd2 H1 H3) as [E2 H4]. split; congruence.
  - destruct He2 as [->| ->]; [done|]. right. by rewrite Et.
Qed.

(** The process is noticed dead. *)
Definition exited (j : Job) : Job :=
  with_dead
    (if streaming j then
       let s := j_streaming j in
       with_streaming j
         (mkStreaming (sm_pending s) (sm_attached s) (sm_eof s) (sm_linger s)
            (j_clock j + STREAMING_DRAIN_LIMIT) (sm_attach_deadline s) (sm_socket s) (sm_output s)
            (sm_consumer s) (sm_delivered s))
     else j)
    true (j_clock j + io_drain_timeout).

(** A signal is sent. *)
Definition signalled (j : Job) (killed : bool) (kills : nat) (timeout : N) (s : Signal) : Job :=
  with_killer j
    (mkKiller (kl_stop (j_killer j)) killed kills timeout (signal_sent (j_killer j) (j_clock j) s)).

(** What a turn does, up to a quiet change. *)
Inductive noted (j : Job) : Turn → Job → Prop :=
| NQuiet t : noted j t j
| NTerm : j_phase j = Looping → kl_stop (j_killer j) = true → kl_killed (j_killer j) = false →
    noted j TStopped (signalled j true (kl_kills (j_killer j)) (j_clock j + KILL_GRACE) SIGTERM)
| NKill : j_phase j = Looping → kl_killed (j_killer j) = true → (kl_kills (j_killer j) < KILL_ATTEMPTS)%nat →
    kl_timeout (j_killer j) <= j_clock j →
    noted j TKillTimeout (signalled j true (S (kl_kills (j_killer j))) (j_clock j + KILL_GRACE) SIGKILL)
| NExit : j_phase j = Looping → j_dead j = false → noted j TExit (exited j)
| NLast t since : j_phase j = Reaping since false →
    kl_stop (j_killer j) = true ∧ kl_killed (j_killer j) = false ∨
    kl_killed (j_killer j) = true ∧ since + KILL_GRACE <= j_clock j →
    noted j t
      (with_phase (signalled j (kl_killed (j_killer j)) (kl_kills (j_killer j)) (kl_timeout (j_killer j)) SIGKILL)
         (Reaping since true))
| NFinish since escalated status : j_phase j = Reaping since escalated →
    noted j (TReaped status) (finish j status).

Lemma loop_turn_noted j t j' :
  j_phase j = Looping → loop_turn from_json to_json j t = Some j' →
  ∃ m, noted j t m ∧ quiet m j'.
Proof.
  intros Hp H. destruct t; cbn [loop_turn] in H; unfold guard_job in H; try discriminate H.
  - case_match; [|done]. destruct (read_output _ _ _) as [io read]. injection H as <-.
    exists j. split; [constructor|]. eapply (quiet_trans _ (with_io j io)); [quietly|].
    destruct read; [by apply quiet_output|apply quiet_refl].
  - exists j. split; [constructor|]. by apply quiet_permit.
  - case_match; [|done]. injection H as <-. exists j. split; [constructor|]. apply quiet_client.
  - case_match; [|done]. injection H as <-. exists j. split; [constructor|]. apply quiet_message.
  - destruct (kl_stop _ && _) eqn:E; [|done]. injection H as <-. apply andb_prop in E as [E1 E2%negb_true_iff].
    eexists. split; [by apply NTerm|]. apply quiet_refl.
  - destruct (_ && _ && _) eqn:E in H; [|done]. injection H as <-.
    apply andb_prop in E as [[E1 E2%Nat.ltb_lt]%andb_prop E3%N.leb_le].
    eexists. split; [by apply NKill|]. apply quiet_refl.
  - destruct (negb (j_dead j)) eqn:E; [|done]. injection H as <-. apply negb_true_iff in E.
    exists (exited j). split; [by apply NExit|]. apply quiet_refl.
  - case_match; [|done]. injection H as <-. exists j. split; [constructor|]. by apply quiet_break.
  - case_match; [|done]. injection H as <-. exists j. split; [constructor|].
    eapply quiet_trans; [|by apply quiet_break]. quietly.
  - case_match; [|done]. injection H as <-. exists j. split; [constructor|].
    eapply quiet_trans; [|by apply quiet_break]. quietly.
  - case_match; [|done]. injection H as <-. exists j. split; [constructor|]. by apply quiet_break.
Qed.

Lemma reap_turn_noted j since escalated t j' :
  j_phase j = Reaping since escalated → reap_turn j since escalated t = Some j' → noted j t j'.
Proof.
  intros Hp H. destruct t; cbn [reap_turn] in H; unfold guard_job in H; try discriminate H.
  - injection H as <-. by eapply NFinish.
  - destruct (_ && _ && _) eqn:E in H; [|done]. injection H as <-.
    apply andb_prop in E as [[E1%negb_true_iff E2]%andb_prop E3%negb_true_iff]. subst.
    apply NLast; auto.
  - destruct (_ && _ && _ && _) eqn:E in H; [|done]. injection H as <-.
    apply andb_prop in E as [[[E1%negb_true_iff E2]%andb_prop E3]%andb_prop E4%N.leb_le]. subst.
    apply NLast; auto.
Qed.

Lemma turn_noted j now t j' :
  turn j now t = Some j' → j_clock j <= now ∧ ∃ m, noted (at_time j now) t m ∧ quiet m j'.
Proof.
  unfold Job.turn. destruct (N.ltb_spec now (j_clock j)) as [|Hc]; [done|]. intros H. split; [done|].
  set (k := at_time j now) in *. clearbody k. clear Hc.
  assert (Hsel : (match j_phase k with
                  | Looping => loop_top <$> loop_turn from_json to_json k t
                  | Reaping since escalated => reap_turn k since escalated t
                  | Finished _ _ => None
                  end) = Some j' → ∃ m, noted k t m ∧ quiet m j').
  { clear H. destruct (j_phase k) as [|since e|] eqn:Ep; [| |done].
    - destruct (loop_turn _ _ k t) as [j1|] eqn:E; [|done]. intros [= <-].
      destruct (loop_turn_noted _ _ _ Ep E) as (m&Hn&Hq). exists m. split; [done|].
      eapply quiet_trans; [done|apply quiet_loop_top].
    - intros E%reap_turn_noted; [|done]. exists j'. split; [done|apply quiet_refl]. }
  destruct t as [| | | | | | | | | | | |c|m| |[w|]| | |]; try (by apply Hsel); clear Hsel; unfold guard_job in H.
  - injection H as <-. eexists. split; [constructor|]. quietly.
  - eexists. split; [constructor|]. by eapply quiet_consumer.
  - injection H as <-. eexists. split; [constructor|]. quietly.
  - injection H as <-. eexists. split; [constructor|]. quietly.
  - injection H as <-. eexists. split; [constructor|]. quietly.
  - case_match; [|done]. injection H as <-. eexists. split; [constructor|]. quietly.
Qed.

(** ** Signals *)

Definition spaced : list N → Prop := StronglySorted (λ t t', t + KILL_GRACE <= t').

(** One [SIGTERM], then only [SIGKILL]s. *)
Definition burst (ts : list N) : list (N * Signal) :=
  match ts with [] => [] | t :: ts => (t, SIGTERM) :: map (λ t, (t, SIGKILL)) ts end.

Lemma burst_snoc ts t : ts ≠ [] → burst (ts ++ [t]) = burst ts ++ [(t, SIGKILL)].
Proof. destruct ts; [done|]. intros _. cbn. by rewrite map_app. Qed.

Lemma spaced_snoc ts t : spaced ts → Forall (λ t', t' + KILL_GRACE <= t) ts → spaced (ts ++ [t]).
Proof.
  intros Hs Hf. apply strongly_sorted_app. split_and!; [done|by repeat constructor|].
  intros x y Hx ->%list_elem_of_singleton. by eapply Forall_forall in Hf.
Qed.

(** The loop's own signals, at the times [ts]. *)
Definition loop_signals (k : Killer) (clock : N) (ts : list N) : Prop :=
  kl_signals k = burst ts ∧ (kl_killed k = true ↔ ts ≠ []) ∧
  (length ts <= S (kl_kills k))%nat ∧ (kl_kills k <= KILL_ATTEMPTS)%nat ∧ spaced ts ∧
  Forall (λ t, t + KILL_GRACE <= kl_timeout k) ts ∧ Forall (λ t, t <= clock) ts.

(** The signals of the loop and the last one, while reaping. *)
Definition disciplined (l : list (N * Signal)) (ts last : list N) : Prop :=
  l = burst ts ++ map (λ t, (t, SIGKILL)) last ∧
  (length ts <= 1 + KILL_ATTEMPTS)%nat ∧ (length last <= 1)%nat ∧ spaced (ts ++ last).

Definition signals_inv (j : Job) : Prop :=
  (kl_signals (j_killer j) ≠ [] → kl_stop (j_killer j) = true) ∧
  match j_phase j with
  | Looping => ∃ ts, loop_signals (j_killer j) (j_clock j) ts
  | Reaping since false => since <= j_clock j ∧ ∃ ts, loop_signals (j_killer j) since ts
  | _ => ∃ ts last, disciplined (kl_signals (j_killer j)) ts last
  end.

Lemma loop_disciplined k clock ts : loop_signals k clock ts → disciplined (kl_signals k) ts [].
Proof. intros (->&_&Hl&Hk&Hs&_). unfold disciplined. rewrite !app_nil_r. split_and!; [done|lia|cbn; lia|done]. Qed.

Lemma loop_signals_clock k c c' ts : c <= c' → loop_signals k c ts → loop_signals k c' ts.
Proof.
  intros Hc (H1&H2&H3&H4&H5&H6&H7). split_and!; try done. eapply Forall_impl; [exact H7|]. cbn. lia.
Qed.

Lemma signals_quiet j j' : quiet j j' → signals_inv j → signals_inv j'.
Proof.
  intros (Hf&Hk&Hp&_) [Hs Hi]. apply frame_eq in Hf as (_&_&Hc&_).
  assert (Hsame : kl_signals (j_killer j') = kl_signals (j_killer j)) by (by destruct Hk as [->| ->]).
  assert (Hl : ∀ c ts, loop_signals (j_killer j) c ts → loop_signals (j_killer j') c ts).
  { destruct Hk as [->| ->]; done. }
  split; [rewrite Hsame; destruct Hk as [->| ->]; auto|].
  destruct Hp as [->|[Hp ->]].
  - rewrite Hc, Hsame. destruct (j_phase j) as [|since []|]; [|done| |done].
    + destruct Hi as [ts Hi]. eauto.
    + destruct Hi as (?&ts&Hi). eauto.
  - rewrite Hp in Hi. destruct Hi as [ts Hi]. rewrite Hc. split; [done|]. eauto.
Qed.

Lemma signals_noted j t m : noted j t m → signals_inv j → signals_inv m.
Proof.
  intros Hn [Hs Hi]. destruct Hn as [t|Hp Hstop Hk|Hp Hk Hkills Ht|Hp Hd|t since Hp Hw|since e st Hp];
    unfold signals_inv in *; cbn; rewrite ?Hp in *.
  - done.
  - split; [done|]. destruct Hi as (ts&E&Hts&Hl&Hk3&Hsp&Hf&Hc).
    destruct ts as [|t' ts]; [|by rewrite (proj2 Hts) in Hk].
    exists [j_clock j]. unfold loop_signals. cbn. unfold signal_sent. rewrite E.
    unfold spaced. split_and!; [done|done|lia|exact Hk3|repeat constructor|repeat constructor; lia|repeat constructor; lia].
  - destruct Hi as (ts&E&Hts&Hl&Hk3&Hsp&Hf&Hc). apply Hts in Hk as Hne.
    split; [intros _; apply Hs; rewrite E; by destruct ts|].
    exists (ts ++ [j_clock j]). unfold loop_signals. cbn. unfold signal_sent. rewrite E, burst_snoc by done.
    assert (Hf' : Forall (λ t, t + KILL_GRACE <= j_clock j) ts) by (eapply Forall_impl; [exact Hf|cbn; lia]).
    rewrite length_app; cbn. split_and!; try done.
    + split; [intros _ []%app_nil; done|done].
    + lia.
    + by apply spaced_snoc.
    + apply Forall_app. split; [eapply Forall_impl; [exact Hf'|cbn; lia]|repeat constructor; lia].
    + apply Forall_app. split; [done|repeat constructor; lia].
  - unfold exited. case_match; cbn; auto; rewrite Hp; auto.
  - destruct Hi as (Hsc&ts&E&Hts&Hl&Hk3&Hsp&Hf&Hc). unfold signal_sent. rewrite E in *.
    destruct Hw as [[Hst Hk]|[Hk Hg]].
    + split; [done|]. destruct ts as [|t' ts]; [|by rewrite (proj2 Hts) in Hk].
      exists [], [j_clock j]. split_and!; [done|cbn; lia|done|repeat constructor].
    + apply Hts in Hk as Hne. split; [intros _; apply Hs; by destruct ts|].
      exists ts, [j_clock j]. split_and!; [done|lia|done|].
      apply spaced_snoc; [done|]. eapply Forall_impl; [exact Hc|]. cbn. lia.
  - split; [done|]. destruct e; [done|]. destruct Hi as (_&ts&Hi). exists ts, []. by eapply loop_disciplined.
Qed.

Lemma signals_inv_run mode max_fsize t0 stopped ts j :
  run_job (job_begin mode max_fsize t0 stopped) ts = Some j → signals_inv j.
Proof.
  apply (run_job_ind (λ _, signals_inv)); clear.
  - split; [done|]. exists []. unfold loop_signals. cbn.
    unfold spaced, KILL_ATTEMPTS. split_and!; try done; try lia; constructor.
  - intros _ j now t j' _ Hi Ht. apply turn_noted in Ht as (Hc&m&Hn&Hq).
    eapply signals_quiet, signals_noted; [done..|]. destruct Hi as [H1 H2]. split; [done|].
    cbn. destruct (j_phase j) as [|since []|]; [|done| |done].
    + destruct H2 as [l H2]. exists l. by eapply loop_signals_clock.
    + destruct H2 as (?&l&H2). split; [lia|eauto].
Qed.

(** C16. A job is killed in order.  Signals go out only once its stop token is
    cancelled.  Those of the loop, at [times], are a [SIGTERM] and then at most
    [KILL_ATTEMPTS] [SIGKILL]s; once the loop is left, at most one more [SIGKILL]
    goes out, at [last], while the process is reaped; and every two signals are
    at least [KILL_GRACE] apart.  (A job whose loop is left before it sees the
    stop, as at the end of the output or the attach deadline, gets that last
    [SIGKILL] alone.) *)
Theorem kill_discipline mode max_fsize t0 stopped ts j :
  run_job (job_begin mode max_fsize t0 stopped) ts = Some j →
  let sent := kl_signals (j_killer j) in
  (sent ≠ [] → kl_stop (j_killer j) = true) ∧
  ∃ times last,
    sent = burst times ++ map (λ t, (t, SIGKILL)) last ∧
    (length times <= 1 + KILL_ATTEMPTS)%nat ∧ (length last <= 1)%nat ∧
    spaced (times ++ last) ∧ (j_phase j = Looping → last = []).
Proof.
  intros [Hs Hi]%signals_inv_run. split; [done|].
  destruct (j_phase j) as [|since []|] eqn:Ep.
  - destruct Hi as [l (E&H1&H2&H3)%loop_disciplined]. by exists l, [].
  - destruct Hi as (l&last&E&H1&H2&H3). by exists l, last.
  - destruct Hi as [_ [l (E&H1&H2&H3)%loop_disciplined]]. by exists l, [].
  - destruct Hi as (l&last&E&H1&H2&H3). by exists l, last.
Qed.

(** ** The end of the output *)

(** Nothing is pending at the end of the output; only streaming jobs use the
    streaming state. *)
Definition stream_ok (j : Job) : Prop :=
  (sm_eof (j_streaming j) = true → sm_pending (j_streaming j) = None) ∧
  (streaming j = false → sm_pending (j_streaming j) = None ∧ sm_eof (j_streaming j) = false).

(** The output ends once, and that starts the linger timer. *)
Definition flow (j j' : Job) : Prop :=
  streaming j' = streaming j ∧ j_clock j' = j_clock j ∧
  sm_drain_limit (j_streaming j') = sm_drain_limit (j_streaming j) ∧
  (stream_ok j → stream_ok j' ∧
   (sm_eof (j_streaming j') = sm_eof (j_streaming j) ∧ sm_linger (j_streaming j') = sm_linger (j_streaming j) ∨
    streaming j = true ∧ sm_eof (j_streaming j) = false ∧ sm_eof (j_streaming j') = true ∧
    sm_linger (j_streaming j') = j_clock j + STREAMING_LINGER)).

Ltac flowing :=
  unfold flow, stream_ok; cbn; split_and!; try done; intros [? ?]; split; [|auto];
  split; [by auto|let Hs := fresh in
                  intros Hs; match goal with H : _ → _ ∧ _ |- _ => by destruct (H Hs) end].

Lemma flow_refl j : flow j j.
Proof. split_and!; [done..|]. intros; split; auto. Qed.

Lemma flow_same j j' : frame j' = frame j → j_streaming j' = j_streaming j → flow j j'.
Proof.
  intros (_&_&Hc&_&Hs)%frame_eq E. unfold flow, stream_ok. rewrite Hs, Hc, E. split_and!; [done..|]. auto.
Qed.

Lemma flow_trans j1 j2 j3 : flow j1 j2 → flow j2 j3 → flow j1 j3.
Proof.
  intros (Es1&Ec1&Ed1&H1) (Es2&Ec2&Ed2&H2). split_and!; [congruence..|].
  intros Hok. destruct (H1 Hok) as [Hok2 Hc1]. destruct (H2 Hok2) as [Hok3 Hc2]. split; [done|].
  destruct Hc1 as [[E1 E2]|(A1&A2&A3&A4)], Hc2 as [[E3 E4]|(B1&B2&B3&B4)];
    [left; split; congruence|right; split_and!; congruence..|congruence].
Qed.

Lemma flow_break j : flow j (break j).
Proof. flowing. Qed.

Lemma flow_eof j : streaming j = true → sm_pending (j_streaming j) = None → sm_eof (j_streaming j) = false →
  flow j (with_streaming j (with_eof (j_streaming j) (j_clock j + STREAMING_LINGER))).
Proof.
  intros Hs Hp He. unfold flow, stream_ok. cbn. split_and!; [done..|]. intros _. split.
  - split; [done|]. change (streaming j = false → sm_pending (j_streaming j) = None ∧ true = false). congruence.
  - right. by split_and!.
Qed.

Lemma flow_output j r f :
  sm_pending (j_streaming j) = None → sm_eof (j_streaming j) = false → flow j (on_output j r f).
Proof.
  intros Hp He. unfold on_output. destruct r as [[[|b buf] src]|e].
  - destruct (streaming j) eqn:Es; [by apply flow_eof|apply flow_break].
  - set (j1 := if j_dead j && streaming j then _ else j).
    assert (H1 : streaming j1 = streaming j ∧ j_clock j1 = j_clock j ∧ j_streaming j1 = j_streaming j).
    { subst j1. by case_match. }
    clearbody j1. destruct H1 as (E1&E2&E3). destruct (bool_decide (src = Stdout) && streaming j1) eqn:Ess.
    + apply andb_prop in Ess as [_ Ess]. unfold flow, stream_ok.
      change (streaming (with_streaming ?a ?b)) with (streaming a).
      change (streaming (with_recorder ?a ?b)) with (streaming a). cbn. rewrite E1, E2, E3, He.
      split_and!; [done..|]. intros _. split; [|auto]. split; [done|congruence].
    + destruct (record_chunk _ _ _ _ _) as [rc stop]. clear Ess.
      assert (H : ∀ j2, streaming j2 = streaming j1 → j_clock j2 = j_clock j1 →
                j_streaming j2 = j_streaming j1 → flow j j2).
      { intros j2 F1 F2 F3. unfold flow, stream_ok. rewrite F1, F2, F3, E1, E2, E3.
        split_and!; [done..|]. auto. }
      unfold relay_data. case_match; apply H; by destruct stop.
  - destruct (streaming j) eqn:Es; [by apply flow_eof|]. eapply flow_trans; [|apply flow_break].
    by apply flow_same.
Qed.

Lemma flow_client j a w p : flow j (on_client to_json j a w p).
Proof.
  unfold on_client. destruct (streaming j) eqn:Es.
  - case_match; [apply flow_refl|]. flowing.
  - cbv zeta. destruct p as [|[pos|]]; [destruct (sk_file _)|..]; by apply flow_same.
Qed.

Lemma flow_message j id m : flow j (on_message from_json to_json j id m).
Proof.
  unfold on_message. repeat (case_match; try done); by apply flow_same.
Qed.

Lemma flow_permit j j' : on_permit j = Some j' → flow j j'.
Proof.
  unfold on_permit. destruct (sm_pending (j_streaming j)) as [buf|] eqn:Ep; [|done].
  assert (Hn : stream_ok j → sm_eof (j_streaming j) = false).
  { intros [H1 _]. destruct (sm_eof (j_streaming j)); [|done]. rewrite Ep in H1. by specialize (H1 eq_refl). }
  assert (H : ∀ j2 l socket out c dl, streaming j2 = streaming j → j_clock j2 = j_clock j →
      flow j (with_streaming j2
        (mkStreaming None (sm_attached (j_streaming j)) (sm_eof (j_streaming j))
           (if sm_eof (j_streaming j) then l else sm_linger (j_streaming j)) (sm_drain_limit (j_streaming j))
           (sm_attach_deadline (j_streaming j)) socket out c dl))).
  { intros j2 l socket out c dl E1 E2. unfold flow, stream_ok.
    change (streaming (with_streaming ?a ?b)) with (streaming a). cbn. rewrite E1, E2.
    split_and!; [done..|]. intros Hok. specialize (Hn Hok). destruct Hok as [H1 H2]. rewrite Hn in *.
    split; [|auto]. split; [done|]. intros Hs. by destruct (H2 Hs). }
  intros E. destruct (sm_consumer (j_streaming j)), (sm_output (j_streaming j)); simplify_eq;
    try (eapply (H (if j_dead j then _ else j)); by destruct (j_dead j)); flowing.
Qed.

Lemma flow_consumer j t j' : consumer_turn j t = Some j' → flow j j'.
Proof.
  unfold consumer_turn. intros H. repeat (case_match; simplify_eq; try done); flowing.
Qed.

Lemma flow_loop_top j : flow j (loop_top j).
Proof. unfold loop_top. repeat case_match; apply flow_refl || apply flow_break. Qed.

(** Only the process's death restarts the other timers. *)
Definition from_exit (j m : Job) : Prop := m = j ∨ j_dead j = false ∧ m = exited j.

Lemma flow_loop_turn j t j' :
  loop_turn from_json to_json j t = Some j' → ∃ m, from_exit j m ∧ flow m j'.
Proof.
  intros H. destruct t; cbn [loop_turn] in H; unfold guard_job in H; try discriminate H.
  7: { destruct (negb (j_dead j)) eqn:E; [|done]. injection H as <-. apply negb_true_iff in E.
       exists (exited j). split; [by right|apply flow_refl]. }
  all: exists j; split; [by left|].
  - destruct (_ && _ && _) eqn:E in H; [|done]. destruct (read_output _ _ _) as [io read]. injection H as <-.
    apply andb_prop in E as [[E1%bool_decide_eq_true E2%negb_true_iff]%andb_prop _].
    eapply (flow_trans _ (with_io j io)); [by apply flow_same|].
    destruct read; [by apply flow_output|apply flow_refl].
  - by apply flow_permit.
  - case_match; [|done]. injection H as <-. apply flow_client.
  - case_match; [|done]. injection H as <-. apply flow_message.
  - case_match; [|done]. injection H as <-. by apply flow_same.
  - case_match; [|done]. injection H as <-. by apply flow_same.
  - case_match; [|done]. injection H as <-. apply flow_break.
  - case_match; [|done]. injection H as <-. eapply flow_trans; [|apply flow_break]. by apply flow_same.
  - case_match; [|done]. injection H as <-. eapply flow_trans; [|apply flow_break]. by apply flow_same.
  - case_match; [|done]. injection H as <-. apply flow_break.
Qed.

Lemma turn_flow j now t j' :
  turn j now t = Some j' → ∃ m, from_exit (at_time j now) m ∧ flow m j'.
Proof.
  unfold Job.turn. case_match; [done|]. intros Ht.
  set (k := at_time j now) in *. clearbody k. clear dependent j.
  assert (Hsel : (match j_phase k with
                  | Looping => loop_top <$> loop_turn from_json to_json k t
                  | Reaping since escalated => reap_turn k since escalated t
                  | Finished _ _ => None
                  end) = Some j' → ∃ m, from_exit k m ∧ flow m j').
  { clear Ht. destruct (j_phase k) as [|since e|] eqn:Ep; [| |done].
    - destruct (loop_turn _ _ k t) as [j1|] eqn:E; [|done]. intros [= <-].
      destruct (flow_loop_turn _ _ _ E) as (m&Hm&Hf). exists m. split; [done|].
      eapply flow_trans; [done|apply flow_loop_top].
    - intros E. exists k. split; [by left|]. destruct t; cbn [reap_turn] in E; unfold guard_job in E;
        try discriminate E; repeat (case_match; try discriminate E); simplify_eq; by apply flow_same. }
  destruct t as [| | | | | | | | | | | |c|m| |[w|]| | |]; try (by apply Hsel); clear Hsel; unfold guard_job in Ht.
  all: exists k; split; [by left|].
  1,3-5: injection Ht as <-; by apply flow_same.
  - by eapply flow_consumer.
  - case_match; [|done]. injection Ht as <-. by apply flow_same.
Qed.

(** Where a noted turn stands. *)
Lemma noted_phase j t m :
  noted j t m →
  (j_phase m = j_phase j ∨ (∃ since, j_phase j = Reaping since false ∧ j_phase m = Reaping since true) ∨
   ∃ since e res out, j_phase j = Reaping since e ∧ j_phase m = Finished res out) ∧
  (j_dead j = true → j_dead m = true ∧ j_drain_timeout m = j_drain_timeout j ∧
     j_streaming m = j_streaming j ∧ frame m = frame j).
Proof.
  intros H. destruct H as [t|Hp Hstop Hk|Hp Hk Hkills Ht|Hp Hd|t since Hp Hw|since e st Hp]; cbn.
  1-3: split; [auto|done].
  - unfold exited. split; [left; by case_match|congruence].
  - split; [right; left; eauto|done].
  - split; [right; right; eauto 8|done].
Qed.

(** Every timer that runs was started no later than now. *)
Definition timers_ok (j : Job) : Prop :=
  stream_ok j ∧ sm_linger (j_streaming j) <= j_clock j + STREAMING_LINGER ∧
  sm_drain_limit (j_streaming j) <= j_clock j + STREAMING_DRAIN_LIMIT ∧
  j_drain_timeout j <= j_clock j + io_drain_timeout ∧
  (∀ since e, j_phase j = Reaping since e → since <= j_clock j).

Lemma exited_streaming j : streaming (exited j) = streaming j.
Proof. unfold exited. change (streaming (with_dead ?a ?b ?c)) with (streaming a). by case_match. Qed.

Lemma stream_ok_exited j : stream_ok j → stream_ok (exited j).
Proof.
  unfold stream_ok, exited. change (streaming (with_dead ?a ?b ?c)) with (streaming a).
  destruct (streaming j) eqn:Es; cbn; [|by rewrite Es].
  change (streaming (with_streaming ?a ?b)) with (streaming a). by rewrite Es.
Qed.

Lemma turn_phase j now t j' :
  turn j now t = Some j' →
  (j_phase j' = j_phase j ∨ j_phase j = Looping ∧ j_phase j' = Reaping now false ∨
   (∃ since, j_phase j = Reaping since false ∧ j_phase j' = Reaping since true) ∨
   ∃ since e res out, j_phase j = Reaping since e ∧ j_phase j' = Finished res out) ∧ j_clock j' = now ∧
  (j_drain_timeout j' = j_drain_timeout j ∨ j_drain_timeout j' = now + io_drain_timeout) ∧
  (j_dead j = true → j_dead j' = true ∧
   (streaming j = false → sm_pending (j_streaming j) = None → j_drain_timeout j' = j_drain_timeout j)).
Proof.
  intros H. destruct (turn_noted _ _ _ _ H) as (Hc&m&Hn&Hf&_&Hp&Hd&Hd').
  assert (Hcm : j_clock m = now) by (destruct Hn; try done; unfold exited; by case_match).
  apply frame_eq in Hf as (_&_&E&E'&_).
  assert (Hdm : j_drain_timeout m = j_drain_timeout j ∨ j_drain_timeout m = now + io_drain_timeout).
  { destruct Hn; auto. }
  destruct (noted_phase _ _ _ Hn) as [Hpm Hdead]. cbn in Hpm, Hdead. rewrite Hcm in *. split_and!.
  - destruct Hp as [->|[Hl ->]]; [tauto|]. right. left. split; [|done].
    by destruct Hpm as [<-|[(?&_&?)|(?&?&?&?&_&?)]]; [|congruence..].
  - done.
  - by destruct Hd' as [->| ->]; auto.
  - intros Hj. destruct (Hdead Hj) as (E1&E2&E3&E4). split; [congruence|]. intros Hs Hpe.
    apply frame_eq in E4 as (_&_&_&_&E4). cbn in E4. rewrite E3 in Hd.
    destruct (Hd (eq_trans E4 Hs) Hpe) as [-> _]. done.
Qed.

Lemma timers_ok_turn j now t j' : turn j now t = Some j' → timers_ok j → timers_ok j'.
Proof.
  intros Ht (Hok&Hl&Hdl&Hdt&Hsi). destruct (turn_phase _ _ _ _ Ht) as (Hp&Hc&Hd&_).
  assert (Hle : j_clock j <= now) by (by apply turn_noted in Ht as [? _]).
  apply turn_flow in Ht as (m&Hm&Hs&Hcm&E&Hf).
  assert (Hokm : stream_ok m) by (destruct Hm as [->|[_ ->]]; [done|by apply stream_ok_exited]).
  destruct (Hf Hokm) as [Hok' Hl']. split; [done|].
  assert (Hm' : sm_linger (j_streaming m) = sm_linger (j_streaming j) ∧ j_clock m = now ∧
                sm_drain_limit (j_streaming m) <= now + STREAMING_DRAIN_LIMIT).
  { destruct Hm as [->|[_ ->]]; cbn; [split_and!; [done..|lia]|]. unfold exited.
    case_match; cbn; split_and!; lia || done. }
  destruct Hm' as (E1&E2&E3). rewrite E, Hc. rewrite E1, E2 in Hl'. split_and!.
  - destruct Hl' as [[_ ->]|(_&_&_&->)]; lia.
  - done.
  - destruct Hd as [->| ->]; lia.
  - intros since e Hr. destruct Hp as [Hp|[[_ Hp]|[(s&Hp&Hp')|(?&?&?&?&_&Hp)]]].
    + rewrite Hp in Hr. apply Hsi in Hr. lia.
    + simplify_eq. rewrite Hr in Hp. injection Hp as -> _. lia.
    + rewrite Hr in Hp'. injection Hp' as -> _. apply Hsi in Hp. lia.
    + congruence.
Qed.

Lemma timers_ok_run mode max_fsize t0 stopped ts j :
  run_job (job_begin mode max_fsize t0 stopped) ts = Some j → timers_ok j.
Proof.
  apply (run_job_ind (λ _, timers_ok)); clear; [|intros; by eapply timers_ok_turn].
  unfold timers_ok, stream_ok. cbn. split_and!; try done; lia.
Qed.

(** ** A dead job ends *)

(** When the timers a job waits for elapse; a dead process is reaped at once. *)
Definition deadlines (j : Job) : list N :=
  let s := j_streaming j in
  let k := j_killer j in
  match j_phase j with
  | Looping =>
    (if kl_killed k && (kl_kills k <? KILL_ATTEMPTS)%nat then [kl_timeout k] else [])
    ++ (if streaming j && j_dead j && negb (sm_eof s) then [sm_drain_limit s] else [])
    ++ (if streaming j && negb (sm_attached s) && negb (sm_eof s) then [sm_attach_deadline s] else [])
    ++ (if sm_eof s then [sm_linger s] else [])
    ++ (if j_dead j && negb (sm_eof s) then [j_drain_timeout j] else [])
  | Reaping since _ => if j_dead j then [since] else []
  | Finished _ _ => []
  end.

(** A run in which no timer is overdue by more than [δ]. *)
Fixpoint timely (δ : N) (j : Job) (ts : list (N * Turn)) : bool :=
  match ts with
  | [] => true
  | (now, t) :: ts =>
    forallb (λ d, now <=? d + δ) (deadlines j) &&
    match turn j now t with Some j' => timely δ j' ts | None => true end
  end.

Lemma served δ now l : forallb (λ d, now <=? d + δ) l = true → Forall (λ d, now <= d + δ) l.
Proof.
  rewrite forallb_forall, Forall_forall. intros H x Hx. apply N.leb_le, H. by apply list_elem_of_In.
Qed.

Definition drain_bound (j : Job) : N :=
  if streaming j then STREAMING_DRAIN_LIMIT + STREAMING_LINGER else io_drain_timeout.

Definition is_finished (j : Job) : bool := match j_phase j with Finished _ _ => true | _ => false end.

Definition ending (t0 δ : N) (j : Job) : Prop :=
  j_dead j = true ∧ stream_ok j ∧
  (is_finished j = true ∨ j_clock j <= t0 + drain_bound j + 3 * δ) ∧
  match j_phase j with
  | Looping =>
    if sm_eof (j_streaming j) then sm_linger (j_streaming j) <= t0 + drain_bound j + δ
    else if streaming j then sm_drain_limit (j_streaming j) <= t0 + STREAMING_DRAIN_LIMIT
    else j_drain_timeout j <= t0 + io_drain_timeout
  | Reaping since _ => since <= t0 + drain_bound j + 2 * δ
  | Finished _ _ => True
  end.

Lemma ending_deadline t0 δ j now :
  ending t0 δ j → Forall (λ d, now <= d + δ) (deadlines j) →
  match j_phase j with
  | Looping =>
    if sm_eof (j_streaming j) then now <= t0 + drain_bound j + 2 * δ
    else now <= t0 + (if streaming j then STREAMING_DRAIN_LIMIT else io_drain_timeout) + δ
  | Reaping _ _ => now <= t0 + drain_bound j + 3 * δ
  | Finished _ _ => True
  end.
Proof.
  intros (Hd&Hok&_&H). revert H. unfold deadlines. rewrite Hd. destruct (j_phase j); intros H; [|..|done].
  - revert H. rewrite !Forall_app. intros H (_&H1&_&H2&H3). revert H H1 H2 H3.
    destruct (sm_eof _); cbn [andb negb]; intros H H1 H2 H3.
    + rewrite Forall_singleton in H2; cbv beta in *; lia.
    + destruct (streaming j); cbn [andb] in *; [rewrite Forall_singleton in H1|rewrite Forall_singleton in H3]; cbv beta in *; lia.
  - rewrite Forall_singleton. intros Hs; cbv beta in *; lia.
Qed.

Lemma ending_turn t0 δ j now t j' :
  ending t0 δ j → Forall (λ d, now <= d + δ) (deadlines j) → turn j now t = Some j' → ending t0 δ j'.
Proof.
  intros He Hn Ht. pose proof (ending_deadline _ _ _ _ He Hn) as Hnow. destruct He as (Hd&Hok&Hc&H).
  destruct (turn_phase _ _ _ _ Ht) as (Hp&Hclk&_&Hdead). destruct (Hdead Hd) as [Hd' Hdt].
  apply turn_flow in Ht as (m&Hm&Hs&_&Hdl&Hf). destruct Hm as [->|[Hx _]]; [|cbn in Hx; congruence].
  cbn in Hdl. destruct (Hf Hok) as [Hok' Hl]. cbn in Hl. change (streaming (at_time j now)) with (streaming j) in *.
  assert (Eb : drain_bound j' = drain_bound j) by (unfold drain_bound; by rewrite Hs).
  assert (Hb : drain_bound j = if streaming j then STREAMING_DRAIN_LIMIT + STREAMING_LINGER else io_drain_timeout) by done.
  split_and!; [done|done|..]; unfold is_finished; rewrite ?Eb, ?Hclk, ?Hs.
  - destruct (j_phase j) eqn:Ej.
    + right. destruct (sm_eof _), (streaming j); lia.
    + right. lia.
    + left. by destruct Hp as [->|[[? _]|[(?&?&_)|(?&?&?&?&?&_)]]].
  - destruct Hp as [Hp|[[Hp ->]|[(since&Hp&->)|(?&?&?&?&_&->)]]]; [|rewrite Hp in *..|done].
    + rewrite Hp. destruct (j_phase j) eqn:Ej; [|done..].
      destruct Hl as [[-> ->]|(Hs1&He1&->&->)].
      * destruct (sm_eof _) eqn:Ee; [done|]. rewrite Hdl. destruct (streaming j) eqn:Es; [done|].
        destruct Hok as [_ Hok]. destruct (Hok Es) as [Hpe _]. by rewrite (Hdt eq_refl Hpe).
      * rewrite He1, Hs1 in Hnow. rewrite Hs1 in Hb. lia.
    + destruct (sm_eof _), (streaming j); lia.
    + done.
Qed.

Lemma ending_run t0 δ ts j j' :
  ending t0 δ j → timely δ j ts = true → run_job j ts = Some j' → ending t0 δ j'.
Proof.
  revert j. induction ts as [|[now t] ts IH]; intros j He; cbn; [intros _ [= <-]; done|].
  intros [Hn%served Hts]%andb_prop. destruct (turn j now t) as [j1|] eqn:Et; cbn; [|done].
  eapply IH; [by eapply ending_turn|done].
Qed.

Lemma turn_select j now t :
  j_clock j <= now →
  match t with
  | TCancel | TConsumer _ | TMux _ | TReap | TRelay _ => False
  | _ => True
  end →
  turn j now t =
  match j_phase j with
  | Looping => loop_top <$> loop_turn from_json to_json (at_time j now) t
  | Reaping since e => reap_turn (at_time j now) since e t
  | Finished _ _ => None
  end.
Proof.
  intros Hc Ht. unfold Job.turn. destruct (N.ltb_spec now (j_clock j)); [lia|]. by destruct t.
Qed.

(** The last turn: the process is reaped. *)
Lemma reaping_finishes j since e :
  j_phase j = Reaping since e →
  ∃ j' res out, run_job j [(j_clock j, TReaped (Ok (mkExitStatus (Some 0%Z) None)))] = Some j' ∧
    j_phase j' = Finished res out.
Proof.
  intros Hp. cbn [Job.run_job]. rewrite turn_select, Hp by done. cbn. eauto.
Qed.

Lemma loop_top_broken j since e : j_phase j = Reaping since e → loop_top j = j.
Proof. unfold loop_top. by intros ->. Qed.

(** Once the process is dead, some timer ends the loop. *)
Lemma dead_loop_breaks j :
  j_phase j = Looping → j_dead j = true →
  ∃ now t j', turn j now t = Some j' ∧ ∃ since, j_phase j' = Reaping since false.
Proof.
  intros Hp Hd. destruct (sm_eof (j_streaming j)) eqn:Ee.
  - exists (N.max (j_clock j) (sm_linger (j_streaming j))), TLinger.
    rewrite turn_select, Hp by (lia || done). cbn [loop_turn]. cbn. rewrite Ee.
    destruct (N.leb_spec (sm_linger (j_streaming j)) (N.max (j_clock j) (sm_linger (j_streaming j)))); [|lia].
    cbn. eexists. split; [done|]. by eexists.
  - exists (N.max (j_clock j) (j_drain_timeout j)), TDrainTimeout.
    rewrite turn_select, Hp by (lia || done). cbn [loop_turn]. cbn. rewrite Ee, Hd.
    destruct (N.leb_spec (j_drain_timeout j) (N.max (j_clock j) (j_drain_timeout j))); [|lia].
    cbn. eexists. split; [done|]. by eexists.
Qed.

(** C17. A job whose process is dead ends.  If the runtime serves no timer later than
    [δ] after it elapses, then [job] has returned [drain_bound] and three [δ]
    later: a second, or for a streaming job eleven minutes, whatever the
    process's descendants, its clients and its consumer do meanwhile.  And it is
    never stuck: from any such state two turns at most end it. *)
Theorem dead_job_ends mode max_fsize t0 stopped ts j ts' j' δ :
  run_job (job_begin mode max_fsize t0 stopped) ts = Some j → j_dead j = true →
  timely δ j ts' = true → run_job j ts' = Some j' →
  (j_clock j + drain_bound j + 3 * δ < j_clock j' → ∃ res out, j_phase j' = Finished res out) ∧
  (∃ ts'' j'' res out, (length ts'' <= 2)%nat ∧ run_job j' ts'' = Some j'' ∧ j_phase j'' = Finished res out).
Proof.
  intros Hr Hd Hts Hr'. destruct (timers_ok_run _ _ _ _ _ _ Hr) as (Hok&Hl&Hdl&Hdt&Hsi).
  assert (He : ending (j_clock j) δ j).
  { split_and!; [done|done|right; lia|]. destruct (j_phase j) eqn:Ep; [|specialize (Hsi _ _ eq_refl); lia|done].
    unfold drain_bound. destruct (sm_eof _) eqn:Ee; [|destruct (streaming j); lia].
    destruct (streaming j) eqn:Es; [lia|]. destruct Hok as [_ Hok]. destruct (Hok Es). congruence. }
  destruct (ending_run _ _ _ _ _ He Hts Hr') as (Hd'&_&Hb&_).
  assert (Eb : drain_bound j' = drain_bound j).
  { clear -Hr'. revert j Hr'. induction ts' as [|[now t] ts' IH]; intros j; cbn; [by intros [= ->]|].
    destruct (turn j now t) as [j1|] eqn:E; [|done]. cbn. intros ->%IH.
    apply turn_flow in E as (m&[->|[_ ->]]&Hs&_); unfold drain_bound; rewrite Hs; [done|].
    by rewrite exited_streaming. }
  rewrite Eb in Hb. split.
  - intros Hlt. destruct Hb as [Hf|]; [|lia]. unfold is_finished in Hf. destruct (j_phase j'); [done|done|eauto].
  - destruct (j_phase j') as [|since e|res out] eqn:Ep.
    + destruct (dead_loop_breaks j' Ep Hd') as (now&t&j1&Ht&since&Hp1).
      destruct (reaping_finishes _ _ _ Hp1) as (j2&res&out&Hr2&Hp2).
      exists ((now, t) :: [(j_clock j1, TReaped (Ok (mkExitStatus (Some 0%Z) None)))]), j2, res, out.
      split; [cbn; lia|]. split; [|done]. cbn [Job.run_job]. by rewrite Ht.
    + destruct (reaping_finishes _ _ _ Ep) as (j2&res&out&Hr2&Hp2).
      eexists _, j2, res, out. split; [|split; [exact Hr2|done]]. cbn; lia.
    + exists [], j', res, out. split; [cbn; lia|done].
Qed.
End facts.
