(* ===== verification/JobOutput.v ===== *)
(** * What a running job records, streams and types

    What [Job.v] keeps of a process's output is what was read of it, up to the
    limit, and hashes as the job announces; a streamed output arrives without
    gaps; and what reaches a terminal comes from clients that may write. *)
From S2P Require Import Prelude External Hash Codephrases Jobs Manager Output Download JobIo Job JobFacts.
Open Scope N_scope.

(** What was read of a stream, in order. *)
Definition produced_chunk (s : JobOutputStream) (t : N * Turn) : option (list byte) :=
  match t.2 with
  | TRead s' (Ok bytes) _ => if bool_decide (s' = s) then Some bytes else None
  | _ => None
  end.
Definition produced (s : JobOutputStream) (ts : list (N * Turn)) : list byte :=
  concat (omap (produced_chunk s) ts).

(** No write fails, no position is lost; and no read returns more than [buf]. *)
Definition turn_ok (buf : N) (t : N * Turn) : Prop :=
  match t.2 with
  | TRead _ (Ok bytes) failed => failed = None ∧ N.of_nat (length bytes) <= buf
  | TRead _ _ failed => failed = None
  | TClient _ _ (Err (Some _)) => False
  | _ => True
  end.

Lemma produced_snoc s ts t :
  produced s (ts ++ [t]) = produced s ts ++ default [] (produced_chunk s t).
Proof.
  unfold produced. rewrite omap_app, concat_app. f_equal. cbn.
  destruct (produced_chunk s t); [apply app_nil_r|done].
Qed.

Lemma write_at_end file bytes : write_at file (length file) bytes = file ++ bytes.
Proof.
  unfold write_at. rewrite Nat.sub_diag. cbn. rewrite app_nil_r, firstn_all.
  rewrite skipn_all2 by lia. by rewrite app_nil_r.
Qed.

Lemma recording_stop io s s' : recording (stop_recording io s) s' = true → recording io s' = true.
Proof. destruct io, s, s'; cbn; done. Qed.

Lemma recording_stop_self io s : recording (stop_recording io s) s = false.
Proof. by destruct io, s. Qed.

(** Reading a stream that is waited for. *)
Lemma read_output_spec io s r io' read :
  readable io s = true → read_output io s r = (io', read) →
  (∀ s', recording io' s' = recording io s') ∧ accepted io' = accepted io ∧
  match r with
  | Ok (b :: bytes) =>
    if recording io s then read = Some (Ok (b :: bytes, s)) else read = None ∨ read = Some (Ok ([], Stdout))
  | Ok [] => read = None ∨ read = Some (Ok ([], Stdout))
  | Err _ => read = Some (Ok ([], Stdout)) ∨ ∃ e, read = Some (Err e)
  end.
Proof.
  intros Hr. destruct io as [pty input open typed|out err], s; cbn in *; try done;
    destruct r as [[|b bytes]|e]; cbn; intros [= <- <-]; cbn; split_and!; try done;
    try (by intros []); try (by eauto); repeat case_match; simplify_eq; try done; eauto.
Qed.

Section facts.
Context {Isha : Sha3}.
Variables (from_json : string → result InteractiveJobControl string)
  (to_json : InteractiveJobControl → result string string).

Local Abbreviation turn := (turn from_json to_json).
Local Abbreviation run_job := (run_job from_json to_json).

Definition sink (r : Recorder) (s : JobOutputStream) : Sink :=
  match s with Stdout => rc_stdout r | Stderr => rc_stderr r end.

(** ** How a turn changes the recorder *)

(** Nothing is recorded; the position may return to the end. *)
Definition unrecorded (r r' : Recorder) : Prop :=
  rc_fatal r' = rc_fatal r ∧
  ∀ s, recording (rc_io r') s = recording (rc_io r) s ∧
    sk_file (sink r' s) = sk_file (sink r s) ∧ sk_hasher (sink r' s) = sk_hasher (sink r s) ∧
    (sk_pos (sink r' s) = sk_pos (sink r s) ∨ sk_pos (sink r' s) = length (sk_file (sink r s))).

Lemma unrecorded_refl r : unrecorded r r.
Proof. split; [done|]. intros s. split_and!; auto. Qed.

Lemma unrecorded_io r io :
  (∀ s, recording io s = recording (rc_io r) s) →
  unrecorded r (mkRecorder io (rc_stdout r) (rc_stderr r) (rc_fatal r)).
Proof. intros H. split; [done|]. intros s. split_and!; [apply H|by destruct s..|left; by destruct s]. Qed.

Lemma recording_input io b s : recording (write_input io b) s = recording io s.
Proof. destruct io; cbn; [|done]. by case_match. Qed.

Lemma recording_relay io w s : recording (relay_write io w) s = recording io s.
Proof. destruct io as [pty [|b input] [] typed|]; cbn; try done; by destruct w. Qed.

Lemma recording_relay_stop io s : recording (relay_stop io) s = recording io s.
Proof. by destruct io. Qed.

Lemma relay_data_recorder j buf : j_recorder (relay_data j buf) = j_recorder j.
Proof. unfold relay_data. by case_match. Qed.

Lemma stop_if_recorder b j : j_recorder (stop_if b j) = j_recorder j.
Proof. by destruct b. Qed.

Lemma on_output_recorder j read failed :
  streaming j = false →
  j_recorder (on_output j read failed) =
  match read with
  | Ok (b :: bytes, s) => (record_chunk (j_max_fsize j) (j_recorder j) s (b :: bytes) failed).1
  | _ => j_recorder j
  end.
Proof.
  intros Hs. unfold on_output. destruct read as [[[|b buf] s]|e]; rewrite Hs; [done| |done].
  rewrite !andb_false_r. cbn [andb]. rewrite Hs, andb_false_r.
  destruct (record_chunk _ _ _ _ _) as [rc stop]. by rewrite relay_data_recorder, stop_if_recorder.
Qed.

Lemma on_client_recorder j a w p :
  match p with Err (Some _) => False | _ => True end →
  unrecorded (j_recorder j) (j_recorder (on_client to_json j a w p)).
Proof.
  unfold on_client. destruct (streaming j); [intros _; case_match; apply unrecorded_refl|].
  cbv zeta. destruct p as [[]|[pos|]]; [|done|]; intros _.
  - destruct (sk_file _) eqn:E; cbn; [apply unrecorded_refl|]. split; [done|].
    intros []; cbn; rewrite ?E; split_and!; auto.
  - cbn. split; [done|]. intros []; cbn; split_and!; auto.
Qed.

Lemma on_message_recorder j id m :
  unrecorded (j_recorder j) (j_recorder (on_message from_json to_json j id m)).
Proof.
  unfold on_message. repeat (case_match; cbn; try apply unrecorded_refl).
  apply unrecorded_io. intros s. apply recording_input.
Qed.

Lemma on_permit_recorder j j' : on_permit j = Some j' → j_recorder j' = j_recorder j.
Proof. unfold on_permit. intros H. repeat (case_match; simplify_eq/=; try done). Qed.

Lemma consumer_turn_recorder j t j' : consumer_turn j t = Some j' → j_recorder j' = j_recorder j.
Proof. unfold consumer_turn. intros H. repeat (case_match; simplify_eq/=; try done). Qed.

Lemma consumer_turn_phase j t j' : consumer_turn j t = Some j' → j_phase j' = j_phase j.
Proof. unfold consumer_turn. intros H. repeat (case_match; simplify_eq/=; try done). Qed.

Lemma loop_top_recorder j : j_recorder (loop_top j) = j_recorder j.
Proof. unfold loop_top. repeat case_match; done. Qed.

(** A turn records nothing, or the chunk that was read. *)
Definition records (j : Job) (t : N * Turn) (r' : Recorder) : Prop :=
  let r := j_recorder j in
  (unrecorded r r' ∧
   ∀ s, default [] (produced_chunk s t) = [] ∨ recording (rc_io r) s = false) ∨
  ∃ s b bytes io, t.2 = TRead s (Ok (b :: bytes)) None ∧ recording (rc_io r) s = true ∧
    (∀ s', recording io s' = recording (rc_io r) s') ∧
    r' = (record_chunk (j_max_fsize j)
            (mkRecorder io (rc_stdout r) (rc_stderr r) (rc_fatal r)) s (b :: bytes) None).1.

Lemma records_nothing j now t r' :
  (∀ s bytes f, t ≠ TRead s (Ok bytes) f) → unrecorded (j_recorder j) r' → records j (now, t) r'.
Proof.
  intros Ht Hu. left. split; [done|]. intros s. left. unfold produced_chunk. cbn.
  destruct t; try done. destruct r; [by edestruct Ht|done].
Qed.

Lemma read_records j now src r failed io read buf :
  streaming j = false → turn_ok buf (now, TRead src r failed) →
  readable (rc_io (j_recorder j)) src = true → read_output (rc_io (j_recorder j)) src r = (io, read) →
  records j (now, TRead src r failed)
    (j_recorder match read with Some read => on_output (with_io j io) read failed | None => with_io j io end).
Proof.
  intros Hs Hok Hr Ho. destruct (read_output_spec _ _ _ _ _ Hr Ho) as (Hrec&_&Hread).
  assert (Hu : unrecorded (j_recorder j) (j_recorder (with_io j io))) by (apply unrecorded_io, Hrec).
  destruct r as [[|b bytes]|e].
  - left. split; [|intros s; left; unfold produced_chunk; cbn; by case_match].
    destruct Hread as [->| ->]; [done|]. rewrite on_output_recorder by done. done.
  - destruct Hok as [-> _]. destruct (recording _ src) eqn:Er.
    + right. subst read. exists src, b, bytes, io. split_and!; [done..|].
      by rewrite on_output_recorder by done.
    + left. split.
      * destruct Hread as [->| ->]; [done|]. rewrite on_output_recorder by done. done.
      * intros s. unfold produced_chunk. cbn. case_bool_decide; subst; auto.
  - left. split; [|intros s; by left].
    destruct Hread as [->|[e' ->]]; rewrite on_output_recorder by done; done.
Qed.

Lemma loop_turn_records j now t j' buf :
  streaming j = false → turn_ok buf (now, t) → loop_turn from_json to_json j t = Some j' →
  records j (now, t) (j_recorder j').
Proof.
  intros Hs Hok H. destruct t; cbn [loop_turn] in H; unfold guard_job in H; try discriminate H.
  { destruct (_ && _ && _) eqn:E in H; [|done]. apply andb_prop in E as [_ E].
    destruct (read_output _ _ _) as [io read] eqn:Er. injection H as <-. by eapply read_records. }
  all: apply records_nothing; [done|].
  - apply on_permit_recorder in H as ->. apply unrecorded_refl.
  - case_match; [|done]. injection H as <-. apply on_client_recorder. by destruct playback as [|[]].
  - case_match; [|done]. injection H as <-. apply on_message_recorder.
  - case_match; [|done]. injection H as <-. apply unrecorded_refl.
  - case_match; [|done]. injection H as <-. apply unrecorded_refl.
  - case_match; [|done]. injection H as <-. rewrite Hs. apply unrecorded_refl.
  - case_match; [|done]. injection H as <-. apply unrecorded_refl.
  - case_match; [|done]. injection H as <-. apply unrecorded_refl.
  - case_match; [|done]. injection H as <-. apply unrecorded_refl.
  - case_match; [|done]. injection H as <-. apply unrecorded_refl.
Qed.

Lemma turn_records j now t j' buf :
  streaming j = false → turn_ok buf (now, t) → turn j now t = Some j' →
  records j (now, t) (j_recorder j').
Proof.
  intros Hs Hok. unfold Job.turn. case_match; [done|]. intros Ht.
  change (records j) with (records (at_time j now)).
  assert (Hk : streaming (at_time j now) = false) by done.
  set (k := at_time j now) in *. clearbody k. clear dependent j.
  assert (Hsel : (match j_phase k with
                  | Looping => loop_top <$> loop_turn from_json to_json k t
                  | Reaping since escalated => reap_turn k since escalated t
                  | Finished _ _ => None
                  end) = Some j' → records k (now, t) (j_recorder j')).
  { clear Ht. destruct (j_phase k) as [|since e|] eqn:Ep; [| |done].
    - destruct (loop_turn _ _ k t) as [j1|] eqn:E; [|done]. intros [= <-].
      rewrite loop_top_recorder. by eapply loop_turn_records.
    - intros E. destruct t; cbn [reap_turn] in E; unfold guard_job in E; try discriminate E;
        repeat (case_match; try discriminate E); simplify_eq;
        apply records_nothing; try done; apply unrecorded_refl. }
  destruct t as [| | | | | | | | | | | |c|m| |[w|]| | |]; try (by apply Hsel); clear Hsel; unfold guard_job in Ht.
  all: apply records_nothing; [done|].
  - injection Ht as <-. apply unrecorded_refl.
  - apply consumer_turn_recorder in Ht as ->. apply unrecorded_refl.
  - injection Ht as <-. apply unrecorded_refl.
  - injection Ht as <-. apply unrecorded_refl.
  - injection Ht as <-. apply unrecorded_io. intros s. apply recording_relay.
  - case_match; [|done]. injection Ht as <-. apply unrecorded_io. intros s. apply recording_relay_stop.
Qed.

(** ** What is recorded *)

Definition recorded (max_fsize buf : N) (ts : list (N * Turn)) (r : Recorder) : Prop :=
  (∀ e, rc_fatal r = Some e →
     ∃ s, e = POutputLimitExceeded s max_fsize ∧ max_fsize < N.of_nat (length (sk_file (sink r s)))) ∧
  ∀ s, let k := sink r s in
    sk_file k = inner (sk_hasher k) ∧ sk_pos k = length (sk_file k) ∧
    count (sk_hasher k) = N.of_nat (length (sk_file k)) ∧
    N.of_nat (length (sk_file k)) <= max_fsize + buf ∧
    sk_file k `prefix_of` produced s ts ∧
    if recording (rc_io r) s then sk_file k = produced s ts ∧ N.of_nat (length (sk_file k)) <= max_fsize
    else rc_fatal r ≠ None.

Lemma recorded_unrecorded max_fsize buf ts t r r' :
  unrecorded r r' → (∀ s, default [] (produced_chunk s t) = [] ∨ recording (rc_io r) s = false) →
  recorded max_fsize buf ts r → recorded max_fsize buf (ts ++ [t]) r'.
Proof.
  intros [Hf Hu] Hp [H1 H2]. split.
  - intros e He. rewrite Hf in He. destruct (H1 e He) as (s&->&Hs). exists s.
    by destruct (Hu s) as (_&->&_).
  - intros s. destruct (Hu s) as (Er&Ef&Eh&Epos), (H2 s) as (A1&A2&A3&A4&A5&A6). cbv zeta.
    rewrite Er, Ef, Eh, Hf, produced_snoc. split_and!; try done.
    + destruct Epos as [->| ->]; done.
    + by apply prefix_app_r.
    + revert A6. destruct (recording (rc_io r) s) eqn:E; [|done].
      destruct (Hp s) as [->|]; [|congruence]. by rewrite app_nil_r.
Qed.

Lemma sink_record max_fsize r s bytes s' :
  sink (record_chunk max_fsize r s bytes None).1 s' =
  if bool_decide (s' = s) then sink_write (sink r s) bytes None else sink r s'.
Proof. by destruct s, s'. Qed.

(** Writing a chunk of the recorded stream [s]. *)
Lemma chunk_written max_fsize buf ts r s bytes :
  max_fsize + buf < 2 ^ 64 → N.of_nat (length bytes) <= buf →
  recording (rc_io r) s = true → recorded max_fsize buf ts r →
  let k := sink_write (sink r s) bytes None in
  sk_file k = produced s ts ++ bytes ∧ sk_file k = inner (sk_hasher k) ∧ sk_pos k = length (sk_file k) ∧
  count (sk_hasher k) = N.of_nat (length (sk_file k)) ∧
  N.of_nat (length (sk_file (sink r s))) <= N.of_nat (length (sk_file k)) <= max_fsize + buf.
Proof.
  intros Hm Hb Hrec [_ H2] k. destruct (H2 s) as (A1&A2&A3&A4&_&A6). rewrite Hrec in A6.
  destruct A6 as [A6 A7].
  assert (Kf : sk_file k = sk_file (sink r s) ++ bytes) by (cbn; by rewrite A2, write_at_end).
  assert (Kl : length (sk_file k) = (length (sk_file (sink r s)) + length bytes)%nat)
    by (by rewrite Kf, length_app).
  split_and!; [by rewrite Kf, A6|by rewrite Kf, A1| | |rewrite Kl; lia..].
  - rewrite Kl. cbn. by rewrite A2.
  - rewrite Kl. change (count (sk_hasher k)) with ((count (sk_hasher (sink r s)) + N.of_nat (length bytes)) mod 2 ^ 64).
    rewrite A3, N.mod_small by lia. lia.
Qed.

(** What a recorded chunk leaves. *)
Lemma record_chunk_parts max_fsize r s bytes :
  let k := sink_write (sink r s) bytes None in
  let over := max_fsize <? count (sk_hasher k) in
  let r' := (record_chunk max_fsize r s bytes None).1 in
  rc_fatal r' = (if over then Some (default (POutputLimitExceeded s max_fsize) (rc_fatal r)) else rc_fatal r) ∧
  rc_io r' = (if over then stop_recording (rc_io r) s else rc_io r) ∧
  ∀ s', sink r' s' = if bool_decide (s' = s) then k else sink r s'.
Proof. cbv zeta. split_and!; [by destruct s..|]. intros s'. by destruct s, s'. Qed.

Lemma recorded_chunk max_fsize buf ts now r s bytes io :
  max_fsize + buf < 2 ^ 64 → N.of_nat (length bytes) <= buf →
  recording (rc_io r) s = true → (∀ s', recording io s' = recording (rc_io r) s') →
  recorded max_fsize buf ts r →
  recorded max_fsize buf (ts ++ [(now, TRead s (Ok bytes) None)])
    (record_chunk max_fsize (mkRecorder io (rc_stdout r) (rc_stderr r) (rc_fatal r)) s bytes None).1.
Proof.
  intros Hm Hb Hrec Hio Hr. destruct (chunk_written _ _ _ _ _ _ Hm Hb Hrec Hr) as (K1&K2&K3&K4&K5).
  destruct Hr as [H1 H2]. set (r0 := mkRecorder io _ _ _).
  destruct (record_chunk_parts max_fsize r0 s bytes) as (Hfatal&Hrecd&Hsink).
  assert (Hsk : ∀ s', sink r0 s' = sink r s') by (by intros []). rewrite Hsk in *.
  set (k := sink_write (sink r s) bytes None) in *. rewrite K4 in Hfatal, Hrecd. cbn [r0 rc_fatal rc_io] in *.
  set (r' := (record_chunk max_fsize r0 s bytes None).1) in *. clearbody k r'.
  assert (Hprod : ∀ s', produced s' (ts ++ [(now, TRead s (Ok bytes) None)]) =
            produced s' ts ++ if bool_decide (s = s') then bytes else []).
  { intros s'. rewrite produced_snoc. unfold produced_chunk. cbn. by case_bool_decide. }
  split.
  - assert (Hold : ∀ e, rc_fatal r = Some e → ∃ s', e = POutputLimitExceeded s' max_fsize ∧
              max_fsize < N.of_nat (length (sk_file (sink r' s')))).
    { intros e He. destruct (H1 e He) as (s'&->&Hs'). exists s'. split; [done|].
      rewrite Hsink, Hsk. case_bool_decide; subst; lia. }
    intros e. rewrite Hfatal. destruct (N.ltb_spec max_fsize (N.of_nat (length (sk_file k)))) as [Ho|]; [|auto].
    destruct (rc_fatal r) as [e'|] eqn:Ef; cbn; intros [= <-]; [auto|].
    exists s. rewrite Hsink, bool_decide_true by done. done.
  - intros s'. cbv zeta. rewrite Hfatal, Hrecd, Hsink, Hprod, Hsk.
    destruct (decide (s' = s)) as [->|Hne].
    + rewrite !bool_decide_true by done. split_and!; [done..|lia|by rewrite K1|].
      destruct (N.ltb_spec max_fsize (N.of_nat (length (sk_file k)))) as [Ho|Ho].
      * by rewrite recording_stop_self.
      * by rewrite Hio, Hrec.
    + rewrite !bool_decide_false, app_nil_r by congruence.
      destruct (H2 s') as (B1&B2&B3&B4&B5&B6). split_and!; try done.
      destruct (max_fsize <? _); [|by rewrite Hio].
      destruct (recording (stop_recording io s) s') eqn:E; [|done].
      apply recording_stop in E. rewrite Hio in E. by rewrite E in B6.
Qed.


(** ** The result *)

(** The result of a job, from its recorder when its process was reaped. *)
Definition job_result (r : Recorder) (res : result Z ProcessError) (out : JobOutputState) : Prop :=
  out = output_state r ∧ (∀ e, rc_fatal r = Some e → res = Err e).

Lemma output_state_unrecorded r r' : unrecorded r r' → output_state r' = output_state r.
Proof.
  intros [_ H]. unfold output_state. destruct (H Stdout) as (_&_&E1&_), (H Stderr) as (_&_&E2&_).
  cbn in E1, E2. by rewrite E1, E2.
Qed.

Lemma turn_finished j now t j' res out :
  turn j now t = Some j' → j_phase j' = Finished res out →
  (∃ status, j' = finish (at_time j now) status) ∨
  j_phase j = Finished res out ∧ unrecorded (j_recorder j) (j_recorder j').
Proof.
  intros Ht Hp. destruct (turn_phase _ _ _ _ _ _ Ht) as ([Hp'|[[_ Hp']|[(?&_&Hp')|(since&e&?&?&Hr&_)]]]&_).
  2,3: congruence.
  - right. split; [congruence|]. rewrite Hp in Hp'. revert Ht. unfold Job.turn.
    change (j_phase (at_time j now)) with (j_phase j). rewrite <- Hp'. case_match; [done|].
    destruct t as [| | | | | | | | | | | |c|m| |[w|]| | |]; unfold guard_job; intros Ht; try done.
    + injection Ht as <-. apply unrecorded_refl.
    + apply consumer_turn_recorder in Ht as ->. apply unrecorded_refl.
    + injection Ht as <-. apply unrecorded_refl.
    + injection Ht as <-. apply unrecorded_refl.
    + injection Ht as <-. apply unrecorded_io. intros s. apply recording_relay.
    + case_match; [|done]. injection Ht as <-. apply unrecorded_io. intros s. apply recording_relay_stop.
  - left. assert (Hc : j_clock j <= now) by (by apply turn_noted in Ht as [? _]).
    revert Ht. unfold Job.turn. change (j_phase (at_time j now)) with (j_phase j). rewrite Hr. destruct (N.ltb_spec now (j_clock j)) as [|_]; [lia|].
    destruct t as [| | | | | | | | | | | |c|m| |[w|]| | |]; cbn [reap_turn]; unfold guard_job; intros Ht; try done.
    2: by apply consumer_turn_phase in Ht; cbn in Ht; congruence.
    all: repeat (case_match; simplify_eq/=; try congruence); simplify_eq/=; try congruence; by eexists.
Qed.

Lemma finished_inv mode max_fsize t0 stopped ts j res out :
  run_job (job_begin mode max_fsize t0 stopped) ts = Some j → j_phase j = Finished res out →
  job_result (j_recorder j) res out.
Proof.
  intros Hr. revert res out.
  refine (run_job_ind _ _ (λ _ j, ∀ res out, j_phase j = Finished res out → job_result (j_recorder j) res out)
            _ _ _ _ _ Hr); [done|].
  clear. intros _ j now t j' _ Hi Ht res out Hp.
  destruct (turn_finished _ _ _ _ _ _ Ht Hp) as [[status ->]|[Hp0 Hu]].
  - cbn in *. injection Hp as <- <-. split; [done|]. by intros e ->.
  - destruct (Hi _ _ Hp0) as [-> Hf]. split; [by rewrite (output_state_unrecorded _ _ Hu)|].
    intros e. destruct Hu as [-> _]. auto.
Qed.

Lemma run_static mode max_fsize t0 stopped ts j :
  run_job (job_begin mode max_fsize t0 stopped) ts = Some j →
  streaming j = bool_decide (mode = StreamOutput) ∧ j_max_fsize j = max_fsize.
Proof.
  apply (run_job_ind _ _ (λ _ j, streaming j = bool_decide (mode = StreamOutput) ∧ j_max_fsize j = max_fsize)).
  - done.
  - clear. intros _ j now t j' _ [<- <-] (_&m&Hn&Hf&_)%turn_noted. apply frame_eq in Hf as (_&->&_&_&->).
    destruct Hn; try done. unfold exited. change (streaming (with_dead ?a ?b ?c)) with (streaming a). by case_match.
Qed.

Lemma recorded_run mode max_fsize t0 stopped buf ts j :
  mode ≠ StreamOutput → max_fsize + buf < 2 ^ 64 → Forall (turn_ok buf) ts →
  run_job (job_begin mode max_fsize t0 stopped) ts = Some j →
  recorded max_fsize buf ts (j_recorder j).
Proof.
  intros Hm Hb Hok Hr. revert Hok.
  refine (run_job_ind _ _ (λ ts j, Forall (turn_ok buf) ts → recorded max_fsize buf ts (j_recorder j))
            _ _ _ _ _ Hr).
  - intros _. split; [done|]. intros s. unfold job_begin. cbn.
    assert (Hrec : recording (io_open mode) s = true) by (destruct mode, s; done).
    rewrite Hrec. destruct s; cbn; split_and!; try done; lia.
  - clear Hr. clear ts j. intros ts j now t j' Hr Hi Ht [Hts Hokt]%Forall_app.
    rewrite Forall_singleton in Hokt. destruct (run_static _ _ _ _ _ _ Hr) as [Hs Hmax].
    rewrite bool_decide_false in Hs by done.
    destruct (turn_records _ _ _ _ _ Hs Hokt Ht) as [[Hu Hp]|(s&b&bytes&io&E&Hrec&Hio&->)].
    + by eapply recorded_unrecorded; [..|by apply Hi].
    + cbn in E. subst t. rewrite Hmax. apply recorded_chunk; [done|by destruct Hokt|done|done|by apply Hi].
Qed.

Definition out_len (s : JobOutputStream) (out : JobOutputState) : N :=
  match s with Stdout => stdout_len out | Stderr => stderr_len out end.
Definition out_hash (s : JobOutputStream) (out : JobOutputState) : list byte :=
  match s with Stdout => stdout_hash out | Stderr => stderr_hash out end.

(** ** Why the loop ends *)

(** The end of a stream: a read of nothing or, of a terminal, its hang-up. *)
Definition stream_ended (m : JobMode) (s : JobOutputStream) (t : N * Turn) : Prop :=
  match t.2 with
  | TRead s' (Ok []) _ => s' = s
  | TRead s' (Err e) _ => s' = s ∧ is_interactive m = true ∧ io_eio e = true
  | _ => False
  end.

(** A read that failed otherwise. *)
Definition read_failed (m : JobMode) (t : N * Turn) : Prop :=
  match t.2 with
  | TRead _ (Err e) _ => is_interactive m = false ∨ io_eio e = false
  | _ => False
  end.

(** The streams of a job: a terminal has one. *)
Definition streams_of (m : JobMode) : list JobOutputStream :=
  if is_interactive m then [Stdout] else [Stdout; Stderr].

(** The drain timeout, which starts when the process is noticed dead. *)
Definition drain_expired (ts : list (N * Turn)) : Prop :=
  ∃ t0 t1, (t0, TExit) ∈ ts ∧ (t1, TDrainTimeout) ∈ ts ∧ t0 + io_drain_timeout <= t1.

(** All was read: every stream of the job was, to its end. *)
Definition all_read (m : JobMode) (ts : list (N * Turn)) : Prop :=
  ∀ s, s ∈ streams_of m → Exists (stream_ended m s) ts.

Definition loop_ended (m : JobMode) (ts : list (N * Turn)) : Prop :=
  all_read m ts ∨ Exists (read_failed m) ts ∨ drain_expired ts.

Lemma loop_ended_snoc m ts t : loop_ended m ts → loop_ended m (ts ++ [t]).
Proof.
  intros [H|[H|(t0&t1&H1&H2&H3)]]; [left|right; left|right; right].
  - intros s Hs. apply Exists_app. left. by apply H.
  - apply Exists_app. by left.
  - exists t0, t1. split_and!; [apply elem_of_app; by left..|done].
Qed.

(** The streams at their ends. *)
Definition io_ends (m : JobMode) (ts : list (N * Turn)) (io : JobIo) : Prop :=
  match io with
  | IoInteractive pty _ _ _ =>
    is_interactive m = true ∧ (ss_eof pty = true → Exists (stream_ended m Stdout) ts)
  | IoBatch out err =>
    is_interactive m = false ∧ (ss_eof out = true → Exists (stream_ended m Stdout) ts) ∧
    (ss_eof err = true → Exists (stream_ended m Stderr) ts)
  end.

(** The same streams, as far as their ends go. *)
Definition same_ends (io io' : JobIo) : Prop := ∀ m ts, io_ends m ts io → io_ends m ts io'.

Lemma io_ends_snoc m ts t io : io_ends m ts io → io_ends m (ts ++ [t]) io.
Proof.
  assert (H : ∀ s, Exists (stream_ended m s) ts → Exists (stream_ended m s) (ts ++ [t]))
    by (intros s ?; apply Exists_app; by left).
  destruct io; cbn; [intros [? ?]|intros (?&?&?)]; split_and!; auto.
Qed.

(** Reading: the streams' ends are noted, and a result that ends the loop
    says that all has ended or that the read failed. *)
Lemma read_output_ends m ts now io s r f io' read :
  io_ends m ts io → readable io s = true → read_output io s r = (io', read) →
  let ts' := ts ++ [(now, TRead s r f)] in
  io_ends m ts' io' ∧
  match read with
  | Some (Ok ([], _)) => all_read m ts'
  | Some (Err _) => Exists (read_failed m) ts'
  | _ => True
  end.
Proof.
  intros H Hr Ho. cbv zeta. apply (io_ends_snoc m ts (now, TRead s r f)) in H.
  set (ts' := ts ++ _) in *.
  assert (Hnew : (now, TRead s r f) ∈ ts') by (apply elem_of_app; right; by apply list_elem_of_singleton).
  assert (Hend : stream_ended m s (now, TRead s r f) → Exists (stream_ended m s) ts')
    by (intros; apply Exists_exists; eauto).
  assert (Hfail : read_failed m (now, TRead s r f) → Exists (read_failed m) ts')
    by (intros; apply Exists_exists; eauto).
  clearbody ts'. unfold all_read, streams_of. destruct io as [pty input open typed|[eo ro] [ee re]].
  - destruct H as [Hm H], s; [|done]. rewrite Hm in *. cbn in Ho.
    assert (Hall : Exists (stream_ended m Stdout) ts' →
      ∀ s, s ∈ [Stdout] → Exists (stream_ended m s) ts') by (intros He s Hs; apply list_elem_of_singleton in Hs; by subst).
    destruct r as [[|b bytes]|e]; cbn in Ho.
    + injection Ho as <- <-. split; [split; [done|intros _; by apply Hend]|]. apply Hall. by apply Hend.
    + destruct (ss_rec pty); injection Ho as <- <-; [by split|].
      split; [by split|]. destruct (ss_eof pty) eqn:Ee; [|done]. by apply Hall, H.
    + injection Ho as <- <-. split; [by split|]. destruct (io_eio e) eqn:Ee.
      * apply Hall, Hend. cbn. by rewrite Hm.
      * apply Hfail. cbn. by right.
  - destruct H as (Hm&H1&H2). rewrite Hm in *. cbn in *.
    assert (Hall : Exists (stream_ended m Stdout) ts' → Exists (stream_ended m Stderr) ts' →
      ∀ s, s ∈ [Stdout; Stderr] → Exists (stream_ended m s) ts').
    { intros He1 He2 s1 [->|[->|Hs]%elem_of_cons]%elem_of_cons; [done..|]. by apply elem_of_nil in Hs. }
    destruct s, r as [[|b bytes]|e]; cbn in Ho; injection Ho as <- <-; cbn.
    + split; [split_and!; [done|intros _; by apply Hend|done]|]. destruct ee; [|done]. cbn. apply Hall; [by apply Hend|auto].
    + split; [done|]. destruct ro; [done|]. apply negb_true_iff in Hr as ->. done.
    + split; [done|]. apply Hfail. by left.
    + split; [split_and!; [done|done|intros _; by apply Hend]|]. destruct eo; [|done]. cbn. apply Hall; [auto|by apply Hend].
    + split; [done|]. destruct re; [done|]. apply negb_true_iff in Hr as ->. by rewrite andb_false_r.
    + split; [done|]. apply Hfail. by left.
Qed.

Lemma same_ends_refl io : same_ends io io.
Proof. by intros m ts. Qed.

Lemma same_ends_stop io s : same_ends io (stop_recording io s).
Proof. by destruct io, s; intros m ts. Qed.

Lemma output_ends j read failed :
  streaming j = false → same_ends (rc_io (j_recorder j)) (rc_io (j_recorder (on_output j read failed))).
Proof.
  intros Hs. rewrite on_output_recorder by done. destruct read as [[[|b buf] s]|e]; try apply same_ends_refl.
  cbn. case_match; [apply same_ends_stop|apply same_ends_refl].
Qed.

Lemma output_phase j read failed :
  streaming j = false → j_phase (on_output j read failed) ≠ j_phase j →
  (∃ s, read = Ok ([], s)) ∨ ∃ e, read = Err e.
Proof.
  intros Hs. unfold on_output. destruct read as [[[|b buf] s]|e]; eauto.
  rewrite Hs, !andb_false_r. cbn [andb]. rewrite Hs, andb_false_r.
  destruct (record_chunk _ _ _ _ _) as [rc stop]. intros H. destruct H. unfold relay_data. case_match; by destruct stop.
Qed.

Lemma client_ends j a w p : rc_io (j_recorder (on_client to_json j a w p)) = rc_io (j_recorder j).
Proof.
  unfold on_client. destruct (streaming j); [by case_match|]. cbv zeta.
  destruct p as [|[pos|]]; [destruct (sk_file _)|..]; done.
Qed.

Lemma client_phase j a w p : j_phase (on_client to_json j a w p) = j_phase j.
Proof.
  unfold on_client. destruct (streaming j); [by case_match|]. cbv zeta.
  destruct p as [|[pos|]]; [destruct (sk_file _)|..]; done.
Qed.

Lemma message_phase j id m : j_phase (on_message from_json to_json j id m) = j_phase j.
Proof. unfold on_message. by repeat (case_match; try done). Qed.

Lemma message_ends j id m : same_ends (rc_io (j_recorder j)) (rc_io (j_recorder (on_message from_json to_json j id m))).
Proof.
  unfold on_message. repeat (case_match; try apply same_ends_refl).
  cbn. destruct (rc_io (j_recorder j)); cbn; [|apply same_ends_refl]. case_match; by intros ??.
Qed.

(** What a turn of a job that is not streaming does to the ends and the loop. *)
Definition ends_step (m : JobMode) (ts : list (N * Turn)) (j : Job) (t : N * Turn) (j' : Job) : Prop :=
  io_ends m (ts ++ [t]) (rc_io (j_recorder j')) ∧
  (j_phase j = Looping → j_phase j' = Looping ∨ all_read m (ts ++ [t]) ∨
     Exists (read_failed m) (ts ++ [t]) ∨
     t.2 = TDrainTimeout ∧ j_dead j = true ∧ j_drain_timeout j <= t.1).

Lemma ends_step_same m ts j t j' :
  io_ends m ts (rc_io (j_recorder j)) → same_ends (rc_io (j_recorder j)) (rc_io (j_recorder j')) →
  (j_phase j = Looping → j_phase j' = Looping) → ends_step m ts j t j'.
Proof. intros H Hs Hp. split; [by apply io_ends_snoc, Hs|auto]. Qed.

Lemma read_ends_step m ts j now s r f io read :
  streaming j = false → io_ends m ts (rc_io (j_recorder j)) → readable (rc_io (j_recorder j)) s = true →
  read_output (rc_io (j_recorder j)) s r = (io, read) →
  ends_step m ts j (now, TRead s r f)
    match read with Some read => on_output (with_io j io) read f | None => with_io j io end.
Proof.
  intros Hs H Hr Ho. destruct (read_output_ends m ts now _ _ _ f _ _ H Hr Ho) as [H1 H2]. split.
  - destruct read as [read|]; [|done]. apply (output_ends (with_io j io)); done.
  - intros Hp. destruct read as [read|]; [|by left].
    assert (Hcase : j_phase (on_output (with_io j io) read f) = Looping ∨
                    (∃ s, read = Ok ([], s)) ∨ ∃ e, read = Err e).
    { destruct (j_phase (on_output (with_io j io) read f)) eqn:E; [by left|right..];
        (apply (output_phase (with_io j io) read f); [done|]; rewrite E; cbn; by rewrite Hp). }
    destruct Hcase as [|[[s' ->]|[e ->]]]; auto.
Qed.

Lemma loop_ends_step m ts j t j' :
  streaming j = false → sm_eof (j_streaming j) = false → j_phase j = Looping →
  io_ends m ts (rc_io (j_recorder j)) → loop_turn from_json to_json j t = Some j' →
  ends_step m ts j (j_clock j, t) j'.
Proof.
  intros Hs He Hp H Ht. destruct t; cbn [loop_turn] in Ht; unfold guard_job in Ht; try discriminate Ht.
  { destruct (_ && _ && _) eqn:E in Ht; [|done]. apply andb_prop in E as [_ Hr].
    destruct (read_output _ _ _) as [io read] eqn:Eo. injection Ht as <-. by apply read_ends_step. }
  all: rewrite ?Hs, ?He in Ht; cbn in Ht; rewrite ?andb_false_r, ?andb_true_r in Ht; try discriminate Ht.
  7: { destruct (_ && _) eqn:E in Ht; [|done]. injection Ht as <-. apply andb_prop in E as [E1 E2%N.leb_le].
       split; [by apply io_ends_snoc|]. intros _. do 3 right. by split_and!. }
  all: apply ends_step_same; [done|..].
  - apply on_permit_recorder in Ht as ->. apply same_ends_refl.
  - intros _. unfold on_permit in Ht. repeat (case_match; simplify_eq/=; try done).
  - case_match; [|done]. injection Ht as <-. rewrite client_ends. apply same_ends_refl.
  - intros _. case_match; [|done]. injection Ht as <-. by rewrite client_phase.
  - case_match; [|done]. injection Ht as <-. apply message_ends.
  - intros _. case_match; [|done]. injection Ht as <-. by rewrite message_phase.
  - case_match; [|done]. injection Ht as <-. apply same_ends_refl.
  - intros _. case_match; [|done]. by injection Ht as <-.
  - case_match; [|done]. injection Ht as <-. apply same_ends_refl.
  - intros _. case_match; [|done]. by injection Ht as <-.
  - case_match; [|done]. injection Ht as <-. apply same_ends_refl.
  - intros _. case_match; [|done]. by injection Ht as <-.
Qed.

Lemma turn_ends_step m ts j now t j' :
  streaming j = false → sm_eof (j_streaming j) = false → sm_eof (j_streaming j') = false →
  io_ends m ts (rc_io (j_recorder j)) → turn j now t = Some j' → ends_step m ts j (now, t) j'.
Proof.
  intros Hs He He' H. unfold Job.turn. case_match; [done|]. intros Ht.
  change (ends_step m ts j) with (ends_step m ts (at_time j now)).
  assert (Hk : streaming (at_time j now) = false ∧ sm_eof (j_streaming (at_time j now)) = false ∧
    io_ends m ts (rc_io (j_recorder (at_time j now))) ∧ j_clock (at_time j now) = now) by done.
  set (k := at_time j now) in *. clearbody k. clear dependent j. destruct Hk as (Hs&He&H&Hc).
  assert (Hsel : (match j_phase k with
                  | Looping => loop_top <$> loop_turn from_json to_json k t
                  | Reaping since escalated => reap_turn k since escalated t
                  | Finished _ _ => None
                  end) = Some j' → ends_step m ts k (now, t) j').
  { clear Ht. destruct (j_phase k) as [|since e|] eqn:Ep; [| |done].
    - destruct (loop_turn _ _ k t) as [j1|] eqn:E; [|done]. intros [= <-].
      assert (E1 : loop_top j1 = j1).
      { revert He'. unfold loop_top. destruct (j_phase j1); try done. case_match; [|done].
        cbn. destruct (sm_eof (j_streaming j1)); [done|]. simplify_eq/=. }
      rewrite E1, <- Hc. by apply loop_ends_step.
    - intros E. split.
      + apply io_ends_snoc. destruct t; cbn [reap_turn] in E; unfold guard_job in E; try discriminate E;
          repeat (case_match; try discriminate E); by simplify_eq.
      + rewrite Ep. done. }
  destruct t as [| | | | | | | | | | | |c|m'| |[w|]| | |]; try (by apply Hsel); clear Hsel; unfold guard_job in Ht.
  all: apply ends_step_same; [done|..].
  - injection Ht as <-. apply same_ends_refl.
  - by injection Ht as <-.
  - apply consumer_turn_recorder in Ht as ->. apply same_ends_refl.
  - by apply consumer_turn_phase in Ht as ->.
  - injection Ht as <-. apply same_ends_refl.
  - by injection Ht as <-.
  - injection Ht as <-. apply same_ends_refl.
  - by injection Ht as <-.
  - injection Ht as <-. cbn. destruct (rc_io (j_recorder k)) as [? [] []|]; cbn; try done; destruct w; by intros ??.
  - by injection Ht as <-.
  - case_match; [|done]. injection Ht as <-. cbn. destruct (rc_io (j_recorder k)); by intros ??.
  - case_match; [|done]. by injection Ht as <-.
Qed.

(** The process's death is noticed once, and starts the drain timeout. *)
Definition dead_since (ts : list (N * Turn)) (j : Job) : Prop :=
  j_dead j = true → ∃ t0, (t0, TExit) ∈ ts ∧ j_drain_timeout j = t0 + io_drain_timeout.

Lemma dead_since_turn ts j now t j' :
  streaming j = false → sm_pending (j_streaming j) = None → turn j now t = Some j' →
  dead_since ts j → dead_since (ts ++ [(now, t)]) j'.
Proof.
  intros Hs Hpe Ht H Hd. destruct (turn_phase _ _ _ _ _ _ Ht) as (_&_&_&Hdead).
  destruct (j_dead j) eqn:Ed.
  - destruct (H Ed) as (t0&H0&E0). destruct (Hdead eq_refl) as [_ E]. exists t0.
    rewrite E by done. split; [apply elem_of_app; by left|done].
  - clear H Hdead. destruct (turn_noted _ _ _ _ _ _ Ht) as (_&m&Hn&Hf&_&_&Hdr&_).
    apply frame_eq in Hf as (_&_&_&E&_). rewrite E in Hd.
    destruct Hn; cbn in Hd; try congruence. exists now. split; [apply elem_of_app; right; by apply list_elem_of_singleton|].
    assert (Es : exited (at_time j now) = with_dead (at_time j now) true (now + io_drain_timeout)).
    { unfold exited. change (streaming (at_time j now)) with (streaming j). by rewrite Hs. }
    rewrite Es in Hdr. by destruct (Hdr Hs Hpe) as [-> _].
Qed.

(** Why a job that is not streaming stops reading. *)
Lemma loop_ended_run mode max_fsize t0 stopped ts j :
  mode ≠ StreamOutput → run_job (job_begin mode max_fsize t0 stopped) ts = Some j →
  j_phase j ≠ Looping → loop_ended mode ts.
Proof.
  intros Hm Hr.
  assert (H : io_ends mode ts (rc_io (j_recorder j)) ∧ dead_since ts j ∧ (j_phase j ≠ Looping → loop_ended mode ts));
    [|by destruct H as (_&_&?)].
  revert Hr. apply (run_job_ind _ _ (λ ts j, io_ends mode ts (rc_io (j_recorder j)) ∧ dead_since ts j ∧
    (j_phase j ≠ Looping → loop_ended mode ts))).
  - split_and!; [|done|done]. unfold job_begin, io_open. cbn. by destruct (is_interactive mode) eqn:E; cbn; rewrite ?E.
  - clear ts j. intros ts j now t j' Hr (H1&H2&H3) Ht.
    destruct (run_static _ _ _ _ _ _ Hr) as [Hs _]. rewrite bool_decide_false in Hs by done.
    destruct (timers_ok_run _ _ _ _ _ _ _ _ Hr) as ([_ Hok]&_). destruct (Hok Hs) as [Hpe He].
    assert (Hr' : run_job (job_begin mode max_fsize t0 stopped) (ts ++ [(now, t)]) = Some j')
      by (apply run_job_snoc; eauto).
    destruct (run_static _ _ _ _ _ _ Hr') as [Hs' _]. rewrite bool_decide_false in Hs' by done.
    destruct (timers_ok_run _ _ _ _ _ _ _ _ Hr') as ([_ Hok']&_). destruct (Hok' Hs') as [_ He'].
    destruct (turn_ends_step mode ts _ _ _ _ Hs He He' H1 Ht) as [H4 H5].
    split_and!; [done|exact (dead_since_turn _ _ _ _ _ Hs Hpe Ht H2)|]. intros Hp'.
    destruct (j_phase j) eqn:Ep; [|by apply loop_ended_snoc, H3..].
    destruct (H5 eq_refl) as [|[H6|[H6|(E&Hd&Hle)]]]; [done|by left|by right; left|right; right].
    cbn in E, Hle. subst t. destruct (H2 Hd) as (t1&Ht1&E1). exists t1, now.
    split_and!; [apply elem_of_app; by left|apply elem_of_app; right; by apply list_elem_of_singleton|lia].
Qed.

(** What a job leaves behind. *)
Lemma finished_recorded mode max_fsize t0 stopped buf ts j res out s :
  mode ≠ StreamOutput → max_fsize + buf < 2 ^ 64 → Forall (turn_ok buf) ts →
  run_job (job_begin mode max_fsize t0 stopped) ts = Some j → j_phase j = Finished res out →
  let file := sk_file (sink (j_recorder j) s) in
  out_len s out = N.of_nat (length file) ∧ out_hash s out = hash file ∧
  N.of_nat (length file) <= max_fsize + buf ∧ file `prefix_of` produced s ts ∧
  (file = produced s ts ∧ N.of_nat (length file) <= max_fsize ∨
   ∃ s', res = Err (POutputLimitExceeded s' max_fsize) ∧
     max_fsize < N.of_nat (length (sk_file (sink (j_recorder j) s')))).
Proof.
  intros Hm Hb Hok Hr Hp. destruct (finished_inv _ _ _ _ _ _ _ _ Hr Hp) as [-> Hf].
  destruct (recorded_run _ _ _ _ _ _ _ Hm Hb Hok Hr) as [H1 H2].
  destruct (H2 s) as (A1&A2&A3&A4&A5&A6). cbv zeta. split_and!; [by destruct s| |done|done|].
  - rewrite A1. by destruct s.
  - revert A6. destruct (recording _ s); [by left|]. destruct (rc_fatal (j_recorder j)) as [e|]; [|done].
    intros _. right. destruct (H1 e eq_refl) as (s'&->&Hs'). eauto.
Qed.

(** C18. Recorded output is what was read, and reading goes on to the end. For a
    batch or interactive job none of whose writes to its files fails, none of whose
    playbacks loses its file's position, and none of whose reads returns more than
    [buf] bytes, however its turns interleave: it does not stop reading before every
    stream it has was read to its end (a terminal's, also to its hang-up), unless a
    read failed, or the drain timeout passed since its process was noticed dead.
    When it ends, the announced length and hash of each stream are those of its
    file; the file is a prefix of what was read, and longer than the limit by one
    read at most; and it is all that was read, and within the limit, unless the job
    ended in [OutputLimitExceeded], naming a stream that did exceed it. *)
Theorem output_recorded_exactly mode max_fsize t0 stopped buf ts j res out :
  mode ≠ StreamOutput → max_fsize + buf < 2 ^ 64 → Forall (turn_ok buf) ts →
  run_job (job_begin mode max_fsize t0 stopped) ts = Some j → j_phase j = Finished res out →
  (all_read mode ts ∨ Exists (read_failed mode) ts ∨ drain_expired ts) ∧
  ∀ s, let file := sk_file (sink (j_recorder j) s) in
    out_len s out = N.of_nat (length file) ∧ out_hash s out = hash file ∧
    N.of_nat (length file) <= max_fsize + buf ∧ file `prefix_of` produced s ts ∧
    (file = produced s ts ∧ N.of_nat (length file) <= max_fsize ∨
     ∃ s', res = Err (POutputLimitExceeded s' max_fsize) ∧
       max_fsize < N.of_nat (length (sk_file (sink (j_recorder j) s')))).
Proof.
  intros Hm Hb Hok Hr Hp. split; [eapply loop_ended_run; [done..|congruence]|]. intros s. by eapply finished_recorded.
Qed.

(** From the process to the client's disk.  A client that downloads a stream of
    a finished job in chunks, with the length and hash its status announces,
    ends up with exactly what was read of the process's output, unless the job
    exceeded its limit, and then with a prefix of it. *)
Theorem finished_output_downloads mode max_fsize t0 stopped buf ts j res out s cs order :
  mode ≠ StreamOutput → max_fsize + buf <= 2 ^ 63 → Forall (turn_ok buf) ts →
  run_job (job_begin mode max_fsize t0 stopped) ts = Some j → j_phase j = Finished res out →
  0 < cs → cs <= OUTPUT_THRESHOLD →
  (∀ l, ∃ p, order l = map (λ r, (sk_file (sink (j_recorder j) s), r)) p ∧ p ≡ₚ l) →
  ∃ file, job_output_download (out_len s out) cs (out_hash s out) order = Ok file ∧
    file `prefix_of` produced s ts ∧
    ((∀ s', res ≠ Err (POutputLimitExceeded s' max_fsize)) → file = produced s ts).
Proof.
  intros Hm Hb Hok Hr Hp Hcs Hth Hord.
  assert (Hb' : max_fsize + buf < 2 ^ 64) by (assert (2 ^ 64 = 2 * 2 ^ 63) by done; lia).
  destruct (finished_recorded _ _ _ _ _ _ _ _ _ s Hm Hb' Hok Hr Hp) as (->&->&Hle&Hpre&Hall).
  eexists. split; [apply download_all; [lia|done..]|]. split; [done|].
  intros Hres. destruct Hall as [[-> _]|(s'&E&_)]; [done|]. by destruct (Hres s').
Qed.

(** ** Streamed output *)

Definition sending (c : Consumer) : list (list byte) := match c with CSending b => [b] | _ => [] end.

(** Of the output [h], what the consumer has, what is on its way, and what is
    lost: nothing while the loop runs, and nothing once the output has ended. *)
Definition streamed (h : list byte) (s : Streaming) (p : Phase) : Prop :=
  (sm_eof s = true → sm_pending s = None) ∧
  match sm_consumer s with
  | CGone clean =>
    ∃ lost, h = concat (sm_delivered s) ++ lost ∧
      (clean = true → (∃ res out, p = Finished res out) ∧ (sm_eof s = true → lost = []))
  | c =>
    ∃ lost, h = concat (sm_delivered s ++ sending c ++ option_list (sm_output s)) ++ default [] (sm_pending s) ++ lost ∧
      (p = Looping → lost = []) ∧ (p ≠ Looping → sm_pending s = None) ∧ (sm_eof s = true → lost = [])
  end.

Definition hashed (j : Job) : list byte := inner (sk_hasher (rc_stdout (j_recorder j))).
Definition streamed_job (j : Job) : Prop := streamed (hashed j) (j_streaming j) (j_phase j).

Ltac gone_case H :=
  let lost := fresh "lost" in let E := fresh "E" in let Hc := fresh "Hc" in
  destruct H as (lost&E&Hc); exists lost; split; [exact E|]; intros ->; destruct (Hc eq_refl) as [[? [? ?]] ?].

Lemma streamed_break j : j_phase j = Looping → streamed_job j → streamed_job (break j).
Proof.
  unfold streamed_job, streamed, hashed. intros Hp [He H]. rewrite Hp in H. cbn. split; [done|].
  destruct (sm_consumer (j_streaming j)) as [| |b|clean] eqn:Ec; [..|by gone_case H].
  all: destruct H as (lost&E&Hl&_&_); rewrite Hl, app_nil_r in E by done.
  all: destruct (sm_pending (j_streaming j)) as [buf|] eqn:Ep; cbn in E |- *;
    [|exists []; rewrite !app_nil_r in *; split_and!; done].
  all: destruct (sm_output (j_streaming j)) as [b'|] eqn:Eo; cbn in E |- *.
  all: try (exists buf; rewrite E, ?app_nil_r; split_and!; try done; intros Hx; by specialize (He Hx)).
  all: exists []; rewrite E, !concat_app; cbn; rewrite ?app_nil_r, <- ?app_assoc; by split_and!.
Qed.

Lemma streamed_same j j' :
  hashed j' = hashed j → j_streaming j' = j_streaming j → j_phase j' = j_phase j → streamed_job j → streamed_job j'.
Proof. unfold streamed_job. by intros -> -> ->. Qed.

Lemma streamed_eof j linger : j_phase j = Looping → sm_pending (j_streaming j) = None →
  streamed_job j → streamed_job (with_streaming j (with_eof (j_streaming j) linger)).
Proof.
  unfold streamed_job, streamed, hashed. cbn. intros Hp Hpe [_ H]. rewrite Hp, Hpe in *. split; [done|].
  destruct (sm_consumer (j_streaming j)); [..|by gone_case H].
  all: destruct H as (lost&E&Hl&_); exists lost; by split_and!; auto.
Qed.

Lemma streamed_chunk j j' buf :
  j_phase j = Looping → sm_pending (j_streaming j) = None → sm_eof (j_streaming j) = false →
  hashed j' = hashed j ++ buf → j_streaming j' = with_pending (j_streaming j) (Some buf) → j_phase j' = Looping →
  streamed_job j → streamed_job j'.
Proof.
  unfold streamed_job, streamed. intros Hp Hpe He -> -> ->. cbn. rewrite Hp, Hpe, He. intros [_ H].
  split; [done|]. destruct (sm_consumer (j_streaming j)); cbn in *.
  4: { destruct H as (lost&->&Hc). exists (lost ++ buf). rewrite app_assoc. split; [done|].
       intros ->. by destruct (Hc eq_refl) as [(?&?&?) _]. }
  all: destruct H as (lost&E&Hl&_); rewrite (Hl eq_refl), app_nil_r in E; exists []; rewrite E, app_nil_r; by split_and!.
Qed.

Lemma streamed_output j read failed :
  streaming j = true → j_phase j = Looping → sm_pending (j_streaming j) = None → sm_eof (j_streaming j) = false →
  streamed_job j →
  streamed_job (on_output j read failed) ∧
  hashed (on_output j read failed) =
    hashed j ++ match read with Ok (b :: bytes, Stdout) => b :: bytes | _ => [] end.
Proof.
  intros Hs Hp Hpe He H. unfold on_output.
  destruct read as [[[|b buf] s]|e]; rewrite Hs;
    [split; [by apply streamed_eof|by rewrite app_nil_r]| |split; [by apply streamed_eof|by rewrite app_nil_r]].
  rewrite andb_true_r. set (j1 := if j_dead j then _ else j).
  assert (H1 : j_recorder j1 = j_recorder j ∧ j_streaming j1 = j_streaming j ∧ j_phase j1 = j_phase j ∧
               streaming j1 = streaming j) by (subst j1; by destruct (j_dead j)).
  clearbody j1. destruct H1 as (E1&E2&E3&E4). rewrite E4, Hs, andb_true_r.
  destruct s; cbn [bool_decide decide_rel].
  - rewrite bool_decide_true by done. split.
    + eapply (streamed_chunk j _ (b :: buf)); try done; cbn; rewrite ?E2, ?E3; try done.
      unfold hashed. cbn. by rewrite E1.
    + unfold hashed. cbn. by rewrite E1.
  - rewrite bool_decide_false by done. destruct (record_chunk _ _ _ _ _) as [rc stop] eqn:Er.
    assert (Hh : sk_hasher (rc_stdout rc) = sk_hasher (rc_stdout (j_recorder j))).
    { unfold record_chunk in Er. injection Er as <- _. cbn. by rewrite E1. }
    set (j2 := relay_data _ _).
    assert (H2 : hashed j2 = hashed j ∧ j_streaming j2 = j_streaming j ∧ j_phase j2 = j_phase j).
    { unfold hashed. subst j2. rewrite relay_data_recorder, stop_if_recorder. cbn. rewrite Hh.
      unfold relay_data. case_match; by destruct stop. }
    destruct H2 as (F1&F2&F3). split; [by eapply streamed_same|]. by rewrite F1, app_nil_r.
Qed.

Lemma streamed_permit j j' :
  on_permit j = Some j' → streamed_job j → streamed_job j' ∧ hashed j' = hashed j.
Proof.
  unfold on_permit, streamed_job, streamed. intros Hj [He H].
  destruct (sm_pending (j_streaming j)) as [buf|] eqn:Ep; [|done].
  assert (Hn : sm_eof (j_streaming j) = false).
  { destruct (sm_eof (j_streaming j)); [|done]. by specialize (He eq_refl). }
  rewrite Hn in *. destruct (sm_consumer (j_streaming j)) as [| |b|clean] eqn:Ec;
    destruct (sm_output (j_streaming j)) eqn:Eo; simplify_eq/=; try done.
  4-5: split; [|done]; rewrite Hn, Ec; split; [done|]; destruct H as (lost&E&Hc); by exists lost.
  all: destruct H as (lost&E&Hl&Hpp&_).
  all: match goal with |- context [hashed ?x] => assert (Hh : hashed x = hashed j) by (unfold hashed; by destruct (j_dead j)) end.
  all: rewrite Hh; split; [|done]; split; [done|]; exists lost.
  all: assert (Hph : ∀ x, j_phase (with_streaming (if j_dead j then x else j) (j_streaming j)) = j_phase j ∨ True) by auto.
  all: rewrite E, !concat_app; cbn; rewrite ?app_nil_r, <- ?app_assoc; split_and!; try done; by destruct (j_dead j).
Qed.

Lemma streamed_consumer j t j' :
  consumer_turn j t = Some j' → streamed_job j → streamed_job j' ∧ hashed j' = hashed j.
Proof.
  unfold consumer_turn, streamed_job, streamed, hashed. intros Hj [He H].
  destruct t as [| |delivered|], (sm_consumer (j_streaming j)) as [| |b|clean] eqn:Ec; try done.
  - case_match; simplify_eq/=. done.
  - destruct (sm_output (j_streaming j)) as [buf|] eqn:Eo; simplify_eq/=. split; [|done]. split; [done|].
    destruct H as (lost&E&H). exists lost. by rewrite E.
  - by destruct delivered.
  - by destruct delivered.
  - destruct delivered; simplify_eq/=; (split; [|done]); (split; [done|]); destruct H as (lost&E&H).
    + exists lost. rewrite E. split; [|done]. by rewrite <- app_assoc.
    + eexists. split; [|done]. rewrite E, !concat_app, <- !app_assoc. done.
  - by destruct delivered.
  - case_match; simplify_eq/=. split; [|done]. split; [done|]. destruct H as (lost&E&H).
    eexists. split; [|done]. rewrite E, !concat_app, <- !app_assoc. done.
  - destruct (j_phase j) eqn:Ep, (sm_output (j_streaming j)) eqn:Eo; simplify_eq/=.
    split; [|done]. split; [done|]. destruct H as (lost&E&_&Hpe&Hl). rewrite Hpe in E by done.
    exists lost. rewrite E, app_nil_r. split; [done|]. intros _. split; [by do 2 eexists|done].
Qed.

Lemma streamed_client j a w p :
  streaming j = true → streamed_job j →
  streamed_job (on_client to_json j a w p) ∧ hashed (on_client to_json j a w p) = hashed j.
Proof. unfold on_client. intros -> H. by case_match. Qed.

Lemma streamed_message j id m :
  streamed_job j →
  streamed_job (on_message from_json to_json j id m) ∧ hashed (on_message from_json to_json j id m) = hashed j.
Proof. unfold on_message. intros H. repeat (case_match; try done). Qed.

Lemma streamed_loop_top j :
  streamed_job j → streamed_job (loop_top j) ∧ hashed (loop_top j) = hashed j.
Proof. unfold loop_top. intros H. repeat (case_match; try done). split; [by apply streamed_break|done]. Qed.

(** Pipes whose standard output is recorded. *)
Definition piped (io : JobIo) : bool := match io with IoBatch out _ => ss_rec out | IoInteractive _ _ _ _ => false end.
Definition stdout_piped (j : Job) : Prop := piped (rc_io (j_recorder j)) = true.

Lemma piped_read io s r io' read : read_output io s r = (io', read) → piped io' = piped io.
Proof.
  destruct io as [|out err]; cbn; [by case_match; intros [= <- _]|].
  destruct s, r as [[|b bytes]|e]; cbn; by intros [= <- _].
Qed.

Lemma piped_recording io : piped io = true → recording io Stdout = true.
Proof. by destruct io. Qed.

Lemma piped_output j read failed :
  streaming j = true → stdout_piped j → stdout_piped (on_output j read failed).
Proof.
  unfold stdout_piped. intros Hs Hp. unfold on_output. destruct read as [[[|b buf] s]|e]; rewrite Hs; [done| |done].
  rewrite andb_true_r. set (j1 := if j_dead j then _ else j).
  assert (H1 : j_recorder j1 = j_recorder j ∧ streaming j1 = true) by (subst j1; by destruct (j_dead j)).
  clearbody j1. destruct H1 as [E1 ->]. rewrite andb_true_r. destruct s.
  - rewrite bool_decide_true by done. cbn. by rewrite E1.
  - rewrite bool_decide_false by done. destruct (record_chunk _ _ _ _ _) as [rc stop] eqn:Er.
    rewrite relay_data_recorder, stop_if_recorder. cbn. injection Er as <- _. cbn. rewrite E1.
    case_match; [|done]. by destruct (rc_io (j_recorder j)).
Qed.

(** A turn of a streaming job: what it hashes is what it read. *)
Definition stream_step (j : Job) (t : N * Turn) (j' : Job) : Prop :=
  stdout_piped j' ∧ streamed_job j' ∧ hashed j' = hashed j ++ default [] (produced_chunk Stdout t).

Lemma stream_step_same j t j' :
  (∀ s bytes f, t.2 ≠ TRead s (Ok bytes) f) → stdout_piped j' → streamed_job j' ∧ hashed j' = hashed j →
  stream_step j t j'.
Proof.
  intros Ht Hp [Hs Hh]. split_and!; [done|done|]. unfold produced_chunk. destruct t as [now t]. cbn in *.
  rewrite Hh. destruct t; cbn; rewrite ?app_nil_r; try done. destruct r; [by edestruct Ht|by rewrite app_nil_r].
Qed.

Lemma unrecorded_piped j j' : stdout_piped j → j_recorder j' = j_recorder j → stdout_piped j'.
Proof. unfold stdout_piped. by intros ? ->. Qed.

Lemma client_piped j a w p : stdout_piped j → stdout_piped (on_client to_json j a w p).
Proof.
  unfold on_client. destruct (streaming j); [intros; by case_match|].
  cbv zeta. destruct p as [|[pos|]]; [destruct (sk_file _)|..]; done.
Qed.

Lemma message_piped j id m : stdout_piped j → stdout_piped (on_message from_json to_json j id m).
Proof.
  unfold on_message, stdout_piped. intros H. repeat (case_match; try done). cbn. by destruct (rc_io (j_recorder j)).
Qed.

Lemma read_stream_step j now src r failed io read :
  streaming j = true → j_phase j = Looping → stdout_piped j → streamed_job j →
  sm_pending (j_streaming j) = None → sm_eof (j_streaming j) = false →
  readable (rc_io (j_recorder j)) src = true → read_output (rc_io (j_recorder j)) src r = (io, read) →
  stream_step j (now, TRead src r failed)
    match read with Some read => on_output (with_io j io) read failed | None => with_io j io end.
Proof.
  intros Hs Hp Hpi H Hpe He Hr Ho. destruct (read_output_spec _ _ _ _ _ Hr Ho) as (_&_&Hread).
  pose proof (piped_read _ _ _ _ _ Ho) as Hio. unfold stdout_piped in Hpi. rewrite Hpi in Hio.
  assert (H' : streamed_job (with_io j io)) by done.
  assert (Hh : hashed (with_io j io) = hashed j) by done.
  destruct read as [read|].
  - destruct (streamed_output (with_io j io) read failed Hs Hp Hpe He H') as [H1 H2].
    split; [by apply piped_output|]. split; [done|]. rewrite H2, Hh. f_equal. unfold produced_chunk. cbn.
    destruct r as [[|b bytes]|e].
    + destruct Hread as [|[= ->]]; [done|]. by case_match.
    + destruct src; [rewrite (piped_recording _ Hpi) in Hread; by injection Hread as ->|].
      rewrite bool_decide_false by done. revert Hread. destruct (recording _ Stderr); intros Hread.
      { by injection Hread as ->. }
      destruct Hread as [|Hread]; [done|]. by injection Hread as ->.
    + destruct Hread as [[= ->]|[e' [= ->]]]; done.
  - split_and!; [done|done|]. unfold produced_chunk. cbn. rewrite Hh. destruct r as [[|b bytes]|e].
    + case_match; by rewrite app_nil_r.
    + destruct src; [by rewrite (piped_recording _ Hpi) in Hread|].
      rewrite bool_decide_false by done. by rewrite app_nil_r.
    + by rewrite app_nil_r.
Qed.

Lemma loop_stream_step j now t j' :
  streaming j = true → j_phase j = Looping → stdout_piped j → streamed_job j →
  loop_turn from_json to_json j t = Some j' → stream_step j (now, t) j'.
Proof.
  intros Hs Hp Hpi H Ht. destruct t; cbn [loop_turn] in Ht; unfold guard_job in Ht; try discriminate Ht.
  { destruct (_ && _ && _) eqn:E in Ht; [|done].
    apply andb_prop in E as [[E1%bool_decide_eq_true E2%negb_true_iff]%andb_prop E3].
    destruct (read_output _ _ _) as [io read] eqn:Er. injection Ht as <-. by apply read_stream_step. }
  all: apply stream_step_same; [done|..].
  - eapply unrecorded_piped; [done|by eapply on_permit_recorder].
  - by apply streamed_permit.
  - case_match; [|done]. injection Ht as <-. by apply client_piped.
  - case_match; [|done]. injection Ht as <-. by apply streamed_client.
  - case_match; [|done]. injection Ht as <-. by apply message_piped.
  - case_match; [|done]. injection Ht as <-. by apply streamed_message.
  - by case_match; simplify_eq.
  - by case_match; simplify_eq.
  - by case_match; simplify_eq.
  - by case_match; simplify_eq.
  - rewrite Hs in Ht. by case_match; simplify_eq.
  - rewrite Hs in Ht. by case_match; simplify_eq.
  - by case_match; simplify_eq.
  - case_match; simplify_eq. split; [by apply streamed_break|done].
  - by case_match; simplify_eq.
  - case_match; simplify_eq. split; [by apply streamed_break|done].
  - by case_match; simplify_eq.
  - case_match; simplify_eq. split; [by apply streamed_break|done].
  - by case_match; simplify_eq.
  - case_match; simplify_eq. split; [by apply streamed_break|done].
Qed.

Lemma reap_stream_step j now since e t j' :
  j_phase j = Reaping since e → stdout_piped j → streamed_job j → reap_turn j since e t = Some j' →
  stream_step j (now, t) j'.
Proof.
  intros Hp Hpi H Ht.
  assert (Hs : ∀ j' res out, hashed j' = hashed j → j_streaming j' = j_streaming j →
            j_phase j' = Finished res out → streamed_job j').
  { unfold streamed_job, streamed in *. rewrite Hp in H. intros j1 res out -> -> ->. destruct H as [He H].
    split; [done|]. destruct (sm_consumer (j_streaming j)); [..|by gone_case H];
      destruct H as (lost&E&_&H1&H2); exists lost; by split_and!; auto. }
  assert (Hr : ∀ j' since', hashed j' = hashed j → j_streaming j' = j_streaming j →
            j_phase j' = Reaping since' true → streamed_job j').
  { unfold streamed_job, streamed in *. rewrite Hp in H. intros j1 since' -> -> ->. destruct H as [He H].
    split; [done|]. destruct (sm_consumer (j_streaming j)); [..|by gone_case H];
      destruct H as (lost&E&_&H1&H2); exists lost; by split_and!; auto. }
  destruct t; cbn [reap_turn] in Ht; unfold guard_job in Ht; try discriminate Ht;
    (apply stream_step_same; [done|..]); repeat (case_match; try discriminate Ht); simplify_eq; try done.
  - split; [by eapply Hs|done].
  - split; [by eapply Hr|done].
  - split; [by eapply Hr|done].
Qed.

Lemma turn_stream_step j now t j' :
  streaming j = true → stdout_piped j → streamed_job j → turn j now t = Some j' → stream_step j (now, t) j'.
Proof.
  intros Hs Hpi H. unfold Job.turn. case_match; [done|]. intros Ht.
  change (stream_step j) with (stream_step (at_time j now)).
  assert (Hsk : streaming (at_time j now) = true) by done.
  assert (Hpk : stdout_piped (at_time j now)) by done.
  assert (Hk : streamed_job (at_time j now)) by done.
  set (k := at_time j now) in *. clearbody k. clear dependent j.
  assert (Hsel : (match j_phase k with
                  | Looping => loop_top <$> loop_turn from_json to_json k t
                  | Reaping since escalated => reap_turn k since escalated t
                  | Finished _ _ => None
                  end) = Some j' → stream_step k (now, t) j').
  { clear Ht. destruct (j_phase k) as [|since e|] eqn:Ep; [| |done].
    - destruct (loop_turn _ _ k t) as [j1|] eqn:E; [|done]. intros [= <-].
      destruct (loop_stream_step _ now _ _ Hsk Ep Hpk Hk E) as (H1&H2&H3).
      destruct (streamed_loop_top _ H2) as [H4 H5]. split_and!; [|done|by rewrite H5].
      eapply unrecorded_piped; [done|apply loop_top_recorder].
    - by eapply reap_stream_step. }
  destruct t as [| | | | | | | | | | | |c|m| |[w|]| | |]; try (by apply Hsel); clear Hsel; unfold guard_job in Ht.
  all: apply stream_step_same; [done|..].
  1,5,7: by injection Ht as <-.
  1,4,5: by injection Ht as <-.
  - eapply unrecorded_piped; [done|by eapply consumer_turn_recorder].
  - by eapply streamed_consumer.
  - injection Ht as <-. unfold stdout_piped in *. cbn. by destruct (rc_io (j_recorder k)).
  - by injection Ht as <-.
  - case_match; simplify_eq. unfold stdout_piped in *. cbn. by destruct (rc_io (j_recorder k)).
  - by case_match; simplify_eq.
Qed.

Lemma streamed_run max_fsize t0 stopped ts j :
  run_job (job_begin StreamOutput max_fsize t0 stopped) ts = Some j →
  stdout_piped j ∧ streamed_job j ∧ hashed j = produced Stdout ts.
Proof.
  apply (run_job_ind _ _ (λ ts j, stdout_piped j ∧ streamed_job j ∧ hashed j = produced Stdout ts)).
  - split_and!; [done| |done]. split; [done|]. cbn. by exists [].
  - clear. intros ts j now t j' Hr (H1&H2&H3) Ht. destruct (run_static _ _ _ _ _ _ Hr) as [Hs _].
    rewrite bool_decide_true in Hs by done.
    destruct (turn_stream_step _ _ _ _ Hs H1 H2 Ht) as (H4&H5&H6). split_and!; [done..|].
    by rewrite H6, H3, produced_snoc.
Qed.

(** ** What the hasher of the output counts *)

Definition out_hasher (j : Job) : Hasher := sk_hasher (rc_stdout (j_recorder j)).
Definition hashes_on (j j' : Job) : Prop :=
  out_hasher j' = out_hasher j ∨ ∃ bytes, out_hasher j' = update (out_hasher j) bytes.

Lemma hashes_on_recorder j j' : j_recorder j' = j_recorder j → hashes_on j j'.
Proof. unfold hashes_on, out_hasher. intros ->. by left. Qed.

Lemma hashes_on_output j read failed : hashes_on j (on_output j read failed).
Proof.
  unfold on_output. destruct read as [[[|b buf] s]|e]; [by left; case_match| |by left; case_match].
  set (j1 := if j_dead j && streaming j then _ else j).
  assert (E1 : j_recorder j1 = j_recorder j) by (subst j1; by case_match). clearbody j1.
  unfold hashes_on, out_hasher. rewrite <- E1. case_match; [right; by eexists|].
  destruct (record_chunk _ _ _ _ _) as [rc stop] eqn:Er. rewrite relay_data_recorder, stop_if_recorder. cbn.
  injection Er as <- _. destruct s; [right; by eexists|by left].
Qed.

Lemma hashes_on_client j a w p : hashes_on j (on_client to_json j a w p).
Proof.
  unfold on_client. destruct (streaming j); [left; by case_match|]. cbv zeta.
  destruct p as [|[pos|]]; [destruct (sk_file _)|..]; by left.
Qed.

Lemma hashes_on_message j id m : hashes_on j (on_message from_json to_json j id m).
Proof. unfold on_message. by repeat (case_match; try by left). Qed.

Lemma hashes_on_loop j t j' : loop_turn from_json to_json j t = Some j' → hashes_on j j'.
Proof.
  intros Ht. destruct t; cbn [loop_turn] in Ht; unfold guard_job in Ht; try discriminate Ht.
  1: { destruct (_ && _ && _); [|done]. destruct (read_output _ _ _) as [io read]. injection Ht as <-.
       destruct read; [apply (hashes_on_output (with_io j io))|by left]. }
  1: by apply hashes_on_recorder, on_permit_recorder.
  all: case_match; [|done]; injection Ht as <-; try by left.
  - apply hashes_on_client.
  - apply hashes_on_message.
  - apply hashes_on_recorder. by case_match.
Qed.

Lemma hashes_on_turn j now t j' : turn j now t = Some j' → hashes_on j j'.
Proof.
  unfold Job.turn. case_match; [done|]. intros Ht. change (hashes_on j) with (hashes_on (at_time j now)).
  set (k := at_time j now) in *. clearbody k. clear dependent j.
  assert (Hsel : (match j_phase k with
                  | Looping => loop_top <$> loop_turn from_json to_json k t
                  | Reaping since escalated => reap_turn k since escalated t
                  | Finished _ _ => None
                  end) = Some j' → hashes_on k j').
  { clear Ht. destruct (j_phase k) as [|since e|]; [| |done].
    - destruct (loop_turn _ _ k t) as [j1|] eqn:E; [|done]. intros [= <-].
      unfold hashes_on, out_hasher. rewrite loop_top_recorder. by apply hashes_on_loop in E.
    - intros E. destruct t; cbn [reap_turn] in E; unfold guard_job in E; try discriminate E;
        repeat (case_match; try discriminate E); simplify_eq; by left. }
  destruct t as [| | | | | | | | | | | |c|m| |[w|]| | |]; try (by apply Hsel); clear Hsel; unfold guard_job in Ht.
  1,3-5: injection Ht as <-; by left.
  - by apply hashes_on_recorder, consumer_turn_recorder with c.
  - case_match; [|done]. injection Ht as <-. by left.
Qed.

(** The count is the length, in 64 bits. *)
Lemma streamed_count mode max_fsize t0 stopped ts j :
  run_job (job_begin mode max_fsize t0 stopped) ts = Some j →
  count (out_hasher j) = N.of_nat (length (inner (out_hasher j))) mod 2 ^ 64.
Proof.
  apply (run_job_ind _ _ (λ _ j, count (out_hasher j) = N.of_nat (length (inner (out_hasher j))) mod 2 ^ 64)); [done|].
  clear. intros _ j now t j' _ H [->|[bytes ->]]%hashes_on_turn; [done|]. cbn [update count inner].
  rewrite H, length_app, Nat2N.inj_add, N.Div0.add_mod_idemp_l. done.
Qed.

(** A streamed output has no gaps.  What the consumer of a streaming job has
    received is at any time a prefix of what was read of the process; and a consumer
    whose stream is closed properly, the output having ended, has received all
    of it, and it hashes as the job's status announces. *)
Theorem streamed_output_exact max_fsize t0 stopped ts j :
  run_job (job_begin StreamOutput max_fsize t0 stopped) ts = Some j →
  let s := j_streaming j in
  concat (sm_delivered s) `prefix_of` produced Stdout ts ∧
  (sm_consumer s = CGone true → sm_eof s = true →
   concat (sm_delivered s) = produced Stdout ts ∧
   ∃ res out, j_phase j = Finished res out ∧ stdout_hash out = hash (concat (sm_delivered s))).
Proof.
  intros Hr. destruct (streamed_run _ _ _ _ _ Hr) as (_&[_ H]&Hh). cbv zeta. rewrite <- Hh. split.
  - destruct (sm_consumer (j_streaming j)) as [| |b|clean]; destruct H as (lost&->&_);
      rewrite ?concat_app, <- ?app_assoc; apply prefix_app_r; done.
  - intros Hc He. rewrite Hc in H. destruct H as (lost&E&Hl). destruct (Hl eq_refl) as [(res&out&Hp) Hlost].
    rewrite (Hlost He), app_nil_r in E. split; [done|]. exists res, out. split; [done|].
    destruct (finished_inv _ _ _ _ _ _ _ _ Hr Hp) as [-> _]. cbn. by rewrite <- E.
Qed.
End facts.
