(* ===== verification/JobClients.v ===== *)
(** * Who types into a job's terminal

    Over any run of [Job.v], what reaches an interactive job's terminal was sent
    by clients attached with write access. *)
From S2P Require Import Prelude External Hash Codephrases Jobs Manager Output Download JobIo Job JobFacts JobOutput.
Open Scope N_scope.

(** The accesses of the clients that attached, in order, and what was sent by
    those that may write. *)
Definition note_input (acc : list Access * list (list byte)) (t : N * Turn) : list Access * list (list byte) :=
  match t.2 with
  | TClient a _ _ => (acc.1 ++ [a], acc.2)
  | TMessage id (Ok (WsBinary b)) =>
    (acc.1, if bool_decide (is_read_write <$> acc.1 !! N.to_nat id = Some true) then acc.2 ++ [b] else acc.2)
  | _ => acc
  end.
Definition writers_input (ts : list (N * Turn)) : list Access * list (list byte) :=
  foldl note_input ([], []) ts.

(** ** Clients *)

(** Clients are numbered as they attach, and those that are read keep the access
    they attached with. *)
Definition mux_ok (seen : list Access) (m : WebSocketMux) : Prop :=
  next_client_id m = N.of_nat (length seen) ∧
  ∀ id, id ∈ mx_recv m → ∃ a, mx_access m !! id = Some a ∧ seen !! N.to_nat id = Some a.

Lemma mux_ok_new : mux_ok [] mux_new.
Proof. split; [done|]. set_solver. Qed.

Lemma mux_ok_add seen m a initial : mux_ok seen m → mux_ok (seen ++ [a]) (mux_add m a initial).
Proof.
  intros [Hn H]. split; [cbn; rewrite Hn, length_app; cbn; lia|]. cbn. intros id Hid.
  destruct (decide (id = next_client_id m)) as [->|Hne].
  - exists a. rewrite lookup_insert_eq, Hn, Nat2N.id. split; [done|]. by apply list_lookup_middle.
  - destruct (H id) as (a'&E1&E2); [set_solver|]. exists a'. rewrite lookup_insert_ne by done.
    split; [done|]. by apply lookup_app_l_Some.
Qed.

Lemma mux_ok_remove seen m id : mux_ok seen m → mux_ok seen (mux_remove m id).
Proof.
  intros [Hn H]. split; [done|]. cbn. intros id' Hid. destruct (H id') as (a&E1&E2); [set_solver|].
  exists a. rewrite lookup_delete_ne by set_solver. done.
Qed.

Lemma mux_ok_turn seen m t : mux_ok seen m → mux_ok seen (mux_turn m t).
Proof. intros [Hn H]. destruct t; (split; [done|]); cbn; intros id' Hid; apply H; set_solver. Qed.

Lemma mux_ok_reap seen m : mux_ok seen m → mux_ok seen (mux_reap m).
Proof.
  intros [Hn H]. split; [done|]. cbn. intros id Hid. destruct (H id) as (a&E1&E2); [set_solver|].
  exists a. split; [|done]. apply map_lookup_filter_Some. split; [done|]. cbn. set_solver.
Qed.

(** ** The terminal *)

Lemma accepted_stop_recording io s : accepted (stop_recording io s) = accepted io.
Proof. by destruct io, s. Qed.

Lemma accepted_write io b :
  accepted (write_input io b) = accepted io ∨ accepted (write_input io b) = accepted io ++ [b].
Proof.
  destruct io; cbn; [|by left]. case_match; cbn; [|by left]. right. by rewrite app_assoc.
Qed.

Lemma accepted_relay io w : accepted (relay_write io w) `sublist_of` accepted io.
Proof.
  destruct io as [pty [|b input] [] typed|]; cbn; try done. destruct w; cbn.
  - by rewrite <- app_assoc.
  - rewrite app_nil_r. by apply sublist_inserts_r.
Qed.

Lemma accepted_relay_stop io : accepted (relay_stop io) `sublist_of` accepted io.
Proof. destruct io; cbn; [|done]. rewrite app_nil_r. by apply sublist_inserts_r. Qed.

Section facts.
Context {Isha : Sha3}.
Variables (from_json : string → result InteractiveJobControl string)
  (to_json : InteractiveJobControl → result string string).

Local Abbreviation turn := (turn from_json to_json).
Local Abbreviation run_job := (run_job from_json to_json).

Definition typed_ok (acc : list Access * list (list byte)) (j : Job) : Prop :=
  mux_ok acc.1 (j_clients j) ∧ accepted (rc_io (j_recorder j)) `sublist_of` acc.2.

(** Neither clients nor the terminal's input changed, but for what clients are
    sent. *)
Definition same_input (j j' : Job) : Prop :=
  next_client_id (j_clients j') = next_client_id (j_clients j) ∧
  mx_recv (j_clients j') = mx_recv (j_clients j) ∧ mx_access (j_clients j') = mx_access (j_clients j) ∧
  accepted (rc_io (j_recorder j')) = accepted (rc_io (j_recorder j)).

Lemma typed_same acc j j' : same_input j j' → typed_ok acc j → typed_ok acc j'.
Proof.
  intros (E1&E2&E3&E4) [[Hn H] Ha]. split; [|by rewrite E4]. split; [by rewrite E1|]. by rewrite E2, E3.
Qed.

Lemma same_refl j : same_input j j.
Proof. done. Qed.

Lemma same_output j read failed : same_input j (on_output j read failed).
Proof.
  unfold on_output. destruct read as [[[|b buf] s]|e]; [by case_match| |by case_match].
  set (j1 := if j_dead j && streaming j then _ else j).
  assert (H1 : j_recorder j1 = j_recorder j ∧ j_clients j1 = j_clients j) by (subst j1; by case_match).
  clearbody j1. destruct H1 as [E1 E2]. case_match.
  - unfold same_input. cbn. by rewrite E1, E2.
  - destruct (record_chunk _ _ _ _ _) as [rc stop] eqn:Er.
    assert (Hio : accepted (rc_io rc) = accepted (rc_io (j_recorder j))).
    { unfold record_chunk in Er. injection Er as <- _. cbn. rewrite E1. case_match; [apply accepted_stop_recording|done]. }
    unfold same_input, relay_data. case_match; destruct stop; cbn; by rewrite ?E2, Hio.
Qed.

Lemma same_permit j j' : on_permit j = Some j' → same_input j j'.
Proof. unfold on_permit. intros H. repeat (case_match; simplify_eq/=; try done). Qed.

Lemma same_consumer j t j' : consumer_turn j t = Some j' → same_input j j'.
Proof. unfold consumer_turn. intros H. repeat (case_match; simplify_eq/=; try done). Qed.

Lemma same_loop_top j : same_input j (loop_top j).
Proof. unfold loop_top. repeat case_match; done. Qed.

Lemma typed_client acc j a w p :
  streaming j = false → typed_ok acc j → typed_ok (acc.1 ++ [a], acc.2) (on_client to_json j a w p).
Proof.
  unfold on_client. intros -> [Hm Ha]. cbv zeta.
  destruct p as [|[pos|]]; [destruct (sk_file _)|..]; (split; [by apply mux_ok_add|done]).
Qed.

Lemma typed_message acc j now id m :
  id ∈ mx_recv (j_clients j) → typed_ok acc j →
  typed_ok (note_input acc (now, TMessage id m)) (on_message from_json to_json j id m).
Proof.
  intros Hid [Hm Ha]. destruct (proj2 Hm id Hid) as (a&Eacc&Eseen).
  assert (Hgone : typed_ok acc (with_clients j (mux_remove (j_clients j) id))).
  { split; [by apply mux_ok_remove|done]. }
  unfold note_input, on_message, mux_access. cbn. rewrite Eacc, Eseen. destruct m as [[text|b| |]|e]; cbn; [..|done].
  - destruct (from_json text) as [[size]|]; cbn; [|done]. destruct a; cbn; [done|].
    by destruct (to_json _).
  - destruct a; cbn; [done|]. split; [done|]. cbn.
    destruct (accepted_write (rc_io (j_recorder j)) b) as [->| ->]; [by apply sublist_inserts_r|].
    by apply sublist_app.
  - by destruct a.
  - by destruct a.
Qed.

Lemma typed_loop_turn acc j now t j' :
  streaming j = false → typed_ok acc j → loop_turn from_json to_json j t = Some j' →
  typed_ok (note_input acc (now, t)) j'.
Proof.
  intros Hs H Ht. destruct t; cbn [loop_turn] in Ht; unfold guard_job in Ht; try discriminate Ht.
  3: case_match; [|done]; injection Ht as <-; by apply typed_client.
  3: { destruct (_ && _) eqn:E in Ht; [|done]. injection Ht as <-.
       apply andb_prop in E as [_ E%bool_decide_eq_true]. by apply typed_message. }
  all: eapply typed_same; [|exact H].
  - destruct (_ && _ && _) eqn:E in Ht; [|done]. apply andb_prop in E as [_ E].
    destruct (read_output _ _ _) as [io read] eqn:Er. injection Ht as <-.
    destruct (read_output_spec _ _ _ _ _ E Er) as (_&Ea&_).
    assert (Hio : same_input j (with_io j io)) by done.
    destruct read; [|done].
    destruct (same_output (with_io j io) r0 failed) as (E1&E2&E3&E4). unfold same_input.
    by rewrite E1, E2, E3, E4.
  - by apply same_permit.
  - by case_match; simplify_eq.
  - by case_match; simplify_eq.
  - rewrite Hs in Ht. by case_match; simplify_eq.
  - by case_match; simplify_eq.
  - by case_match; simplify_eq.
  - by case_match; simplify_eq.
  - by case_match; simplify_eq.
Qed.

Lemma typed_turn acc j now t j' :
  streaming j = false → typed_ok acc j → turn j now t = Some j' → typed_ok (note_input acc (now, t)) j'.
Proof.
  intros Hs H. unfold Job.turn. case_match; [done|]. intros Ht.
  assert (Hsk : streaming (at_time j now) = false) by done.
  assert (Hk : typed_ok acc (at_time j now)) by done.
  set (k := at_time j now) in *. clearbody k. clear dependent j.
  assert (Hsel : (match j_phase k with
                  | Looping => loop_top <$> loop_turn from_json to_json k t
                  | Reaping since escalated => reap_turn k since escalated t
                  | Finished _ _ => None
                  end) = Some j' → typed_ok (note_input acc (now, t)) j').
  { clear Ht. destruct (j_phase k) as [|since e|] eqn:Ep; [| |done].
    - destruct (loop_turn _ _ k t) as [j1|] eqn:E; [|done]. intros [= <-].
      eapply typed_same; [apply same_loop_top|]. by eapply typed_loop_turn.
    - intros E. destruct t; cbn [reap_turn] in E; unfold guard_job in E; try discriminate E;
        repeat (case_match; try discriminate E); by simplify_eq. }
  destruct t as [| | | | | | | | | | | |c|m| |[w|]| | |]; try (by apply Hsel); clear Hsel; unfold guard_job in Ht.
  - by injection Ht as <-.
  - eapply typed_same; [by eapply same_consumer|done].
  - injection Ht as <-. destruct Hk as [Hm Ha]. split; [by apply mux_ok_turn|done].
  - injection Ht as <-. destruct Hk as [Hm Ha]. split; [by apply mux_ok_reap|done].
  - injection Ht as <-. destruct Hk as [Hm Ha]. split; [done|]. cbn.
    etrans; [apply accepted_relay|done].
  - case_match; simplify_eq. destruct Hk as [Hm Ha]. split; [done|]. cbn.
    etrans; [apply accepted_relay_stop|done].
Qed.

(** Only writers type.  Whatever clients attach, send, and lose their
    connections, in any order: what was accepted for a job's terminal is, in
    order, data sent by clients that attached with write access.  A read-only
    client's messages never reach it. *)
Theorem only_writers_type mode max_fsize t0 stopped ts j :
  mode ≠ StreamOutput → run_job (job_begin mode max_fsize t0 stopped) ts = Some j →
  accepted (rc_io (j_recorder j)) `sublist_of` (writers_input ts).2.
Proof.
  intros Hm Hr. cut (typed_ok (writers_input ts) j); [by intros [_ ?]|].
  refine (run_job_ind _ _ (λ ts j, typed_ok (writers_input ts) j) _ _ _ _ _ Hr).
  - split; [apply mux_ok_new|]. by destruct mode.
  - clear Hr. clear ts j. intros ts j now t j' Hr Hi Ht. unfold writers_input. rewrite foldl_app.
    eapply typed_turn; [|done|done]. destruct (run_static _ _ _ _ _ _ _ _ Hr) as [-> _].
    by rewrite bool_decide_false.
Qed.
End facts.
