(* ===== verification/Spawn.v ===== *)
(** * Starting a job's process ([server/src/executor.rs], [spawn.rs])

    [job_spawn] narrows the limits, lays out the job's directory, builds the
    command line and the environment, and spawns; whatever goes wrong becomes an
    event.  The host is the files it holds; a system call can fail as the
    operating system decides.  A path is the list of its components. *)
From S2P Require Import Prelude External Codephrases Hash Targets Keys Jobs Messages Headers.
From S2P Require Import Boundary Executor Manager Output JobIo Job.
Open Scope N_scope.

(** ** The host *)

(** The calls of [job_spawn] and [spawn_job] that can fail. *)
Inductive Call :=
| CMkdir (p : Path) | CDevNull | CCreate (p : Path) | CWrite (p : Path)
| COpenIo | CResize | CSpawnAttributes | CChdir | CStdio | CSigchld | CPosixSpawn.

(** [Passwd], as far as it is used. *)
Record Passwd := mkPasswd { pw_dir : string; pw_name : string }.

(** The operating system, as one launch meets it: hard limits, the failures of
    its calls, the complaint about a file that exists, how much of a failed write
    was written, the name of a terminal, the server's user and [PATH]. *)
Record Os := mkOs {
  os_hard : Resource → result N string;
  os_fails : Call → option string;
  os_eexist : string;
  os_torn : nat;
  os_pts : string;
  os_user : option Passwd;
  os_path : option string;
}.

Abbreviation Host := (gmap Path (list byte)).

Definition os_call (os : Os) (c : Call) : result () string :=
  match os_fails os c with Some error => Err error | None => Ok () end.

(** A computation that changes the host and can fail. *)
Definition Sys (A : Type) : Type := Host → result A ProcessError * Host.
Definition sys_bind {A B} (m : Sys A) (k : A → Sys B) : Sys B := λ h,
  match m h with (Ok a, h) => k a h | (Err e, h) => (Err e, h) end.
Definition sys_lift {A} (r : result A ProcessError) : Sys A := λ h, (r, h).
Notation "'do!' x ← m 'in' k" := (sys_bind m (λ x, k))
  (at level 10, x pattern, m at level 100, k at level 200) : rust_scope.
Open Scope rust_scope.

(** [with_io_err!]. *)
Definition with_io_err {A} (r : result A string) (what : string) : Sys A :=
  sys_lift (map_err (PIo what) r).

(** [OpenOptions::create_new]: an existing file is left alone. *)
Definition create_new (os : Os) (p : Path) (what : string) : Sys () := λ h,
  match h !! p with
  | Some _ => (Err (PIo what (os_eexist os)), h)
  | None =>
    match os_call os (CCreate p) with
    | Err error => (Err (PIo what error), h)
    | Ok _ => (Ok (), <[p := []]> h)
    end
  end.

(** [write_all] to the new file [p]. *)
Definition write_all (os : Os) (p : Path) (bytes : list byte) (what : string) : Sys () := λ h,
  match os_call os (CWrite p) with
  | Err error => (Err (PIo what error), <[p := take (os_torn os) bytes]> h)
  | Ok _ => (Ok (), <[p := bytes]> h)
  end.

(** ** The command ([executor.rs]) *)

Definition DEFAULT_PATH : string := "/usr/sbin:/usr/bin:/sbin:/bin".
Definition DEFAULT_TERM : string := "vt100".
Definition BASH : string := "/usr/bin/bash".

Definition double_quote : Ascii.ascii := Ascii.ascii_of_N 34.
Definition dquoted (s : string) : string := String double_quote (s +:+ String double_quote EmptyString).

Definition LIMITS_SHIM : string :=
  "ulimit -S -t " +:+ dquoted "$1" +:+ " -v " +:+ dquoted "$2" +:+ " -f " +:+ dquoted "$3" +:+
  " && SSH_CLIENT=sush exec " +:+ dquoted "$BASH" +:+ " -c " +:+ dquoted "$4".

(** [u64::div_ceil(1024)]. *)
Definition kib (n : N) : N := n / 1024 + (if n mod 1024 =? 0 then 0 else 1).

(** The arguments of the child. *)
Definition job_args (l : JobLimits) (command : string) : list string :=
  [BASH; "-c"; LIMITS_SHIM; "sush"; uint_to_string (max_cpu l); uint_to_string (kib (max_mem l));
   uint_to_string (kib (max_fsize l)); command].

Inductive PathIsolation := IsolatePath | InsecurePath.

(** The environment, before a terminal's variables. *)
Definition job_env (os : Os) (isolation : PathIsolation) (id : JobId) (command : string) (job_dir : Path) :
    list (string * string) :=
  match isolation with
  | IsolatePath => [("PATH", DEFAULT_PATH)]
  | InsecurePath => match os_path os with Some path => [("PATH", path)] | None => [] end
  end ++
  match os_user os with
  | Some pwd => [("HOME", pw_dir pwd); ("LOGNAME", pw_name pwd); ("USER", pw_name pwd)]
  | None => []
  end ++
  [("SUSH_JOB_ID", newtype_to_string id); ("SUSH_COMMAND", command);
   ("SUSH_JOB_OUTPUT_DIR", path_to_string job_dir)].

(** ** The process ([spawn.rs]) *)

Inductive SpawnStdio := Terminal (path : string) | Pipes.

(** The file actions of the child, in order; the write ends of pipes are ours. *)
Inductive FileAction :=
| AChdir (dir : string)
| AOpen (fd : N) (path : string) (writable : bool)
| ADup2 (from to : N)
| ADupPipe (s : JobOutputStream) (to : N).

(** [PosixSpawn::stdio]. *)
Definition stdio_actions (s : SpawnStdio) : list FileAction :=
  match s with
  | Terminal path => [AOpen 0 path true; ADup2 0 1; ADup2 0 2]
  | Pipes => [AOpen 0 "/dev/null" false; ADupPipe Stdout 1; ADupPipe Stderr 2]
  end.

(** What [posix_spawn] was given. *)
Record Exec := mkExec {
  x_program : string;
  x_args : list string;
  x_env : list string;
  x_actions : list FileAction;
}.

Fixpoint nul_position (s : string) (i : N) : option N :=
  match s with
  | EmptyString => None
  | String c s => if Ascii.eqb c Ascii.zero then Some i else nul_position s (i + 1)
  end.

(** [c_string]: [CString::new]. *)
Definition c_string (s : string) : result string string :=
  match nul_position s 0 with
  | Some i => Err ("nul byte found in provided data at position: " +:+ uint_to_string i)
  | None => Ok s
  end.

Fixpoint c_strings (l : list string) : result (list string) string :=
  match l with
  | [] => Ok []
  | s :: l => let? s := c_string s in let? l := c_strings l in Ok (s :: l)
  end.

Definition env_string (var : string * string) : string := var.1 +:+ "=" +:+ var.2.

(** [spawn_job], with [PosixSpawn::new], [chdir], [stdio] and [spawn]. *)
Definition spawn_job (os : Os) (dir : option string) (stdio : SpawnStdio) (args : list string)
    (env : list (string * string)) : result Exec string :=
  let? _ := os_call os CSpawnAttributes in
  let? chdir := match dir with
                | Some dir => let? dir := c_string dir in let? _ := os_call os CChdir in Ok [AChdir dir]
                | None => Ok []
                end in
  let? _ := match stdio with Terminal path => c_string path | Pipes => Ok EmptyString end in
  let? _ := os_call os CStdio in
  let? args := c_strings args in
  let? env := c_strings (map env_string env) in
  let? _ := os_call os CSigchld in
  let? _ := os_call os CPosixSpawn in
  Ok (mkExec BASH args env (chdir ++ stdio_actions stdio)).

(** ** Launching ([executor.rs]) *)

(** The limits a job runs under. *)
Definition job_limits (os : Os) (dirs : OutputDirs) (requested : JobLimits) : result JobLimits ProcessError :=
  let? l := map_err (PIo "reading resource limits") (clamp (os_hard os) requested) in
  Ok (if od_max_fsize dirs <? max_fsize l then mkJobLimits (max_cpu l) (max_mem l) (od_max_fsize dirs) else l).

(** The modes that are refused. *)
Definition check_mode (m : JobMode) (t : Target) : result () ProcessError :=
  match m with
  | StreamInput => Err (PInvalidJob "streaming input is not implemented")
  | StreamOutput =>
    match single_baseboard t with
    | None => Err (PInvalidJob "streaming jobs must target one sled")
    | Some _ => Ok ()
    end
  | Batch | Interactive => Ok ()
  end.

(** A process that was started: what it was given, the limits, the mode. *)
Record Process := mkProcess { ps_exec : Exec; ps_limits : JobLimits; ps_mode : JobMode; ps_job : JobId }.

Definition about (what : string) (p : Path) : string := what +:+ " `" +:+ path_to_string p +:+ "`".

Definition request_path (base : Path) (id : JobId) : Path := join (job_output_dir_in base id) "job.json".

Section spawn.
Context {Irum : Rumors} {Isha : Sha3}.
(** [serde_json::to_vec_pretty] of a signed request. *)
Variable request_json : SignedJob → result (list byte) string.

(** The files of a job: what it prints, what it complains of, what it was. *)
Definition lay_out (os : Os) (base : Path) (request : SignedJob) : Sys () :=
  let id := job_id (payload request) in
  let job_dir := job_output_dir_in base id in
  let stdout_path := job_output_path_in base id Stdout in
  let stderr_path := job_output_path_in base id Stderr in
  let job_path := request_path base id in
  do! _ ← with_io_err (os_call os (CMkdir job_dir)) (about "creating job output directory" job_dir) in
  do! _ ← (if bool_decide (mode (payload request) = StreamOutput)
           then with_io_err (os_call os CDevNull) "opening /dev/null for streamed output"
           else create_new os stdout_path (about "creating job stdout file" stdout_path)) in
  do! _ ← create_new os stderr_path (about "creating job stderr file" stderr_path) in
  do! json ← with_io_err (request_json request) (about "encoding job request file" job_path) in
  do! _ ← create_new os job_path (about "creating job request file" job_path) in
  write_all os job_path json (about "writing job request file" job_path).

(** [job_spawn], up to the attachment point and the start event. *)
Definition job_spawn (os : Os) (dirs : OutputDirs) (isolation : PathIsolation) (l : Launch) : Sys Process :=
  let request := signed (l_request l) in
  let j := payload request in
  let params := l_params l in
  do! limits ← sys_lift (job_limits os dirs (limits params)) in
  do! _ ← sys_lift (check_mode (mode j) (target j)) in
  do! _ ← lay_out os (od_current dirs) request in
  let job_dir := job_output_dir_in (od_current dirs) (job_id j) in
  let env := job_env os isolation (job_id j) (command j) job_dir in
  do! _ ← with_io_err (os_call os COpenIo) "opening job I/O" in
  let stdio := if is_interactive (mode j) then Terminal (os_pts os) else Pipes in
  do! env ← (if is_interactive (mode j) then
               do! _ ← match rows params, cols params with
                       | Some r, Some c =>
                         with_io_err (set_window_size (io_open (mode j)) (os_call os CResize))
                           "resizing pseudoterminal window"
                       | _, _ => sys_lift (Ok ())
                       end in
               sys_lift (Ok (env ++ [("SUSH_TTY", os_pts os); ("TERM", default DEFAULT_TERM (term params))]))
             else sys_lift (Ok env)) in
  do! exec ← with_io_err (spawn_job os (pw_dir <$> os_user os) stdio (job_args limits (command j)) env)
               ("spawning " +:+ mode_as_str (mode j) +:+ " job") in
  sys_lift (Ok (mkProcess exec limits (mode j) (job_id j))).

(** What is announced at once: a birth or an error. *)
Definition spawn_event (now : DateTime) (l : Launch) (r : result Process ProcessError) : JobEvent :=
  let id := job_id (payload (signed (l_request l))) in
  match r with Ok _ => EStart id now | Err error => EError id now error end.

(** [Job::start]: the loop of [job] for a process. *)
Definition process_job (p : Process) (now : N) (stopped : bool) : Job :=
  job_begin (ps_mode p) (max_fsize (ps_limits p)) now stopped.

(** What is announced when the loop's task ends; it may have panicked. *)
Definition end_event (now : DateTime) (id : JobId)
    (ended : result (result Z ProcessError * JobOutputState) string) : JobEvent :=
  match ended with
  | Ok (res, out) => EStop id now res out
  | Err error => EError id now (PJoin error)
  end.
End spawn.
