(* ===== verification/SpawnFacts.v ===== *)
(** * What a launch leaves behind

    Theorems about [Spawn.v]: the limits of a process, the records of a job. *)
From S2P Require Import Prelude External Codephrases Hash Targets Keys Jobs Messages Headers.
From S2P Require Import Boundary Executor Manager Output JobIo Job Spawn.
Open Scope N_scope.
Open Scope rust_scope.

(** ** Computations *)

Lemma sys_bind_ok {A B : Type} (m : Sys A) (k : A → Sys B) h b h' :
  sys_bind m k h = (Ok b, h') ↔ ∃ a h1, m h = (Ok a, h1) ∧ k a h1 = (Ok b, h').
Proof.
  unfold sys_bind. destruct (m h) as [[a|e] h1].
  - split; [eauto|]. by intros (a'&h1'&[= <- <-]&?).
  - split; [done|]. by intros (a'&h1'&?&?).
Qed.

(** What holds of the host before and after every step holds across them. *)
Lemma sys_bind_rel {A B : Type} (R : relation Host) `{!Transitive R} (m : Sys A) (k : A → Sys B) h :
  R h (m h).2 → (∀ a h1, m h = (Ok a, h1) → R h1 (k a h1).2) → R h (sys_bind m k h).2.
Proof.
  intros H1 H2. unfold sys_bind. destruct (m h) as [[a|e] h1] eqn:E; [|done].
  trans h1; [done|]. by apply H2.
Qed.

Lemma with_io_err_ok {A : Type} (r : result A string) what h a h' :
  with_io_err r what h = (Ok a, h') ↔ r = Ok a ∧ h' = h.
Proof. unfold with_io_err, sys_lift. destruct r; cbn; split; [by intros [= -> ->]|by intros [[= ->] ->]|done|by intros [? _]]. Qed.

Lemma sys_lift_ok {A : Type} (r : result A ProcessError) h a h' : sys_lift r h = (Ok a, h') ↔ r = Ok a ∧ h' = h.
Proof. unfold sys_lift. split; [by intros [= -> ->]|by intros [-> ->]]. Qed.

Lemma create_new_ok os p what h h' :
  create_new os p what h = (Ok (), h') → h !! p = None ∧ h' = <[p := []]> h.
Proof. unfold create_new. destruct (h !! p); [done|]. destruct (os_call _ _); [|done]. by intros [= <-]. Qed.

Lemma create_new_exists os p what h bytes : h !! p = Some bytes → create_new os p what h = (Err (PIo what (os_eexist os)), h).
Proof. unfold create_new. by intros ->. Qed.

Lemma write_all_ok os p bytes what h h' : write_all os p bytes what h = (Ok (), h') → h' = <[p := bytes]> h.
Proof. unfold write_all. destruct (os_call _ _); [|done]. by intros [= <-]. Qed.

(** ** Limits *)

Lemma c_strings_ok l k : c_strings l = Ok k → k = l.
Proof.
  revert k. induction l as [|s l IH]; intros k; cbn; [by intros [= <-]|].
  unfold c_string. destruct (nul_position s 0); cbn; [done|].
  destruct (c_strings l) as [k'|]; cbn; [|done]. intros [= <-]. by rewrite (IH k').
Qed.

Lemma spawn_job_ok os dir stdio args env x :
  spawn_job os dir stdio args env = Ok x →
  x_program x = BASH ∧ x_args x = args ∧ x_env x = map env_string env ∧
  x_actions x = match dir with Some dir => [AChdir dir] | None => [] end ++ stdio_actions stdio.
Proof.
  unfold spawn_job. destruct (os_call os CSpawnAttributes); cbn; [|done].
  set (chdir := match dir with Some _ => _ | None => _ end).
  assert (Hc : ∀ l, chdir = Ok l → l = match dir with Some dir => [AChdir dir] | None => [] end).
  { intros l. unfold chdir. destruct dir as [d|]; [|by intros [= <-]].
    unfold c_string. destruct (nul_position d 0); cbn; [done|]. destruct (os_call os CChdir); cbn; [|done].
    by intros [= <-]. }
  destruct chdir as [l|] eqn:Ec; cbn; [|done]. specialize (Hc l eq_refl).
  destruct (match stdio with Terminal _ => _ | Pipes => _ end); cbn; [|done].
  destruct (os_call os CStdio); cbn; [|done].
  destruct (c_strings args) as [args'|] eqn:Ea; cbn; [|done]. apply c_strings_ok in Ea.
  destruct (c_strings (map env_string env)) as [env'|] eqn:Ee; cbn; [|done]. apply c_strings_ok in Ee.
  destruct (os_call os CSigchld); cbn; [|done]. destruct (os_call os CPosixSpawn); cbn; [|done].
  intros [= <-]. cbn. by subst.
Qed.

Lemma kib_covers n : n <= kib n * 1024 < n + 1024.
Proof.
  unfold kib. pose proof (N.div_mod n 1024 ltac:(done)) as H. pose proof (N.mod_lt n 1024 ltac:(done)) as H0.
  revert H H0. generalize (n / 1024) (n mod 1024). intros q r Hn Hr. destruct (N.eqb_spec r 0); lia.
Qed.

Lemma job_limits_ok os dirs asked l :
  job_limits os dirs asked = Ok l →
  ∃ cpu mem fsize,
    os_hard os RCpu = Ok cpu ∧ os_hard os RAs = Ok mem ∧ os_hard os RFsize = Ok fsize ∧
    max_cpu l = N.min (N.min (max_cpu asked) (max_cpu default_limits)) cpu ∧
    max_mem l = N.min (N.min (max_mem asked) (max_mem default_limits)) mem ∧
    max_fsize l = N.min (N.min (N.min (max_fsize asked) (max_fsize default_limits)) fsize) (od_max_fsize dirs).
Proof.
  unfold job_limits, clamp.
  destruct (os_hard os RCpu) as [cpu|]; cbn; [|done]. destruct (os_hard os RAs) as [mem|]; cbn; [|done].
  destruct (os_hard os RFsize) as [fsize|]; cbn; [|done].
  intros [= <-]. exists cpu, mem, fsize. split_and!; try done; destruct (N.ltb_spec (od_max_fsize dirs)
    (N.min (N.min (max_fsize asked) (10 * 10 ^ 9)) fsize)); cbn [max_cpu max_mem max_fsize default_limits]; lia.
Qed.

(** ** Records *)

(** The files of a job under a base. *)
Definition job_files (base : Path) (id : JobId) : list Path :=
  [job_output_path_in base id Stdout; job_output_path_in base id Stderr; request_path base id].

Lemma job_files_NoDup base id : NoDup (job_files base id).
Proof.
  unfold job_files, job_output_path_in, request_path, join.
  assert (Hne : ∀ (l : Path) a b, a ≠ b → l ++ [a] ≠ l ++ [b]).
  { intros l a b Hab E. apply app_inv_head in E. by injection E. }
  repeat constructor; rewrite ?elem_of_cons, ?elem_of_nil; repeat setoid_rewrite elem_of_cons;
    naive_solver.
Qed.

(** Nothing that exists changes, and nothing outside [files]. *)
Definition keeps (files : list Path) (h h' : Host) : Prop :=
  h ⊆ h' ∧ ∀ p, p ∉ files → h' !! p = h !! p.

#[export] Instance keeps_preorder files : PreOrder (keeps files).
Proof.
  split; [by intros h|]. intros h1 h2 h3 [H1 H2] [H3 H4]. split; [by trans h2|].
  intros p Hp. by rewrite H4, H2.
Qed.

Lemma keeps_insert files p bytes h h1 :
  p ∈ files → h !! p = None → keeps files h h1 → keeps files h (<[p := bytes]> h1).
Proof.
  intros Hp Hn [H1 H2]. split; [by apply insert_subseteq_r|].
  intros q Hq. rewrite lookup_insert_ne; [by apply H2|]. by intros ->.
Qed.

Lemma create_new_keeps files os p what h : p ∈ files → keeps files h (create_new os p what h).2.
Proof.
  intros Hp. unfold create_new. destruct (h !! p) eqn:E; [done|]. destruct (os_call _ _); [|done].
  by apply keeps_insert.
Qed.

Section spawn_facts.
Context {Irum : Rumors} {Isha : Sha3}.
Variable request_json : SignedJob → result (list byte) string.

Lemma lift_keeps {A : Type} files (r : result A ProcessError) h : keeps files h (sys_lift r h).2.
Proof. done. Qed.
Lemma io_keeps {A : Type} files (r : result A string) what h : keeps files h (with_io_err r what h).2.
Proof. done. Qed.

Lemma lay_out_keeps os base request h :
  keeps (job_files base (job_id (payload request))) h (lay_out request_json os base request h).2.
Proof.
  unfold lay_out. set (files := job_files _ _).
  apply sys_bind_rel; [apply _|apply io_keeps|intros _ h1 [_ ->]%with_io_err_ok].
  apply sys_bind_rel; [apply _| |intros _ h2 _].
  { case_bool_decide; [apply io_keeps|]. apply create_new_keeps. by left. }
  apply sys_bind_rel; [apply _| |intros _ h3 _]; [apply create_new_keeps; by right; left|].
  apply sys_bind_rel; [apply _|apply io_keeps|intros json h4 [_ ->]%with_io_err_ok].
  assert (Hp : request_path base (job_id (payload request)) ∈ files) by (by right; right; left).
  unfold sys_bind. destruct (create_new os (request_path _ _) _ h3) as [[[]|e] h5] eqn:E; cbn.
  - apply create_new_ok in E as [Hn ->]. unfold write_all.
    destruct (os_call os _); cbn; by repeat apply keeps_insert.
  - pose proof (create_new_keeps files os (request_path base (job_id (payload request)))) as H.
    specialize (H (about "creating job request file" (request_path base (job_id (payload request)))) h3 Hp).
    by rewrite E in H.
Qed.

(** What a finished layout holds. *)
Lemma lay_out_ok os base request h h' :
  let id := job_id (payload request) in
  lay_out request_json os base request h = (Ok (), h') →
  (mode (payload request) = StreamOutput ∨
   h !! job_output_path_in base id Stdout = None ∧ h' !! job_output_path_in base id Stdout = Some []) ∧
  h !! job_output_path_in base id Stderr = None ∧ h' !! job_output_path_in base id Stderr = Some [] ∧
  h !! request_path base id = None ∧
  ∃ json, request_json request = Ok json ∧ h' !! request_path base id = Some json.
Proof.
  cbv zeta. unfold lay_out. pose proof (job_files_NoDup base (job_id (payload request))) as Hnd.
  unfold job_files in Hnd. rewrite !NoDup_cons in Hnd. destruct Hnd as (H1&H2&_).
  rewrite !not_elem_of_cons in H1. rewrite not_elem_of_cons in H2. destruct H1 as (H12&H13&_), H2 as (H23&_).
  rewrite sys_bind_ok. intros ([]&h1&[_ ->]%with_io_err_ok&E).
  rewrite sys_bind_ok in E. destruct E as ([]&h2&Eout&E).
  rewrite sys_bind_ok in E. destruct E as ([]&h3&[Herr ->]%create_new_ok&E).
  rewrite sys_bind_ok in E. destruct E as (json&h4&[Hj ->]%with_io_err_ok&E).
  rewrite sys_bind_ok in E. destruct E as ([]&h5&[Hreq ->]%create_new_ok&E). apply write_all_ok in E as ->.
  rewrite lookup_insert_ne in Hreq by done. rewrite insert_insert_eq.
  case_bool_decide as Hm.
  - apply with_io_err_ok in Eout as [_ ->]. split; [by left|].
    rewrite lookup_insert_ne, lookup_insert_eq, lookup_insert_eq by done. eauto 10.
  - apply create_new_ok in Eout as [Hout ->]. rewrite lookup_insert_ne in Herr, Hreq by done.
    split; [right; split; [done|]; by rewrite !lookup_insert_ne, lookup_insert_eq by done|].
    rewrite (lookup_insert_ne _ (request_path _ _) (job_output_path_in _ _ Stderr)), !lookup_insert_eq by done.
    eauto 10.
Qed.

(** What a process that was started was started with. *)
Lemma job_spawn_ok os dirs isolation l h p h' :
  let request := signed (l_request l) in
  let j := payload request in
  job_spawn request_json os dirs isolation l h = (Ok p, h') →
  job_limits os dirs (limits (l_params l)) = Ok (ps_limits p) ∧
  check_mode (mode j) (target j) = Ok () ∧
  lay_out request_json os (od_current dirs) request h = (Ok (), h') ∧
  ps_mode p = mode j ∧ ps_job p = job_id j ∧
  x_program (ps_exec p) = BASH ∧ x_args (ps_exec p) = job_args (ps_limits p) (command j) ∧
  (∀ var, var ∈ job_env os isolation (job_id j) (command j) (job_output_dir_in (od_current dirs) (job_id j)) →
     env_string var ∈ x_env (ps_exec p)).
Proof.
  cbv zeta. unfold job_spawn. set (j := payload _).
  rewrite sys_bind_ok. intros (lim&h1&[Hl ->]%sys_lift_ok&E).
  rewrite sys_bind_ok in E. destruct E as ([]&h2&[Hm ->]%sys_lift_ok&E).
  rewrite sys_bind_ok in E. destruct E as ([]&h3&Hlay&E).
  rewrite sys_bind_ok in E. destruct E as ([]&h4&[_ ->]%with_io_err_ok&E).
  rewrite sys_bind_ok in E. destruct E as (env&h5&Henv&E).
  rewrite sys_bind_ok in E. destruct E as (x&h6&[Hx ->]%with_io_err_ok&[[= <-] ->]%sys_lift_ok).
  apply spawn_job_ok in Hx as (Hp&Ha&He&_). cbn.
  set (base_env := job_env _ _ _ _ _) in *.
  assert (Henv' : h5 = h3 ∧ ∀ var, var ∈ base_env → var ∈ env).
  { destruct (is_interactive (mode j)); [|by apply sys_lift_ok in Henv as [[= <-] ->]].
    rewrite sys_bind_ok in Henv. destruct Henv as ([]&h7&Hw&[[= <-] ->]%sys_lift_ok).
    split; [|intros var Hv; apply elem_of_app; by left].
    destruct (rows (l_params l)), (cols (l_params l)); first [by apply with_io_err_ok in Hw as [_ ->]|by apply sys_lift_ok in Hw as [_ ->]]. }
  destruct Henv' as [-> Hsub]. split_and!; try done.
  intros var Hv. rewrite He. apply list_elem_of_fmap. eauto.
Qed.

Lemma job_spawn_keeps os dirs isolation l h :
  keeps (job_files (od_current dirs) (job_id (payload (signed (l_request l))))) h
    (job_spawn request_json os dirs isolation l h).2.
Proof.
  unfold job_spawn. set (files := job_files _ _).
  apply sys_bind_rel; [apply _|apply lift_keeps|intros lim h1 [_ ->]%sys_lift_ok].
  apply sys_bind_rel; [apply _|apply lift_keeps|intros [] h2 [_ ->]%sys_lift_ok].
  apply sys_bind_rel; [apply _|apply lay_out_keeps|intros [] h3 _].
  apply sys_bind_rel; [apply _|apply io_keeps|intros [] h4 _].
  apply sys_bind_rel; [apply _| |intros env h5 _].
  { destruct (is_interactive _); [|apply lift_keeps].
    apply sys_bind_rel; [apply _| |intros [] h7 _; apply lift_keeps].
    destruct (rows (l_params l)), (cols (l_params l)); first [apply io_keeps|apply lift_keeps]. }
  apply sys_bind_rel; [apply _|apply io_keeps|intros x h6 _; apply lift_keeps].
Qed.

(** C15. A job runs within its limits.  Each limit is the least of what was asked,
    the server's ceiling and its hard limit, and for files also what the output
    directory takes.  The shell is given the CPU limit as it is, and the others in
    KiB: covered, and rounded up by less than a KiB; the job's loop is given the
    exact one; and the signed command is the shell's last argument, which a screened
    command cannot turn into an option. *)
Theorem spawn_within_limits os dirs isolation l h p h' :
  let request := signed (l_request l) in
  let j := payload request in
  let asked := limits (l_params l) in
  job_spawn request_json os dirs isolation l h = (Ok p, h') → check_command j = Ok () →
  ∃ cpu mem fsize cpu_arg mem_arg fsize_arg,
    os_hard os RCpu = Ok cpu ∧ os_hard os RAs = Ok mem ∧ os_hard os RFsize = Ok fsize ∧
    (cpu_arg = N.min (N.min (max_cpu asked) (max_cpu default_limits)) cpu ∧
     N.min (N.min (max_mem asked) (max_mem default_limits)) mem <= mem_arg * 1024 ∧
     mem_arg * 1024 < N.min (N.min (max_mem asked) (max_mem default_limits)) mem + 1024 ∧
     j_max_fsize (process_job p 0 false) <= fsize_arg * 1024 ∧
     fsize_arg * 1024 < j_max_fsize (process_job p 0 false) + 1024 ∧
     j_max_fsize (process_job p 0 false) =
       N.min (N.min (N.min (max_fsize asked) (max_fsize default_limits)) fsize) (od_max_fsize dirs)) ∧
    x_program (ps_exec p) = BASH ∧
    x_args (ps_exec p) =
      [BASH; "-c"; LIMITS_SHIM; "sush"; uint_to_string cpu_arg; uint_to_string mem_arg;
       uint_to_string fsize_arg; command j] ∧
    (∀ rest, command j ≠ String dash rest).
Proof.
  cbv zeta. intros (Hl&_&_&_&_&Hp&Ha&_)%job_spawn_ok Hc.
  apply job_limits_ok in Hl as (cpu&mem&fsize&E1&E2&E3&L1&L2&L3).
  exists cpu, mem, fsize, (max_cpu (ps_limits p)), (kib (max_mem (ps_limits p))), (kib (max_fsize (ps_limits p))).
  pose proof (kib_covers (max_mem (ps_limits p))). pose proof (kib_covers (max_fsize (ps_limits p))).
  rewrite <- L2. split_and!; try done; [cbn [process_job job_begin j_max_fsize]; lia..|].
  intros rest E. unfold check_command in Hc. rewrite E, Ascii.eqb_refl in Hc. done.
Qed.

(** ** A history of launches *)

(** What happens to a host: launches, and jobs that write. *)
Inductive HostEvent :=
| HLaunch (os : Os) (dirs : OutputDirs) (isolation : PathIsolation) (l : Launch)
| HWrite (p : Path) (bytes : list byte).

(** The host and the processes started, under their bases. *)
Definition host_step (s : Host * list (Path * Process)) (e : HostEvent) : Host * list (Path * Process) :=
  match e with
  | HLaunch os dirs isolation l =>
    let '(r, h) := job_spawn request_json os dirs isolation l s.1 in
    (h, match r with Ok p => s.2 ++ [(od_current dirs, p)] | Err _ => s.2 end)
  | HWrite p bytes => (<[p := bytes]> s.1, s.2)
  end.
Definition host_run : Host * list (Path * Process) → list HostEvent → Host * list (Path * Process) :=
  foldl host_step.

Definition base_job (x : Path * Process) : Path * JobId := (x.1, ps_job x.2).

(** The signed request of every process that was started is on file. *)
Definition on_file (s : Host * list (Path * Process)) : Prop :=
  NoDup (map base_job s.2) ∧
  ∀ x, x ∈ s.2 → is_Some (s.1 !! job_output_path_in x.1 (ps_job x.2) Stderr).

Lemma on_file_step s e : on_file s → on_file (host_step s e).
Proof.
  intros [H1 H2]. destruct e as [os dirs isolation l|p bytes]; cbn [host_step].
  - pose proof (job_spawn_keeps os dirs isolation l s.1) as [Hk _].
    destruct (job_spawn request_json os dirs isolation l s.1) as [[p|e] h] eqn:E; cbn [fst snd] in *.
    + apply job_spawn_ok in E as (_&_&Hlay&_&Hid&_). apply lay_out_ok in Hlay as (_&Hn&Hs&_).
      rewrite <- Hid in Hn, Hs. split; cbn [fst snd].
      * rewrite map_app. apply NoDup_app. split_and!; [done| |apply NoDup_singleton].
        intros y Hy ->%list_elem_of_singleton. apply list_elem_of_fmap in Hy as (x&Ex&Hx).
        specialize (H2 x Hx). unfold base_job in Ex. injection Ex as E1 E2. cbn in E1, E2.
        rewrite <- E1, <- E2, Hn in H2. by apply is_Some_None in H2.
      * intros x [Hx| ->%list_elem_of_singleton]%elem_of_app; [|by eexists].
        destruct (H2 x Hx) as [bytes Hb]. exists bytes. by eapply lookup_weaken.
    + split; [done|]. intros x Hx. destruct (H2 x Hx) as [bytes Hb]. exists bytes. by eapply lookup_weaken.
  - split; [done|]. intros x Hx. cbn. destruct (decide (job_output_path_in x.1 (ps_job x.2) Stderr = p)) as [->|Hne].
    + rewrite lookup_insert_eq. by eexists.
    + rewrite lookup_insert_ne by done. by apply H2.
Qed.
Lemma on_file_run s es : on_file s → on_file (host_run s es).
Proof. revert s. induction es as [|e es IH]; intros s Hs; [done|]. by apply IH, on_file_step. Qed.

(** A launch disturbs no records.  Whether it succeeds or fails, and wherever it
    fails, every file there was is still there unchanged, and only files of the
    launched job are added; a launch that succeeds found none of them, leaves
    empty output files for the job to fill, and the signed request beside them. *)
Theorem launch_keeps_records os dirs isolation l h :
  let id := job_id (payload (signed (l_request l))) in
  let base := od_current dirs in
  let r := job_spawn request_json os dirs isolation l h in
  (∀ p bytes, h !! p = Some bytes → r.2 !! p = Some bytes) ∧
  (∀ p, p ∉ job_files base id → r.2 !! p = h !! p) ∧
  match r.1 with
  | Err error => ∀ now, spawn_event now l r.1 = EError id now error
  | Ok p =>
    (∀ now, spawn_event now l r.1 = EStart id now) ∧
    ps_job p = id ∧ ps_mode p ≠ StreamInput ∧
    (ps_mode p = StreamOutput ∨
     h !! job_output_path dirs id Stdout = None ∧ r.2 !! job_output_path dirs id Stdout = Some []) ∧
    h !! job_output_path dirs id Stderr = None ∧ r.2 !! job_output_path dirs id Stderr = Some [] ∧
    h !! request_path base id = None ∧
    ∃ json, request_json (signed (l_request l)) = Ok json ∧ r.2 !! request_path base id = Some json
  end.
Proof.
  cbv zeta. pose proof (job_spawn_keeps os dirs isolation l h) as [Hk1 Hk2].
  destruct (job_spawn _ _ _ _ _ _) as [[p|error] h'] eqn:E; cbn [fst snd] in *.
  - split; [intros q bytes Hq; by eapply lookup_weaken|]. split; [done|].
    apply job_spawn_ok in E as (_&Hm&Hlay&Hmode&Hid&_). apply lay_out_ok in Hlay as (H1&H2&H3&H4&H5).
    rewrite Hmode. split_and!; try done. intros Hs. rewrite Hs in Hm. done.
  - split_and!; [intros q bytes Hq; by eapply lookup_weaken|done|done].
Qed.

(** C14. No job runs over another's records.  Whatever is launched on a host, however
    often, while jobs write to its files: under one base directory no job is
    started twice, since the second launch finds the first one's files. *)
Theorem started_once_per_base h es :
  NoDup (map base_job (host_run (h, []) es).2).
Proof.
  apply (on_file_run (h, []) es). split; [apply NoDup_nil_2|]. intros x Hx. cbn in Hx. by apply elem_of_nil in Hx.
Qed.
End spawn_facts.
