(* ===== verification/JobLife.v ===== *)
(** * A job, from its launch to its download

    [Spawn.v], [Job.v], [Output.v] and [Download.v] together: a job is spawned on a
    host, its loop runs, its output is on the host's files, and a client
    downloads it from wherever the output directory has moved. *)
From S2P Require Import Prelude External Codephrases Hash Targets Keys Jobs Messages Headers.
From S2P Require Import Boundary Executor Manager Output Download JobIo Job JobOutput Spawn SpawnFacts.
Open Scope N_scope.

(** ** The files of a host, as the server sees them *)

Definition host_stat (h : Host) (p : Path) : result N IoErrorKind :=
  match h !! p with Some bytes => Ok (N.of_nat (length bytes)) | None => Err NotFound end.
Definition host_open (h : Host) (p : Path) : result () IoErrorKind :=
  match h !! p with Some _ => Ok () | None => Err NotFound end.
Definition host_world (h : Host) : OutputWorld := mkOutputWorld true (host_stat h) (host_stat h) (host_open h) true.

(** What the server answers to a chunk's request, from its files. *)
Definition serve_host (h : Host) (d : OutputDirs) (id : JobId) (s : JobOutputStream) (r : ChunkRange) :
    result (list byte) CommandError :=
  map_err CServer
    (rbind (job_output (host_world h) d id s (Some (chunk_header r)))
       (λ x, Ok (stream_bytes x.2 (default [] (h !! x.1))))).

Lemma serve_host_chunk h d id s r file :
  h !! find_job_output (host_stat h) d id s = Some file → serve_host h d id s r = serve_chunk file r.
Proof.
  intros Hf. unfold serve_host, serve_chunk, job_output. cbn [host_world ow_permit ow_found ow_stat ow_open ow_seek negb].
  set (path := find_job_output _ _ _ _) in *. unfold job_output_len, host_stat, host_open. rewrite Hf. cbn [rbind].
  unfold chunk_header at 1. rewrite andb_false_r.
  destruct (select_range _ _) as [st|e]; cbn; [|done]. by rewrite Hf.
Qed.

Section life.
Context {Irum : Rumors} {Isha : Sha3}.
Variables (request_json : SignedJob → result (list byte) string)
  (from_json : string → result InteractiveJobControl string)
  (to_json : InteractiveJobControl → result string string).

Lemma job_limits_fsize os dirs asked l :
  job_limits os dirs asked = Ok l → max_fsize l <= 10 ^ 10 ∧ max_fsize l <= od_max_fsize dirs.
Proof.
  intros (?&?&?&_&_&_&_&_&->)%job_limits_ok. cbn [max_fsize default_limits].
  assert (10 * 10 ^ 9 = 10 ^ 10) by done. lia.
Qed.

(** C19. From the launch of a job to the client's disk. The files of a job that was
    spawned, and not to stream, start out empty. Its loop ends, none of its writes
    having failed and no playback having lost its file's position; its output is
    where it was written, and under no other base that the output directory has,
    which has meanwhile moved up to [MAX_PREVIOUS_DIRS] times. Then the server
    answers every chunk's request from that output, and a download with the
    announced length and hash yields it: at most the directory's limit and one read,
    a prefix of what was read of the process, and all of that unless the job ended
    for exceeding its limit. And what was read is all there was, to the end of every
    stream, unless a read failed or the drain timeout passed since the process was
    noticed dead. *)
Theorem launched_output_downloads os dirs isolation l h p h1 t0 stopped ts j res out s moves h2 cs order :
  job_spawn request_json os dirs isolation l h = (Ok p, h1) → ps_mode p ≠ StreamOutput →
  Forall (turn_ok BATCH_OUTPUT_BUFFER_SIZE) ts →
  run_job from_json to_json (process_job p t0 stopped) ts = Some j → j_phase j = Finished res out →
  let id := ps_job p in
  let path := job_output_path dirs id s in
  let file := sk_file (sink (j_recorder j) s) in
  (length moves <= MAX_PREVIOUS_DIRS)%nat → h2 !! path = Some file →
  (∀ base, base ∈ bases (move_all dirs moves) → base ≠ od_current dirs → h2 !! job_output_path_in base id s = None) →
  0 < cs → cs <= OUTPUT_THRESHOLD → (∀ ck, ∃ q, order ck = map (λ r, (file, r)) q ∧ q ≡ₚ ck) →
  h1 !! path = Some (sk_file (sink (j_recorder (process_job p t0 stopped)) s)) ∧
  (∀ r, serve_host h2 (move_all dirs moves) id s r = serve_chunk file r) ∧
  job_output_download (out_len s out) cs (out_hash s out) order = Ok file ∧
  N.of_nat (length file) <= od_max_fsize dirs + BATCH_OUTPUT_BUFFER_SIZE ∧
  file `prefix_of` produced s ts ∧
  ((∀ s' limit, res ≠ Err (POutputLimitExceeded s' limit)) → file = produced s ts) ∧
  (all_read (ps_mode p) ts ∨ Exists (read_failed (ps_mode p)) ts ∨ drain_expired ts).
Proof.
  intros Hs Hm Hok Hr Hp. cbv zeta. intros Hl Hfile Hno Hcs Hth Hord.
  apply job_spawn_ok in Hs as (Hlim&_&Hlay&Hmode&Hid&_). apply job_limits_fsize in Hlim as [Hf1 Hf2].
  apply lay_out_ok in Hlay as (Hout&_&Herr&_). rewrite <- Hid in Hout, Herr. rewrite <- Hmode in Hout.
  unfold process_job in Hr.
  assert (Hb : max_fsize (ps_limits p) + BATCH_OUTPUT_BUFFER_SIZE <= 2 ^ 63).
  { assert (10 ^ 10 + BATCH_OUTPUT_BUFFER_SIZE <= 2 ^ 63) by done. lia. }
  assert (Hb' : max_fsize (ps_limits p) + BATCH_OUTPUT_BUFFER_SIZE < 2 ^ 64).
  { assert (2 ^ 63 < 2 ^ 64) by done. lia. }
  destruct (finished_recorded _ _ _ _ _ _ _ _ _ _ _ s Hm Hb' Hok Hr Hp) as (->&->&Hle&Hpre&Hall).
  split_and!; [| | |lia|done| |eapply (loop_ended_run from_json to_json); [done..|congruence]].
  - destruct s; [|done]. by destruct Hout as [|[_ Hout]].
  - intros r. apply serve_host_chunk. rewrite found_after_moves; [done|done| |].
    + unfold host_stat. by rewrite Hfile.
    + intros base Hb1 Hb2. unfold host_stat. by rewrite Hno.
  - apply download_all; [lia|done..].
  - intros Hres. destruct Hall as [[-> _]|(s'&E&_)]; [done|]. by destruct (Hres _ _ E).
Qed.
End life.
