(* ===== verification/Child.v ===== *)
(** * The child process of a job ([JobChild] of [server/src/spawn.rs])

    Waiting for a child, signalling it, and dropping it, over a table of processes in
    which process identifiers are reused as POSIX allows: never while a process or a
    process group has the identifier.  A child leads a session of its own, and on illumos
    starts in a process contract of its own, which its descendants inherit; the number of
    a contract is not used again. *)
From S2P Require Import Prelude External Jobs JobIo Job.
#[local] Set Warnings "-register-all".

(** ** Processes *)

(** A process: its group, its contract, whether it is the job's child or descends from
    it, and the status it ended with. *)
Record Proc := mkProc { pr_group : nat; pr_contract : N; pr_job : bool; pr_ended : option Z }.
Abbreviation Table := (gmap nat Proc).

(** The members of a group, and of a contract, which a process leaves when it ends. *)
Definition group_of (t : Table) (g : nat) : list Proc :=
  List.filter (λ p, bool_decide (pr_group p = g)) (map_to_list t).*2.
Definition contract_of (t : Table) (ctid : N) : list Proc :=
  List.filter (λ p, bool_decide (pr_contract p = ctid ∧ pr_ended p = None)) (map_to_list t).*2.
Definition in_use (t : Table) (pid : nat) : bool :=
  bool_decide (is_Some (t !! pid)) || negb (bool_decide (group_of t pid = [])).

(** ** [JobChild] *)

(** [waitpid] with [WNOHANG]: the error numbers it may fail with are told. *)
Definition EINTR : Z := 4.
Inductive Waited := WaitNone | WaitFailed (errno : Z) | WaitStatus (status : Z).
Definition waitpid (fails : option Z) (t : Table) (pid : nat) : Waited * Table :=
  match fails with
  | Some errno => (WaitFailed errno, t)
  | None =>
    match t !! pid with
    | Some p =>
      match pr_ended p with
      | Some status => (WaitStatus status, delete pid t)
      | None => (WaitNone, t)
      end
    | None => (WaitFailed 10, t)
    end
  end.

(** [try_wait]: again after an interruption; [fails] tells what each call does. *)
Fixpoint try_wait (fails : list (option Z)) (t : Table) (pid : nat) : option (result (option Z) Z * Table) :=
  match fails with
  | [] => None
  | f :: fails =>
    match waitpid f t pid with
    | (WaitNone, t) => Some (Ok None, t)
    | (WaitFailed errno, t) => if (errno =? EINTR)%Z then try_wait fails t pid else Some (Err errno, t)
    | (WaitStatus status, t) => Some (Ok (Some status), t)
    end
  end.

(** [JobChild]; its contract, on illumos, by number. *)
Record JobChild := mkChild { jc_pid : nat; jc_contract : option N; jc_reaped : option (result Z Z) }.
Definition child_new (pid : nat) : JobChild := mkChild pid None None.
Definition in_contract (c : JobChild) (ctid : N) : JobChild := mkChild (jc_pid c) (Some ctid) (jc_reaped c).

(** One turn of [wait], [reap] included: the result, unless it goes on waiting for a
    signal.  Cancelling it between two turns loses nothing. *)
Definition child_wait (fails : list (option Z)) (t : Table) (c : JobChild) : option (option (result Z Z) * Table * JobChild) :=
  match jc_reaped c with
  | Some r => Some (Some r, t, c)
  | None =>
    match try_wait fails t (jc_pid c) with
    | None => None
    | Some (Ok None, t) => Some (None, t, c)
    | Some (Ok (Some status), t) => Some (Some (Ok status), t, mkChild (jc_pid c) (jc_contract c) (Some (Ok status)))
    | Some (Err errno, t) => Some (Some (Err errno), t, mkChild (jc_pid c) (jc_contract c) (Some (Err errno)))
    end
  end.

(** Whom [kill] reaches: the child's contract if it is known, or its process group. *)
Definition child_kill (t : Table) (c : JobChild) : list Proc :=
  match jc_contract c with
  | Some ctid => contract_of t ctid
  | None => group_of t (jc_pid c)
  end.

(** [Drop]: a child that was never reaped is killed. *)
Definition child_drop (t : Table) (c : JobChild) : option (Signal * list Proc) :=
  match jc_reaped c with
  | Some _ => None
  | None => Some (SIGKILL, child_kill t c)
  end.

(** ** What processes do *)

(** A contract that is no process's, and not the job's. *)
Definition contract_free (t : Table) (c : JobChild) (ctid : N) : Prop :=
  (∀ pid p, t !! pid = Some p → pr_contract p ≠ ctid) ∧ jc_contract c ≠ Some ctid.

(** A process forks, in its contract or a new one; leads a group, or joins one of its
    session, unless it is the child, which leads its session; or ends, when a process
    that is not the child is reaped; the job may wait for the child.  The sessions of
    the job are those of its child and its descendants. *)
Inductive os_step : Table * JobChild → Table * JobChild → Prop :=
| OsFork t c parent p pid : t !! parent = Some p → pr_ended p = None → in_use t pid = false →
    os_step (t, c) (<[pid := mkProc (pr_group p) (pr_contract p) (pr_job p) None]> t, c)
| OsForkNew t c parent p pid ctid : t !! parent = Some p → pr_ended p = None → in_use t pid = false → contract_free t c ctid →
    os_step (t, c) (<[pid := mkProc (pr_group p) ctid (pr_job p) None]> t, c)
| OsLead t c pid p : t !! pid = Some p → pr_ended p = None →
    os_step (t, c) (<[pid := mkProc pid (pr_contract p) (pr_job p) None]> t, c)
| OsJoin t c pid p other q : t !! pid = Some p → pr_ended p = None → t !! other = Some q → pr_job q = pr_job p →
    pid ≠ jc_pid c ∨ jc_reaped c ≠ None →
    os_step (t, c) (<[pid := mkProc (pr_group q) (pr_contract p) (pr_job p) None]> t, c)
| OsEnd t c pid p : t !! pid = Some p → pid ≠ jc_pid c → os_step (t, c) (delete pid t, c)
| OsEndChild t c p status : jc_reaped c = None → t !! jc_pid c = Some p → pr_ended p = None →
    os_step (t, c) (<[jc_pid c := mkProc (pr_group p) (pr_contract p) (pr_job p) (Some status)]> t, c)
| OsEndOther t c p : jc_reaped c ≠ None → t !! jc_pid c = Some p → os_step (t, c) (delete (jc_pid c) t, c)
| OsWait t c fails r t' c' : child_wait fails t c = Some (r, t', c') → os_step (t, c) (t', c').

(** The child is spawned where its identifier is free, into a group of its own, and on
    illumos into a contract of its own, [in_contract]. *)
Inductive os_run : Table → JobChild → Prop :=
| OsSpawn t pid ctid : in_use t pid = false → (∀ q p, t !! q = Some p → pr_job p = false) →
    os_run (<[pid := mkProc pid ctid true None]> t) (child_new pid)
| OsSpawnIn t pid ctid : in_use t pid = false → (∀ q p, t !! q = Some p → pr_job p = false) → contract_free t (child_new pid) ctid →
    os_run (<[pid := mkProc pid ctid true None]> t) (in_contract (child_new pid) ctid)
| OsStep t c t' c' : os_run t c → os_step (t, c) (t', c') → os_run t' c'.

(** ** While the child is not reaped *)

Lemma table_filter (t : Table) (f : Proc → bool) p :
  p ∈ List.filter f (map_to_list t).*2 ↔ f p = true ∧ ∃ pid, t !! pid = Some p.
Proof.
  rewrite list_elem_of_In, List.filter_In, <- list_elem_of_In, list_elem_of_fmap. split.
  - intros [([pid q]&->&Hq%elem_of_map_to_list)%id Hg]. eauto.
  - intros [Hg (pid&Hp)]. split; [|done]. exists (pid, p). split; [done|]. by apply elem_of_map_to_list.
Qed.
Lemma group_of_elem t g p : p ∈ group_of t g ↔ pr_group p = g ∧ ∃ pid, t !! pid = Some p.
Proof. unfold group_of. by rewrite table_filter, bool_decide_eq_true. Qed.
Lemma contract_of_elem t ctid p : p ∈ contract_of t ctid ↔ (pr_contract p = ctid ∧ pr_ended p = None) ∧ ∃ pid, t !! pid = Some p.
Proof. unfold contract_of. by rewrite table_filter, bool_decide_eq_true. Qed.

Lemma in_use_false t pid : in_use t pid = false → t !! pid = None ∧ ∀ q p, t !! q = Some p → pr_group p ≠ pid.
Proof.
  unfold in_use. intros [H1%bool_decide_eq_false H2%negb_false_iff]%orb_false_iff. apply bool_decide_eq_true in H2.
  split; [by apply eq_None_not_Some|]. intros q p Hq Hg. assert (Hin : p ∈ group_of t pid) by (apply group_of_elem; eauto).
  rewrite H2 in Hin. by apply elem_of_nil in Hin.
Qed.

(** The job's contract is the job's.  Until the child is reaped it has its identifier,
    its group and its contract, and its group is the job's. *)
Definition contract_held (t : Table) (c : JobChild) : Prop :=
  ∀ ctid, jc_contract c = Some ctid → ∀ pid p, t !! pid = Some p → pr_contract p = ctid → pr_job p = true.
Definition leads (c : JobChild) (p : Proc) : Prop :=
  pr_job p = true ∧ pr_group p = jc_pid c ∧ ∀ ctid, jc_contract c = Some ctid → pr_contract p = ctid.
Definition child_held (t : Table) (c : JobChild) : Prop :=
  (∃ p, t !! jc_pid c = Some p ∧ leads c p) ∧
  (∀ pid p, t !! pid = Some p → pr_group p = jc_pid c → pr_job p = true).
Definition child_inv (t : Table) (c : JobChild) : Prop := contract_held t c ∧ (jc_reaped c = None → child_held t c).

Lemma try_wait_kept fails t pid t' :
  (try_wait fails t pid = Some (Ok None, t') → t' = t) ∧ (∀ e, try_wait fails t pid = Some (Err e, t') → t' = t) ∧
  (∀ st, try_wait fails t pid = Some (Ok (Some st), t') → t' = delete pid t).
Proof.
  induction fails as [|f fails IH]; cbn [try_wait]; [done|]. unfold waitpid. destruct f as [errno|].
  - destruct (errno =? EINTR)%Z; [done|]. split; [done|]. split; [|done]. by intros e [= _ <-].
  - destruct (t !! pid) as [p|]; [destruct (pr_ended p); (split_and!; [by intros [= <-]|done|by intros st [= _ <-]])|].
    split; [by intros|]. split; [|done]. cbn. by intros e [= _ <-].
Qed.

(** A process of the table, or a new one where the identifier is free. *)
Lemma child_inv_insert t c pid p :
  child_inv t c →
  (∀ ctid, jc_contract c = Some ctid → pr_contract p = ctid → pr_job p = true) →
  (jc_reaped c = None → if bool_decide (pid = jc_pid c) then leads c p else pr_group p = jc_pid c → pr_job p = true) →
  child_inv (<[pid := p]> t) c.
Proof.
  intros [Hct Hinv] Hc Hp. split.
  - intros ctid E q x. rewrite lookup_insert. destruct (decide (pid = q)); [intros [= <-]; by apply (Hc ctid)|by apply (Hct ctid E)].
  - intros Hn. specialize (Hp Hn). destruct (Hinv Hn) as [(x&Hx&Hl) Hg]. split.
    + destruct (decide (pid = jc_pid c)) as [->|Hne]; [|exists x; by rewrite lookup_insert_ne].
      exists p. rewrite lookup_insert_eq. rewrite bool_decide_true in Hp by done. done.
    + intros r y. rewrite lookup_insert. destruct (decide (pid = r)); [|by apply Hg]. intros [= <-].
      case_bool_decide; [|done]. intros _. apply Hp.
Qed.

Lemma child_inv_delete t c pid : child_inv t c → pid ≠ jc_pid c ∨ jc_reaped c ≠ None → child_inv (delete pid t) c.
Proof.
  intros [Hct Hinv] Hp. split.
  - intros ctid E q x [_ Hx]%lookup_delete_Some. by eapply Hct.
  - intros Hn. destruct Hp as [Hp|Hp]; [|done]. destruct (Hinv Hn) as [(x&Hx&Hl) Hg]. split.
    + exists x. by rewrite lookup_delete_ne.
    + intros r y [_ Hr]%lookup_delete_Some. by apply Hg with r.
Qed.

(** A process of the table that changes its group or contract, or its child. *)
Lemma child_inv_from t c pid q p p' :
  child_inv t c → t !! q = Some p → pr_job p' = pr_job p →
  (pr_contract p' = pr_contract p ∨ jc_contract c ≠ Some (pr_contract p')) →
  (jc_reaped c = None → if bool_decide (pid = jc_pid c) then q = pid ∧ pr_group p' = pr_group p ∧ pr_contract p' = pr_contract p
     else pr_group p' = jc_pid c → pr_job p = true) →
  child_inv (<[pid := p']> t) c.
Proof.
  intros Hinv Hq Hj Hct Hp. apply child_inv_insert; [done|..].
  - intros ctid E Ep. rewrite Hj. destruct Hct as [Hct|Hct]; [|congruence]. destruct Hinv as [Hinv _].
    eapply Hinv; [exact E|exact Hq|congruence].
  - intros Hn. specialize (Hp Hn). case_bool_decide; [|by rewrite Hj]. destruct Hp as (->&Hg&Hc).
    destruct Hinv as [_ Hinv]. destruct (Hinv Hn) as [(x&Hx&Hl1&Hl2&Hl3) _]. subst pid.
    replace x with p in * by congruence. split_and!; [congruence..|]. intros ctid E. rewrite Hc. by apply Hl3.
Qed.

Lemma os_step_inv t c t' c' : os_step (t, c) (t', c') → child_inv t c → child_inv t' c'.
Proof.
  intros Hs Hinv. assert (Hheld := proj2 Hinv). inversion Hs; subst.
  - match goal with H : in_use _ _ = false |- _ => apply in_use_false in H as [Hf Hg] end.
    eapply child_inv_from; [done|done|done|by left|]. intros Hn. destruct (Hheld Hn) as [(x&Hx&_) Hgr].
    rewrite bool_decide_false by congruence. cbn. intros E. by eapply Hgr.
  - match goal with H : in_use _ _ = false |- _ => apply in_use_false in H as [Hf Hg] end.
    match goal with H : contract_free _ _ _ |- _ => destruct H as [_ Hc] end.
    eapply child_inv_from; [done|done|done|by right|]. intros Hn. destruct (Hheld Hn) as [(x&Hx&_) Hgr].
    rewrite bool_decide_false by congruence. cbn. intros E. by eapply Hgr.
  - eapply child_inv_from; [done|done|done|by left|]. intros Hn. destruct (Hheld Hn) as [(x&Hx&_&Hl&_) Hgr]. cbn.
    case_bool_decide as E; [|done]. subst pid. replace x with p in * by congruence. done.
  - apply (child_inv_from t c' pid pid p); [done|done|done|by left|]. intros Hn. destruct (Hheld Hn) as [(x&Hx&_) Hgr]. cbn.
    rewrite bool_decide_false by (match goal with H : _ ∨ _ |- _ => by destruct H end). intros E.
    match goal with H : pr_job q = _ |- _ => rewrite <- H end. by eapply Hgr.
  - apply child_inv_delete; [done|by left].
  - eapply child_inv_from; [done|done|done|by left|]. intros Hn. by rewrite bool_decide_true.
  - apply child_inv_delete; [done|by right].
  - unfold child_wait in *. destruct (jc_reaped c) as [x|] eqn:Er.
    + match goal with H : Some _ = Some _ |- _ => by injection H as <- <- <- end.
    + destruct (try_wait fails t (jc_pid c)) as [[[[st|]|e] t1]|] eqn:Et; try congruence;
        match goal with H : Some _ = Some _ |- _ => injection H as <- <- <- end.
      * rewrite (proj2 (proj2 (try_wait_kept _ _ _ _)) _ Et). destruct Hinv as [Hct _]. split; [|done].
        intros ctid E q y [_ Hy]%lookup_delete_Some. by eapply Hct.
      * by rewrite (proj1 (try_wait_kept _ _ _ _) Et).
      * rewrite (proj1 (proj2 (try_wait_kept _ _ _ _)) _ Et). by destruct Hinv.
Qed.

Lemma os_run_inv t c : os_run t c → child_inv t c.
Proof.
  induction 1 as [t pid ctid Hf Hnone|t pid ctid Hf Hnone [Hct _]|t c t' c' Hr IH Hs]; [| |by eapply os_step_inv].
  all: apply in_use_false in Hf as [Hf Hg]; split; [|intros _; split].
  - done.
  - exists (mkProc pid ctid true None). by rewrite lookup_insert_eq.
  - intros q p. rewrite lookup_insert. case_decide; [by intros [= <-]|]. intros Hq Hgp. by apply Hg in Hq.
  - intros ctid' [= <-] q p. rewrite lookup_insert. case_decide; [by intros [= <-]|]. intros Hq Hgp. by apply Hct in Hq.
  - exists (mkProc pid ctid true None). rewrite lookup_insert_eq. split; [done|]. split_and!; [done..|]. by intros ctid' [= <-].
  - intros q p. rewrite lookup_insert. case_decide; [by intros [= <-]|]. intros Hq Hgp. by apply Hg in Hq.
Qed.

(** C37. Signals stay in the job.  Whatever else is started, grouped or ended: until its
    exit status has been read, a child keeps its process identifier, which no one else
    can be given; a signal to the job reaches only processes of the job, and the child
    among them unless it has ended; and so does the kill when the child is dropped.  A
    signal through a contract reaches no one else even later.  Once the status has been
    read, dropping the child signals no one, and waiting again gives the same answer
    without asking the system. *)
Theorem signals_stay_in_job t c :
  os_run t c →
  (jc_reaped c = None →
     (∃ p, t !! jc_pid c = Some p ∧ pr_job p = true ∧ (pr_ended p = None → p ∈ child_kill t c)) ∧
     (∀ p, p ∈ child_kill t c → pr_job p = true) ∧
     child_drop t c = Some (SIGKILL, child_kill t c)) ∧
  (jc_contract c ≠ None → ∀ p, p ∈ child_kill t c → pr_job p = true) ∧
  (∀ r, jc_reaped c = Some r → child_drop t c = None ∧ ∀ fails, child_wait fails t c = Some (Some r, t, c)).
Proof.
  intros [Hct Hh]%os_run_inv.
  assert (Hc : jc_contract c ≠ None → ∀ p, p ∈ child_kill t c → pr_job p = true).
  { unfold child_kill. destruct (jc_contract c) as [ctid|] eqn:Ec; [|done].
    intros _ p [[Hp _] (pid&Hpid)]%contract_of_elem. by eapply Hct. }
  split_and!; [|done|].
  - intros Hn. destruct (Hh Hn) as [(p&Hp&Hj&Hl&Hlc) Hg]. split_and!.
    + exists p. split_and!; [done..|]. intros He. unfold child_kill. destruct (jc_contract c) as [ctid|].
      * apply contract_of_elem. split; [split; [by apply Hlc|done]|eauto].
      * apply group_of_elem. eauto.
    + intros q. destruct (jc_contract c) as [ctid|] eqn:Ec; [by apply Hc|]. unfold child_kill. rewrite Ec.
      intros [Hq (pid&Hpid)]%group_of_elem. by eapply Hg.
    + unfold child_drop. by rewrite Hn.
  - intros r Hn. unfold child_drop, child_wait. by rewrite Hn.
Qed.

(** ** A stranger in the group *)

Definition shell : Proc := mkProc 1 0 false None.
Definition stranger (g : nat) : Proc := mkProc g 0 false None.
Definition before : Table := {[1%nat := shell]}.
Definition spawned (ctid : N) : Table := <[7%nat := mkProc 7 ctid true None]> before.
Definition reaped_child : JobChild := mkChild 7 None (Some (Ok 0%Z)).

Lemma before_shell q p : before !! q = Some p → p = shell.
Proof. unfold before. rewrite lookup_singleton. by case_decide; [intros [= <-]|]. Qed.
Lemma spawned_run : os_run (spawned 0) (child_new 7).
Proof. apply OsSpawn; [reflexivity|]. by intros q p ->%before_shell. Qed.
Lemma spawned_in : os_run (spawned 5) (in_contract (child_new 7) 5).
Proof. apply OsSpawnIn; [reflexivity|by intros q p ->%before_shell|]. split; [by intros q p ->%before_shell|done]. Qed.

(** Without a contract, once the status has been read the identifier is free: another
    process may get it, lead a group, and be all that a signal to the job reaches. *)
Lemma reaped_signal_strays : ∃ t, os_run t reaped_child ∧ child_kill t reaped_child = [stranger 7].
Proof.
  exists (<[7%nat := stranger 7]> (<[7%nat := stranger 1]> before)). split; [|reflexivity].
  assert (H1 : os_run (<[7%nat := mkProc 7 0 true (Some 0%Z)]> (spawned 0)) (child_new 7)).
  { eapply OsStep; [exact spawned_run|]. by apply (OsEndChild (spawned 0) (child_new 7) (mkProc 7 0 true None) 0%Z). }
  assert (H2 : os_run (delete 7%nat (<[7%nat := mkProc 7 0 true (Some 0%Z)]> (spawned 0))) reaped_child).
  { eapply OsStep; [exact H1|]. by apply (OsWait _ _ [None] (Some (Ok 0%Z))). }
  assert (E : delete 7%nat (<[7%nat := mkProc 7 0 true (Some 0%Z)]> (spawned 0)) = before).
  { apply map_eq; intros i. unfold spawned, before.
    by destruct (decide (i = 7%nat)) as [->|]; rewrite ?lookup_delete_eq, ?lookup_delete_ne, ?lookup_insert_ne by done. }
  rewrite E in H2.
  assert (H3 : os_run (<[7%nat := stranger 1]> before) reaped_child).
  { eapply OsStep; [exact H2|]. by apply (OsFork before reaped_child 1 shell 7). }
  eapply OsStep; [exact H3|]. by apply (OsLead (<[7%nat := stranger 1]> before) reaped_child 7 (stranger 1)).
Qed.

Lemma signals_stay_in_job_witness :
  child_drop (spawned 0) (child_new 7) = Some (SIGKILL, [mkProc 7 0 true None]) ∧
  child_drop (spawned 5) (in_contract (child_new 7) 5) = Some (SIGKILL, [mkProc 7 5 true None]) ∧
  mkProc 7 5 true None ∈ child_kill (spawned 5) (in_contract (child_new 7) 5).
Proof.
  split; [exact (proj2 (proj2 (proj1 (signals_stay_in_job (spawned 0) (child_new 7) spawned_run) eq_refl)))|].
  destruct (proj1 (signals_stay_in_job (spawned 5) (in_contract (child_new 7) 5) spawned_in) eq_refl) as ((p&Hp&_&Hk)&_&Hd).
  split; [exact Hd|]. injection Hp as <-. exact (Hk eq_refl).
Defined.
