(* ===== verification/Agent.v ===== *)
(** * The SSH agent protocol ([client/src/agent.rs], [identity.rs])

    Messages are a [u32] length, a type byte and a payload of length-prefixed
    strings.  A connection is what it has still to read and what it has written;
    the agent at its other end is the bytes it answers.  Key and signature
    formats are the [ssh_key] crate's. *)
From S2P Require Import Prelude External Codephrases Hash Keys Ssh.
Open Scope N_scope.
Open Scope rust_scope.

Definition SSH_AGENTC_REQUEST_IDENTITIES : N := 11.
Definition SSH_AGENTC_SIGN_REQUEST : N := 13.
Definition SSH_AGENT_FAILURE : N := 5.
Definition SSH_AGENT_IDENTITIES_ANSWER : N := 12.
Definition SSH_AGENT_SIGN_RESPONSE : N := 14.
Definition MAX_MESSAGE : N := 256 * 1024.
Definition NO_FLAGS : N := 0.

(** [AgentError]. *)
Inductive AgentError :=
| AgEmpty
| AgFailure
| AgOversized (len : N)
| AgSshKey
| AgTrailing
| AgTruncated
| AgUnexpected (sent got : N).

Definition unexpected (sent got : N) : AgentError :=
  if got =? SSH_AGENT_FAILURE then AgFailure else AgUnexpected sent got.

(** ** Encoding *)

(** [length]: the [u32] limit is above [MAX_MESSAGE]. *)
Definition agent_length (bytes : list byte) : result (list byte) AgentError :=
  let len := N.of_nat (length bytes) in
  if (len <? 2 ^ 32) && (len <=? MAX_MESSAGE) then Ok (be_bytes 4 len) else Err (AgOversized len).

(** [put_string], [frame]. *)
Definition put_string (buf bytes : list byte) : result (list byte) AgentError :=
  let? len := agent_length bytes in Ok (buf ++ len ++ bytes).
Definition frame (body : list byte) : result (list byte) AgentError := put_string [] body.

(** [request_identities]; its [expect] cannot fail. *)
Definition request_identities : list byte := be_bytes 4 1 ++ [byte_of_N SSH_AGENTC_REQUEST_IDENTITIES].

(** ** Decoding *)

(** [try_get_u32], [get_string]. *)
Definition get_u32 (buf : list byte) : result (N * list byte) AgentError :=
  if (length buf <? 4)%nat then Err AgTruncated else Ok (be_value (take 4 buf), drop 4 buf).
Definition get_string (buf : list byte) : result (list byte * list byte) AgentError :=
  let? (len, buf) := get_u32 buf in
  if N.of_nat (length buf) <? len then Err AgTruncated
  else Ok (take (N.to_nat len) buf, drop (N.to_nat len) buf).

Definition done_with (payload : list byte) : result () AgentError :=
  match payload with [] => Ok () | _ => Err AgTrailing end.

(** ** Identities ([identity.rs]) *)

(** [IdentityError]. *)
Inductive IdentityError := IdAgent (e : AgentError) | IdFileIo | IdKey (e : KeyError) | IdNoIdentity.

Section agent.
Context {Isha : Sha3} {Ipki : Pki} {Issh : Ssh}.
(** [PublicKey::from_bytes]; [Signature::try_from] of a blob; the conversions of
    [ssh_key] signatures. *)
Variables (key_from_bytes : list byte → option SshPublicKey)
  (signature_from_bytes : list byte → option (SshAlgorithm * list byte))
  (ecdsa_from_ssh : list byte → option EcdsaSignature)
  (ed25519_from_ssh : list byte → option Ed25519Signature).

(** [sign_request]. *)
Definition sign_request (key : SshPublicKey) (data : list byte) : result (list byte) AgentError :=
  let? blob := ok_or (ssh_to_bytes key) AgSshKey in
  let? body := put_string [byte_of_N SSH_AGENTC_SIGN_REQUEST] blob in
  let? body := put_string body data in
  frame (body ++ be_bytes 4 NO_FLAGS).

(** The loop of [identities_answer]: [count] keys, each with its comment. *)
Fixpoint get_keys (count : nat) (payload : list byte) :
    result (list (SshPublicKey * list byte) * list byte) AgentError :=
  match count with
  | O => Ok ([], payload)
  | S count =>
    let? (blob, payload) := get_string payload in
    let? (comment, payload) := get_string payload in
    let? key := ok_or (key_from_bytes blob) AgSshKey in
    let? (keys, payload) := get_keys count payload in
    Ok ((key, comment) :: keys, payload)
  end.

Definition identities_answer (payload : list byte) : result (list (SshPublicKey * list byte)) AgentError :=
  let? (count, payload) := get_u32 payload in
  let? (keys, payload) := get_keys (N.to_nat count) payload in
  let? _ := done_with payload in
  Ok keys.

(** [sign_response]. *)
Definition sign_response (payload : list byte) : result (SshAlgorithm * list byte) AgentError :=
  let? (signature, payload) := get_string payload in
  let? _ := done_with payload in
  ok_or (signature_from_bytes signature) AgSshKey.

(** [TryFrom<SshSignature> for Signature] of [common/src/keys.rs]. *)
Definition signature_of_ssh (s : SshAlgorithm * list byte) : result Signature KeyError :=
  match s.1 with
  | AEcdsaNistP256 => let? s := ok_or (ecdsa_from_ssh s.2) KSshKey in Ok (EcdsaSha256 s)
  | AEd25519 => let? s := ok_or (ed25519_from_ssh s.2) KSshKey in Ok (Ed25519 s)
  | ASkEcdsaSha2NistP256 => Ok (SkEcdsaSha256 s.2)
  | ASkEd25519 => Ok (SkEd25519 s.2)
  | _ => Err KInvalidSignatureAlgorithm
  end.

(** [SshAgentConnection]: the bytes still to come, the bytes written, and the
    cached identity.  A read past the end of what the agent sends fails. *)
Record AgentConnection := mkConn {
  ac_in : list byte;
  ac_out : list byte;
  ac_identity : option SshPublicKey;
}.

Definition with_identity (c : AgentConnection) (k : SshPublicKey) : AgentConnection :=
  mkConn (ac_in c) (ac_out c) (Some k).

(** [read_exact]. *)
Definition read_exact (n : nat) (c : AgentConnection) : result (list byte) IdentityError * AgentConnection :=
  if (length (ac_in c) <? n)%nat then (Err IdFileIo, mkConn [] (ac_out c) (ac_identity c))
  else (Ok (take n (ac_in c)), mkConn (drop n (ac_in c)) (ac_out c) (ac_identity c)).

(** [transact]; a failed write is [wrote = false]. *)
Definition transact (wrote : bool) (c : AgentConnection) (request : list byte) :
    result (N * list byte) IdentityError * AgentConnection :=
  if negb wrote then (Err IdFileIo, c)
  else
    let c := mkConn (ac_in c) (ac_out c ++ request) (ac_identity c) in
    match read_exact 4 c with
    | (Err e, c) => (Err e, c)
    | (Ok prefix, c) =>
      let len := be_value prefix in
      if MAX_MESSAGE <? len then (Err (IdAgent (AgOversized len)), c)
      else
        match read_exact (N.to_nat len) c with
        | (Err e, c) => (Err e, c)
        | (Ok [], c) => (Err (IdAgent AgEmpty), c)
        | (Ok (kind :: payload), c) => (Ok (Byte.to_N kind, payload), c)
        end
    end.

(** [list_identities]. *)
Definition list_identities (wrote : bool) (c : AgentConnection) :
    result (list SshPublicKey) IdentityError * AgentConnection :=
  match transact wrote c request_identities with
  | (Err e, c) => (Err e, c)
  | (Ok (kind, payload), c) =>
    (if kind =? SSH_AGENT_IDENTITIES_ANSWER then
       let? keys := map_err IdAgent (identities_answer payload) in
       Ok (filter (λ k, is_acceptable_algorithm (ssh_algorithm k) = true) (map fst keys))
     else Err (IdAgent (unexpected SSH_AGENTC_REQUEST_IDENTITIES kind)), c)
  end.

(** [identity]. *)
Definition has_key_id (kid : KeyId) (k : SshPublicKey) : bool :=
  match ssh_key_id k with Ok id => bool_decide (id = kid) | Err _ => false end.
Definition pick (kid : option KeyId) (keys : list SshPublicKey) : option SshPublicKey :=
  match kid with Some kid => find_first (has_key_id kid) keys | None => head keys end.

Definition identity (wrote : bool) (c : AgentConnection) (kid : option KeyId) :
    result SshPublicKey IdentityError * AgentConnection :=
  match kid, ac_identity c with
  | None, Some key => (Ok key, c)
  | _, _ =>
    match list_identities wrote c with
    | (Err e, c) => (Err e, c)
    | (Ok keys, c) =>
      match pick kid keys with
      | Some key => (Ok key, with_identity c key)
      | None => (Err IdNoIdentity, c)
      end
    end
  end.

(** [sign_with]. *)
Definition sign_with (wrote : bool) (c : AgentConnection) (key : SshPublicKey) (message : list byte) :
    result Signature IdentityError * AgentConnection :=
  match sign_request key message with
  | Err e => (Err (IdAgent e), c)
  | Ok request =>
    match transact wrote c request with
    | (Err e, c) => (Err e, c)
    | (Ok (kind, payload), c) =>
      (if kind =? SSH_AGENT_SIGN_RESPONSE then
         let? s := map_err IdAgent (sign_response payload) in map_err IdKey (signature_of_ssh s)
       else Err (IdAgent (unexpected SSH_AGENTC_SIGN_REQUEST kind)), c)
    end
  end.

(** [Signer::sign] of a connection; each exchange can fail to be written. *)
Definition agent_sign {T} `{!ToBeSigned T} (wrote1 wrote2 : bool) (c : AgentConnection) (thing : T) :
    result (Signed T) IdentityError * AgentConnection :=
  match identity wrote1 c None with
  | (Err e, c) => (Err e, c)
  | (Ok key, c) =>
    match sign_with wrote2 c key (to_be_signed thing) with
    | (Err e, c) => (Err e, c)
    | (Ok sg, c) =>
      (let? kid := map_err IdKey (ssh_key_id key) in
       let? encoded := map_err IdKey (encode_signature sg) in
       Ok (mkSigned thing kid encoded), c)
    end
  end.
(** ** Messages are read as they were written *)

(** A protocol string, and an entry of an identities answer. *)
Definition wire_string (bytes : list byte) : list byte := be_bytes 4 (N.of_nat (length bytes)) ++ bytes.
Definition wire_key (x : list byte * list byte) : list byte := wire_string x.1 ++ wire_string x.2.
Definition wire_answer (l : list (list byte * list byte)) : list byte :=
  be_bytes 4 (N.of_nat (length l)) ++ concat (map wire_key l).

Definition fits_u32 (bytes : list byte) : Prop := N.of_nat (length bytes) < 2 ^ 32.

Lemma get_u32_ok buf n rest : get_u32 buf = Ok (n, rest) ↔ n < 2 ^ 32 ∧ buf = be_bytes 4 n ++ rest.
Proof.
  unfold get_u32. destruct (Nat.ltb_spec (length buf) 4) as [Hl|Hl].
  - split; [done|]. intros [_ ->]. rewrite length_app, length_be_bytes in Hl. lia.
  - assert (H4 : length (take 4 buf) = 4%nat) by (rewrite length_take; lia). split.
    + intros [= <- <-]. split; [pose proof (be_value_bound (take 4 buf)) as Hb; by rewrite H4 in Hb|].
      rewrite <- (take_drop 4 buf) at 1. f_equal. rewrite <- (be_bytes_be_value (take 4 buf)) at 1. by rewrite H4.
    + intros [Hn ->]. rewrite take_app_length', drop_app_length' by (by rewrite length_be_bytes).
      rewrite be_value_be_bytes, N.mod_small by done. done.
Qed.

Lemma get_string_ok buf bytes rest :
  get_string buf = Ok (bytes, rest) ↔ fits_u32 bytes ∧ buf = wire_string bytes ++ rest.
Proof.
  unfold get_string, wire_string, fits_u32. split.
  - destruct (get_u32 buf) as [[n buf']|] eqn:E; cbn [rbind]; [|done]. apply get_u32_ok in E as [Hn ->].
    destruct (N.ltb_spec (N.of_nat (length buf')) n) as [|Hl]; [done|]. intros [= <- <-].
    rewrite length_take, Nat.min_l, N2Nat.id by lia. split; [done|]. by rewrite <- app_assoc, take_drop.
  - intros [Hb ->]. rewrite <- app_assoc.
    rewrite (proj2 (get_u32_ok _ (N.of_nat (length bytes)) (bytes ++ rest))) by done. cbn [rbind].
    rewrite length_app, (proj2 (N.ltb_ge _ _)) by lia. by rewrite Nat2N.id, take_app_length, drop_app_length.
Qed.

Lemma wire_keys_cons blob comment l rest :
  concat (map wire_key ((blob, comment) :: l)) ++ rest =
  wire_string blob ++ wire_string comment ++ concat (map wire_key l) ++ rest.
Proof. cbn [map concat]. change (wire_key (blob, comment)) with (wire_string blob ++ wire_string comment). by rewrite <- !app_assoc. Qed.

Lemma get_keys_ok count payload keys rest :
  get_keys count payload = Ok (keys, rest) ↔
  ∃ l, length l = count ∧ payload = concat (map wire_key l) ++ rest ∧
    Forall (λ x, fits_u32 x.1 ∧ fits_u32 x.2) l ∧
    Forall2 (λ x k, key_from_bytes x.1 = Some k.1 ∧ x.2 = k.2) l keys.
Proof.
  revert payload keys. induction count as [|count IH]; intros payload keys; cbn [get_keys].
  - split.
    + intros [= <- <-]. exists []. by split_and!.
    + intros ([|x l]&Hl&->&_&Hk); [|done]. by inversion Hk.
  - split.
    + destruct (get_string payload) as [[blob p1]|] eqn:E1; cbn [rbind]; [|done].
      destruct (get_string p1) as [[comment p2]|] eqn:E2; cbn [rbind]; [|done].
      destruct (key_from_bytes blob) as [key|] eqn:Ek; cbn [rbind ok_or]; [|done].
      destruct (get_keys count p2) as [[ks p3]|] eqn:E3; cbn [rbind]; [|done]. intros [= <- <-].
      apply get_string_ok in E1 as [H1 ->], E2 as [H2 ->]. apply IH in E3 as (l&Hl&->&Hf&Hk).
      exists ((blob, comment) :: l). rewrite wire_keys_cons. cbn [length].
      split_and!; [lia|done|by constructor|by constructor].
    + intros ([|[blob comment] l]&Hl&->&Hf&Hk); [done|]. injection Hl as Hl.
      apply Forall_cons in Hf as [[Hb Hc] Hf]. inversion Hk as [|? [key c'] ? ks [Ek Ec] Hk' E1 E2]; subst.
      cbn [fst snd] in *. subst c'. rewrite wire_keys_cons.
      rewrite (proj2 (get_string_ok _ blob _)) by done. cbn [rbind].
      rewrite (proj2 (get_string_ok _ comment _)) by done. cbn [rbind]. rewrite Ek. cbn [rbind ok_or].
      rewrite (proj2 (IH _ ks)) by eauto. done.
Qed.

Lemma identities_answer_ok payload keys :
  identities_answer payload = Ok keys ↔
  ∃ l, N.of_nat (length l) < 2 ^ 32 ∧ payload = wire_answer l ∧
    Forall (λ x, fits_u32 x.1 ∧ fits_u32 x.2) l ∧
    Forall2 (λ x k, key_from_bytes x.1 = Some k.1 ∧ x.2 = k.2) l keys.
Proof.
  unfold identities_answer, wire_answer. split.
  - destruct (get_u32 payload) as [[n p]|] eqn:E; cbn [rbind]; [|done]. apply get_u32_ok in E as [Hn ->].
    destruct (get_keys (N.to_nat n) p) as [[ks rest]|] eqn:Ek; cbn [rbind]; [|done].
    destruct rest; cbn [done_with rbind]; [|done]. intros [= <-].
    apply get_keys_ok in Ek as (l&Hl&->&Hf&Hk). exists l. rewrite Hl, N2Nat.id, app_nil_r. done.
  - intros (l&Hl&->&Hf&Hk). rewrite (proj2 (get_u32_ok _ (N.of_nat (length l)) _)) by done. cbn [rbind].
    rewrite Nat2N.id, (proj2 (get_keys_ok _ _ keys [])); [done|]. exists l. by rewrite app_nil_r.
Qed.

Lemma put_string_ok buf bytes out :
  put_string buf bytes = Ok out ↔ N.of_nat (length bytes) <= MAX_MESSAGE ∧ out = buf ++ wire_string bytes.
Proof.
  unfold put_string, agent_length, wire_string.
  assert (Hm : MAX_MESSAGE < 2 ^ 32) by done.
  destruct (N.ltb_spec (N.of_nat (length bytes)) (2 ^ 32)), (N.leb_spec (N.of_nat (length bytes)) MAX_MESSAGE);
    cbn [andb rbind]; split; try (by intros [= <-]); try lia; try done.
  by intros [_ ->].
Qed.

Lemma sign_request_ok key data out :
  sign_request key data = Ok out ↔
  ∃ blob, ssh_to_bytes key = Some blob ∧
    let body := byte_of_N SSH_AGENTC_SIGN_REQUEST :: wire_string blob ++ wire_string data ++ be_bytes 4 NO_FLAGS in
    N.of_nat (length body) <= MAX_MESSAGE ∧ out = wire_string body.
Proof.
  unfold sign_request, frame. destruct (ssh_to_bytes key) as [blob|]; cbn [ok_or rbind].
  2:{ split; [done|]. by intros (?&?&_). }
  split.
  - destruct (put_string _ blob) as [b1|] eqn:E1; cbn [rbind]; [|done]. apply put_string_ok in E1 as [_ ->].
    destruct (put_string _ data) as [b2|] eqn:E2; cbn [rbind]; [|done]. apply put_string_ok in E2 as [_ ->].
    intros [Hl ->]%put_string_ok. exists blob. split; [done|]. cbv zeta.
    rewrite <- !app_assoc in Hl. cbn [app] in Hl |- *. rewrite <- !app_assoc. done.
  - intros (?&[= <-]&H). cbv zeta in H. destruct H as [Hl ->].
    assert (Hb : N.of_nat (length blob) <= MAX_MESSAGE ∧ N.of_nat (length data) <= MAX_MESSAGE).
    { unfold wire_string in Hl. cbn [length] in Hl. rewrite !length_app, !length_be_bytes in Hl. lia. }
    rewrite (proj2 (put_string_ok _ blob _)) by (split; [lia|reflexivity]). cbn [rbind].
    rewrite (proj2 (put_string_ok _ data _)) by (split; [lia|reflexivity]). cbn [rbind].
    apply put_string_ok. rewrite <- !app_assoc. cbn [app]. done.
Qed.

(** A reply of the agent, and the exchange that reads it. *)
Definition wire_reply (kind : byte) (payload : list byte) : list byte := wire_string (kind :: payload).

Lemma read_exact_ok n c bytes c' :
  read_exact n c = (Ok bytes, c') ↔
  length bytes = n ∧ ac_in c = bytes ++ ac_in c' ∧ ac_out c' = ac_out c ∧ ac_identity c' = ac_identity c.
Proof.
  unfold read_exact. destruct (Nat.ltb_spec (length (ac_in c)) n) as [Hl|Hl].
  - split; [done|]. intros (<-&E&_). rewrite E, length_app in Hl. lia.
  - split.
    + intros [= <- <-]. cbn. rewrite length_take, take_drop. split_and!; [lia|done..].
    + destruct c, c'. cbn. intros (<-&->&->&->). by rewrite take_app_length, drop_app_length.
Qed.

(** An exchange succeeds exactly when the next bytes are one whole reply, which
    it takes off the stream; nothing of the following reply is touched. *)
Lemma transact_ok wrote c request kind payload c' :
  transact wrote c request = (Ok (kind, payload), c') ↔
  wrote = true ∧ kind < 256 ∧ N.of_nat (S (length payload)) <= MAX_MESSAGE ∧
  ac_in c = wire_reply (byte_of_N kind) payload ++ ac_in c' ∧
  ac_out c' = ac_out c ++ request ∧ ac_identity c' = ac_identity c.
Proof.
  unfold transact, wire_reply, wire_string. destruct wrote; cbn [negb]; [|split; [done|by intros [? _]]].
  set (c0 := mkConn _ _ _).
  assert (Hm : MAX_MESSAGE < 2 ^ 32) by done. split.
  - destruct (read_exact 4 c0) as [[prefix|] c1] eqn:E1; [|done]. apply read_exact_ok in E1 as (L1&I1&O1&Id1).
    destruct (N.ltb_spec MAX_MESSAGE (be_value prefix)) as [|Hle]; [done|].
    destruct (read_exact _ c1) as [[[|k p]|] c2] eqn:E2; [done| |done]. apply read_exact_ok in E2 as (L2&I2&O2&Id2).
    intros [= <- <- <-]. cbn [ac_in ac_out ac_identity c0] in *. cbn [length] in *.
    rewrite byte_of_N_to_N. pose proof (Byte.to_N_bounded k).
    assert (Ep : be_bytes 4 (N.of_nat (S (length p))) = prefix).
    { rewrite L2, N2Nat.id, <- L1. apply be_bytes_be_value. }
    rewrite Ep, I1, I2, O2, O1, Id2, Id1, <- app_assoc. split_and!; [done|lia|lia|done..].
  - intros (_&Hk&Hl&Hin&Hout&Hid).
    set (c1 := mkConn ((byte_of_N kind :: payload) ++ ac_in c') (ac_out c ++ request) (ac_identity c)).
    assert (E1 : read_exact 4 c0 = (Ok (be_bytes 4 (N.of_nat (S (length payload)))), c1)).
    { apply read_exact_ok. rewrite length_be_bytes. cbn. split_and!; [done| |done|done].
      rewrite Hin. cbn [length]. by rewrite <- app_assoc. }
    rewrite E1, be_value_be_bytes, N.mod_small by (change (256 ^ N.of_nat 4) with (2 ^ 32); lia).
    rewrite (proj2 (N.ltb_ge _ _)) by done. rewrite Nat2N.id.
    assert (E2 : read_exact (S (length payload)) c1 = (Ok (byte_of_N kind :: payload), c')).
    { apply read_exact_ok. by split_and!. }
    rewrite E2, to_N_byte_of_N, N.mod_small by done. done.
Qed.

Lemma get_string_err buf e : get_string buf = Err e → e = AgTruncated.
Proof.
  unfold get_string, get_u32. destruct (_ <? 4)%nat; cbn [rbind]; [by intros [= <-]|].
  destruct (_ <? _); [by intros [= <-]|done].
Qed.

Lemma get_keys_err count payload e : get_keys count payload = Err e → e = AgTruncated ∨ e = AgSshKey.
Proof.
  revert payload. induction count as [|count IH]; intros payload; cbn [get_keys]; [done|].
  destruct (get_string payload) as [[blob p1]|] eqn:E1; cbn [rbind]; [|intros [= ->]; left; by eapply get_string_err].
  destruct (get_string p1) as [[comment p2]|] eqn:E2; cbn [rbind]; [|intros [= ->]; left; by eapply get_string_err].
  destruct (key_from_bytes blob); cbn [rbind ok_or]; [|intros [= <-]; by right].
  destruct (get_keys count p2) as [[ks p3]|] eqn:E3; cbn [rbind]; [done|]. intros [= ->]. by eapply IH.
Qed.

(** The agent's answer is read exactly.  A payload is accepted as a list of keys
    exactly when it is their count, and for each key its blob and its comment,
    length-prefixed, and nothing else; anything else is refused as truncated,
    trailing or an unknown key. *)
Theorem identities_answer_exact payload :
  (∀ keys, identities_answer payload = Ok keys ↔
     ∃ l, N.of_nat (length l) < 2 ^ 32 ∧ payload = wire_answer l ∧
       Forall (λ x, fits_u32 x.1 ∧ fits_u32 x.2) l ∧
       Forall2 (λ x k, key_from_bytes x.1 = Some k.1 ∧ x.2 = k.2) l keys) ∧
  (∀ e, identities_answer payload = Err e → e = AgTruncated ∨ e = AgTrailing ∨ e = AgSshKey).
Proof.
  split; [intros keys; apply identities_answer_ok|]. intros e. unfold identities_answer, get_u32.
  destruct (_ <? 4)%nat; cbn [rbind]; [intros [= <-]; by left|].
  destruct (get_keys _ _) as [[ks rest]|] eqn:Ek; cbn [rbind].
  - destruct rest; cbn [done_with rbind]; [done|]. intros [= <-]. auto.
  - intros [= ->]. apply get_keys_err in Ek as [->| ->]; auto.
Qed.

Lemma identity_ok wrote c kid key c1 :
  identity wrote c (Some kid) = (Ok key, c1) →
  ssh_key_id key = Ok kid ∧ is_acceptable_algorithm (ssh_algorithm key) = true ∧
  ac_out c1 = ac_out c ++ request_identities ∧ ac_identity c1 = Some key.
Proof.
  unfold identity. destruct (list_identities wrote c) as [[keys|] c'] eqn:El; [|done].
  destruct (pick (Some kid) keys) as [k|] eqn:Ep; [|done]. intros [= <- <-].
  cbn [pick] in Ep. apply find_first_Some in Ep as [Hin Hid]. unfold has_key_id in Hid.
  destruct (ssh_key_id k) as [id|]; [|done]. apply bool_decide_eq_true in Hid as ->.
  unfold list_identities in El. destruct (transact wrote c request_identities) as [[[kind payload]|] c2] eqn:Et; [|done].
  apply transact_ok in Et as (_&_&_&_&Ho&_). injection El as El <-.
  destruct (kind =? _); [|done]. destruct (map_err _ _) as [l|]; cbn [rbind] in El; [|done]. injection El as <-.
  apply list_elem_of_filter in Hin as [Ha _]. by rewrite <- Ho.
Qed.

(** C26. The key that was chosen signs, and nothing else is asked of the agent.  Once
    a key was picked by its identifier, a signature over that connection is
    attributed to it; the agent was sent exactly two messages, a request for its
    keys and one to sign the very bytes of the value under that key's blob, both
    under the message cap; and only supported algorithms are picked. *)
Theorem signs_with_chosen_key {T} `{!ToBeSigned T} w1 w2 w3 c kid key c1 (thing : T) sd c2 :
  identity w1 c (Some kid) = (Ok key, c1) → agent_sign w2 w3 c1 thing = (Ok sd, c2) →
  payload sd = thing ∧ key_id sd = kid ∧ ssh_key_id key = Ok kid ∧
  is_acceptable_algorithm (ssh_algorithm key) = true ∧
  ∃ blob, ssh_to_bytes key = Some blob ∧
    let body := byte_of_N SSH_AGENTC_SIGN_REQUEST :: wire_string blob ++ wire_string (to_be_signed thing)
                  ++ be_bytes 4 NO_FLAGS in
    N.of_nat (length body) <= MAX_MESSAGE ∧
    ac_out c2 = ac_out c ++ wire_string [byte_of_N SSH_AGENTC_REQUEST_IDENTITIES] ++ wire_string body.
Proof.
  intros (Hid&Ha&Ho&Hc)%identity_ok. unfold agent_sign, identity. rewrite Hc.
  unfold sign_with. destruct (sign_request key (to_be_signed thing)) as [request|] eqn:Er; [|done].
  apply sign_request_ok in Er as (blob&Eb&Hl&->).
  destruct (transact w3 c1 _) as [[[kind p]|] c3] eqn:Et; [|done]. apply transact_ok in Et as (_&_&_&_&Ho3&_).
  destruct (if kind =? _ then _ else _) as [sg|]; [|done]. rewrite Hid. cbn [map_err rbind].
  destruct (encode_signature sg) as [enc|]; cbn [map_err rbind]; [|done]. intros [= <- <-].
  split_and!; [done..|]. exists blob. split_and!; [done..|]. rewrite Ho3, Ho. by rewrite <- app_assoc.
Qed.
End agent.
