(* ===== verification/ClientLogin.v ===== *)
(** * The client's logins ([client/src/lib.rs], [context.rs], [commands.rs])

    Every request of the client passes a hook that signs it with the current
    login's ephemeral key.  A request that is refused logs in and tries again;
    several may be refused at once, and share one login.  The requests are tasks
    over a common state, one event per step between two awaits. *)
From S2P Require Import Prelude External Codephrases Hash Targets Keys Ssh Jobs Messages Headers Authn Agent.
Open Scope N_scope.

Section client_login.
Context {Isha : Sha3} {Ibb : BaseboardOps} {Ipki : Pki} {Issh : Ssh}.

(** ** Signing requests *)

(** [Authz]: the credentials, the ephemeral key, and the shared counter, by its
    number. *)
Record Authz := mkAuthz {
  az_credentials : Credentials;
  az_sign : list byte → Ed25519Signature;
  az_seq : nat;
}.

(** Where one call of [with_login] stands; [lg] is [logged_in]. *)
Inductive Phase :=
| Claiming
| Ready (generation : N) (lg : bool)
| Signing (generation : N) (lg : bool) (authz : option Authz) (claim : option KeyId)
| Sent (generation : N) (lg : bool)
| Refused (generation : N) (challenge : option string)
| LoggingIn (generation : N) (challenge : option string)
| Renewing (lg : bool)
| Returned (ok : bool).

(** A call, the generation it began at, and the requests and logins it made. *)
Record Task := mkTask { tk_phase : Phase; tk_begin : N; tk_sent : N; tk_logins : N }.

(** [AuthzState], the counters, and the calls; [cl_signed] logs the counter and
    number every request was signed with, [cl_logged_in] the generations at which
    logins were needed. *)
Record Client := mkClient {
  cl_authz : option Authz;
  cl_generation : N;
  cl_claim : option KeyId;
  cl_login : option nat;
  cl_seqs : list N;
  cl_tasks : gmap nat Task;
  cl_signed : list (nat * N);
  cl_logged_in : list N;
}.

Definition client_new : Client := mkClient None 0 None None [] ∅ [] [].

Definition with_task (c : Client) (t : nat) (k : Task) : Client :=
  mkClient (cl_authz c) (cl_generation c) (cl_claim c) (cl_login c) (cl_seqs c) (<[t := k]> (cl_tasks c))
    (cl_signed c) (cl_logged_in c).
Definition in_phase (k : Task) (p : Phase) : Task := mkTask p (tk_begin k) (tk_sent k) (tk_logins k).
Definition with_lock (c : Client) (l : option nat) : Client :=
  mkClient (cl_authz c) (cl_generation c) (cl_claim c) l (cl_seqs c) (cl_tasks c) (cl_signed c) (cl_logged_in c).
Definition with_claim (c : Client) (k : option KeyId) : Client :=
  mkClient (cl_authz c) (cl_generation c) k (cl_login c) (cl_seqs c) (cl_tasks c) (cl_signed c) (cl_logged_in c).

(** [AuthzSigner::set]. *)
Definition set_authz (c : Client) (a : option Authz) : Client :=
  mkClient a (cl_generation c + 1) (cl_claim c) (cl_login c) (cl_seqs c) (cl_tasks c) (cl_signed c) (cl_logged_in c).

(** [fetch_add(1)] on a [u64]. *)
Definition next_seq (n : N) : N := (n + 1) mod U64_LIMIT.

(** [Authz::sign]: the header, and the counter advanced. *)
Definition authz_sign (c : Client) (a : Authz) (method target : string) : string * Client :=
  let seq := default 0 (cl_seqs c !! az_seq a) in
  let request := bound_request_new method target seq in
  (bound_to_string (bind_request (az_sign a) (c_key_id (az_credentials a)) (c_nonce (az_credentials a)) request),
   mkClient (cl_authz c) (cl_generation c) (cl_claim c) (cl_login c) (<[az_seq a := next_seq seq]> (cl_seqs c))
     (cl_tasks c) (cl_signed c ++ [(az_seq a, seq)]) (cl_logged_in c)).

(** [request_target]. *)
Definition request_target (path : string) (query : option string) : string :=
  match query with Some query => path +:+ "?" +:+ query | None => path end.

(** [sign_request], for a request without an [Authorization] header. *)
Definition sign_header (c : Client) (authz : option Authz) (claim : option KeyId) (method target : string) :
    option string * Client :=
  match authz with
  | Some a => let '(h, c) := authz_sign c a method target in (Some h, c)
  | None => (bound_to_string ∘ bound_claim <$> claim, c)
  end.

(** ** Logging in *)

(** How a login fails, as a [CommandError]. *)
Inductive LoginFailure :=
| LfMissingSshAuthSock
| LfIdentity (e : IdentityError)
| LfInvalidAuthorization
| LfAuthn (e : AuthnError)
| LfKey (e : KeyError)
| LfCanceled
| LfBuildMismatch (client server : VersionInfo)
| LfServer (message : string).

Section authenticate.
Variables (key_from_bytes : list byte → option SshPublicKey)
  (signature_from_bytes : list byte → option (SshAlgorithm * list byte))
  (ecdsa_from_ssh : list byte → option EcdsaSignature)
  (ed25519_from_ssh : list byte → option Ed25519Signature).
Local Open Scope rust_scope.

(** What [authenticate] draws: the client's nonce, the ephemeral key's verifier,
    and whether each exchange with the agent could be written. *)
Record LoginDraws := mkLoginDraws {
  ld_cnonce : Nonce; ld_epk : RequestVerifier; ld_wrote1 : bool; ld_wrote2 : bool; ld_wrote3 : bool;
}.

(** The client half of [authenticate], up to the request: over the agent
    connection [ssh_agent] (if one is configured), the public key and the
    credentials. *)
Definition login_credentials (d : LoginDraws) (ssh_agent : option (result AgentConnection IdentityError))
    (kid : option KeyId) (challenge : option string) : result (SshPublicKey * Credentials) LoginFailure :=
  let? conn := ok_or ssh_agent LfMissingSshAuthSock in
  let? conn := map_err LfIdentity conn in
  let '(key, conn) := identity key_from_bytes (ld_wrote1 d) conn kid in
  let? key := map_err LfIdentity key in
  let? header := ok_or challenge LfInvalidAuthorization in
  let? challenge := map_err LfAuthn (challenge_from_str header) in
  let response := mkChallengeResponse (ch_nonce challenge) (ld_cnonce d) (ld_epk d) in
  let '(signed, _) := agent_sign key_from_bytes signature_from_bytes ecdsa_from_ssh ed25519_from_ssh
                        (ld_wrote2 d) (ld_wrote3 d) conn response in
  let? signed := map_err LfIdentity signed in
  let? verified := map_err LfKey (verify_with_ssh_public_key signed key) in
  Ok (key, credentials_new verified).
End authenticate.

(** [login_refused]. *)
Definition blame_builds (client : VersionInfo) (server : option VersionInfo) (error : LoginFailure) : LoginFailure :=
  match server with
  | Some server =>
    if bool_decide (commit server ≠ commit client) then LfBuildMismatch client server else error
  | None => error
  end.

(** ** Events *)

Inductive ClientEvent :=
(** A call begins; [claim_key] asks the agent for its key, and gets one or none. *)
| CBegin (t : nat)
| CClaim (t : nat) (agent_key : option KeyId)
(** The hook reads the authorization, then signs the request it sends. *)
| CHook (t : nat)
| CSign (t : nat) (method target : string)
(** A response: [Some] challenge header on a 401. *)
| CUnauthorized (t : nat) (challenge : option string)
| CResponse (t : nat) (ok : bool)
(** The login lock is had. *)
| CLock (t : nat)
(** A login ends: with credentials and the key to bind requests, or without. *)
| CAuthenticated (t : nat) (credentials : Credentials) (sign : list byte → Ed25519Signature)
| CLoginFailed (t : nat)
(** The generation is read again. *)
| CRenew (t : nat)
(** A request that no login is attempted for. *)
| CPlain (method target : string)
(** A change of key makes the REPL forget its login. *)
| CForget.

(** [claim_key], before and after it asks the agent. *)
Definition claim_needed (c : Client) : bool :=
  match cl_authz c, cl_claim c with None, None => true | _, _ => false end.
Definition set_claim (c : Client) (agent_key : option KeyId) : Client :=
  match agent_key with Some kid => with_claim c (Some kid) | None => c end.

Definition client_step (c : Client) (e : ClientEvent) : option Client :=
  match e with
  | CBegin t =>
    if bool_decide (is_Some (cl_tasks c !! t)) then None
    else
      let g := cl_generation c in
      Some (with_task c t (mkTask (if claim_needed c then Claiming else Ready g false) g 0 0))
  | CClaim t agent_key =>
    k ← cl_tasks c !! t;
    match tk_phase k with
    | Claiming =>
      let c := set_claim c agent_key in
      Some (with_task c t (mkTask (Ready (cl_generation c) false) (cl_generation c) 0 0))
    | _ => None
    end
  | CHook t =>
    k ← cl_tasks c !! t;
    match tk_phase k with
    | Ready g lg => Some (with_task c t (in_phase k (Signing g lg (cl_authz c) (cl_claim c))))
    | _ => None
    end
  | CSign t method target =>
    k ← cl_tasks c !! t;
    match tk_phase k with
    | Signing g lg authz claim =>
      let '(_, c) := sign_header c authz claim method target in
      Some (with_task c t (mkTask (Sent g lg) (tk_begin k) (tk_sent k + 1) (tk_logins k)))
    | _ => None
    end
  | CUnauthorized t challenge =>
    k ← cl_tasks c !! t;
    match tk_phase k with
    | Sent g false => Some (with_task c t (in_phase k (Refused g challenge)))
    | Sent g true => Some (with_task c t (in_phase k (Returned false)))
    | _ => None
    end
  | CResponse t ok =>
    k ← cl_tasks c !! t;
    match tk_phase k with
    | Sent g lg => Some (with_task c t (in_phase k (Returned ok)))
    | _ => None
    end
  | CLock t =>
    k ← cl_tasks c !! t;
    match tk_phase k, cl_login c with
    | Refused g challenge, None =>
      Some (if cl_generation c =? g
            then with_task (with_lock c (Some t)) t
                   (mkTask (LoggingIn g challenge) (tk_begin k) (tk_sent k) (tk_logins k + 1))
            else with_task c t (in_phase k (Renewing false)))
    | _, _ => None
    end
  | CAuthenticated t credentials sign =>
    k ← cl_tasks c !! t;
    match tk_phase k with
    | LoggingIn g _ =>
      let authz := mkAuthz credentials sign (length (cl_seqs c)) in
      let c := with_lock (set_authz c (Some authz)) None in
      Some (with_task
              (mkClient (cl_authz c) (cl_generation c) (cl_claim c) (cl_login c) (cl_seqs c ++ [1]) (cl_tasks c)
                 (cl_signed c) (cl_logged_in c ++ [g]))
              t (in_phase k (Renewing true)))
    | _ => None
    end
  | CLoginFailed t =>
    k ← cl_tasks c !! t;
    match tk_phase k with
    | LoggingIn g _ => Some (with_task (with_lock c None) t (in_phase k (Returned false)))
    | _ => None
    end
  | CRenew t =>
    k ← cl_tasks c !! t;
    match tk_phase k with
    | Renewing lg => Some (with_task c t (in_phase k (Ready (cl_generation c) lg)))
    | _ => None
    end
  | CPlain method target => Some (sign_header c (cl_authz c) (cl_claim c) method target).2
  | CForget => Some (with_claim (set_authz c None) None)
  end.

Fixpoint client_run (c : Client) (es : list ClientEvent) : option Client :=
  match es with [] => Some c | e :: es => c ← client_step c e; client_run c es end.

(** ** What a run keeps *)

(** The call an event is a step of. *)
Definition event_task (e : ClientEvent) : option nat :=
  match e with
  | CBegin t | CClaim t _ | CHook t | CSign t _ _ | CUnauthorized t _ | CResponse t _ | CLock t
  | CAuthenticated t _ _ | CLoginFailed t | CRenew t => Some t
  | CPlain _ _ | CForget => None
  end.

(** The steps of one call. *)
Definition steps_of (t : nat) (es : list ClientEvent) : N :=
  N.of_nat (length (filter (λ e, event_task e = Some t) es)).

(** The numbers signed under one counter, and the first [n] numbers it gives. *)
Definition signed_under (i : nat) (l : list (nat * N)) : list N :=
  omap (λ x, if decide (x.1 = i) then Some x.2 else None) l.
Definition numbered (n : nat) : list N := (λ j, (1 + N.of_nat j) mod U64_LIMIT) <$> List.seq 0 n.

Definition logins_in (lg : bool) : N := if lg then 1 else 0.
Definition counter_ok (c : Client) (a : option Authz) : Prop :=
  ∀ x, a = Some x → (az_seq x < length (cl_seqs c))%nat.

(** How far a call is: [n] is the number of its steps. *)
Definition task_ok (c : Client) (n : N) (t : nat) (k : Task) : Prop :=
  let d g := g - tk_begin k in
  let at_generation g := tk_begin k <= g ∧ g <= cl_generation c in
  match tk_phase k with
  | Claiming => tk_begin k <= cl_generation c ∧ n <= 1 ∧ tk_sent k = 0 ∧ tk_logins k = 0
  | Ready g lg => at_generation g ∧ n <= 2 + 6 * d g ∧ tk_sent k <= d g ∧ tk_logins k = logins_in lg
  | Signing g lg a _ =>
    at_generation g ∧ n <= 3 + 6 * d g ∧ tk_sent k <= d g ∧ tk_logins k = logins_in lg ∧ counter_ok c a
  | Sent g lg => at_generation g ∧ n <= 4 + 6 * d g ∧ tk_sent k <= 1 + d g ∧ tk_logins k = logins_in lg
  | Refused g _ => at_generation g ∧ n <= 5 + 6 * d g ∧ tk_sent k <= 1 + d g ∧ tk_logins k = 0
  | LoggingIn g _ =>
    at_generation g ∧ n <= 6 + 6 * d g ∧ tk_sent k <= 1 + d g ∧ tk_logins k = 1 ∧
    cl_login c = Some t ∧ Forall (λ x, x < g) (cl_logged_in c)
  | Renewing lg =>
    at_generation (cl_generation c) ∧ n <= 1 + 6 * d (cl_generation c) ∧ tk_sent k <= d (cl_generation c) ∧
    tk_logins k = logins_in lg
  | Returned _ =>
    at_generation (cl_generation c) ∧ n <= 7 + 6 * d (cl_generation c) ∧
    tk_sent k <= 1 + d (cl_generation c) ∧ tk_logins k <= 1
  end.

(** Under every counter the numbers are given in order. *)
Definition numbers_ok (c : Client) : Prop :=
  ∀ i, let l := signed_under i (cl_signed c) in
    l = numbered (length l) ∧
    match cl_seqs c !! i with Some n => n = (1 + N.of_nat (length l)) mod U64_LIMIT | None => l = [] end.

Record client_inv (h : list ClientEvent) (c : Client) : Prop := {
  cv_tasks : ∀ t, match cl_tasks c !! t with
                  | Some k => task_ok c (steps_of t h) t k
                  | None => steps_of t h = 0
                  end;
  cv_lock : ∀ t, cl_login c = Some t → ∃ k g ch, cl_tasks c !! t = Some k ∧ tk_phase k = LoggingIn g ch;
  cv_logged : NoDup (cl_logged_in c) ∧ Forall (λ x, x < cl_generation c) (cl_logged_in c);
  cv_authz : counter_ok c (cl_authz c);
  cv_signed : numbers_ok c;
}.

Lemma steps_of_app t h e :
  steps_of t (h ++ [e]) = steps_of t h + (if decide (event_task e = Some t) then 1 else 0).
Proof.
  unfold steps_of. rewrite filter_app, length_app, Nat2N.inj_add. f_equal.
  by destruct (decide (event_task e = Some t)); [rewrite filter_cons_True|rewrite filter_cons_False].
Qed.

Lemma counter_ok_mono c c' a :
  (length (cl_seqs c) <= length (cl_seqs c'))%nat → counter_ok c a → counter_ok c' a.
Proof. intros Hl Ha x Hx. specialize (Ha x Hx). lia. Qed.

(** A call that takes no step stays as far as it was, if a login in progress is
    not disturbed. *)
Lemma task_ok_mono c c' n t k :
  cl_generation c <= cl_generation c' → (length (cl_seqs c) <= length (cl_seqs c'))%nat →
  (cl_login c = Some t → cl_login c' = cl_login c ∧ cl_logged_in c' = cl_logged_in c) →
  task_ok c n t k → task_ok c' n t k.
Proof.
  intros Hg Hl Hk. unfold task_ok. destruct (tk_phase k) as [| |? ? a ?| | | | |]; try (intros; lia).
  - intros (?&?&?&?&Ha). split_and!; [lia..|]. by eapply counter_ok_mono.
  - intros (?&?&?&?&Hlk&Hf). destruct (Hk Hlk) as [E1 E2]. rewrite E1, E2. split_and!; [lia..|done|done].
Qed.

Lemma tasks_advance h c c' e t k' :
  client_inv h c → event_task e = Some t → cl_tasks c' = <[t := k']> (cl_tasks c) →
  cl_generation c <= cl_generation c' → (length (cl_seqs c) <= length (cl_seqs c'))%nat →
  (∀ t', t' ≠ t → cl_login c = Some t' → cl_login c' = cl_login c ∧ cl_logged_in c' = cl_logged_in c) →
  task_ok c' (steps_of t h + 1) t k' →
  ∀ t', match cl_tasks c' !! t' with
        | Some k => task_ok c' (steps_of t' (h ++ [e])) t' k
        | None => steps_of t' (h ++ [e]) = 0
        end.
Proof.
  intros Hi He Ht Hg Hl Hk Hok t'. rewrite Ht, steps_of_app, He.
  destruct (decide (t' = t)) as [->|Hne].
  - by rewrite lookup_insert_eq, decide_True.
  - rewrite lookup_insert_ne, decide_False, N.add_0_r by naive_solver.
    pose proof (cv_tasks _ _ Hi t') as Ho. destruct (cl_tasks c !! t') as [k|] eqn:Ek; [|done].
    eapply task_ok_mono; [done|done| |done]. by apply Hk.
Qed.

(** ** The numbers requests are signed with *)

Lemma numbered_S n : numbered (S n) = numbered n ++ [(1 + N.of_nat n) mod U64_LIMIT].
Proof. unfold numbered. by rewrite seq_S, fmap_app. Qed.

Lemma signed_under_app i l j n :
  signed_under i (l ++ [(j, n)]) = signed_under i l ++ (if decide (j = i) then [n] else []).
Proof. unfold signed_under. rewrite omap_app. f_equal. cbn. by case_decide. Qed.

Lemma sign_header_numbers c a claim method target :
  counter_ok c a → numbers_ok c → numbers_ok (sign_header c a claim method target).2.
Proof.
  intros Ha Hn. destruct a as [a|]; [|done]. intros i. cbn [sign_header authz_sign snd cl_signed cl_seqs]. specialize (Ha a eq_refl).
  destruct (lookup_lt_is_Some_2 _ _ Ha) as [n En]. rewrite En. cbn [from_option id].
  pose proof (Hn (az_seq a)) as [E1 E2]. rewrite En in E2. cbv zeta.
  rewrite signed_under_app. destruct (decide (az_seq a = i)) as [<-|Hne].
  - rewrite list_lookup_insert_eq by done. rewrite length_app, Nat.add_comm. cbn [length Nat.add].
    rewrite numbered_S, <- E1, <- E2. split; [done|]. unfold next_seq. rewrite E2.
    unfold id. rewrite N.Div0.add_mod_idemp_l. f_equal. lia.
  - rewrite app_nil_r, list_lookup_insert_ne by done. apply Hn.
Qed.

Lemma sign_header_state c a claim method target :
  let c' := (sign_header c a claim method target).2 in
  cl_authz c' = cl_authz c ∧ cl_generation c' = cl_generation c ∧ cl_claim c' = cl_claim c ∧
  cl_login c' = cl_login c ∧ length (cl_seqs c') = length (cl_seqs c) ∧ cl_tasks c' = cl_tasks c ∧
  cl_logged_in c' = cl_logged_in c.
Proof. destruct a; cbn; [|done]. by rewrite length_insert. Qed.

(** ** Every event keeps the invariant *)

(** A step of a call that logs nobody in. *)
Lemma plain_step h c c' e t k' :
  client_inv h c → event_task e = Some t →
  c' = with_task c t k' → task_ok c' (steps_of t h + 1) t k' →
  cl_login c ≠ Some t → client_inv (h ++ [e]) c'.
Proof.
  intros Hi He -> Hok Hnl. split.
  - by eapply tasks_advance.
  - intros t' Hl. destruct (cv_lock _ _ Hi t' Hl) as (k&g&ch&Hk&Hp). exists k, g, ch. split; [|done].
    cbn. rewrite lookup_insert_ne; [done|]. intros ->. done.
  - apply (cv_logged _ _ Hi).
  - apply (cv_authz _ _ Hi).
  - apply (cv_signed _ _ Hi).
Qed.

Lemma phase_not_locked h c t k :
  client_inv h c → cl_tasks c !! t = Some k → (∀ g ch, tk_phase k ≠ LoggingIn g ch) → cl_login c ≠ Some t.
Proof. intros Hi Hk Hp Hl. destruct (cv_lock _ _ Hi t Hl) as (k'&g&ch&Hk'&E). simplify_eq. by eapply Hp. Qed.

Lemma step_claimed h c t k kid :
  client_inv h c → cl_tasks c !! t = Some k → tk_phase k = Claiming →
  client_inv (h ++ [CClaim t kid])
    (with_task (set_claim c kid) t (mkTask (Ready (cl_generation (set_claim c kid)) false) (cl_generation (set_claim c kid)) 0 0)).
Proof.
  intros Hi Hk Hp. pose proof (phase_not_locked _ _ _ _ Hi Hk ltac:(by rewrite Hp)) as Hnl.
  pose proof (cv_tasks _ _ Hi t) as Ht. rewrite Hk in Ht. unfold task_ok in Ht. rewrite Hp in Ht.
  assert (Hi' : client_inv h (set_claim c kid)).
  { destruct kid; [|done]. destruct Hi. by split. }
  eapply plain_step; [exact Hi'|done|done| |by destruct kid]. unfold task_ok. cbn. lia.
Qed.

Lemma step_signed h c t k g lg a claim method target :
  client_inv h c → cl_tasks c !! t = Some k → tk_phase k = Signing g lg a claim →
  client_inv (h ++ [CSign t method target])
    (with_task (sign_header c a claim method target).2 t (mkTask (Sent g lg) (tk_begin k) (tk_sent k + 1) (tk_logins k))).
Proof.
  intros Hi Hk Hp. pose proof (phase_not_locked _ _ _ _ Hi Hk ltac:(by rewrite Hp)) as Hnl.
  pose proof (cv_tasks _ _ Hi t) as Ht. rewrite Hk in Ht. unfold task_ok in Ht. rewrite Hp in Ht.
  destruct Ht as (Hg&Hn&Hs&Hl&Ha).
  pose proof (sign_header_state c a claim method target) as (E1&E2&E3&E4&E5&E6&E7).
  pose proof (sign_header_numbers c a claim method target Ha (cv_signed _ _ Hi)) as Hnum.
  destruct (sign_header c a claim method target) as [hd c']. cbn [snd] in *.
  split; [|cbn..|exact Hnum].
  - eapply (tasks_advance h c); [done|done|by cbn; rewrite E6|cbn; lia|cbn; lia|by cbn; rewrite E4, E7|].
    unfold task_ok. cbn. rewrite E2. lia.
  - intros t'. rewrite E4. intros Hl'. destruct (cv_lock _ _ Hi t' Hl') as (k'&g'&ch&Hk'&Hp'). exists k', g', ch.
    rewrite E6, lookup_insert_ne; [done|]. intros ->. done.
  - rewrite E7, E2. apply (cv_logged _ _ Hi).
  - rewrite E1. eapply counter_ok_mono; [|apply (cv_authz _ _ Hi)]. cbn. lia.
Qed.

Lemma step_locked h c t k g ch :
  client_inv h c → cl_tasks c !! t = Some k → tk_phase k = Refused g ch → cl_login c = None →
  cl_generation c = g →
  client_inv (h ++ [CLock t])
    (with_task (with_lock c (Some t)) t (mkTask (LoggingIn g ch) (tk_begin k) (tk_sent k) (tk_logins k + 1))).
Proof.
  intros Hi Hk Hp Hl Hg. pose proof (cv_tasks _ _ Hi t) as Ht. rewrite Hk in Ht. unfold task_ok in Ht. rewrite Hp in Ht.
  pose proof (cv_logged _ _ Hi) as [Hnd Hlt]. split; [|cbn..].
  - eapply (tasks_advance h c); [done|done|done|cbn; lia|done|by rewrite Hl|].
    unfold task_ok. cbn. split_and!; [lia..|done|by rewrite <- Hg].
  - intros t' [= <-]. eexists _, g, ch. by rewrite lookup_insert_eq.
  - done.
  - apply (cv_authz _ _ Hi).
  - apply (cv_signed _ _ Hi).
Qed.

Lemma numbers_new_counter c c' :
  cl_signed c' = cl_signed c → cl_seqs c' = cl_seqs c ++ [1] →
  numbers_ok c → numbers_ok c'.
Proof.
  intros E1 E2 Hn i. cbv zeta. rewrite E1, E2. destruct (Hn i) as [H1 H2]. cbv zeta in H1, H2. split; [done|].
  destruct (decide (i < length (cl_seqs c))%nat) as [Hi|Hi].
  - by rewrite lookup_app_l.
  - rewrite lookup_app_r by lia. rewrite lookup_ge_None_2 in H2 by lia. rewrite H2.
    destruct (i - length (cl_seqs c))%nat as [|n]; [done|]. by destruct n.
Qed.

Lemma step_authenticated h c t k g ch credentials sign :
  client_inv h c → cl_tasks c !! t = Some k → tk_phase k = LoggingIn g ch →
  client_inv (h ++ [CAuthenticated t credentials sign])
    (mkClient (Some (mkAuthz credentials sign (length (cl_seqs c)))) (cl_generation c + 1) (cl_claim c) None
       (cl_seqs c ++ [1]) (<[t := in_phase k (Renewing true)]> (cl_tasks c)) (cl_signed c) (cl_logged_in c ++ [g])).
Proof.
  intros Hi Hk Hp. pose proof (cv_tasks _ _ Hi t) as Ht. rewrite Hk in Ht. unfold task_ok in Ht. rewrite Hp in Ht.
  destruct Ht as (Hg&Hn&Hs&Hl&Hlk&Hf). pose proof (cv_logged _ _ Hi) as [Hnd Hlt]. split.
  - eapply (tasks_advance h c); [done|done|done|cbn; lia|cbn; rewrite length_app; lia|by rewrite Hlk; intros ? ? [=]|].
    unfold task_ok. cbn. lia.
  - done.
  - cbn. split.
    + apply NoDup_app. split_and!; [done| |apply NoDup_singleton].
      intros x Hx ->%list_elem_of_singleton. rewrite Forall_forall in Hf. specialize (Hf g Hx). lia.
    + apply Forall_app. split; [eapply Forall_impl; [exact Hlt|]; intros ? Hx; cbn in *; lia|]. apply Forall_singleton. lia.
  - intros x [= <-]. cbn. rewrite length_app. cbn. lia.
  - eapply (numbers_new_counter c); [done|done|apply (cv_signed _ _ Hi)].
Qed.

Lemma step_login_failed h c t k g ch :
  client_inv h c → cl_tasks c !! t = Some k → tk_phase k = LoggingIn g ch →
  client_inv (h ++ [CLoginFailed t]) (with_task (with_lock c None) t (in_phase k (Returned false))).
Proof.
  intros Hi Hk Hp. pose proof (cv_tasks _ _ Hi t) as Ht. rewrite Hk in Ht. unfold task_ok in Ht. rewrite Hp in Ht.
  destruct Ht as (Hg&Hn&Hs&Hl&Hlk&Hf). split.
  - eapply (tasks_advance h c); [done|done|done|cbn; lia|done|by rewrite Hlk; intros ? ? [=]|].
    unfold task_ok. cbn. lia.
  - done.
  - apply (cv_logged _ _ Hi).
  - apply (cv_authz _ _ Hi).
  - apply (cv_signed _ _ Hi).
Qed.

(** A change of the authorization or a stray request touches no call. *)
Lemma step_outside h c c' e :
  client_inv h c → event_task e = None → cl_tasks c' = cl_tasks c → cl_generation c <= cl_generation c' →
  length (cl_seqs c) = length (cl_seqs c') → cl_login c' = cl_login c → cl_logged_in c' = cl_logged_in c →
  counter_ok c' (cl_authz c') → numbers_ok c' → client_inv (h ++ [e]) c'.
Proof.
  intros Hi He Ht Hg Hs Hl Hlg Ha Hn. split; [| | |done|done].
  - intros t. rewrite Ht, steps_of_app, He, decide_False, N.add_0_r by done.
    pose proof (cv_tasks _ _ Hi t) as Hk. destruct (cl_tasks c !! t) as [k|]; [|done].
    eapply task_ok_mono; [done|lia|by rewrite Hl, Hlg|done].
  - intros t. rewrite Hl, Ht. apply (cv_lock _ _ Hi).
  - rewrite Hlg. destruct (cv_logged _ _ Hi) as [? Hf]. split; [done|]. eapply Forall_impl; [exact Hf|]. intros ? Hx. cbn in *. lia.
Qed.

(** The phases in which a call takes the event of [Hs]. *)
Local Ltac in_phase_of Hi Hs :=
  apply bind_Some in Hs as (k&Ek&Hs); destruct (tk_phase k) eqn:Ep; try discriminate Hs.
(** A step that only moves the call on. *)
Local Ltac moves_on Hi Hs :=
  try (injection Hs as <-);
  match goal with
  | Ek : cl_tasks ?c !! ?t = Some ?k, Ep : tk_phase ?k = _ |- _ =>
    pose proof (cv_tasks _ _ Hi t) as Ht; rewrite Ek in Ht; unfold task_ok in Ht; rewrite Ep in Ht;
    eapply plain_step; [exact Hi|done|reflexivity| |eapply phase_not_locked; [exact Hi|exact Ek|by rewrite Ep]];
    pose proof (cv_authz _ _ Hi); unfold task_ok, logins_in in *; cbn in *; split_and?; try lia; auto
  end.

Lemma client_step_inv h c e c' : client_inv h c → client_step c e = Some c' → client_inv (h ++ [e]) c'.
Proof.
  intros Hi Hs. destruct e as [t|t kid|t|t m tg|t ch|t ok|t|t cr sg|t|t|m tg|]; cbn [client_step] in Hs.
  - case_bool_decide as Hn; [done|]. injection Hs as <-. apply eq_None_not_Some in Hn.
    pose proof (cv_tasks _ _ Hi t) as Ht. rewrite Hn in Ht. eapply plain_step; [exact Hi|done|reflexivity| |].
    + unfold task_ok. rewrite Ht. destruct (claim_needed c); cbn; lia.
    + intros Hl. destruct (cv_lock _ _ Hi t Hl) as (?&?&?&?&_). congruence.
  - in_phase_of Hi Hs. injection Hs as <-. by eapply step_claimed.
  - in_phase_of Hi Hs. moves_on Hi Hs.
  - in_phase_of Hi Hs. destruct (sign_header c authz claim m tg) as [hd c1] eqn:Eh. injection Hs as <-.
    pose proof (step_signed h c t k _ _ _ _ m tg Hi Ek Ep) as H. by rewrite Eh in H.
  - in_phase_of Hi Hs. destruct lg; moves_on Hi Hs.
  - in_phase_of Hi Hs. moves_on Hi Hs; destruct lg; lia.
  - in_phase_of Hi Hs. destruct (cl_login c) eqn:El; [done|].
    destruct (N.eqb_spec (cl_generation c) generation) as [Hg|Hg].
    + injection Hs as <-. by eapply step_locked.
    + moves_on Hi Hs.
  - in_phase_of Hi Hs. injection Hs as <-. exact (step_authenticated h c t k _ _ cr sg Hi Ek Ep).
  - in_phase_of Hi Hs. injection Hs as <-. by eapply step_login_failed.
  - in_phase_of Hi Hs. moves_on Hi Hs.
  - injection Hs as <-. pose proof (sign_header_state c (cl_authz c) (cl_claim c) m tg) as (E1&E2&E3&E4&E5&E6&E7).
    apply step_outside with c; try done; [lia| |].
    + rewrite E1. eapply counter_ok_mono; [|apply (cv_authz _ _ Hi)]. lia.
    + apply sign_header_numbers; [apply (cv_authz _ _ Hi)|apply (cv_signed _ _ Hi)].
  - injection Hs as <-. apply step_outside with c; cbn; try done; [lia|apply (cv_signed _ _ Hi)].
Qed.

Lemma client_new_inv : client_inv [] client_new.
Proof.
  split; cbn.
  - intros t. by rewrite lookup_empty.
  - done.
  - split; constructor.
  - done.
  - intros i. by destruct i.
Qed.

Lemma client_run_inv h es c c' : client_inv h c → client_run c es = Some c' → client_inv (h ++ es) c'.
Proof.
  revert h c. induction es as [|e es IH]; intros h c Hi; cbn [client_run].
  - intros [= <-]. by rewrite app_nil_r.
  - intros (c1&Hs&Hr)%bind_Some. rewrite cons_middle, app_assoc. eapply IH; [|exact Hr]. by eapply client_step_inv.
Qed.

(** ** What the runs of a client show *)

(** Refused calls share one login.  In any interleaving of calls, changes of key
    and stray requests, at most one call is logging in and it is the one that
    holds the lock; for no state of the authorization did two logins succeed; and a
    call never logs in twice. *)
Theorem refusals_share_one_login es c :
  client_run client_new es = Some c →
  NoDup (cl_logged_in c) ∧ Forall (λ g, g < cl_generation c) (cl_logged_in c) ∧
  (∀ t, cl_login c = Some t ↔ ∃ k g ch, cl_tasks c !! t = Some k ∧ tk_phase k = LoggingIn g ch) ∧
  (∀ t k, cl_tasks c !! t = Some k → tk_logins k <= 1).
Proof.
  intros Hr. pose proof (client_run_inv [] _ _ _ client_new_inv Hr) as Hi. cbn [app] in Hi.
  split_and!; [apply (cv_logged _ _ Hi)..| |].
  - intros t. split; [apply (cv_lock _ _ Hi)|]. intros (k&g&ch&Hk&Hp).
    pose proof (cv_tasks _ _ Hi t) as Ht. rewrite Hk in Ht. unfold task_ok in Ht. rewrite Hp in Ht. apply Ht.
  - intros t k Hk. pose proof (cv_tasks _ _ Hi t) as Ht. rewrite Hk in Ht. unfold task_ok, logins_in in Ht.
    destruct (tk_phase k) as [|? []|? []|? []| | |[]|]; lia.
Qed.

Lemma task_steps_bounded h c t k :
  client_inv h c → cl_tasks c !! t = Some k →
  tk_begin k <= cl_generation c ∧ steps_of t h <= 7 + 6 * (cl_generation c - tk_begin k) ∧
  tk_sent k <= 1 + (cl_generation c - tk_begin k).
Proof.
  intros Hi Hk. pose proof (cv_tasks _ _ Hi t) as Ht. rewrite Hk in Ht. unfold task_ok in Ht.
  destruct (tk_phase k); lia.
Qed.

Lemma login_can_end h c t : client_inv h c → cl_login c = Some t → is_Some (client_step c (CLoginFailed t)).
Proof.
  intros Hi (k&g&ch&Hk&Hp)%(cv_lock _ _ Hi). cbn [client_step]. rewrite Hk. cbn [mbind option_bind].
  rewrite Hp. by eexists.
Qed.

Lemma task_progress h c t k :
  client_inv h c → cl_tasks c !! t = Some k →
  (∃ ok, tk_phase k = Returned ok) ∨
  (∃ e, event_task e = Some t ∧ is_Some (client_step c e)) ∨
  (∃ t', t' ≠ t ∧ cl_login c = Some t' ∧ is_Some (client_step c (CLoginFailed t'))).
Proof.
  intros Hi Hk. set (own e := event_task e = Some t ∧ is_Some (client_step c e)).
  assert (Hown : ∀ e, event_task e = Some t →
    (∀ r, (cl_tasks c !! t ≫= r) = r k → client_step c e = (cl_tasks c !! t ≫= r) → is_Some (r k)) → True) by done.
  destruct (tk_phase k) as [|g lg|g lg a cm|g lg|g ch|g ch|lg|ok] eqn:Hp.
  1-4, 6-7: right; left.
  1: exists (CClaim t None). 2: exists (CHook t). 3: exists (CSign t "" ""). 4: exists (CResponse t true).
  5: exists (CLoginFailed t). 6: exists (CRenew t).
  1-6: split; [done|]; cbn [client_step]; rewrite Hk; cbn [mbind option_bind]; rewrite Hp.
  3: destruct (sign_header c a cm "" "").
  1-6: by eexists.
  - right. destruct (cl_login c) as [t'|] eqn:El.
    + right. exists t'. split_and!; [|done|by eapply login_can_end].
      intros ->. eapply phase_not_locked; [exact Hi|exact Hk| |exact El]. by rewrite Hp.
    + left. exists (CLock t). split; [done|]. cbn [client_step]. rewrite Hk. cbn [mbind option_bind].
      rewrite Hp, El. by eexists.
  - left. by exists ok.
Qed.

Lemma numbered_nodup n : N.of_nat n < U64_LIMIT → NoDup (numbered n).
Proof.
  intros Hn. unfold numbered. apply NoDup_fmap_2_strong; [|apply NoDup_seq].
  intros x y [_ Hx]%elem_of_seq [_ Hy]%elem_of_seq. rewrite !N.mod_small by lia. lia.
Qed.

(** Retrying ends.  A call takes at most seven steps, and six more for every time
    the authorization changed since; it sends its request at most once more than
    that.  And it is never stuck: a call that has not returned has a step of its
    own to take, or waits for a login which can end. *)
Theorem retries_end es c t k :
  client_run client_new es = Some c → cl_tasks c !! t = Some k →
  tk_begin k <= cl_generation c ∧ 
  steps_of t es <= 7 + 6 * (cl_generation c - tk_begin k) ∧
  tk_sent k <= 1 + (cl_generation c - tk_begin k) ∧
  ((∃ ok, tk_phase k = Returned ok) ∨
   (∃ e, event_task e = Some t ∧ is_Some (client_step c e)) ∨
   (∃ t', t' ≠ t ∧ cl_login c = Some t' ∧ is_Some (client_step c (CLoginFailed t')))).
Proof.
  intros Hr Hk. pose proof (client_run_inv [] _ _ _ client_new_inv Hr) as Hi. cbn [app] in Hi.
  destruct (task_steps_bounded _ _ _ _ Hi Hk) as (?&?&?). split_and!; [done..|].
  by apply (task_progress es).
Qed.

(** Requests of a login are numbered in order.  Under each login's counter the
    requests carry the numbers one, two, three and so on, modulo [2^64], whatever
    calls made them; so no number is used twice before [2^64] requests. *)
Theorem requests_numbered_in_order es c i :
  client_run client_new es = Some c →
  let l := signed_under i (cl_signed c) in
  l = numbered (length l) ∧ (N.of_nat (length l) < U64_LIMIT → NoDup l).
Proof.
  intros Hr. pose proof (client_run_inv [] _ _ _ client_new_inv Hr) as Hi.
  pose proof (cv_signed _ _ Hi i) as [E _]. cbv zeta in *. split; [done|]. intros Hl. rewrite E.
  by apply numbered_nodup.
Qed.
End client_login.
