(* ===== verification/LoginFlow.v ===== *)
(** * From a refused request to forwarded ones

    The client of [ClientLogin.v] and [Agent.v] against the proxy of [Proxy.v]:
    a request without a login is refused with a challenge, the SSH agent signs it,
    the proxy accepts the login, and the requests signed under it go through. *)
From S2P Require Import Prelude External Codephrases Hash Targets Keys Ssh Jobs Messages.
From S2P Require Import Headers Authn Login Proxy ProxyFacts Agent ClientLogin.
Open Scope N_scope.
Open Scope rust_scope.

Section login_flow.
Context {Isha : Sha3} {Ibb : BaseboardOps} {Ilru : LruCache} {Ipki : Pki} {Issh : Ssh}.
Variables (SocketAddr SledResponse : Type) (percent_decode : string → option string)
  (key_from_json : list byte → result (option SshPublicKey) string)
  (length_limit_error : string) (current : VersionInfo).
Variables (key_from_bytes : list byte → option SshPublicKey)
  (signature_from_bytes : list byte → option (SshAlgorithm * list byte))
  (ecdsa_from_ssh : list byte → option EcdsaSignature)
  (ed25519_from_ssh : list byte → option Ed25519Signature).

Local Abbreviation decide := (decide_request SocketAddr SledResponse percent_decode key_from_json length_limit_error current).
Local Abbreviation sign_with_agent := (agent_sign key_from_bytes signature_from_bytes ecdsa_from_ssh ed25519_from_ssh).
Local Abbreviation credentials_from_agent :=
  (login_credentials key_from_bytes signature_from_bytes ecdsa_from_ssh ed25519_from_ssh).

(** ** The login *)





(** ** Requests signed under it *)





(** ** At the proxy *)


Definition with_headers (r : HttpRequest) (h : option string) : HttpRequest :=
  mkHttpRequest (rq_method r) (rq_path r) (rq_query r) (rq_path_and_query r)
    (match h with Some h => [Some h] | None => [] end) (rq_body r).


Lemma authorization_of r h : (h' ← head (rq_authorization (with_headers r h)); h') = h.
Proof. by destruct h. Qed.




(** ** The requests after it *)





End login_flow.
