(* ===== verification/ClientErrors.v ===== *)
(** * What the client reports ([CommandError] of [client/src/commands.rs])

    Every error of a command, and how the answers of a server become errors.
    Errors of other crates are their messages. *)
From S2P Require Import Prelude External Codephrases Hash Targets Keys Ssh Jobs Messages.
From S2P Require Import Headers Authn Manager Server Agent.
Open Scope N_scope.

(** [CommandError]. *)
Inductive CommandError :=
| CeAmbiguousSerial (serial : string)
| CeAuthn (e : AuthnError)
| CeAuthnBuildMismatch (client server : VersionInfo)
| CeCanceled
| CeCertExpired (name : string)
| CeChunkSizeZero
| CeClap (e : string)
| CeClient (message : string)
| CeConfig (e : string)
| CeDer (e : string)
| CeDurationOutOfRange
| CeEmptyCertChain
| CeIdentity (e : IdentityError)
| CeIdentityMismatch (interactive kid : KeyId)
| CeInteractive (e : string)
| CeInteractiveTarget
| CeIo (path error : string)
| CeSignal (e : string)
| CeInvalidAuthorization
| CeInvalidLeafCert (kid : KeyId)
| CeInvalidRootCert
| CeJobCancelled (id : JobId)
| CeJobDidNotRun (id : JobId)
| CeJobFinished (id : JobId)
| CeJobNotOnSled (id : JobId) (b : BaseboardId)
| CeJobNotStarted (id : JobId) (e : CommandError)
| CeJobNotYetRunning (id : JobId)
| CeJobSkipped (id : JobId) (reason : SkipReason)
| CeJobStartingOrStopping (id : JobId)
| CeJobStillRunning (id : JobId)
| CeJson (e : string)
| CeKey (e : KeyError)
| CeLengthMismatch (expected received : N)
| CeMissingClientNonce
| CeMissingCommand
| CeReplOnly (command : string)
| CeUnknownOption (name : string)
| CeOptionNotSet (name : string)
| CeMissingJobId
| CeMissingKeyName
| CeMissingPermslipUrl
| CeMissingRack
| CeMissingNexusToken
| CeMissingSession
| CeMissingSshAuthSock
| CeNotFound (message : string)
| CeNotNextJob (id : JobId)
| CeOffline
| CeOutputHashMismatch (expected received : list byte)
| CeOutputNeedsTarget
| CePermslip (e : string)
| CeProcess (e : ProcessError)
| CeProxyTls (e : string)
| CeQuit
| CeReadline (e : string)
| CeRecursive (e : CommandError)
| CeReqwest (e : string)
| CeSession (message : string)
| CeSignature (kid : KeyId)
| CeStreamingNeedsFile
| CeStreamUnverified (id : JobId)
| CeBaseboardIdParseError (e : string)
| CeSshKey (e : string)
| CeTimedOut
| CeTooMuchOutput
| CeTunnel (e : string)
| CeUnknownSerial (serial : string) (id : JobId)
| CeUnknownRackSerial (serial : string)
| CeUntrustedRoot
| CeUpgrade (e : string)
| CeUtf8 (e : string)
| CeWebSocket (e : string).

(** [CommandError::is_unfinished_job]. *)
Definition is_unfinished_job (e : CommandError) : bool :=
  match e with CeJobNotYetRunning _ | CeJobStillRunning _ => true | _ => false end.

(** [CommandError::icon]. *)
Inductive Icon := IQuestion | IExclamation | ISkip | IWave | ICross.
Fixpoint icon (e : CommandError) : Icon :=
  match e with
  | CeClap _ => IQuestion
  | CeJobNotStarted _ _ => IExclamation
  | CeJobSkipped _ _ => ISkip
  | CeQuit => IWave
  | CeRecursive e => icon e
  | _ => ICross
  end.

(** [CommandError::errors]: the errors to show, inner first; the message of each
    is left to its [Display]. *)
Fixpoint errors (e : CommandError) : list (Icon * CommandError) :=
  match e with
  | CeJobNotStarted _ inner => errors inner ++ [(icon e, e)]
  | CeRecursive inner => errors inner
  | _ => [(icon e, e)]
  end.

(** ** Answers of the server *)

(** [progenitor_client::Error] for a JSON error body, as far as it is read: an
    error response has a status, a code and a message; an unexpected response a
    status and perhaps a [Location] header, which may not be text. *)
Inductive ClientError :=
| ClInvalidRequest (e : string)
| ClCommunicationError (timeout : bool) (e : string)
| ClInvalidUpgrade (e : string)
| ClErrorResponse (status : N) (code : option string) (message : string)
| ClResponseBodyError (e : string)
| ClInvalidResponsePayload (e : string)
| ClUnexpectedResponse (status : N) (location : option (option string)) (shown : string)
| ClCustom (e : string).

(** [ErrorCode] of [api/src/lib.rs], and its [FromStr]. *)
Inductive ErrorCode := CodeNoSession | CodeSessionNotCurrent.
Definition error_code_from_str (s : string) : option ErrorCode :=
  if bool_decide (s = "NoSession") then Some CodeNoSession
  else if bool_decide (s = "SessionNotCurrent") then Some CodeSessionNotCurrent
  else None.

Definition is_redirection (status : N) : bool := (300 <=? status) && (status <? 400).

Section conversions.
(** [Display] of a [StatusCode]: with the reason, which is the [http] crate's. *)
Variable status_to_string : N → string.

(** [From<ClientError<ApiError>>]. *)
Definition command_error_of_api (e : ClientError) : CommandError :=
  match e with
  | ClInvalidRequest e => CeClient ("Invalid request: " +:+ e)
  | ClCommunicationError true _ => CeTimedOut
  | ClCommunicationError false e => CeClient ("Communication error: " +:+ e)
  | ClInvalidUpgrade e => CeClient e
  | ClErrorResponse status code message =>
    if bool_decide (is_Some (c ← code; error_code_from_str c)) then CeSession message
    else if status =? 404 then CeNotFound message
    else if status =? 408 then CeTimedOut
    else CeClient message
  | ClResponseBodyError e => CeClient e
  | ClInvalidResponsePayload e => CeClient e
  | ClUnexpectedResponse status location shown =>
    if is_redirection status then
      match location with
      | Some l => CeClient ("Got " +:+ status_to_string status +:+ " to " +:+ default "?" l)
      | None => CeClient ("Got " +:+ status_to_string status)
      end
    else CeClient ("Unexpected response: " +:+ shown)
  | ClCustom e => CeClient e
  end.

(** [From<ClientError<ByteStream>>] and [From<ClientError<Upgraded>>], from the
    error's status, if it has one, and its message. *)
Definition command_error_of_stream (status : option N) (shown : string) : CommandError :=
  match status with
  | Some status =>
    if status =? 413 then CeTooMuchOutput
    else if status =? 404 then CeNotFound "Job output not found"
    else CeClient (status_to_string status)
  | None => CeClient shown
  end.
Definition command_error_of_upgrade (status : option N) (shown : string) : CommandError :=
  match status with
  | Some status =>
    if status =? 404 then CeNotFound "Interactive job not found" else CeClient (status_to_string status)
  | None => CeClient shown
  end.
End conversions.
