(* ===== verification/TargetArgs.v ===== *)
(** * Target arguments ([client/src/commands.rs])

    On the command line a sled may be abbreviated to its serial number; the
    client completes it from the rack's inventory, or from the sleds that report
    on a job.  What the server answers is an argument. *)
From S2P Require Import Prelude External Codephrases Hash Targets Keys Ssh Jobs Messages Headers.
From S2P Require Import Manager ClientErrors.
Open Scope N_scope.
Open Scope rust_scope.

(** [TargetArg], [SledArg]. *)
Inductive SledArg := ArgSled (s : SledId) | ArgSerial (serial : string).
Inductive TargetArg := ArgTarget (t : Target) | ArgAbbreviated (sleds : list SledArg).

(** [char::is_ascii_alphanumeric], [str::eq_ignore_ascii_case]. *)
Definition is_alphanumeric (c : Ascii.ascii) : bool :=
  let n := Ascii.N_of_ascii c in
  is_digit c || ((65 <=? n) && (n <=? 90)) || ((97 <=? n) && (n <=? 122)).
Definition eq_ignore_case (s t : string) : bool := bool_decide (to_ascii_lowercase s = to_ascii_lowercase t).

Section target_args.
Context {Ibb : BaseboardOps}.

(** One piece of an abbreviated list. *)
Definition sled_arg (piece : string) : option SledArg :=
  let piece := trim piece in
  match target_from_str piece with
  | Ok (TSleds [s]) => Some (ArgSled s)
  | _ => if negb (bool_decide (piece = EmptyString)) && all_chars is_alphanumeric piece
         then Some (ArgSerial piece) else None
  end.

(** [impl FromStr for TargetArg]. *)
Definition target_arg_from_str (s : string) : result TargetArg InvalidTarget :=
  match target_from_str s with
  | Ok t => Ok (ArgTarget t)
  | Err e => ok_or (ArgAbbreviated <$> mapM sled_arg (split_on comma s)) e
  end.

(** The one element that matches, as the matches of an iterator's first two
    calls of [next] tell. *)
Definition only_match {A} (p : A → bool) (l : list A) (none many : CommandError) : result A CommandError :=
  match filter (λ x, p x = true) l with
  | [x] => Ok x
  | [] => Err none
  | _ => Err many
  end.

Definition has_serial (serial : string) (b : BaseboardId) : bool := eq_ignore_case (serial_number b) serial.

(** The closure of [resolve_target_arg]. *)
Definition complete_sled (inventory : list SledVersion) (s : SledArg) : result SledId CommandError :=
  match s with
  | ArgSled s => Ok s
  | ArgSerial serial =>
    let? b := only_match (has_serial serial) (map sv_baseboard inventory) (CeUnknownRackSerial serial)
                (CeAmbiguousSerial serial) in
    Ok (SBaseboard b)
  end.

Fixpoint complete_sleds (inventory : list SledVersion) (l : list SledArg) : result (list SledId) CommandError :=
  match l with
  | [] => Ok []
  | s :: l =>
    let? s := complete_sled inventory s in
    let? l := complete_sleds inventory l in
    Ok (s :: l)
  end.

(** [resolve_target_arg]; [versions] answers the inventory. *)
Definition resolve_target_arg (versions : result (list SledVersion) CommandError) (t : TargetArg) :
    result Target CommandError :=
  match t with
  | ArgTarget t => Ok t
  | ArgAbbreviated sleds =>
    let? inventory := versions in
    let? sleds := complete_sleds inventory sleds in
    Ok (TSleds sleds)
  end.

(** [resolve_target]; [target] answers [/target], routed [via] an expression. *)
Definition resolve_target (target : option string → result BaseboardId CommandError) (t : Target) :
    result BaseboardId CommandError :=
  match single_baseboard t with
  | Some b => Ok b
  | None => target (if is_all t then None else Some (target_to_string t))
  end.

(** [resolve_serial]; [status] answers the job's status map, by its keys. *)
Definition resolve_serial (status : result JobStatusMap CommandError) (id : JobId) (serial : string) :
    result BaseboardId CommandError :=
  let? status := status in
  only_match (has_serial serial) (sorted_elements baseboard_le (dom status)) (CeUnknownSerial serial id)
    (CeAmbiguousSerial serial).

(** Whether [preflight_target] finds a sled in the inventory. *)
Definition in_inventory (inventory : list SledVersion) (s : SledId) : bool :=
  match s with
  | SBaseboard b => existsb (λ v, bool_decide (sv_baseboard v = b)) inventory
  | SCubby c => existsb (λ v, bool_decide (sv_cubby v = Some c)) inventory
  end.

(** ** Completion is exact *)

Lemma only_match_ok {A} (p : A → bool) l none many x :
  only_match p l none many = Ok x ↔ filter (λ x, p x = true) l = [x].
Proof.
  unfold only_match. destruct (filter _ l) as [|y [|z m]]; [done| |done].
  split; by intros [= ->].
Qed.

Lemma only_match_err {A} (p : A → bool) l none many e :
  only_match p l none many = Err e →
  (e = none ∧ ∀ x, x ∈ l → p x = false) ∨
  (e = many ∧ (2 <= length (filter (λ x, p x = true) l))%nat).
Proof.
  unfold only_match. destruct (filter _ l) as [|y [|z m]] eqn:E; intros [= <-]; [left|right].
  - split; [done|]. intros x Hx. apply not_true_is_false. intros Hp.
    assert (Hf : x ∈ filter (λ x, p x = true) l) by (by apply list_elem_of_filter). rewrite E in Hf. set_solver.
  - split; [done|]. cbn. lia.
Qed.

(** The sled an argument means. *)
Definition means (inventory : list SledVersion) (a : SledArg) (s : SledId) : Prop :=
  match a with
  | ArgSled s' => s = s'
  | ArgSerial serial =>
    ∃ b, s = SBaseboard b ∧ filter (λ b, has_serial serial b = true) (map sv_baseboard inventory) = [b]
  end.

Lemma complete_sled_ok inventory a s : complete_sled inventory a = Ok s ↔ means inventory a s.
Proof.
  destruct a as [s'|serial]; cbn [complete_sled means]; [split; [by intros [= ->]|by intros ->]|].
  destruct (only_match _ _ _ _) as [b|] eqn:E; cbn [rbind].
  - apply only_match_ok in E. rewrite E. split; [intros [= <-]; eauto|]. by intros (b'&->&[= ->]).
  - split; [done|]. intros (b&->&Hf). by rewrite (proj2 (only_match_ok _ _ _ _ b) Hf) in E.
Qed.

Lemma complete_sleds_ok inventory l ids :
  complete_sleds inventory l = Ok ids ↔ Forall2 (means inventory) l ids.
Proof.
  revert ids. induction l as [|a l IH]; intros ids; cbn [complete_sleds].
  { split; [by intros [= <-]; constructor|]. by inversion 1. }
  destruct (complete_sled inventory a) as [s|] eqn:Ea; cbn [rbind].
  - apply complete_sled_ok in Ea as Ha. destruct (complete_sleds inventory l) as [m|] eqn:Em; cbn [rbind].
    + split; [intros [= <-]; constructor; [done|by apply IH]|].
      inversion 1 as [|? s' ? m' Hs Hm]; subst. apply complete_sled_ok in Hs.
      apply IH in Hm. congruence.
    + split; [done|]. inversion 1 as [|? s' ? m' Hs Hm]; subst. apply IH in Hm. congruence.
  - split; [done|]. inversion 1 as [|? s' ? m' Hs Hm]; subst. apply complete_sled_ok in Hs. congruence.
Qed.

Lemma complete_sleds_err inventory l e :
  complete_sleds inventory l = Err e →
  ∃ before serial after ids, l = before ++ ArgSerial serial :: after ∧ Forall2 (means inventory) before ids ∧
    ((e = CeUnknownRackSerial serial ∧ ∀ v, v ∈ inventory → has_serial serial (sv_baseboard v) = false) ∨
     (e = CeAmbiguousSerial serial ∧
      (2 <= length (filter (λ b, has_serial serial b = true) (map sv_baseboard inventory)))%nat)).
Proof.
  revert e. induction l as [|a l IH]; intros e; cbn [complete_sleds]; [done|].
  destruct (complete_sled inventory a) as [s|e'] eqn:Ea; cbn [rbind].
  - destruct (complete_sleds inventory l) as [m|e'] eqn:Em; cbn [rbind]; [done|]. intros [= ->].
    destruct (IH e eq_refl) as (before&serial&after&ids&->&Hf&He). apply complete_sled_ok in Ea.
    exists (a :: before), serial, after, (s :: ids). split_and!; [done|by constructor|done].
  - intros [= ->]. destruct a as [s|serial]; [done|]. cbn [complete_sled] in Ea.
    destruct (only_match _ _ _ _) eqn:Eo; cbn [rbind] in Ea; [done|]. injection Ea as ->.
    exists [], serial, l, []. split_and!; [done|constructor|].
    apply only_match_err in Eo as [[-> Hn]|[-> Hl]]; [left|by right]. split; [done|].
    intros v Hv. apply Hn. apply list_elem_of_fmap. eauto.
Qed.

Lemma means_unique inventory a s s' : means inventory a s → means inventory a s' → s = s'.
Proof. destruct a; cbn; [congruence|]. intros (b&->&E) (b'&->&E'). congruence. Qed.

Lemma matches_meant inventory l ids b cubby :
  Forall2 (means inventory) l ids →
  target_matches (TSleds ids) b cubby = true ↔
    ∃ a s, a ∈ l ∧ means inventory a s ∧ (s = SBaseboard b ∨ ∃ c, s = SCubby c ∧ cubby = Some c).
Proof.
  intros Hf. cbn [target_matches]. rewrite existsb_exists. setoid_rewrite <- list_elem_of_In.
  assert (Hm : ∀ s, sled_matches b cubby s = true ↔ s = SBaseboard b ∨ ∃ c, s = SCubby c ∧ cubby = Some c).
  { intros [b'|c]; cbn; rewrite bool_decide_eq_true; naive_solver. }
  setoid_rewrite Hm. split.
  - intros (s&[i Hs]%list_elem_of_lookup&H). destruct (Forall2_lookup_r _ _ _ _ _ Hf Hs) as (a&Ha&Hms).
    apply list_elem_of_lookup_2 in Ha. eauto.
  - intros (a&s&[i Ha]%list_elem_of_lookup&Hms&H). exists s. split; [|done].
    destruct (Forall2_lookup_l _ _ _ _ _ Hf Ha) as (s'&Hs'&Hms'). rewrite (means_unique _ _ _ _ Hms Hms').
    by eapply list_elem_of_lookup_2.
Qed.

(** Abbreviated targets are completed exactly.  With the rack's inventory at
    hand, the arguments become a target exactly when each serial belongs to just
    one sled of it, in the order they were written; the signed job then runs on a
    sled exactly when an argument means that sled.  Otherwise the error names the
    first serial that no sled has, or more than one. *)
Theorem abbreviations_exact inventory l :
  (∀ t, resolve_target_arg (Ok inventory) (ArgAbbreviated l) = Ok t →
     ∃ ids, t = TSleds ids ∧ Forall2 (means inventory) l ids ∧
       ∀ b cubby, target_matches t b cubby = true ↔
         ∃ a s, a ∈ l ∧ means inventory a s ∧ (s = SBaseboard b ∨ ∃ c, s = SCubby c ∧ cubby = Some c)) ∧
  (∀ ids, Forall2 (means inventory) l ids →
     resolve_target_arg (Ok inventory) (ArgAbbreviated l) = Ok (TSleds ids)) ∧
  (∀ e, resolve_target_arg (Ok inventory) (ArgAbbreviated l) = Err e →
     ∃ before serial after ids, l = before ++ ArgSerial serial :: after ∧ Forall2 (means inventory) before ids ∧
       ((e = CeUnknownRackSerial serial ∧ ∀ v, v ∈ inventory → has_serial serial (sv_baseboard v) = false) ∨
        (e = CeAmbiguousSerial serial ∧
         (2 <= length (filter (λ b, has_serial serial b = true) (map sv_baseboard inventory)))%nat))).
Proof.
  cbn [resolve_target_arg rbind]. split_and!.
  - intros t. destruct (complete_sleds inventory l) as [ids|] eqn:E; cbn [rbind]; [|done]. intros [= <-].
    apply complete_sleds_ok in E as Hf. exists ids. split_and!; [done..|]. intros b cubby.
    by apply matches_meant.
  - intros ids Hf%complete_sleds_ok. by rewrite Hf.
  - intros e. destruct (complete_sleds inventory l) as [ids|e'] eqn:E; cbn [rbind]; [done|]. intros [= ->].
    by apply complete_sleds_err.
Qed.
End target_args.
