(* ===== verification/Watch.v ===== *)
(** * Watching a job ([client/src/commands.rs])

    The client polls a job's status across the rack until it has settled.  A poll
    is what the server answers and how many sleds the rack's inventory lists;
    starting with [--wait] runs the start request, the polls and a stop
    concurrently. *)
From S2P Require Import Prelude External Codephrases Hash Targets Keys Ssh Jobs Messages.
From S2P Require Import Manager ClientErrors.

Definition WATCH_MIN_POLLS : nat := 5.
Definition WATCH_STALL_POLLS : nat := 15.
Definition STOP_ATTEMPTS : nat := 3.

(** [Settling]. *)
Record Settling := mkSettling { se_polls : nat; se_sleds : nat; se_quiet : nat; se_met : nat }.
Definition settling_default : Settling := mkSettling 0 0 0 0.

(** Every sled that reports has a terminal status. *)
Definition all_terminal (status : JobStatusMap) : bool :=
  forallb (λ x : BaseboardId * JobStatus, is_terminal x.2) (map_to_list status).
Definition ended (status : JobStatusMap) : bool := negb (bool_decide (status = ∅)) && all_terminal status.

Definition reports_end (status : JobStatusMap) (sled : BaseboardId) : bool :=
  match status !! sled with Some s => is_terminal s | None => false end.

(** [Settling::done]. *)
Definition done_polling (s : Settling) (sleds : option (gset BaseboardId)) (rack : option nat) (status : JobStatusMap) :
    bool * Settling :=
  let terminal := ended status in
  let s := mkSettling (S (se_polls s)) (size status)
             (if terminal && (size status =? se_sleds s)%nat then S (se_quiet s) else 0)
             (if match rack with Some n => terminal && (size status =? n)%nat | None => false end
              then S (se_met s) else 0) in
  (match sleds with Some sleds => forallb (reports_end status) (elements sleds) | None => false end
   || ((2 <=? se_met s)%nat || ((WATCH_MIN_POLLS <=? se_polls s)%nat && (2 <=? se_quiet s)%nat)), s).

(** One poll: the status or an error, the inventory's size, whether the user
    interrupts afterwards. *)
Record Poll := mkPoll { po_status : result JobStatusMap CommandError; po_rack : option nat; po_sigint : bool }.

(** The inventory is asked only when the job's sleds are not known. *)
Definition asked_rack (sleds : option (gset BaseboardId)) (p : Poll) : option nat :=
  match sleds with Some _ => None | None => po_rack p end.

(** The loop of [job_watch]; [None] while it goes on. *)
Fixpoint watch_loop (s : Settling) (sleds : option (gset BaseboardId)) (ps : list Poll) :
    option (result JobStatusMap CommandError) :=
  match ps with
  | [] => None
  | p :: ps =>
    match po_status p with
    | Err e => Some (Err e)
    | Ok status =>
      let '(settled, s) := done_polling s sleds (asked_rack sleds p) status in
      if settled || po_sigint p then Some (Ok status) else watch_loop s sleds ps
    end
  end.

Definition job_watch : option (gset BaseboardId) → list Poll → option (result JobStatusMap CommandError) :=
  watch_loop settling_default.

(** [rack_sleds]: an empty inventory tells nothing. *)
Definition rack_sleds (versions : result (list SledVersion) CommandError) : option nat :=
  match versions with
  | Ok l => if (0 <? length l)%nat then Some (length l) else None
  | Err _ => None
  end.

(** ** Starting a job and watching it ([job_start]) *)

(** The stop of the watch: a stop can race the start. *)
Fixpoint stop_attempts (n : nat) (answers : list (result () CommandError)) : option (result bool CommandError) :=
  match n with
  | O => Some (Ok false)
  | S n =>
    match answers with
    | [] => None
    | Err (CeNotFound _) :: answers => stop_attempts n answers
    | Err e :: _ => Some (Err e)
    | Ok _ :: _ => Some (Ok true)
    end
  end.

(** What the loop of [job_start] keeps between the arms of its [select!];
    [sw_polling] is a poll under way. *)
Record StartWatch := mkStartWatch {
  sw_sleds : option (gset BaseboardId);
  sw_last : JobStatusMap;
  sw_settling : Settling;
  sw_started : bool;
  sw_stalled : bool;
  sw_stopping : bool;
  sw_stopped : bool;
  sw_polling : bool;
}.
Definition start_watch : StartWatch := mkStartWatch None ∅ settling_default false false false false false.

Inductive WatchEvent :=
| WStarted (r : result (gset BaseboardId) CommandError)
| WTick
| WPolled (r : result JobStatusMap CommandError) (rack : option nat)
| WSigint
| WStopEnded (r : result bool CommandError).

(** What an arm leads to: the loop goes on, breaks with the last status, or
    returns an error. *)
Inductive WatchTurn := Watching (s : StartWatch) | Broke (status : JobStatusMap) | Failed (e : CommandError).

Definition watch_turn (s : StartWatch) (e : WatchEvent) : option WatchTurn :=
  match e with
  | WStarted r =>
    if sw_started s then None
    else
      match r with
      | Ok sleds =>
        Some (Watching (mkStartWatch (Some sleds) (sw_last s) (sw_settling s) true (sw_stalled s) (sw_stopping s)
                          (sw_stopped s) (sw_polling s)))
      | Err CeTimedOut =>
        Some (Watching (mkStartWatch (sw_sleds s) (sw_last s) (sw_settling s) true (sw_stalled s) (sw_stopping s)
                          (sw_stopped s) (sw_polling s)))
      | Err e => Some (Failed e)
      end
  | WTick =>
    if sw_polling s then None
    else Some (Watching (mkStartWatch (sw_sleds s) (sw_last s) (sw_settling s) (sw_started s) (sw_stalled s)
                           (sw_stopping s) (sw_stopped s) true))
  | WPolled r rack =>
    if negb (sw_polling s) then None
    else
      match match r with Err (CeNotFound _) => Ok ∅ | _ => r end with
      | Err e => Some (Failed e)
      | Ok last =>
        let rack := match sw_sleds s with Some _ => None | None => rack end in
        let '(settled, settling) := done_polling (sw_settling s) (sw_sleds s) rack last in
        if settled && sw_started s then Some (Broke last)
        else
          let stalled := sw_stalled s || (bool_decide (last = ∅) && (WATCH_STALL_POLLS <=? se_polls settling)%nat) in
          Some (Watching (mkStartWatch (sw_sleds s) last settling (sw_started s) stalled (sw_stopping s)
                            (sw_stopped s) false))
      end
  | WSigint =>
    let finished := sw_started s && ended (sw_last s) in
    if finished || sw_stopping s then Some (Broke (sw_last s))
    else Some (Watching (mkStartWatch (sw_sleds s) (sw_last s) (sw_settling s) (sw_started s) (sw_stalled s) true
                           (sw_stopped s) (sw_polling s)))
  | WStopEnded r =>
    if negb (sw_stopping s) || sw_stopped s then None
    else
      match r with
      | Err e => Some (Failed e)
      | Ok _ => Some (Watching (mkStartWatch (sw_sleds s) (sw_last s) (sw_settling s) (sw_started s) (sw_stalled s)
                                  (sw_stopping s) true (sw_polling s)))
      end
  end.

(** Events until the loop ends. *)
Fixpoint watch_run (s : StartWatch) (es : list WatchEvent) : option WatchTurn :=
  match es with
  | [] => Some (Watching s)
  | e :: es =>
    match watch_turn s e with
    | Some (Watching s) => watch_run s es
    | Some t => match es with [] => Some t | _ => None end
    | None => None
    end
  end.

(** What a watch that ended leaves [job_start]: whether the start was noted as
    started, whether the job was noted as stopped, and how it ended. *)
Record WatchOutcome := mkWatchOutcome { wo_started : bool; wo_stopped : bool; wo_end : result JobStatusMap CommandError }.

Definition notes_started (e : WatchEvent) : bool :=
  match e with WStarted (Ok _) | WStarted (Err CeTimedOut) => true | _ => false end.
Definition notes_stopped (e : WatchEvent) : bool :=
  match e with WStopEnded (Ok b) => b | _ => false end.

Definition watch_outcome (es : list WatchEvent) : option WatchOutcome :=
  match watch_run start_watch es with
  | Some (Broke status) => Some (mkWatchOutcome (existsb notes_started es) (existsb notes_stopped es) (Ok status))
  | Some (Failed e) => Some (mkWatchOutcome (existsb notes_started es) (existsb notes_stopped es) (Err e))
  | _ => None
  end.

(** The verdict of [job_start] on the last status: did the job run anywhere? *)
Definition watch_verdict (id : JobId) (status : JobStatusMap) : result () CommandError :=
  if existsb (λ x : BaseboardId * JobStatus, match x.2 with Stopped _ _ _ _ _ => true | _ => false end)
       (map_to_list status) then Ok ()
  else Err (if all_terminal status then CeJobDidNotRun id else CeJobStillRunning id).

(** ** When a watch settles *)

(** The state after some polls: each with its inventory. *)
Definition settling_after (l : list (option nat * JobStatusMap)) : Settling :=
  foldl (λ s p, (done_polling s None p.1 p.2).2) settling_default l.

(** As many sleds report an end as the inventory lists. *)
Definition inventory_met (p : option nat * JobStatusMap) : Prop := ended p.2 = true ∧ p.1 = Some (size p.2).
Definition quiet_since (o p : option nat * JobStatusMap) : Prop := ended p.2 = true ∧ size o.2 = size p.2.

Lemma ended_size status : ended status = true → size status ≠ 0%nat.
Proof.
  unfold ended. rewrite andb_true_iff, negb_true_iff, bool_decide_eq_false. intros [Hne _] H.
  by apply map_size_empty_iff in H.
Qed.

Lemma met_test p : match p.1 with Some n => ended p.2 && (size p.2 =? n)%nat | None => false end = true ↔ inventory_met p.
Proof.
  unfold inventory_met. destruct p as [[n|] st]; cbn; [|naive_solver].
  rewrite andb_true_iff, Nat.eqb_eq. naive_solver.
Qed.

Lemma settling_snoc l p :
  let s := settling_after l in
  settling_after (l ++ [p]) =
    mkSettling (S (se_polls s)) (size p.2) (if ended p.2 && (size p.2 =? se_sleds s)%nat then S (se_quiet s) else 0)
      (if match p.1 with Some n => ended p.2 && (size p.2 =? n)%nat | None => false end then S (se_met s) else 0).
Proof. unfold settling_after. by rewrite foldl_app. Qed.

Lemma settling_polls l : se_polls (settling_after l) = length l.
Proof.
  induction l as [|p l IH] using rev_ind; [done|]. rewrite settling_snoc, length_app. cbn. rewrite IH. lia.
Qed.

Lemma settling_sleds l p : se_sleds (settling_after (l ++ [p])) = size p.2.
Proof. by rewrite settling_snoc. Qed.

Lemma settling_met l : (1 <= se_met (settling_after l))%nat ↔ ∃ l' p, l = l' ++ [p] ∧ inventory_met p.
Proof.
  destruct l as [|p l _] using rev_ind.
  { cbn. split; [lia|]. by intros (l'&p&[]%app_cons_not_nil&_). }
  rewrite settling_snoc. cbn [se_met]. destruct (match p.1 with Some _ => _ | None => _ end) eqn:E.
  - apply met_test in E. split; [eauto|lia].
  - split; [lia|]. intros (l'&p'&[_ ->]%app_inj_tail&Hm). apply met_test in Hm. congruence.
Qed.

Lemma settling_quiet l :
  (1 <= se_quiet (settling_after l))%nat ↔ ∃ l' o p, l = l' ++ [o; p] ∧ quiet_since o p.
Proof.
  destruct l as [|p l _] using rev_ind.
  { cbn. split; [lia|]. intros (l'&o&p&E&_). by destruct l'. }
  rewrite settling_snoc. cbn [se_quiet]. unfold quiet_since.
  assert (Ea : ∀ l' o p', l ++ [p] = l' ++ [o; p'] → l = l' ++ [o] ∧ p = p').
  { intros l' o p' E. replace (l' ++ [o; p']) with ((l' ++ [o]) ++ [p']) in E by (by rewrite <- app_assoc).
    by apply app_inj_tail in E. }
  destruct (ended p.2 && _) eqn:E.
  - apply andb_true_iff in E as [E1 E2]. apply Nat.eqb_eq in E2. split; [|lia]. intros _.
    destruct l as [|o l _] using rev_ind; [by apply ended_size in E1|].
    rewrite settling_sleds in E2. exists l, o, p. by rewrite <- app_assoc.
  - split; [lia|]. intros (l'&o&p'&[-> ->]%Ea&He&Hs). rewrite He, settling_sleds, Hs, Nat.eqb_refl in E. done.
Qed.

Lemma reports_all (sleds : gset BaseboardId) status :
  forallb (reports_end status) (elements sleds) = true ↔ ∀ b, b ∈ sleds → reports_end status b = true.
Proof.
  rewrite forallb_forall. setoid_rewrite <- list_elem_of_In. by setoid_rewrite elem_of_elements.
Qed.

(** When the poll [q] after the polls [l] ends a watch: every sled the job is known
    to run on has reported an end; or the inventory was met at this poll and the one
    before; or at least five polls were made and the last two found the sleds of the
    poll before them, all ended. *)
Definition settled_at (sleds : option (gset BaseboardId)) (l : list (option nat * JobStatusMap))
    (q : option nat * JobStatusMap) : Prop :=
  (∃ known, sleds = Some known ∧ ∀ b, b ∈ known → reports_end q.2 b = true) ∨
  (∃ l' p, l = l' ++ [p] ∧ inventory_met p ∧ inventory_met q) ∨
  (∃ l' o p, l = l' ++ [o; p] ∧ (4 <= length l)%nat ∧ quiet_since o p ∧ quiet_since p q).

(** A watch is over at the right poll. *)
Theorem settling_exact sleds l q :
  (done_polling (settling_after l) sleds q.1 q.2).1 = true ↔ settled_at sleds l q.
Proof.
  unfold settled_at, done_polling. cbn [fst se_polls se_quiet se_met]. rewrite !orb_true_iff, andb_true_iff, !Nat.leb_le, settling_polls.
  assert (H1 : match sleds with Some known => forallb (reports_end q.2) (elements known) | None => false end = true ↔
    ∃ known, sleds = Some known ∧ ∀ b, b ∈ known → reports_end q.2 b = true).
  { destruct sleds as [known|]; [rewrite reports_all|]; naive_solver. }
  rewrite H1. apply or_iff_compat_l. apply Morphisms_Prop.or_iff_morphism.
  - destruct (match q.1 with Some _ => _ | None => _ end) eqn:E.
    + apply met_test in E. pose proof (settling_met l) as Hm. split.
      * intros Hle. destruct (proj1 Hm ltac:(lia)) as (l'&p&->&Hp). eauto.
      * intros (l'&p&->&Hp&_). apply le_n_S, settling_met. eauto.
    + split; [lia|]. intros (?&?&_&_&Hq). apply met_test in Hq. congruence.
  - unfold WATCH_MIN_POLLS. destruct (ended q.2 && _) eqn:E.
    + apply andb_true_iff in E as [E1 E2]. apply Nat.eqb_eq in E2. pose proof (settling_quiet l) as Hq. split.
      * intros [Hl Hle]. destruct (proj1 Hq ltac:(lia)) as (l'&o&p&->&Hp). exists l', o, p.
        rewrite (cons_middle o l' [p]), app_assoc, settling_sleds in E2. split; [done|]. split; [lia|]. by split.
      * intros (l'&o&p&->&Hl&Hp&_). split; [lia|]. apply le_n_S, settling_quiet. eauto.
    + split; [lia|]. intros (l'&o&p&->&_&_&[He Hs]).
      rewrite (cons_middle o l' [p]), app_assoc, settling_sleds, He, Hs, Nat.eqb_refl in E. done.
Qed.

(** Polls that find the same number of sleds, all ended. *)
Definition stable (n : nat) (p : Poll) : Prop := ∃ status, po_status p = Ok status ∧ ended status = true ∧ size status = n.

Lemma done_stable s sleds rack status n :
  ended status = true → size status = n →
  let s' := (done_polling s sleds rack status).2 in
  se_polls s' = S (se_polls s) ∧ se_sleds s' = n ∧ se_quiet s' = (if (n =? se_sleds s)%nat then S (se_quiet s) else 0%nat).
Proof. intros He Hs. unfold done_polling. cbn [snd se_polls se_sleds se_quiet]. by rewrite He, Hs. Qed.

(** Quiet polls end a watch, as soon as it is old enough. *)
Lemma quiet_polls_end ps s sleds n :
  Forall (stable n) ps → se_sleds s = n →
  (2 <= se_quiet s + length ps)%nat → (WATCH_MIN_POLLS <= se_polls s + length ps)%nat → (1 <= length ps)%nat →
  ∃ r, watch_loop s sleds ps = Some r.
Proof.
  revert s. induction ps as [|p ps IH]; intros s Hf Hn Hq Hp Hl; [cbn in Hl; lia|].
  apply Forall_cons in Hf as [(status&Ep&He&Hs) Hf]. cbn [watch_loop length] in *. rewrite Ep.
  pose proof (done_stable s sleds (asked_rack sleds p) status n He Hs) as (E1&E2&E3).
  destruct (done_polling s sleds (asked_rack sleds p) status) as [settled s'] eqn:Ed. cbn [snd] in *.
  destruct (settled || po_sigint p) eqn:Eo; [eauto|]. rewrite Hn, Nat.eqb_refl in E3.
  apply IH; [done|done|lia|lia|].
  destruct ps as [|p' ps]; [exfalso|cbn; lia]. cbn in *. apply orb_false_iff in Eo as [-> _].
  assert (Et : (done_polling s sleds (asked_rack sleds p) status).1 = true); [|by rewrite Ed in Et].
  unfold done_polling. cbn [fst se_polls se_quiet]. rewrite He, Hs, Hn, Nat.eqb_refl. cbn [andb].
  rewrite !orb_true_iff, andb_true_iff, !Nat.leb_le. right. right. lia.
Qed.

Lemma watch_loop_app s sleds ps qs :
  watch_loop s sleds ps = None → ∃ s', watch_loop s sleds (ps ++ qs) = watch_loop s' sleds qs.
Proof.
  revert s. induction ps as [|p ps IH]; intros s; cbn [watch_loop app]; [eauto|].
  destruct (po_status p) as [status|]; [|done]. destruct (done_polling _ _ _ _) as [b s'].
  destruct (b || _); [done|]. apply IH.
Qed.

Lemma watch_loop_more s sleds ps qs r :
  watch_loop s sleds ps = Some r → watch_loop s sleds (ps ++ qs) = Some r.
Proof.
  revert s. induction ps as [|p ps IH]; intros s; cbn [watch_loop app]; [done|].
  destruct (po_status p) as [status|]; [|done]. destruct (done_polling _ _ _ _) as [b s'].
  destruct (b || _); [done|]. apply IH.
Qed.

(** What the polls saw, those that failed apart. *)
Definition seen (sleds : option (gset BaseboardId)) (ps : list Poll) : list (option nat * JobStatusMap) :=
  omap (λ p, match po_status p with Ok status => Some (asked_rack sleds p, status) | Err _ => None end) ps.

(** After the polls [l], the poll [p] lets the watch go on, or ends it in [r]. *)
Definition goes_on (sleds : option (gset BaseboardId)) (l : list Poll) (p : Poll) : Prop :=
  ∃ status, po_status p = Ok status ∧ po_sigint p = false ∧
    ¬ settled_at sleds (seen sleds l) (asked_rack sleds p, status).
Definition ends_in (sleds : option (gset BaseboardId)) (l : list Poll) (p : Poll)
    (r : result JobStatusMap CommandError) : Prop :=
  po_status p = r ∧
  ∀ status, r = Ok status → po_sigint p = true ∨ settled_at sleds (seen sleds l) (asked_rack sleds p, status).

Lemma watch_loop_exact sleds ps r : ∀ l,
  watch_loop (settling_after (seen sleds l)) sleds ps = Some r →
  ∃ before p after, ps = before ++ p :: after ∧ ends_in sleds (l ++ before) p r ∧
    ∀ b1 q b2, before = b1 ++ q :: b2 → goes_on sleds (l ++ b1) q.
Proof.
  induction ps as [|p ps IH]; intros l; cbn [watch_loop]; [done|].
  destruct (po_status p) as [status|e] eqn:Ep.
  - pose proof (settling_exact sleds (seen sleds l) (asked_rack sleds p, status)) as Hex. cbn [fst snd] in Hex.
    assert (Hnext : (done_polling (settling_after (seen sleds l)) sleds (asked_rack sleds p) status).2
                    = settling_after (seen sleds (l ++ [p]))).
    { unfold seen at 2. rewrite omap_app. cbn. rewrite Ep. by rewrite settling_snoc. }
    destruct (done_polling _ _ _ _) as [b s']. cbn [fst snd] in *. subst s'.
    destruct (b || po_sigint p) eqn:Eo.
    + intros [= <-]. exists [], p, ps. rewrite app_nil_r. split; [done|].
      split; [|intros b1 q b2 Eb; by destruct b1]. split; [done|]. intros st [= <-].
      apply orb_true_iff in Eo as [Hb|]; [right; by apply Hex|by left].
    + apply orb_false_iff in Eo as [-> Hsig]. intros (before&q&after&->&He&Hg)%IH.
      exists (p :: before), q, after. split; [done|]. rewrite <- app_assoc in He. split; [done|].
      intros b1 q' b2. destruct b1 as [|p' b1]; cbn; intros [= <- Eb].
      * rewrite app_nil_r. exists status. split_and!; [done..|]. by intros Hs%Hex.
      * specialize (Hg b1 q' b2 Eb). by rewrite <- app_assoc in Hg.
  - intros [= <-]. exists [], p, ps. rewrite app_nil_r. split; [done|]. split; [by split|].
    intros b1 q b2 Eb. by destruct b1.
Qed.

(** C25. Watching a job ends once the job has.  After any polls, six in a row that find
    the same number of sleds, all with a terminal status, end the watch, and it ends
    at just the right poll: it returns what that poll answered, its error or its
    status, and a status only if the watch has settled there or the user interrupted;
    at every poll before it, there was a status, the watch had not settled and the user
    did not interrupt.  It settles at a poll when every sled the job is known to run on
    has reported an end; or this poll and the one before met the inventory; or at least
    five polls were made and the last three found as many sleds, the last two of them
    all ended. *)
Theorem watch_ends sleds ps qs n :
  Forall (stable n) qs → length qs = 6%nat →
  ∃ r before p after, job_watch sleds (ps ++ qs) = Some r ∧ ps ++ qs = before ++ p :: after ∧
    ends_in sleds before p r ∧ ∀ b1 q b2, before = b1 ++ q :: b2 → goes_on sleds b1 q.
Proof.
  intros Hf Hl. assert (∃ r, job_watch sleds (ps ++ qs) = Some r) as [r Hr].
  { unfold job_watch. destruct (watch_loop settling_default sleds ps) as [r|] eqn:E.
    - exists r. by apply watch_loop_more.
    - destruct (watch_loop_app _ _ _ qs E) as [s ->]. destruct qs as [|q qs]; [done|].
      apply Forall_cons in Hf as [(status&Ep&He&Hs) Hf]. cbn [watch_loop]. rewrite Ep.
      pose proof (done_stable s sleds (asked_rack sleds q) status n He Hs) as (E1&E2&_).
      destruct (done_polling _ _ _ _) as [b s']. destruct (b || _); [eauto|]. cbn [snd] in *. cbn in Hl.
      eapply quiet_polls_end; [exact Hf|done|lia|unfold WATCH_MIN_POLLS; lia|lia]. }
  destruct (watch_loop_exact sleds (ps ++ qs) r [] Hr) as (before&p&after&E&He&Hg).
  by exists r, before, p, after.
Qed.
