(* ===== verification/Effects.v ===== *)
(** * The client's effects ([client/src/commands.rs], [context.rs])

    A command of the client is a program: it changes the client's own state and
    asks for effects (requests to the server, each behind [with_login]; files, the
    terminal, the user) whose answers it goes on with.  An answer is a value or an
    error; an interrupt is the error [CeCanceled].  Programs are finite trees, so
    that they can be run against any server, and reasoned about for every answer. *)
From S2P Require Import Prelude External Codephrases Hash Targets Keys Ssh Jobs Messages Headers.
From S2P Require Import Manager Output ClientErrors Watch.

(** [SessionStartBody]. *)
Record SessionStartBody := mkStartBody {
  sb_client_nonce : SessionClientNonce;
  sb_signer_nonce : SessionSignerNonce;
  sb_seq : SessionSeq;
}.

(** Where and how [job_output_from] saves an output. *)
Record SaveOutput := mkSave { so_path : Path; so_force : bool; so_chunk_size : N; so_parallel : N }.

(** What a command asks for, by the type of the answer.  [AskJobOutput] opens a
    byte stream, which is read afterwards; [DoWatch] is [job_watch] and
    [DoWatchStart] the loop of [job_start] (both in [Watch.v]); [DoStream] is
    [job_stream], answering the bytes it hashed; [DoDownload] is the saving branch
    of [job_output_from] (in [Download.v]). *)
Inductive Effect : Type → Type :=
| AskSession : Effect Session
| AskSessionCheck (sid : SessionId) : Effect ()
| AskTarget (via : option string) : Effect BaseboardId
| AskServerNonce : Effect SessionServerNonce
| AskSessionStart (sid : SessionId) (body : SessionStartBody) : Effect ()
| AskAllow (sid : SessionId) (kid : KeyId) (access : Access) : Effect ()
| AskDeny (sid : SessionId) (kid : KeyId) : Effect ()
| AskStop (sid : SessionId) : Effect ()
| AskSkip (sid : SessionId) (id : JobId) : Effect ()
| AskVersions : Effect (list SledVersion)
| AskJobStart (id : JobId) (b : BaseboardId) (job : SignedJob) (params : JobStartParams) : Effect (gset BaseboardId)
| AskJobStop (id : JobId) (until : JobWait) (via : option BaseboardId) : Effect ()
| AskJobStatus (id : JobId) (via : option BaseboardId) : Effect JobStatusMap
| AskJobOutput (id : JobId) (b : BaseboardId) (stream : JobOutputStream) : Effect (result (list byte) CommandError)
| AskAttach (id : JobId) (b : BaseboardId) : Effect ()
| AskHistory (limit offset : N) : Effect (list JobStatusMap)
| DoRandomNonce : Effect SessionClientNonce
| DoWinsize : Effect (N * N)
| DoReadSignedJob : Effect SignedJob
| DoPathExists (p : Path) : Effect bool
| DoOpen (p : Path) (force : bool) : Effect ()
| DoStream (id : JobId) (b : BaseboardId) (p : Path) : Effect (list byte)
| DoDownload (id : JobId) (b : BaseboardId) (stream : JobOutputStream) (len : N) (expected : list byte)
    (save : SaveOutput) : Effect ()
| DoWatch (id : JobId) (sleds : option (gset BaseboardId)) : Effect JobStatusMap
| DoWatchStart (b : BaseboardId) (job : SignedJob) (params : JobStartParams) (via : option BaseboardId) :
    Effect WatchOutcome
| DoConfirmSupersede (s : Session) : Effect ()
| DoConfirmTarget (s : SledId) : Effect ()
| DoShowStartParams (b : BaseboardId) (client : SessionClientNonce) (sush : SessionSushNonce) : Effect ()
| DoShowJobParams (r : JobStartRequest) : Effect ()
| DoPrintOutput (id : JobId) (b : BaseboardId) (stream : JobOutputStream) (output : list byte) (binary : bool) : Effect ()
| DoReport (e : CommandError) : Effect ().

(** Programs. *)
Inductive Prog (A : Type) : Type :=
| Done (a : A)
| Ask {X : Type} (e : Effect X) (k : result X CommandError → Prog A).
Arguments Done {A} _.
Arguments Ask {A X} _ _.

Fixpoint pbind {A B} (p : Prog A) (f : A → Prog B) : Prog B :=
  match p with
  | Done a => f a
  | Ask e k => Ask e (λ r, pbind (k r) f)
  end.

(** Programs that keep a state and may fail; the state survives a failure. *)
Definition Client (S A : Type) : Type := S → Prog (result A CommandError * S).

Section client.
Context {S : Type}.
Definition ret {A} (a : A) : Client S A := λ s, Done (Ok a, s).
Definition throw {A} (e : CommandError) : Client S A := λ s, Done (Err e, s).
Definition lift {A} (r : result A CommandError) : Client S A := λ s, Done (r, s).
Definition bind {A B} (m : Client S A) (f : A → Client S B) : Client S B :=
  λ s, pbind (m s) (λ x, match x.1 with Ok a => f a x.2 | Err e => Done (Err e, x.2) end).
Definition ask {X} (e : Effect X) : Client S X := λ s, Ask e (λ r, Done (r, s)).
Definition gets {A} (f : S → A) : Client S A := λ s, Done (Ok (f s), s).
Definition modify (f : S → S) : Client S () := λ s, Done (Ok tt, f s).
(** A match on the result of [m]: its failure is a value. *)
Definition attempt {A} (m : Client S A) : Client S (result A CommandError) :=
  λ s, pbind (m s) (λ x, Done (Ok x.1, x.2)).

Fixpoint for_each {A} (f : A → Client S ()) (l : list A) : Client S () :=
  match l with
  | [] => ret tt
  | x :: l => bind (f x) (λ _, for_each f l)
  end.
End client.

Declare Scope client_scope.
Delimit Scope client_scope with client.
Notation "'let!' x := m 'in' k" := (bind m (λ x, k)) (at level 10, x pattern, m at level 100, k at level 200) : client_scope.
Notation "m ;; k" := (bind m (λ _, k)) (at level 100, k at level 200, right associativity) : client_scope.

(** ** Running a program *)

(** Against a server, or anything that answers from a state of its own. *)
Definition Server (W : Type) : Type := ∀ X, Effect X → W → result X CommandError * W.

Fixpoint run {W A} (serve : Server W) (p : Prog A) (w : W) : A * W :=
  match p with
  | Done a => (a, w)
  | Ask e k => let '(r, w) := serve _ e w in run serve (k r) w
  end.

(** What a program asked and was answered, newest first. *)
Record Asked := mkAsked { as_type : Type; as_effect : Effect as_type; as_answer : result as_type CommandError }.
Arguments mkAsked {as_type} _ _.

(** What a run asks, newest first, after [h]. *)
Fixpoint asked {W A} (serve : Server W) (h : list Asked) (p : Prog A) (w : W) : list Asked :=
  match p with
  | Done _ => h
  | Ask e k => let '(r, w) := serve _ e w in asked serve (mkAsked e r :: h) (k r) w
  end.

(** Whatever the answers: every effect is one [R] allows after the effects before
    it, and the result satisfies [Q]. *)
Fixpoint always {A} (R : list Asked → ∀ X, Effect X → Prop) (Q : list Asked → A → Prop) (h : list Asked) (p : Prog A) : Prop :=
  match p with
  | Done a => Q h a
  | Ask e k => R h _ e ∧ ∀ r, always R Q (mkAsked e r :: h) (k r)
  end.

(** ** Facts *)

Lemma run_bind {W A B} (serve : Server W) (p : Prog A) (f : A → Prog B) w :
  run serve (pbind p f) w = let '(a, w) := run serve p w in run serve (f a) w.
Proof.
  revert w. induction p as [a|X e k IH]; intros w; cbn; [done|]. destruct (serve X e w) as [r w']. apply IH.
Qed.

Lemma always_mono {A} R R' (Q Q' : list Asked → A → Prop) h p :
  (∀ h X e, R h X e → R' h X e) → (∀ h a, Q h a → Q' h a) → always R Q h p → always R' Q' h p.
Proof.
  intros HR HQ. revert h. induction p as [a|X e k IH]; intros h; cbn; [apply HQ|]. intros [He Hk]. split; [auto|].
  intros r. by apply IH.
Qed.

Lemma always_bind {A B} R (Q : list Asked → B → Prop) h (p : Prog A) f :
  always R (λ h a, always R Q h (f a)) h p → always R Q h (pbind p f).
Proof.
  revert h. induction p as [a|X e k IH]; intros h; cbn; [done|]. intros [He Hk]. split; [done|].
  intros r. by apply IH.
Qed.

(** What [always] promises holds of every run: of its result, and of every effect
    it asks for. *)
Lemma always_run {W A} (serve : Server W) R (Q : list Asked → A → Prop) p h w :
  always R Q h p → Q (asked serve h p w) (run serve p w).1.
Proof.
  revert h w. induction p as [a|X e k IH]; intros h w; cbn; [done|]. intros [_ Hk].
  destruct (serve X e w) as [r w']. apply IH, Hk.
Qed.

Lemma asked_suffix {W A} (serve : Server W) (p : Prog A) h w : ∃ l, asked serve h p w = l ++ h.
Proof.
  revert h w. induction p as [a|X e k IH]; intros h w; cbn; [by exists []|].
  destruct (serve X e w) as [r w']. destruct (IH r (mkAsked e r :: h) w') as [l ->]. exists (l ++ [mkAsked e r]).
  by rewrite <- app_assoc.
Qed.

Lemma always_asked {W A} (serve : Server W) R (Q : list Asked → A → Prop) p h w l x h' :
  always R Q h p → asked serve h p w = l ++ x :: h' → (length h <= length h')%nat →
  R h' _ (as_effect x).
Proof.
  revert h w. induction p as [a|X e k IH]; intros h w; cbn.
  - intros _ E Hl. apply (f_equal length) in E. rewrite length_app in E. cbn in E. lia.
  - intros [He Hk] E Hl. destruct (serve X e w) as [r w']. destruct (decide (length h = length h')) as [Hd|Hd].
    + destruct (asked_suffix serve (k r) (mkAsked e r :: h) w') as [l' E']. rewrite E' in E.
      apply app_inj_2 in E as [_ [= <- <-]]; [done|cbn; lia].
    + eapply IH; [apply Hk|exact E|cbn; lia].
Qed.

Section rules.
Context {S : Type}.
Implicit Types (h : list Asked) (s : S).

(** A client program: the errors of a step end it. *)
Lemma always_client {A B} R (Q : list Asked → result B CommandError * S → Prop) h (m : Client S A) f s :
  always R (λ h x, match x.1 with Ok a => always R Q h (f a x.2) | Err e => Q h (Err e, x.2) end) h (m s) →
  always R Q h (bind m f s).
Proof. intros H. apply always_bind. eapply always_mono, H; [done|]. by intros h' [[a|e] s']. Qed.

Lemma always_attempt {A} R (Q : list Asked → result (result A CommandError) CommandError * S → Prop) h (m : Client S A) s :
  always R (λ h x, Q h (Ok x.1, x.2)) h (m s) → always R Q h (attempt m s).
Proof. intros H. by apply always_bind. Qed.

Lemma always_for_each {A} R (I : list Asked → S → Prop) h (f : A → Client S ()) l s :
  I h s →
  (∀ h s x, x ∈ l → I h s → always R (λ h r, I h r.2) h (f x s)) →
  always R (λ h r, I h r.2) h (for_each f l s).
Proof.
  revert h s. induction l as [|x l IH]; intros h s Hi Hf; cbn; [done|]. apply always_client.
  eapply always_mono, Hf; [done| |by left|done]. intros h' [[[]|e] s'] Hi'; cbn in *; [|done].
  apply IH; [done|]. intros. by apply Hf; [right|].
Qed.
End rules.
