(* ===== verification/Commands.v ===== *)
(** * The client's session and job commands ([client/src/commands.rs], [cli.rs], [repl.rs])

    The state is the context a command runs in: the session it tracks, the files
    that keep the session and the client nonce of a pending ceremony, and, in the
    REPL, the last job.  A build without the signing service is modelled, the
    default one.  Displays that only print are left out, but for the parameters to
    relay, the outputs and the errors shown. *)
From S2P Require Import Prelude External Codephrases Hash Targets Keys Ssh Jobs Messages Headers.
From S2P Require Import Manager Output ClientErrors TargetArgs Watch Effects.
Open Scope N_scope.
Open Scope client_scope.

(** ** The context *)

Definition SESSION_FILE_VERSION : N := 1.
Definition CLIENT_NONCE_FILE_VERSION : N := 1.

(** A saved file: absent, unreadable (or not its JSON), or a value and its version. *)
Inductive SavedFile (A : Type) := NoFile | Unreadable | Saved (version : N) (a : A).
Arguments NoFile {A}.
Arguments Unreadable {A}.
Arguments Saved {A} _ _.

(** [Cli], and [Repl] around it when [x_repl]; [x_writable] tells whether files
    can be written. *)
Record Ctx := mkCtx {
  x_session : option Session;
  x_session_file : bool;
  x_saved : SavedFile Session;
  x_nonce_file : bool;
  x_saved_nonce : SavedFile SessionClientNonce;
  x_writable : bool;
  x_repl : bool;
  x_last_job : option JobId;
}.

Definition with_client_session (c : Ctx) (s : option Session) : Ctx :=
  mkCtx s (x_session_file c) (x_saved c) (x_nonce_file c) (x_saved_nonce c) (x_writable c) (x_repl c) (x_last_job c).
Definition with_saved (c : Ctx) (f : SavedFile Session) : Ctx :=
  mkCtx (x_session c) (x_session_file c) f (x_nonce_file c) (x_saved_nonce c) (x_writable c) (x_repl c) (x_last_job c).
Definition with_saved_nonce (c : Ctx) (f : SavedFile SessionClientNonce) : Ctx :=
  mkCtx (x_session c) (x_session_file c) (x_saved c) (x_nonce_file c) f (x_writable c) (x_repl c) (x_last_job c).

(** [Repl::last_job_id], which the CLI does not keep. *)
Definition note_job (id : JobId) (c : Ctx) : Ctx :=
  if x_repl c then
    mkCtx (x_session c) (x_session_file c) (x_saved c) (x_nonce_file c) (x_saved_nonce c) (x_writable c) true (Some id)
  else c.

(** The session a file of the current version holds. *)
Definition read_saved {A} (current : N) (f : SavedFile A) : option A :=
  match f with Saved version a => if version =? current then Some a else None | _ => None end.

(** [Cli::load_session]; the flags tell whether the files could be placed. *)
Definition load_session (placed_session placed_nonce : bool) (c : Ctx) : Ctx :=
  if negb placed_session then c
  else
    let session := match read_saved SESSION_FILE_VERSION (x_saved c) with Some s => Some s | None => x_session c end in
    mkCtx session true (x_saved c) (placed_nonce || x_nonce_file c) (x_saved_nonce c) (x_writable c) (x_repl c) (x_last_job c).

(** [Cli::save_session]. *)
Definition save_session (session : option Session) (c : Ctx) : Ctx :=
  if negb (x_session_file c) then c
  else if negb (x_writable c) then c
  else with_saved c (match session with Some s => Saved SESSION_FILE_VERSION s | None => NoFile end).

(** [Cli::adopt_session]. *)
Definition adopt_session (session : Session) (force : bool) (c : Ctx) : Ctx :=
  if force || match x_session c with Some s => negb (bool_decide (sess_id s = sess_id session)) | None => true end
  then with_client_session (save_session (Some session) c) (Some session)
  else c.

(** [pending_client_nonce], [save_client_nonce]. *)
Definition pending_client_nonce (c : Ctx) : option SessionClientNonce :=
  if x_nonce_file c then read_saved CLIENT_NONCE_FILE_VERSION (x_saved_nonce c) else None.
Definition save_client_nonce (n : SessionClientNonce) (c : Ctx) : Ctx :=
  if negb (x_nonce_file c) then c
  else if negb (x_writable c) then c
  else with_saved_nonce c (Saved CLIENT_NONCE_FILE_VERSION n).

Definition client_session_id (c : Ctx) : option SessionId := sess_id <$> x_session c.

(** [session_started] and [session_joined] both adopt; [session_stopped] forgets. *)
Definition session_joined (session : Session) (force : bool) (c : Ctx) : Ctx := adopt_session session force c.
Definition client_session_started (session : Session) (force : bool) (c : Ctx) : Ctx := adopt_session session force c.
Definition session_stopped (sid : SessionId) (c : Ctx) : Ctx :=
  match x_session c with
  | Some s => if bool_decide (sess_id s = sid) then save_session None (with_client_session c None) else c
  | None => c
  end.

(** [job_started], [job_stopped], [job_status]. *)
Definition client_job_started (job : SignedJob) (c : Ctx) : Ctx :=
  let c := note_job (job_id (payload job)) c in
  match x_session c with
  | Some s => let s := Jobs.job_started s job in save_session (Some s) (with_client_session c (Some s))
  | None => c
  end.
Definition job_stopped (id : JobId) (c : Ctx) : Ctx := note_job id c.
Definition show_status (id : JobId) (c : Ctx) : Ctx := note_job id c.

Definition last_job_id (c : Ctx) : option JobId := if x_repl c then x_last_job c else None.

(** ** Arguments *)

(** [LimitArgs]. *)
Record LimitArgs := mkLimitArgs { la_cpu : option N; la_mem : option N; la_fsize : option N }.
Definition as_limits (a : LimitArgs) : JobLimits :=
  mkJobLimits (default (max_cpu default_limits) (la_cpu a)) (default (max_mem default_limits) (la_mem a))
    (default (max_fsize default_limits) (la_fsize a)).

(** [JobStartArgs]. *)
Record JobStartArgs := mkStartArgs {
  sa_limits : LimitArgs;
  sa_command : option string;
  sa_binary : bool;
  sa_interactive : bool;
  sa_streaming : bool;
  sa_file : option Path;
  sa_force : bool;
  sa_target : TargetArg;
  sa_term : option string;
  sa_wait : bool;
}.

(** [JobOutput]. *)
Record OutputArgs := mkOutputArgs {
  oa_job : option JobId;
  oa_binary : bool;
  oa_file : option Path;
  oa_force : bool;
  oa_chunk_size : N;
  oa_parallel : N;
}.
Definition DEFAULT_CHUNK_SIZE : N := 32 * 1024 * 1024.
Definition PARALLEL_CHUNKS : N := 8.
Definition MAX_PARALLEL_CHUNKS : N := 64.

(** [SessionCommand], [JobCommand]. *)
Inductive SessionCommand :=
| ScAllow (kid : KeyId) (write : bool)
| ScAttach (sid : option SessionId) (force : bool)
| ScDeny (kid : KeyId)
| ScStartParams (force : bool)
| ScStart (sid : option SessionId) (nonce : option SessionSignerNonce) (sq : option SessionSeq)
    (client_nonce : option SessionClientNonce) (force : bool)
| ScStop (sid : option SessionId).
Definition default_session_command : SessionCommand := ScAttach None false.

Inductive JobCommand :=
| JcStart (args : JobStartArgs)
| JcStop (id : option JobId)
| JcSkip (id : option JobId)
| JcStatus (id : option JobId) (full wait : bool)
| JcStdout (target : TargetArg) (args : OutputArgs)
| JcStderr (target : TargetArg) (args : OutputArgs)
| JcAttach (id : option JobId) (target : TargetArg)
| JcHistory (limit offset : N).

Section commands.
Context {Ibb : BaseboardOps} {Isha : Sha3}.
Abbreviation Cmd := (Client Ctx).

(** [next_job_id], [job_skipped]: these need the chain. *)
Definition client_next_job_id (c : Ctx) : result JobId CommandError :=
  match x_session c with Some s => Ok (session_next_job_id s) | None => Err CeMissingSession end.
Definition job_skipped (id : JobId) (c : Ctx) : bool * Ctx :=
  match x_session c with
  | Some s =>
    let '(skipped, s) := skip_job s id in
    let c := with_client_session c (Some s) in
    (skipped, if skipped then save_session (Some s) c else c)
  | None => (false, c)
  end.

Definition get_ok {A} (f : Ctx → result A CommandError) : Cmd A := let! r := gets f in lift r.
Definition session_or_missing : Cmd SessionId := get_ok (λ c, ok_or (client_session_id c) CeMissingSession).

(** [job_id_or_last]. *)
Definition job_id_or_last (id : option JobId) : Cmd JobId :=
  get_ok (λ c, ok_or (match id with Some id => Some id | None => last_job_id c end) CeMissingJobId).

(** An effect that only shows something cannot fail. *)
Definition show (e : Effect ()) : Cmd () := attempt (ask e) ;; ret tt.

(** ** Sessions *)

(** [really_supersede]. *)
Definition really_supersede (force : bool) : Cmd () :=
  if force then ret tt
  else
    let! r := attempt (ask AskSession) in
    match r with
    | Ok s => ask (DoConfirmSupersede s)
    | Err (CeSession _) => ret tt
    | Err e => throw e
    end.

(** [session_start_params]. *)
Definition session_start_params (force : bool) : Cmd () :=
  really_supersede force ;;
  let! b := ask (AskTarget None) in
  let! nonce := ask AskServerNonce in
  let! client_nonce := ask DoRandomNonce in
  let sush := sush_nonce_compute client_nonce nonce in
  modify (save_client_nonce client_nonce) ;;
  show (DoShowStartParams b client_nonce sush).

(** [session_start]; a session is shown, and adopted, when it was not created here. *)
Definition session_start (sid : SessionId) (body : SessionStartBody) (show : bool) : Cmd () :=
  let session := session_new sid in
  ask (AskSessionStart (sess_id session) body) ;;
  if show then modify (client_session_started session true) else ret tt.

(** [session attach]: with a server, its session; without one, the session named. *)
Definition session_attach (online : bool) (sid : option SessionId) (force : bool) : Cmd () :=
  if online then
    let! s := ask AskSession in
    if match sid with Some sid => negb (bool_decide (sess_id s = sid)) | None => false end
    then throw CeMissingSession
    else modify (session_joined s true)
  else
    match sid with
    | Some sid => modify (session_joined (session_new sid) force)
    | None => throw CeOffline
    end.

(** [session start]: without the signer's answer it shows the parameters to relay. *)
Definition session_relay (sid : option SessionId) (nonce : option SessionSignerNonce) (sq : option SessionSeq)
    (client_nonce : option SessionClientNonce) (force : bool) : Cmd () :=
  match sid, nonce, sq with
  | Some sid, Some signer_nonce, Some sq =>
    let! client_nonce :=
      get_ok (λ c, ok_or (match client_nonce with Some n => Some n | None => pending_client_nonce c end)
                     CeMissingClientNonce) in
    session_start sid (mkStartBody client_nonce signer_nonce sq) true
  | _, _, _ => session_start_params force
  end.

(** [session]; [online] tells whether there is a client to ask. *)
Definition session (online : bool) (cmd : SessionCommand) : Cmd () :=
  match cmd, online with
  | ScAttach sid force, online => session_attach online sid force
  | ScStartParams force, true => session_start_params force
  | ScStart sid nonce sq client_nonce force, true => session_relay sid nonce sq client_nonce force
  | ScAllow kid write, true =>
    let! sid := session_or_missing in
    ask (AskAllow sid kid (if write then ReadWrite else ReadOnly))
  | ScDeny kid, true =>
    let! sid := session_or_missing in
    ask (AskDeny sid kid)
  | ScStop sid, true =>
    let! sid :=
      get_ok (λ c, ok_or (match sid with Some sid => Some sid | None => client_session_id c end) CeMissingSession) in
    ask (AskStop sid) ;;
    modify (session_stopped sid)
  | _, false => throw CeOffline
  end.

(** ** Targets *)

Definition ask_target (t : Target) : Cmd BaseboardId :=
  match single_baseboard t with
  | Some b => ret b
  | None => ask (AskTarget (if is_all t then None else Some (target_to_string t)))
  end.

Definition ask_target_arg (t : TargetArg) : Cmd Target :=
  match t with
  | ArgTarget t => ret t
  | ArgAbbreviated _ =>
    let! inventory := ask AskVersions in
    lift (resolve_target_arg (Ok inventory) t)
  end.

Definition ask_serial (id : JobId) (serial : string) : Cmd BaseboardId :=
  let! status := ask (AskJobStatus id None) in
  lift (resolve_serial (Ok status) id serial).

(** [preflight_target]: the user confirms the sleds not in the inventory. *)
Definition preflight_target (t : Target) : Cmd Target :=
  match t with
  | TSleds sleds =>
    let! r := attempt (ask AskVersions) in
    match r with
    | Ok inventory =>
      for_each (λ s, if in_inventory inventory s then ret tt else ask (DoConfirmTarget s)) sleds ;;
      ret t
    | Err _ => ret t
    end
  | TAll => ret t
  end.

(** ** Starting jobs *)

(** The mode a start asks for. *)
Definition start_mode (args : JobStartArgs) : Cmd JobMode :=
  if sa_interactive args then ret Interactive
  else if sa_streaming args then
    match sa_file args with
    | None => throw CeStreamingNeedsFile
    | Some path =>
      let! exists_ := if sa_force args then ret false else ask (DoPathExists path) in
      if exists_ then throw (CeIo (String.concat "/" path) "entity already exists")
      else ret StreamOutput
    end
  else ret Batch.

(** [job_start_request]. *)
Definition job_start_request (online : bool) (args : JobStartArgs) : Cmd JobStartRequest :=
  match sa_command args with
  | None => throw CeMissingCommand
  | Some command =>
    let! mode := start_mode args in
    let! sid := session_or_missing in
    (if online then ask (AskSessionCheck sid) else ret tt) ;;
    let! target :=
      match sa_target args with
      | ArgTarget t => ret t
      | abbreviated => if online then ask_target_arg abbreviated else throw CeOffline
      end in
    let! target :=
      if (is_interactive mode || is_streaming mode) && match single_baseboard target with None => true | Some _ => false end
      then
        if online then let! b := ask_target target in ret (target_of_baseboard b) else throw CeInteractiveTarget
      else if online then preflight_target target
      else ret target in
    let! id := get_ok client_next_job_id in
    ret (mkJobStartRequest id sid command mode target)
  end.

(** The request and parameters [job_start] sends. *)
Definition start_wait (args : JobStartArgs) (mode : JobMode) : JobWait :=
  if is_interactive mode || match mode with StreamOutput => true | _ => false end || sa_wait args then WStart else WNone.
Definition start_params (args : JobStartArgs) (mode : JobMode) (winsize : result (N * N) CommandError) : JobStartParams :=
  let size := match winsize with Ok x => Some x | Err _ => None end in
  mkJobStartParams (as_limits (sa_limits args)) (sa_term args) (fst <$> size) (snd <$> size) (start_wait args mode).

Definition send_start (args : JobStartArgs) (job : SignedJob) (b : BaseboardId) : Cmd (gset BaseboardId) :=
  let! winsize := attempt (ask DoWinsize) in
  ask (AskJobStart (job_id (payload job)) b job (start_params args (mode (payload job)) winsize)).

(** ** Output *)

(** What a sled's status tells of a job's output ([job_output_from]). *)
Definition recorded_output (id : JobId) (b : BaseboardId) (status : JobStatusMap) : result JobOutputState CommandError :=
  match status !! b with
  | None =>
    Err (CeNotFound ("Job `" +:+ newtype_to_string id +:+ "` not found on sled `" +:+ baseboard_to_string b +:+ "`"))
  | Some (Cancelled _ _ _) => Err (CeJobCancelled id)
  | Some (Queued id _ _) => Err (CeJobNotYetRunning id)
  | Some (Error _ _ e) => Err (CeProcess e)
  | Some (Started id _) => Err (CeJobStillRunning id)
  | Some (Skipped id _ reason) => Err (CeJobSkipped id reason)
  | Some (Stopped _ _ _ _ output) => Ok output
  end.
Definition output_len (stream : JobOutputStream) (o : JobOutputState) : N :=
  match stream with Stdout => stdout_len o | Stderr => stderr_len o end.
Definition output_hash (stream : JobOutputStream) (o : JobOutputState) : list byte :=
  match stream with Stdout => stdout_hash o | Stderr => stderr_hash o end.

(** [job_output_from]: saved to a file, or checked and printed. *)
Definition job_output_from (b : BaseboardId) (stream : JobOutputStream) (args : OutputArgs) : Cmd () :=
  let! id := job_id_or_last (oa_job args) in
  let! status := ask (AskJobStatus id (Some b)) in
  let! o := lift (recorded_output id b status) in
  let len := output_len stream o in
  let expected := output_hash stream o in
  match oa_file args with
  | Some path =>
    if oa_chunk_size args =? 0 then throw CeChunkSizeZero
    else ask (DoDownload id b stream len expected (mkSave path (oa_force args) (oa_chunk_size args) (oa_parallel args)))
  | None =>
    let! bytes := ask (AskJobOutput id b stream) in
    let! bytes := lift bytes in
    let received := hash bytes in
    if bool_decide (received = expected) then
      modify (note_job id) ;;
      show (DoPrintOutput id b stream bytes (oa_binary args))
    else throw (CeOutputHashMismatch expected received)
  end.

Definition keys_of (status : JobStatusMap) : list BaseboardId := sorted_elements baseboard_le (dom status).

(** [job_output]. *)
Definition job_output (t : TargetArg) (stream : JobOutputStream) (args : OutputArgs) : Cmd () :=
  let! id := job_id_or_last (oa_job args) in
  let from_sled b := job_output_from b stream args in
  let from_target t :=
    if negb (is_all t) then let! b := ask_target t in from_sled b
    else if oa_binary args || match oa_file args with Some _ => true | None => false end then throw CeOutputNeedsTarget
    else
      let! status := ask (AskJobStatus id None) in
      if bool_decide (status = ∅) then
        throw (CeNotFound ("Job `" +:+ newtype_to_string id +:+ "` not found"))
      else
        for_each (λ b,
          let! r := attempt (from_sled b) in
          match r with Ok _ => ret tt | Err e => show (DoReport e) end) (keys_of status) in
  match t with
  | ArgTarget t => from_target t
  | ArgAbbreviated [ArgSerial serial] => let! b := ask_serial id serial in from_sled b
  | ArgAbbreviated _ => let! t := ask_target_arg t in from_target t
  end.

(** ** Running a signed job *)

(** The end of the streaming branch: what was received against the sled's record. *)
Definition stream_verdict (id : JobId) (status : option JobStatus) (received : list byte) : result () CommandError :=
  match status with
  | Some (Stopped _ _ _ (Ok 0%Z) o) =>
    let count := N.of_nat (length received) in
    if negb (stdout_len o =? count) then Err (CeLengthMismatch (stdout_len o) count)
    else if bool_decide (hash received ≠ stdout_hash o) then Err (CeOutputHashMismatch (stdout_hash o) (hash received))
    else Ok tt
  | _ => Err (CeStreamUnverified id)
  end.

Definition start_interactive (args : JobStartArgs) (job : SignedJob) (b : BaseboardId) : Cmd () :=
  let id := job_id (payload job) in
  send_start args job b ;;
  modify (client_job_started job) ;;
  let! r := attempt (ask (AskAttach id b)) in
  match r with
  | Ok _ => ret tt
  | Err (CeNotFound _) =>
    let! r := attempt (job_output_from b Stdout
      (mkOutputArgs (Some id) true None false DEFAULT_CHUNK_SIZE PARALLEL_CHUNKS)) in
    match r with
    | Ok _ => ret tt
    | Err e => if is_unfinished_job e then ret tt else show (DoReport e)
    end
  | Err e => throw e
  end ;;
  ask (AskJobStatus id (Some b)) ;;
  modify (show_status id).

Definition start_streaming (args : JobStartArgs) (job : SignedJob) (b : BaseboardId) : Cmd () :=
  let id := job_id (payload job) in
  match sa_file args with
  | None => throw CeStreamingNeedsFile
  | Some path =>
    ask (DoOpen path (sa_force args)) ;;
    let! sleds := send_start args job b in
    modify (client_job_started job) ;;
    let! received := ask (DoStream id b path) in
    let! status := ask (DoWatch id (Some sleds)) in
    modify (show_status id) ;;
    lift (stream_verdict id (status !! b) received)
  end.

(** Show a stream of a sled; errors are reported when there are other sleds. *)
Definition show_output (args : JobStartArgs) (id : JobId) (multiple : bool) (b : BaseboardId) (stream : JobOutputStream) :
    Cmd () :=
  let! r := attempt (ask (AskJobOutput id b stream)) in
  match r with
  | Ok bytes =>
    let! output := lift bytes in
    modify (note_job id) ;;
    show (DoPrintOutput id b stream output (sa_binary args))
  | Err e => if multiple then show (DoReport e) else throw e
  end.

Definition start_watching (args : JobStartArgs) (job : SignedJob) (b : BaseboardId) : Cmd () :=
  let id := job_id (payload job) in
  let via := if is_single (target (payload job)) then Some b else None in
  let! winsize := attempt (ask DoWinsize) in
  let! o := ask (DoWatchStart b job (start_params args (mode (payload job)) winsize) via) in
  (if wo_started o then modify (client_job_started job) else ret tt) ;;
  (if wo_stopped o then modify (job_stopped id) else ret tt) ;;
  let! status := lift (wo_end o) in
  modify (show_status id) ;;
  lift (watch_verdict id status) ;;
  for_each (λ b, for_each (show_output args id (1 <? size status)%nat b) [Stdout; Stderr]) (keys_of status).

(** [job_start]. *)
Definition job_start (job : SignedJob) (args : JobStartArgs) : Cmd () :=
  let! b := ask_target (target (payload job)) in
  if is_interactive (mode (payload job)) then start_interactive args job b
  else if match mode (payload job) with StreamOutput => true | _ => false end then start_streaming args job b
  else if sa_wait args then start_watching args job b
  else
    send_start args job b ;;
    modify (client_job_started job).

(** [attach_refused]. *)
Definition why_refused (id : JobId) (b : BaseboardId) (status : option JobStatus) : CommandError :=
  match status with
  | None => CeJobNotOnSled id b
  | Some (Queued _ _ _) => CeJobNotYetRunning id
  | Some (Started _ _) => CeJobStartingOrStopping id
  | Some (Cancelled _ _ _) => CeJobCancelled id
  | Some (Skipped _ _ reason) => CeJobSkipped id reason
  | Some (Stopped _ _ _ _ _) | Some (Error _ _ _) => CeJobFinished id
  end.
Definition attach_refused (id : JobId) (b : BaseboardId) : Cmd CommandError :=
  let! r := attempt (ask (AskJobStatus id (Some b))) in
  match r with Ok status => ret (why_refused id b (status !! b)) | Err e => ret e end.

Definition attach_target (id : JobId) (t : TargetArg) : Cmd BaseboardId :=
  match t with
  | ArgAbbreviated [ArgSerial serial] => ask_serial id serial
  | ArgAbbreviated _ => let! t := ask_target_arg t in ask_target t
  | ArgTarget t => ask_target t
  end.

(** [job start]: a job signed elsewhere, or the parameters to have one signed. *)
Definition start_command (online : bool) (args : JobStartArgs) : Cmd () :=
  match sa_command args, online with
  | None, true => let! j := ask DoReadSignedJob in job_start j args
  | Some _, _ => let! r := job_start_request online args in show (DoShowJobParams r)
  | None, false => throw CeOffline
  end.

(** [job stop], [job_stop]. *)
Definition stop_command (id : option JobId) : Cmd () :=
  let! id := job_id_or_last id in
  ask (AskJobStop id WStop None) ;;
  modify (job_stopped id).

(** [job skip]: offline it advances the local session only. *)
Definition skip_command (online : bool) (id : option JobId) : Cmd () :=
  let! sid := session_or_missing in
  let! id := match id with Some id => ret id | None => get_ok client_next_job_id end in
  (if online then ask (AskSkip sid id) else ret tt) ;;
  let! skipped := (λ c, let '(b, c) := job_skipped id c in Done (Ok b, c)) in
  if skipped then ret tt else throw (CeNotNextJob id).

(** [job status], [job attach], [job history]. *)
Definition status_command (id : option JobId) (wait : bool) : Cmd () :=
  let! id := job_id_or_last id in
  (if wait then ask (DoWatch id None) else ask (AskJobStatus id None)) ;;
  modify (show_status id).

Definition attach_command (id : option JobId) (t : TargetArg) : Cmd () :=
  let! id := job_id_or_last id in
  let! b := attach_target id t in
  let! r := attempt (ask (AskAttach id b)) in
  match r with
  | Err (CeNotFound _) => let! e := attach_refused id b in show (DoReport e)
  | r => lift r
  end.

Definition history_command (limit offset : N) : Cmd () :=
  let! history := ask (AskHistory limit offset) in
  for_each (λ status,
    match head (keys_of status) ≫= (λ b, status !! b) with
    | Some s => modify (show_status (status_job_id s))
    | None => ret tt
    end) history.

(** [job]. *)
Definition job (online : bool) (cmd : JobCommand) : Cmd () :=
  match cmd, online with
  | JcStart args, online => start_command online args
  | JcSkip id, online => skip_command online id
  | JcStop id, true => stop_command id
  | JcStatus id _ wait, true => status_command id wait
  | JcStdout t args, true => job_output t Stdout args
  | JcStderr t args, true => job_output t Stderr args
  | JcAttach id t, true => attach_command id t
  | JcHistory limit offset, true => history_command limit offset
  | _, false => throw CeOffline
  end.
End commands.
