(* ===== verification/CommandFacts.v ===== *)
(** * What the client's commands do, whatever the answers

    Theorems about the programs of [Commands.v] for every answer of the server, the
    disk and the user: what survives the end of the process, what a failed command
    leaves, what a prepared request says, what is printed. *)
From S2P Require Import Prelude External Codephrases Hash Targets Keys Ssh Jobs Messages Headers.
From S2P Require Import Manager Output ClientErrors TargetArgs Watch Effects Commands.
Open Scope N_scope.

Section command_facts.
Context {Ibb : BaseboardOps} {Isha : Sha3}.

(** Every effect, every answer. *)
Definition anything : list Asked → ∀ X, Effect X → Prop := λ _ _ _, True.

(** A command keeps what [I] says of the context, whatever the answers. *)
Definition keeps (I : Ctx → Prop) {A} (m : Client Ctx A) : Prop :=
  ∀ h c, I c → always anything (λ _ x, I x.2) h (m c).

Section keeps.
Context (I : Ctx → Prop).

Lemma keeps_bind {A B} (m : Client Ctx A) (f : A → Client Ctx B) :
  keeps I m → (∀ a, keeps I (f a)) → keeps I (bind m f).
Proof.
  intros Hm Hf h c Hc. apply always_client. eapply always_mono, Hm; [done| |done].
  intros h' [[a|e] c'] Hi; cbn in *; [by apply Hf|done].
Qed.
Lemma keeps_attempt {A} (m : Client Ctx A) : keeps I m → keeps I (attempt m).
Proof. intros Hm h c Hc. apply always_attempt. eapply always_mono, Hm; auto. Qed.
Lemma keeps_ask {X} (e : Effect X) : keeps I (ask e).
Proof. by intros h c Hc. Qed.
Lemma keeps_ret {A} (a : A) : keeps I (ret a).
Proof. by intros h c Hc. Qed.
Lemma keeps_throw {A} e : keeps I (throw (A:=A) e).
Proof. by intros h c Hc. Qed.
Lemma keeps_lift {A} (r : result A CommandError) : keeps I (lift r).
Proof. by intros h c Hc. Qed.
Lemma keeps_gets {A} (f : Ctx → A) : keeps I (gets f).
Proof. by intros h c Hc. Qed.
Lemma keeps_modify (f : Ctx → Ctx) : (∀ c, I c → I (f c)) → keeps I (modify f).
Proof. intros Hf h c Hc. by apply Hf. Qed.
Lemma keeps_for_each {A} (f : A → Client Ctx ()) l : (∀ x, keeps I (f x)) → keeps I (for_each f l).
Proof. intros Hf h c Hc. apply always_for_each; [done|]. intros. by apply Hf. Qed.
Lemma keeps_if {A} (b : bool) (m n : Client Ctx A) : keeps I m → keeps I n → keeps I (if b then m else n).
Proof. by destruct b. Qed.
End keeps.

Create HintDb keeps.
#[local] Hint Resolve keeps_bind keeps_attempt keeps_ask keeps_ret keeps_throw keeps_lift keeps_gets keeps_modify
  keeps_for_each keeps_if : keeps.

(** ** The session outlives the process *)

(** What another invocation of the client finds. *)
Definition next_invocation (c : Ctx) : Ctx :=
  load_session true true (mkCtx None false (x_saved c) false (x_saved_nonce c) (x_writable c) (x_repl c) None).

(** The session is kept in a file, and the file is up to date. *)
Definition persistent (c : Ctx) : Prop :=
  x_session_file c = true ∧ x_writable c = true ∧ x_session (next_invocation c) = x_session c.

Lemma next_session c : x_session (next_invocation c) = read_saved SESSION_FILE_VERSION (x_saved c).
Proof. unfold next_invocation, load_session. cbn. by destruct (read_saved _ _). Qed.

Lemma persistent_next c : x_writable c = true → persistent (next_invocation c).
Proof.
  intros Hw. unfold persistent. rewrite !next_session. unfold next_invocation, load_session. cbn.
  by destruct (read_saved _ _).
Qed.

Lemma persistent_save s c : x_session_file c = true → x_writable c = true → persistent (save_session s (with_client_session c s)).
Proof.
  intros Hf Hw. unfold save_session. cbn. rewrite Hf, Hw. cbn. unfold persistent. rewrite next_session. cbn.
  by destruct s.
Qed.

Lemma save_then_set s c : with_client_session (save_session s c) s = save_session s (with_client_session c s).
Proof. unfold save_session. cbn. by repeat case_match. Qed.

Lemma persistent_adopt s force c : persistent c → persistent (adopt_session s force c).
Proof.
  intros Hp. unfold adopt_session. destruct (force || _); [|done]. rewrite save_then_set.
  destruct Hp as (Hf&Hw&_). by apply persistent_save.
Qed.

Lemma persistent_note id c : persistent c → persistent (note_job id c).
Proof.
  unfold persistent. rewrite !next_session. unfold note_job. by destruct (x_repl c) eqn:E.
Qed.

Lemma persistent_nonce n c : persistent c → persistent (save_client_nonce n c).
Proof.
  unfold persistent. rewrite !next_session. unfold save_client_nonce. by repeat case_match.
Qed.

Lemma persistent_stopped sid c : persistent c → persistent (session_stopped sid c).
Proof.
  unfold session_stopped. intros Hp. destruct (x_session c); [|done]. case_bool_decide; [|done].
  destruct Hp as (Hf&Hw&_). by apply persistent_save.
Qed.

Lemma persistent_started job c : persistent c → persistent (client_job_started job c).
Proof.
  intros Hp. unfold client_job_started. apply (persistent_note (job_id (payload job))) in Hp.
  destruct (x_session _) as [s|]; [|done]. destruct Hp as (Hf&Hw&_). by apply persistent_save.
Qed.

Lemma persistent_skipped id c : persistent c → persistent (job_skipped id c).2.
Proof.
  intros Hp. unfold job_skipped. destruct (x_session c) as [s|] eqn:Es; [|done].
  destruct (skip_job s id) as [[] s'] eqn:E; cbn.
  - destruct Hp as (Hf&Hw&_). by apply persistent_save.
  - assert (s' = s) as -> by (unfold skip_job in E; case_match; congruence).
    unfold persistent in *. rewrite next_session in *. cbn. by rewrite <- Es.
Qed.

#[local] Hint Resolve persistent_adopt persistent_note persistent_nonce persistent_stopped persistent_started : keeps.

(** Take a command apart into its steps. *)
Ltac keeps :=
  repeat first
    [ progress intros
    | solve [eauto with keeps]
    | progress cbn beta iota zeta
    | apply keeps_bind | apply keeps_attempt | apply keeps_ask | apply keeps_ret | apply keeps_throw | apply keeps_lift
    | apply keeps_gets | apply keeps_for_each
    | apply keeps_modify; solve [auto with keeps]
    | match goal with
      | |- keeps _ (match ?x with _ => _ end) => destruct x
      | |- keeps _ (if ?b then _ else _) => destruct b
      | |- keeps _ (let _ := _ in _) => cbv zeta
      end ].

Lemma show_keeps e : keeps persistent (show e).
Proof. unfold show. keeps. Qed.
Lemma get_ok_keeps {A} (f : Ctx → result A CommandError) : keeps persistent (get_ok f).
Proof. unfold get_ok. keeps. Qed.
#[local] Hint Resolve show_keeps get_ok_keeps : keeps.

Lemma session_keeps online cmd : keeps persistent (session online cmd).
Proof.
  unfold session, session_attach, session_relay, session_start, session_start_params, really_supersede,
    session_or_missing. keeps.
Qed.

Lemma output_from_keeps b stream args : keeps persistent (job_output_from b stream args).
Proof. unfold job_output_from, job_id_or_last. keeps. Qed.
Lemma ask_target_keeps t : keeps persistent (ask_target t).
Proof. unfold ask_target. keeps. Qed.
Lemma ask_target_arg_keeps t : keeps persistent (ask_target_arg t).
Proof. unfold ask_target_arg. keeps. Qed.
Lemma ask_serial_keeps id serial : keeps persistent (ask_serial id serial).
Proof. unfold ask_serial. keeps. Qed.
Lemma send_start_keeps args job b : keeps persistent (send_start args job b).
Proof. unfold send_start. keeps. Qed.
Lemma show_output_keeps args id m b stream : keeps persistent (show_output args id m b stream).
Proof. unfold show_output. keeps. Qed.
#[local] Hint Resolve output_from_keeps ask_target_keeps ask_target_arg_keeps ask_serial_keeps send_start_keeps
  show_output_keeps : keeps.

Lemma output_keeps t stream args : keeps persistent (job_output t stream args).
Proof. unfold job_output, job_id_or_last. keeps. Qed.
Lemma request_keeps online args : keeps persistent (job_start_request online args).
Proof. unfold job_start_request, start_mode, preflight_target, session_or_missing. keeps. Qed.

Lemma interactive_keeps args j b : keeps persistent (start_interactive args j b).
Proof. unfold start_interactive. keeps. Qed.
Lemma streaming_keeps args j b : keeps persistent (start_streaming args j b).
Proof. unfold start_streaming. keeps. Qed.
Lemma watching_keeps args j b : keeps persistent (start_watching args j b).
Proof. unfold start_watching. keeps. Qed.
#[local] Hint Resolve output_keeps request_keeps interactive_keeps streaming_keeps watching_keeps : keeps.

Lemma start_keeps j args : keeps persistent (job_start j args).
Proof. unfold job_start. keeps. Qed.
#[local] Hint Resolve start_keeps : keeps.

Lemma skipped_keeps id : keeps persistent (λ c, let '(b, c) := job_skipped id c in Done (Ok b, c)).
Proof.
  intros h c Hc. apply (persistent_skipped id) in Hc. by destruct (job_skipped id c).
Qed.
#[local] Hint Resolve skipped_keeps : keeps.

Lemma job_keeps online cmd : keeps persistent (job online cmd).
Proof.
  unfold job, start_command, stop_command, skip_command, status_command, attach_command, history_command,
    job_id_or_last, session_or_missing, attach_target, attach_refused. keeps.
Qed.

(** The session outlives the process.  Run a session or job command in a context
    whose session file is up to date, against anything that answers: afterwards the
    file is up to date again, so the next invocation of the client starts from the
    session this one ended with, at the same position of its chain. *)
Theorem session_outlives_process {W} (serve : Server W) w c online scmd jcmd :
  persistent c →
  persistent (run serve (session online scmd c) w).1.2 ∧ persistent (run serve (job online jcmd c) w).1.2.
Proof.
  intros Hc. split.
  - exact (always_run serve anything _ _ [] w (session_keeps online scmd [] c Hc)).
  - exact (always_run serve anything _ _ [] w (job_keeps online jcmd [] c Hc)).
Qed.

(** ** What a failed session command leaves *)

(** A program that fails leaves the context [c]. *)
Definition unmoved (c : Ctx) {A} : list Asked → result A CommandError * Ctx → Prop :=
  λ _ x, match x.1 with Ok _ => True | Err _ => x.2 = c end.

(** Programs that never move the context, that leave it when they fail, and that
    never fail. *)
Definition still {A} (m : Client Ctx A) : Prop := ∀ h c, always anything (λ _ x, x.2 = c) h (m c).
Definition safe {A} (m : Client Ctx A) : Prop := ∀ h c, always anything (unmoved c) h (m c).
Definition sure {A} (m : Client Ctx A) : Prop := ∀ h c, always anything (λ _ x, ∃ a, x.1 = Ok a) h (m c).

Lemma still_safe_bind {A B} (m : Client Ctx A) (f : A → Client Ctx B) : still m → (∀ a, safe (f a)) → safe (bind m f).
Proof.
  intros Hm Hf h c. apply always_client. eapply always_mono, Hm; [done|].
  intros h' [[a|e] c'] <-; cbn; [apply Hf|done].
Qed.
Lemma still_bind {A B} (m : Client Ctx A) (f : A → Client Ctx B) : still m → (∀ a, still (f a)) → still (bind m f).
Proof.
  intros Hm Hf h c. apply always_client. eapply always_mono, Hm; [done|].
  intros h' [[a|e] c'] <-; cbn; [apply Hf|done].
Qed.
Lemma sure_bind {A B} (m : Client Ctx A) (f : A → Client Ctx B) : sure m → (∀ a, sure (f a)) → sure (bind m f).
Proof.
  intros Hm Hf h c. apply always_client. eapply always_mono, Hm; [done|].
  intros h' [r c'] [a Ha]; cbn in *. subst. apply Hf.
Qed.
Lemma sure_safe {A} (m : Client Ctx A) : sure m → safe m.
Proof. intros Hm h c. eapply always_mono, Hm; [done|]. intros h' [r c'] [a Ha]. unfold unmoved. cbn in *. by subst. Qed.
Lemma still_safe {A} (m : Client Ctx A) : still m → safe m.
Proof. intros Hm h c. eapply always_mono, Hm; [done|]. intros h' [[a|e] c'] <-; done. Qed.
Lemma still_attempt {A} (m : Client Ctx A) : still m → still (attempt m).
Proof. intros Hm h c. apply always_attempt. eapply always_mono, Hm; auto. Qed.

Lemma sure_modify f : sure (modify (S:=Ctx) f).
Proof. intros h c. cbn. eauto. Qed.
Lemma sure_ret {A} (a : A) : sure (ret a).
Proof. intros h c. cbn. eauto. Qed.
Lemma sure_show e : sure (show e).
Proof. intros h c. cbn. split; [done|]. intros r. eauto. Qed.
Lemma still_ask {X} (e : Effect X) : still (ask e).
Proof. by intros h c. Qed.
Lemma still_pure {A} (f : Ctx → result A CommandError) : still (λ c, Done (f c, c)).
Proof. by intros h c. Qed.
Lemma still_throw {A} e : still (throw (A:=A) e).
Proof. by intros h c. Qed.
Lemma still_get_ok {A} (f : Ctx → result A CommandError) : still (get_ok f).
Proof. by intros h c. Qed.
Lemma still_supersede force : still (really_supersede force).
Proof.
  unfold really_supersede. destruct force; [by apply still_pure|]. apply still_bind; [apply still_attempt, still_ask|].
  intros [s|e]; [apply still_ask|]. destruct e; by apply still_pure.
Qed.

Create HintDb safe.
#[local] Hint Resolve sure_modify sure_ret sure_show still_ask still_throw still_get_ok still_supersede still_safe : safe.

Lemma start_params_safe force : safe (session_start_params force).
Proof.
  unfold session_start_params. do 4 (apply still_safe_bind; [solve [auto with safe]|intros ?]).
  apply sure_safe, sure_bind; auto with safe.
Qed.
Lemma session_start_safe sid body b : safe (session_start sid body b).
Proof. unfold session_start. apply still_safe_bind; [auto with safe|]. intros _. destruct b; apply sure_safe; auto with safe. Qed.
#[local] Hint Resolve start_params_safe session_start_safe : safe.

Lemma session_safe online cmd : safe (session online cmd).
Proof.
  destruct cmd as [kid wr|sid force|kid|force|sid nonce sq cn force|sid], online;
    unfold session, session_attach, session_relay, session_or_missing;
    auto with safe.
  - apply still_safe_bind; auto with safe.
  - destruct sid as [sid|]; (apply still_safe_bind; [auto with safe|]); intros s; try destruct (negb _);
      auto using sure_safe with safe.
  - destruct sid; auto using sure_safe with safe.
  - apply still_safe_bind; auto with safe.
  - destruct sid, nonce, sq; auto with safe. apply still_safe_bind; auto with safe.
  - apply still_safe_bind; [auto with safe|]. intros a. apply still_safe_bind; [auto with safe|]. intros _.
    apply sure_safe; auto with safe.
Qed.

Lemma skipped_unmoved id c : (job_skipped id c).1 = false → (job_skipped id c).2 = c.
Proof.
  unfold job_skipped, skip_job. destruct (x_session c) as [s|] eqn:E; [|done].
  destruct (bool_decide _ || _); cbn; [done|]. intros _. destruct c; cbn in *. by subst.
Qed.

Lemma skip_safe online id : safe (job online (JcSkip id)).
Proof.
  assert (Ht : ∀ (j : JobId), safe (bind (λ c, let '(b, c) := job_skipped j c in Done (Ok b, c))
    (λ b : bool, if b then ret tt else throw (CeNotNextJob j)))).
  { intros j h c. apply always_client. pose proof (skipped_unmoved j c) as Hu.
    destruct (job_skipped j c) as [[] c']; cbn in *; [done|]. by apply Hu. }
  unfold job, skip_command. apply still_safe_bind; [apply still_get_ok|]. intros sid. apply still_safe_bind; [by destruct id; apply still_pure|].
  intros j. apply still_safe_bind; [|intros _; apply Ht]. destruct online; [apply still_ask|by apply still_pure].
Qed.

(** A refused command changes nothing.  A session command that ends in an error,
    wherever in it the error arises and whatever was answered before, leaves the
    client's context as it was: the session it tracks, the saved files and the last
    job; and so does a refused skip. *)
Theorem refused_command_changes_nothing {W} (serve : Server W) w c online scmd id :
  ((∃ e, (run serve (session online scmd c) w).1.1 = Err e) → (run serve (session online scmd c) w).1.2 = c) ∧
  ((∃ e, (run serve (job online (JcSkip id) c) w).1.1 = Err e) → (run serve (job online (JcSkip id) c) w).1.2 = c).
Proof.
  split; intros [e He].
  - pose proof (always_run serve anything (unmoved c) _ [] w (session_safe online scmd [] c)) as Hu.
    unfold unmoved in Hu. by rewrite He in Hu.
  - pose proof (always_run serve anything (unmoved c) _ [] w (skip_safe online id [] c)) as Hu.
    unfold unmoved in Hu. by rewrite He in Hu.
Qed.

(** ** What is shown was checked *)

(** A print of an output, or its download to a file, is allowed once the sled's own
    status was asked for and told how the job ended there; what is printed has the
    recorded hash, and a download is checked against the recorded length and hash. *)
Definition recorded (h : list Asked) (id : JobId) (b : BaseboardId) (o : JobOutputState) : Prop :=
  ∃ status t1 t2 res j,
    mkAsked (AskJobStatus id (Some b)) (Ok status) ∈ h ∧ status !! b = Some (Stopped j t1 t2 res o).

Definition checked_output (h : list Asked) (X : Type) (e : Effect X) : Prop :=
  match e with
  | DoPrintOutput id b stream out _ => ∃ o, recorded h id b o ∧ hash out = output_hash stream o
  | DoDownload id b stream len expected save =>
    ∃ o, recorded h id b o ∧ len = output_len stream o ∧ expected = output_hash stream o ∧ so_chunk_size save ≠ 0
  | _ => True
  end.

Definition checks {A} (m : Client Ctx A) : Prop := ∀ h c, always checked_output (λ _ _, True) h (m c).

Lemma checks_bind {A B} (m : Client Ctx A) (f : A → Client Ctx B) : checks m → (∀ a, checks (f a)) → checks (bind m f).
Proof.
  intros Hm Hf h c. apply always_client. eapply always_mono, Hm; [done|]. intros h' [[a|e] c'] _; cbn; [apply Hf|done].
Qed.
Lemma checks_attempt {A} (m : Client Ctx A) : checks m → checks (attempt m).
Proof. intros Hm h c. apply always_attempt. eapply always_mono, Hm; auto. Qed.
Lemma checks_pure {A} (f : Ctx → result A CommandError * Ctx) : checks (λ c, Done (f c)).
Proof. by intros h c. Qed.
Lemma checks_ask {X} (e : Effect X) : (∀ h, checked_output h X e) → checks (ask e).
Proof. intros He h c. cbn. auto. Qed.
Lemma checks_for_each {A} (f : A → Client Ctx ()) l : (∀ x, checks (f x)) → checks (for_each f l).
Proof.
  intros Hf h c. eapply always_mono; [done| |apply (always_for_each _ (λ _ _, True))]; [done|done|].
  intros. apply Hf.
Qed.

Lemma recorded_output_ok id b status o :
  recorded_output id b status = Ok o → ∃ t1 t2 res j, status !! b = Some (Stopped j t1 t2 res o).
Proof. unfold recorded_output. destruct (status !! b) as [[]|]; naive_solver. Qed.

Lemma output_from_checks b stream args : checks (job_output_from b stream args).
Proof.
  unfold job_output_from. apply checks_bind; [apply checks_pure|]. intros id h c. cbn [bind ask pbind always].
  split; [done|]. intros [status|e]; [|done]. cbn [fst snd].
  destruct (recorded_output id b status) as [o|e] eqn:Eo; [|done]. cbn [lift bind pbind fst snd].
  apply recorded_output_ok in Eo as (t1&t2&res&j&Eo).
  assert (Hr : ∀ h', recorded (h' ++ mkAsked (AskJobStatus id (Some b)) (Ok status) :: h) id b o).
  { intros h'. exists status, t1, t2, res, j. split; [apply elem_of_app; right; by left|done]. }
  destruct (oa_file args) as [path|].
  - destruct (oa_chunk_size args =? 0) eqn:Ez; [done|]. cbn. apply N.eqb_neq in Ez. split; [|done].
    exists o. split_and!; [apply (Hr [])|done|done|done].
  - cbn [bind ask pbind always]. split; [done|]. intros [[bytes|e]|e]; [|done|done]. cbn [lift bind pbind fst snd].
    case_bool_decide as Hh; [|done]. cbn. split; [|done]. exists o. split; [|done].
    by apply (Hr [mkAsked (AskJobOutput id b stream) (Ok (Ok bytes))]).
Qed.

Lemma target_checks t : checks (ask_target t).
Proof. unfold ask_target. destruct (single_baseboard t); [apply checks_pure|by apply checks_ask]. Qed.
Lemma target_arg_checks t : checks (ask_target_arg t).
Proof.
  unfold ask_target_arg. destruct t; [apply checks_pure|]. apply checks_bind; [by apply checks_ask|]. intros; apply checks_pure.
Qed.
Lemma serial_checks id serial : checks (ask_serial id serial).
Proof. apply checks_bind; [by apply checks_ask|]. intros; apply checks_pure. Qed.
Lemma report_checks e : checks (show (DoReport e)).
Proof. apply checks_bind; [apply checks_attempt; by apply checks_ask|]. intros; apply checks_pure. Qed.

Lemma output_checks t stream args : checks (job_output t stream args).
Proof.
  apply checks_bind; [apply checks_pure|]. intros id. cbv zeta.
  assert (Ht : ∀ t, checks (if negb (is_all t) then bind (ask_target t) (λ b, job_output_from b stream args)
    else if oa_binary args || match oa_file args with Some _ => true | None => false end then throw CeOutputNeedsTarget
    else bind (ask (AskJobStatus id None)) (λ status,
      if bool_decide (status = ∅) then
        throw (CeNotFound ("Job `" +:+ newtype_to_string id +:+ "` not found"))
      else for_each (λ b, bind (attempt (job_output_from b stream args)) (λ r,
        match r with Ok _ => ret tt | Err e => show (DoReport e) end)) (keys_of status)))).
  { intros t'. destruct (negb _); [apply checks_bind; [apply target_checks|intros; apply output_from_checks]|].
    destruct (oa_binary args || _); [apply checks_pure|]. apply checks_bind; [by apply checks_ask|]. intros status.
    case_bool_decide; [apply checks_pure|]. apply checks_for_each. intros b.
    apply checks_bind; [apply checks_attempt, output_from_checks|]. intros [|e]; [apply checks_pure|apply report_checks]. }
  destruct t as [t|[|[s|serial] [|]]]; [apply Ht|..];
    first [apply checks_bind; [apply serial_checks|intros; apply output_from_checks]
          |apply checks_bind; [apply target_arg_checks|intros; apply Ht]].
Qed.

(** C23. Output that is shown was checked.  Whatever the server answers to [job stdout]
    and [job stderr]: when they print an output, the sled's own status was asked
    before, it told that the job ended there, and the output's hash is the recorded
    one; and when they save one, the download is checked against the recorded length
    and hash.  Output of another hash, or of a job not known to have ended, is never
    printed. *)
Theorem shown_output_checked {W} (serve : Server W) w c t stream args later x before :
  asked serve [] (job_output t stream args c) w = later ++ x :: before →
  checked_output before _ (as_effect x).
Proof. intros E. eapply always_asked; [apply output_checks|exact E|cbn; lia]. Qed.

(** ** What a prepared request says *)

(** [says P m]: [m] never moves the context, and its value satisfies [P]. *)
Definition says {A} (P : list Asked → Ctx → A → Prop) (m : Client Ctx A) : Prop :=
  ∀ h c, always anything (λ h' x, (∃ l, h' = l ++ h) ∧ x.2 = c ∧ ∀ a, x.1 = Ok a → P h' c a) h (m c).

Definition stable_in {A} (P : list Asked → Ctx → A → Prop) : Prop := ∀ h l c a, P h c a → P (l ++ h) c a.

(** Sequencing: what the first step says still holds after the second. *)
Lemma says_bind {A B} (P : list Asked → Ctx → A → Prop) (P' : A → list Asked → Ctx → B → Prop)
    (Q : list Asked → Ctx → B → Prop) (m : Client Ctx A) f :
  says P m → (∀ a, says (P' a) (f a)) → stable_in P →
  (∀ a h c b, P h c a → P' a h c b → Q h c b) → says Q (bind m f).
Proof.
  intros Hm Hf Hs HQ h c. apply always_client. eapply always_mono, Hm; [done|].
  intros h1 [r c1] ([l1 ->]&->&Hp); cbn in *. destruct r as [a|e].
  - eapply always_mono, Hf; [done|]. intros h2 [r' c2] ([l2 ->]&->&Hp'); cbn in *.
    split; [exists (l2 ++ l1); by rewrite app_assoc|]. split; [done|]. intros b ->.
    eapply HQ; [apply Hs, Hp; done|by apply Hp'].
  - split; [by exists l1|]. by split.
Qed.

Lemma says_pure {A} (P : list Asked → Ctx → A → Prop) (f : Ctx → result A CommandError) :
  (∀ h c a, f c = Ok a → P h c a) → says P (λ c, Done (f c, c)).
Proof. intros Hf h c. cbn. split; [by exists []|]. split; [done|]. auto. Qed.
Lemma says_ask {X} (P : list Asked → Ctx → X → Prop) (e : Effect X) :
  (∀ h c a, mkAsked e (Ok a) ∈ h → P h c a) → says P (ask e).
Proof.
  intros He h c. cbn. split; [done|]. intros r. split; [by exists [mkAsked e r]|]. split; [done|].
  intros a ->. apply He. by left.
Qed.
Lemma says_weaken {A} (P Q : list Asked → Ctx → A → Prop) m : says P m → (∀ h c a, P h c a → Q h c a) → says Q m.
Proof. intros Hm HQ h c. eapply always_mono, Hm; [done|]. intros h' x (?&?&?). split_and!; eauto. Qed.
Definition nothing {A} : list Asked → Ctx → A → Prop := λ _ _ _, True.

(** [single] asked for: interactive and streaming jobs. *)
Definition needs_one (m : JobMode) : bool := is_interactive m || is_streaming m.

Lemma mode_says args :
  says (λ _ _ m, m = if sa_interactive args then Interactive else if sa_streaming args then StreamOutput else Batch)
    (start_mode args).
Proof.
  unfold start_mode. destruct (sa_interactive args), (sa_streaming args); try (apply says_pure; naive_solver).
  destruct (sa_file args); [|by apply says_pure]. eapply (says_bind nothing (λ _ _ _ m, m = StreamOutput)); [| |done|done].
  - destruct (sa_force args); [by apply says_pure|by apply says_ask].
  - intros []; apply says_pure; naive_solver.
Qed.

(** The session a command works in. *)
Lemma session_says :
  says (λ _ c sid, ∃ s, x_session c = Some s ∧ sess_id s = sid) session_or_missing.
Proof.
  apply (says_pure _ (λ c, ok_or (client_session_id c) CeMissingSession)). intros h c sid. unfold client_session_id.
  destruct (x_session c) as [s|]; cbn; [|done]. intros [= <-]. eauto.
Qed.

Lemma next_says : says (λ _ c id, ∃ s, x_session c = Some s ∧ session_next_job_id s = id) (get_ok client_next_job_id).
Proof.
  apply (says_pure _ client_next_job_id). intros h c id. unfold client_next_job_id.
  destruct (x_session c) as [s|]; [|done]. intros [= <-]. eauto.
Qed.

Definition nothing_said {A} (m : Client Ctx A) : Prop := says nothing m.
Lemma nothing_bind {A B} (m : Client Ctx A) (f : A → Client Ctx B) :
  nothing_said m → (∀ a, nothing_said (f a)) → nothing_said (bind m f).
Proof. intros Hm Hf. by eapply (says_bind nothing (λ _, nothing)). Qed.
Lemma nothing_attempt {X} (e : Effect X) : nothing_said (attempt (ask e)).
Proof. intros h c. cbn. split; [done|]. intros r. split; [by eexists [_]|done]. Qed.
Lemma nothing_for_each {A} (f : A → Client Ctx ()) l : (∀ x, nothing_said (f x)) → nothing_said (for_each f l).
Proof.
  intros Hf. induction l as [|x l IH]; [by apply says_pure|]. by apply nothing_bind.
Qed.

Lemma preflight_says t : says (λ _ _ t', t' = t) (preflight_target t).
Proof.
  unfold preflight_target. destruct t as [|sleds]; [apply says_pure; naive_solver|].
  eapply (says_bind nothing (λ _ _ _ t', t' = TSleds sleds)); [apply nothing_attempt| |done|done].
  intros [inventory|e]; [|apply says_pure; naive_solver].
  eapply (says_bind nothing (λ _ _ _ t', t' = TSleds sleds)); [| |done|done].
  - apply nothing_for_each. intros s. destruct (in_inventory _ _); [by apply says_pure|by apply says_ask].
  - intros _. apply says_pure. naive_solver.
Qed.

(** The target of a request, for the target [t] that was asked for: that one, or
    the sled of it that answers where the mode needs one sled. *)
Definition target_taken (m : JobMode) (h : list Asked) (t t' : Target) : Prop :=
  if needs_one m && match single_baseboard t with None => true | Some _ => false end
  then ∃ b, mkAsked (AskTarget (if is_all t then None else Some (target_to_string t))) (Ok b) ∈ h ∧
            t' = target_of_baseboard b
  else t' = t.

Lemma target_taken_one m h t t' : target_taken m h t t' → needs_one m = true → is_Some (single_baseboard t').
Proof.
  unfold target_taken. intros H Hn. rewrite Hn in H. destruct (single_baseboard t) eqn:E; cbn in H; [subst; eauto|].
  destruct H as (b&_&->). by exists b.
Qed.

Lemma target_taken_app m h l t t' : target_taken m h t t' → target_taken m (l ++ h) t t'.
Proof.
  unfold target_taken. case_match; [|done]. intros (b&?&?). exists b. split; [apply elem_of_app; by right|done].
Qed.

Lemma request_target_says (online : bool) m t :
  says (λ h _ t', target_taken m h t t')
    (if needs_one m && match single_baseboard t with None => true | Some _ => false end
     then if online then bind (ask_target t) (λ b, ret (target_of_baseboard b)) else throw CeInteractiveTarget
     else if online then preflight_target t else ret t).
Proof.
  unfold target_taken. destruct (needs_one m && _) eqn:E.
  - apply andb_true_iff in E as [Em Es]. destruct (single_baseboard t) eqn:Et; [done|]. destruct online; [|by apply says_pure].
    set (e := AskTarget _). intros h c. unfold ask_target. rewrite Et. fold e. cbn. split; [done|].
    intros r. destruct r as [b|err]; cbn; (split; [by eexists [_]|]); (split; [done|]); [|done].
    intros t' [= <-]. exists b. split; [by left|done].
  - destruct online; [|apply says_pure; naive_solver]. eapply says_weaken; [apply preflight_says|]. by intros.
Qed.

(** One step of a program whose steps are understood by [says]. *)
Lemma says_step {A B} (P : list Asked → Ctx → A → Prop) (Q : list Asked → Ctx → B → Prop) (m : Client Ctx A) f h c :
  says P m →
  (∀ l a, P (l ++ h) c a → always anything (λ h' x, x.2 = c ∧ ∀ b, x.1 = Ok b → Q h' c b) (l ++ h) (f a c)) →
  always anything (λ h' x, x.2 = c ∧ ∀ b, x.1 = Ok b → Q h' c b) h (bind m f c).
Proof.
  intros Hm Hf. apply always_client. eapply always_mono, Hm; [done|].
  intros h1 [[a|e] c1] ([l ->]&->&Hp); cbn in *; [by apply Hf, Hp|done].
Qed.

Lemma check_says (online : bool) sid :
  says (λ h _ _, online = true → mkAsked (AskSessionCheck sid) (Ok tt) ∈ h)
    (if online then ask (AskSessionCheck sid) else ret tt).
Proof. destruct online; [by apply says_ask; intros h c []|by apply says_pure]. Qed.

(** The target asked for: as it was given, or with each serial number completed
    from the inventory that the server answered. *)
Definition target_asked (args : JobStartArgs) (h : list Asked) (t : Target) : Prop :=
  match sa_target args with
  | ArgTarget t' => t = t'
  | ArgAbbreviated l =>
    ∃ inventory ids, mkAsked AskVersions (Ok inventory) ∈ h ∧ t = TSleds ids ∧ Forall2 (means inventory) l ids
  end.

Lemma target_asked_app args h l t : target_asked args h t → target_asked args (l ++ h) t.
Proof.
  unfold target_asked. destruct (sa_target args); [done|]. intros (inv&ids&?&?). exists inv, ids.
  split; [apply elem_of_app; by right|done].
Qed.

Lemma target_arg_says (online : bool) args :
  says (λ h _ t, target_asked args h t)
    match sa_target args with
    | ArgTarget t => ret t
    | abbreviated => if online then ask_target_arg abbreviated else throw CeOffline
    end.
Proof.
  unfold target_asked. destruct (sa_target args) as [t|l]; [apply says_pure; naive_solver|].
  destruct online; [|by apply says_pure]. intros h c. cbn. split; [done|].
  intros r. destruct r as [inv|err]; cbn; [|split; [by eexists [_]|done]].
  destruct (complete_sleds inv l) as [ids|e] eqn:E; cbn; (split; [by eexists [_]|]); (split; [done|]); [|done].
  intros t [= <-]. exists inv, ids. split; [by left|]. split; [done|]. by apply complete_sleds_ok.
Qed.

(** What a prepared request must be, for the arguments and the context. *)
Definition request_for (online : bool) (args : JobStartArgs) (h : list Asked) (c : Ctx) (r : JobStartRequest) : Prop :=
  (∃ s, x_session c = Some s ∧ session_id r = sess_id s ∧ job_id r = session_next_job_id s ∧
     (online = true → mkAsked (AskSessionCheck (sess_id s)) (Ok tt) ∈ h)) ∧
  sa_command args = Some (command r) ∧
  mode r = (if sa_interactive args then Interactive else if sa_streaming args then StreamOutput else Batch) ∧
  (∃ t, target_asked args h t ∧ target_taken (mode r) h t (target r)) ∧
  (needs_one (mode r) = true → is_Some (single_baseboard (target r))).

Lemma request_always online args h c :
  always anything (λ h' x, x.2 = c ∧ ∀ r, x.1 = Ok r → request_for online args h' c r) h (job_start_request online args c).
Proof.
  unfold job_start_request. destruct (sa_command args) as [cmd|] eqn:Ec; [|done].
  eapply says_step; [apply mode_says|]. intros l1 m Hm.
  eapply says_step; [apply session_says|]. intros l2 sid (s&Hs&<-).
  eapply says_step; [apply check_says|]. intros l3 [] Hcheck.
  eapply says_step; [apply target_arg_says|]. intros l4 t Ht.
  eapply says_step; [apply request_target_says|]. intros l5 t' Ht'.
  eapply says_step; [apply next_says|]. intros l6 id (s'&Hs'&<-). rewrite Hs' in Hs. injection Hs as ->.
  cbn. split; [done|]. intros r [= <-]. split_and!; [|done|done| |intros Hn; cbn in *; eapply target_taken_one; done].
  - exists s. split_and!; [done..|]. intros Ho. specialize (Hcheck Ho). rewrite !elem_of_app in *. tauto.
  - exists t. split; [by do 2 apply target_asked_app|by apply target_taken_app].
Qed.

(** C24. A prepared request is the one to sign.  Whatever the answers, a request that is
    returned names the client's session and the next position of its chain, and
    carries the command and the mode asked for.  The target asked for is the one
    given, or when abbreviated its sleds and, for each serial number, the one sled of
    the inventory answered that has it; the request's target is that one, except that
    an interactive or streamed job, where it is not a single sled, takes the sled the
    server answered for it, so that it has exactly one (by its identity) and its target
    fits its mode.  The server, when there is one, said that it would take a job of the
    session; and the client's context is as before. *)
Theorem prepared_request_exact {W} (serve : Server W) w c online args r :
  (run serve (job_start_request online args c) w).1.1 = Ok r →
  (run serve (job_start_request online args c) w).1.2 = c ∧
  request_for online args (asked serve [] (job_start_request online args c) w) c r ∧
  target_matches_mode r = true.
Proof.
  intros Hr. destruct (always_run serve _ _ _ [] w (request_always online args [] c)) as [Hc HQ].
  split; [done|]. specialize (HQ r Hr). split; [done|]. destruct HQ as (_&_&_&_&Hone).
  unfold target_matches_mode. destruct (is_interactive (mode r)) eqn:E; [|by rewrite orb_true_r].
  destruct Hone as [b Hb]; [unfold needs_one; by rewrite E|]. by destruct (target r) as [|[|[] []]].
Qed.
End command_facts.
