(* ===== verification/ClientRack.v ===== *)
(** * The client against a rack

    The commands of [Commands.v] run against the sled of [Server.v] and [State.v]:
    each request goes to its handler, what the handler gossips goes through the
    state machine, and the response comes back as a value or a [CommandError].
    The client and the rack then walk the session's chain together. *)
From S2P Require Import Prelude External Codephrases Hash Targets Keys Ssh Jobs Messages Headers Authn.
From S2P Require Import Rack Certs History Boundary Executor State StateFacts SessionFacts StatusFacts Manager Output Server.
From S2P Require Import ClientErrors TargetArgs Watch Effects Commands.
Open Scope N_scope.

Section client_rack.
Context {Irum : Rumors} {Ibb : BaseboardOps} {Isha : Sha3} {Ilru : LruCache} {Ipki : Pki} {Issh : Ssh}.

Implicit Types st : State.

(** What a request finds: the time, the network and the version its gossip gets,
    the linked sleds, the nonce drawn, and how a wait ends. *)
Record Moment := mkMoment {
  m_now : DateTime;
  m_net : option Network;
  m_version : Version;
  m_linked : gset BaseboardId;
  m_random : SessionServerNonce;
  m_wait : WaitEnd;
}.

(** The sled: its state, its server nonce, and what the state machine emitted. *)
Record RackSide := mkRackSide { rk_state : State; rk_nonce : SessionServerNonce; rk_outputs : list Output }.

(** What does not change between requests: the build, the requester's
    [Authorization], the attachments and files, the texts of errors; and the
    answers of everything that is not a request. *)
Record Surroundings := mkSurroundings {
  su_current : VersionInfo;
  su_authorization : option string;
  su_opened : ChannelId → bool;
  su_pem : list Certificate → result string KeyError;
  su_files : OutputWorld;
  su_dirs : OutputDirs;
  su_message : HttpError → string;
  su_status : N → string;
  su_local : ∀ X, Effect X → result X CommandError;
}.

Definition world_of (e : Surroundings) (m : Moment) (r : RackSide) : World :=
  mkWorld (own (rk_state r)) (su_current e) (λ _, rk_state r) (m_linked m) true (m_wait m) (rk_nonce r) (m_random m)
    (su_opened e) (su_pem e) (su_files e) (su_dirs e).

(** The client's view of an HTTP error. *)
Definition client_error_of (e : Surroundings) (err : HttpError) : CommandError :=
  command_error_of_api (su_status e)
    (ClErrorResponse (http_status err) match err with ForClientError code _ _ => code | ForInternalError => None end
       (su_message e err)).

(** The state machine takes what was gossiped. *)
Fixpoint gossiped (m : Moment) (sent : list Request) (st : State) : State * list Output :=
  match sent with
  | [] => (st, [])
  | r :: sent =>
    let '(st, out) := state_update st (m_now m) (m_net m) (m_version m) (V0 (MRequest r)) in
    let '(st, more) := gossiped m sent st in
    (st, out ++ more)
  end.

Definition request_api (e : Surroundings) (m : Moment) (q : ApiRequest) (r : RackSide) : result ApiResponse CommandError * RackSide :=
  let h := handle (world_of e m r) (su_authorization e) q in
  let '(st, out) := gossiped m (h_sent h) (rk_state r) in
  (map_err (client_error_of e) (h_response h), mkRackSide st (h_nonce h) (rk_outputs r ++ out)).

(** The value of a response; another kind of response does not parse. *)
Definition parse_response {X} (f : ApiResponse → option X) (x : result ApiResponse CommandError * RackSide) :
    result X CommandError * RackSide :=
  (rbind x.1 (λ resp, ok_or (f resp) (CeClient "invalid response")), x.2).

Definition resp_unit (r : ApiResponse) : option () := match r with RespNoContent => Some tt | _ => None end.

(** A server for the client's programs. *)
Definition serve_rack (e : Surroundings) (m : Moment) : Server RackSide := λ X f,
  match f in Effect X return RackSide → result X CommandError * RackSide with
  | AskSession => λ r,
    parse_response (λ x, match x with RespSession s => Some s | _ => None end) (request_api e m ApiSession r)
  | AskSessionCheck sid => λ r, parse_response resp_unit (request_api e m (ApiSessionCheck sid) r)
  | AskTarget _ => λ r,
    parse_response (λ x, match x with RespTarget b => Some b | _ => None end) (request_api e m ApiTarget r)
  | AskServerNonce => λ r,
    parse_response (λ x, match x with RespNonce n => Some n | _ => None end) (request_api e m ApiServerNonce r)
  | AskSessionStart sid body => λ r,
    parse_response resp_unit
      (request_api e m (ApiSessionStart sid (sb_client_nonce body) (sb_signer_nonce body) (sb_seq body)) r)
  | AskAllow sid kid access => λ r, parse_response resp_unit (request_api e m (ApiSessionAllowAttach sid kid access) r)
  | AskDeny sid kid => λ r, parse_response resp_unit (request_api e m (ApiSessionDenyAttach sid kid) r)
  | AskStop sid => λ r, parse_response resp_unit (request_api e m (ApiSessionStop sid) r)
  | AskSkip sid id => λ r, parse_response resp_unit (request_api e m (ApiSessionSkipJob sid id) r)
  | AskVersions => λ r,
    parse_response (λ x, match x with RespVersions l => Some l | _ => None end) (request_api e m ApiVersions r)
  | AskJobStart id _ job params => λ r,
    parse_response (λ x, match x with RespStarted l => Some l | _ => None end) (request_api e m (ApiJobStart id job params) r)
  | AskJobStop id until _ => λ r, parse_response resp_unit (request_api e m (ApiJobStop id until) r)
  | AskJobStatus id _ => λ r,
    parse_response (λ x, match x with RespStatus s => Some s | _ => None end) (request_api e m (ApiJobStatus id) r)
  | AskHistory limit offset => λ r,
    parse_response (λ x, match x with RespHistory l => Some l | _ => None end) (request_api e m (ApiJobHistory limit offset) r)
  | f => λ r, (su_local e _ f, r)
  end.

(** ** In step *)

(** The session the rack would be in once the pending start of [sid], if any, is
    confirmed by a job. *)
Definition confirmed (st : State) (sid : SessionId) : SessionState := st_session (confirm_start st 0%Z sid).1.

(** The client's session is the rack's, at the same position of the chain, and no
    job waits in the rack's queue. *)
Definition in_step (c : Ctx) (st : State) : Prop :=
  ∃ s a, x_session c = Some s ∧ confirmed st (sess_id s) = Active a ∧ sess_id (a_session a) = sess_id s ∧
    session_next_job_id (a_session a) = session_next_job_id s ∧ a_queued_jobs a = ∅.

Lemma confirm_start_now st now sid : st_session (confirm_start st now sid).1 = confirmed st sid.
Proof.
  unfold confirmed, confirm_start. destruct (lru_pop _ sid) as [[start|] c]; [|done].
  destruct (opt_rank_leb _ _); done.
Qed.

Lemma confirmed_settled st sid :
  lru_peek (st_pending_starts st) sid = None → confirmed st sid = st_session st.
Proof.
  intros Hp. unfold confirmed, confirm_start. destruct (lru_pop_spec _ _ (st_pending_starts st) sid) as (E&_&_).
  destruct (lru_pop _ sid) as [popped c]. cbn in E. subst popped. by rewrite Hp.
Qed.

Lemma confirm_start_frame st now sid :
  let st' := (confirm_start st now sid).1 in
  own st' = own st ∧ st_rack st' = st_rack st ∧ st_past st' = st_past st ∧ st_history st' = st_history st ∧
  lru_peek (st_pending_starts st') sid = None.
Proof.
  cbv zeta. rewrite confirm_start_history. destruct (confirm_start_rank st now sid) as [_ ->]. rewrite lru_peek_pop.
  rewrite decide_True by done.
  destruct (confirm_start_cases st now sid) as [[-> _]|(start&s&_&_&_&_&_&->&_)]; by split_and!.
Qed.

(** ** The next job *)

(** A job the rack takes with an empty queue, at the chain's next position: it is
    released at once, and the chain moves past it. *)
Lemma next_job_released st a now net qj actor :
  let j := signed (q_job qj) in
  let id := job_id (payload j) in
  st_session st = Active a → a_queued_jobs a = ∅ → id = session_next_job_id (a_session a) →
  q_replayed qj = false → get_job_status (st_history st) id = None →
  let r := release_ready_jobs (enqueue_job st now qj actor) now (Some net) in
  st_session r.1 = Active (mkActive (a_seq a) (a_live a) (job_started (a_session a) j) ∅ (a_attach_grants a)) ∧
  st_pending_starts r.1 = st_pending_starts st ∧
  (own st ∈ q_sleds qj → check_target (st_rack st) (payload j) = None →
   screen (st_past st) (sess_id (a_session a)) (a_seq a) (a_live a) = Admit → check_command (payload j) = Ok () →
   ∃ ch, r.2 = [ORun (mkRun (q_job qj) (q_params qj) (boundary_for net (a_session a) (a_seq a) j) ch)]).
Proof.
  intros j id Es Eq Eid Er Eh. unfold get_job_status in Eh.
  set (st1 := enqueue_job st now qj actor).
  assert (Hq : st_session st1 = Active (mkActive (a_seq a) (a_live a) (a_session a) {[id := qj]} (a_attach_grants a))
    ∧ st_pending_starts st1 = st_pending_starts st ∧ st_rack st1 = st_rack st ∧ st_past st1 = st_past st
    ∧ runnable st1 id = true).
  { unfold st1, enqueue_job. rewrite Es, Er, Eq. fold j id. unfold history_contains.
    rewrite (bool_decide_false (is_Some _)) by (rewrite Eh; by intros [? ?]). cbn [negb andb]. rewrite map_size_empty.
    replace (MAX_QUEUED_JOBS <=? N.of_nat 0) with false by done. cbn [andb]. rewrite insert_empty.
    set (st2 := with_session st _). assert (own st2 = own st) as Ho by done.
    destruct (bool_decide (own st ∈ q_sleds qj)); cbn [andb negb]; (split_and!; [done..|]); unfold runnable, get_job_status.
    - set (q := Some _). change (own (with_history st2 _)) with (own st2). rewrite Ho. cbn [st_history with_history].
      destruct (set_job_status_on (st_history st) id (own st) (Queued id now actor) None q id (own st)) as [Hs|Hs].
      + rewrite decide_True in Hs by done. unfold status_on in Hs. change (st_history st2) with (st_history st).
        clear Eh. revert Hs. destruct (job_status _ !! id) as [m|]; [|done]. cbn. by intros ->.
      + change (st_history st2) with (st_history st). by rewrite Hs.
    - change (st_history st2) with (st_history st). by rewrite Eh. }
  destruct Hq as (Es1&Ep1&Ek1&Ea1&Hrun). cbv zeta. fold st1. unfold release_ready_jobs. rewrite Es1.
  cbn [a_queued_jobs a_session a_seq a_live a_attach_grants]. rewrite map_size_singleton. cbn [release_loop rl_queue rl_session].
  rewrite <- Eid. rewrite lookup_singleton_eq. set (r0 := mkRelease _ _ _ _ _).
  destruct (release_one_chain st1 now net (a_seq a) (a_live a) qj r0) as [-> ->]. unfold r0. cbn [rl_queue rl_session].
  rewrite <- Eid, delete_singleton_eq. cbn [fst snd st_session st_pending_starts]. split_and!; [done|done|].
  intros Hs Ht Ha Hc. unfold release_one. fold j id. cbn [rl_session rl_outputs rl_next_channel].
  assert (own st1 = own st) as Eo by (unfold own; by rewrite Ek1).
  rewrite Eo, Ek1, Ea1, Ha, Hrun, Ht, Hc. rewrite bool_decide_true by done. cbn. eauto.
Qed.

(** A start that sends the request and is done: neither interactive, nor streamed,
    nor watched. *)
Definition plain (args : JobStartArgs) (j : SignedJob) : Prop :=
  is_interactive (mode (payload j)) = false ∧ mode (payload j) ≠ StreamOutput ∧ sa_wait args = false.

Lemma session_check_confirmed st sid a :
  confirmed st sid = Active a → sess_id (a_session a) = sid → session_check st sid = Ok ().
Proof. intros Ea Hs. apply (session_check_exact st 0%Z). eauto. Qed.

(** What the state machine does with the start of the next job. *)
Lemma job_request_released st now net v actor j params sleds job s a :
  confirmed st (sess_id s) = Active a → sess_id (a_session a) = sess_id s →
  session_next_job_id (a_session a) = session_next_job_id s → a_queued_jobs a = ∅ →
  job_id (payload j) = session_next_job_id s → session_id (payload j) = sess_id s →
  certs_verify (st_certs st) j = Ok job → get_job_status (st_history st) (job_id (payload j)) = None →
  is_live st v = true →
  let r := handle_job_request st now (Some net) v actor (JRStart j params sleds) in
  (∃ a', confirmed r.1 (sess_id s) = Active a' ∧ sess_id (a_session a') = sess_id s ∧
     session_next_job_id (a_session a') = session_next_job_id (job_started s j) ∧ a_queued_jobs a' = ∅) ∧
  (own st ∈ sleds → check_target (st_rack st) (payload j) = None → check_command (payload j) = Ok () →
   screen (st_past st) (sess_id s) (a_seq a) (a_live a) = Admit →
   ∃ run, ORun run ∈ r.2 ∧ r_job run = job).
Proof.
  intros Ea Hs Hn Hq Hid Hsid Hv Hh Hl. cbv zeta. unfold handle_job_request. rewrite Hv, Hsid, Hl.
  pose proof (certs_verify_signed _ _ _ Hv) as Hj.
  pose proof (confirm_start_frame st now (sess_id s)) as (Eo&Ek&Ep&Eh&Epd). cbv zeta in *.
  pose proof (confirm_start_now st now (sess_id s)) as Es. rewrite Ea in Es.
  destruct (confirm_start st now (sess_id s)) as [st1 out1]. cbn [fst] in *. rewrite Es. cbn [state_session].
  rewrite bool_decide_true by done.
  set (qj := mkQueuedJob job params sleds (negb true)).
  destruct (next_job_released st1 a now net qj actor) as (Es2&Ep2&Hrun); cbn [q_job qj]; rewrite ?Hj, ?Eh; try done; [congruence|].
  destruct (release_ready_jobs _ now (Some net)) as [st2 out2]. cbn [fst snd q_job q_sleds qj] in *. rewrite Hj in *. split.
  - rewrite confirmed_settled by congruence. rewrite Es2. eexists. split; [done|]. cbn. by split_and!.
  - rewrite Eo, Ek, Ep, Hs in Hrun. intros H1 H2 H3 H4. destruct (Hrun H1 H2 H4 H3) as [ch ->].
    eexists. split; [apply elem_of_app; right; by left|done].
Qed.

(** Running the steps of a program. *)
Lemma run_step {A B} e m (p : Client Ctx A) (f : A → Client Ctx B) c r a c' r' :
  run (serve_rack e m) (p c) r = (Ok a, c', r') →
  run (serve_rack e m) (bind p f c) r = run (serve_rack e m) (f a c') r'.
Proof. intros Hp. unfold bind. by rewrite run_bind, Hp. Qed.

Lemma run_target e m t c r : ∃ b, run (serve_rack e m) (ask_target t c) r = (Ok b, c, r).
Proof.
  unfold ask_target. destruct (single_baseboard t) as [b|]; [by exists b|]. exists (own (rk_state r)). cbn.
  rewrite app_nil_r. by destruct r.
Qed.

Lemma request_job_start e m r (c : Ctx) j params job authn sleds :
  let st := rk_state r in
  certs_verify (st_certs st) j = Ok job → get_job_status (st_history st) (job_id (payload j)) = None →
  session_check st (session_id (payload j)) = Ok () → target_matches_mode (payload j) = true →
  reachable_targets st (own st) (m_linked m) (target (payload j)) = Ok sleds →
  requester (su_authorization e) = Ok authn → wait params = WNone →
  let u := handle_job_request st (m_now m) (m_net m) (m_version m) authn (JRStart j params sleds) in
  ∀ b, run (serve_rack e m) (ask (AskJobStart (job_id (payload j)) b j params) c) r =
    (Ok sleds, c, mkRackSide u.1 (rk_nonce r) (rk_outputs r ++ u.2)).
Proof.
  intros st Hv Hh Hs Ht Hr Ha Hw u b. cbn [ask run serve_rack]. unfold request_api, handle, api_job_start, authenticated.
  rewrite Ha. rewrite bool_decide_false by auto. unfold Manager.job_start. cbn [world_of w_states w_own w_linked].
  fold st. rewrite Hv. cbn [map_err rbind]. rewrite Hh. rewrite bool_decide_false by (by intros [? ?]).
  rewrite Hs. cbn [rbind]. rewrite Ht. cbn [negb]. rewrite Hr. unfold send_then, job_wait. rewrite Hw.
  cbn [rbind w_channel world_of h_sent gossiped h_response h_nonce state_update wait_is_some actor request w_nonce].
  fold st. fold u. destruct u as [st' out]. cbn. by rewrite app_nil_r.
Qed.

(** C8. A signed job that is started without being watched runs, and the client
    and the rack move on together.  The client has a session at the same position as
    the rack, whose queue is empty; the job is neither interactive nor streamed, and
    its start does not wait; it is signed for that position, verified by the rack's
    anchors and new to the rack, and its target fits its mode and can be reached; the
    request comes from an authorised requester, and reaches a sled that knows its
    network and whose message and session are live.  Then starting the job succeeds;
    afterwards both are at the position that follows it, again in step; and if the
    sled is a target, knows itself to be one, admits the session and can run the
    command, the executor is told to run exactly this job. *)
Theorem started_job_runs e m r c args s j job net authn sleds :
  let st := rk_state r in
  in_step c st → x_session c = Some s →
  job_id (payload j) = session_next_job_id s → session_id (payload j) = sess_id s →
  target_matches_mode (payload j) = true → plain args j →
  certs_verify (st_certs st) j = Ok job → get_job_status (st_history st) (job_id (payload j)) = None →
  requester (su_authorization e) = Ok authn → m_net m = Some net → is_live st (m_version m) = true →
  reachable_targets st (own st) (m_linked m) (target (payload j)) = Ok sleds →
  let '(res, c', r') := run (serve_rack e m) (job_start j args c) r in
  res = Ok tt ∧ x_session c' = Some (job_started s j) ∧ in_step c' (rk_state r') ∧
  (own st ∈ sleds → check_target (st_rack st) (payload j) = None → check_command (payload j) = Ok () →
   (∀ a, confirmed st (sess_id s) = Active a → screen (st_past st) (sess_id s) (a_seq a) (a_live a) = Admit) →
   ∃ run, ORun run ∈ rk_outputs r' ∧ r_job run = job).
Proof.
  intros st (s0&a&Es&Ea&Hid&Hn&Hq) Hx Hj Hsid Hm (Hp1&Hp2&Hp3) Hv Hh Ha Hnet Hlive Hr.
  rewrite Hx in Es. injection Es as <-. destruct (run_target e m (target (payload j)) c r) as [b Hb].
  unfold job_start. rewrite (run_step _ _ _ _ _ _ _ _ _ Hb), Hp1.
  replace (match mode (payload j) with StreamOutput => true | _ => false end) with false by (by destruct (mode (payload j))).
  rewrite Hp3. set (params := start_params args (mode (payload j)) (su_local e _ DoWinsize)).
  assert (Hw : wait params = WNone).
  { unfold params, start_params, start_wait. cbn [wait]. rewrite Hp1, Hp3. by destruct (mode (payload j)). }
  pose proof (request_job_start e m r c j params job authn sleds Hv Hh) as Hreq. cbv zeta in Hreq. fold st in Hreq.
  rewrite Hnet in Hreq.
  specialize (Hreq (ltac:(rewrite Hsid; by eapply session_check_confirmed)) Hm Hr Ha Hw b).
  assert (Hsend : run (serve_rack e m) (send_start args j b c) r
    = run (serve_rack e m) (ask (AskJobStart (job_id (payload j)) b j params) c) r)
    by (unfold send_start; by rewrite (run_step e m (attempt (ask DoWinsize)) _ c r (su_local e _ DoWinsize) c r)).
  rewrite Hreq in Hsend. rewrite (run_step _ _ _ _ _ _ _ _ _ Hsend).
  pose proof (job_request_released st (m_now m) net (m_version m) authn j params sleds job s a
    Ea Hid Hn Hq Hj Hsid Hv Hh Hlive) as [Hstep Hrun].
  destruct (handle_job_request _ _ _ _ _ _) as [st' out]. cbn [fst snd] in *. cbn [modify run].
  assert (Hx' : x_session (client_job_started j c) = Some (job_started s j)).
  { unfold client_job_started, note_job. destruct (x_repl c); cbn [x_session]; rewrite Hx; unfold save_session;
      by repeat case_match. }
  split; [done|]. split; [done|]. split.
  - destruct Hstep as (a'&?&?&?&?). exists (job_started s j), a'. by split_and!.
  - intros H1 H2 H3 H4. destruct (Hrun H1 H2 H3 (H4 a Ea)) as (rn&Hin&Hrn). exists rn. split; [|done].
    cbn. apply elem_of_app. by right.
Qed.

(** ** Skipping and attaching *)

(** Burning the next position of a chain whose queue is empty. *)
Lemma skip_burns st now net v actor a :
  st_session st = Active a → a_queued_jobs a = ∅ → started_by (a_session a) = Some actor →
  let id := session_next_job_id (a_session a) in
  let r := handle_session_request st now net v actor (SRSkip (sess_id (a_session a)) id) in
  (∃ a', st_session r.1 = Active a' ∧ a_session a' = mkSession (sess_id (a_session a)) (LBurned id) (Some actor) ∧
     a_queued_jobs a' = ∅) ∧
  st_pending_starts r.1 = st_pending_starts st.
Proof.
  intros Es Eq Eb id. cbv zeta. unfold handle_session_request. rewrite Es, bool_decide_true by done.
  rewrite Eb, bool_decide_false by auto. unfold skip_job. fold id. rewrite bool_decide_true by done. cbn [orb].
  set (a1 := mkActive _ _ _ _ _). unfold cancel_job. cbn [st_session with_session]. unfold a1. cbn [a_queued_jobs].
  rewrite Eq, lookup_empty, delete_empty.
  match goal with |- context [release_ready_jobs ?s _ _] => set (st2 := s) end.
  assert (H2 : st_session st2 = Active (mkActive (a_seq a) (a_live a)
      (mkSession (sess_id (a_session a)) (LBurned id) (started_by (a_session a))) ∅ (a_attach_grants a))
    ∧ st_pending_starts st2 = st_pending_starts st) by (unfold st2; by destruct (_ && _)).
  destruct H2 as [H2 H2']. unfold release_ready_jobs. rewrite H2. rewrite Eb.
  destruct net as [n|]; cbn; rewrite map_size_empty; cbn; eauto 8.
Qed.

Lemma client_burns c s : x_session c = Some s →
  (job_skipped (session_next_job_id s) c).1 = true ∧
  x_session (job_skipped (session_next_job_id s) c).2
    = Some (mkSession (sess_id s) (LBurned (session_next_job_id s)) (started_by s)).
Proof.
  intros Hx. unfold job_skipped. rewrite Hx. unfold skip_job. rewrite bool_decide_true by done. cbn [orb fst snd].
  split; [done|]. unfold save_session. by repeat case_match.
Qed.

(** A skip keeps the client and the rack in step.  Skipping the next position, for a
    client in step with a rack whose session's start is confirmed, either succeeds,
    and both go on from the burned position, or is refused, and neither moved. *)
Theorem skip_keeps_step e m r c s :
  let st := rk_state r in
  in_step c st → x_session c = Some s → lru_peek (st_pending_starts st) (sess_id s) = None →
  let '(res, c', r') := run (serve_rack e m) (job true (JcSkip None) c) r in
  match res with
  | Ok _ => in_step c' (rk_state r') ∧
            client_next_job_id c' = Ok (next_job_id (sess_id s) (LBurned (session_next_job_id s)))
  | Err _ => c' = c ∧ rk_state r' = st
  end.
Proof.
  intros st (s0&a&Es&Ea&Hid&Hn&Hq) Hx Hp. rewrite Hx in Es. injection Es as <-.
  rewrite (confirmed_settled _ _ Hp) in Ea.
  unfold job, skip_command. rewrite (run_step e m session_or_missing _ c r (sess_id s) c r)
    by (cbn; unfold client_session_id; by rewrite Hx).
  rewrite (run_step e m (get_ok client_next_job_id) _ c r (session_next_job_id s) c r)
    by (cbn; unfold client_next_job_id; by rewrite Hx).
  unfold bind at 1. rewrite run_bind. cbn [ask run serve_rack]. unfold request_api, handle, api_session_skip_job, authenticated.
  destruct (requester (su_authorization e)) as [authn|err]; [|by cbn].
  unfold send_session, session_skip_job, starter_check, currency_check. cbn [world_of w_states]. fold st. rewrite Ea.
  cbn [state_session]. case_bool_decide as Hby; [|by cbn]. cbn [rbind].
  rewrite bool_decide_false by auto. cbn [rbind]. rewrite bool_decide_false by auto.
  unfold send_then. cbn [w_channel world_of h_sent gossiped state_update actor request h_response h_nonce w_nonce].
  fold st. rewrite <- Hid, <- Hn.
  destruct (skip_burns st (m_now m) (m_net m) (m_version m) authn a Ea Hq Hby) as [(a'&Ea'&Es'&Eq') Hp'].
  destruct (handle_session_request _ _ _ _ _ _) as [st' out]. cbn [fst snd] in *. rewrite Hn in *.
  pose proof (client_burns c s Hx) as [Hb Hb']. destruct (job_skipped (session_next_job_id s) c) as [b c2] eqn:Ej.
  cbn [fst snd] in Hb, Hb'. subst b.
  cbn [map_err rbind parse_response resp_unit ok_or fst snd]. unfold bind at 1. rewrite run_bind, Ej. cbn [run fst snd ret].
  split.
  - exists (mkSession (sess_id s) (LBurned (session_next_job_id s)) (started_by s)), a'.
    cbn [rk_state sess_id]. rewrite confirmed_settled by congruence. rewrite Es', Hid. by split_and!.
  - unfold client_next_job_id. by rewrite Hb'.
Qed.

(** Attaching joins the rack's session where it is.  Whatever the client tracked
    before, an attach that succeeds leaves it with the rack's session at the rack's
    position, in step with a rack whose session is confirmed and whose queue is empty;
    one that fails leaves it as it was; and neither changes the rack. *)
Theorem attach_joins_step e m r c sid force :
  let '(res, c', r') := run (serve_rack e m) (session true (ScAttach sid force) c) r in
  rk_state r' = rk_state r ∧
  match res with
  | Ok _ =>
    ∃ a, st_session (rk_state r) = Active a ∧ x_session c' = Some (a_session a) ∧
      (∀ want, sid = Some want → sess_id (a_session a) = want) ∧
      (lru_peek (st_pending_starts (rk_state r)) (sess_id (a_session a)) = None → a_queued_jobs a = ∅ →
       in_step c' (rk_state r'))
  | Err _ => c' = c
  end.
Proof.
  unfold session, session_attach, bind. rewrite run_bind. cbn [ask run serve_rack]. unfold request_api, handle, api_session, authenticated.
  destruct (requester (su_authorization e)) as [authn|err]; [|by cbn].
  unfold reply. cbn [world_of w_states]. destruct (st_session (rk_state r)) as [|a] eqn:Ea; [by cbn|].
  cbn [state_session fmap option_fmap option_map ok_or map_err h_sent h_response gossiped parse_response rbind fst snd].
  destruct (match sid with Some sid => negb (bool_decide (sess_id (a_session a) = sid)) | None => false end) eqn:Ew; [by cbn|]. cbn [modify run]. split; [done|].
  exists a. split; [done|].
  assert (Hx : x_session (session_joined (a_session a) true c) = Some (a_session a)) by done.
  split; [done|]. split.
  - intros want ->. apply negb_false_iff, bool_decide_eq_true in Ew. done.
  - intros Hp Hq. exists (a_session a), a. cbn [rk_state]. rewrite confirmed_settled, Ea by done. by split_and!.
Qed.
(** Starting a session puts both at the beginning of its chain.  With the nonces and
    sequence number the signer used, a start that outranks the active session, of a
    session the rack neither waits for nor has a boundary record of, succeeds; the
    client then tracks the session in step with the rack, at its first position. *)
Theorem session_start_in_step e m r c client signer sq force authn :
  let st := rk_state r in
  let sid := preimage_session_id (mkSessionPreimage (own st) (sush_nonce_compute client (rk_nonce r)) signer sq) in
  requester (su_authorization e) = Ok authn → m_wait m = Settled → (0 < lru_cap (st_pending_starts st))%nat →
  opt_rank_leb (Some (sq, sid)) (state_rank (st_session st)) = false → lru_contains (st_pending_starts st) sid = false →
  (∀ a, st_session st = Active a → sess_id (a_session a) ≠ sid) →
  (∀ b, past_boundary (st_past st) = Some b → b_session b ≠ sid) →
  let '(res, c', r') := run (serve_rack e m) (session true (ScStart (Some sid) (Some signer) (Some sq) (Some client) force) c) r in
  res = Ok tt ∧ x_session c' = Some (session_new sid) ∧ in_step c' (rk_state r').
Proof.
  intros st sid Ha Hw Hcap Hrank Hpend Hnew Hb. set (p := mkSessionPreimage _ _ _ _) in sid.
  assert (Hx : ∀ c, x_session (client_session_started (session_new sid) true c) = Some (session_new sid)) by done.
  unfold session, session_relay, Commands.session_start. set (body := mkStartBody client signer sq).
  rewrite (run_step e m (get_ok _) _ c r client c r eq_refl). unfold bind. rewrite run_bind. cbn [ask run serve_rack].
  unfold request_api, handle, api_session_start, authenticated. rewrite Ha. unfold send_session, Manager.session_start.
  cbn [world_of w_own w_nonce sb_client_nonce sb_signer_nonce sb_seq body sess_id session_new]. fold st. fold p. fold sid.
  rewrite bool_decide_false by auto. unfold send_then. cbn [w_channel world_of w_wait]. rewrite Hw.
  cbn [wait_result rbind h_sent gossiped state_update actor request h_response h_nonce w_nonce]. fold st.
  unfold handle_session_request. fold p. fold sid.
  replace (match st_session st with Active a => bool_decide (sess_id (a_session a) = sid) | Inactive => false end) with false
    by (destruct (st_session st) as [|a]; [done|]; symmetry; apply bool_decide_eq_false; by apply Hnew).
  replace (match st_session st with
           | Active _ => opt_rank_leb (Some (seq p, sid)) (state_rank (st_session st)) | Inactive => false end) with false
    by (symmetry; destruct (st_session st); [done|exact Hrank]).
  rewrite Hpend. cbn [map_err rbind parse_response resp_unit ok_or fst snd modify run].
  split; [done|]. split; [done|]. exists (session_new sid). rewrite Hx. cbn [rk_state sess_id session_new].
  unfold confirmed, confirm_start. destruct (lru_pop_spec _ _ (lru_put (st_pending_starts st) sid
    (mkPendingStart p authn (is_live st (m_version m)))) sid) as (E&_&_).
  rewrite lru_peek_put in E by done. cbn [st_pending_starts with_pending].
  destruct (lru_pop _ sid) as [popped pending]. cbn [fst] in E. subst popped. cbn [ps_preimage ps_actor ps_live].
  change (st_session (with_pending (with_pending st _) pending)) with (st_session st).
  change (seq p) with sq. rewrite Hrank. change (st_past (with_pending (with_pending st _) pending)) with (st_past st).
  destruct (past_boundary (st_past st)) as [b|] eqn:Eb; [rewrite bool_decide_false by (by apply Hb)|];
    (eexists; split; [done|]; by split_and!).
Qed.
End client_rack.
