(* ===== verification/Attach.v ===== *)
(** * Attached to a job ([client/src/interactive.rs], [commands.rs])

    The client's end of a job's WebSocket: relaying a terminal to an interactive job,
    and receiving the output of a streaming job into a file.  The socket, the terminal
    and the file are told by each event; JSON is a parameter. *)
From S2P Require Import Prelude External Codephrases Hash Targets Keys Ssh Jobs Messages Headers.
From S2P Require Import Manager Output ClientErrors JobIo.
#[local] Set Warnings "-register-all".
Open Scope N_scope.
Open Scope rust_scope.

#[export] Instance WindowSize_eq_dec : EqDecision WindowSize.
Proof. solve_decision. Defined.

(** [InteractiveJobError], with those of the socket and of system calls. *)
Inductive AttachError := AeInteractive (e : InteractiveJobError) | AeSocket (e : string) | AeIo (e : string).

Section attach.
Context {Isha : Sha3}.
Context (from_json : string → result InteractiveJobControl string) (to_json : InteractiveJobControl → result string string)
  (term : option string) (shown : AttachError → string).

Definition received (m : result WebSocketMessage string) : result InteractiveJobMessage AttachError :=
  let? m := map_err AeSocket m in
  map_err AeInteractive (message_of_ws from_json m).

(** ** [interactive_job_inner] *)

(** The arms of the [select!], with how what they do went: input from the terminal, a
    message or the end of the socket, a change of the window, another signal. *)
Inductive AttachEvent :=
| AtInput (bytes : list byte) (sent : result () string)
| AtMessage (m : option (result WebSocketMessage string)) (size_now : result WindowSize string) (done : result () string)
| AtWindow (size_now : result WindowSize string) (sent : result () string)
| AtSignal.

(** What the terminal was shown: data, or the sequence or the system call that
    resizes it. *)
Inductive Shown := ShData (bytes : list byte) | ShSequence (bytes : list byte) | ShResize (size : WindowSize).

Record Attached := mkAttached {
  at_size : WindowSize;
  at_sent : list WebSocketMessage;
  at_shown : list Shown;
  at_end : option (result () AttachError);
}.
Definition at_over (a : Attached) (r : result () AttachError) : Attached :=
  mkAttached (at_size a) (at_sent a) (at_shown a) (Some r).
Definition at_send (a : Attached) (m : WebSocketMessage) : Attached :=
  mkAttached (at_size a) (at_sent a ++ [m]) (at_shown a) (at_end a).
Definition at_show (a : Attached) (s : Shown) : Attached :=
  mkAttached (at_size a) (at_sent a) (at_shown a ++ [s]) (at_end a).
Definition at_resize (a : Attached) (size : WindowSize) : Attached :=
  mkAttached size (at_sent a) (at_shown a) (at_end a).

(** [send_window_size]. *)
Definition send_window_size (a : Attached) (size_now : result WindowSize string) (sent : result () string) : Attached :=
  match size_now with
  | Err e => at_over a (Err (AeIo e))
  | Ok new =>
    if bool_decide (new = at_size a) then a
    else
      match ws_of_message to_json (MControl (WindowChange new)) with
      | Err e => at_over a (Err (AeInteractive e))
      | Ok m => match sent with Ok _ => at_resize (at_send a m) new | Err e => at_over a (Err (AeSocket e)) end
      end
  end.

(** [set_window_size]. *)
Definition escape_char : Ascii.ascii := Ascii.ascii_of_N 27.
Definition resize_sequence (size : WindowSize) : list byte :=
  bytes_of_string (String escape_char ("[8;" +:+ uint_to_string (ws_rows size) +:+ ";" +:+ uint_to_string (ws_cols size) +:+ "t")).
Definition resizable (term : option string) : bool :=
  match term with
  | Some term => bool_decide (is_Some (strip_prefix "xterm" term)) || bool_decide (term = "ghostty") || bool_decide (term = "wezterm")
  | None => false
  end.
Definition set_window_size (a : Attached) (size_now : result WindowSize string) (size : WindowSize) (done : result () string) : Attached :=
  match size_now with
  | Err e => at_over a (Err (AeIo e))
  | Ok now =>
    if bool_decide (now = size) then at_resize a size
    else
      match done with
      | Err e => at_over a (Err (AeIo e))
      | Ok _ => at_resize (at_show a (if resizable term then ShSequence (resize_sequence size) else ShResize size)) size
      end
  end.

(** One turn of the loop.  End of file, or the escape character alone, ends it. *)
Definition attach_turn (a : Attached) (e : AttachEvent) : Attached :=
  match at_end a with
  | Some _ => a
  | None =>
    match e with
    | AtInput bytes sent =>
      if bool_decide (bytes = []) || bool_decide (bytes = [x1d]) then at_over a (Ok ())
      else match sent with Ok _ => at_send a (WsBinary bytes) | Err e => at_over a (Err (AeSocket e)) end
    | AtMessage None _ _ => at_over a (Ok ())
    | AtMessage (Some m) size_now done =>
      match received m with
      | Err e => at_over a (Err e)
      | Ok (MControl (WindowChange new)) => set_window_size a size_now new done
      | Ok (MData bytes) => match done with Ok _ => at_show a (ShData bytes) | Err e => at_over a (Err (AeIo e)) end
      | Ok MIgnore => a
      | Ok MClose => at_over a (Ok ())
      end
    | AtWindow size_now sent => send_window_size a size_now sent
    | AtSignal => at_over a (Ok ())
    end
  end.
Definition attach_run (size : WindowSize) (l : list AttachEvent) : Attached :=
  foldl attach_turn (mkAttached size [] [] None) l.

(** [interactive_job]: the modes are saved, and restored however the relay ends. *)
Definition interactive_job (raw : result () string) (relay : result () AttachError) (restored : result () string) :
    result () AttachError :=
  let? _ := map_err AeIo raw in
  match relay with Ok _ => map_err AeIo restored | Err e => Err e end.

(** ** [job_stream] *)

Inductive StreamEvent := SeMessage (m : option (result WebSocketMessage string)) (written : result () string) | SeInterrupt.

Record Receiving := mkReceiving {
  rv_file : list byte;
  rv_hasher : Hasher;
  rv_end : option (result () CommandError);
}.
Definition rv_over (r : Receiving) (e : result () CommandError) : Receiving := mkReceiving (rv_file r) (rv_hasher r) (Some e).

(** One turn of the loop. *)
Definition stream_turn (path : string) (r : Receiving) (e : StreamEvent) : Receiving :=
  match rv_end r with
  | Some _ => r
  | None =>
    match e with
    | SeMessage None _ => rv_over r (Ok ())
    | SeMessage (Some m) written =>
      match received m with
      | Err e => rv_over r (Err (CeInteractive (shown e)))
      | Ok (MData bytes) =>
        let h := update (rv_hasher r) bytes in
        match written with
        | Ok _ => mkReceiving (rv_file r ++ bytes) h None
        | Err e => mkReceiving (rv_file r) h (Some (Err (CeIo path e)))
        end
      | Ok MClose => rv_over r (Ok ())
      | Ok (MControl _) | Ok MIgnore => r
      end
    | SeInterrupt => rv_over r (Err CeCanceled)
    end
  end.
Definition stream_loop (path : string) (l : list StreamEvent) : Receiving :=
  foldl (stream_turn path) (mkReceiving [] hasher_new None) l.

(** [job_stream], once the socket is open: the hasher, and the file; [None] while it
    still receives. *)
Definition job_stream (path : string) (truncated flushed : result () string) (l : list StreamEvent) :
    option (result Hasher CommandError * list byte) :=
  match truncated with
  | Err e => Some (Err (CeIo path e), [])
  | Ok _ =>
    let r := stream_loop path l in
    match rv_end r with
    | None => None
    | Some (Err e) => Some (Err e, rv_file r)
    | Some (Ok _) =>
      match flushed with
      | Ok _ => Some (Ok (rv_hasher r), rv_file r)
      | Err e => Some (Err (CeIo path e), rv_file r)
      end
    end
  end.
End attach.
