(* ===== verification/AttachFacts.v ===== *)
(** * What passes between a client and a job

    Theorems about [Attach.v]: an interactive client relays all that is typed and all
    that arrives, in order; and the file of a streaming job holds what was received,
    which is all that the job wrote when the sled ends the stream. *)
From S2P Require Import Prelude External Codephrases Hash Targets Keys Ssh Jobs Messages Headers.
From S2P Require Import Manager Output ClientErrors JobIo Job JobFacts JobOutput TargetArgs Watch Effects Commands Attach.
Open Scope N_scope.

Section facts.
Context {Isha : Sha3}.
Context (from_json : string → result InteractiveJobControl string) (to_json : InteractiveJobControl → result string string)
  (term : option string) (shown : AttachError → string).

(** ** Interactive jobs *)

(** What an event types, and what it brings for the terminal. *)
Definition typed (e : AttachEvent) : list byte := match e with AtInput bytes (Ok _) => bytes | _ => [] end.
Definition arrived (e : AttachEvent) : list byte :=
  match e with AtMessage (Some (Ok (WsBinary bytes))) _ (Ok _) => bytes | _ => [] end.
Definition ws_data (m : WebSocketMessage) : list byte := match m with WsBinary bytes => bytes | _ => [] end.
Definition shown_data (s : Shown) : list byte := match s with ShData bytes => bytes | _ => [] end.

Lemma attach_turn_relays a e l :
  at_end a = None →
  flat_map ws_data (at_sent a) = flat_map typed l → flat_map shown_data (at_shown a) = flat_map arrived l →
  let a' := attach_turn from_json to_json term a e in
  let l' := match at_end a' with Some _ => l | None => l ++ [e] end in
  flat_map ws_data (at_sent a') = flat_map typed l' ∧ flat_map shown_data (at_shown a') = flat_map arrived l'.
Proof.
  intros Ha Hs Hr. unfold attach_turn. rewrite Ha. destruct e as [bytes sent|[m|] size_now done|size_now sent|].
  - destruct (_ || _); [done|]. destruct sent; cbn; [|done]. rewrite Ha, !flat_map_app, Hs, Hr. cbn. by rewrite !app_nil_r.
  - destruct m as [m|]; [|done]. unfold received. cbn [map_err rbind].
    destruct m as [text|bytes| |]; cbn [message_of_ws map_err rbind].
    + destruct (from_json text) as [[new]|]; cbn; [|done]. unfold set_window_size. destruct size_now as [now|]; [|done].
      case_bool_decide; [cbn; rewrite Ha, !flat_map_app, Hs, Hr; cbn; by rewrite !app_nil_r|].
      destruct done; cbn; [|done]. rewrite Ha, !flat_map_app, Hs, Hr. destruct (resizable term); cbn; by rewrite !app_nil_r.
    + destruct done; cbn; [|done]. rewrite Ha, !flat_map_app, Hs, Hr. cbn. by rewrite !app_nil_r.
    + done.
    + cbn. rewrite Ha, !flat_map_app, Hs, Hr. cbn. by rewrite !app_nil_r.
  - done.
  - unfold send_window_size. destruct size_now as [new|]; [|done].
    case_bool_decide; [cbn; rewrite Ha, !flat_map_app, Hs, Hr; cbn; by rewrite !app_nil_r|].
    cbn [ws_of_message]. destruct (to_json _) as [text|]; cbn; [|done]. destruct sent; cbn; [|done].
    rewrite Ha, !flat_map_app, Hs, Hr. cbn. by rewrite !app_nil_r.
  - done.
Qed.

(** An interactive client relays without loss.  However a relay has gone, the data that
    were sent to the job are what was typed, and the data that the terminal was shown
    are what arrived, in order, up to the event that ended it, of which nothing was
    relayed. *)
Lemma attach_relays size l :
  let a := attach_run from_json to_json term size l in
  ∃ before after, l = before ++ after ∧
    (flat_map ws_data (at_sent a) = flat_map typed before ∧ flat_map shown_data (at_shown a) = flat_map arrived before) ∧
    match at_end a with Some _ => after ≠ [] | None => after = [] end.
Proof.
  destruct (relay_prefix (attach_turn from_json to_json term) (λ a, match at_end a with Some _ => true | None => false end)
    (λ a before, flat_map ws_data (at_sent a) = flat_map typed before ∧ flat_map shown_data (at_shown a) = flat_map arrived before)
    (mkAttached size [] [] None) l) as (before&after&Hl&HR&Ha); [| |done|done|].
  - intros a e Ha. unfold attach_turn. by destruct (at_end a).
  - clear l. intros a l e Ha [Hs Hr]. destruct (at_end a) eqn:Ea; [done|].
    pose proof (attach_turn_relays a e l Ea Hs Hr) as Ht. cbv zeta in Ht.
    by destruct (at_end (attach_turn _ _ _ a e)).
  - exists before, after. split; [done|]. split; [done|]. unfold attach_run. by destruct (at_end _).
Qed.

(** ** Streaming jobs *)

Definition stream_data (e : StreamEvent) : list byte :=
  match e with SeMessage (Some (Ok (WsBinary bytes))) (Ok _) => bytes | _ => [] end.

(** What is hashed is what is in the file, unless a write failed. *)
Definition receives (r : Receiving) (before : list StreamEvent) : Prop :=
  rv_file r = flat_map stream_data before ∧
  match rv_end r with Some (Err _) => True | _ => inner (rv_hasher r) = rv_file r end.

Lemma stream_turn_receives path r e l :
  rv_end r = None → receives r l →
  let r' := stream_turn from_json shown path r e in
  receives r' match rv_end r' with Some _ => l | None => l ++ [e] end.
Proof.
  intros Ha [Hf Hh]. rewrite Ha in Hh. unfold stream_turn. rewrite Ha. unfold receives.
  destruct e as [[m|] written|]; cbn [rv_over rv_file rv_hasher rv_end]; [|done|done].
  destruct m as [m|]; [|done]. unfold received. cbn [map_err rbind].
  destruct m as [text|bytes| |]; cbn [message_of_ws map_err rbind].
  - destruct (from_json text) as [c|]; cbn [map_err rbind]; [|done]. rewrite Ha, flat_map_app, Hf. cbn.
    rewrite !app_nil_r. split; [done|]. by rewrite <- Hf.
  - destruct written as [u|]; cbn; [|done]. rewrite flat_map_app, Hf, Hh, Hf. cbn. by rewrite !app_nil_r.
  - done.
  - cbn. rewrite Ha, flat_map_app, Hf. cbn. rewrite !app_nil_r. split; [done|]. by rewrite <- Hf.
Qed.

Lemma stream_loop_receives path l :
  let r := stream_loop from_json shown path l in
  ∃ before after, l = before ++ after ∧ receives r before ∧ match rv_end r with Some _ => after ≠ [] | None => after = [] end.
Proof.
  destruct (relay_prefix (stream_turn from_json shown path) (λ r, match rv_end r with Some _ => true | None => false end)
    receives (mkReceiving [] hasher_new None) l) as (before&after&Hl&HR&Ha); [| |done|done|].
  - intros r e Hr. unfold stream_turn. by destruct (rv_end r).
  - clear l. intros r l e Hr HR. destruct (rv_end r) eqn:Er; [done|].
    pose proof (stream_turn_receives path r e l Er HR) as Ht. cbv zeta in Ht. by destruct (rv_end (stream_turn _ _ _ r e)).
  - exists before, after. split; [done|]. split; [done|]. unfold stream_loop. by destruct (rv_end _).
Qed.

Lemma stream_chunks path chunks r :
  rv_end r = None →
  let r' := foldl (stream_turn from_json shown path) r (map (λ b, SeMessage (Some (Ok (WsBinary b))) (Ok ())) chunks) in
  rv_end r' = None ∧ rv_file r' = rv_file r ++ concat chunks ∧
  inner (rv_hasher r') = inner (rv_hasher r) ++ concat chunks.
Proof.
  revert r. induction chunks as [|b chunks IH]; intros r Hr; cbn; [by rewrite !app_nil_r|].
  destruct (IH (stream_turn from_json shown path r (SeMessage (Some (Ok (WsBinary b))) (Ok ())))) as (H1&H2&H3);
    unfold stream_turn in *; rewrite Hr in *; cbn in *; [done|].
  rewrite H1, H2, H3. by rewrite <- !app_assoc.
Qed.

(** C32. A streamed job's file is the job's output.  Whenever receiving succeeds, what is
    hashed is what is in the file, the data of the messages in order.  When moreover
    the sled's loop had seen the end of the output before it ended (rather than giving
    up on it at the drain limit), its consumer ended well, and the client was delivered
    what that sent and then the close, then the file holds exactly what was read of
    the process.  And the client's check against the job's status passes, if the job
    exited with 0 and its output is under 2^64 bytes; a job that ended otherwise is
    reported as unverified. *)
Theorem streamed_file_exact path l truncated flushed h file :
  job_stream from_json shown path truncated flushed l = Some (Ok h, file) →
  inner h = file ∧ (∃ before after, l = before ++ after ∧ file = flat_map stream_data before) ∧
  ∀ max_fsize t0 stopped ts j,
    run_job from_json to_json (job_begin StreamOutput max_fsize t0 stopped) ts = Some j →
    sm_consumer (j_streaming j) = CGone true → sm_eof (j_streaming j) = true →
    l = map (λ b, SeMessage (Some (Ok (WsBinary b))) (Ok ())) (sm_delivered (j_streaming j)) ++ [SeMessage (Some (Ok WsClose)) (Ok ())] →
    file = produced Stdout ts ∧
    ∃ res out, j_phase j = Finished res out ∧ stdout_hash out = finalize h ∧
      (N.of_nat (length file) < 2 ^ 64 → ∀ id started stopped_at,
         stream_verdict id (Some (Stopped id started stopped_at res out)) file =
         match res with Ok 0%Z => Ok tt | _ => Err (CeStreamUnverified id) end).
Proof.
  intros Hj. unfold job_stream in Hj. destruct truncated; [|done].
  destruct (stream_loop_receives path l) as (before&after&Hl&[Hf Hh]&_).
  destruct (rv_end (stream_loop from_json shown path l)) as [[]|] eqn:Ee; [|done..]. destruct flushed; [|done].
  injection Hj as <- <-. split; [done|]. split; [by exists before, after|].
  intros max_fsize t0 stopped ts j Hr Hc He El.
  destruct (streamed_run _ _ _ _ _ _ _ Hr) as (_&[_ Hs]&Hp). rewrite Hc in Hs. destruct Hs as (lost&E&Hlost).
  destruct (Hlost eq_refl) as [(res&out&Hph) Hno]. rewrite (Hno He), app_nil_r in E.
  assert (Efile : rv_file (stream_loop from_json shown path l) = produced Stdout ts).
  { rewrite El. unfold stream_loop. rewrite foldl_app. cbn [foldl].
    destruct (stream_chunks path (sm_delivered (j_streaming j)) (mkReceiving [] hasher_new None) eq_refl) as (H1&H2&_).
    unfold stream_turn at 1. rewrite H1. cbn. rewrite H2. cbn. by rewrite <- Hp. }
  split; [done|]. exists res, out. split; [done|].
  destruct (finished_inv _ _ _ _ _ _ _ _ _ _ Hr Hph) as [-> _].
  pose proof (streamed_count _ _ _ _ _ _ _ _ Hr) as Hcount. change (hashed j) with (inner (out_hasher j)) in Hp.
  split; [cbn; unfold finalize; by rewrite Hh, Efile, <- Hp|]. intros Hlen id started stopped_at.
  rewrite Efile, <- Hp in *. unfold stream_verdict. destruct res as [[]|]; try done.
  unfold output_state. cbn [stdout_len stdout_hash]. unfold out_hasher in *. rewrite Hcount, N.mod_small by done.
  rewrite N.eqb_refl. cbn [negb]. rewrite bool_decide_false; [done|]. intros Hne. by apply Hne.
Qed.
End facts.
