(* ===== verification/Ephemeral.v ===== *)
(** * Ephemeral keys and their certificates ([EphemeralKey] of [common/src/keys.rs])

    Signing keys, the certificates built for them (self-signed, signed by a parent or
    by an outside authority, or vouched for), and the voucher's digest.  The curves,
    the DER encoding and X.509 parsing are interfaces; a random key and a random
    serial number are arguments. *)
From S2P Require Import Prelude External Codephrases Hash Targets Keys Ssh Jobs.
#[local] Set Warnings "-register-all".
Open Scope N_scope.

(** ** [x509_cert], [ed25519_dalek] and [p256] *)

(** The extension identifiers the sources compare with; any other is [OtherExtn]. *)
Inductive ExtnId := VOUCHER_OID | DICE_TCB_INFO | OtherExtn (der : list byte).
#[export] Instance ExtnId_eq_dec : EqDecision ExtnId.
Proof. solve_decision. Defined.

(** [Extension], [SubjectPublicKeyInfo] and [TbsCertificate] (version 3, without
    unique identifiers). *)
Record Extension := mkExtension { extn_id : ExtnId; critical : bool; extn_value : list byte }.
Record SubjectPublicKeyInfo := mkSpki { spki_algorithm : AlgorithmIdentifier; subject_public_key : list byte }.
Record TbsCertificate (Name Validity : Type) := mkTbs {
  tbs_serial_number : list byte;
  tbs_signature : AlgorithmIdentifier;
  tbs_issuer : Name;
  tbs_validity : Validity;
  tbs_subject : Name;
  subject_public_key_info : SubjectPublicKeyInfo;
  extensions : option (list Extension);
}.
Arguments mkTbs {_ _} _ _ _ _ _ _ _.
Arguments tbs_serial_number {_ _} _.
Arguments tbs_signature {_ _} _.
Arguments tbs_issuer {_ _} _.
Arguments tbs_validity {_ _} _.
Arguments tbs_subject {_ _} _.
Arguments subject_public_key_info {_ _} _.
Arguments extensions {_ _} _.

(** A certificate is a [TbsCertificate] with an algorithm and a signature, and what
    [Pki] reads of it is in its fields.  Encoders can fail. *)
Class X509 `{!Pki} := {
  Validity : Type;
  cert_of : TbsCertificate Name Validity → AlgorithmIdentifier → list byte → Certificate;
  tbs_certificate : Certificate → TbsCertificate Name Validity;
  tbs_to_der : TbsCertificate Name Validity → option (list byte);
  spki_to_der : SubjectPublicKeyInfo → option (list byte);
  certificate_to_der : Certificate → option (list byte);
  certificate_from_der : list byte → option Certificate;
  (** [SerialNumber::new], [BitString::from_bytes], [OctetString::new]. *)
  serial_ok : list byte → bool;
  bit_string_ok : list byte → bool;
  octet_string_ok : list byte → bool;
  (** [get::<BasicConstraints>]: an error, none, or whether it is a CA's. *)
  basic_constraints : TbsCertificate Name Validity → option (option bool);
  (** [DiceTcbInfo::from_der]: its [fwids]. *)
  dice_fwids : list byte → option (option (list (list byte)));

  cert_of_tbs : ∀ t a s, tbs_certificate (cert_of t a s) = t;
  cert_of_algorithm : ∀ t a s, cert_signature_algorithm (cert_of t a s) = a;
  cert_of_signature : ∀ t a s, cert_signature (cert_of t a s) = s;
  tbs_fields : ∀ c, cert_tbs_signature c = tbs_signature (tbs_certificate c) ∧
    cert_subject c = tbs_subject (tbs_certificate c) ∧ cert_issuer c = tbs_issuer (tbs_certificate c) ∧
    cert_spki_algorithm c = spki_algorithm (subject_public_key_info (tbs_certificate c)) ∧
    cert_spki_key c = subject_public_key (subject_public_key_info (tbs_certificate c)) ∧
    cert_spki_der c = spki_to_der (subject_public_key_info (tbs_certificate c)) ∧
    cert_tbs_der c = tbs_to_der (tbs_certificate c);
  certificate_der_roundtrip : ∀ c der, certificate_to_der c = Some der → certificate_from_der der = Some c;
}.

(** Private keys: what they sign verifies with their public key, and signatures
    read back from their encodings. *)
Class PrivateKeys `{!Pki, !Ssh} := {
  Ed25519SigningKey : Type;
  P256SecretKey : Type;
  ed25519_public : Ed25519SigningKey → list byte;
  p256_public : P256SecretKey → list byte;
  ed25519_sign : Ed25519SigningKey → list byte → Ed25519Signature;
  p256_sign : P256SecretKey → list byte → EcdsaSignature;
  ed25519_to_bytes : Ed25519Signature → list byte;
  ecdsa_to_der : EcdsaSignature → list byte;

  ed25519_public_length : ∀ k, length (ed25519_public k) = 32%nat;
  ed25519_public_ok : ∀ k, ed25519_key_ok (ed25519_public k) = true;
  ed25519_signed : ∀ k m, ed25519_verify (ed25519_public k) m (ed25519_sign k m) = true;
  ed25519_signed_strict : ∀ k m, ed25519_verify_strict (ed25519_public k) m (ed25519_sign k m) = true;
  p256_public_ok : ∀ k, ecdsa_key_ok (p256_public k) = true;
  p256_signed : ∀ k m, ecdsa_verify (p256_public k) m (p256_sign k m) = true;
  ed25519_bytes_back : ∀ s, ed25519_from_slice (ed25519_to_bytes s) = Some s;
  ecdsa_der_back : ∀ s, ecdsa_from_der (ecdsa_to_der s) = Some s;
  ed25519_halves : ∀ s, length (ed25519_r s) = 32%nat ∧ length (ed25519_s s) = 32%nat ∧
    ed25519_from_components (ed25519_r s) (ed25519_s s) = s;
  ecdsa_halves : ∀ s, length (ecdsa_r s) = 32%nat ∧ length (ecdsa_s s) = 32%nat ∧
    ecdsa_from_scalars (ecdsa_r s) (ecdsa_s s) = Some s;
}.

Section ephemeral.
Context `{!Sha3, !Pki, !Ssh, !X509, !PrivateKeys}.
Local Open Scope rust_scope.

(** ** [SigningKey] *)

Inductive SigningKey := SkEd (key : Ed25519SigningKey) | SkP256 (key : P256SecretKey).

(** [sign], [algorithm_id], [signature_algorithm], [public_key], [spki]. *)
Definition sk_sign (k : SigningKey) (message : list byte) : Signature :=
  match k with
  | SkEd key => Ed25519 (ed25519_sign key message)
  | SkP256 key => EcdsaSha256 (p256_sign key message)
  end.
Definition algorithm_id (k : SigningKey) : AlgorithmIdentifier :=
  match k with
  | SkEd _ => mkAlgorithm ID_ED_25519 None
  | SkP256 _ => mkAlgorithm ID_EC_PUBLIC_KEY (Some SECP_256_R_1)
  end.
Definition signature_algorithm (k : SigningKey) : AlgorithmIdentifier :=
  match k with SkEd _ => algorithm_id k | SkP256 _ => mkAlgorithm ECDSA_WITH_SHA_256 None end.
Definition public_key (k : SigningKey) : list byte :=
  match k with SkEd key => ed25519_public key | SkP256 key => p256_public key end.
Definition spki (k : SigningKey) : SubjectPublicKeyInfo := mkSpki (algorithm_id k) (public_key k).

(** [BitString::from_bytes] and [Signature::to_bit_string]. *)
Definition bit_string (bytes : list byte) : result (list byte) KeyError :=
  if bit_string_ok bytes then Ok bytes else Err KDer.
Definition to_bit_string (s : Signature) : result (list byte) KeyError :=
  match s with
  | EcdsaSha256 s => bit_string (ecdsa_to_der s)
  | Ed25519 s => bit_string (ed25519_to_bytes s)
  | SkEcdsaSha256 _ | SkEd25519 _ => Err KInvalidSignatureAlgorithm
  end.

(** ** Certificates *)

Record EphemeralKey := mkEphemeralKey { ek_key : SigningKey; ek_key_id : KeyId; ek_cert : Certificate }.

(** [generate_serial_number], of the random bytes drawn. *)
Definition generate_serial_number (draw : list byte) : result (list byte) KeyError :=
  if serial_ok draw then Ok draw else Err KDer.

(** [EphemeralKey::tbs_certificate]. *)
Definition tbs_for (key : SigningKey) (serial : list byte) (sig : AlgorithmIdentifier) (subject issuer : Name)
    (validity : Validity) : TbsCertificate Name Validity :=
  mkTbs serial sig issuer validity subject (spki key) None.

(** The tail of the constructors: the key's identifier is its certificate's. *)
Definition with_cert (key : SigningKey) (cert : Certificate) : result EphemeralKey KeyError :=
  let? kid := key_id_of_cert cert in
  Ok (mkEphemeralKey key kid cert).

(** [self_signed_cert]. *)
Definition self_signed_cert (key : SigningKey) (draw : list byte) (subject : Name) (validity : Validity) :
    result Certificate KeyError :=
  let? serial := generate_serial_number draw in
  let tbs := tbs_for key serial (signature_algorithm key) subject subject validity in
  let? der := ok_or (tbs_to_der tbs) KDer in
  let? sig := to_bit_string (sk_sign key der) in
  Ok (cert_of tbs (signature_algorithm key) sig).

(** [new_root]. *)
Definition new_root (key : SigningKey) (draw : list byte) (subject : Name) (validity : Validity) :
    result EphemeralKey KeyError :=
  let? cert := self_signed_cert key draw subject validity in
  let? ek := with_cert key cert in
  let? sig := signature_of_cert cert in
  let? der := ok_or (cert_tbs_der cert) KDer in
  let? _ := verify_with_spki sig der (cert_spki_key cert) in
  Ok ek.

(** [new_delegated]: [sign] is the authority's. *)
Definition new_delegated (key : SigningKey) (draw : list byte) (subject issuer : Name) (validity : Validity)
    (alg : AlgorithmIdentifier) (sign : list byte → result (list byte) string) : result EphemeralKey KeyError :=
  let? serial := generate_serial_number draw in
  let tbs := tbs_for key serial alg subject issuer validity in
  let? der := ok_or (tbs_to_der tbs) KDer in
  let? sig := map_err KSigner (sign der) in
  let? sig := bit_string sig in
  with_cert key (cert_of tbs alg sig).

(** [voucher_digest] and what it hashes. *)
Definition VOUCHER_TAG : list byte := bytes_of_string "sush-proxy-voucher-v0:".
Definition voucher_preimage (spki_der : list byte) : list byte := VOUCHER_TAG ++ spki_der.
Definition voucher_digest (i : SubjectPublicKeyInfo) : result (list byte) KeyError :=
  let? der := ok_or (spki_to_der i) KDer in
  Ok (finalize (update (update hasher_new VOUCHER_TAG) der)).

(** [new_vouched]: [vouch] is the root of trust's. *)
Definition new_vouched (key : SigningKey) (draw : list byte) (subject : Name) (validity : Validity)
    (vouch : list byte → result (list byte) string) : result EphemeralKey KeyError :=
  let? digest := voucher_digest (spki key) in
  let? voucher := map_err KSigner (vouch digest) in
  let? serial := generate_serial_number draw in
  let tbs := tbs_for key serial (signature_algorithm key) subject subject validity in
  let? value := (if octet_string_ok voucher then Ok voucher else Err KDer) in
  let tbs := mkTbs (tbs_serial_number tbs) (tbs_signature tbs) (tbs_issuer tbs) (tbs_validity tbs) (tbs_subject tbs)
    (subject_public_key_info tbs) (Some [mkExtension VOUCHER_OID true value]) in
  let? der := ok_or (tbs_to_der tbs) KDer in
  let? sig := to_bit_string (sk_sign key der) in
  with_cert key (cert_of tbs (signature_algorithm key) sig).

(** [sign_cert] and [new_child]: [signer] is the parent's [Signer::sign]. *)
Definition sign_cert (tbs : TbsCertificate Name Validity) (signer : list byte → result EncodedSignature string) :
    result Certificate KeyError :=
  let? der := ok_or (tbs_to_der tbs) KDer in
  let? signed := map_err KSigner (signer der) in
  let? sig := decode_with_cert signed (tbs_signature tbs) in
  let? sig := to_bit_string sig in
  Ok (cert_of tbs (tbs_signature tbs) sig).

Definition new_child (shown : KeyError → string) (key : SigningKey) (draw : list byte) (subject issuer : Name)
    (validity : Validity) (signer : list byte → result EncodedSignature string) (alg : AlgorithmIdentifier) :
    result EphemeralKey KeyError :=
  let? serial := generate_serial_number draw in
  let tbs := tbs_for key serial alg subject issuer validity in
  let? cert := map_err (λ e, KSigner (shown e)) (sign_cert tbs signer) in
  with_cert key cert.

(** [impl Signer for EphemeralKey]. *)
Definition ephemeral_sign {T} `{!ToBeSigned T} (ek : EphemeralKey) (what : T) : result (Signed T) KeyError :=
  let? sig := encode_signature (sk_sign (ek_key ek) (to_be_signed what)) in
  Ok (mkSigned what (ek_key_id ek) sig).
Definition ephemeral_signer (shown : KeyError → string) (ek : EphemeralKey) (der : list byte) : result EncodedSignature string :=
  map_err shown (encode_signature (sk_sign (ek_key ek) der)).
End ephemeral.
