(* ===== verification/EphemeralFacts.v ===== *)
(** * Ephemeral keys verify

    Theorems about [Ephemeral.v]: what an ephemeral key signs verifies with its
    certificate, a root and its child are anchors together, and the jobs that either
    signs are verified by them. *)
From S2P Require Import Prelude External Codephrases Hash Targets Keys Ssh Jobs Certs Ephemeral.
Open Scope N_scope.

Section facts.
Context `{!Sha3, !BaseboardOps, !Pki, !Ssh, !X509, !PrivateKeys}.

(** Reading back what was encoded. *)
Lemma newtype_bytes_back name bs :
  newtype_length name = Full → length bs = 32%nat →
  newtype_to_be_bytes (newtype_from_be_bytes (name := name) bs) = bs.
Proof.
  intros Hn Hl. unfold newtype_to_be_bytes, newtype_from_be_bytes, to_be_bytes, from_be_bytes.
  cbn [phrase]. rewrite Hn. cbn [canonical]. rewrite <- Hl. apply be_bytes_be_value.
Qed.

Lemma signed_verifies k m : verify_with_spki (sk_sign k m) m (public_key k) = Ok ().
Proof.
  destruct k as [k|k]; cbn.
  - by rewrite ed25519_public_length, ed25519_public_ok, ed25519_signed.
  - by rewrite p256_public_ok, p256_signed.
Qed.

Lemma encoded_decodes k m e :
  encode_signature (sk_sign k m) = Ok e → decode_with_cert e (signature_algorithm k) = Ok (sk_sign k m).
Proof.
  destruct k as [k|k]; cbn [sk_sign encode_signature]; intros [= <-];
    unfold decode_with_cert; cbn [sig_r sig_s signature_algorithm algorithm_id oid parameters].
  - destruct (ed25519_halves (ed25519_sign k m)) as (Hr&Hs&Hb). by rewrite !newtype_bytes_back, Hb.
  - destruct (ecdsa_halves (p256_sign k m)) as (Hr&Hs&Hb). by rewrite !newtype_bytes_back, Hb.
Qed.

Lemma encodes k m : ∃ e, encode_signature (sk_sign k m) = Ok e.
Proof. destruct k; cbn; eauto. Qed.

Lemma algorithm_of_key k : signature_algorithm_from_spki (algorithm_id k) = Ok (signature_algorithm k).
Proof. by destruct k. Qed.

(** The certificate of a key: it names the key and itself. *)
Definition own_cert (key : SigningKey) (c : Certificate) : Prop :=
  cert_spki_algorithm c = algorithm_id key ∧ cert_spki_key c = public_key key.
Definition keeps (ek : EphemeralKey) : Prop :=
  own_cert (ek_key ek) (ek_cert ek) ∧ key_id_of_cert (ek_cert ek) = Ok (ek_key_id ek).

Lemma cert_of_own t a s key : subject_public_key_info t = spki key → own_cert key (cert_of t a s).
Proof.
  intros Hi. unfold own_cert. destruct (tbs_fields (cert_of t a s)) as (_&_&_&->&->&_&_). by rewrite cert_of_tbs, Hi.
Qed.

Lemma cert_of_names t a s : cert_subject (cert_of t a s) = tbs_subject t ∧ cert_issuer (cert_of t a s) = tbs_issuer t.
Proof. destruct (tbs_fields (cert_of t a s)) as (_&->&->&_). by rewrite cert_of_tbs. Qed.

(** The signature on a certificate reads back. *)
Lemma signature_reads_back t k m sig :
  tbs_signature t = signature_algorithm k → to_bit_string (sk_sign k m) = Ok sig →
  signature_of_cert (cert_of t (signature_algorithm k) sig) = Ok (sk_sign k m).
Proof.
  intros Ht Hs. unfold signature_of_cert. destruct (tbs_fields (cert_of t (signature_algorithm k) sig)) as (->&_).
  rewrite cert_of_tbs, cert_of_algorithm, cert_of_signature, Ht. rewrite bool_decide_false by naive_solver.
  destruct k as [k|k]; cbn in *; unfold bit_string in Hs; destruct (bit_string_ok _); try done; injection Hs as <-.
  - by rewrite ed25519_bytes_back.
  - by rewrite ecdsa_der_back.
Qed.

(** A certificate whose signature is made with the key of another. *)
Lemma signed_by_key t k der sig :
  tbs_signature t = signature_algorithm k → tbs_to_der t = Some der → to_bit_string (sk_sign k der) = Ok sig →
  signed_by (cert_of t (signature_algorithm k) sig) (public_key k).
Proof.
  intros Ht Hd Hs. exists der, (sk_sign k der). split_and!.
  - destruct (tbs_fields (cert_of t (signature_algorithm k) sig)) as (_&_&_&_&_&_&->). by rewrite cert_of_tbs.
  - by apply signature_reads_back.
  - apply signed_verifies.
Qed.

Lemma with_cert_keeps key c ek : own_cert key c → with_cert key c = Ok ek → ek_key ek = key ∧ ek_cert ek = c ∧ keeps ek.
Proof.
  intros Ho. unfold with_cert. destruct (key_id_of_cert c) as [kid|] eqn:E; [|done]. intros [= <-]. done.
Qed.

(** A root made is one that issued its own certificate. *)
Lemma new_root_spec key draw subject validity ek :
  new_root key draw subject validity = Ok ek →
  keeps ek ∧ ek_key ek = key ∧ issued (ek_cert ek) (ek_cert ek) ∧ cert_subject (ek_cert ek) = subject.
Proof.
  unfold new_root, self_signed_cert, generate_serial_number. intros Hm. destruct (serial_ok draw); [|done]. cbn [rbind] in Hm.
  set (t := tbs_for key draw (signature_algorithm key) subject subject validity) in *.
  destruct (tbs_to_der t) as [der|] eqn:Ed; [|done]. cbn [rbind ok_or] in Hm.
  destruct (to_bit_string (sk_sign key der)) as [sig|] eqn:Es; [|done]. cbn [rbind] in Hm.
  set (c := cert_of t (signature_algorithm key) sig) in *.
  assert (Ho : own_cert key c) by (by apply cert_of_own).
  destruct (with_cert key c) as [ek'|] eqn:Ew; [|done]. cbn [rbind] in Hm.
  destruct (with_cert_keeps _ _ _ Ho Ew) as (Hk&Hc&Hkeep).
  destruct (signature_of_cert c); [|done]. cbn [rbind] in Hm. destruct (cert_tbs_der c); [|done]. cbn [rbind ok_or] in Hm.
  destruct (verify_with_spki _ _ _); [|done]. injection Hm as ->. destruct (cert_of_names t (signature_algorithm key) sig) as [Hsub Hiss]. fold c in Hsub, Hiss.
  rewrite Hc. split_and!; [done|done| |by rewrite Hsub]. split; [by rewrite Hsub, Hiss|].
  destruct Ho as [_ ->]. by eapply signed_by_key.
Qed.

(** A child made with its parent's key is issued by its parent. *)
Lemma new_child_spec shown shown' parent key draw subject validity ek :
  keeps parent →
  new_child shown key draw subject (cert_subject (ek_cert parent)) validity (ephemeral_signer shown' parent)
    (signature_algorithm (ek_key parent)) = Ok ek →
  keeps ek ∧ ek_key ek = key ∧ issued (ek_cert parent) (ek_cert ek) ∧ cert_subject (ek_cert ek) = subject.
Proof.
  intros [[_ Hpk] _]. unfold new_child, generate_serial_number, sign_cert, ephemeral_signer. intros Hm.
  destruct (serial_ok draw); [|done]. cbn [rbind] in Hm.
  set (t := tbs_for key draw (signature_algorithm (ek_key parent)) subject (cert_subject (ek_cert parent)) validity) in *.
  destruct (tbs_to_der t) as [der|] eqn:Ed; [|done]. cbn [rbind ok_or] in Hm.
  destruct (encode_signature (sk_sign (ek_key parent) der)) as [e|] eqn:Ee; [|done]. cbn [map_err rbind] in Hm.
  change (tbs_signature t) with (signature_algorithm (ek_key parent)) in Hm.
  rewrite (encoded_decodes _ _ _ Ee) in Hm. cbn [rbind] in Hm.
  destruct (to_bit_string (sk_sign (ek_key parent) der)) as [sig|] eqn:Es; [|done]. cbn [rbind map_err] in Hm.
  apply with_cert_keeps in Hm as (Hk&Hc&Hkeep); [|by apply cert_of_own].
  set (c := cert_of t (signature_algorithm (ek_key parent)) sig) in *.
  destruct (cert_of_names t (signature_algorithm (ek_key parent)) sig) as [Hsub Hiss]. fold c in Hsub, Hiss.
  rewrite Hc. split_and!; [done|done| |by rewrite Hsub]. split; [by rewrite Hiss|].
  rewrite Hpk. by eapply signed_by_key.
Qed.

(** What a key signs verifies with its certificate. *)
Lemma ephemeral_sign_verifies {T} `{!ToBeSigned T} ek (what : T) s :
  keeps ek → ephemeral_sign ek what = Ok s → verify_with_cert s (ek_cert ek) = Ok (mkVerified s (ek_key_id ek)).
Proof.
  intros [[Ha Hp] Hid]. unfold ephemeral_sign. destruct (encode_signature _) as [e|] eqn:E; [|done]. intros [= <-].
  unfold verify_with_cert. rewrite Ha, algorithm_of_key. cbn [rbind signature payload].
  rewrite (encoded_decodes _ _ _ E). cbn [rbind]. rewrite Hp, signed_verifies. cbn [rbind]. by rewrite Hid.
Qed.

(** ** As trust anchors *)

Lemma add_root t c kid : issued c c → key_id_of_cert c = Ok kid → add_anchor t c = Ok (<[kid := (c, None)]> t).
Proof.
  intros (Hn&der&sg&Hd&Hs&Hv) Hk. unfold add_anchor. rewrite Hk. cbn [rbind]. rewrite Hd. cbn [rbind ok_or].
  rewrite Hs. cbn [rbind]. rewrite bool_decide_true by done. by rewrite Hv.
Qed.

Lemma add_child pid p q c kid :
  issued p c → cert_subject c ≠ cert_issuer c → key_id_of_cert c = Ok kid →
  add_anchor {[pid := (p, q)]} c = Ok (<[kid := (c, Some pid)]> {[pid := (p, q)]}).
Proof.
  intros (Hn&der&sg&Hd&Hs&Hv) Hne Hk. unfold add_anchor. rewrite Hk. cbn [rbind]. rewrite Hd. cbn [rbind ok_or].
  rewrite Hs. cbn [rbind]. rewrite bool_decide_false by done.
  destruct (find_first _ _) as [k|] eqn:Ef.
  - apply find_first_Some in Ef as [Hin _]. apply elem_of_sorted_elements in Hin. rewrite dom_singleton in Hin.
    apply elem_of_singleton in Hin as ->. rewrite lookup_singleton_eq, Hv. done.
  - exfalso. eapply (proj1 (find_first_None _ _)) in Ef; [|apply elem_of_sorted_elements; rewrite dom_singleton; by apply elem_of_singleton].
    rewrite lookup_singleton_eq in Ef. by apply bool_decide_eq_false in Ef.
Qed.

(** Ephemeral keys can sign jobs.  A root and a child it signed, with different names
    and keys, are accepted together as trust anchors; whatever job either signs is
    signed and is verified by the anchors, as theirs; and the child's chain is the
    root's certificate and its own. *)
Theorem ephemeral_jobs_verify shown shown' key1 draw1 name1 validity1 root key2 draw2 name2 validity2 child :
  new_root key1 draw1 name1 validity1 = Ok root →
  new_child shown key2 draw2 name2 (cert_subject (ek_cert root)) validity2 (ephemeral_signer shown' root)
    (signature_algorithm (ek_key root)) = Ok child →
  name1 ≠ name2 → ek_key_id root ≠ ek_key_id child →
  ∃ c, certificates_new [ek_cert root; ek_cert child] = Ok c ∧
    (∀ ek request, ek = root ∨ ek = child →
       ∃ job, ephemeral_sign ek request = Ok job ∧ payload job = request ∧
              certs_verify c job = Ok (mkVerified job (ek_key_id ek))) ∧
    chain c (ek_key_id child) = Some (Ok [ek_cert root; ek_cert child]).
Proof.
  intros (Hkr&_&Hir&Hnr)%new_root_spec Hchild Hn Hne.
  apply new_child_spec in Hchild as (Hkc&_&Hic&Hnc); [|done].
  exists (mkCertificates (<[ek_key_id child := (ek_cert child, Some (ek_key_id root))]> {[ek_key_id root := (ek_cert root, None)]})).
  split_and!.
  - unfold certificates_new. cbn [add_anchors]. rewrite (add_root ∅ _ _ Hir (proj2 Hkr)). cbn [rbind].
    rewrite insert_empty, (add_child (ek_key_id root) _ None _ (ek_key_id child) Hic); [done| |apply Hkc].
    destruct Hic as [<- _]. congruence.
  - intros ek request Hek. destruct (encodes (ek_key ek) (to_be_signed request)) as [e He].
    assert (Hs : ephemeral_sign ek request = Ok (mkSigned request (ek_key_id ek) e)) by (unfold ephemeral_sign; by rewrite He).
    exists (mkSigned request (ek_key_id ek) e). split; [done|]. split; [done|].
    unfold certs_verify. cbn [anchors key_id]. destruct Hek as [->| ->].
    + rewrite lookup_insert_ne, lookup_singleton_eq by done. by eapply ephemeral_sign_verifies.
    + rewrite lookup_insert_eq. by eapply ephemeral_sign_verifies.
  - unfold chain. cbn [anchors]. rewrite map_size_insert_None, map_size_singleton by (by rewrite lookup_singleton_ne).
    cbn [chain_go anchors]. rewrite lookup_insert_eq, lookup_insert_ne, lookup_singleton_eq by done. done.
Qed.
End facts.
