(* ===== verification/ProxyTls.v ===== *)
(** * The client's trust in a proxy ([client/src/tls.rs])

    Which server certificates a client accepts: a certificate with a voucher that the
    root of trust's own certificate signed.  And the URLs with a link-local address.
    rustls, sprockets-tls, the url crate and the kernel's interfaces are parameters;
    IPv6 addresses are parsed as the standard library does. *)
From S2P Require Import Prelude External Codephrases Hash Targets Keys Ssh Jobs Headers Addresses Ephemeral.
#[local] Set Warnings "-register-all".
Open Scope N_scope.
Open Scope rust_scope.

(** [rustls::Error], as far as it is made here; the inner verifier's are messages. *)
Inductive CertificateError := BadEncoding | BadSignature | UnknownIssuer | InvalidPurpose.
Inductive RustlsError := InvalidCertificate (e : CertificateError) | InnerError (message : string).

Definition bad_encoding : RustlsError := InvalidCertificate BadEncoding.
Definition bad_signature : RustlsError := InvalidCertificate BadSignature.

(** [SignatureScheme], as far as it is told apart. *)
Inductive SignatureScheme := SchemeEd25519 | OtherScheme (code : N).

Section verifier.
Context `{!Sha3, !Pki, !Ssh, !X509}.
Context (inner_cert : list byte → list (list byte) → result () RustlsError)
  (inner_signature : list byte → list byte → SignatureScheme → list byte → result () RustlsError).

Definition certificate (der : list byte) : result Certificate RustlsError := ok_or (certificate_from_der der) bad_encoding.
Definition cert_extensions (c : Certificate) : list Extension := default [] (extensions (tbs_certificate c)).

(** [verify_vouching_cert]. *)
Definition verify_vouching_cert (platform : Certificate) : result () RustlsError :=
  let tcb_info := find_first (λ e, bool_decide (extn_id e = DICE_TCB_INFO)) (cert_extensions platform) ≫= λ e, dice_fwids (extn_value e) in
  match basic_constraints (tbs_certificate platform), tcb_info with
  | Some (Some false), Some (Some (_ :: _)) => Ok ()
  | _, _ => Err (InvalidCertificate InvalidPurpose)
  end.

(** [spki_key]. *)
Definition spki_key (c : Certificate) : result (list byte) RustlsError :=
  let key := subject_public_key (subject_public_key_info (tbs_certificate c)) in
  if negb (length key =? 32)%nat then Err bad_signature
  else if ed25519_key_ok key then Ok key else Err bad_signature.

(** The loop over the extensions of [verify_vouched_cert]. *)
Fixpoint find_voucher (l : list Extension) (voucher : option (list byte)) : result (option (list byte)) RustlsError :=
  match l with
  | [] => Ok voucher
  | e :: l =>
    if bool_decide (extn_id e = VOUCHER_OID) then find_voucher l (Some (extn_value e))
    else if critical e then Err (InvalidCertificate InvalidPurpose)
    else find_voucher l voucher
  end.

(** [verify_vouched_cert]. *)
Definition verify_vouched_cert (cert platform : list byte) : result () RustlsError :=
  let? cert := certificate cert in
  let? platform := certificate platform in
  let? _ := verify_vouching_cert platform in
  let? voucher := find_voucher (cert_extensions cert) None in
  let? voucher := ok_or voucher bad_signature in
  let? digest := map_err (λ _, bad_encoding) (voucher_digest (subject_public_key_info (tbs_certificate cert))) in
  let? signature := ok_or (ed25519_from_slice voucher) bad_signature in
  let? key := spki_key platform in
  if ed25519_verify_strict key digest signature then Ok () else Err bad_signature.

(** [PlatformVerifier::verify_server_cert]. *)
Definition verify_server_cert (end_entity : list byte) (intermediates : list (list byte)) : result () RustlsError :=
  match intermediates with
  | [] => Err (InvalidCertificate UnknownIssuer)
  | platform :: rest =>
    let? _ := inner_cert platform rest in
    verify_vouched_cert end_entity platform
  end.

(** [PlatformVerifier::verify_tls13_signature]. *)
Definition verify_tls13_signature (message cert : list byte) (scheme : SignatureScheme) (signature : list byte) :
    result () RustlsError :=
  match scheme with
  | SchemeEd25519 =>
    let? cert := certificate cert in
    let? signature := ok_or (ed25519_from_slice signature) bad_signature in
    let? key := spki_key cert in
    if ed25519_verify_strict key message signature then Ok () else Err bad_signature
  | _ => inner_signature message cert scheme signature
  end.
End verifier.

(** ** Scoped URLs *)

(** [ProxyTlsError], as far as these make it. *)
Inductive ProxyTlsError := PtUrl (url : string) | PtInterface (name : string).

Definition SCOPED_HOST : string := "link-local.sush".

(** [str::find] of a character, [str::get] of a range. *)
Fixpoint find_char (c : Ascii.ascii) (s : string) : option nat :=
  match s with
  | EmptyString => None
  | String d s => if Ascii.eqb c d then Some O else S <$> find_char c s
  end.
Definition get_range (s : string) (first last : nat) : option string :=
  if (first <=? last)%nat && (last <=? String.length s)%nat then Some (String.substring first (last - first) s) else None.
Definition from_index (s : string) (first : nat) : string := String.substring first (String.length s - first) s.

(** [strip_prefix("25")], kept when something is left. *)
Definition zone_name (zone : string) : string :=
  match strip_prefix "25" zone with Some (String c z) => String c z | _ => zone end.

Definition slash_char : Ascii.ascii := Ascii.ascii_of_N 47.
Definition question_char : Ascii.ascii := Ascii.ascii_of_N 63.
Definition percent_char : Ascii.ascii := Ascii.ascii_of_N 37.
Definition open_bracket : Ascii.ascii := Ascii.ascii_of_N 91.
Definition close_bracket : Ascii.ascii := Ascii.ascii_of_N 93.

(** What comes before the first [/] or [?]. *)
Fixpoint before_path (s : string) : string :=
  match s with
  | EmptyString => EmptyString
  | String c s => if Ascii.eqb c slash_char || Ascii.eqb c question_char then EmptyString else String c (before_path s)
  end.

Section urls.
Context (if_nametoindex : string → N) (url_parses : string → bool).

(** The zone of [split_zone]; zone 0 is none. *)
Definition zone_scope (url zone : string) : result N ProxyTlsError :=
  match uint_from_str (2 ^ 32) zone with
  | Some scope => if scope =? 0 then Err (PtUrl url) else Ok scope
  | None =>
    if all_chars (λ c, negb (Ascii.eqb c (Ascii.ascii_of_N 0))) zone then
      let scope := if_nametoindex zone in
      if scope =? 0 then Err (PtInterface zone) else Ok scope
    else Err (PtUrl url)
  end.

(** The port of [split_zone]. *)
Definition zone_port (url scheme rest : string) : result N ProxyTlsError :=
  match strip_prefix ":" rest with
  | Some r => ok_or (uint_from_str (2 ^ 16) (before_path r)) (PtUrl url)
  | None => Ok (match strip_prefix "http:" scheme with Some _ => 80 | None => 443 end)
  end.

(** [split_zone]. *)
Definition split_zone (url : string) : result (string * option SocketAddrV6) ProxyTlsError :=
  match find_char open_bracket url, find_char close_bracket url with
  | Some op, Some close =>
    match get_range url (op + 1) close ≫= split_once percent_char with
    | Some (addr, zone) =>
      let zone := zone_name zone in
      let? ip := ok_or (ipv6_from_str addr) (PtUrl url) in
      let? scope := zone_scope url zone in
      let scheme := String.substring 0 op url in
      let rest := from_index url (close + 1) in
      let? port := zone_port url scheme rest in
      Ok (scheme +:+ SCOPED_HOST +:+ rest, Some (mkV6 ip port 0 scope))
    | None => Ok (url, None)
    end
  | _, _ => Ok (url, None)
  end.

(** [descope_url]. *)
Definition descope_url (url : string) : result (string * option SocketAddrV6) ProxyTlsError :=
  let? (descoped, resolve) := split_zone url in
  if url_parses descoped then Ok (descoped, resolve) else Err (PtUrl url).
End urls.
