(* ===== verification/ProxyTlsFacts.v ===== *)
(** * Which proxies a client trusts

    Theorems about [ProxyTls.v]: exactly when a server certificate is accepted, that a
    certificate vouched for by a root of trust is, what vouchers are not signatures
    of, and exactly how a link-local URL is taken apart. *)
From S2P Require Import Prelude External Codephrases Hash Targets Keys Ssh Jobs Headers Certs Addresses Ephemeral EphemeralFacts ProxyTls.
Open Scope N_scope.

Section verifier.
Context `{!Sha3, !Pki, !Ssh, !X509}.

(** The vouchers among the extensions, the last of which counts. *)
Definition vouchers (l : list Extension) : list (list byte) :=
  omap (λ e, if bool_decide (extn_id e = VOUCHER_OID) then Some (extn_value e) else None) l.
Definition only_voucher_critical (l : list Extension) : Prop :=
  ∀ e, e ∈ l → critical e = true → extn_id e = VOUCHER_OID.

Lemma find_voucher_exact l v0 v :
  find_voucher l v0 = Ok v ↔ only_voucher_critical l ∧ v = match last (vouchers l) with Some x => Some x | None => v0 end.
Proof.
  revert v0. induction l as [|e l IH]; intros v0; cbn [find_voucher].
  - unfold only_voucher_critical. split; [intros [= ->]; split; [set_solver|done]|by intros [_ ->]].
  - unfold vouchers. cbn [omap list_omap]. fold (vouchers l). case_bool_decide as He.
    + rewrite IH. unfold only_voucher_critical. assert (Hl : last (extn_value e :: vouchers l) =
        match last (vouchers l) with Some x => Some x | None => Some (extn_value e) end)
        by (destruct (vouchers l) as [|x xs]; [done|]; rewrite last_cons_cons; by destruct (last_is_Some (x :: xs)) as [_ [? ->]]).
      setoid_rewrite elem_of_cons. rewrite Hl. split; intros [Hc ->]; (split; [|by destruct (last (vouchers l))]); naive_solver.
    + destruct (critical e) eqn:Ec.
      * split; [done|]. intros [Hc _]. exfalso. apply He, Hc; [by left|done].
      * rewrite IH. unfold only_voucher_critical. setoid_rewrite elem_of_cons. naive_solver congruence.
Qed.

(** A certificate that may vouch: not a CA's, with the measurements of a root of
    trust. *)
Definition may_vouch (c : Certificate) : Prop :=
  basic_constraints (tbs_certificate c) = Some (Some false) ∧
  ∃ e fwid fwids, find_first (λ e, bool_decide (extn_id e = DICE_TCB_INFO)) (cert_extensions c) = Some e ∧
    dice_fwids (extn_value e) = Some (Some (fwid :: fwids)).

Lemma verify_vouching_exact c u : verify_vouching_cert c = Ok u ↔ may_vouch c.
Proof.
  unfold verify_vouching_cert, may_vouch. split.
  - destruct (basic_constraints _) as [[[]|]|]; try done. destruct (find_first _ _) as [e|]; [|done]. cbn.
    destruct (dice_fwids _) as [[[|fwid fwids]|]|] eqn:E; naive_solver.
  - intros (->&e&fwid&fwids&->&He). cbn. rewrite He. by destruct u.
Qed.

Lemma spki_key_exact c key :
  spki_key c = Ok key ↔
  key = subject_public_key (subject_public_key_info (tbs_certificate c)) ∧ length key = 32%nat ∧ ed25519_key_ok key = true.
Proof.
  unfold spki_key. destruct (Nat.eqb_spec (length (subject_public_key (subject_public_key_info (tbs_certificate c)))) 32) as [E|E]; cbn [negb].
  - destruct (ed25519_key_ok _) eqn:Ek; naive_solver congruence.
  - naive_solver congruence.
Qed.

(** The digest of a voucher hashes the tag and the key's encoding. *)
Lemma voucher_digest_exact i d : voucher_digest i = Ok d ↔ ∃ der, spki_to_der i = Some der ∧ d = hash (voucher_preimage der).
Proof. unfold voucher_digest. destruct (spki_to_der i); naive_solver. Qed.

(** A certificate carries a voucher for its own key that [pcert]'s key signed. *)
Definition vouched_by (cert pcert : Certificate) : Prop :=
  ∃ voucher s der key,
    last (vouchers (cert_extensions cert)) = Some voucher ∧ ed25519_from_slice voucher = Some s ∧
    spki_to_der (subject_public_key_info (tbs_certificate cert)) = Some der ∧
    key = subject_public_key (subject_public_key_info (tbs_certificate pcert)) ∧
    length key = 32%nat ∧ ed25519_key_ok key = true ∧
    ed25519_verify_strict key (hash (voucher_preimage der)) s = true.

Lemma verify_vouched_exact end_entity platform :
  verify_vouched_cert end_entity platform = Ok () ↔
  ∃ cert pcert, certificate_from_der end_entity = Some cert ∧ certificate_from_der platform = Some pcert ∧
    may_vouch pcert ∧ only_voucher_critical (cert_extensions cert) ∧ vouched_by cert pcert.
Proof.
  unfold verify_vouched_cert, certificate.
  destruct (certificate_from_der end_entity) as [cert|] eqn:Ec; cbn [ok_or rbind]; [|naive_solver congruence].
  destruct (certificate_from_der platform) as [pcert|] eqn:Ep; cbn [ok_or rbind]; [|naive_solver congruence].
  transitivity (may_vouch pcert ∧ only_voucher_critical (cert_extensions cert) ∧ vouched_by cert pcert); [|naive_solver congruence].
  destruct (verify_vouching_cert pcert) as [[]|] eqn:Ev; cbn [rbind].
  2:{ split; [done|]. intros (Hm&_). apply (verify_vouching_exact pcert ()) in Hm. congruence. }
  apply verify_vouching_exact in Ev.
  destruct (find_voucher (cert_extensions cert) None) as [v|] eqn:Ef; cbn [rbind].
  2:{ split; [done|]. intros (_&Hc&_). assert (Hx := proj2 (find_voucher_exact (cert_extensions cert) None _) (conj Hc eq_refl)). congruence. }
  apply find_voucher_exact in Ef as [Hc ->]. unfold vouched_by.
  destruct (last (vouchers _)) as [voucher|]; cbn [ok_or rbind]; [|naive_solver].
  destruct (voucher_digest _) as [digest|] eqn:Ed; cbn [map_err rbind].
  2:{ split; [done|]. intros (_&_&voucher'&s&der&key&_&_&Hd&_). unfold voucher_digest in Ed. rewrite Hd in Ed. done. }
  apply voucher_digest_exact in Ed as (der&Hd&->).
  destruct (ed25519_from_slice voucher) as [s|] eqn:Es; cbn [ok_or rbind]; [|naive_solver congruence].
  destruct (spki_key pcert) as [key|] eqn:Ek; cbn [rbind].
  2:{ split; [done|]. intros (_&_&voucher'&s'&der'&key&_&_&_&Hp1&Hp2&Hp3&_).
      assert (Hx := proj2 (spki_key_exact pcert key) (conj Hp1 (conj Hp2 Hp3))). congruence. }
  apply spki_key_exact in Ek as (->&Hp1&Hp2). destruct (ed25519_verify_strict _ _ _) eqn:Es'; naive_solver congruence.
Qed.

Context (inner_cert : list byte → list (list byte) → result () RustlsError).

(** C29. A client talks to exactly the proxies that a root of trust vouches for.  The
    server's certificate is accepted if and only if the chain that comes with it
    starts with a platform certificate which the platform's verifier accepts, which is
    no CA's and carries measurements, and whose key signed, over the tag and the
    server's own public key, the last voucher among the server's extensions, none of
    which is critical otherwise. *)
Theorem server_accepted_exact end_entity intermediates :
  verify_server_cert inner_cert end_entity intermediates = Ok () ↔
  ∃ platform rest cert pcert,
    intermediates = platform :: rest ∧ inner_cert platform rest = Ok () ∧
    certificate_from_der end_entity = Some cert ∧ certificate_from_der platform = Some pcert ∧
    may_vouch pcert ∧ only_voucher_critical (cert_extensions cert) ∧ vouched_by cert pcert.
Proof.
  unfold verify_server_cert. destruct intermediates as [|platform rest]; [naive_solver|].
  destruct (inner_cert platform rest) as [[]|] eqn:Ei; cbn [rbind]; [|naive_solver congruence].
  rewrite verify_vouched_exact. naive_solver congruence.
Qed.
End verifier.

(** ** A proxy that is vouched for *)

Section vouched.
Context `{!Sha3, !Pki, !Ssh, !X509, !PrivateKeys}.

(** What [new_vouched] makes. *)
Lemma new_vouched_spec key draw subject validity vouch ek :
  new_vouched key draw subject validity vouch = Ok ek →
  ∃ der voucher, spki_to_der (spki key) = Some der ∧ vouch (hash (voucher_preimage der)) = Ok voucher ∧
    subject_public_key_info (tbs_certificate (ek_cert ek)) = spki key ∧
    cert_extensions (ek_cert ek) = [mkExtension VOUCHER_OID true voucher] ∧
    ek_key ek = key ∧ keeps ek ∧ signed_by (ek_cert ek) (public_key key).
Proof.
  unfold new_vouched. intros Hv. destruct (voucher_digest (spki key)) as [d|] eqn:Ed; [|done]. cbn [rbind] in Hv.
  apply voucher_digest_exact in Ed as (der&Hder&->).
  destruct (vouch _) as [voucher|] eqn:Ev; [|done]. cbn [map_err rbind] in Hv. unfold generate_serial_number in Hv.
  destruct (serial_ok draw); [|done]. cbn [rbind] in Hv. destruct (octet_string_ok voucher); [|done]. cbn [rbind] in Hv.
  set (t := mkTbs _ _ _ _ _ _ _) in Hv. destruct (tbs_to_der t) as [tder|] eqn:Et; [|done]. cbn [ok_or rbind] in Hv.
  destruct (to_bit_string _) as [sig|] eqn:Es; [|done]. cbn [rbind] in Hv.
  apply with_cert_keeps in Hv as (Hk&Hc&Hkeep); [|by apply cert_of_own]. exists der, voucher.
  unfold cert_extensions. rewrite Hc, cert_of_tbs. split_and!; [done..|]. by eapply signed_by_key.
Qed.

Context (inner_cert : list byte → list (list byte) → result () RustlsError)
  (inner_signature : list byte → list byte → SignatureScheme → list byte → result () RustlsError).

(** C12. The vouched proxy is trusted.  When the root of trust whose platform certificate
    heads the chain signs the voucher of a new key, a client accepts the certificate
    that is made for the key; and it accepts the handshakes that an Ed25519 key signs. *)
Theorem vouched_proxy_accepted key draw subject validity authority ek der platform pcert rest :
  new_vouched key draw subject validity (λ digest, Ok (ed25519_to_bytes (ed25519_sign authority digest))) = Ok ek →
  certificate_to_der (ek_cert ek) = Some der →
  inner_cert platform rest = Ok () → certificate_from_der platform = Some pcert → may_vouch pcert →
  subject_public_key (subject_public_key_info (tbs_certificate pcert)) = ed25519_public authority →
  verify_server_cert inner_cert der (platform :: rest) = Ok () ∧
  ∀ k message, key = SkEd k →
    verify_tls13_signature inner_signature message der SchemeEd25519 (ed25519_to_bytes (ed25519_sign k message)) = Ok ().
Proof.
  intros Hnew Hder%certificate_der_roundtrip Hin Hp Hm Hkey.
  apply new_vouched_spec in Hnew as (spki_der&voucher&Hs&[= <-]&Hi&Hx&_&_&_). split.
  - unfold verify_server_cert. rewrite Hin. cbn [rbind]. apply verify_vouched_exact.
    exists (ek_cert ek), pcert. split_and!; [done..| |].
    + rewrite Hx. intros e ->%list_elem_of_singleton. done.
    + eexists _, _, _, (ed25519_public authority). rewrite Hx. split_and!; [done|apply ed25519_bytes_back|by rewrite Hi|done|..].
      * apply ed25519_public_length.
      * apply ed25519_public_ok.
      * apply ed25519_signed_strict.
  - intros k message ->. cbn [verify_tls13_signature]. unfold certificate. rewrite Hder. cbn [ok_or rbind].
    rewrite ed25519_bytes_back. cbn [ok_or rbind].
    rewrite (proj2 (spki_key_exact (ek_cert ek) (ed25519_public k))); [cbn [rbind]; by rewrite ed25519_signed_strict|].
    rewrite Hi. split_and!; [done|apply ed25519_public_length|apply ed25519_public_ok].
Qed.

(** A voucher is a signature of nothing else: what it signs is no DER certificate, and
    is not the material of a job, a session or a bound request. *)
Lemma voucher_domain_separated spki_der name :
  N.of_nat (length name) < 2 ^ 56 →
  (∀ rest, voucher_preimage spki_der ≠ x30 :: rest) ∧
  ∀ fields, voucher_preimage spki_der ≠ inner (foldl (λ h f, tbs_field h f.1 f.2) (tbs_new name) fields).
Proof.
  intros Hn. split; [done|]. intros fields.
  assert (Hp : ∀ l h, inner (foldl (λ h f, tbs_field h f.1 f.2) h l) = inner h ++ frames (flat_map (λ f, [f.1; f.2]) l)).
  { induction l as [|f l IH]; intros h; cbn [foldl flat_map]; [unfold frames; cbn; by rewrite app_nil_r|].
    rewrite IH, inner_tbs_field, <- app_assoc, <- frames_app. done. }
  rewrite Hp, inner_tbs_new. unfold frames at 1. cbn [map concat]. unfold frame. intros E.
  apply (f_equal head) in E. cbn [be_bytes app head voucher_preimage VOUCHER_TAG] in E.
  injection E as E. apply (f_equal Byte.to_N) in E. rewrite to_N_byte_of_N, !N.Div0.div_div, N.div_small in E by done. done.
Qed.
End vouched.
