(* ===== verification/ScopedUrls.v ===== *)
(** * Link-local URLs

    Theorems about [split_zone] of [ProxyTls.v], with lemmas on the standard library's
    string functions: [find], [get] of a range, [split_once]. *)
From S2P Require Import Prelude External Codephrases Targets Headers Addresses ProxyTls.
Open Scope N_scope.

Abbreviation without c s := (all_chars (λ d, negb (Ascii.eqb c d)) s = true).

Lemma string_app_nil_l s : EmptyString +:+ s = s.
Proof. done. Qed.
Create Rewrite HintDb strings.
#[local] Hint Rewrite string_app_nil_l string_app_cons string_app_nil_r Ascii.eqb_refl : strings.
Local Ltac strings := autorewrite with strings; cbn [find_char all_chars split_once String.length String.substring Nat.add]; autorewrite with strings.

Lemma find_char_app c pre post : without c pre → find_char c (pre +:+ String c post) = Some (String.length pre).
Proof.
  induction pre as [|d pre IH]; strings; [done|].
  intros [Hd Hp]%andb_prop. apply negb_true_iff in Hd. rewrite Hd. by rewrite IH.
Qed.

Lemma find_char_Some c s n :
  find_char c s = Some n → ∃ pre post, s = pre +:+ String c post ∧ String.length pre = n ∧ without c pre.
Proof.
  revert n. induction s as [|d s IH]; intros n; cbn; [done|]. destruct (Ascii.eqb c d) eqn:E.
  - intros [= <-]. apply Ascii.eqb_eq in E as ->. by exists EmptyString, s.
  - destruct (find_char c s) as [m|]; [|done]. intros [= <-]. destruct (IH m eq_refl) as (pre&post&->&<-&Hp).
    exists (String d pre), post. split; [done|]. split; [done|]. cbn. by rewrite E.
Qed.

Lemma split_once_Some c s l r : split_once c s = Some (l, r) → s = l +:+ String c r ∧ without c l.
Proof.
  revert l. induction s as [|d s IH]; intros l; cbn [split_once]; [done|]. destruct (Ascii.eqb d c) eqn:E.
  - intros [= <- <-]. by apply Ascii.eqb_eq in E as ->.
  - destruct (split_once c s) as [[l' r']|]; [|done]. intros [= <- <-]. destruct (IH l' eq_refl) as [-> Hl].
    split; [done|]. cbn. by rewrite Ascii.eqb_sym, E.
Qed.

Lemma split_once_without c l r : without c l → split_once c (l +:+ String c r) = Some (l, r).
Proof.
  induction l as [|d l IH]; strings; [done|].
  intros [Hd Hl]%andb_prop. apply negb_true_iff in Hd. rewrite Ascii.eqb_sym, Hd. by rewrite IH.
Qed.

Lemma substring_skip pre s n : String.substring (String.length pre) n (pre +:+ s) = String.substring 0 n s.
Proof. induction pre as [|d pre IH]; strings; done. Qed.
Lemma substring_all s t : String.substring 0 (String.length s) (s +:+ t) = s.
Proof. induction s as [|d s IH]; strings; [by destruct t|]. by rewrite IH. Qed.
Lemma string_length_app s t : String.length (s +:+ t) = (String.length s + String.length t)%nat.
Proof. induction s as [|d s IH]; strings; [done|]. by rewrite IH. Qed.
Lemma from_index_app pre s : from_index (pre +:+ s) (String.length pre) = s.
Proof.
  unfold from_index. rewrite substring_skip, string_length_app, Nat.add_comm, Nat.add_sub.
  rewrite <- (string_app_nil_r s) at 2. apply substring_all.
Qed.
Lemma get_range_app pre s post :
  get_range (pre +:+ s +:+ post) (String.length pre) (String.length pre + String.length s) = Some s.
Proof.
  unfold get_range. rewrite !string_length_app, (proj2 (Nat.leb_le _ _)), (proj2 (Nat.leb_le _ _)) by lia. cbn [andb].
  rewrite substring_skip, Nat.add_comm, Nat.add_sub. by rewrite substring_all.
Qed.

Lemma string_app_inj a b c d : String.length a = String.length c → a +:+ b = c +:+ d → a = c ∧ b = d.
Proof.
  revert c. induction a as [|x a IH]; intros [|y c]; try done. strings. intros [= Hl] [= -> E].
  destruct (IH c Hl E) as [-> ->]. done.
Qed.

Lemma string_cut n s : (n <= String.length s)%nat → ∃ x y, s = x +:+ y ∧ String.length x = n.
Proof.
  revert s. induction n as [|n IH]; intros s Hn; [by exists EmptyString, s|].
  destruct s as [|c s]; cbn in Hn; [lia|]. destruct (IH s) as (x&y&->&<-); [lia|].
  exists (String c x), y. by rewrite string_app_cons.
Qed.

Lemma get_range_Some s a b m :
  get_range s a b = Some m → ∃ x y, s = x +:+ m +:+ y ∧ String.length x = a ∧ b = (a + String.length m)%nat.
Proof.
  unfold get_range. destruct (Nat.leb_spec a b); [|done]. destruct (Nat.leb_spec b (String.length s)); [|done]. cbn [andb].
  destruct (string_cut a s) as (x&s'&->&<-); [lia|]. rewrite string_length_app in *.
  destruct (string_cut (b - String.length x) s') as (m'&y&->&Hm); [lia|].
  rewrite substring_skip, <- Hm, substring_all. intros [= <-]. exists x, y. split_and!; [done|done|lia].
Qed.

Lemma without_app c s t : without c (s +:+ t) ↔ without c s ∧ without c t.
Proof. rewrite all_chars_app, andb_true_iff. done. Qed.

Definition bracketed (scheme host zone rest : string) : string :=
  scheme +:+ String open_bracket ((host +:+ String percent_char zone) +:+ String close_bracket rest).

(** The parts of a URL with a zone. *)
Lemma zone_parts url op close addr zone :
  find_char open_bracket url = Some op → find_char close_bracket url = Some close →
  get_range url (op + 1) close ≫= split_once percent_char = Some (addr, zone) →
  ∃ scheme rest, url = bracketed scheme addr zone rest ∧
    without open_bracket scheme ∧ without close_bracket scheme ∧ without close_bracket addr ∧ without percent_char addr ∧
    without close_bracket zone ∧
    String.substring 0 op url = scheme ∧ from_index url (close + 1) = rest.
Proof.
  intros (scheme&post&Eu&<-&Hs)%find_char_Some (pre&rest&Eu'&<-&Hp)%find_char_Some.
  destruct (get_range url _ _) as [m|] eqn:Eg; [|done]. cbn [mbind option_bind]. intros (->&Ha)%split_once_Some.
  apply get_range_Some in Eg as (x&y&Ex&Hx&Hl).
  assert (x = scheme +:+ String open_bracket EmptyString ∧ (addr +:+ String percent_char zone) +:+ y = post) as [-> <-].
  { apply string_app_inj; [by rewrite string_length_app|]. by rewrite <- Ex, <- (string_app_assoc scheme), string_app_cons. }
  assert (pre = (scheme +:+ String open_bracket EmptyString) +:+ (addr +:+ String percent_char zone) ∧ String close_bracket rest = y) as [-> <-].
  { apply string_app_inj; [rewrite string_length_app; lia|]. rewrite <- Eu', Ex. by rewrite string_app_assoc. }
  exists scheme, rest. rewrite !without_app in Hp. destruct Hp as [[Hp1 _] [Hp2 Hp3]]. cbn [all_chars] in Hp3.
  apply andb_prop in Hp3 as [_ Hp3]. split_and!; try done.
  - rewrite Eu. apply substring_all.
  - rewrite Eu'. change (String close_bracket rest) with (String close_bracket EmptyString +:+ rest).
    rewrite (string_app_assoc _ (String close_bracket EmptyString)).
    replace (String.length _ + 1)%nat with (String.length (((scheme +:+ String open_bracket EmptyString) +:+ (addr +:+ String percent_char zone)) +:+ String close_bracket EmptyString))
      by (by rewrite string_length_app). apply from_index_app.
Qed.

Lemma uint_from_str_lt limit s n : 0 < limit → uint_from_str limit s = Some n → n < limit.
Proof.
  intros Hl. assert (Hd : ∀ s acc, acc < limit → parse_digits limit s acc = Some n → n < limit).
  { clear s. induction s as [|c s IH]; intros acc Ha; cbn [parse_digits]; [by intros [= <-]|].
    destruct (is_digit c); [|done]. destruct (N.ltb_spec (acc * 10 + (Ascii.N_of_ascii c - 48)) limit); [by apply IH|done]. }
  destruct s as [|c s]; cbn [uint_from_str]; [done|]. destruct (Ascii.eqb c plus_char); [destruct s; [done|]|]; by apply Hd.
Qed.

Lemma split_bracketed if_nametoindex scheme addr zone rest :
  without open_bracket scheme → without close_bracket scheme → without close_bracket addr → without percent_char addr →
  without close_bracket zone →
  split_zone if_nametoindex (bracketed scheme addr zone rest) =
  (let? ip := ok_or (ipv6_from_str addr) (PtUrl (bracketed scheme addr zone rest)) in
   let? scope := zone_scope if_nametoindex (bracketed scheme addr zone rest) (zone_name zone) in
   let? port := zone_port (bracketed scheme addr zone rest) scheme rest in
   Ok (scheme +:+ SCOPED_HOST +:+ rest, Some (mkV6 ip port 0 scope)))%rust.
Proof.
  intros Hs1 Hs2 Ha1 Ha2 Hz. set (url := bracketed scheme addr zone rest).
  assert (Eo : find_char open_bracket url = Some (String.length scheme)) by (by apply find_char_app).
  set (pre := scheme +:+ String open_bracket (addr +:+ String percent_char zone)).
  assert (Eu : url = pre +:+ String close_bracket rest).
  { unfold url, pre, bracketed. by rewrite <- (string_app_assoc scheme), string_app_cons. }
  assert (Ec : find_char close_bracket url = Some (String.length pre)).
  { rewrite Eu. apply find_char_app. unfold pre. rewrite without_app. cbn [all_chars]. split; [done|].
    apply andb_true_intro. split; [done|]. rewrite without_app. by split. }
  assert (Eg : get_range url (String.length scheme + 1) (String.length pre) = Some (addr +:+ String percent_char zone)).
  { pose proof (get_range_app (scheme +:+ String open_bracket EmptyString) (addr +:+ String percent_char zone)
      (String close_bracket rest)) as Hg.
    rewrite <- (string_app_assoc scheme), string_app_cons in Hg. change (get_range url) with (get_range (bracketed scheme addr zone rest)). unfold bracketed. rewrite <- Hg.
    unfold pre. rewrite !string_length_app. cbn [String.length]. rewrite !string_length_app. cbn [String.length]. f_equal; lia. }
  assert (Er : from_index url (String.length pre + 1) = rest).
  { rewrite Eu. change (String close_bracket rest) with (String close_bracket EmptyString +:+ rest).
    rewrite string_app_assoc. replace (String.length pre + 1)%nat with (String.length (pre +:+ String close_bracket EmptyString))
      by (by rewrite string_length_app). apply from_index_app. }
  assert (Es : String.substring 0 (String.length scheme) url = scheme) by apply substring_all.
  unfold split_zone. rewrite Eo, Ec, Eg. cbn [mbind option_bind]. rewrite split_once_without by done. by rewrite Er, Es.
Qed.

(** The parts of a scoped URL and what becomes of them. *)
Definition scoped (if_nametoindex : string → N) (url u : string) (a : SocketAddrV6) : Prop :=
  ∃ scheme addr zone rest ip scope port,
    url = bracketed scheme addr zone rest ∧
    without open_bracket scheme ∧ without close_bracket scheme ∧ without close_bracket addr ∧
    without percent_char addr ∧ without close_bracket zone ∧
    ipv6_from_str addr = Some ip ∧ zone_scope if_nametoindex url (zone_name zone) = Ok scope ∧
    zone_port url scheme rest = Ok port ∧
    u = scheme +:+ SCOPED_HOST +:+ rest ∧ a = mkV6 ip port 0 scope.

Lemma split_zone_scoped if_nametoindex url u a : split_zone if_nametoindex url = Ok (u, Some a) ↔ scoped if_nametoindex url u a.
Proof.
  split.
  - unfold split_zone. destruct (find_char open_bracket url) as [op|] eqn:Eo; [|done].
    destruct (find_char close_bracket url) as [close|] eqn:Ec; [|done].
    destruct (get_range _ _ _ ≫= _) as [[addr zone]|] eqn:Eg; [|done].
    destruct (zone_parts _ _ _ _ _ Eo Ec Eg) as (scheme&rest&Eu&Hs1&Hs2&Ha1&Ha2&Hz&->&->). intros E.
    destruct (ipv6_from_str addr) as [ip|] eqn:Ei; [|done]. cbn [ok_or rbind] in E.
    destruct (zone_scope _ _ _) as [scope|] eqn:Ez; [|done]. cbn [rbind] in E.
    destruct (zone_port _ _ _) as [port|] eqn:Ep; [|done]. injection E as <- <-.
    by exists scheme, addr, zone, rest, ip, scope, port.
  - intros (scheme&addr&zone&rest&ip&scope&port&->&Hs1&Hs2&Ha1&Ha2&Hz&Hip&Hscope&Hport&->&->).
    rewrite split_bracketed by done. by rewrite Hip, Hscope, Hport.
Qed.

Lemma zone_scope_nonzero if_nametoindex url zone scope : zone_scope if_nametoindex url zone = Ok scope → scope ≠ 0.
Proof.
  unfold zone_scope. destruct (uint_from_str _ _) as [n|].
  - destruct (N.eqb_spec n 0); [done|]. by intros [= <-].
  - destruct (all_chars _ _); [|done]. destruct (N.eqb_spec (if_nametoindex zone) 0); [done|]. by intros [= <-].
Qed.

Lemma zone_port_bound url scheme rest port : zone_port url scheme rest = Ok port → port < 2 ^ 16.
Proof.
  unfold zone_port. destruct (strip_prefix ":" rest) as [r|].
  - destruct (uint_from_str _ _) as [n|] eqn:En; [|done]. intros [= <-]. by apply (uint_from_str_lt (2 ^ 16)) in En.
  - destruct (strip_prefix "http:" scheme); intros [= <-]; done.
Qed.

(** A link-local URL is taken apart as written.  A URL is scoped exactly when it has
    the form [scheme\[addr%zone\]rest], with [addr] an IPv6 address, [zone] an index
    or the name of an interface and [rest] with a port or without: then the host is
    the placeholder, and the address is [addr] with that zone and port, which is never
    zone 0 and by default 443, or 80 after [http:].  Any other URL is left as it is. *)
Theorem scoped_url_exact if_nametoindex url u a :
  (split_zone if_nametoindex url = Ok (u, Some a) ↔ scoped if_nametoindex url u a) ∧
  (split_zone if_nametoindex url = Ok (u, Some a) → v6_scope a ≠ 0 ∧ v6_port a < 2 ^ 16) ∧
  (split_zone if_nametoindex url = Ok (u, None) → u = url).
Proof.
  split; [apply split_zone_scoped|]. split.
  - intros (scheme&addr&zone&rest&ip&scope&port&_&_&_&_&_&_&_&Hscope&Hport&_&->)%split_zone_scoped. cbn [v6_scope v6_port].
    split; [by eapply zone_scope_nonzero|by eapply zone_port_bound].
  - unfold split_zone. destruct (find_char _ _); [|by intros [= <-]]. destruct (find_char close_bracket _); [|by intros [= <-]].
    destruct (_ ≫= _) as [[addr zone]|]; [|by intros [= <-]]. intros E. exfalso.
    destruct (ipv6_from_str addr); [|done]. cbn [ok_or rbind] in E. destruct (zone_scope _ _ _); [|done]. cbn [rbind] in E.
    destruct (zone_port _ _ _); done.
Qed.
