(* ===== verification/Tunnel.v ===== *)
(** * Tunnels through Nexus ([client/src/tunnel.rs])

    Where a tunnel goes and how it authenticates, probing the path, and the relay of
    one connection.  The URI parser, PEM files, sockets, TLS and the WebSocket
    handshake are parameters. *)
From S2P Require Import Prelude External Codephrases Targets Headers Addresses.
#[local] Set Warnings "-register-all".
Open Scope N_scope.
Open Scope rust_scope.

(** [TunnelError]. *)
Inductive TunnelError :=
| TnListen (error : string)
| TnNexusUrl (url reason : string)
| TnRoot (path error : string)
| TnRootPem (path : string)
| TnMissingRoots
| TnProbe (error : string).

(** [http::Uri], as far as it is read. *)
Record Uri := mkUri { uri_scheme : option string; uri_host : option string; uri_port : option N }.

Definition is_alphanumeric (c : Ascii.ascii) : bool :=
  let n := Ascii.N_of_ascii c in
  ((48 <=? n) && (n <=? 57)) || ((65 <=? n) && (n <=? 90)) || ((97 <=? n) && (n <=? 122)).
Definition rack_char (c : Ascii.ascii) : bool := is_alphanumeric c || Ascii.eqb c separator_char.

(** [trim_start_matches], [trim_end_matches] of a character. *)
Fixpoint trim_start_char (c : Ascii.ascii) (s : string) : string :=
  match s with String d rest => if Ascii.eqb c d then trim_start_char c rest else s | EmptyString => EmptyString end.
Definition trim_end_char (c : Ascii.ascii) (s : string) : string := str_rev (trim_start_char c (str_rev s)).
Definition bracket_open : Ascii.ascii := Ascii.ascii_of_N 91.
Definition bracket_close : Ascii.ascii := Ascii.ascii_of_N 93.

Section tunnel.
Context {Der : Type} (parse_uri : string → option Uri) (uri_parses : string → bool)
  (read : string → result (list byte) string) (load_pem_chain : list byte → option (list Der)) (store_add : Der → bool).

(** [Target]; [tg_tls] holds the roots of its connector. *)
Record Target := mkTarget {
  tg_host : string;
  tg_port : N;
  tg_resolve : option SocketAddr;
  tg_uri : string;
  tg_token : string;
  tg_tls : option (list Der);
}.

(** The roots of one file, and of all. *)
Definition root_certificates (path : string) : result (list Der) TunnelError :=
  let? pem := map_err (TnRoot path) (read path) in
  let? certs := ok_or (load_pem_chain pem) (TnRootPem path) in
  if forallb store_add certs then Ok certs else Err (TnRootPem path).
Fixpoint root_store (paths : list string) : result (list Der) TunnelError :=
  match paths with
  | [] => Ok []
  | path :: paths =>
    let? certs := root_certificates path in
    let? rest := root_store paths in
    Ok (certs ++ rest)
  end.

Definition tunnel_path (rack_id : string) : string :=
  "/v1/system/hardware/racks/" +:+ rack_id +:+ "/support-shell/tunnel".
Definition contains_colon (s : string) : bool := negb (all_chars (λ c, negb (Ascii.eqb c colon_char)) s).
Definition host_authority (host : string) : string := if contains_colon host then "[" +:+ host +:+ "]" else host.

(** [target]. *)
Definition target (nexus rack_id token : string) (roots : list string) (resolve : option SocketAddr) : result Target TunnelError :=
  let invalid reason := TnNexusUrl nexus reason in
  let? uri := ok_or (parse_uri nexus) (invalid "unparseable") in
  let? secure :=
    match uri_scheme uri with
    | None => Ok true
    | Some scheme =>
      if bool_decide (scheme = "https") then Ok true
      else if bool_decide (scheme = "http") then Ok false
      else Err (invalid "scheme must be http or https")
    end in
  let? raw := ok_or (uri_host uri) (invalid "no host") in
  let host := trim_end_char bracket_close (trim_start_char bracket_open raw) in
  let port := default (if secure then 443 else 80) (uri_port uri) in
  if negb (all_chars rack_char rack_id) then Err (invalid "bad rack id")
  else
    let uri := (if secure then "wss" else "ws") +:+ "://" +:+ host_authority host +:+ ":" +:+ uint_to_string port +:+ tunnel_path rack_id in
    if negb (uri_parses uri) then Err (invalid "bad rack id")
    else
      let? tls :=
        (if secure then
           match roots with [] => Err TnMissingRoots | _ => let? store := root_store roots in Ok (Some store) end
         else Ok None) in
      Ok (mkTarget host port resolve uri token tls).

(** [dial] and what is done with the connection: [connect] tells how TCP toward the
    address or the host and port went, in time; TLS is started with the roots and the
    host's name, and the handshake sends the token to the URI. *)
Context {Tcp Tls WebSocket : Type} (connect : option SocketAddr → string → N → option (result Tcp string))
  (tls_connect : list Der → string → Tcp → result Tls string) (server_name : string → result string string)
  (handshake : string → string → Tcp + Tls → result WebSocket string).

Definition dial (t : Target) : result Tcp string :=
  match connect (tg_resolve t) (tg_host t) (tg_port t) with
  | Some (Ok tcp) => Ok tcp
  | Some (Err error) => Err error
  | None => Err "connect timed out"
  end.

(** The common part of [probe] and [forward]: a WebSocket to Nexus. *)
Definition open_socket (t : Target) : result WebSocket string :=
  let? tcp := dial t in
  match tg_tls t with
  | Some roots =>
    let? name := server_name (tg_host t) in
    let? stream := tls_connect roots name tcp in
    handshake (tg_uri t) ("Bearer " +:+ tg_token t) (inr stream)
  | None => handshake (tg_uri t) ("Bearer " +:+ tg_token t) (inl tcp)
  end.
Definition probe (t : Target) : result () string := let? _ := open_socket t in Ok ().

(** [Tunnel::start], up to the loop that accepts connections: its URL. *)
Definition tunnel_start (listen : result string string) (nexus rack_id token : string) (roots : list string)
    (resolve : option SocketAddr) : result (string * Target) TunnelError :=
  let? t := target nexus rack_id token roots resolve in
  let? _ := map_err TnProbe (probe t) in
  let? addr := map_err TnListen listen in
  Ok ("https://" +:+ addr, t).
End tunnel.
Arguments mkTarget {Der} _ _ _ _ _ _.
Arguments tg_host {Der} _.
Arguments tg_port {Der} _.
Arguments tg_resolve {Der} _.
Arguments tg_uri {Der} _.
Arguments tg_token {Der} _.
Arguments tg_tls {Der} _.

(** ** The relay of a connection ([pipe]) *)

(** What arrives: a message of the WebSocket, bytes or the end of the connection, a
    tick of the keep-alive timer; with whether what is sent on arrives. *)
Inductive WsMessage := WsBinary (data : list byte) | WsClose | WsError | WsOther.
Inductive PipeEvent :=
| PeMessage (m : option WsMessage) (written : bool)
| PeRead (read : option (list byte)) (sent : bool)
| PeTick (sent : bool).

(** What was written to the connection and sent to the WebSocket, and whether each
    has been shut. *)
Inductive PipeSent := PsBinary (data : list byte) | PsPing | PsClose.
Record Pipe := mkPipe { pp_written : list byte; pp_sent : list PipeSent; pp_over : bool; pp_shut : bool }.
Definition pipe_new : Pipe := mkPipe [] [] false false.

(** One turn of [inbound] or [outbound]; [read] of 0 bytes is the end. *)
Definition pipe_turn (p : Pipe) (e : PipeEvent) : Pipe :=
  if pp_over p then p
  else
    let shut := mkPipe (pp_written p) (pp_sent p) true true in
    let close := mkPipe (pp_written p) (pp_sent p ++ [PsClose]) true (pp_shut p) in
    match e with
    | PeMessage (Some (WsBinary data)) written =>
      if written then mkPipe (pp_written p ++ data) (pp_sent p) false false else shut
    | PeMessage (Some WsOther) _ => p
    | PeMessage _ _ => shut
    | PeRead None _ | PeRead (Some []) _ => close
    | PeRead (Some data) sent => if sent then mkPipe (pp_written p) (pp_sent p ++ [PsBinary data]) false false else close
    | PeTick sent => if sent then mkPipe (pp_written p) (pp_sent p ++ [PsPing]) false false else close
    end.
Definition pipe (l : list PipeEvent) : Pipe := foldl pipe_turn pipe_new l.

(** ** Facts *)

Section facts.
Context {Der : Type} (parse_uri : string → option Uri) (uri_parses : string → bool)
  (read : string → result (list byte) string) (load_pem_chain : list byte → option (list Der)) (store_add : Der → bool).

Lemma root_store_spec paths certs :
  root_store read load_pem_chain store_add paths = Ok certs →
  ∀ c, c ∈ certs → ∃ path pem chain, path ∈ paths ∧ read path = Ok pem ∧ load_pem_chain pem = Some chain ∧ c ∈ chain ∧ store_add c = true.
Proof.
  revert certs. induction paths as [|path paths IH]; intros certs; cbn [root_store]; [intros [= <-]; set_solver|].
  unfold root_certificates. destruct (read path) as [pem|] eqn:Er; [|done]. cbn [map_err rbind].
  destruct (load_pem_chain pem) as [chain|] eqn:El; [|done]. cbn [ok_or rbind].
  destruct (forallb store_add chain) eqn:Ef; [|done]. cbn [rbind]. destruct (root_store _ _ _ paths) as [rest|]; [|done].
  intros [= <-] c [Hc|Hc]%elem_of_app.
  - exists path, pem, chain. rewrite forallb_forall in Ef. split_and!; [by left|done..|]. by apply Ef, list_elem_of_In.
  - destruct (IH rest eq_refl c Hc) as (path'&pem'&chain'&Hp&?). exists path', pem', chain'. split; [by right|done].
Qed.

Definition slash : Ascii.ascii := Ascii.ascii_of_N 47.

Lemma rack_no_slash s : all_chars rack_char s = true → all_chars (λ d, negb (Ascii.eqb d slash)) s = true.
Proof.
  induction s as [|d s IH]; cbn [all_chars]; [done|]. intros [Hd Hs]%andb_prop. rewrite IH by done. rewrite andb_true_r.
  destruct (Ascii.eqb_spec d slash) as [->|]; [by vm_compute in Hd|done].
Qed.

Lemma tunnel_segments rack_id :
  all_chars rack_char rack_id = true →
  split_on slash (tunnel_path rack_id) = [""; "v1"; "system"; "hardware"; "racks"; rack_id; "support-shell"; "tunnel"].
Proof.
  intros Hr. unfold tunnel_path.
  change ("/v1/system/hardware/racks/" +:+ rack_id +:+ "/support-shell/tunnel") with
    ("" +:+ String slash ("v1" +:+ String slash ("system" +:+ String slash ("hardware" +:+ String slash ("racks" +:+
      String slash (rack_id +:+ String slash ("support-shell" +:+ String slash "tunnel"))))))).
  rewrite !split_on_app by (done || by apply rack_no_slash). done.
Qed.

(** A tunnel goes where it was told, and keeps the token to itself.  A target that is
    made leads, by the scheme and at the port of the Nexus URL, to the tunnel of one
    rack: the rack's identifier is one segment of the path, whatever it is.  It is
    reached in the clear only when the URL's scheme is [http]; otherwise roots were
    given, and all that is trusted comes from their files. *)
Theorem tunnel_target_exact nexus rack_id token roots resolve t :
  target parse_uri uri_parses read load_pem_chain store_add nexus rack_id token roots resolve = Ok t →
  ∃ uri host, parse_uri nexus = Some uri ∧ uri_host uri = Some host ∧
    tg_token t = token ∧ tg_resolve t = resolve ∧
    tg_host t = trim_end_char bracket_close (trim_start_char bracket_open host) ∧
    (∃ scheme, tg_uri t = scheme +:+ "://" +:+ host_authority (tg_host t) +:+ ":" +:+ uint_to_string (tg_port t) +:+ tunnel_path rack_id ∧
       scheme = match tg_tls t with Some _ => "wss" | None => "ws" end) ∧
    tg_port t = default (match tg_tls t with Some _ => 443 | None => 80 end) (uri_port uri) ∧
    split_on slash (tunnel_path rack_id) = [""; "v1"; "system"; "hardware"; "racks"; rack_id; "support-shell"; "tunnel"] ∧
    match tg_tls t with
    | None => uri_scheme uri = Some "http"
    | Some certs =>
      (uri_scheme uri = None ∨ uri_scheme uri = Some "https") ∧ roots ≠ [] ∧
      ∀ c, c ∈ certs → ∃ path pem chain, path ∈ roots ∧ read path = Ok pem ∧ load_pem_chain pem = Some chain ∧ c ∈ chain
    end.
Proof.
  unfold target. destruct (parse_uri nexus) as [uri|]; [|done]. cbn [ok_or rbind]. intros Ht.
  set (sec := match uri_scheme uri with None => _ | Some _ => _ end) in Ht.
  assert (Hsec : ∀ b, sec = Ok b → if b then uri_scheme uri = None ∨ uri_scheme uri = Some "https" else uri_scheme uri = Some "http").
  { unfold sec. intros b. destruct (uri_scheme uri) as [s|]; [|intros [= <-]; by left].
    case_bool_decide; [intros [= <-]; subst; by right|]. case_bool_decide; [intros [= <-]; by subst|done]. }
  destruct sec as [secure|]; [|done]. specialize (Hsec secure eq_refl). cbn [rbind] in Ht.
  destruct (uri_host uri) as [host|] eqn:Ehost; [|done]. cbn [ok_or rbind] in Ht.
  destruct (all_chars rack_char rack_id) eqn:Erack; [|done]. cbn [negb] in Ht.
  destruct (uri_parses _); [|done]. cbn [negb] in Ht. exists uri, host.
  assert (Hpath : split_on slash (tunnel_path rack_id) = [""; "v1"; "system"; "hardware"; "racks"; rack_id; "support-shell"; "tunnel"]).
  { by apply tunnel_segments. }
  destruct secure.
  - destruct roots as [|r roots]; [done|]. destruct (root_store _ _ _ _) as [store|] eqn:Es; [|done]. injection Ht as <-.
    cbn [tg_token tg_resolve tg_host tg_uri tg_port tg_tls]. split_and!; try done; [by eexists|].
    intros c Hc. destruct (root_store_spec _ _ Es c Hc) as (path&pem&chain&?&?&?&?&_). by exists path, pem, chain.
  - injection Ht as <-. cbn [tg_token tg_resolve tg_host tg_uri tg_port tg_tls]. split_and!; try done. by eexists.
Qed.

(** What a pipe has relayed by the end of its events: of the messages and bytes before
    the first event that ends it, the data in their order. *)
Definition relayed_in (e : PipeEvent) : list byte :=
  match e with PeMessage (Some (WsBinary data)) true => data | _ => [] end.
Definition relayed_out (e : PipeEvent) : list byte :=
  match e with PeRead (Some data) true => data | _ => [] end.
Definition sent_data (s : PipeSent) : list byte := match s with PsBinary data => data | _ => [] end.

Lemma pipe_relays l :
  ∃ before after, l = before ++ after ∧
    (pp_written (pipe l) = flat_map relayed_in before ∧ flat_map sent_data (pp_sent (pipe l)) = flat_map relayed_out before) ∧
    if pp_over (pipe l) then after ≠ [] else after = [].
Proof.
  apply (relay_prefix pipe_turn pp_over (λ p before, pp_written p = flat_map relayed_in before ∧
    flat_map sent_data (pp_sent p) = flat_map relayed_out before)); [|clear l|done|done].
  - intros p e Hp. unfold pipe_turn. by rewrite Hp.
  - intros p l e Hp [Hw Hs]. unfold pipe_turn. rewrite Hp.
    destruct e as [[[data| | |]|] []|[[|b data]|] []|[]]; cbn [pp_over pp_written pp_sent];
      rewrite ?Hp, ?flat_map_app, ?Hw, ?Hs; cbn; rewrite ?app_nil_r; done.
Qed.
End facts.
