(* ===== verification/Config.v ===== *)
(** * The client's options ([client/src/config.rs], [repl.rs])

    How the options of a command cascade: the command line over the environment over
    the configuration file over the built-in defaults, with conflicts settled in
    favour of the stronger source, and how the REPL sets and unsets them.  Commands
    and their arguments are what clap's builder holds of them; clap's parser, the
    parser of TOML and the file system are parameters. *)
From stdpp Require Import pretty.
From S2P Require Import Prelude External Codephrases Hash Targets Keys Ssh Jobs Messages Headers.
From S2P Require Import Manager Output ClientErrors.
#[local] Set Warnings "-register-all".
Open Scope N_scope.
Open Scope rust_scope.

(** [toml::Value]; the entries of a table in the order they are visited. *)
Inductive TomlValue :=
| VString (s : string)
| VInteger (z : Z)
| VBoolean (b : bool)
| VArray (l : list TomlValue)
| VTable (t : list (string * TomlValue))
| VOther (shown : string).

(** [clap::Arg], as far as it is read: [ar_default] is empty without defaults. *)
Record Arg := mkArg {
  ar_id : string;
  ar_long : option string;
  ar_aliases : list string;
  ar_env : option string;
  ar_hide_env : bool;
  ar_takes_values : bool;
  ar_default : list string;
}.

(** [clap::Command]; [conflicts] lists the ids an argument declares itself to
    conflict with. *)
Inductive Command := mkCommand (args : list Arg) (conflicts : string → list string) (subcommands : list (string * Command)).

Definition command_args (c : Command) : list Arg := match c with mkCommand args _ _ => args end.
Definition subcommands (c : Command) : list (string * Command) := match c with mkCommand _ _ subs => subs end.
Definition conflicts_with (c : Command) (a : Arg) : list Arg :=
  match c with mkCommand args conflicts _ => filter (λ b, ar_id b ∈ conflicts (ar_id a)) args end.
Definition find_subcommand (c : Command) (name : string) : option Command :=
  snd <$> find_first (λ x, bool_decide (x.1 = name)) (subcommands c).

(** [ValueSource], in its order. *)
Inductive ValueSource := DefaultValue | EnvVariable | CommandLine.
#[export] Instance ValueSource_eq_dec : EqDecision ValueSource.
Proof. solve_decision. Defined.
Definition strength (s : ValueSource) : nat :=
  match s with DefaultValue => 0 | EnvVariable => 1 | CommandLine => 2 end.

(** [clap::ArgMatches]: by id, where a value comes from and the values as given; the
    flags; which ids are defined; the subcommand's. *)
Inductive ArgMatches := mkMatches
  (source : string → option ValueSource) (raw : string → list string) (flag defined : string → bool)
  (sub : option (string * ArgMatches)).
Definition value_source (m : ArgMatches) : string → option ValueSource := match m with mkMatches s _ _ _ _ => s end.
Definition get_raw (m : ArgMatches) : string → list string := match m with mkMatches _ r _ _ _ => r end.
Definition get_flag (m : ArgMatches) : string → bool := match m with mkMatches _ _ f _ _ => f end.
Definition is_defined (m : ArgMatches) : string → bool := match m with mkMatches _ _ _ d _ => d end.

(** ** The configuration file *)

(** [ConfigError]. *)
Inductive ConfigError :=
| CfRead (path error : string)
| CfParse (path error : string)
| CfUnknownProfile (path profile : string)
| CfNoFile (profile : string)
| CfInvalidValue (path key : string)
| CfUnknownKey (path key : string) (valid_keys : list string).

(** [ConfigOptions]. *)
Abbreviation ConfigOptions := (gmap string (list string)).

(** [is_configurable], [arg_keys]. *)
Definition is_configurable (a : Arg) : bool := bool_decide (is_Some (ar_env a)) && negb (ar_hide_env a).
Definition arg_keys (a : Arg) : list string :=
  if is_configurable a then option_list (ar_long a) ++ ar_aliases a else [].

(** [all_arguments], [all_keys]. *)
Fixpoint all_arguments (c : Command) : list Arg :=
  match c with mkCommand args _ subs => args ++ flat_map (λ x, match x with (_, c) => all_arguments c end) subs end.
Definition all_keys (c : Command) : list string := sorted_elements String.le (list_to_set (flat_map arg_keys (all_arguments c))).

(** [ConfigOptions::values_for]. *)
Definition values_for (o : ConfigOptions) (a : Arg) : option (list string) := head (omap (λ k, o !! k) (arg_keys a)).

(** [arg_values]: scalars and arrays of scalars. *)
Definition scalar (v : TomlValue) : option string :=
  match v with
  | VString s => Some s
  | VInteger z => Some (pretty z)
  | VBoolean b => Some (if b then "true" else "false")
  | _ => None
  end.
Definition arg_values (v : TomlValue) : option (list string) :=
  match v with
  | VArray l => mapM scalar l
  | v => (λ x, [x]) <$> scalar v
  end.

(** [convert_table]: the first entry that cannot be converted decides the error. *)
Fixpoint convert_table (path : string) (valid_keys : list string) (t : list (string * TomlValue)) :
    result ConfigOptions ConfigError :=
  match t with
  | [] => Ok ∅
  | (key, value) :: t =>
    if negb (bool_decide (key ∈ valid_keys)) then Err (CfUnknownKey path key valid_keys)
    else
      match arg_values value with
      | None => Err (CfInvalidValue path key)
      | Some values => let? o := convert_table path valid_keys t in Ok (<[key := values]> o)
      end
  end.

(** The loop of [ConfigOptions::from_toml]: tables are profiles, converted as they
    are met. *)
Fixpoint split_profiles (path : string) (valid_keys : list string) (t : list (string * TomlValue)) :
    result (list (string * TomlValue) * gmap string ConfigOptions) ConfigError :=
  match t with
  | [] => Ok ([], ∅)
  | (key, VTable profile) :: t =>
    let? o := convert_table path valid_keys profile in
    let? (top_level, profiles) := split_profiles path valid_keys t in
    Ok (top_level, <[key := o]> profiles)
  | (key, value) :: t =>
    let? (top_level, profiles) := split_profiles path valid_keys t in
    Ok ((key, value) :: top_level, profiles)
  end.

(** What [from_toml] makes of the parsed table. *)
Definition from_table (path : string) (valid_keys : list string) (t : list (string * TomlValue)) (profile : option string) :
    result ConfigOptions ConfigError :=
  let? (top_level, profiles) := split_profiles path valid_keys t in
  let? values := convert_table path valid_keys top_level in
  match match profile with Some p => Some p | None => values !! "profile" ≫= head end with
  | None => Ok values
  | Some p =>
    let? selected := ok_or (profiles !! p) (CfUnknownProfile path p) in
    Ok (selected ∪ values)
  end.

Section file.
Context (parse_toml : string → result (list (string * TomlValue)) string)
  (read_to_string : string → result string string) (default_file : option string).

Definition from_toml (command : Command) (path text : string) (profile : option string) : result ConfigOptions ConfigError :=
  let? t := map_err (CfParse path) (parse_toml text) in
  from_table path (all_keys command) t profile.

(** [ConfigOptions::load]. *)
Definition load (command : Command) (path profile : option string) : result ConfigOptions ConfigError :=
  match match path with Some p => Some p | None => default_file end with
  | None => match profile with Some p => Err (CfNoFile p) | None => Ok ∅ end
  | Some path =>
    let? text := map_err (CfRead path) (read_to_string path) in
    from_toml command path text profile
  end.
End file.

(** ** Merging *)

(** The closure [source] of [compute_merge_losers]: a built-in default is no source,
    a configured value is a default. *)
Definition option_source (o : ConfigOptions) (m : ArgMatches) (a : Arg) : option ValueSource :=
  match value_source m (ar_id a) with
  | Some EnvVariable => Some EnvVariable
  | Some CommandLine => Some CommandLine
  | Some DefaultValue | None => (λ _, DefaultValue) <$> values_for o a
  end.

(** Which of two conflicting arguments loses. *)
Definition loser (o : ConfigOptions) (m : ArgMatches) (a b : Arg) : option string :=
  match option_source o m a, option_source o m b with
  | Some x, Some y =>
    if (strength x <? strength y)%nat then Some (ar_id a)
    else if (strength y <? strength x)%nat then Some (ar_id b)
    else None
  | _, _ => None
  end.

(** [compute_merge_losers]. *)
Fixpoint compute_merge_losers (o : ConfigOptions) (c : Command) (m : ArgMatches) : gset string :=
  let here := list_to_set (flat_map (λ a, omap (loser o m a) (conflicts_with c a)) (command_args c)) in
  match m with
  | mkMatches _ _ _ _ (Some (name, sub)) =>
    match find_subcommand c name with Some c => here ∪ compute_merge_losers o c sub | None => here end
  | mkMatches _ _ _ _ None => here
  end.

(** The closure [mut_args] of [UnmergedArgs::merge]. *)
Definition merge_arg (losers : gset string) (o : ConfigOptions) (a : Arg) : Arg :=
  if bool_decide (ar_id a ∈ losers) then
    mkArg (ar_id a) (ar_long a) (ar_aliases a) None (ar_hide_env a) (ar_takes_values a) []
  else
    match values_for o a with
    | Some values => mkArg (ar_id a) (ar_long a) (ar_aliases a) (ar_env a) (ar_hide_env a) (ar_takes_values a) values
    | None => a
    end.

(** [map_command_tree] with [mut_args]. *)
Fixpoint map_command_tree (f : Arg → Arg) (c : Command) : Command :=
  match c with
  | mkCommand args conflicts subs =>
    mkCommand (map f args) conflicts (map (λ x, match x with (name, c) => (name, map_command_tree f c) end) subs)
  end.

(** The command [merge] parses the words with. *)
Definition merged_command (o : ConfigOptions) (c : Command) (m : ArgMatches) : Command :=
  map_command_tree (merge_arg (compute_merge_losers o c m) o) c.

(** ** Supplied options *)

(** [SuppliedOptions]: by long name, the values given on the command line. *)
Abbreviation SuppliedOptions := (gmap string (list string)).
Definition names_of (s : SuppliedOptions) : list string := sorted_elements String.le (dom s).

(** [SuppliedOptions::from_matches]. *)
Definition supplied_from_matches (c : Command) (m : ArgMatches) : SuppliedOptions :=
  foldl (λ s a,
    match ar_long a with
    | Some long =>
      if bool_decide (value_source m (ar_id a) = Some CommandLine)
      then <[long := if ar_takes_values a then get_raw m (ar_id a) else []]> s
      else s
    | None => s
    end) ∅ (command_args c).

(** [SuppliedOptions::remove]. *)
Definition supplied_remove (name : string) (s : SuppliedOptions) : bool * SuppliedOptions :=
  (bool_decide (is_Some (s !! name)), delete name s).

(** [conflicting_long_names]. *)
Definition has_long (name : string) (a : Arg) : bool := bool_decide (ar_long a = Some name).
Definition conflicting_long_names (c : Command) (name : string) : list string :=
  flat_map (λ a, flat_map (λ b,
    (if has_long name a then option_list (ar_long b) else []) ++
    (if has_long name b then option_list (ar_long a) else [])) (conflicts_with c a)) (command_args c).

(** [SuppliedOptions::update]. *)
Definition supply (c : Command) (s : SuppliedOptions) (x : string * list string) : SuppliedOptions :=
  <[x.1 := x.2]> (foldl (λ s k, delete k s) s (conflicting_long_names c x.1)).
Definition supplied_update (c : Command) (s other : SuppliedOptions) : SuppliedOptions :=
  foldl (λ s name, match other !! name with Some values => supply c s (name, values) | None => s end) s (names_of other).

(** [SuppliedOptions::command_line]. *)
Definition PREFIX : string := "sush".
Definition option_words (name : string) (values : list string) : list string :=
  match values with
  | [] => ["--" +:+ name]
  | _ => map (λ v, "--" +:+ name +:+ "=" +:+ v) values
  end.
Definition command_line (s : SuppliedOptions) : list string :=
  PREFIX :: flat_map (λ name, option_words name (default [] (s !! name))) (names_of s).

(** [Repl::unset_options], up to [apply_options]. *)
Fixpoint unset_names (c : Command) (s : SuppliedOptions) (names : list string) : result SuppliedOptions CommandError :=
  match names with
  | [] => Ok s
  | name :: names =>
    if negb (existsb (has_long name) (command_args c)) then Err (CeUnknownOption name)
    else
      let '(removed, s) := supplied_remove name s in
      if negb removed then Err (CeOptionNotSet name) else unset_names c s names
  end.

(** ** Parsing with a configuration *)

Section parse.
Context {ClapError : Type} (lenient strict : Command → list string → result ArgMatches ClapError)
  (selection : ArgMatches → result (option string * option string) ClapError).

(** [UnmergedArgs::merge], [parse_with_config]; [lenient] is the first parse, which
    leaves errors to [strict]. *)
Definition merge (o : ConfigOptions) (c : Command) (words : list string) (m : ArgMatches) : result ArgMatches ClapError :=
  strict (merged_command o c m) words.
Definition parse_with_config (c : Command) (words : list string) (o : ConfigOptions) : result ArgMatches ClapError :=
  let? m := lenient c words in
  merge o c words m.

Context (parse_toml : string → result (list (string * TomlValue)) string)
  (read_to_string : string → result string string) (default_file : option string) (client_args globals : Command)
  (clap_error : ClapError → CommandError) (config_error : ConfigError → CommandError).

(** [parse_and_merge_config]: the words select the file and the profile. *)
Definition parse_and_merge_config (c : Command) (words : list string) : result ArgMatches CommandError :=
  let? m := map_err clap_error (lenient c words) in
  let? (path, profile) := map_err clap_error (selection m) in
  let? o := map_err config_error (load parse_toml read_to_string default_file client_args path profile) in
  map_err clap_error (merge o c words m).

(** [ConfigOptions::from_supplied]. *)
Definition from_supplied (s : SuppliedOptions) : result ConfigOptions CommandError :=
  let? m := map_err clap_error (parse_with_config globals (command_line s) ∅) in
  let? (path, profile) := map_err clap_error (selection m) in
  map_err config_error (load parse_toml read_to_string default_file client_args path profile).
End parse.

(** ** Describing *)

(** [OptionSource]. *)
Inductive OptionSource := OsCommandLine | OsEnvironment | OsConfigFile.
Definition source_name (s : OptionSource) : string :=
  match s with OsCommandLine => "command line" | OsEnvironment => "environment" | OsConfigFile => "config file" end.

Definition join_values (l : list string) : string := String.concat ", " l.

(** [display_values]: secrets are hidden. *)
Definition display_values (a : Arg) (m : ArgMatches) : string :=
  if ar_hide_env a then "(hidden)"
  else if negb (ar_takes_values a) then (if get_flag m (ar_id a) then "true" else "false")
  else join_values (get_raw m (ar_id a)).

(** [ConfigOptions::parsed_value], [unparsed_value]. *)
Definition parsed_value (o : ConfigOptions) (a : Arg) (m : ArgMatches) : option (string * OptionSource) :=
  match value_source m (ar_id a) with
  | None => None
  | Some CommandLine => Some (display_values a m, OsCommandLine)
  | Some EnvVariable => Some (display_values a m, OsEnvironment)
  | Some DefaultValue =>
    match values_for o a with None => None | Some _ => Some (display_values a m, OsConfigFile) end
  end.
Definition unparsed_value (env : string → option string) (o : ConfigOptions) (a : Arg) : option (string * OptionSource) :=
  if negb (is_configurable a) then None
  else
    match ar_env a ≫= env, values_for o a with
    | Some value, _ => Some (value, OsEnvironment)
    | None, Some values => Some (join_values values, OsConfigFile)
    | None, None => None
    end.

(** [ConfigOptions::describe]: the first argument of each long name. *)
Fixpoint describe_args (env : string → option string) (o : ConfigOptions) (m : ArgMatches) (described : gset string) (l : list Arg) :
    list string :=
  match l with
  | [] => []
  | a :: l =>
    match ar_long a with
    | None => describe_args env o m described l
    | Some long =>
      if bool_decide (long ∈ described) then describe_args env o m described l
      else
        let value := if is_defined m (ar_id a) then parsed_value o a m else unparsed_value env o a in
        let lines := describe_args env o m ({[long]} ∪ described) l in
        match value with
        | Some (values, source) => (long +:+ " = " +:+ values +:+ " (" +:+ source_name source +:+ ")") :: lines
        | None => lines
        end
    end
  end.
Definition describe (env : string → option string) (client_args : Command) (o : ConfigOptions) (m : ArgMatches) : list string :=
  describe_args env o m ∅ (all_arguments client_args).
