(* ===== verification/ConfigFacts.v ===== *)
(** * How options cascade

    Theorems about [Config.v]: which options lose a conflict and what they are left
    with, what setting options in the REPL changes, and what a profile overrides. *)
From S2P Require Import Prelude External Codephrases Hash Targets Keys Ssh Jobs Messages Headers.
From S2P Require Import Manager Output ClientErrors Config.

(** ** Merging *)

(** The command and the matches of the words' subcommand, and of its own. *)
Inductive level : Command → ArgMatches → Command → ArgMatches → Prop :=
| level_here c m : level c m c m
| level_sub c s r f d name m c1 c' m' :
    find_subcommand c name = Some c1 → level c1 m c' m' → level c (mkMatches s r f d (Some (name, m))) c' m'.

(** Conflicting arguments of one level, one of which loses. *)
Definition loses (o : ConfigOptions) (c : Command) (m : ArgMatches) (id : string) : Prop :=
  ∃ a b, a ∈ command_args c ∧ b ∈ conflicts_with c a ∧ loser o m a b = Some id.

Lemma losers_here o c m id :
  id ∈ (list_to_set (flat_map (λ a, omap (loser o m a) (conflicts_with c a)) (command_args c)) : gset string) ↔ loses o c m id.
Proof.
  rewrite elem_of_list_to_set, list_elem_of_In, in_flat_map. unfold loses. setoid_rewrite <- list_elem_of_In.
  split.
  - intros (a&Ha&(b&Hb&Hl)%list_elem_of_omap). eauto.
  - intros (a&b&Ha&Hb&Hl). exists a. split; [done|]. apply list_elem_of_omap. eauto.
Qed.

Lemma losers_exact o c m id :
  id ∈ compute_merge_losers o c m ↔ ∃ c' m', level c m c' m' ∧ loses o c' m' id.
Proof.
  revert m c. fix IH 1. intros [s r f d [[name sub]|]] c; cbn [compute_merge_losers].
  - destruct (find_subcommand c name) as [c1|] eqn:E.
    + rewrite elem_of_union, losers_here, IH. split.
      * intros [H|(c'&m'&Hl&H)]; [eexists _, _; split; [apply level_here|done]|].
        exists c', m'. split; [by eapply level_sub|done].
      * intros (c'&m'&Hl&H). inversion Hl; subst; [by left|]. right. simplify_eq. eauto.
    + rewrite losers_here. split.
      * intros H. eexists _, _. split; [apply level_here|done].
      * intros (c'&m'&Hl&H). inversion Hl; subst; [done|congruence].
  - rewrite losers_here. split.
    + intros H. eexists _, _. split; [apply level_here|done].
    + intros (c'&m'&Hl&H). by inversion Hl; subst.
Qed.

(** clap's own cascade, for an argument: the words, then its environment variable,
    then its defaults. *)
Definition given (words : string → option (list string)) (env : string → option string) (a : Arg) :
    option (ValueSource * list string) :=
  match words (ar_id a) with
  | Some v => Some (CommandLine, v)
  | None =>
    match ar_env a ≫= env with
    | Some v => Some (EnvVariable, [v])
    | None => match ar_default a with [] => None | d => Some (DefaultValue, d) end
    end
  end.

(** A first parse that tells where the values come from. *)
Definition parsed (words : string → option (list string)) (env : string → option string) (c : Command) (m : ArgMatches) : Prop :=
  ∀ c' m', level c m c' m' → ∀ a, a ∈ command_args c' → value_source m' (ar_id a) = fst <$> given words env a.

Lemma conflicts_with_args c a b : b ∈ conflicts_with c a → b ∈ command_args c.
Proof. destruct c. cbn. by intros [_ ?]%list_elem_of_filter. Qed.

(** What the loser of a conflict is not: given on the command line. *)
Lemma weaker_not_typed words env o m a x y :
  value_source m (ar_id a) = fst <$> given words env a → option_source o m a = Some x →
  (strength x < strength y)%nat → words (ar_id a) = None.
Proof.
  unfold option_source, given. intros -> Hs Hlt. destruct (words (ar_id a)); [|done]. cbn in Hs. simplify_eq.
  destruct y; cbn in Hlt; lia.
Qed.

Lemma merged_loser words env losers o a :
  ar_id a ∈ losers → words (ar_id a) = None → given words env (merge_arg losers o a) = None.
Proof. intros Hl Hw. unfold merge_arg. rewrite bool_decide_true by done. unfold given. cbn. by rewrite Hw. Qed.

(** The stronger of two conflicting options wins.  After the merge, an option that
    lost no conflict has its value from the command line, or else the environment, or
    else the configuration, or else its built-in default; of two options of the
    command, or of the subcommand in use, that conflict with values from different
    sources, the one from the weaker source has no value left; and an option loses
    only such a conflict. *)
Theorem stronger_option_wins words env o c m :
  parsed words env c m →
  let merged := merge_arg (compute_merge_losers o c m) o in
  (∀ a, ar_id a ∉ compute_merge_losers o c m →
     given words env (merged a) =
     match words (ar_id a), ar_env a ≫= env, values_for o a with
     | Some v, _, _ => Some (CommandLine, v)
     | None, Some v, _ => Some (EnvVariable, [v])
     | None, None, Some [] => None
     | None, None, Some v => Some (DefaultValue, v)
     | None, None, None => match ar_default a with [] => None | d => Some (DefaultValue, d) end
     end) ∧
  (∀ c' m' a b x y, level c m c' m' → a ∈ command_args c' →
     b ∈ conflicts_with c' a ∨ (b ∈ command_args c' ∧ a ∈ conflicts_with c' b) →
     option_source o m' a = Some x → option_source o m' b = Some y → (strength x < strength y)%nat →
     given words env (merged a) = None) ∧
  (∀ id, id ∈ compute_merge_losers o c m → ∃ c' m', level c m c' m' ∧ loses o c' m' id).
Proof.
  intros Hp merged. split; [|split].
  - intros a Ha. unfold merged, merge_arg. rewrite bool_decide_false by done.
    destruct (values_for o a) as [v|]; unfold given; cbn; [|by repeat case_match].
    destruct (words (ar_id a)); [done|]. destruct (ar_env a ≫= env); [done|]. by destruct v.
  - intros c' m' a b x y Hl Ha Hc Hx Hy Hlt. apply merged_loser; [|eapply weaker_not_typed; eauto].
    apply losers_exact. exists c', m'. split; [done|]. destruct Hc as [Hb|[Hb Hc]].
    + exists a, b. split_and!; [done|done|]. unfold loser. rewrite Hx, Hy. by rewrite (proj2 (Nat.ltb_lt _ _) Hlt).
    + exists b, a. split_and!; [done|done|]. unfold loser. rewrite Hx, Hy.
      rewrite (proj2 (Nat.ltb_ge _ _)) by lia. by rewrite (proj2 (Nat.ltb_lt _ _) Hlt).
  - intros id. apply losers_exact.
Qed.

(** ** Setting options *)

Definition conflict (c : Command) (n1 n2 : string) : Prop := n2 ∈ conflicting_long_names c n1.
#[export] Instance conflict_dec c n1 n2 : Decision (conflict c n1 n2).
Proof. unfold conflict. apply _. Defined.
Definition conflict_free (c : Command) (s : SuppliedOptions) : Prop :=
  ∀ n1 n2, is_Some (s !! n1) → is_Some (s !! n2) → ¬ conflict c n1 n2.

Lemma conflict_spec c n1 n2 :
  conflict c n1 n2 ↔ ∃ a b, a ∈ command_args c ∧ b ∈ conflicts_with c a ∧
    ((ar_long a = Some n1 ∧ ar_long b = Some n2) ∨ (ar_long b = Some n1 ∧ ar_long a = Some n2)).
Proof.
  unfold conflict, conflicting_long_names, has_long. rewrite list_elem_of_In, in_flat_map.
  setoid_rewrite in_flat_map. setoid_rewrite <- list_elem_of_In. setoid_rewrite elem_of_app.
  assert (Ho : ∀ x y z : option string, n2 ∈ (if bool_decide (x = z) then option_list y else []) ↔ x = z ∧ y = Some n2).
  { intros x y z. case_bool_decide as Hx; [|set_solver]. destruct y as [y|]; cbn; set_solver. }
  setoid_rewrite Ho. naive_solver.
Qed.

Lemma conflict_sym c n1 n2 : conflict c n1 n2 → conflict c n2 n1.
Proof. rewrite !conflict_spec. naive_solver. Qed.

Lemma delete_all_lookup (s : SuppliedOptions) l k :
  foldl (λ s k, delete k s) s l !! k = if bool_decide (k ∈ l) then None else s !! k.
Proof.
  revert s. induction l as [|x l IH]; intros s; cbn [foldl]; [by rewrite bool_decide_false by set_solver|].
  rewrite IH, lookup_delete. destruct (decide (x = k)) as [->|Hx].
  - rewrite (bool_decide_true (k ∈ k :: l)) by set_solver. by case_bool_decide.
  - destruct (decide (k ∈ l)); [rewrite !bool_decide_true|rewrite !bool_decide_false]; set_solver.
Qed.

Lemma supply_lookup c (s : SuppliedOptions) name values k :
  supply c s (name, values) !! k =
  if decide (k = name) then Some values else if bool_decide (conflict c name k) then None else s !! k.
Proof.
  unfold supply. cbn [fst snd]. case_decide as Hk; [subst; apply lookup_insert_eq|].
  rewrite lookup_insert_ne by done. apply delete_all_lookup.
Qed.

(** The effect of supplying a list of options. *)
Lemma supply_all_lookup c (other : SuppliedOptions) l (s : SuppliedOptions) k :
  NoDup l → (∀ n, n ∈ l → is_Some (other !! n)) → (∀ n1 n2, n1 ∈ l → n2 ∈ l → ¬ conflict c n1 n2) →
  foldl (λ s name, match other !! name with Some values => supply c s (name, values) | None => s end) s l !! k =
  if bool_decide (k ∈ l) then other !! k
  else if existsb (λ n, bool_decide (conflict c n k)) l then None else s !! k.
Proof.
  revert s. induction l as [|n l IH]; intros s Hnd Hin Hcf; cbn [foldl]; [by rewrite bool_decide_false by set_solver|].
  apply NoDup_cons in Hnd as [Hn Hnd]. destruct (Hin n ltac:(by left)) as [values Ev]. rewrite Ev.
  rewrite IH; [|done|intros; apply Hin; by right|intros; apply Hcf; by right]. rewrite supply_lookup. cbn [existsb]. destruct (decide (k = n)) as [->|Hk].
  - rewrite (bool_decide_false (n ∈ l)) by done. rewrite (bool_decide_true (n ∈ n :: l)) by set_solver. rewrite Ev.
    destruct (existsb _ l) eqn:Ex; [|done]. apply existsb_exists in Ex as (n'&Hn'&Hc%bool_decide_eq_true).
    apply list_elem_of_In in Hn'. exfalso. by apply (Hcf n' n); [right|left|].
  - destruct (decide (k ∈ l)) as [Hkl|Hkl]; [rewrite !bool_decide_true by set_solver; done|].
    rewrite !(bool_decide_false (k ∈ _)) by set_solver. destruct (bool_decide (conflict c n k)); cbn; [|done].
    by destruct (existsb _ l).
Qed.

Lemma names_elem (s : SuppliedOptions) n : n ∈ names_of s ↔ is_Some (s !! n).
Proof. unfold names_of. rewrite elem_of_sorted_elements. apply elem_of_dom. Qed.

(** Setting options replaces what they conflict with.  When neither the options set
    before nor the ones set now conflict among themselves, the result is the new ones
    and, of the old ones, those that are not set anew and conflict with none of the
    new ones; so no two options that are set conflict. *)
Theorem set_replaces_conflicts c (s other : SuppliedOptions) :
  conflict_free c s → conflict_free c other →
  (∀ k, supplied_update c s other !! k =
     match other !! k with
     | Some v => Some v
     | None => if existsb (λ n, bool_decide (conflict c n k)) (names_of other) then None else s !! k
     end) ∧
  conflict_free c (supplied_update c s other).
Proof.
  intros Hs Ho.
  assert (Hl : ∀ k, supplied_update c s other !! k =
     match other !! k with
     | Some v => Some v
     | None => if existsb (λ n, bool_decide (conflict c n k)) (names_of other) then None else s !! k
     end).
  { intros k. unfold supplied_update. rewrite supply_all_lookup.
    - destruct (other !! k) as [v|] eqn:E.
      + rewrite bool_decide_true; [done|]. apply names_elem. by rewrite E.
      + rewrite bool_decide_false; [done|]. rewrite names_elem, E. by intros [? ?].
    - apply NoDup_sorted_elements.
    - intros n. apply names_elem.
    - intros n1 n2 H1%names_elem H2%names_elem. by apply Ho. }
  split; [done|]. intros n1 n2. rewrite !Hl. intros H1 H2 Hc.
  assert (Hx : ∀ n n', is_Some (other !! n) → other !! n' = None → conflict c n n' →
    existsb (λ n, bool_decide (conflict c n n')) (names_of other) = true).
  { intros n n' Hn _ Hc'. apply existsb_exists. exists n. split; [apply list_elem_of_In; by apply names_elem|].
    by apply bool_decide_eq_true. }
  destruct (other !! n1) as [v1|] eqn:E1, (other !! n2) as [v2|] eqn:E2.
  - by eapply (Ho n1 n2).
  - rewrite (Hx n1 n2) in H2 by (rewrite ?E1; eauto). by destruct H2.
  - rewrite (Hx n2 n1) in H1 by (rewrite ?E2; eauto using conflict_sym). by destruct H1.
  - destruct (existsb _ (names_of other)); [by destruct H1|]. destruct (existsb _ (names_of other)); [by destruct H2|].
    by eapply (Hs n1 n2).
Qed.

(** ** Profiles *)

Definition entry (t : list (string * TomlValue)) (k : string) : option TomlValue :=
  snd <$> find_first (λ x, bool_decide (x.1 = k)) t.
Definition is_table (v : TomlValue) : bool := match v with VTable _ => true | _ => false end.

Lemma convert_table_spec path keys t o :
  convert_table path keys t = Ok o →
  (∀ k, o !! k = entry t k ≫= arg_values) ∧
  (∀ k v, (k, v) ∈ t → k ∈ keys ∧ is_Some (arg_values v)).
Proof.
  revert o. induction t as [|[k v] t IH]; intros o; cbn [convert_table].
  - intros [= <-]. split; [done|set_solver].
  - case_bool_decide as Hk; [|done]. cbn [negb]. destruct (arg_values v) as [values|] eqn:Ev; [|done].
    destruct (convert_table path keys t) as [o'|]; [|done]. intros [= <-]. destruct (IH o' eq_refl) as [Hl Hv]. split.
    + intros k'. unfold entry. cbn [find_first fst]. case_bool_decide as Hk'; [subst; by rewrite lookup_insert_eq, <- Ev|].
      rewrite lookup_insert_ne by done. apply Hl.
    + intros k' v' [[= -> ->]|Hin]%elem_of_cons; [rewrite Ev; eauto|eauto].
Qed.

Lemma split_profiles_spec path keys t top profiles :
  split_profiles path keys t = Ok (top, profiles) →
  (∀ k, entry top k = match find_first (λ x, bool_decide (x.1 = k) && negb (is_table x.2)) t with
                      | Some x => Some x.2 | None => None end) ∧
  (∀ p, match entry (filter (λ x, is_table x.2 = true) t) p with
        | Some (VTable tp) => ∃ o, profiles !! p = Some o ∧ convert_table path keys tp = Ok o
        | _ => profiles !! p = None
        end).
Proof.
  revert top profiles. induction t as [|[k v] t IH]; intros top profiles; cbn [split_profiles].
  { intros [= <- <-]. split; [done|]. intros p. apply lookup_empty. }
  assert (Hother : is_table v = false →
    (let? (top_level, profiles) := split_profiles path keys t in Ok ((k, v) :: top_level, profiles))%rust = Ok (top, profiles) →
    (∀ k', entry top k' = match find_first (λ x, bool_decide (x.1 = k') && negb (is_table x.2)) ((k, v) :: t) with
                      | Some x => Some x.2 | None => None end) ∧
    (∀ p, match entry (filter (λ x, is_table x.2 = true) ((k, v) :: t)) p with
        | Some (VTable tp) => ∃ o, profiles !! p = Some o ∧ convert_table path keys tp = Ok o
        | _ => profiles !! p = None
        end)).
  { intros Hv. destruct (split_profiles path keys t) as [[top' profiles']|]; [|done]. intros [= <- <-].
    destruct (IH _ _ eq_refl) as [H1 H2]. split.
    - intros k'. unfold entry. cbn [find_first fst snd]. rewrite Hv. cbn [negb]. rewrite andb_true_r.
      case_bool_decide; [done|]. apply H1.
    - intros p. rewrite filter_cons_False by (cbn; by rewrite Hv). apply H2. }
  destruct v as [| | | |tp|]; try (by apply Hother).
  destruct (convert_table path keys tp) as [o|] eqn:Ec; [|done].
  destruct (split_profiles path keys t) as [[top' profiles']|]; [|done]. intros [= <- <-].
  destruct (IH _ _ eq_refl) as [H1 H2]. split.
  - intros k'. cbn [find_first fst snd is_table negb]. rewrite andb_false_r. apply H1.
  - intros p. rewrite filter_cons_True by done. unfold entry. cbn [find_first fst]. case_bool_decide as Hp.
    + subst. cbn. rewrite lookup_insert_eq. eauto.
    + specialize (H2 p). unfold entry in H2. destruct (snd <$> find_first _ _) as [[]|]; by rewrite ?lookup_insert_ne by done.
Qed.

(** The entries of a file: the value of a key outside the tables, and the table of a
    profile. *)
Definition top_entry (t : list (string * TomlValue)) (k : string) : option TomlValue :=
  snd <$> find_first (λ x, bool_decide (x.1 = k) && negb (is_table x.2)) t.
Definition profile_entry (t : list (string * TomlValue)) (p : string) : option TomlValue :=
  entry (filter (λ x, is_table x.2 = true) t) p.

(** The selected profile overrides the top level.  A file that loads gives each key
    the value of the profile that was asked for, or else that the file's own
    [profile] key names, and where that profile says nothing the value of the top
    level; a profile that is asked for and not in the file is an error. *)
Theorem profile_overrides path keys t profile o :
  from_table path keys t profile = Ok o →
  ∃ selected : option string,
    selected = match profile with
               | Some p => Some p
               | None => (top_entry t "profile" ≫= arg_values) ≫= head
               end ∧
    match selected with
    | None => ∀ k, o !! k = top_entry t k ≫= arg_values
    | Some p =>
      ∃ tp, profile_entry t p = Some (VTable tp) ∧
        ∀ k, o !! k = match entry tp k ≫= arg_values with
                      | Some v => Some v | None => top_entry t k ≫= arg_values end
    end.
Proof.
  unfold from_table. destruct (split_profiles path keys t) as [[top profiles]|] eqn:Es; [|done]. cbn [rbind].
  destruct (convert_table path keys top) as [values|] eqn:Ev; [|done]. cbn [rbind].
  apply split_profiles_spec in Es as [Htop Hprof]. apply convert_table_spec in Ev as [Hv _].
  assert (Hvk : ∀ k, values !! k = top_entry t k ≫= arg_values).
  { intros k. rewrite Hv, Htop. unfold top_entry. by destruct (find_first _ t). }
  rewrite Hvk. intros H. eexists. split; [done|]. destruct (match profile with Some _ => _ | None => _ end) as [p|].
  - specialize (Hprof p). unfold profile_entry. destruct (profiles !! p) as [sel|] eqn:Ep; [|done]. cbn [ok_or rbind] in H.
    injection H as <-. destruct (entry _ p) as [[| | | |tp|]|]; try done. destruct Hprof as (o'&[= <-]&Hc).
    apply convert_table_spec in Hc as [Hc _]. exists tp. split; [done|]. intros k. rewrite lookup_union, Hc, Hvk.
    destruct (entry tp k ≫= arg_values), (top_entry t k ≫= arg_values); done.
  - injection H as <-. done.
Qed.
