(* ===== verification/Repl.v ===== *)
(** * The REPL's options and its connection ([client/src/repl.rs], [commands.rs])

    The options the REPL starts with and that [set] and [unset] change, the client a
    command reuses until they change, and the login that goes with them.  clap's
    parser, the parsed form of its matches, TOML, files and the network are
    parameters; the network can answer differently at each command. *)
From S2P Require Import Prelude External Codephrases Hash Targets Keys Ssh Jobs Messages Headers Authn Agent.
From S2P Require Import Manager Output ClientErrors Addresses Ephemeral ProxyTls Tunnel Config.
#[local] Set Warnings "-register-all".
Open Scope N_scope.
Open Scope rust_scope.

(** [OutputFormat]. *)
Inductive OutputFormat := OfText | OfJson.

(** [GlobalArgs]. *)
Record GlobalArgs := mkGlobals {
  g_config : option string;
  g_profile : option string;
  g_output : option OutputFormat;
  g_json : bool;
  g_text : bool;
  g_url : option string;
  g_nexus : option string;
  g_nexus_token : option string;
  g_nexus_roots : list string;
  g_nexus_resolve : option SocketAddr;
  g_rack : option string;
  g_proxy_roots : list string;
  g_offline : bool;
  g_ssh_auth_sock : option string;
  g_ssh_key_id : option KeyId;
  g_supplied : SuppliedOptions;
}.
Definition with_supplied (g : GlobalArgs) (s : SuppliedOptions) : GlobalArgs :=
  mkGlobals (g_config g) (g_profile g) (g_output g) (g_json g) (g_text g) (g_url g) (g_nexus g) (g_nexus_token g)
    (g_nexus_roots g) (g_nexus_resolve g) (g_rack g) (g_proxy_roots g) (g_offline g) (g_ssh_auth_sock g) (g_ssh_key_id g) s.

(** [GlobalArgs::output_format]. *)
Definition output_format (g : GlobalArgs) : option OutputFormat :=
  if g_json g then Some OfJson else if g_text g then Some OfText else g_output g.

(** Whose login it is and with whom: what [apply_options] compares. *)
Definition login_terms (g : GlobalArgs) : option string * option KeyId * option string * option string :=
  (g_ssh_auth_sock g, g_ssh_key_id g, g_url g, g_nexus g).

Section repl.
Context {ClapError Authz Root Der Tcp Tls WebSocket : Type}.
(** What the parsers of the command line and of the file make, in an environment. *)
Context (lenient strict : Command → list string → result ArgMatches ClapError)
  (selection : ArgMatches → result (option string * option string) ClapError)
  (globals_from : ArgMatches → result GlobalArgs ClapError)
  (parse_toml : string → result (list (string * TomlValue)) string) (read_to_string : string → result string string)
  (default_file : option string) (client_args globals : Command)
  (clap_error : ClapError → CommandError) (config_error : ConfigError → CommandError) (env : string → option string).
(** What the client's connection is made with. *)
Context (parse_uri : string → option Uri) (uri_parses url_parses : string → bool) (load_pem_chain : list byte → option (list Der))
  (store_add : Der → bool) (server_name : string → result string string) (if_nametoindex : string → N)
  (platform_roots : result (list Root) CommandError) (root_from_pem : list byte → result Root CommandError)
  (tunnel_error : TunnelError → CommandError) (tls_error : ProxyTlsError → CommandError)
  (make_client : list Root → option SocketAddrV6 → result () CommandError).

(** The network and the files at one moment. *)
Record Network := mkNetwork {
  nw_read : string → result (list byte) string;
  nw_connect : option SocketAddr → string → N → option (result Tcp string);
  nw_tls : list Der → string → Tcp → result Tls string;
  nw_handshake : string → string → Tcp + Tls → result WebSocket string;
  nw_listen : result string string;
}.

(** [ClientHandle]: the client of a URL with its roots, and its tunnel. *)
Record ClientHandle := mkHandle {
  ch_url : string;
  ch_roots : list Root;
  ch_resolve : option SocketAddrV6;
  ch_tunnel : option (string * Target (Der := Der));
}.

(** The roots of [ClientHandle::from_args]. *)
Fixpoint read_roots (nw : Network) (paths : list string) : result (list Root) CommandError :=
  match paths with
  | [] => Ok []
  | path :: paths =>
    let? pem := map_err (CeIo path) (nw_read nw path) in
    let? root := root_from_pem pem in
    let? roots := read_roots nw paths in
    Ok (root :: roots)
  end.

(** [ClientHandle::from_args]. *)
Definition from_args (nw : Network) (g : GlobalArgs) : result (option ClientHandle) CommandError :=
  let? (url, tunnel) :=
    match g_nexus g with
    | Some nexus =>
      let? rack := ok_or (g_rack g) CeMissingRack in
      let? token := ok_or (g_nexus_token g) CeMissingNexusToken in
      let? tunnel := map_err tunnel_error
        (tunnel_start parse_uri uri_parses (nw_read nw) load_pem_chain store_add (nw_connect nw) (nw_tls nw) server_name
           (nw_handshake nw) (nw_listen nw) nexus rack token (g_nexus_roots g) (g_nexus_resolve g)) in
      Ok (Some tunnel.1, Some tunnel)
    | None => Ok (g_url g, None)
    end in
  match url with
  | None => Ok None
  | Some url =>
    let? roots := match g_proxy_roots g with [] => platform_roots | paths => read_roots nw paths end in
    let? (url, resolve) := map_err tls_error (descope_url if_nametoindex url_parses url) in
    let? _ := make_client roots resolve in
    Ok (Some (mkHandle url roots resolve tunnel))
  end.

(** [AuthzState]: the authorization, how often it has been set, and the claim. *)
Record AuthzSigner := mkSigner { sg_authz : option Authz; sg_generation : N; sg_claim : option KeyId }.
Definition set_credentials (s : AuthzSigner) (a : option Authz) : AuthzSigner :=
  mkSigner a ((sg_generation s + 1) mod 2 ^ 64) (sg_claim s).
Definition set_claim (s : AuthzSigner) (k : KeyId) : AuthzSigner := mkSigner (sg_authz s) (sg_generation s) (Some k).
Definition clear_claim (s : AuthzSigner) : AuthzSigner := mkSigner (sg_authz s) (sg_generation s) None.

(** [Repl], and of its [Cli] the options, the output format and the signer. *)
Record Repl := mkRepl {
  rp_globals : GlobalArgs;
  rp_output : OutputFormat;
  rp_signer : AuthzSigner;
  rp_config : ConfigOptions;
  rp_supplied : SuppliedOptions;
  rp_handle : option ClientHandle;
}.

(** [parse_globals]. *)
Definition parse_globals (s : SuppliedOptions) (o : ConfigOptions) : result (GlobalArgs * ArgMatches) CommandError :=
  let? m := map_err clap_error (parse_with_config lenient strict globals (command_line s) o) in
  let? g := map_err clap_error (globals_from m) in
  Ok (with_supplied g s, m).

(** [ConfigOptions::from_supplied], in this environment. *)
Definition config_of (s : SuppliedOptions) : result ConfigOptions CommandError :=
  from_supplied lenient strict selection parse_toml read_to_string default_file client_args globals clap_error config_error s.

(** [Repl::show_options]: the lines shown. *)
Definition show_options (r : Repl) : result (list string) CommandError :=
  let? (_, m) := parse_globals (rp_supplied r) (rp_config r) in
  Ok (describe env client_args (rp_config r) m).

(** [Repl::run], up to the first line read; [signer] is a new [Cli]'s. *)
Definition repl_start (supplied : SuppliedOptions) (output : OutputFormat) (signer : AuthzSigner) :
    result (Repl * list string) CommandError :=
  let? config := config_of supplied in
  let? (g, _) := parse_globals supplied config in
  let r := mkRepl g output signer config supplied None in
  let? lines := show_options r in
  Ok (r, lines).

(** [Repl::apply_options]; what has been set stays when the display fails. *)
Definition apply_options (supplied : SuppliedOptions) (r : Repl) : result (list string) CommandError * Repl :=
  match config_of supplied with
  | Err e => (Err e, r)
  | Ok config =>
    match parse_globals supplied config with
    | Err e => (Err e, r)
    | Ok (g, _) =>
      let signer :=
        if bool_decide (login_terms (rp_globals r) = login_terms g) then rp_signer r
        else clear_claim (set_credentials (rp_signer r) None) in
      let r := mkRepl g (rp_output r) signer config supplied None in
      (show_options r, r)
    end
  end.

(** [set_options], [unset_options]. *)
Definition set_options (options : SuppliedOptions) (r : Repl) : result (list string) CommandError * Repl :=
  apply_options (supplied_update globals (rp_supplied r) options) r.
Definition unset_options (names : list string) (r : Repl) : result (list string) CommandError * Repl :=
  match unset_names globals (rp_supplied r) names with
  | Err e => (Err e, r)
  | Ok supplied => apply_options supplied r
  end.

(** [Repl::client_handle]. *)
Definition client_handle (nw : Network) (r : Repl) : result (option ClientHandle) CommandError * Repl :=
  match rp_handle r with
  | Some h => (Ok (Some h), r)
  | None =>
    match from_args nw (rp_globals r) with
    | Err e => (Err e, r)
    | Ok h => (Ok h, mkRepl (rp_globals r) (rp_output r) (rp_signer r) (rp_config r) (rp_supplied r) h)
    end
  end.

(** The start of [ClientCommand::run]. *)
Definition begin_command (nw : Network) (online : bool) (r : Repl) : result (option ClientHandle) CommandError * Repl :=
  let r :=
    match output_format (rp_globals r) with
    | Some output => mkRepl (rp_globals r) output (rp_signer r) (rp_config r) (rp_supplied r) (rp_handle r)
    | None => r
    end in
  if online then client_handle nw r else (Ok None, r).

(** [Repl::prompt]. *)
Definition prompt (g : GlobalArgs) : string :=
  let profile := match g_profile g with Some p => " [" +:+ p +:+ "]" | None => "" end in
  let offline := match g_url g, g_nexus g with None, None => " (offline)" | _, _ => "" end in
  PREFIX +:+ profile +:+ offline +:+ "# ".

Definition with_signer (r : Repl) (s : AuthzSigner) : Repl :=
  mkRepl (rp_globals r) (rp_output r) s (rp_config r) (rp_supplied r) (rp_handle r).
End repl.
