(* ===== verification/ReplFacts.v ===== *)
(** * The REPL keeps to its options

    Theorems about [Repl.v]: what is set is set as a whole or not at all, and through
    any commands the parsed options, the connection and the login are the ones of the
    options that are set. *)
From S2P Require Import Prelude External Codephrases Hash Targets Keys Ssh Jobs Messages Headers Authn Agent.
From S2P Require Import Manager Output ClientErrors Addresses Ephemeral ProxyTls Tunnel Config Repl.
Open Scope N_scope.

Section facts.
Context {ClapError Authz Root Der Tcp Tls WebSocket : Type}.
Context (lenient strict : Command → list string → result ArgMatches ClapError)
  (selection : ArgMatches → result (option string * option string) ClapError)
  (globals_from : ArgMatches → result GlobalArgs ClapError)
  (parse_toml : string → result (list (string * TomlValue)) string) (read_to_string : string → result string string)
  (default_file : option string) (client_args globals : Command)
  (clap_error : ClapError → CommandError) (config_error : ConfigError → CommandError) (env : string → option string).
Context (parse_uri : string → option Uri) (uri_parses url_parses : string → bool) (load_pem_chain : list byte → option (list Der))
  (store_add : Der → bool) (server_name : string → result string string) (if_nametoindex : string → N)
  (platform_roots : result (list Root) CommandError) (root_from_pem : list byte → result Root CommandError)
  (tunnel_error : TunnelError → CommandError) (tls_error : ProxyTlsError → CommandError)
  (make_client : list Root → option SocketAddrV6 → result () CommandError).

Local Abbreviation REPL := (@Repl Authz Root Der).
Local Abbreviation NETWORK := (@Network Der Tcp Tls WebSocket).
Local Abbreviation parse_globals := (parse_globals lenient strict globals_from globals clap_error).
Local Abbreviation config_of := (config_of lenient strict selection parse_toml read_to_string default_file client_args globals clap_error config_error).
Local Abbreviation show_options := (show_options (Authz := Authz) (Root := Root) (Der := Der) lenient strict globals_from client_args globals clap_error env).
Local Abbreviation repl_start := (repl_start (Authz := Authz) (Root := Root) (Der := Der) lenient strict selection globals_from
  parse_toml read_to_string default_file client_args globals clap_error config_error env).
Local Abbreviation apply_options := (apply_options (Authz := Authz) (Root := Root) (Der := Der) lenient strict selection globals_from
  parse_toml read_to_string default_file client_args globals clap_error config_error env).
Local Abbreviation set_options := (set_options (Authz := Authz) (Root := Root) (Der := Der) lenient strict selection globals_from
  parse_toml read_to_string default_file client_args globals clap_error config_error env).
Local Abbreviation unset_options := (unset_options (Authz := Authz) (Root := Root) (Der := Der) lenient strict selection globals_from
  parse_toml read_to_string default_file client_args globals clap_error config_error env).
Local Abbreviation from_args := (from_args (Tcp := Tcp) (Tls := Tls) (WebSocket := WebSocket) parse_uri uri_parses url_parses load_pem_chain store_add server_name if_nametoindex
  platform_roots root_from_pem tunnel_error tls_error make_client).
Local Abbreviation begin_command := (begin_command (Authz := Authz) (Tcp := Tcp) (Tls := Tls) (WebSocket := WebSocket) parse_uri uri_parses url_parses load_pem_chain store_add server_name
  if_nametoindex platform_roots root_from_pem tunnel_error tls_error make_client).

(** The options in force are those that were supplied, over the environment and the
    file they select. *)
Definition in_force (r : REPL) : Prop :=
  config_of (rp_supplied r) = Ok (rp_config r) ∧
  ∃ m, parse_globals (rp_supplied r) (rp_config r) = Ok (rp_globals r, m).

Lemma show_in_force (r : REPL) : in_force r → ∃ lines, show_options r = Ok lines.
Proof. intros (_&m&Hm). unfold Repl.show_options. rewrite Hm. eauto. Qed.

(** Changing the options succeeds as a whole or changes nothing. *)
Lemma apply_options_spec supplied (r : REPL) :
  match (apply_options supplied r).1 with
  | Ok _ =>
    let r' := (apply_options supplied r).2 in
    in_force r' ∧ rp_supplied r' = supplied ∧ rp_handle r' = None ∧ rp_output r' = rp_output r ∧
    rp_signer r' = if bool_decide (login_terms (rp_globals r) = login_terms (rp_globals r')) then rp_signer r
                   else mkSigner None ((sg_generation (rp_signer r) + 1) mod 2 ^ 64) None
  | Err _ => (apply_options supplied r).2 = r
  end.
Proof.
  unfold Repl.apply_options. destruct (config_of supplied) as [config|] eqn:Ec; [|done].
  destruct (parse_globals supplied config) as [[g m]|] eqn:Eg; [|done].
  set (r' := mkRepl g _ _ _ _ _). assert (Hf : in_force r') by (split; [done|by exists m]).
  destruct (show_in_force r' Hf) as [lines Hl]. cbn [fst snd]. rewrite Hl. split_and!; try done.
Qed.

(** ** Commands *)

(** What happens in the REPL: options are set or unset, a command begins, a command
    logs in or learns the key to claim ([with_login] of [ClientLogin.v]). *)
Inductive ReplEvent :=
| EvSet (options : SuppliedOptions)
| EvUnset (names : list string)
| EvCommand (nw : NETWORK) (online : bool)
| EvLogin (a : Authz)
| EvClaim (k : KeyId).

(** The REPL, with the terms at the last login and at the last claim. *)
Record Tracked := mkTracked {
  tr_repl : REPL;
  tr_login : option (option string * option KeyId * option string * option string);
  tr_claim : option (option string * option KeyId * option string * option string);
}.

Definition repl_event (t : Tracked) (e : ReplEvent) : Tracked :=
  let r := tr_repl t in
  match e with
  | EvSet options => mkTracked (set_options options r).2 (tr_login t) (tr_claim t)
  | EvUnset names => mkTracked (unset_options names r).2 (tr_login t) (tr_claim t)
  | EvCommand nw online => mkTracked (begin_command nw online r).2 (tr_login t) (tr_claim t)
  | EvLogin a => mkTracked (with_signer r (set_credentials (rp_signer r) (Some a))) (Some (login_terms (rp_globals r))) (tr_claim t)
  | EvClaim k => mkTracked (with_signer r (set_claim (rp_signer r) k)) (tr_login t) (Some (login_terms (rp_globals r)))
  end.
Definition repl_run (r : REPL) (l : list ReplEvent) : Tracked := foldl repl_event (mkTracked r None None) l.

(** The connection was made with the options in force, and the login and the claim
    are from under the terms in force. *)
Definition handle_current (r : REPL) : Prop :=
  ∀ h, rp_handle r = Some h → ∃ nw : NETWORK, from_args nw (rp_globals r) = Ok (Some h).
Definition login_current (t : Tracked) : Prop :=
  let r := tr_repl t in
  (∀ a, sg_authz (rp_signer r) = Some a → tr_login t = Some (login_terms (rp_globals r))) ∧
  (∀ k, sg_claim (rp_signer r) = Some k → tr_claim t = Some (login_terms (rp_globals r))).
Definition repl_ok (t : Tracked) : Prop := in_force (tr_repl t) ∧ handle_current (tr_repl t) ∧ login_current t.

Lemma apply_options_ok supplied t :
  repl_ok t → repl_ok (mkTracked (apply_options supplied (tr_repl t)).2 (tr_login t) (tr_claim t)).
Proof.
  intros Hok. pose proof (apply_options_spec supplied (tr_repl t)) as Ha. destruct (apply_options supplied (tr_repl t)).1.
  - destruct Ha as (Hf&_&Hh&_&Hs). split; [done|]. cbn [tr_repl]. split; [intros h; by rewrite Hh|].
    unfold login_current. cbn [tr_repl tr_login tr_claim]. rewrite Hs. case_bool_decide as Ht; [|done].
    destruct Hok as (_&_&Hl). unfold login_current in Hl. by rewrite <- Ht.
  - rewrite Ha. by destruct t.
Qed.

Lemma begin_command_spec nw online (r : REPL) :
  let r' := (begin_command nw online r).2 in
  rp_globals r' = rp_globals r ∧ rp_signer r' = rp_signer r ∧ rp_config r' = rp_config r ∧ rp_supplied r' = rp_supplied r ∧
  (rp_handle r' = rp_handle r ∨ from_args nw (rp_globals r) = Ok (rp_handle r')).
Proof.
  cbv zeta. unfold Repl.begin_command. set (r1 := match output_format _ with Some _ => _ | None => _ end).
  assert (H1 : rp_globals r1 = rp_globals r ∧ rp_signer r1 = rp_signer r ∧ rp_config r1 = rp_config r ∧
    rp_supplied r1 = rp_supplied r ∧ rp_handle r1 = rp_handle r) by (unfold r1; by destruct (output_format _)).
  destruct H1 as (Hg&Hs&Hc&Hu&Hh). destruct online; [|cbn [snd]; repeat split; auto]. unfold client_handle.
  destruct (rp_handle r1) as [h|] eqn:E1; [cbn [snd]; repeat split; try done; left; congruence|]. rewrite <- Hg.
  destruct (from_args nw (rp_globals r1)) eqn:E2; cbn [snd rp_globals rp_signer rp_config rp_supplied rp_handle]; repeat split; auto.
  left. congruence.
Qed.

Lemma repl_event_ok t e : repl_ok t → repl_ok (repl_event t e).
Proof.
  intros Hok. destruct e as [options|names|nw online|a|k]; cbn [repl_event].
  - by apply apply_options_ok.
  - unfold Repl.unset_options. destruct (unset_names _ _ _) as [s|]; [by apply apply_options_ok|by destruct t].
  - destruct Hok as ((Hc&m&Hm)&Hh&Hl). destruct (begin_command_spec nw online (tr_repl t)) as (Eg&Es&Ec&Eu&Eh).
    unfold repl_ok, in_force, login_current, handle_current. cbn [tr_repl tr_login tr_claim]. rewrite Eg, Es, Ec, Eu.
    split; [eauto|]. split; [|done]. intros h Hr. destruct Eh as [Eh|Eh]; [apply Hh; congruence|exists nw; congruence].
  - destruct Hok as (Hf&Hh&Hl1&Hl2). split; [done|]. split; [done|]. split; [done|]. apply Hl2.
  - destruct Hok as (Hf&Hh&Hl1&Hl2). split; [done|]. split; [done|]. split; [apply Hl1|done].
Qed.

(** C36. The REPL acts as it was told last.  From its start through any options set and
    unset, commands, logins and claims: the options in force are those supplied, over
    the file that they select; a connection that is reused was made with the options
    in force; and the login and the claimed key are from under the agent, the key, the
    URL and the Nexus in force. *)
Theorem repl_keeps_to_options supplied output r lines l :
  repl_start supplied output (mkSigner None 0 None) = Ok (r, lines) → repl_ok (repl_run r l).
Proof.
  intros Hs. assert (Hrun : ∀ t, repl_ok t → repl_ok (foldl repl_event t l)).
  { induction l as [|e l IH]; intros t Ht; [done|]. by apply IH, repl_event_ok. }
  unfold repl_run. apply Hrun.
  unfold Repl.repl_start in Hs. destruct (config_of supplied) as [config|] eqn:Ec; [|done]. cbn [rbind] in Hs.
  destruct (parse_globals supplied config) as [[g m]|] eqn:Eg; [|done]. cbn [rbind] in Hs.
  destruct (show_options _) as [ls|]; [|done]. injection Hs as <- _.
  split; [split; [done|by exists m]|]. split; [done|]. by split.
Qed.

(** ** Setting and unsetting *)

(** [unset_names] succeeds on distinct options of the command that are all set. *)
Lemma unset_names_spec c names (s s' : SuppliedOptions) :
  unset_names c s names = Ok s' →
  NoDup names ∧ (∀ n, n ∈ names → existsb (has_long n) (command_args c) = true ∧ is_Some (s !! n)) ∧
  ∀ k, s' !! k = if bool_decide (k ∈ names) then None else s !! k.
Proof.
  revert s. induction names as [|n names IH]; intros s; cbn [unset_names].
  { intros [= <-]. split; [constructor|]. split; [set_solver|]. intros k. by rewrite bool_decide_false by set_solver. }
  destruct (existsb (has_long n) (command_args c)) eqn:En; [|done]. cbn [negb supplied_remove].
  case_bool_decide as Hn; [|done]. cbn [negb]. intros (Hnd&Hin&Hl)%IH.
  assert (Hnot : n ∉ names) by (intros [_ [? Hx]]%Hin; by rewrite lookup_delete_eq in Hx). split_and!.
  - by constructor.
  - intros k [->|Hk]%elem_of_cons; [done|]. destruct (Hin k Hk) as [He Hs]. split; [done|].
    rewrite lookup_delete_ne in Hs by (by intros ->). done.
  - intros k. rewrite Hl. destruct (decide (k = n)) as [->|Hk].
    + rewrite (bool_decide_true (n ∈ n :: names)) by set_solver. rewrite lookup_delete_eq. by destruct (bool_decide _).
    + rewrite lookup_delete_ne by done. destruct (decide (k ∈ names)); [rewrite !bool_decide_true by set_solver|
        rewrite !bool_decide_false by set_solver]; done.
Qed.

(** The commands [set] and [unset]. *)
Inductive Change := CSet (options : SuppliedOptions) | CUnset (names : list string).
Definition make_change (c : Change) (r : REPL) : result (list string) CommandError * REPL :=
  match c with CSet options => set_options options r | CUnset names => unset_options names r end.
Definition changed (c : Change) (s s' : SuppliedOptions) : Prop :=
  match c with
  | CSet options => s' = supplied_update globals s options
  | CUnset names =>
    NoDup names ∧ (∀ n, n ∈ names → is_Some (s !! n)) ∧ ∀ k, s' !! k = if bool_decide (k ∈ names) then None else s !! k
  end.

(** Setting and unsetting options is all or nothing.  When it fails, the REPL is as it
    was; when it succeeds, exactly the named options are set or unset, they are in
    force, the connection is given up, and the login and the claimed key are kept if
    and only if the agent, the key, the URL and the Nexus are the same as before. *)
Theorem options_all_or_nothing (r : REPL) c :
  let r' := (make_change c r).2 in
  match (make_change c r).1 with
  | Err _ => r' = r
  | Ok _ =>
    changed c (rp_supplied r) (rp_supplied r') ∧ in_force r' ∧ rp_handle r' = None ∧
    if bool_decide (login_terms (rp_globals r) = login_terms (rp_globals r')) then rp_signer r' = rp_signer r
    else sg_authz (rp_signer r') = None ∧ sg_claim (rp_signer r') = None
  end.
Proof.
  assert (Ha : ∀ s, changed c (rp_supplied r) s → let r' := (apply_options s r).2 in
    match (apply_options s r).1 with
    | Err _ => r' = r
    | Ok _ =>
      changed c (rp_supplied r) (rp_supplied r') ∧ in_force r' ∧ rp_handle r' = None ∧
      if bool_decide (login_terms (rp_globals r) = login_terms (rp_globals r')) then rp_signer r' = rp_signer r
      else sg_authz (rp_signer r') = None ∧ sg_claim (rp_signer r') = None
    end).
  { intros s Hs. pose proof (apply_options_spec s r) as Hsp. destruct (apply_options s r) as [[lines|e] r']; cbn [fst snd] in *; [|done].
    destruct Hsp as (Hf&Hu&Hh&_&Hsg). rewrite Hu. split_and!; [done..|]. case_bool_decide; rewrite Hsg; done. }
  destruct c as [options|names]; cbn [make_change].
  - by apply Ha.
  - unfold Repl.unset_options. destruct (unset_names globals (rp_supplied r) names) as [s|] eqn:Eu; [|done].
    apply Ha. apply unset_names_spec in Eu as (Hnd&Hin&Hl). split; [done|]. split; [|done]. intros n Hn. by apply Hin.
Qed.
End facts.
