(* ===== verification/CertChain.v ===== *)
(** * Checking a chain of certificates ([client/src/cli.rs])

    The chain a server sends for a key ([pem_cert_chain] of [common/src/keys.rs]), the
    client's check of it ([Cli::cert_chain]) and the command that fetches it ([cert] of
    [client/src/commands.rs]); and the two composed: what the client says of the chain
    of a server's anchor. *)
From S2P Require Import Prelude External Codephrases Hash Targets Keys Ssh Jobs Messages Headers Certs.
From S2P Require Import Rack History Boundary Executor State Manager Output Server ClientErrors Ephemeral Repl.
#[local] Set Warnings "-register-all".
Open Scope N_scope.

(** [pem_rfc7468::encode_string] with a certificate's label, and the parsers of
    [x509_cert]: a chain of encoded certificates reads back. *)
Class Pem `{!Pki, !X509} := {
  pem_encode : list byte → option string;
  certificate_from_pem : list byte → result Certificate string;
  load_pem_chain : string → result (list Certificate) string;

  pem_chain_back : ∀ certs ders pems,
    certs ≠ [] → mapM certificate_to_der certs = Some ders → mapM pem_encode ders = Some pems →
    load_pem_chain (String.concat newline pems) = Ok certs;
}.

Section cert_chain.
Context `{!Sha3, !Pki, !X509, !Pem, !EqDecision Certificate}.
Local Open Scope rust_scope.

(** [pem_cert_chain]. *)
Definition pem_cert_chain (certs : list Certificate) : result string KeyError :=
  let? ders := ok_or (mapM certificate_to_der certs) KDer in
  let? pems := ok_or (mapM pem_encode ders) KPem in
  Ok (String.concat newline pems).

(** [Validity]'s times, the shown form of a name, and the encoder's error. *)
Context (not_before not_after : Validity → DateTime) (name_to_string : Name → string) (der_error : string).

(** The signature of [cert] verifies with a key. *)
Definition check_signature (cert : Certificate) (key : list byte) : result () CommandError :=
  let? tbs := ok_or (cert_tbs_der cert) (CeDer der_error) in
  let? sg := map_err CeKey (signature_of_cert cert) in
  map_err CeKey (verify_with_spki sg tbs key).

(** The loops of [cert_chain]: over every certificate, and over those below the
    root, with [prev]; the last [prev] is the leaf. *)
Definition in_date (now : DateTime) (cert : Certificate) : bool :=
  let validity := tbs_validity (tbs_certificate cert) in
  negb ((now <? not_before validity) || (not_after validity <? now))%Z.
Fixpoint check_dates (now : DateTime) (chain : list Certificate) : result () CommandError :=
  match chain with
  | [] => Ok ()
  | cert :: chain =>
    if in_date now cert then check_dates now chain else Err (CeCertExpired (name_to_string (cert_subject cert)))
  end.
Fixpoint check_links (prev : Certificate) (rest : list Certificate) : result Certificate CommandError :=
  match rest with
  | [] => Ok prev
  | cert :: rest => let? _ := check_signature cert (cert_spki_key prev) in check_links cert rest
  end.

(** What is printed: the chain as it came, or what it was checked against and the
    subjects. *)
Inductive ChainShown :=
| ShownCerts (certs : string)
| ShownChain (anchored : bool) (subjects : list string).

Definition chain_shown (format : OutputFormat) (certs : string) (roots chain : list Certificate) : ChainShown :=
  match format with
  | OfJson => ShownCerts certs
  | OfText => ShownChain (bool_decide (roots ≠ [])) (map (λ c, name_to_string (cert_subject c)) chain)
  end.

(** [Cli::cert_chain]. *)
Definition cert_chain (format : OutputFormat) (now : DateTime) (kid : KeyId) (certs : string) (roots : list Certificate) :
    result (Certificate * ChainShown) CommandError :=
  let? chain := map_err CeDer (load_pem_chain certs) in
  match chain with
  | [] => Err CeEmptyCertChain
  | root :: rest =>
    if bool_decide (cert_subject root ≠ cert_issuer root) then Err CeInvalidRootCert
    else if bool_decide (roots ≠ []) && bool_decide (root ∉ roots) then Err CeUntrustedRoot
    else
      let? _ := check_signature root (cert_spki_key root) in
      let? _ := check_dates now chain in
      let? prev := check_links root rest in
      let? id := map_err CeKey (key_id_of_cert prev) in
      if bool_decide (id ≠ kid) then Err (CeInvalidLeafCert kid)
      else
        let shown := chain_shown format certs roots chain in
        let? leaf := ok_or (last chain) CeEmptyCertChain in
        Ok (leaf, shown)
  end.

(** [cert] of [commands.rs]: the roots are read before anything is asked; [answer] is
    what the server answers, behind [with_login]. *)
Fixpoint cert_roots (read : string → result (list byte) string) (paths : list string) :
    result (list Certificate) CommandError :=
  match paths with
  | [] => Ok []
  | path :: paths =>
    let? pem := map_err (CeIo path) (read path) in
    let? cert := map_err CeDer (certificate_from_pem pem) in
    let? roots := cert_roots read paths in
    Ok (cert :: roots)
  end.
Definition cert (read : string → result (list byte) string) (answer : KeyId → result string CommandError)
    (format : OutputFormat) (now : DateTime) (kid : KeyId) (root_certs : list string) : result ChainShown CommandError :=
  let? roots := cert_roots read root_certs in
  let? certs := answer kid in
  let? checked := cert_chain format now kid certs roots in
  Ok (snd checked).

(** ** What is accepted *)

Lemma check_signature_ok c key : check_signature c key = Ok () ↔ signed_by c key.
Proof.
  unfold check_signature, signed_by. split.
  - destruct (cert_tbs_der c) as [tbs|]; [|done]. cbn [ok_or rbind]. destruct (signature_of_cert c) as [sg|]; [|done].
    cbn [map_err rbind]. destruct (verify_with_spki sg tbs key) as [[]|] eqn:E; [|done]. intros _. by exists tbs, sg.
  - intros (tbs&sg&->&->&E). cbn [ok_or map_err rbind]. by rewrite E.
Qed.

Lemma check_dates_find now l :
  check_dates now l = match find_first (λ c, negb (in_date now c)) l with
                      | Some c => Err (CeCertExpired (name_to_string (cert_subject c)))
                      | None => Ok ()
                      end.
Proof. induction l as [|c l IH]; cbn; [done|]. rewrite IH. by destruct (in_date now c). Qed.

(** Each certificate's signature verifies with the key of the one before it. *)
Fixpoint signed_from (prev : Certificate) (l : list Certificate) : Prop :=
  match l with
  | [] => True
  | c :: l => signed_by c (cert_spki_key prev) ∧ signed_from c l
  end.

Lemma check_links_ok prev l leaf :
  check_links prev l = Ok leaf ↔ signed_from prev l ∧ last (prev :: l) = Some leaf.
Proof.
  revert prev. induction l as [|c l IH]; intros prev; cbn [check_links signed_from].
  - cbn. naive_solver.
  - rewrite last_cons_cons, <- check_signature_ok. destruct (check_signature c _) as [[]|]; cbn [rbind]; rewrite ?IH; naive_solver.
Qed.
(** The verdict on a chain whose signatures verify and which ends in the key asked for. *)
Lemma cert_chain_verdict format now kid certs roots root rest leaf :
  load_pem_chain certs = Ok (root :: rest) → issued root root → signed_from root rest →
  last (root :: rest) = Some leaf → key_id_of_cert leaf = Ok kid →
  cert_chain format now kid certs roots =
    if bool_decide (roots ≠ []) && bool_decide (root ∉ roots) then Err CeUntrustedRoot
    else match find_first (λ c, negb (in_date now c)) (root :: rest) with
         | Some c => Err (CeCertExpired (name_to_string (cert_subject c)))
         | None => Ok (leaf, chain_shown format certs roots (root :: rest))
         end.
Proof.
  intros Hload [Hname Hroot] Hlinks Hleaf Hkid. unfold cert_chain. rewrite Hload. cbn [map_err rbind].
  rewrite bool_decide_false by tauto. case_match; [done|].
  rewrite (proj2 (check_signature_ok _ _) Hroot), check_dates_find. cbn [rbind].
  destruct (find_first _ _); [done|]. cbn [rbind].
  rewrite (proj2 (check_links_ok _ _ _) (conj Hlinks Hleaf)). cbn [rbind]. rewrite Hkid. cbn [map_err rbind].
  rewrite bool_decide_false by tauto. by rewrite Hleaf.
Qed.

(** What is accepted, exactly.  The client accepts the certificate [leaf] for a key
    from a text if and only if the text is a chain whose first certificate names
    itself, carries its own signature and, when roots were given, is one of them;
    every certificate is in date; each further one carries a signature by the key of
    the one before it; and the last, [leaf], is the key's. *)
Theorem cert_chain_exact format now kid certs roots leaf shown :
  cert_chain format now kid certs roots = Ok (leaf, shown) ↔
  ∃ root rest, load_pem_chain certs = Ok (root :: rest) ∧
    issued root root ∧ (roots = [] ∨ root ∈ roots) ∧
    (∀ c, c ∈ root :: rest → in_date now c = true) ∧
    signed_from root rest ∧ last (root :: rest) = Some leaf ∧ key_id_of_cert leaf = Ok kid ∧
    shown = chain_shown format certs roots (root :: rest).
Proof.
  split.
  - unfold cert_chain. destruct (load_pem_chain certs) as [[|root rest]|]; cbn [map_err rbind]; [done| |done].
    case_bool_decide as Hname; [done|]. destruct (bool_decide (roots ≠ []) && bool_decide (root ∉ roots)) eqn:Etrust; [done|].
    destruct (check_signature root (cert_spki_key root)) as [[]|] eqn:Eroot; [|done]. cbn [rbind].
    rewrite check_dates_find. destruct (find_first _ _) eqn:Edate; [done|]. cbn [rbind].
    destruct (check_links root rest) as [prev|] eqn:Elinks; [|done]. cbn [rbind].
    apply check_links_ok in Elinks as [Hlinks Hlast]. apply check_signature_ok in Eroot.
    destruct (key_id_of_cert prev) as [id|] eqn:Ekid; [|done]. cbn [map_err rbind].
    destruct (decide (id = kid)) as [<-|Hid]; [rewrite bool_decide_false by tauto|by rewrite bool_decide_true].
    rewrite Hlast. intros [= <- <-]. exists root, rest. split_and!; try done.
    + apply andb_false_iff in Etrust as [E|E]; apply bool_decide_eq_false, dec_stable in E; [by left|by right].
    + intros c Hc. eapply (proj1 (find_first_None _ _)) in Edate; [|exact Hc]. by apply negb_false_iff in Edate.
  - intros (root&rest&Hload&Hroot&Htrust&Hdate&Hlinks&Hlast&Hkid&->).
    rewrite (cert_chain_verdict _ _ _ _ _ _ _ _ Hload Hroot Hlinks Hlast Hkid).
    assert (E : bool_decide (roots ≠ []) && bool_decide (root ∉ roots) = false).
    { destruct Htrust as [->|Hin]; [by rewrite bool_decide_false by tauto|]. rewrite (bool_decide_false (root ∉ roots)) by tauto. by rewrite andb_false_r. }
    rewrite E. destruct (find_first _ _) as [c|] eqn:Ef; [|done].
    apply find_first_Some in Ef as [Hin Hc]. by rewrite Hdate in Hc.
Qed.

(** A root-to-leaf chain of anchors is signed link by link. *)
Lemma linked_signed root rest : linked_from root rest → signed_from root rest.
Proof. revert root. induction rest as [|c rest IH]; intros root; cbn; [done|]. intros [[_ Hs] Hl]. auto. Qed.

Lemma pem_chain_reads_back certs pem : certs ≠ [] → pem_cert_chain certs = Ok pem → load_pem_chain pem = Ok certs.
Proof.
  intros Hne. unfold pem_cert_chain. destruct (mapM certificate_to_der certs) as [ders|] eqn:Ed; [|done].
  cbn [ok_or rbind]. destruct (mapM pem_encode ders) as [pems|] eqn:Ep; [|done]. intros [= <-]. by eapply pem_chain_back.
Qed.
End cert_chain.

(** ** The chain of a server's anchor *)

Section served.
Context `{!Rumors, !BaseboardOps, !Sha3, !LruCache, !Pki, !X509, !Pem, !EqDecision Certificate}.
Context (not_before not_after : Validity → DateTime) (name_to_string : Name → string) (der_error : string).

(** C13. Anyone can check whom a server lets sign.  Let a server's anchors be the
    certificates [l], with distinct keys.  When it answers a request for the chain of
    one of them with a text, that is the chain from a root to the anchor, and the
    client's verdict on it is a matter of trust and time alone: the chain is refused
    if roots were given and its root is not one of them, or if one of its certificates
    is not in date (the first such is named); otherwise it is accepted, for the
    anchor by which the server verifies the key's jobs. *)
Theorem served_chain_verdict w authorization l kid anchor parent h pem format now roots :
  certificates_new l = Ok (st_certs (w_states w 0%nat)) → NoDup (key_id_of_cert <$> l) →
  anchors (st_certs (w_states w 0%nat)) !! kid = Some (anchor, parent) →
  w_pem w = pem_cert_chain →
  handle_cert_chain w authorization kid = Some h → h_response h = Ok (RespChain pem) →
  ∃ root rest, chain (st_certs (w_states w 0%nat)) kid = Some (Ok (root :: rest)) ∧
    linked (root :: rest) ∧ last (root :: rest) = Some anchor ∧
    cert_chain not_before not_after name_to_string der_error format now kid pem roots =
      if bool_decide (roots ≠ []) && bool_decide (root ∉ roots) then Err CeUntrustedRoot
      else match find_first (λ c, negb (in_date not_before not_after now c)) (root :: rest) with
           | Some c => Err (CeCertExpired (name_to_string (cert_subject c)))
           | None => Ok (anchor, chain_shown name_to_string format pem roots (root :: rest))
           end.
Proof.
  intros Hnew Hnd Hk Hpem Hh Hr. destruct (chain_linked _ _ _ _ _ Hnew Hnd Hk) as (above&Hchain&Hlinked).
  destruct (certificates_new_anchored _ _ _ _ _ Hnew Hk) as [Hid _].
  assert (Hlast : last (above ++ [anchor]) = Some anchor) by apply last_snoc.
  destruct (above ++ [anchor]) as [|root rest]; [done|].
  exists root, rest. split_and!; [done|done|done|]. destruct Hlinked as [Hroot Hlinks].
  apply cert_chain_verdict; [|done|by apply linked_signed|done|done].
  apply pem_chain_reads_back; [done|].
  unfold handle_cert_chain in Hh. destruct (requester authorization); [|by injection Hh as <-].
  unfold Manager.cert_chain in Hh. rewrite Hchain in Hh. cbn in Hh. injection Hh as <-. rewrite Hpem in Hr. unfold reply in Hr. cbn in Hr.
  destruct (pem_cert_chain (root :: rest)); [|done]. by injection Hr as ->.
Qed.
End served.
