(* ===== verification/Dispatch.v ===== *)
(** * Running one command ([client/src/commands.rs])

    What every command of the client does first, and where it goes from there: whether
    it needs a server and handles interrupts itself ([ClientCommandProperties]), the
    client it is given, and [ClientCommand::run] over the REPL of [Repl.v], the
    programs of [Commands.v], and the identity and certificate commands.  The change of
    the signer by a login is that of [ClientLogin.v] and is left out here. *)
From S2P Require Import Prelude External Codephrases Hash Targets Keys Ssh Jobs Messages Headers Authn Agent.
From S2P Require Import Manager Output ClientErrors Addresses Ephemeral ProxyTls Tunnel Config Repl.
From S2P Require Import Watch Effects TargetArgs Commands CertChain.
#[local] Set Warnings "-register-all".
Open Scope N_scope.

(** ** Commands and their properties *)

(** [ClientCommandProperties]. *)
Class Properties (C : Type) := { is_online : C → bool; handles_sigint : C → bool }.
Class DefaultOf (C : Type) := default_of : C.

(** The trait's defaults. *)
Definition online_by_default : bool := true.
Definition sigint_by_default : bool := false.

(** An omitted subcommand has the properties of its default. *)
#[export] Instance option_properties `{Properties C, DefaultOf C} : Properties (option C) := {
  is_online c := match c with Some c => is_online c | None => is_online default_of end;
  handles_sigint c := match c with Some c => handles_sigint c | None => handles_sigint default_of end;
}.

(** [CertCommand], [IdentityCommand]. *)
Inductive CertCommand := CcChain (kid : KeyId) (root_certs : list string).
Inductive IdentityCommand := IcAvailable | IcList | IcLogin.
#[export] Instance identity_default : DefaultOf IdentityCommand := IcLogin.
#[export] Instance session_default : DefaultOf SessionCommand := default_session_command.

#[export] Instance cert_properties : Properties CertCommand := {
  is_online _ := online_by_default;
  handles_sigint _ := sigint_by_default;
}.
#[export] Instance identity_properties : Properties IdentityCommand := {
  is_online c := negb (match c with IcAvailable => true | _ => false end);
  handles_sigint _ := sigint_by_default;
}.
#[export] Instance session_properties : Properties SessionCommand := {
  is_online _ := online_by_default;
  handles_sigint _ := sigint_by_default;
}.
#[export] Instance job_properties : Properties JobCommand := {
  is_online _ := online_by_default;
  handles_sigint c := match c with JcStart _ | JcAttach _ _ => true | _ => false end;
}.

(** [ClientCommand]. *)
Inductive ClientCommand :=
| CmCert (c : CertCommand)
| CmIam (c : option IdentityCommand)
| CmSession (c : option SessionCommand)
| CmJob (c : JobCommand)
| CmSet (supplied : SuppliedOptions)
| CmUnset (options : list string)
| CmShell
| CmVersion
| CmQuit.
#[export] Instance command_default : DefaultOf ClientCommand := CmShell.

#[export] Instance command_properties : Properties ClientCommand := {
  is_online c :=
    match c with
    | CmCert c => is_online c
    | CmIam c => is_online c
    | CmSession c => is_online c
    | CmJob c => is_online c
    | CmShell | CmVersion | CmSet _ | CmUnset _ | CmQuit => false
    end;
  handles_sigint c :=
    match c with
    | CmCert c => handles_sigint c
    | CmIam c => handles_sigint c
    | CmSession c => handles_sigint c
    | CmJob c => handles_sigint c
    | CmShell => true
    | CmVersion | CmSet _ | CmUnset _ | CmQuit => false
    end;
}.

(** [u8::from_str]: digits, with at most a plus before them. *)
Definition parse_u8 (s : string) : option N :=
  let digits := match s with String c rest => if Ascii.N_of_ascii c =? 43 then rest else s | EmptyString => s end in
  if negb (bool_decide (digits = EmptyString)) && all_chars is_digit digits then parse_u8_go digits 0 else None.

(** [parallel_chunks]: a [NonZeroU8], as [str::parse] reads one. *)
Definition parallel_chunks (s : string) : result N string :=
  match parse_u8 s with
  | None | Some 0 => Err "expected a count from 1 to 64"%string
  | Some n => if MAX_PARALLEL_CHUNKS <? n then Err "at most 64 simultaneous downloads"%string else Ok n
  end.

(** ** Running them *)

Section identities.
Context {Isha : Sha3} {Ipki : Pki} {Issh : Ssh}.

(** What a command prints, besides what its program asks to show. *)
Inductive Printed :=
| ShIdentity (kid : KeyId) (key : SshPublicKey)
| ShNoIdentities
| ShIdentities (keys : list (KeyId * SshPublicKey * string))
| ShAuthenticated (i : Identity)
| ShChain (c : ChainShown)
| ShOptions (lines : list string)
| ShVersions (client : VersionInfo) (server : option VersionInfo) (sleds : list SledVersion)
| ShError (e : CommandError).

(** [ssh_key::PublicKey]'s parser. *)
Context (ssh_from_bytes : list byte → option SshPublicKey).

(** [Cli::identities]: as text a key at a time, as JSON all or none. *)
Fixpoint identities_text (keys : list SshPublicKey) : result () CommandError * list Printed :=
  match keys with
  | [] => (Ok (), [])
  | key :: keys =>
    match ssh_key_id key with
    | Err e => (Err (CeKey e), [])
    | Ok kid => let '(r, shown) := identities_text keys in (r, ShIdentity kid key :: shown)
    end
  end.
Fixpoint identities_json (keys : list SshPublicKey) : result (list (KeyId * SshPublicKey * string)) CommandError :=
  match keys with
  | [] => Ok []
  | key :: keys =>
    let? kid := map_err CeKey (ssh_key_id key) in
    let? openssh := map_err CeSshKey (ssh_to_openssh key) in
    let? keys := identities_json keys in
    Ok ((kid, key, openssh) :: keys)
  end.
Definition show_identities (format : OutputFormat) (keys : list SshPublicKey) : result () CommandError * list Printed :=
  match format with
  | OfJson => match identities_json keys with Ok keys => (Ok (), [ShIdentities keys]) | Err e => (Err e, []) end
  | OfText => match keys with [] => (Ok (), [ShNoIdentities]) | _ => identities_text keys end
  end.

(** The keys [iam available] keeps; a key without an identifier fails it only when it
    looks for one. *)
Fixpoint available_keys (wanted : option KeyId) (keys : list SshPublicKey) : result (list SshPublicKey) CommandError :=
  match keys with
  | [] => Ok []
  | key :: keys =>
    let? keep := match wanted with
                 | Some kid => let? id := map_err CeKey (ssh_key_id key) in Ok (bool_decide (id = kid))
                 | None => Ok true
                 end in
    let? keys := available_keys wanted keys in
    Ok (if keep then key :: keys else keys)
  end.

(** [iam available]: the agent is connected to, and what is written may not arrive. *)
Definition iam_available (format : OutputFormat) (connect : string → result AgentConnection IdentityError) (wrote : bool)
    (ssh_auth_sock : option string) (wanted : option KeyId) : result () CommandError * list Printed :=
  match ssh_auth_sock with
  | None => (Err CeMissingSshAuthSock, [])
  | Some sock =>
    match (let? c := map_err CeIdentity (connect sock) in
           let? keys := map_err CeIdentity (list_identities ssh_from_bytes wrote c).1 in
           available_keys wanted keys) with
    | Err e => (Err e, [])
    | Ok keys => show_identities format keys
    end
  end.
End identities.

(** ** Commands without a client *)

(** The effects that go to the server; the others are the terminal's, the disk's and
    the user's. *)
Definition contacts {X} (e : Effect X) : bool :=
  match e with
  | DoRandomNonce | DoWinsize | DoReadSignedJob | DoPathExists _ | DoOpen _ _ | DoConfirmSupersede _ | DoConfirmTarget _
  | DoShowStartParams _ _ _ | DoShowJobParams _ | DoPrintOutput _ _ _ _ _ | DoReport _ => false
  | _ => true
  end.

Section local.
Context {Isha : Sha3} {Ibb : BaseboardOps}.

(** A program that contacts no one, whatever the answers. *)
Definition stays_local {A} (m : Client Ctx A) : Prop :=
  ∀ h c, always (λ _ _ e, contacts e = false) (λ _ _, True) h (m c).

Lemma local_bind {A B} (m : Client Ctx A) (f : A → Client Ctx B) :
  stays_local m → (∀ a, stays_local (f a)) → stays_local (bind m f).
Proof.
  intros Hm Hf h c. apply always_client. eapply always_mono, Hm; [done|]. intros h' [[a|e] c'] _; [apply Hf|done].
Qed.
Lemma local_attempt {A} (m : Client Ctx A) : stays_local m → stays_local (attempt m).
Proof. intros Hm h c. apply always_attempt. eapply always_mono, Hm; auto. Qed.
Lemma local_ask {X} (e : Effect X) : contacts e = false → stays_local (ask e).
Proof. by intros He h c. Qed.
Lemma local_pure {A} (f : Ctx → result A CommandError * Ctx) : stays_local (λ c, Done (f c)).
Proof. by intros h c. Qed.

(** Take a program without requests apart. *)
Ltac stay :=
  repeat first
    [ progress intros
    | apply local_bind | apply local_attempt | apply local_pure | apply local_ask; done
    | match goal with
      | |- stays_local (match ?x with _ => _ end) => destruct x
      | |- stays_local (if ?b then _ else _) => destruct b
      end ].

Lemma session_offline cmd : stays_local (session false cmd).
Proof. unfold session, session_attach. stay. Qed.

Lemma start_offline args : stays_local (start_command false args).
Proof. unfold start_command, job_start_request, start_mode, session_or_missing, get_ok, show. stay. Qed.

Lemma skip_offline id : stays_local (skip_command false id).
Proof.
  unfold skip_command, session_or_missing, get_ok. stay. intros h c. by destruct (job_skipped _ c).
Qed.

Lemma job_offline cmd : stays_local (job false cmd).
Proof. destruct cmd; cbn [job]; [apply start_offline| |apply skip_offline|..]; stay. Qed.

(** A program that stays local moves the world by local effects only. *)
Lemma local_run {W A} (R : W → W → Prop) (serve : Server W) (m : Client Ctx A) c w :
  Reflexive R → Transitive R → (∀ X (e : Effect X) w, contacts e = false → R w (serve X e w).2) →
  stays_local m → R w (run serve (m c) w).2.
Proof.
  intros Hr Ht Hs Hm. specialize (Hm [] c). revert Hm. generalize (@nil Asked). revert w.
  induction (m c) as [a|X e k IH]; intros w h; cbn; [done|]. intros [He Hk]. specialize (Hs X e w He) as H1.
  destruct (serve X e w) as [r w']. etrans; [exact H1|]. by apply (IH r w' _ (Hk r)).
Qed.
End local.

(** ** [ClientCommand::run] *)

(** The requests of the identity, certificate and version commands, each behind
    [with_login] but for the versions. *)
Record Requests {Ipki : Pki} {Issh : Ssh} (W : Type) := mkRequests {
  rq_identities : W → result (list Identity) CommandError * W;
  rq_iam : W → result Identity CommandError * W;
  rq_cert_chain : KeyId → W → result string CommandError * W;
  rq_version : W → result VersionInfo CommandError * W;
  rq_versions : W → result (list SledVersion) CommandError * W;
}.
Arguments rq_identities {Ipki Issh W} _ _.
Arguments rq_iam {Ipki Issh W} _ _.
Arguments rq_cert_chain {Ipki Issh W} _ _ _.
Arguments rq_version {Ipki Issh W} _ _.
Arguments rq_versions {Ipki Issh W} _ _.

Section dispatch.
Context {Isha : Sha3} {Ibb : BaseboardOps} {Ipki : Pki} {Issh : Ssh} `{!X509, !Pem, !EqDecision Certificate}.
Context {ClapError Authz Root Der Tcp Tls WebSocket W : Type}.
Context (lenient strict : Command → list string → result ArgMatches ClapError)
  (selection : ArgMatches → result (option string * option string) ClapError)
  (globals_from : ArgMatches → result GlobalArgs ClapError)
  (parse_toml : string → result (list (string * TomlValue)) string) (read_to_string : string → result string string)
  (default_file : option string) (client_args globals : Command)
  (clap_error : ClapError → CommandError) (config_error : ConfigError → CommandError) (env : string → option string).
Context (parse_uri : string → option Uri) (uri_parses url_parses : string → bool) (load_roots : list byte → option (list Der))
  (store_add : Der → bool) (server_name : string → result string string) (if_nametoindex : string → N)
  (platform_roots : result (list Root) CommandError) (root_from_pem : list byte → result Root CommandError)
  (tunnel_error : TunnelError → CommandError) (tls_error : ProxyTlsError → CommandError)
  (make_client : list Root → option SocketAddrV6 → result () CommandError).
Context (not_before not_after : Validity → DateTime) (name_to_string : Name → string) (der_error : string).
Context (ssh_from_bytes : list byte → option SshPublicKey)
  (connect : string → result AgentConnection IdentityError) (wrote : bool).

Local Abbreviation REPL := (@Repl Authz Root Der).
Local Abbreviation HANDLE := (@ClientHandle Root Der).
Local Abbreviation NETWORK := (@Network Der Tcp Tls WebSocket).
Local Abbreviation client_handle := (client_handle (Authz := Authz) (Tcp := Tcp) (Tls := Tls) (WebSocket := WebSocket)
  parse_uri uri_parses url_parses load_roots store_add server_name if_nametoindex platform_roots root_from_pem tunnel_error
  tls_error make_client).
Local Abbreviation begin_command := (begin_command (Authz := Authz) (Tcp := Tcp) (Tls := Tls) (WebSocket := WebSocket)
  parse_uri uri_parses url_parses load_roots store_add server_name if_nametoindex platform_roots root_from_pem tunnel_error
  tls_error make_client).
Local Abbreviation set_options := (set_options (Authz := Authz) (Root := Root) (Der := Der) lenient strict selection globals_from
  parse_toml read_to_string default_file client_args globals clap_error config_error env).
Local Abbreviation unset_options := (unset_options (Authz := Authz) (Root := Root) (Der := Der) lenient strict selection globals_from
  parse_toml read_to_string default_file client_args globals clap_error config_error env).

(** What answers the programs, with a client or without; the requests of a client; and
    the REPL that [shell] starts. *)
Context (serve : option HANDLE → Server W) (requests : HANDLE → Requests W) (shell : GlobalArgs → W → result () CommandError * W).
(** [VersionInfo::current], and the time a chain is checked at. *)
Context (current : VersionInfo) (now : DateTime).

(** The REPL, its session and files, and the world. *)
Record Running := mkRunning { rn_repl : REPL; rn_ctx : Ctx; rn_world : W }.
Definition with_repl (x : Running) (r : REPL) : Running := mkRunning r (rn_ctx x) (rn_world x).
Definition with_world (x : Running) (w : W) : Running := mkRunning (rn_repl x) (rn_ctx x) w.
Definition Ended : Type := result () CommandError * list Printed * Running.

(** A program of [Commands.v], by the client that may be there. *)
Definition run_program (client : option HANDLE) (p : bool → Client Ctx ()) (x : Running) : Ended :=
  let '((r, c), w) := run (serve client) (p (match client with Some _ => true | None => false end) (rn_ctx x)) (rn_world x) in
  (r, [], mkRunning (rn_repl x) c w).

(** A request, and what is shown of its answer. *)
Definition requested {A} (request : W → result A CommandError * W) (shown : A → list Printed) (x : Running) : Ended :=
  let '(r, w) := request (rn_world x) in
  match r with
  | Ok a => (Ok (), shown a, with_world x w)
  | Err e => (Err e, [], with_world x w)
  end.

(** [iam]. *)
Definition iam (client : option HANDLE) (command : IdentityCommand) (x : Running) : Ended :=
  let g := rp_globals (rn_repl x) in
  match command, client with
  | IcAvailable, _ =>
    let '(r, shown) :=
      iam_available ssh_from_bytes (rp_output (rn_repl x)) connect wrote (g_ssh_auth_sock g) (g_ssh_key_id g) in
    (r, shown, x)
  | _, None => (Err CeOffline, [], x)
  | IcList, Some h => requested (rq_identities (requests h)) (map ShAuthenticated) x
  | IcLogin, Some h => requested (rq_iam (requests h)) (λ i, [ShAuthenticated i]) x
  end.

(** [cert]: the roots are read before anything is asked. *)
Definition cert_command (nw : NETWORK) (h : HANDLE) (command : CertCommand) (x : Running) : Ended :=
  let 'CcChain kid root_certs := command in
  match cert_roots (nw_read nw) root_certs with
  | Err e => (Err e, [], x)
  | Ok roots =>
    let '(answer, w) := rq_cert_chain (requests h) kid (rn_world x) in
    match (let? certs := answer in
           cert_chain not_before not_after name_to_string der_error (rp_output (rn_repl x)) now kid certs roots) with
    | Err e => (Err e, [], with_world x w)
    | Ok (_, shown) => (Ok (), [ShChain shown], with_world x w)
    end
  end.

(** [version]: the client's own in any case, a failure to connect being shown. *)
Definition version_command (nw : NETWORK) (x : Running) : Ended :=
  let '(handle, r) := client_handle nw (rn_repl x) in
  let x := with_repl x r in
  let '(handle, shown) := match handle with Ok h => (h, []) | Err e => (None, [ShError e]) end in
  match handle with
  | None => (Ok (), shown ++ [ShVersions current None []], x)
  | Some h =>
    let '(server, w) := rq_version (requests h) (rn_world x) in
    match server with
    | Err e => (Err e, shown, with_world x w)
    | Ok server =>
      let '(sleds, w) := rq_versions (requests h) w in
      (Ok (), shown ++ [ShVersions current (Some server) (match sleds with Ok l => l | Err _ => [] end)], with_world x w)
    end
  end.

(** [Repl::set_options] and [unset_options], and what they show. *)
Definition options_command (change : REPL → result (list string) CommandError * REPL) (x : Running) : Ended :=
  let '(r, repl) := change (rn_repl x) in
  match r with
  | Ok lines => (Ok (), [ShOptions lines], with_repl x repl)
  | Err e => (Err e, [], with_repl x repl)
  end.

(** [ClientCommand::run]. *)
Definition run_command (nw : NETWORK) (cmd : ClientCommand) (x : Running) : Ended :=
  let '(handle, r) := begin_command nw (is_online cmd) (rn_repl x) in
  let x := with_repl x r in
  match handle with
  | Err e => (Err e, [], x)
  | Ok client =>
    match cmd, client with
    | CmCert command, Some h => cert_command nw h command x
    | CmIam command, client => iam client (default default_of command) x
    | CmSession command, client => run_program client (λ online, session online (default default_of command)) x
    | CmJob command, client => run_program client (λ online, job online command) x
    | CmSet supplied, _ => options_command (set_options supplied) x
    | CmUnset options, _ => options_command (unset_options options) x
    | CmShell, _ => let '(r, w) := shell (rp_globals (rn_repl x)) (rn_world x) in (r, [], with_world x w)
    | CmVersion, _ => version_command nw x
    | CmQuit, _ => (Err CeQuit, [], x)
    | CmCert _, None => (Err CeOffline, [], x)
    end
  end.

(** ** What needs a client *)

(** The commands that are nothing without one. *)
Definition needs_server (cmd : ClientCommand) : bool :=
  match cmd with
  | CmCert _ => true
  | CmIam c => is_online c
  | CmSession c => match default default_of c with ScAttach (Some _) _ => false | _ => true end
  | CmJob (JcStart args) => match sa_command args with Some _ => false | None => true end
  | CmJob (JcSkip _) => false
  | CmJob _ => true
  | _ => false
  end.

Lemma begin_offline nw online (r : REPL) :
  rp_handle r = None → g_url (rp_globals r) = None → g_nexus (rp_globals r) = None →
  (begin_command nw online r).1 = Ok None ∧ (client_handle nw (begin_command nw online r).2).1 = Ok None.
Proof.
  intros Hh Hu Hn. assert (Hf : from_args parse_uri uri_parses url_parses load_roots store_add server_name if_nametoindex
    platform_roots root_from_pem tunnel_error tls_error make_client nw (rp_globals r) = Ok None).
  { unfold from_args. by rewrite Hn, Hu. }
  unfold Repl.begin_command.
  set (r1 := match output_format _ with Some _ => _ | None => _ end).
  assert (H1 : rp_globals r1 = rp_globals r ∧ rp_handle r1 = rp_handle r) by (unfold r1; by destruct (output_format _)).
  destruct H1 as [Hg1 Hh1]. unfold Repl.client_handle. rewrite Hh1, Hh, Hg1.
  destruct online; cbn [fst snd]; rewrite ?Hh1, ?Hh, ?Hg1, Hf; cbn [fst snd rp_handle rp_globals]; [|done].
  by rewrite ?Hg1, Hf.
Qed.

Lemma iam_agent client x : ∃ r shown, iam client IcAvailable x = (r, shown, x).
Proof. unfold iam. match goal with |- context [let '(r, shown) := ?a in _] => destruct a as [r shown] end. eauto. Qed.

(** Offline, the client contacts no one: with no URL in the options, no command but the
    REPL's own moves the world other than by the effects of the terminal and the disk.
    A command that needs the server says so and does nothing; the others work. *)
Theorem offline_contacts_no_one (R : W → W → Prop) nw cmd x :
  Reflexive R → Transitive R → (∀ X (e : Effect X) w, contacts e = false → R w (serve None X e w).2) →
  cmd ≠ CmShell → rp_handle (rn_repl x) = None → g_url (rp_globals (rn_repl x)) = None → g_nexus (rp_globals (rn_repl x)) = None →
  let '(r, shown, x') := run_command nw cmd x in
  R (rn_world x) (rn_world x') ∧
  (needs_server cmd = true → r = Err CeOffline ∧ shown = [] ∧ rn_ctx x' = rn_ctx x ∧ rn_world x' = rn_world x).
Proof.
  intros Hr Ht Hs Hshell Hh Hu Hn. destruct (begin_offline nw (is_online cmd) (rn_repl x) Hh Hu Hn) as [Hb Hc].
  unfold run_command. destruct (begin_command nw (is_online cmd) (rn_repl x)) as [handle r]. cbn [fst snd] in Hb, Hc. subst handle.
  assert (Hp : ∀ p, stays_local (p false) →
    let '(_, _, x') := run_program None p (with_repl x r) in R (rn_world x) (rn_world x')).
  { intros p Hp. unfold run_program. cbn [rn_ctx rn_world with_repl].
    pose proof (local_run R (serve None) (p false) (rn_ctx x) (rn_world x) Hr Ht Hs Hp) as H1.
    by destruct (run (serve None) (p false (rn_ctx x)) (rn_world x)) as [[? ?] w]. }
  destruct cmd as [c|c|c|c|o|o| | |]; cbn [needs_server]; try done.
  - destruct (iam_agent None (with_repl x r)) as (r0&shown&E). destruct c as [[]|]; cbn [from_option]; unfold id; rewrite ?E; done.
  - specialize (Hp (λ online, session online (default default_of c)) (session_offline _)).
    destruct (default default_of c) as [| [sid|] force| | | |]; cbn in Hp |- *; done.
  - specialize (Hp (λ online, job online c) (job_offline _)). destruct (run_program _ _ _) as [[r0 shown] x'] eqn:Ex.
    split; [done|]. intros Hserver. destruct c as [args| | | | | | |]; try done; unfold run_program in Ex; cbn in Ex.
    all: unfold start_command in Ex; try (destruct (sa_command args); [done|]); cbn in Ex; by simplify_eq.
  - unfold options_command. by destruct (set_options _ _) as [[] ?].
  - unfold options_command. by destruct (unset_options _ _) as [[] ?].
  - unfold version_command. cbn [rn_repl with_repl]. destruct (client_handle nw r) as [handle r']. cbn in Hc. by subst handle.
Qed.

(** Only commands that are online go to the network, but for [version], which tries, and
    the REPL: every other one does the same on any network, and leaves the world alone. *)
Lemma local_commands_stay nw nw' cmd x :
  is_online cmd = false → cmd ≠ CmShell → cmd ≠ CmVersion →
  run_command nw cmd x = run_command nw' cmd x ∧ rn_world (run_command nw cmd x).2 = rn_world x.
Proof.
  intros Ho H1 H2. unfold run_command. rewrite Ho. unfold Repl.begin_command.
  destruct cmd as [[]|[[]|]|[]|c|o|o| | |]; try done.
  - cbn [from_option]; unfold id. match goal with |- context [iam None IcAvailable ?y] => destruct (iam_agent None y) as (r0&shown&->) end.
    by destruct (output_format _).
  - unfold options_command. by destruct (set_options _ _) as [[] ?].
  - unfold options_command. by destruct (unset_options _ _) as [[] ?].
Qed.
End dispatch.

(** What [iam available] keeps: the agent's keys with the wanted identifier. *)
Lemma available_keys_ok `{!Sha3, !Pki, !Ssh} wanted keys l :
  available_keys wanted keys = Ok l →
  l = match wanted with Some kid => List.filter (has_key_id kid) keys | None => keys end.
Proof.
  revert l. induction keys as [|key keys IH]; intros l; cbn [available_keys]; [by destruct wanted; intros [= <-]|].
  destruct wanted as [kid|]; cbn [rbind].
  - cbn [List.filter]. unfold has_key_id at 1. destruct (ssh_key_id key) as [id|e]; cbn [map_err rbind]; [|done].
    destruct (available_keys (Some kid) keys) as [l'|]; cbn [rbind]; [|done]. intros [= <-]. rewrite (IH l' eq_refl).
    by case_bool_decide.
  - destruct (available_keys None keys) as [l'|]; cbn [rbind]; [|done]. intros [= <-]. by rewrite (IH l' eq_refl).
Qed.

(** The parallel downloads accepted. *)
Lemma parallel_chunks_ok s n : parallel_chunks s = Ok n ↔ parse_u8 s = Some n ∧ 1 <= n <= MAX_PARALLEL_CHUNKS.
Proof.
  unfold parallel_chunks. destruct (parse_u8 s) as [[|p]|]; [split; [done|intros [[= <-] ?]; lia]| |by split; [|intros [? _]]].
  destruct (N.ltb_spec MAX_PARALLEL_CHUNKS (N.pos p)); split; intros Hn; try done.
  - destruct Hn as [[= <-] ?]. lia.
  - injection Hn as <-. split; [done|lia].
  - by destruct Hn as [[= <-] _].
Qed.

(** Interrupts are left to the REPL, and to the commands that talk to a job. *)
Lemma interrupts_handled cmd :
  handles_sigint cmd = true ↔
  cmd = CmShell ∨ (∃ args, cmd = CmJob (JcStart args)) ∨ (∃ id t, cmd = CmJob (JcAttach id t)).
Proof.
  split.
  - destruct cmd as [[]|[[]|]|[[]|]|[]| | | | |]; cbn; try done; eauto 6.
  - by intros [->|[[args ->]|(id&t&->)]].
Qed.
