(* ===== verification/Display.v ===== *)
(** * What the client shows ([client/src/cli.rs])

    The drawing of the rack, a job's statuses, and the live lines of a watched job, as
    the text that is printed; a drawing of the rack holds every sled once, in its
    cubby, and the live lines of a watched job stay in order, aligned, and stop with
    the job.  The rendering of times, durations and sizes, and the codes that colour a
    terminal, are parameters. *)
From S2P Require Import Prelude External Codephrases Hash Targets Keys Jobs Messages Headers Rack Certs History Boundary.
From S2P Require Import Executor State Manager Output ClientErrors Repl.
From stdpp Require Import pretty.
#[local] Set Warnings "-register-all".
Open Scope N_scope.

(** ** Formatting *)

Definition tab : string := String (Ascii.ascii_of_N 9) EmptyString.
Definition lines (l : list string) : string := String.concat newline l.

(** Characters of UTF-8: every byte but a continuation byte starts one. *)
Definition is_continuation (c : Ascii.ascii) : bool := (128 <=? Ascii.N_of_ascii c) && (Ascii.N_of_ascii c <? 192).
Fixpoint char_count (s : string) : nat :=
  match s with
  | EmptyString => O
  | String c s => if is_continuation c then char_count s else S (char_count s)
  end.
Fixpoint take_chars (n : nat) (s : string) : string :=
  match s with
  | EmptyString => EmptyString
  | String c rest =>
    if is_continuation c then String c (take_chars n rest)
    else match n with O => EmptyString | S n => String c (take_chars n rest) end
  end.
Fixpoint repeat_string (n : nat) (s : string) : string :=
  match n with O => EmptyString | S n => s +:+ repeat_string n s end.
Definition spaces (n : nat) : string := repeat_string n " ".

(** The formats [{:<w}], [{:<w.w}] and [{:>w.w}]. *)
Definition pad_left_aligned (w : nat) (s : string) : string := s +:+ spaces (w - char_count s).
Definition fit_left_aligned (w : nat) (s : string) : string := pad_left_aligned w (take_chars w s).
Definition fit_right_aligned (w : nat) (s : string) : string :=
  let t := take_chars w s in spaces (w - char_count t) +:+ t.

(** [str::ends_with]. *)
Fixpoint ends_with (suffix s : string) : bool :=
  bool_decide (s = suffix) || match s with EmptyString => false | String _ s => ends_with suffix s end.

(** [Display] of [VersionInfo], [SkipReason] and [ProcessError]. *)
Definition version_to_string (v : VersionInfo) : string := version v +:+ " (" +:+ commit v +:+ ")".
Definition skip_reason_to_string (r : SkipReason) : string :=
  match r with
  | SessionSuperseded => "another session has superseded this one"
  | SessionEnded => "the session ended before the job could start"
  | NotTargeted => "the job does not target this sled"
  | CubbyUnknown => "this sled does not know its cubby yet"
  end.
Definition process_error_to_string (e : ProcessError) : string :=
  match e with
  | PUnknown => "The fate of the process is unknown"
  | PKilled signal => "Process killed with signal " +:+ pretty signal
  | PInteractive message => "Interactive session error: " +:+ message
  | PInvalidCommand => "Command must not start with `-`"
  | PInvalidJob message => "Job validation error: " +:+ message
  | PIo what error => "I/O error " +:+ what +:+ ": " +:+ error
  | POutputLimitExceeded stream limit =>
    output_stream_to_string stream +:+ " exceeded the output limit of " +:+ pretty limit +:+ " bytes"
  | PJoin message => "Unable to join job process: " +:+ message
  | PInterrupted => "The server restarted while the job was running"
  end.

(** [read_bool], of the line read. *)
Definition read_bool (input : string) : bool :=
  let answer := to_ascii_lowercase (trim input) in bool_decide (answer = "y") || bool_decide (answer = "yes").
(** [really_supersede] and [really_target]. *)
Definition really (input : result string CommandError) : result () CommandError :=
  rbind input (λ line, if read_bool line then Ok () else Err CeCanceled).

(** ** The rack *)

Inductive Style := Green | Yellow | Red | Plain.

(** [health_style]. *)
Definition health_style (sled : SledVersion) : Style :=
  match sv_health sled with
  | Some Linked => Green
  | Some Unlinked => match sv_version sled with Some _ => Yellow | None => Red end
  | Some HealthUnknown | None => Plain
  end.

Definition CELL : nat := 28.

Section rack.
(** A style's codes: [{style}] and [{style:#}]. *)
Variables style_on style_off : Style → string.

(** [rack_cell]. *)
Definition build_text (sled : SledVersion) : string :=
  match sv_version sled with
  | Some v =>
    let dirty := if ends_with "-dirty" (commit v) then "+" else "" in
    version v +:+ " " +:+ take_chars 7 (commit v) +:+ dirty
  | None => ""
  end.
Definition rack_cell (sled : option SledVersion) : string :=
  match sled with
  | Some sled =>
    let build := build_text sled in
    let style := health_style sled in
    style_on style +:+ " " +:+ fit_left_aligned 12 (serial_number (sv_baseboard sled)) +:+ fit_right_aligned 14 build +:+ " " +:+ style_off style
  | None => spaces CELL
  end.

(** [draw_rack]. *)
Definition place (m : gmap N SledVersion) (sled : SledVersion) : gmap N SledVersion :=
  match sv_cubby sled with Some c => <[c := sled]> m | None => m end.
Definition by_cubby (sleds : list SledVersion) : gmap N SledVersion := foldl place ∅ sleds.
Definition fit_number (w : nat) (n : N) : string := let s : string := pretty n in spaces (w - String.length s) +:+ s.
Definition row_text (row : N) (in_left in_right : option SledVersion) : string :=
  fit_number 3 (2 * row) +:+ " │" +:+ rack_cell in_left +:+ "│" +:+ rack_cell in_right +:+ "│ " +:+ pretty (2 * row + 1) +:+ newline.
Definition rack_row (m : gmap N SledVersion) (row : N) : string := row_text row (m !! (2 * row)) (m !! (2 * row + 1)).
Definition is_stray (sled : SledVersion) : bool :=
  match sv_cubby sled with None => true | Some cubby => MAX_CUBBY <? cubby end.
Definition stray_row (sled : SledVersion) : string := " ?? │" +:+ rack_cell (Some sled) +:+ "│" +:+ newline.
Definition bar : string := repeat_string CELL "─".
Definition upper_rows : list N := [15; 14; 13; 12; 11; 10; 9; 8].
Definition lower_rows : list N := [7; 6; 5; 4; 3; 2; 1; 0].
Definition draw_rack (sleds : list SledVersion) : string :=
  let m := by_cubby sleds in
  "    ┌" +:+ bar +:+ "┬" +:+ bar +:+ "┐" +:+ newline +:+
  String.concat "" (map (rack_row m) upper_rows) +:+
  "    ├" +:+ bar +:+ "┼" +:+ bar +:+ "┤" +:+ newline +:+
  String.concat "" (map (rack_row m) lower_rows) +:+
  "    └" +:+ bar +:+ "┴" +:+ bar +:+ "┘" +:+ newline +:+
  String.concat "" (map stray_row (List.filter is_stray sleds)).

(** [Cli::versions], as text. *)
Definition versions_text (client : VersionInfo) (server : option VersionInfo) (sleds : list SledVersion) : string :=
  "Client:" +:+ tab +:+ version_to_string client +:+ newline +:+
  match server with Some server => "Server:" +:+ tab +:+ version_to_string server +:+ newline | None => "" end +:+
  (if bool_decide (sleds = []) then "" else draw_rack sleds).
End rack.

(** ** Statuses *)

Section status.
Context `{!BaseboardOps}.
(** [Display] of times, [humantime::format_duration], [bytesize], [Display] of hashes. *)
Variables (time_to_string : DateTime → string) (format_duration : Z → string) (byte_size : N → string)
  (hash_to_string : list byte → string).

Definition format_elapsed_duration (d : Z) : string :=
  if (0 <=? d)%Z then format_duration d else "negative duration, times may be unreliable".

(** [short_status_row]; a stopped job's time does not depend on the clock. *)
Definition short_status_row (now : DateTime) (s : JobStatus) : string :=
  match s with
  | Cancelled _ t actor => "Cancelled at " +:+ time_to_string t +:+ " by " +:+ newtype_to_string actor
  | Queued _ t actor => "Queued at " +:+ time_to_string t +:+ " by " +:+ newtype_to_string actor
  | Started _ t => "Started at " +:+ time_to_string t
  | Stopped _ _ _ res output =>
    let res := match res with Ok exit_status => "exit " +:+ pretty exit_status | Err e => process_error_to_string e end in
    "Stopped, " +:+ res +:+ " (" +:+ format_elapsed_duration (time_elapsed now s) +:+ "), " +:+
    byte_size (stdout_len output) +:+ " out, " +:+ byte_size (stderr_len output) +:+ " err"
  | Error _ t e => "Error at " +:+ time_to_string t +:+ ": " +:+ process_error_to_string e
  | Skipped _ t reason => "Skipped at " +:+ time_to_string t +:+ ": " +:+ skip_reason_to_string reason
  end.

(** [StatusDisplayStyle]. *)
Inductive StatusStyle := StyleFull | StyleMedium | StyleShort.
#[export] Instance StatusStyle_eq_dec : EqDecision StatusStyle.
Proof. solve_decision. Defined.

Definition is_failure (s : JobStatus) : bool :=
  match s with Error _ _ _ | Cancelled _ _ _ | Stopped _ _ _ (Err _) _ => true | _ => false end.
Definition medium_icon (status : list (BaseboardId * JobStatus)) : string :=
  if existsb (λ x, is_failure x.2) status then "❌" else "✅".

(** The widest baseboard, in bytes. *)
Definition name_width (l : list BaseboardId) : nat := foldr Nat.max O (map (λ b, String.length (baseboard_to_string b)) l).

(** One sled's status in full: a mark, and its fields. *)
Definition full_icon (s : JobStatus) : string :=
  match s with
  | Cancelled _ _ _ | Error _ _ _ => "❌"
  | Queued _ _ _ => "⏳"
  | Started _ _ | Stopped _ _ _ _ _ => "✅"
  | Skipped _ _ _ => "⏩"
  end.
Definition full_fields (now : DateTime) (s : JobStatus) : list (string * string) :=
  match s with
  | Cancelled _ t actor =>
    [("Job status", "Cancelled"); ("Cancelled at", time_to_string t); ("Cancelled by", newtype_to_string actor)]
  | Queued _ t actor => [("Job status", "Queued"); ("Queued at", time_to_string t); ("Queued by", newtype_to_string actor)]
  | Started _ t => [("Job status", "Started"); ("Started at", time_to_string t)]
  | Stopped _ t t' res o =>
    [("Job status", match res with Ok _ => "Stopped" | Err e => process_error_to_string e end);
     ("Started at", time_to_string t);
     ("Stopped at", time_to_string t' +:+ " (" +:+ format_elapsed_duration (time_elapsed now s) +:+ ")")] ++
    match res with Ok exit_status => [("Exit status", pretty exit_status)] | Err _ => [] end ++
    [("Stdout len", byte_size (stdout_len o)); ("Stderr len", byte_size (stderr_len o));
     ("Stdout hash", hash_to_string (stdout_hash o)); ("Stderr hash", hash_to_string (stderr_hash o))]
  | Error _ t e => [("Job status", "Error"); ("Error at", time_to_string t); ("Error", process_error_to_string e)]
  | Skipped _ t reason => [("Job status", "Skipped"); ("Skipped at", time_to_string t); ("Reason", skip_reason_to_string reason)]
  end.
Definition field (f : string * string) : string := f.1 +:+ ":" +:+ tab +:+ f.2.
Definition full_status (now : DateTime) (b : BaseboardId) (s : JobStatus) : string :=
  full_icon s +:+ " " +:+
  String.concat (newline +:+ "   ")
    (map field (("Job ID", newtype_to_string (status_job_id s)) :: ("Target", baseboard_to_string b) :: full_fields now s)).

(** [Cli::job_status], as text: the lines printed, in the map's order. *)
Definition status_entries (status : JobStatusMap) : list (BaseboardId * JobStatus) :=
  omap (λ b, (b,.) <$> status !! b) (sorted_elements baseboard_le (dom status)).
Definition job_status (now : DateTime) (id : JobId) (status : JobStatusMap) (style : StatusStyle) : list string :=
  let l := status_entries status in
  match style with
  | StyleFull => map (λ x, full_status now x.1 x.2) l
  | _ =>
    (if bool_decide (style = StyleMedium) then [medium_icon l +:+ " Job ID:" +:+ tab +:+ newtype_to_string id] else []) ++
    map (λ x, "   " +:+ pad_left_aligned (name_width l.*1) (baseboard_to_string x.1) +:+ "  " +:+ short_status_row now x.2) l
  end.

(** ** Watching *)

(** A progress bar, and [Watch]: the bars, and the order in which they are drawn. *)
Record Bar := mkBar { bar_prefix : string; bar_message : string; bar_finished : bool }.
Record Bars := mkBars { multi : list BaseboardId; bars : gmap BaseboardId Bar; width : nat }.
Definition bars_new : Bars := mkBars [] ∅ O.

Definition name_prefix (w : nat) (b : BaseboardId) : string := pad_left_aligned w (baseboard_to_string b).

(** The bars before one: [range(..b).count()]. *)
Definition bars_before (m : gmap BaseboardId Bar) (b : BaseboardId) : nat :=
  length (List.filter (λ k, bool_decide (baseboard_le k b ∧ k ≠ b)) (sorted_elements baseboard_le (dom m))).

(** The loop of [job_watch_update] and the whole of it. *)
Definition add_bar (w : Bars) (b : BaseboardId) : Bars :=
  match bars w !! b with
  | Some _ => w
  | None =>
    let index := bars_before (bars w) b in
    mkBars (take index (multi w) ++ b :: drop index (multi w))
      (<[b := mkBar (name_prefix (width w) b) "" false]> (bars w)) (width w)
  end.
Definition set_message (now : DateTime) (w : Bars) (b : BaseboardId) (s : JobStatus) : Bars :=
  match bars w !! b with
  | None => w
  | Some bar =>
    if bar_finished bar then w
    else mkBars (multi w) (<[b := mkBar (bar_prefix bar) (short_status_row now s) (is_terminal s)]> (bars w)) (width w)
  end.
Definition widen (w : Bars) (n : nat) : Bars :=
  if (width w <? n)%nat
  then mkBars (multi w) (map_imap (λ b bar, Some (mkBar (name_prefix n b) (bar_message bar) (bar_finished bar))) (bars w)) n
  else w.
Definition job_watch_update (now : DateTime) (w : Bars) (status : JobStatusMap) : Bars :=
  let l := status_entries status in
  foldl (λ w x, set_message now (add_bar w x.1) x.1 x.2) (widen w (name_width l.*1)) l.
End status.

(** ** Cells *)

Lemma char_count_app s t : char_count (s +:+ t) = (char_count s + char_count t)%nat.
Proof.
  induction s as [|c s IH]; [done|]. rewrite string_app_cons. cbn [char_count]. rewrite IH. by destruct (is_continuation c).
Qed.

Lemma char_count_spaces n : char_count (spaces n) = n.
Proof. unfold spaces. induction n as [|n IH]; [done|]. cbn [repeat_string]. rewrite char_count_app, IH. done. Qed.

Lemma char_count_take n s : (char_count (take_chars n s) <= n)%nat.
Proof.
  revert n. induction s as [|c s IH]; intros n; cbn [take_chars char_count]; [lia|].
  destruct (is_continuation c) eqn:E; [cbn [char_count]; by rewrite E|]. destruct n as [|n]; [done|].
  cbn [char_count]. rewrite E. specialize (IH n). lia.
Qed.

Lemma char_count_fit_left n s : char_count (fit_left_aligned n s) = n.
Proof.
  unfold fit_left_aligned, pad_left_aligned. rewrite char_count_app, char_count_spaces.
  specialize (char_count_take n s). lia.
Qed.
Lemma char_count_fit_right n s : char_count (fit_right_aligned n s) = n.
Proof.
  unfold fit_right_aligned. rewrite char_count_app, char_count_spaces. specialize (char_count_take n s). lia.
Qed.

Section rack.
Variables style_on style_off : Style → string.

(** Every cell is as wide as the frame, but for the codes that colour it. *)
Lemma rack_cell_width sled :
  char_count (rack_cell style_on style_off sled) =
  (CELL + match sled with Some s => char_count (style_on (health_style s)) + char_count (style_off (health_style s)) | None => 0 end)%nat.
Proof.
  destruct sled as [s|]; cbn [rack_cell]; [|by rewrite char_count_spaces].
  rewrite !char_count_app, char_count_fit_left, char_count_fit_right. change (char_count " ") with 1%nat. unfold CELL. lia.
Qed.

(** ** Where each sled is drawn *)

Lemma by_cubby_lookup_from m l c s :
  NoDup (omap sv_cubby l) →
  foldl place m l !! c = Some s ↔
  (s ∈ l ∧ sv_cubby s = Some c) ∨ (m !! c = Some s ∧ c ∉ omap sv_cubby l).
Proof.
  revert m. induction l as [|x l IH]; intros m; cbn; [set_solver|].
  unfold place at 2. destruct (sv_cubby x) as [d|] eqn:Ex; cbn.
  - intros [Hd Hnd]%NoDup_cons. rewrite IH by done. rewrite lookup_insert, elem_of_cons.
    assert (Hin : ∀ y, y ∈ l → sv_cubby y = Some d → False).
    { intros y Hy Ey. apply Hd, list_elem_of_omap. eauto. }
    rewrite not_elem_of_cons. destruct (decide (d = c)) as [->|Hne]; naive_solver.
  - intros Hnd. rewrite IH by done. rewrite elem_of_cons. naive_solver.
Qed.

Lemma by_cubby_lookup l c s :
  NoDup (omap sv_cubby l) → by_cubby l !! c = Some s ↔ s ∈ l ∧ sv_cubby s = Some c.
Proof. intros Hnd. unfold by_cubby. rewrite by_cubby_lookup_from by done. rewrite lookup_empty. naive_solver. Qed.

(** The sleds in the order in which they are drawn. *)
Definition rows : list N := upper_rows ++ lower_rows.
Definition places : list N := flat_map (λ row, [2 * row; 2 * row + 1]) rows.
Definition drawn (sleds : list SledVersion) : list SledVersion :=
  omap (λ c, by_cubby sleds !! c) places ++ List.filter is_stray sleds.

Lemma places_all c : c ∈ places ↔ c <= MAX_CUBBY.
Proof.
  split.
  - intros Hc. assert (Hf : Forall (λ c, c <= MAX_CUBBY) places) by (apply (proj1 (bool_decide_eq_true _)); evaluate).
    by apply (proj1 (Forall_forall _ _) Hf).
  - intros Hc. assert (Hf : Forall (λ n, N.of_nat n ∈ places) (seq 0 32)) by (apply (proj1 (bool_decide_eq_true _)); evaluate).
    rewrite <- (N2Nat.id c). apply (proj1 (Forall_forall _ _) Hf). apply elem_of_seq. unfold MAX_CUBBY in Hc. lia.
Qed.

Lemma places_nodup : NoDup places.
Proof. apply (proj1 (bool_decide_eq_true _)). evaluate. Qed.

Lemma NoDup_omap_lookup {A} (m : gmap N A) (f : A → option N) l :
  (∀ c a, m !! c = Some a → f a = Some c) → NoDup l → NoDup (omap (λ c, m !! c) l).
Proof.
  intros Hf. induction l as [|c l IH]; [constructor|]. intros [Hc Hnd]%NoDup_cons. cbn. destruct (m !! c) as [a|] eqn:E; [|auto].
  apply NoDup_cons. split; [|auto]. intros (d&Hd&Ed)%list_elem_of_omap. apply Hf in E, Ed. congruence.
Qed.

Lemma NoDup_filter_omap {A B} (f : A → option B) (p : A → bool) l :
  NoDup (omap f l) → (∀ a, a ∈ l → p a = true → is_Some (f a)) → NoDup (List.filter p l).
Proof.
  induction l as [|a l IH]; intros Hnd Hp; [constructor|]. cbn. cbn in Hnd.
  assert (IH' : NoDup (List.filter p l)).
  { apply IH; [|intros; apply Hp; [by right|done]]. destruct (f a); [by apply (NoDup_cons_1_2 _ _ Hnd)|done]. }
  destruct (p a) eqn:E; [|done]. destruct (Hp a) as [b Eb]; [by left|done|]. rewrite Eb in Hnd. apply NoDup_cons in Hnd as [Hb _].
  apply NoDup_cons. split; [|done]. intros Hin. apply Hb. apply list_elem_of_In, List.filter_In in Hin as [Hin _].
  apply list_elem_of_omap. exists a. split; [by apply list_elem_of_In|done].
Qed.

Lemma filter_split {A} (p : A → bool) l : List.filter (λ a, negb (p a)) l ++ List.filter p l ≡ₚ l.
Proof.
  induction l as [|a l IH]; [done|]. cbn. destruct (p a); cbn; [|by rewrite IH].
  rewrite <- Permutation_middle. by rewrite IH.
Qed.

Lemma drawn_once sleds : NoDup (omap sv_cubby sleds) → drawn sleds ≡ₚ sleds.
Proof.
  intros Hnd. rewrite <- (filter_split is_stray sleds) at 2. unfold drawn. f_equiv.
  assert (Hlook : ∀ c s, by_cubby sleds !! c = Some s ↔ s ∈ sleds ∧ sv_cubby s = Some c) by (intros; by apply by_cubby_lookup).
  apply NoDup_Permutation.
  - apply (NoDup_omap_lookup _ sv_cubby); [|apply places_nodup]. intros c a [_ Ha]%Hlook. done.
  - eapply NoDup_filter_omap; [exact Hnd|]. intros a _. unfold is_stray. destruct (sv_cubby a); [eauto|done].
  - intros s. rewrite list_elem_of_omap, list_elem_of_In, List.filter_In, <- list_elem_of_In. unfold is_stray.
    setoid_rewrite Hlook. setoid_rewrite places_all. split.
    + intros (c&Hc&Hs&->). split; [done|]. apply negb_true_iff, N.ltb_ge. done.
    + intros [Hs Hn]. destruct (sv_cubby s) as [c|]; [|done]. exists c. apply negb_true_iff, N.ltb_ge in Hn. done.
Qed.
(** The lines of a drawing, their text, and the sleds on them. *)
Inductive Line :=
| Frame (text : string)
| Row (row : N) (in_left in_right : option SledVersion)
| Stray (sled : SledVersion).
Definition line_text (l : Line) : string :=
  match l with
  | Frame text => text
  | Row row in_left in_right => row_text style_on style_off row in_left in_right
  | Stray sled => stray_row style_on style_off sled
  end.
Definition line_sleds (l : Line) : list SledVersion :=
  match l with Frame _ => [] | Row _ in_left in_right => option_list in_left ++ option_list in_right | Stray sled => [sled] end.
Definition picture (l : list Line) : string := String.concat "" (map line_text l).

Lemma concat_cons s l : String.concat "" (s :: l) = s +:+ String.concat "" l.
Proof. destruct l; cbn; [by rewrite string_app_nil_r|done]. Qed.

Lemma picture_app l l' : picture (l ++ l') = picture l +:+ picture l'.
Proof.
  unfold picture. induction l as [|x l IH]; [done|]. cbn [map app]. rewrite !concat_cons, IH. by rewrite string_app_assoc.
Qed.

Definition rack_lines (sleds : list SledVersion) : list Line :=
  let row n := Row n (by_cubby sleds !! (2 * n)) (by_cubby sleds !! (2 * n + 1)) in
  [Frame ("    ┌" +:+ bar +:+ "┬" +:+ bar +:+ "┐" +:+ newline)] ++ map row upper_rows ++
  [Frame ("    ├" +:+ bar +:+ "┼" +:+ bar +:+ "┤" +:+ newline)] ++ map row lower_rows ++
  [Frame ("    └" +:+ bar +:+ "┴" +:+ bar +:+ "┘" +:+ newline)] ++ map Stray (List.filter is_stray sleds).

Lemma draw_rack_lines sleds : draw_rack style_on style_off sleds = picture (rack_lines sleds).
Proof.
  unfold rack_lines. rewrite !picture_app. unfold picture. rewrite !map_map. cbn [map String.concat line_text].
  unfold draw_rack. by rewrite <- !string_app_assoc.
Qed.

Lemma rack_lines_sleds sleds : flat_map line_sleds (rack_lines sleds) = drawn sleds.
Proof.
  unfold rack_lines, drawn, places, rows. rewrite !flat_map_app. cbn [flat_map line_sleds app].
  assert (Hrows : ∀ l, flat_map line_sleds (map (λ n, Row n (by_cubby sleds !! (2 * n)) (by_cubby sleds !! (2 * n + 1))) l) =
                        omap (λ c, by_cubby sleds !! c) (flat_map (λ n, [2 * n; 2 * n + 1]) l)).
  { induction l as [|n l IH]; [done|]. cbn [map flat_map line_sleds]. rewrite IH, omap_app. f_equal. cbn [omap list_omap].
    by destruct (by_cubby sleds !! (2 * n)), (by_cubby sleds !! (2 * n + 1)). }
  rewrite !Hrows, omap_app, <- app_assoc. do 2 f_equal.
  induction (List.filter is_stray sleds) as [|s l IH]; [done|]. cbn. by rewrite IH.
Qed.

Lemma rack_lines_rows sleds row in_left in_right :
  Row row in_left in_right ∈ rack_lines sleds →
  in_left = by_cubby sleds !! (2 * row) ∧ in_right = by_cubby sleds !! (2 * row + 1).
Proof.
  intros Hin. assert (Hs : ∀ l, Row row in_left in_right ∈ map (λ n, Row n (by_cubby sleds !! (2 * n)) (by_cubby sleds !! (2 * n + 1))) l →
    in_left = by_cubby sleds !! (2 * row) ∧ in_right = by_cubby sleds !! (2 * row + 1)).
  { intros l (n&E&_)%list_elem_of_fmap. by injection E as -> -> ->. }
  unfold rack_lines in Hin. rewrite !elem_of_app, !list_elem_of_singleton in Hin.
  destruct Hin as [?|[?|[?|[?|[?|(x&?&_)%list_elem_of_fmap]]]]]; eauto; done.
Qed.

Lemma rack_lines_strays sleds s : Stray s ∈ rack_lines sleds → s ∈ sleds ∧ is_stray s = true.
Proof.
  unfold rack_lines. rewrite !elem_of_app, !list_elem_of_singleton.
  intros [?|[(?&?&_)%list_elem_of_fmap|[?|[(?&?&_)%list_elem_of_fmap|[?|(x&E&Hx)%list_elem_of_fmap]]]]]; try done.
  injection E as ->. by apply list_elem_of_In, List.filter_In in Hx as [?%list_elem_of_In ?].
Qed.
End rack.

(** ** The rack a sled knows *)

Section known.
Context `{!Rumors, !BaseboardOps, !Sha3, !LruCache, !Pki}.
Implicit Types st : State.

Lemma insert_row_perm x l : insert_row x l ≡ₚ x :: l.
Proof.
  induction l as [|y l IH]; [done|]. cbn. destruct (row_le x y); [done|]. rewrite IH. constructor.
Qed.

Lemma sort_rows_perm l : foldr insert_row [] l ≡ₚ l.
Proof. induction l as [|x l IH]; [done|]. cbn. by rewrite insert_row_perm, IH. Qed.

(** Every sled known by cubby or by build. *)
Definition known_sleds st : gset BaseboardId :=
  dom (versions (st_rack st)) ∪ list_to_set (map_to_list (cubbies (st_rack st))).*2.

Lemma find_cubby_spec r b c : find_cubby r b = Some c → cubbies r !! c = Some b.
Proof. intros [_ Hc]%find_first_Some. by apply bool_decide_eq_true in Hc. Qed.

Lemma sled_versions_sleds st b linked : sv_baseboard <$> sled_versions st b linked ≡ₚ elements (known_sleds st).
Proof.
  unfold sled_versions. rewrite sort_rows_perm. rewrite <- list_fmap_compose. cbn.
  unfold known_sleds, sorted_elements. rewrite merge_sort_Permutation. by rewrite list_fmap_id.
Qed.

Lemma omap_find_nodup r l : NoDup l → NoDup (omap (find_cubby r) l).
Proof.
  induction l as [|b l IH]; [constructor|]. intros [Hb Hl]%NoDup_cons. cbn. destruct (find_cubby r b) as [c|] eqn:E; [|auto].
  apply NoDup_cons. split; [|auto]. intros (b'&Hb'&E')%list_elem_of_omap. apply find_cubby_spec in E, E'. congruence.
Qed.

Lemma omap_map {A B C} (f : B → option C) (g : A → B) (l : list A) : omap f (map g l) = omap (λ a, f (g a)) l.
Proof. induction l as [|a l IH]; [done|]. cbn. destruct (f (g a)); [by f_equal|done]. Qed.

Lemma sled_versions_cubbies st b linked : NoDup (omap sv_cubby (sled_versions st b linked)).
Proof.
  unfold sled_versions. rewrite sort_rows_perm, omap_map. apply omap_find_nodup, NoDup_sorted_elements.
Qed.

(** The whole rack is drawn.  The drawing of what a server knows is a list of lines in
    which each sled known by its cubby or by its build is shown exactly once, and a
    sled shown in a row is in the cubby that number names, by the server's map; only
    sleds without a cubby of the rack are listed below it. *)
Theorem whole_rack_drawn style_on style_off st b linked :
  ∃ l : list Line,
    draw_rack style_on style_off (sled_versions st b linked) = picture style_on style_off l ∧
    sv_baseboard <$> flat_map line_sleds l ≡ₚ elements (known_sleds st) ∧
    (∀ row in_left in_right, Row row in_left in_right ∈ l →
       (∀ s, in_left = Some s → cubbies (st_rack st) !! (2 * row) = Some (sv_baseboard s)) ∧
       (∀ s, in_right = Some s → cubbies (st_rack st) !! (2 * row + 1) = Some (sv_baseboard s))) ∧
    (∀ s c, Stray s ∈ l → find_cubby (st_rack st) (sv_baseboard s) = Some c → MAX_CUBBY < c).
Proof.
  set (sleds := sled_versions st b linked). assert (Hnd := sled_versions_cubbies st b linked). fold sleds in Hnd.
  assert (Hfind : ∀ s, s ∈ sleds → sv_cubby s = find_cubby (st_rack st) (sv_baseboard s)).
  { intros s Hs. unfold sleds, sled_versions in Hs. rewrite sort_rows_perm in Hs. by apply list_elem_of_fmap in Hs as (b'&->&_). }
  exists (rack_lines sleds). split_and!; [apply draw_rack_lines|..].
  - rewrite rack_lines_sleds, drawn_once by done. apply sled_versions_sleds.
  - intros row l r [-> ->]%rack_lines_rows.
    assert (Hc : ∀ c s, by_cubby sleds !! c = Some s → cubbies (st_rack st) !! c = Some (sv_baseboard s)).
    { intros c s [Hs Ec]%by_cubby_lookup; [|done]. apply find_cubby_spec. by rewrite <- Hfind. }
    eauto.
  - intros s c [Hs Hp]%rack_lines_strays Hc. unfold is_stray in Hp. rewrite Hfind, Hc in Hp by done. by apply N.ltb_lt.
Qed.
End known.

(** ** Watching *)

Section watching.
Context `{!BaseboardOps}.
Context (time_to_string : DateTime → string) (format_duration : Z → string) (byte_size : N → string).

(** Inserting after the smaller elements of a sorted list keeps it sorted. *)
Lemma sorted_insert {A} (R : relation A) `{!RelDecision R, !EqDecision A, !TotalOrder R} (b : A) (l : list A) :
  StronglySorted R l → let n := length (List.filter (λ k, bool_decide (R k b ∧ k ≠ b)) l) in
  StronglySorted R (take n l ++ b :: drop n l).
Proof.
  induction 1 as [|x l Hl IH Hx]; cbn; [repeat constructor|]. case_bool_decide as Hb.
  - cbn. constructor; [done|]. apply Forall_app. split; [by apply Forall_take|]. constructor; [tauto|by apply Forall_drop].
  - assert (Hbx : R b x).
    { destruct (total R b x) as [?|Hxb]; [done|]. destruct (decide (x = b)) as [->|]; [done|]. exfalso. by apply Hb. }
    assert (E : List.filter (λ k, bool_decide (R k b ∧ k ≠ b)) l = []).
    { clear IH Hl Hb. induction Hx as [|y l Hy _ IH]; [done|]. cbn. rewrite bool_decide_false; [done|].
      intros [Hyb Hne]. apply Hne, (anti_symm R); [done|]. by transitivity x. }
    rewrite E. cbn. constructor; [by constructor|]. constructor; [done|]. eapply Forall_impl; [exact Hx|].
    intros y Hy. by transitivity x.
Qed.

Lemma sorted_keys (X : gset BaseboardId) : StronglySorted baseboard_le (sorted_elements baseboard_le X).
Proof. apply StronglySorted_merge_sort; apply _. Qed.

(** The bars: drawn in the order of the baseboards, each once, with aligned names. *)
Definition bars_ok (w : Bars) : Prop :=
  multi w = sorted_elements baseboard_le (dom (bars w)) ∧
  (∀ b p, bars w !! b = Some p → bar_prefix p = name_prefix (width w) b).

Lemma widen_ok w n : bars_ok w → bars_ok (widen w n).
Proof.
  intros [Hm Hp]. unfold widen. destruct (_ <? _)%nat; [|done]. split; cbn.
  - rewrite Hm. f_equal. apply set_eq. intros b. rewrite !elem_of_dom, map_lookup_imap. by destruct (bars w !! b).
  - intros b p. rewrite map_lookup_imap. destruct (bars w !! b); cbn; [|done]. by intros [= <-].
Qed.

Lemma add_bar_ok w b : bars_ok w → bars_ok (add_bar w b).
Proof.
  intros [Hm Hp]. unfold add_bar. destruct (bars w !! b) eqn:Eb; [done|]. split; cbn.
  - unfold bars_before. rewrite Hm. set (l := sorted_elements baseboard_le (dom (bars w))).
    apply (StronglySorted_unique baseboard_le).
    + apply (sorted_insert baseboard_le b l), sorted_keys.
    + apply sorted_keys.
    + unfold sorted_elements at 1. rewrite merge_sort_Permutation, dom_insert_L, elements_union_singleton by (by apply not_elem_of_dom).
      rewrite <- Permutation_middle, take_drop. unfold l, sorted_elements. by rewrite merge_sort_Permutation.
  - intros b' p. rewrite lookup_insert. case_decide; [|by apply Hp]. subst. by intros [= <-].
Qed.

Lemma set_message_ok now w b s : bars_ok w → bars_ok (set_message time_to_string format_duration byte_size now w b s).
Proof.
  intros [Hm Hp]. unfold set_message. destruct (bars w !! b) as [p|] eqn:Eb; [|done]. destruct (bar_finished p); [done|]. split; cbn.
  - rewrite Hm. f_equal. rewrite dom_insert_L. apply elem_of_dom_2 in Eb. set_solver.
  - intros b' p'. rewrite lookup_insert. case_decide; [|by apply Hp]. subst. intros [= <-]. cbn. by apply Hp.
Qed.

(** What a bar says: its message, and whether it has stopped. *)
Definition said (w : Bars) (b : BaseboardId) : option (string * bool) := (λ p, (bar_message p, bar_finished p)) <$> bars w !! b.
Definition says (now : DateTime) (s : JobStatus) : string * bool :=
  (short_status_row time_to_string format_duration byte_size now s, is_terminal s).
Definition said_next (now : DateTime) (old : option (string * bool)) (s : JobStatus) : option (string * bool) :=
  Some (match old with Some (m, true) => (m, true) | _ => says now s end).
Abbreviation step now := (λ w x, set_message time_to_string format_duration byte_size now (add_bar w x.1) x.1 x.2).
Abbreviation update now w status := (job_watch_update time_to_string format_duration byte_size now w status).

Lemma said_step now w b s b' :
  said (set_message time_to_string format_duration byte_size now (add_bar w b) b s) b' =
  if decide (b = b') then said_next now (said w b) s else said w b'.
Proof.
  unfold said, set_message, add_bar. cbn [fst snd]. destruct (bars w !! b) as [p|] eqn:Eb; cbn.
  - rewrite Eb. destruct (bar_finished p) eqn:Ef.
    + case_decide; [subst|done]. rewrite Eb. cbn. by rewrite Ef.
    + cbn. rewrite lookup_insert. case_decide; done.
  - rewrite lookup_insert_eq. cbn. rewrite !lookup_insert. case_decide; done.
Qed.

Lemma said_steps now l w b :
  NoDup l.*1 → said (foldl (step now) w l) b =
    match list_to_map (M := gmap BaseboardId JobStatus) l !! b with Some s => said_next now (said w b) s | None => said w b end.
Proof.
  revert w. induction l as [|[k s] l IH]; intros w; [done|]. cbn [fmap list_fmap fst]. intros [Hk Hnd]%NoDup_cons.
  cbn [foldl list_to_map foldr fst snd uncurry]. rewrite IH, said_step by done. rewrite lookup_insert.
  assert (Hno : list_to_map (M := gmap BaseboardId JobStatus) l !! k = None) by by apply not_elem_of_list_to_map_1.
  case_decide; [subst; by rewrite Hno|done].
Qed.

Lemma status_entries_keys (m : JobStatusMap) : NoDup (status_entries m).*1.
Proof.
  unfold status_entries. generalize (NoDup_sorted_elements baseboard_le (dom m)).
  generalize (sorted_elements baseboard_le (dom m)). intros l. induction 1 as [|b l Hb _ IH]; [constructor|]. cbn.
  destruct (m !! b); cbn; [|done]. apply NoDup_cons. split; [|done].
  intros (x&->&(k&Hk&Ek)%list_elem_of_omap)%list_elem_of_fmap. destruct (m !! k); [|done]. by injection Ek as <-.
Qed.

Lemma status_entries_map (m : JobStatusMap) : list_to_map (status_entries m) = m.
Proof.
  apply map_eq. intros b. apply option_eq. intros s. rewrite <- elem_of_list_to_map by apply status_entries_keys.
  unfold status_entries. rewrite list_elem_of_omap. setoid_rewrite elem_of_sorted_elements. split.
  - intros (k&_&Ek). destruct (m !! k) eqn:E; [|done]. cbn in Ek. by injection Ek as <- <-.
  - intros E. exists b. rewrite E. split; [by eapply elem_of_dom_2|done].
Qed.

Lemma said_widen w n b : said (widen w n) b = said w b.
Proof. unfold said, widen. destruct (_ <? _)%nat; [|done]. cbn. rewrite map_lookup_imap. by destruct (bars w !! b). Qed.

Lemma said_update now w status b :
  said (update now w status) b = match status !! b with Some s => said_next now (said w b) s | None => said w b end.
Proof.
  unfold job_watch_update. rewrite said_steps, status_entries_map, said_widen by apply status_entries_keys. done.
Qed.

Lemma update_ok now w status : bars_ok w → bars_ok (update now w status).
Proof.
  intros Hw%(widen_ok w (name_width (status_entries status).*1)). unfold job_watch_update. revert Hw.
  generalize (widen w (name_width (status_entries status).*1)). clear w.
  induction (status_entries status) as [|x l IH]; intros w Hw; [done|]. cbn. apply IH. by apply set_message_ok, add_bar_ok.
Qed.

(** The status of [b] a watcher has been shown last: the first that is terminal, if
    any has been. *)
Definition last_shown (l : list (DateTime * JobStatusMap)) (b : BaseboardId) : option (DateTime * JobStatus) :=
  foldl (λ shown x,
    match shown with
    | Some (t, s) => if is_terminal s then Some (t, s) else match x.2 !! b with Some s' => Some (x.1, s') | None => Some (t, s) end
    | None => (x.1,.) <$> x.2 !! b
    end) None l.

(** Watching shows how every sled fares.  After any sequence of updates there is one
    line for each sled that has reported, in the order of the baseboards whatever the
    order in which they came, under names padded to one width; and each line says the
    latest status of its sled, and stops at the first that is terminal. *)
Theorem watch_shows l :
  let w := foldl (λ w x, update x.1 w x.2) bars_new l in
  bars_ok w ∧ ∀ b, said w b = (λ x, says x.1 x.2) <$> last_shown l b.
Proof.
  assert (H0 : bars_ok bars_new) by (split; [done|]; intros b p; cbn [bars bars_new]; by rewrite lookup_empty).
  cbn zeta. induction l as [|[now status] l [IHok IH]] using rev_ind; [done|].
  rewrite foldl_snoc. cbn [fst snd]. split; [by apply update_ok|]. intros b. rewrite said_update, IH.
  unfold last_shown. rewrite foldl_snoc. fold (last_shown l b). cbn [fst snd].
  destruct (last_shown l b) as [[t s]|]; cbn; destruct (status !! b) as [s'|]; cbn; try done; unfold said_next, says; cbn.
  all: destruct (is_terminal s) eqn:E; cbn; try done; rewrite ?E; done.
Qed.
End watching.
