(* ===== verification/Format.v ===== *)
(** * Versioned durable formats ([server/src/format.rs])

    A chain of formats, each with a conversion from its predecessor.  A record is
    stored with the version it was written at; decoding parses it as the format
    of that version and converts it up to the latest.  CBOR is the [ciborium]
    crate's: how an array is read into items and an envelope is written are
    parameters, and so are each format's own encoding and parser. *)
From S2P Require Import Prelude.
Open Scope N_scope.

(** [NoFormat::VERSION], [u16::MAX]. *)
Definition NO_FORMAT : N := 65535.

(** [FormatError]. *)
Inductive FormatError :=
| FEnvelope
| FFuture (version : N)
| FUnknown (version : N)
| FBody (version : N) (message : string)
| FConvert (from : N) (message : string).

(** A chain of [Record] formats up to the type [T]: the version, the serde
    implementations, the conversion from the previous format, and its chain. *)
Inductive Chain : Type → Type :=
| NoFormat : Chain Empty_set
| Format {P T : Type} (version : N) (to_cbor : T → list byte)
    (from_cbor : list byte → result T string) (upgrade : P → result T string)
    (previous : Chain P) : Chain T.

(** [T::VERSION]. *)
Definition version_of {T} (c : Chain T) : N :=
  match c with NoFormat => NO_FORMAT | Format v _ _ _ _ => v end.

(** [Record::walk]; [NoFormat] has its own. *)
Fixpoint walk {T} (c : Chain T) (version : N) (body : list byte) : result T FormatError :=
  match c with
  | NoFormat => Err (FUnknown version)
  | Format v _ from_cbor upgrade previous =>
    if version =? v then map_err (FBody version) (from_cbor body)
    else rbind (walk previous version body)
           (λ p, map_err (FConvert (version_of previous)) (upgrade p))
  end.

(** The assertion of [walk], checked at compile time along the whole chain, and
    the reserved version. *)
Fixpoint chain_ok {T} (c : Chain T) : bool :=
  match c with
  | NoFormat => true
  | Format v _ _ _ previous =>
    ((version_of previous =? NO_FORMAT) || (version_of previous <? v)) && (v <? NO_FORMAT)
    && chain_ok previous
  end.

(** The versions of a chain. *)
Fixpoint versions {T} (c : Chain T) : list N :=
  match c with NoFormat => [] | Format v _ _ _ previous => v :: versions previous end.

(** The items of a CBOR array, as far as the envelope asks. *)
Inductive CborItem := CUnsigned (n : N) | CBytes (bytes : list byte) | COther.

(** [EnvelopeVisitor::visit_seq]: a [u16], a byte string, and nothing else. *)
Definition envelope_visit (items : list CborItem) : option (N * list byte) :=
  match items with
  | [CUnsigned version; CBytes body] => if version <=? NO_FORMAT then Some (version, body) else None
  | _ => None
  end.

Section format.
(** [ciborium]: reading an array's items, and writing an envelope. *)
Variables (cbor_array : list byte → option (list CborItem)) (cbor_envelope : N → list byte → list byte).

(** [encode]. *)
Definition encode {T} (c : Chain T) : T → list byte :=
  match c with
  | NoFormat => λ x, match x with end
  | Format v to_cbor _ _ _ => λ x, cbor_envelope v (to_cbor x)
  end.

(** [decode]. *)
Definition decode {T} (c : Chain T) (bytes : list byte) : result T FormatError :=
  match (items ← cbor_array bytes; envelope_visit items) with
  | None => Err FEnvelope
  | Some (version, body) =>
    if version_of c <? version then Err (FFuture version) else walk c version body
  end.

(** What is written is read. *)
Definition cbor_reads_back : Prop :=
  ∀ v body, v <= NO_FORMAT → cbor_array (cbor_envelope v body) = Some [CUnsigned v; CBytes body].

(** [reads c v body y]: the body, parsed as the chain's format of version [v],
    and converted up, is [y]. *)
Inductive reads : ∀ {T}, Chain T → N → list byte → T → Prop :=
| reads_here {P T} v to_cbor from_cbor (upgrade : P → result T string) previous body x :
    from_cbor body = Ok x → reads (Format v to_cbor from_cbor upgrade previous) v body x
| reads_up {P T} v' to_cbor from_cbor (upgrade : P → result T string) previous v body p y :
    reads previous v body p → upgrade p = Ok y →
    reads (Format v' to_cbor from_cbor upgrade previous) v body y.

Lemma versions_below {T} (c : Chain T) v :
  chain_ok c = true → v ∈ versions c → v <= version_of c ∧ v < NO_FORMAT.
Proof.
  induction c as [|P T v' tc fc up previous IH]; cbn; [set_solver|].
  intros [[Hv Hn%N.ltb_lt]%andb_prop Hc]%andb_prop [->|Hin]%elem_of_cons; [lia|].
  destruct (IH Hc Hin) as [H1 H2]. apply orb_prop in Hv as [Hv%N.eqb_eq|Hv%N.ltb_lt]; [|lia].
  destruct previous; cbn in *; [set_solver|].
  apply andb_prop in Hc as [[_ Hx%N.ltb_lt]%andb_prop _]. lia.
Qed.

Lemma reads_version {T} (c : Chain T) v body y : reads c v body y → v ∈ versions c.
Proof. induction 1; cbn; [left|by right]. Qed.

(** The versions below a format are not its own. *)
Lemma older_version {P T} v v' tc fc (up : P → result T string) (previous : Chain P) :
  chain_ok (Format v' tc fc up previous) = true → v ∈ versions previous → chain_ok previous = true ∧ (v =? v') = false.
Proof.
  cbn [chain_ok]. intros [[Hv Hn]%andb_prop Hc]%andb_prop Hin. split; [done|]. destruct (versions_below _ _ Hc Hin) as [H1 H2].
  apply N.eqb_neq. intros ->. apply orb_prop in Hv as [Hv%N.eqb_eq|Hv%N.ltb_lt]; [|lia].
  destruct previous; cbn in *; [set_solver|]. apply andb_prop in Hc as [[_ Hx%N.ltb_lt]%andb_prop _]. lia.
Qed.

Lemma reads_walk {T} (c : Chain T) v body y :
  chain_ok c = true → reads c v body y → walk c v body = Ok y.
Proof.
  intros Hc H. induction H as [P T v tc fc up previous body x Hx|P T v' tc fc up previous v body p y Hr IH Hu];
    cbn [walk].
  - by rewrite N.eqb_refl, Hx.
  - destruct (older_version _ _ _ _ _ _ Hc (reads_version _ _ _ _ Hr)) as [Hc' ->].
    rewrite (IH Hc'). cbn [rbind]. by rewrite Hu.
Qed.

Lemma walk_reads {T} (c : Chain T) v body y : walk c v body = Ok y → reads c v body y.
Proof.
  induction c as [|P T v' tc fc up previous IH]; cbn [walk]; [done|].
  destruct (N.eqb_spec v v') as [->|_].
  - destruct (fc body) as [x|] eqn:E; cbn; [|done]. intros [= <-]. by constructor.
  - destruct (walk previous v body) as [p|] eqn:E; cbn; [|done].
    destruct (up p) as [x|] eqn:Eu; cbn; [|done]. intros [= <-]. econstructor; eauto.
Qed.

Lemma walk_unknown {T} (c : Chain T) v body :
  v ∉ versions c → walk c v body = Err (FUnknown v).
Proof.
  induction c as [|P T v' tc fc up previous IH]; cbn [walk versions]; [done|].
  intros [Hne Hn]%not_elem_of_cons. destruct (N.eqb_spec v v'); [done|]. by rewrite IH.
Qed.

(** [refuses c v body e]: the format of version [v] does not parse the body, or a
    conversion on the way up fails. *)
Inductive refuses : ∀ {T}, Chain T → N → list byte → FormatError → Prop :=
| refuses_body {P T} v to_cbor from_cbor (upgrade : P → result T string) previous body m :
    from_cbor body = Err m → refuses (Format v to_cbor from_cbor upgrade previous) v body (FBody v m)
| refuses_convert {P T} v' to_cbor from_cbor (upgrade : P → result T string) previous v body p m :
    reads previous v body p → upgrade p = Err m →
    refuses (Format v' to_cbor from_cbor upgrade previous) v body (FConvert (version_of previous) m)
| refuses_up {P T} v' to_cbor from_cbor (upgrade : P → result T string) previous v body e :
    refuses previous v body e → refuses (Format v' to_cbor from_cbor upgrade previous) v body e.

Lemma refuses_version {T} (c : Chain T) v body e : refuses c v body e → v ∈ versions c.
Proof. induction 1; cbn; [left|right; by eapply reads_version|by right]. Qed.

Lemma refuses_walk {T} (c : Chain T) v body e : chain_ok c = true → refuses c v body e → walk c v body = Err e.
Proof.
  intros Hc H. induction H as [P T v tc fc up previous body m Hm|P T v' tc fc up previous v body p m Hr Hu
    |P T v' tc fc up previous v body e Hr IH]; cbn [walk].
  - by rewrite N.eqb_refl, Hm.
  - destruct (older_version _ _ _ _ _ _ Hc (reads_version _ _ _ _ Hr)) as [Hc' ->].
    rewrite (reads_walk _ _ _ _ Hc' Hr). cbn [rbind]. by rewrite Hu.
  - destruct (older_version _ _ _ _ _ _ Hc (refuses_version _ _ _ _ Hr)) as [Hc' ->]. by rewrite (IH Hc').
Qed.

Lemma walk_refuses {T} (c : Chain T) v body e : v ∈ versions c → walk c v body = Err e → refuses c v body e.
Proof.
  induction c as [|P T v' tc fc up previous IH]; cbn [walk versions]; [set_solver|].
  intros Hv. destruct (N.eqb_spec v v') as [->|Hne].
  - destruct (fc body) as [x|m] eqn:E; cbn; [done|]. intros [= <-]. by constructor.
  - apply elem_of_cons in Hv as [|Hv]; [done|].
    destruct (walk previous v body) as [p|e'] eqn:E; cbn.
    + destruct (up p) as [x|m] eqn:Eu; cbn; [done|]. intros [= <-]. eapply refuses_convert; [|done]. by apply walk_reads.
    + intros [= <-]. apply refuses_up. by apply IH.
Qed.

(** What a refusal is not. *)
Lemma refuses_kind {T} (c : Chain T) v body e : refuses c v body e → ∃ v' m, e = FBody v' m ∨ e = FConvert v' m.
Proof. induction 1; eauto. Qed.

(** Every record ever shipped can still be read: what any release of the chain
    wrote, at whatever version, decodes to its conversion up the chain. *)
Theorem decode_upgrades {T} (c : Chain T) v body y :
  cbor_reads_back → chain_ok c = true → reads c v body y → decode c (cbor_envelope v body) = Ok y.
Proof.
  intros Hcbor Hc Hr. destruct (versions_below _ _ Hc (reads_version _ _ _ _ Hr)) as [H1 H2].
  unfold decode. rewrite Hcbor by lia. cbn. destruct (N.leb_spec v NO_FORMAT); [|lia].
  destruct (N.ltb_spec (version_of c) v); [lia|]. by apply reads_walk.
Qed.

(** What [encode] writes, [decode] reads. *)
Lemma decode_encode {P T} v to_cbor from_cbor upgrade (previous : Chain P) (x : T) :
  let c := Format v to_cbor from_cbor upgrade previous in
  cbor_reads_back → v <= NO_FORMAT → from_cbor (to_cbor x) = Ok x → decode c (encode c x) = Ok x.
Proof.
  cbv zeta. intros Hcbor Hv Hx. unfold decode, encode. rewrite Hcbor by done. cbn.
  destruct (N.leb_spec v NO_FORMAT); [|lia]. by rewrite N.ltb_irrefl, N.eqb_refl, Hx.
Qed.

(** The envelopes there are: arrays of a [u16] and a byte string, and nothing else. *)
Definition enveloped (bytes : list byte) (v : N) (body : list byte) : Prop :=
  cbor_array bytes = Some [CUnsigned v; CBytes body] ∧ v < 2 ^ 16.

Lemma envelope_read bytes v body :
  (items ← cbor_array bytes; envelope_visit items) = Some (v, body) ↔ enveloped bytes v body.
Proof.
  unfold enveloped. change (2 ^ 16) with 65536. split.
  - destruct (cbor_array bytes) as [items|]; [|done]. cbn. intros E. unfold envelope_visit in E. repeat case_match; try done.
    injection E as <- <-. split; [done|]. unfold NO_FORMAT in *. match goal with H : (_ <=? _) = true |- _ => apply N.leb_le in H end. lia.
  - intros [-> Hv]. cbn. rewrite (proj2 (N.leb_le _ _)); [done|]. unfold NO_FORMAT. lia.
Qed.

(** C39. A record is never misread.  A record decodes to a value exactly when it is an
    envelope, an array of a 16-bit version and a byte string and nothing more, whose
    body the chain's format of that version parses and the conversions take up to the
    value.  It is refused as an envelope exactly when it is none; as the work of newer
    software exactly when its version is above the latest; as unknown exactly when its
    version is not above but outside the chain; and otherwise exactly for the error of
    that format's parser, or of the conversion that failed. *)
Theorem decode_exact {T} (c : Chain T) bytes :
  chain_ok c = true →
  (∀ y, decode c bytes = Ok y ↔ ∃ v body, enveloped bytes v body ∧ reads c v body y) ∧
  (decode c bytes = Err FEnvelope ↔ ∀ v body, ¬ enveloped bytes v body) ∧
  (∀ v, decode c bytes = Err (FFuture v) ↔ ∃ body, enveloped bytes v body ∧ version_of c < v) ∧
  (∀ v, decode c bytes = Err (FUnknown v) ↔ ∃ body, enveloped bytes v body ∧ v <= version_of c ∧ v ∉ versions c) ∧
  (∀ e, (∃ v m, e = FBody v m ∨ e = FConvert v m) →
     decode c bytes = Err e ↔ ∃ v body, enveloped bytes v body ∧ refuses c v body e).
Proof.
  intros Hc.
  assert (Hdec : decode c bytes = match (items ← cbor_array bytes; envelope_visit items) with
    | None => Err FEnvelope
    | Some (v, body) => if version_of c <? v then Err (FFuture v) else walk c v body end) by done.
  rewrite Hdec. clear Hdec. pose proof (envelope_read bytes) as Hread.
  destruct (items ← cbor_array bytes; envelope_visit items) as [[v0 body0]|].
  - assert (H0 : enveloped bytes v0 body0) by (by apply Hread).
    assert (Heq : ∀ v body, enveloped bytes v body → v = v0 ∧ body = body0) by (by intros v body [= <- <-]%Hread).
    clear Hread. destruct (N.ltb_spec (version_of c) v0) as [Hlt|Hle].
    + split_and!.
      * intros y. split; [done|]. intros (v&body&[-> ->]%Heq&Hr). apply reads_version in Hr.
        destruct (versions_below _ _ Hc Hr). lia.
      * split; [done|]. intros Hn. by destruct (Hn _ _ H0).
      * intros v. split; [intros [= <-]; eauto|]. by intros (body&[-> _]%Heq&_).
      * intros v. split; [done|]. intros (body&[-> _]%Heq&?&_). lia.
      * intros e He. split; [intros [= <-]; by destruct He as (?&?&[|])|]. intros (v&body&[-> ->]%Heq&Hr).
        apply refuses_version in Hr. destruct (versions_below _ _ Hc Hr). lia.
    + destruct (decide (v0 ∈ versions c)) as [Hin|Hin].
      * assert (Hkind : ∀ e, walk c v0 body0 = Err e → ∃ v m, e = FBody v m ∨ e = FConvert v m)
          by (intros e He; by eapply refuses_kind, walk_refuses).
        split_and!.
        -- intros y. split; [intros Hw%walk_reads; eauto|]. intros (v&body&[-> ->]%Heq&Hr). by apply reads_walk.
        -- split; [by intros (?&?&[|])%Hkind|]. intros Hn. by destruct (Hn _ _ H0).
        -- intros v. split; [by intros (?&?&[|])%Hkind|]. intros (body&[-> _]%Heq&?). lia.
        -- intros v. split; [by intros (?&?&[|])%Hkind|]. by intros (body&[-> _]%Heq&_&?).
        -- intros e He. split; [intros Hw%walk_refuses; eauto|]. intros (v&body&[-> ->]%Heq&Hr). by apply refuses_walk.
      * rewrite walk_unknown by done. split_and!.
        -- intros y. split; [done|]. intros (v&body&[-> ->]%Heq&Hr). by apply reads_version in Hr.
        -- split; [done|]. intros Hn. by destruct (Hn _ _ H0).
        -- intros v. split; [done|]. intros (body&[-> _]%Heq&?). lia.
        -- intros v. split; [intros [= <-]; eauto|]. by intros (body&[-> _]%Heq&_).
        -- intros e He. split; [intros [= <-]; by destruct He as (?&?&[|])|]. intros (v&body&[-> ->]%Heq&Hr).
           by apply refuses_version in Hr.
  - assert (Hno : ∀ v body, ¬ enveloped bytes v body) by (intros v body He; by apply Hread in He).
    split_and!; [intros y; split; [done|naive_solver]|done|intros v; split; [done|naive_solver]..|].
    intros e He. split; [intros [= <-]; by destruct He as (?&?&[|])|naive_solver].
Qed.
End format.
