(* ===== verification/Records.v ===== *)
(** * What the server keeps in its locker ([server/src/locker/boundary.rs],
    [locker/bookmark.rs])

    Two tenants of the locker: the execution boundary, loaded at startup and
    stored before every job, and the gossip bookmark.  Both are versioned records
    ([Format.v]) in a tenant's slots ([Locker.v]).  The boundary's durable writes
    are what [Sled.v] abstracts as [Durability]. *)
From S2P Require Import Prelude External Codephrases Hash Targets Keys Jobs Rack Certs History.
From S2P Require Import Boundary Locker Executor State Sled Format.
Open Scope N_scope.

Section records.
Context {Irum : Rumors} {Isha : Sha3}.
Variables (cbor_array : list byte → option (list CborItem)) (cbor_envelope : N → list byte → list byte).

(** A locker's file system: which reads fail, and how writes end. *)
Record Disk := mkDisk { reads_fail : nat → bool; writes_end : nat → SlotIo }.

(** ** The boundary *)

(** The serde implementation of [Boundary]. *)
Variables (boundary_to_cbor : Boundary → list byte) (boundary_from_cbor : list byte → result Boundary string).

Definition boundary_format : Chain Boundary :=
  Format 1 boundary_to_cbor boundary_from_cbor (λ e : Empty_set, match e with end) NoFormat.

Definition boundary_encode : Boundary → list byte := encode cbor_envelope boundary_format.

(** [BoundaryStore::load]: what the store then holds. *)
Definition boundary_load (d : Disk) (t : Tenant) : BoundaryStore * Tenant :=
  let '(v, t) := load (reads_fail d) (writes_end d) t in
  (mkBoundaryStore
     match v with
     | Adopt record | Restore record => result_ok (decode cbor_array boundary_format record)
     | Empty | VDiscard _ => None
     end, t).

(** The durable half of [advance] and [record_status]. *)
Definition boundary_write (d : Disk) (t : Tenant) (b : Boundary) : bool * Tenant :=
  let '(r, t) := store (writes_end d) t (boundary_encode b) in
  (match r with Ok _ => true | Err _ => false end, t).

(** ** The bookmark *)

(** [BookmarkRecord]: opaque bytes, as a CBOR byte string. *)
Variables (bytes_to_cbor : list byte → list byte) (bytes_from_cbor : list byte → result (list byte) string).

Definition bookmark_format : Chain (list byte) :=
  Format 0 bytes_to_cbor bytes_from_cbor (λ e : Empty_set, match e with end) NoFormat.

(** [SushBookmark]: whether its handle was shed, and the tenant it shares. *)
Record SushBookmark := mkSushBookmark { shed : bool; bm_tenant : Tenant }.

(** [BookmarkSource::handle], [shed_handle]. *)
Definition bookmark_handle (t : Tenant) : SushBookmark := mkSushBookmark false t.
Definition bookmark_shed_handle (t : Tenant) : SushBookmark := mkSushBookmark true t.

(** [SushBookmark::load]. *)
Definition bookmark_load (d : Disk) (b : SushBookmark) : option (list byte) * SushBookmark :=
  if shed b then (None, b)
  else
    let '(v, t) := load (reads_fail d) (writes_end d) (bm_tenant b) in
    (match v with
     | Adopt record | Restore record => result_ok (decode cbor_array bookmark_format record)
     | Empty | VDiscard _ => None
     end, mkSushBookmark false t).

(** [SushBookmark::store]. *)
Definition bookmark_store (d : Disk) (b : SushBookmark) (bytes : list byte) :
    result () StoreError * SushBookmark :=
  if shed b then (Ok (), b)
  else
    let '(r, t) := store (writes_end d) (bm_tenant b) (encode cbor_envelope bookmark_format bytes) in
    (r, mkSushBookmark false t).

(** ** Records survive *)

(** A restart: a new process has its own nonce, and no numbers reserved. *)
Definition restarted (t : Tenant) (nonce : Nonce) : Tenant :=
  mkTenant (t_magic t) (t_baseboard t) nonce 0 0 (t_slots t).

(** The slots hold the record [old], written at some number by this sled. *)
Definition holds (t : Tenant) (old : option (list byte)) : Prop :=
  ∀ s, s ∈ t_slots t → slot_file s = None ∨
    ∃ n q record, old = Some record ∧ envelope_wf n q (t_baseboard t) ∧
      slot_file s = Some (encode_envelope (t_magic t) n q (t_baseboard t) record).

Definition next_number (t : Tenant) : N := (t_reserved t + 1) mod 2 ^ 64.

(** What a load finds after a store: the new record, the old one, or nothing;
    and only the new one, or nothing, if the store succeeded. *)
Lemma load_after_store io t new old d nonce v r :
  envelope_wf (t_nonce t) (next_number t) (t_baseboard t) → holds t old →
  load (reads_fail d) (writes_end d) (restarted (store io t new).2 nonce) = (v, r) →
  ∀ record, v = Adopt record ∨ v = Restore record →
    record = new ∨ (store io t new).1 ≠ Ok () ∧ old = Some record.
Proof.
  intros Hwf Hh Hv record Hr. assert (Hv1 : (load (reads_fail d) (writes_end d) (restarted (store io t new).2 nonce)).1 = v)
    by (by rewrite Hv).
  assert (Hkeep : t_magic (store io t new).2 = t_magic t ∧ t_baseboard (store io t new).2 = t_baseboard t).
  { unfold store. destruct (t_slots t); [done|]. by destruct (commit_store _ _ _ _ _) as [[? ?] ?]. }
  destruct Hkeep as [Em Eb]. rewrite <- Hv1 in Hr. apply load_held in Hr as (s&bytes&e&Hs&Hf&Hd&_&<-).
  cbn [restarted t_slots t_magic] in Hs, Hd. rewrite Em in Hd.
  destruct (store io t new) as [[[]|err] t'] eqn:Est; cbn [fst snd] in *.
  - left. rewrite (store_ok_files _ _ _ _ _ Est Hs) in Hf. injection Hf as <-.
    unfold envelope in Hd. rewrite decode_encode_envelope in Hd by done. by injection Hd as <-.
  - destruct (store_files io t new s) as [E|[E|(s0&Hs0&E)]]; [by rewrite Est|..]; rewrite E in Hf; [|done|].
    + left. injection Hf as <-. unfold envelope in Hd. rewrite decode_encode_envelope in Hd by done. by injection Hd as <-.
    + right. split; [done|]. destruct (Hh s0 Hs0) as [E0|(n&q&rec&Eo&Hwf0&E0)]; rewrite E0 in Hf; [done|].
      injection Hf as <-. rewrite decode_encode_envelope in Hd by done. by injection Hd as <-.
Qed.

(** The record on disk after a write that ended in [w], as [Sled.v] has it. *)
Definition on_disk (w : Durability) (old : option Boundary) (new : Boundary) : option Boundary :=
  match w with Landed | FailedNew => Some new | FailedOld => old end.

(** A boundary that was stored on working slots is found. *)
Lemma load_after_success io io' t new nonce t' :
  envelope_wf (t_nonce t) (next_number t) (t_baseboard t) → t_slots t ≠ [] →
  store io t new = (Ok (), t') →
  (load (λ _, false) io' (restarted t' nonce)).1 = Adopt new.
Proof.
  intros Hwf Hne Hst. unfold restarted.
  assert (Hkeep : t_magic t' = t_magic t ∧ t_baseboard t' = t_baseboard t).
  { unfold store in Hst. destruct (t_slots t); [done|].
    destruct (commit_store _ _ _ _ _) as [[? ?] ?]. by injection Hst as _ <-. }
  destruct Hkeep as [-> ->]. by eapply stored_is_loaded.
Qed.

(** C20. The boundary store keeps its promise to the driver.  Whatever the file system
    does to a write and to the load that follows a restart: the boundary found
    is the one [Durability] says is on disk, for a write that landed exactly
    when it reported success, or the record counts as lost; and on slots that
    can be read, a boundary whose write succeeded is found. *)
Theorem boundary_store_refines t old new d d' nonce :
  cbor_reads_back cbor_array cbor_envelope →
  (∀ b, b = new ∨ old = Some b → boundary_from_cbor (boundary_to_cbor b) = Ok b) →
  envelope_wf (t_nonce t) (next_number t) (t_baseboard t) → holds t (boundary_encode <$> old) →
  let written := boundary_write d t new in
  let found := stored (boundary_load d' (restarted written.2 nonce)).1 in
  (∃ (w : Durability) (lost : bool), landed w = written.1 ∧
     found = if lost then None else on_disk w old new) ∧
  (written.1 = true → t_slots t ≠ [] → (∀ i, reads_fail d' i = false) → found = Some new).
Proof.
  intros Hcbor Hserde Hwf Hh. unfold boundary_write, boundary_load.
  assert (Hdec : ∀ b, b = new ∨ old = Some b → decode cbor_array boundary_format (boundary_encode b) = Ok b).
  { intros b Hb. apply (decode_encode cbor_array cbor_envelope); [done..|]. by apply Hserde. }
  destruct (store (writes_end d) t (boundary_encode new)) as [res t'] eqn:Est. cbn [fst snd].
  destruct (load _ _ _) as [v t''] eqn:El. cbn [fst stored].
  assert (Hl : ∀ record, v = Adopt record ∨ v = Restore record →
            record = boundary_encode new ∨ res ≠ Ok () ∧ boundary_encode <$> old = Some record).
  { pose proof (load_after_store (writes_end d) t (boundary_encode new) (boundary_encode <$> old) d' nonce v t'' Hwf Hh) as H.
    rewrite Est in H. by apply H. }
  set (w := match res with Ok _ => Landed | Err _ => FailedNew end).
  assert (Hw : landed w = match res with Ok _ => true | Err _ => false end) by (by destruct res).
  split.
  - assert (Hr : ∀ record, v = Adopt record ∨ v = Restore record → ∃ w' : Durability,
              landed w' = (match res with Ok _ => true | Err _ => false end) ∧
              result_ok (decode cbor_array boundary_format record) = on_disk w' old new).
    { intros record [->|[Hres Ho]]%Hl.
      - exists w. split; [done|]. rewrite Hdec by auto. by destruct res.
      - destruct old as [o|]; [|done]. injection Ho as <-. exists FailedOld. rewrite Hdec by auto.
        split; [|done]. by destruct res as [[]|]. }
    destruct v as [record|record| |reason];
      [destruct (Hr record) as (w'&?&->); [auto|by exists w', false]..|by exists w, true|by exists w, true].
  - intros Hok Hne Hf. destruct res as [[]|]; [|done].
    pose proof (load_after_success _ (writes_end d') _ _ nonce _ Hwf Hne Est) as Hload.
    assert (Hv : v = Adopt (boundary_encode new)).
    { rewrite <- Hload. rewrite <- (load_reads_ext (reads_fail d')) by done. by rewrite El. }
    by rewrite Hv, Hdec by auto.
Qed.

(** A bookmark that was stored is read back by any handle of its source, in this
    process or the next; a shed handle reads and writes nothing. *)
Lemma bookmark_survives io io' t bytes nonce b' :
  cbor_reads_back cbor_array cbor_envelope → bytes_from_cbor (bytes_to_cbor bytes) = Ok bytes →
  envelope_wf (t_nonce t) (next_number t) (t_baseboard t) → t_slots t ≠ [] →
  bookmark_store (mkDisk (λ _, false) io) (bookmark_handle t) bytes = (Ok (), b') →
  (bookmark_load (mkDisk (λ _, false) io') (bookmark_handle (restarted (bm_tenant b') nonce))).1 = Some bytes ∧
  (bookmark_load (mkDisk (λ _, false) io') (bookmark_shed_handle (bm_tenant b'))).1 = None.
Proof.
  intros Hcbor Hser Hwf Hne. unfold bookmark_store, bookmark_load. cbn [bookmark_handle shed bm_tenant].
  destruct (store _ _ _) as [res t'] eqn:Est. intros [= -> <-]. split; [|done].
  pose proof (load_after_success _ io' _ _ nonce _ Hwf Hne Est) as Hload.
  cbn [reads_fail writes_end bookmark_handle shed bm_tenant].
  destruct (load _ _ _) as [v t'']. cbn [fst] in *. subst v.
  assert (Hdec : decode cbor_array bookmark_format (encode cbor_envelope bookmark_format bytes) = Ok bytes).
  { by apply (decode_encode cbor_array cbor_envelope). }
  by rewrite Hdec.
Qed.
End records.
