(* ===== verification/Wire.v ===== *)
(** * Messages between builds ([server/src/messages.rs], [api/src/lib.rs])

    How a versioned gossip message is read and written, so that a sled relays what it
    cannot read; and how the limits of a job are read from a query.  The CBOR encoding
    is the [ciborium] crate's, and that of a version's own messages is derived. *)
From S2P Require Import Prelude External Codephrases Hash Targets Keys Jobs Messages Headers.
#[local] Set Warnings "-register-all".
Open Scope N_scope.
Open Scope rust_scope.

(** ** [ciborium::Value] *)

(** As far as the sources tell values apart: texts, containers, and the rest. *)
Inductive ValueOf (Scalar : Type) :=
| VText (s : string)
| VArray (l : list (ValueOf Scalar))
| VMap (entries : list (ValueOf Scalar * ValueOf Scalar))
| VScalar (x : Scalar).
Arguments VText {_} _.
Arguments VArray {_} _.
Arguments VMap {_} _.
Arguments VScalar {_} _.

(** The encoding, and the values its reader accepts: those nested within its recursion
    limit.  They read back. *)
Class Cbor := {
  Scalar : Type;
  into_cbor : ValueOf Scalar → list byte;
  from_cbor : list byte → option (ValueOf Scalar);
  readable : ValueOf Scalar → bool;
  cbor_back : ∀ v, readable v = true → from_cbor (into_cbor v) = Some v;
  readable_text : ∀ s, readable (VText s) = true;
  readable_entry : ∀ e rest, readable (VMap (e :: rest)) = true → readable (VMap [e]) = true;
}.
Abbreviation Value := (ValueOf Scalar).

(** The derived encoding of [v0::Message]. *)
Class MessageFormat `{!Cbor} := {
  message_value : Message → Value;
  message_of_value : Value → result Message string;
  message_back : ∀ m, message_of_value (message_value m) = Ok m;
}.

Section wire.
Context {Icbor : Cbor} {Iformat : MessageFormat}.

(** [impl Serialize for VersionedMessage]; [None] is the panic of its [expect]. *)
Definition serialize (m : VersionedMessage) : option Value :=
  match m with
  | V0 message => Some (VMap [(VText "V0", message_value message)])
  | Unknown _ message => from_cbor message
  end.

(** [impl Deserialize]: [visit_map] reads one entry, [visit_str] a bare text; other
    values are not expected. *)
Definition visit_map (entries : list (Value * Value)) : result VersionedMessage string :=
  match entries with
  | [] => Err "a versioned message without a version"
  | (VText version, value) :: _ =>
    if bool_decide (version = "V0") then
      let? message := message_of_value value in Ok (V0 message)
    else Ok (Unknown version (into_cbor (VMap [(VText version, value)])))
  | _ :: _ => Err "invalid type: expected a string"
  end.
Definition visit_str (version : string) : result VersionedMessage string :=
  Ok (Unknown version (into_cbor (VText version))).
Definition deserialize (v : Value) : result VersionedMessage string :=
  match v with
  | VMap entries => visit_map entries
  | VText version => visit_str version
  | _ => Err "invalid type: expected a versioned message"
  end.

(** The encodings a later version may use: one entry keyed by its name, or its name. *)
Definition versioned (version : string) (v : Value) : Prop :=
  (∃ value, v = VMap [(VText version, value)]) ∨ v = VText version.

Lemma deserialize_unknown version v :
  versioned version v → version ≠ "V0" ∨ v = VText version →
  deserialize v = Ok (Unknown version (into_cbor v)).
Proof.
  intros [[value ->]| ->] Hv; cbn; [|done]. rewrite bool_decide_false; [done|]. by destruct Hv.
Qed.

(** C38. Mixed builds gossip together.  A message of version 0 is read as it was written.
    One that a later build wrote under a name of its own, nested within the reader's
    limit, is not an error: it is kept as unknown, under that name, and what is relayed
    is the value that came, to the letter.  Whatever message has been read from a value
    within the limit can be written, without a panic, and reads as itself again; and
    only what is neither a map keyed by a text nor a text can fail to be read, or a
    version 0 message that is malformed. *)
Theorem messages_relayed :
  (∀ m, ∃ v, serialize (V0 m) = Some v ∧ deserialize v = Ok (V0 m)) ∧
  (∀ version v, versioned version v → version ≠ "V0" → readable v = true →
     ∃ bytes, deserialize v = Ok (Unknown version bytes) ∧ serialize (Unknown version bytes) = Some v) ∧
  (∀ v m, readable v = true → deserialize v = Ok m → ∃ v', serialize m = Some v' ∧ deserialize v' = Ok m) ∧
  (∀ v e, deserialize v = Err e →
     (∀ version, v ≠ VText version) ∧
     (∀ version value rest, v = VMap ((VText version, value) :: rest) → version = "V0" ∧ message_of_value value = Err e)).
Proof.
  assert (Hzero : ∀ m, ∃ v, serialize (V0 m) = Some v ∧ deserialize v = Ok (V0 m)).
  { intros m. eexists. split; [done|]. cbn. by rewrite message_back. }
  assert (Hu : ∀ version v, versioned version v → version ≠ "V0" ∨ v = VText version → readable v = true →
    ∃ bytes, deserialize v = Ok (Unknown version bytes) ∧ serialize (Unknown version bytes) = Some v).
  { intros version v Hv Hn Hr. exists (into_cbor v). split; [by apply deserialize_unknown|]. by apply cbor_back. }
  split_and!; [done|auto| |].
  - intros v m Hr. destruct v as [version|?|[|[[version|?|?|?] value] rest]|?]; cbn; try done.
    + intros [= <-]. destruct (Hu version (VText version)) as (bytes&[= <-]&Hs); [by right|by right|done|]. eauto.
    + apply readable_entry in Hr. case_bool_decide as Hv; [|intros [= <-]].
      * destruct (message_of_value value) as [message|] eqn:E; [|done]. intros [= <-]. apply Hzero.
      * destruct (Hu version (VMap [(VText version, value)])) as (bytes&Hd&Hs); [left; eauto|by left|done|].
        cbn in Hd. rewrite bool_decide_false in Hd by done. injection Hd as <-. eexists. split; [exact Hs|].
        cbn. by rewrite bool_decide_false.
  - intros v e He. split; [by intros version ->|]. intros version value rest ->. cbn in He.
    case_bool_decide; [|done]. split; [done|]. destruct (message_of_value value); [done|]. by injection He as ->.
Qed.
End wire.

(** ** Limits in a query *)

(** A value of the query: [Limit], which is untagged. *)
Inductive Limit := Number (n : N) | Text (s : string).
Definition U64_LIMIT : N := 2 ^ 64.
Definition limit_value (l : Limit) : result N string :=
  match l with
  | Number n => Ok n
  | Text s => ok_or (uint_from_str U64_LIMIT s) "invalid digit found in string"
  end.

(** [deserialize_job_limits]: every entry is read, a later one replaces an earlier one
    of its name; then the derived reader of [JobLimits] takes its three. *)
Fixpoint limit_entries (entries : list (string * Limit)) (m : gmap string N) : result (gmap string N) string :=
  match entries with
  | [] => Ok m
  | (k, v) :: entries => let? n := limit_value v in limit_entries entries (<[k := n]> m)
  end.
Definition limit_field (m : gmap string N) (name : string) : result N string :=
  ok_or (m !! name) ("missing field `" +:+ name +:+ "`").
Definition deserialize_job_limits (entries : list (string * Limit)) : result JobLimits string :=
  let? m := limit_entries entries ∅ in
  let? cpu := limit_field m "max_cpu" in
  let? mem := limit_field m "max_mem" in
  let? fsize := limit_field m "max_fsize" in
  Ok (mkJobLimits cpu mem fsize).

(** How limits are written: as numbers, or as their digits. *)
Definition written (n : N) (v : Limit) : Prop := v = Number n ∨ v = Text (uint_to_string n).

Lemma limit_value_written n v : n < U64_LIMIT → written n v → limit_value v = Ok n.
Proof. intros Hn [->| ->]; [done|]. unfold limit_value. by rewrite uint_from_to_string. Qed.

(** The last value of a name. *)
Fixpoint last_value (k : string) (entries : list (string * Limit)) : option Limit :=
  match entries with
  | [] => None
  | (k', v) :: entries =>
    match last_value k entries with
    | Some w => Some w
    | None => if bool_decide (k' = k) then Some v else None
    end
  end.

Lemma limit_entries_ok entries m m' :
  limit_entries entries m = Ok m' ↔
  (∀ k v, (k, v) ∈ entries → ∃ n, limit_value v = Ok n) ∧
  m' = foldl (λ m x, match limit_value x.2 with Ok n => <[x.1 := n]> m | Err _ => m end) m entries.
Proof.
  revert m. induction entries as [|[k v] entries IH]; intros m; cbn [limit_entries foldl].
  - split; [intros [= <-]; split; [intros ?? []%elem_of_nil|done]|by intros [_ ->]].
  - destruct (limit_value v) as [n|] eqn:Ev; cbn [rbind fst snd]; rewrite ?Ev.
    + rewrite IH. split; intros [Hall ->]; split; try done.
      * intros k' v' [[= -> ->]|Hin]%elem_of_cons; eauto.
      * intros k' v' Hin. apply (Hall k' v'). by right.
    + split; [done|]. intros [Hall _]. destruct (Hall k v) as [n Hn]; [by left|]. congruence.
Qed.

Lemma fold_limits entries (m : gmap string N) k :
  (∀ k v, (k, v) ∈ entries → ∃ n, limit_value v = Ok n) →
  foldl (λ m x, match limit_value x.2 with Ok n => <[x.1 := n]> m | Err _ => m end) m entries !! k =
  match last_value k entries with Some v => match limit_value v with Ok n => Some n | Err _ => None end | None => m !! k end.
Proof.
  revert m. induction entries as [|[k' v] entries IH]; intros m Hall; [done|]. cbn [foldl last_value fst snd].
  rewrite IH by (intros k1 v1 Hin; apply (Hall k1 v1); by right).
  destruct (Hall k' v) as [n Hn]; [by left|]. rewrite Hn, lookup_insert.
  destruct (last_value k entries); [done|]. case_bool_decide; [by rewrite decide_True, Hn|by rewrite decide_False].
Qed.

(** Limits are read exactly.  The limits of a query are accepted if and only if every
    entry that is left to them, known or not, is a number or the digits of one; and
    each limit is then the last one given under its name, none having a default. *)
Theorem job_limits_exact entries l :
  deserialize_job_limits entries = Ok l ↔
  (∀ k v, (k, v) ∈ entries → ∃ n, limit_value v = Ok n) ∧
  (∃ v, last_value "max_cpu" entries = Some v ∧ limit_value v = Ok (max_cpu l)) ∧
  (∃ v, last_value "max_mem" entries = Some v ∧ limit_value v = Ok (max_mem l)) ∧
  (∃ v, last_value "max_fsize" entries = Some v ∧ limit_value v = Ok (max_fsize l)).
Proof.
  unfold deserialize_job_limits, limit_field. destruct (limit_entries entries ∅) as [m|] eqn:E; cbn [rbind].
  - apply limit_entries_ok in E as [Hall ->]. rewrite !fold_limits, !lookup_empty by done. split.
    + destruct (last_value "max_cpu" entries) as [v1|]; [|done]. destruct (limit_value v1) as [n1|] eqn:E1; [|done].
      destruct (last_value "max_mem" entries) as [v2|]; [|done]. destruct (limit_value v2) as [n2|] eqn:E2; [|done].
      destruct (last_value "max_fsize" entries) as [v3|]; [|done]. destruct (limit_value v3) as [n3|] eqn:E3; [|done].
      intros [= <-]. split_and!; eauto.
    + intros (_&(v1&->&->)&(v2&->&->)&(v3&->&->)). by destruct l.
  - split; [done|]. intros [Hall _].
    assert (Hok := proj2 (limit_entries_ok entries ∅ _) (conj Hall eq_refl)). congruence.
Qed.

(** ** An encoding

    Values as trees, and trees as bits, nested at most 256 deep; messages as products
    and sums, carried by a scalar. *)
Section encoding.

Fixpoint depth (v : ValueOf N) : nat :=
  match v with
  | VText _ | VScalar _ => 0
  | VArray l => S (max_list (map depth l))
  | VMap l => S (max_list (map (λ e, Nat.max (depth e.1) (depth e.2)) l))
  end.
Definition toy_readable (v : ValueOf N) : bool := (depth v <=? 256)%nat.

Fixpoint tree_of (v : ValueOf N) : gen_tree (string + N) :=
  match v with
  | VText s => GenLeaf (inl s)
  | VScalar n => GenLeaf (inr n)
  | VArray l => GenNode 0 (map tree_of l)
  | VMap l => GenNode 1 (map (λ e, GenNode 2 [tree_of e.1; tree_of e.2]) l)
  end.
Fixpoint value_of (t : gen_tree (string + N)) : ValueOf N :=
  match t with
  | GenLeaf (inl s) => VText s
  | GenLeaf (inr n) => VScalar n
  | GenNode 0 ts => VArray (map value_of ts)
  | GenNode _ ts => VMap (map (λ t, match t with GenNode _ [k; v] => (value_of k, value_of v) | _ => (VScalar 0, VScalar 0) end) ts)
  end.

Lemma value_of_tree v : value_of (tree_of v) = v.
Proof.
  revert v. fix IH 1. intros [s|l|l|n]; cbn; [done| | |done].
  - f_equal. rewrite map_map. induction l as [|v l IHl]; cbn; [done|]. by rewrite IH, IHl.
  - f_equal. rewrite map_map. induction l as [|[k v] l IHl]; cbn; [done|]. by rewrite !IH, IHl.
Qed.

Fixpoint bits (p : positive) : list byte :=
  match p with xH => [] | xO p => Byte.x00 :: bits p | xI p => Byte.x01 :: bits p end.
Fixpoint unbits (l : list byte) : positive :=
  match l with [] => xH | Byte.x00 :: l => xO (unbits l) | _ :: l => xI (unbits l) end.
Lemma unbits_bits p : unbits (bits p) = p.
Proof. induction p as [p IH|p IH|]; cbn; congruence. Qed.

#[local] Program Instance toy_cbor : Cbor := {
  Scalar := N;
  into_cbor v := bits (encode (tree_of v));
  from_cbor l := t ← decode (unbits l); Some (value_of t);
  readable := toy_readable;
}.
Next Obligation. intros v _. cbn. rewrite unbits_bits, decode_encode. cbn. by rewrite value_of_tree. Qed.
Next Obligation. done. Qed.
Next Obligation. intros e rest. unfold toy_readable. rewrite !Nat.leb_le. cbn. lia. Qed.

(** The parts of a message as products and sums. *)
Definition sled_code (s : SledId) : BaseboardId + N := match s with SBaseboard b => inl b | SCubby c => inr c end.
Definition code_sled (x : BaseboardId + N) : SledId := match x with inl b => SBaseboard b | inr c => SCubby c end.
Definition target_code (t : Target) : option (list (BaseboardId + N)) :=
  match t with TAll => None | TSleds l => Some (map sled_code l) end.
Definition code_target (x : option (list (BaseboardId + N))) : Target :=
  match x with None => TAll | Some l => TSleds (map code_sled l) end.
Definition mode_code (m : JobMode) : N := match m with Batch => 0 | Interactive => 1 | StreamInput => 2 | StreamOutput => 3 end.
Definition code_mode (n : N) : JobMode := match n with 0 => Batch | 1 => Interactive | 2 => StreamInput | _ => StreamOutput end.
Definition wait_code (w : JobWait) : N := match w with WNone => 0 | WStart => 1 | WStop => 2 end.
Definition code_wait (n : N) : JobWait := match n with 0 => WNone | 1 => WStart | _ => WStop end.
Definition skip_code (r : SkipReason) : N :=
  match r with SessionSuperseded => 0 | SessionEnded => 1 | NotTargeted => 2 | CubbyUnknown => 3 end.
Definition code_skip (n : N) : SkipReason :=
  match n with 0 => SessionSuperseded | 1 => SessionEnded | 2 => NotTargeted | _ => CubbyUnknown end.
Definition error_code (e : ProcessError) : N * string * string * Z * N :=
  match e with
  | PUnknown => (0, "", "", 0%Z, 0)
  | PKilled z => (1, "", "", z, 0)
  | PInteractive m => (2, m, "", 0%Z, 0)
  | PInvalidCommand => (3, "", "", 0%Z, 0)
  | PInvalidJob m => (4, m, "", 0%Z, 0)
  | PIo what error => (5, what, error, 0%Z, 0)
  | POutputLimitExceeded Stdout limit => (6, "", "", 0%Z, limit)
  | POutputLimitExceeded Stderr limit => (7, "", "", 0%Z, limit)
  | PJoin m => (8, m, "", 0%Z, 0)
  | PInterrupted => (9, "", "", 0%Z, 0)
  end.
Definition code_error (x : N * string * string * Z * N) : ProcessError :=
  let '(tag, m, error, z, limit) := x in
  match tag with
  | 0 => PUnknown | 1 => PKilled z | 2 => PInteractive m | 3 => PInvalidCommand | 4 => PInvalidJob m | 5 => PIo m error
  | 6 => POutputLimitExceeded Stdout limit | 7 => POutputLimitExceeded Stderr limit | 8 => PJoin m | _ => PInterrupted
  end.
Definition output_code (o : JobOutputState) := (stdout_len o, stderr_len o, stdout_hash o, stderr_hash o).
Definition preimage_code (p : SessionPreimage) := (baseboard p, sush_nonce p, signer_nonce p, seq p).
Definition request_code (r : JobStartRequest) :=
  (job_id r, session_id r, command r, mode_code (mode r), target_code (target r)).
Definition job_code (j : SignedJob) :=
  (request_code (payload j), key_id j, (sig_r (signature j), sig_s (signature j), sig_flags (signature j), sig_counter (signature j))).
Definition params_code (p : JobStartParams) :=
  (max_cpu (limits p), max_mem (limits p), max_fsize (limits p), term p, rows p, cols p, wait_code (wait p)).

Definition output_of x : JobOutputState := let '(a, b, c, d) := x in mkJobOutputState a b c d.
Definition preimage_of x : SessionPreimage := let '(a, b, c, d) := x in mkSessionPreimage a b c d.
Definition job_of x : SignedJob :=
  let '(id, sid, command, mode, target, kid, (r, s, flags, counter)) := x in
  mkSigned (mkJobStartRequest id sid command (code_mode mode) (code_target target)) kid (mkEncodedSignature r s flags counter).
Definition params_of x : JobStartParams :=
  let '(cpu, mem, fsize, term, rows, cols, wait) := x in mkJobStartParams (mkJobLimits cpu mem fsize) term rows cols (code_wait wait).
Definition result_code (r : result Z ProcessError) := match r with Ok z => inl z | Err e => inr (error_code e) end.
Definition result_of x : result Z ProcessError := match x with inl z => Ok z | inr e => Err (code_error e) end.

Definition session_request_code (r : SessionRequest) :=
  match r with
  | SRStart p => inl (preimage_code p)
  | SRStop sid => inr (inl (sid, None))
  | SRSkip sid id => inr (inl (sid, Some id))
  | SRAllowAttach sid kid access => inr (inr (sid, kid, Some (match access with ReadOnly => false | ReadWrite => true end)))
  | SRDenyAttach sid kid => inr (inr (sid, kid, None))
  end.
Definition session_request_of x : SessionRequest :=
  match x with
  | inl p => SRStart (preimage_of p)
  | inr (inl (sid, None)) => SRStop sid
  | inr (inl (sid, Some id)) => SRSkip sid id
  | inr (inr (sid, kid, Some w)) => SRAllowAttach sid kid (match (w : bool) with true => ReadWrite | false => ReadOnly end)
  | inr (inr (sid, kid, None)) => SRDenyAttach sid kid
  end.
Definition job_request_code (r : JobRequest) :=
  match r with JRStart job params sleds => inl (job_code job, params_code params, sleds) | JRStop id => inr id end.
Definition job_request_of x : JobRequest :=
  match x with inl (job, params, sleds) => JRStart (job_of job) (params_of params) sleds | inr id => JRStop id end.
Definition event_code (e : Event) :=
  match e with
  | EvJob (EStart id at_) => inl (id, at_, None)
  | EvJob (EStop id at_ res output) => inl (id, at_, Some (inl (result_code res, output_code output)))
  | EvJob (EError id at_ error) => inl (id, at_, Some (inr (inl (error_code error))))
  | EvJob (ESkipped id at_ reason) => inl (id, at_, Some (inr (inr (skip_code reason))))
  | EvVersion info => inr (version info, commit info)
  end.
Definition event_of x : Event :=
  match x with
  | inl (id, at_, None) => EvJob (EStart id at_)
  | inl (id, at_, Some (inl (res, output))) => EvJob (EStop id at_ (result_of res) (output_of output))
  | inl (id, at_, Some (inr (inl error))) => EvJob (EError id at_ (code_error error))
  | inl (id, at_, Some (inr (inr reason))) => EvJob (ESkipped id at_ (code_skip reason))
  | inr (version, commit) => EvVersion (mkVersionInfo version commit)
  end.
Definition message_code (m : Message) :=
  match m with
  | MRequest (RSession r) => inl (inl (actor r, session_request_code (request r)))
  | MRequest (RJob r) => inl (inr (actor r, job_request_code (request r)))
  | MEvent b e => inr (b, event_code e)
  end.
Definition message_of x : Message :=
  match x with
  | inl (inl (kid, r)) => MRequest (RSession (mkAttributed kid (session_request_of r)))
  | inl (inr (kid, r)) => MRequest (RJob (mkAttributed kid (job_request_of r)))
  | inr (b, e) => MEvent b (event_of e)
  end.

Lemma code_target_back t : code_target (target_code t) = t.
Proof. destruct t as [|l]; [done|]. cbn. f_equal. rewrite map_map. induction l as [|[] l IH]; cbn; congruence. Qed.
Lemma code_error_back e : code_error (error_code e) = e.
Proof. by destruct e as [| | | | | |[] ?| |]. Qed.
Lemma job_back j : job_of (job_code j) = j.
Proof. destruct j as [[id sid command [] t] kid []]; cbn; by rewrite code_target_back. Qed.
Lemma params_back p : params_of (params_code p) = p.
Proof. by destruct p as [[] ? ? ? []]. Qed.
Lemma message_code_back m : message_of (message_code m) = m.
Proof.
  destruct m as [[[kid [[]| | |? ? []|]]|[kid [job params sleds|]]]|b [[| ? ? [] []| |? ? []]|[]]];
    cbn -[job_of job_code params_of params_code code_error error_code];
    by rewrite ?job_back, ?params_back, ?code_error_back.
Qed.

#[local] Instance toy_byte_countable : Countable byte :=
  inj_countable Byte.to_N Byte.of_N Byte.of_to_N.

Definition toy_message_value (m : Message) : ValueOf N := VScalar (Npos (encode (message_code m))).
Definition toy_message_of_value (v : ValueOf N) : result Message string :=
  match v with
  | VScalar (Npos p) => ok_or (message_of <$> decode p) "malformed"
  | _ => Err "malformed"
  end.
Lemma toy_message_back m : toy_message_of_value (toy_message_value m) = Ok m.
Proof.
  unfold toy_message_of_value, toy_message_value. rewrite decode_encode. cbn -[message_of message_code].
  by rewrite message_code_back.
Qed.
#[local] Instance toy_format : MessageFormat :=
  Build_MessageFormat toy_cbor toy_message_value toy_message_of_value toy_message_back.
End encoding.
#[local] Existing Instances toy_cbor toy_format.

(** A message of a later build, relayed. *)
Definition later : ValueOf N := VMap [(VText "V1", VArray [VScalar 7; VText "new"])].
Lemma messages_relayed_witness :
  (∃ bytes, deserialize later = Ok (Unknown "V1" bytes) ∧ serialize (Unknown "V1" bytes) = Some later) ∧
  ∃ v', serialize (V0 (MEvent (mkBaseboardId "913" "BRM") (EvVersion (mkVersionInfo "1" "c")))) = Some v' ∧
    deserialize v' = Ok (V0 (MEvent (mkBaseboardId "913" "BRM") (EvVersion (mkVersionInfo "1" "c")))).
Proof.
  destruct (messages_relayed (Icbor := toy_cbor) (Iformat := toy_format)) as (H1&H2&_). split; [|apply H1].
  apply (H2 "V1" later); [left; by eexists|discriminate|reflexivity].
Defined.
