(* ===== verification/Gossip.v ===== *)
(** * Converging on one gossip universe ([server/src/gossip.rs], [link.rs])

    The gossip manager links to its peers, drives sessions on every link, and
    leaves its universe for one that beats it.  One turn of its loop is one arm
    of its [select!]; tasks are numbered as they are spawned, and an aborted task
    may still report what it finished before.  Links, sessions and joins are the
    [rumors] and [sprockets] crates': a turn is told how they ended. *)
From S2P Require Import Prelude External Codephrases Targets Addresses.
Open Scope N_scope.

(** ** Attested baseboards ([link.rs]) *)

(** [AttestedBaseboards]: by dialed address, and by the IP of accepted
    connections. *)
Record AttestedBaseboards := mkAttested {
  at_dialed : gmap (list N) BaseboardId;
  at_accepted : gmap N (gset BaseboardId);
}.
Definition attested_new : AttestedBaseboards := mkAttested ∅ ∅.

Definition v6_key (a : SocketAddrV6) : list N := addr_key (AddrV6 a).

(** [AttestedBaseboards::resolve]. *)
Definition resolve_addr (t : AttestedBaseboards) (a : SocketAddr) : option BaseboardId :=
  match a with
  | AddrV4 _ _ => None
  | AddrV6 a =>
    match at_dialed t !! v6_key a with
    | Some id => Some id
    | None =>
      match elements (default ∅ (at_accepted t !! v6_ip a)) with
      | [id] => Some id
      | _ => None
      end
    end
  end.

(** [baseboard]: the second and fourth fields of a platform identifier. *)
Definition colon : Ascii.ascii := Ascii.ascii_of_N 58.
Definition platform_baseboard (platform_id : string) : option BaseboardId :=
  match split_on colon platform_id with
  | _ :: part :: _ :: serial :: _ => Some (mkBaseboardId part serial)
  | _ => None
  end.

(** [Baseboards::dialed], [accepted], once the platform identifier parsed. *)
Definition attest_dialed (t : AttestedBaseboards) (a : SocketAddrV6) (id : BaseboardId) : AttestedBaseboards :=
  mkAttested (<[v6_key a := id]> (at_dialed t)) (at_accepted t).
Definition attest_accepted (t : AttestedBaseboards) (ip : N) (id : BaseboardId) : AttestedBaseboards :=
  mkAttested (at_dialed t) (<[ip := {[id]} ∪ default ∅ (at_accepted t !! ip)]> (at_accepted t)).

(** [Baseboards::retain]. *)
Definition attested_retain (t : AttestedBaseboards) (peers : list SocketAddrV6) : AttestedBaseboards :=
  mkAttested (filter (λ x, x.1 ∈ map v6_key peers) (at_dialed t))
    (filter (λ x, x.1 ∈ map v6_ip peers) (at_accepted t)).

Section gossip.
Context {Irum : Rumors}.
(** The order of network identifiers. *)
Variables (network_ltb : Network → Network → bool).

(** ** Universes *)

(** [remote_dominates]. *)
Definition remote_dominates (local_events remote_events : N) (local_network remote_network : Network) : bool :=
  match N.compare remote_events local_events with
  | Gt => true
  | Lt => false
  | Eq => network_ltb remote_network local_network
  end.

(** What one session of a driver ended in, and [Stopped]. *)
Inductive Session :=
| SessionOk
| Mismatch (remote_network : Network) (local_min_events remote_min_events : N)
| BookmarkError
| SessionError.
Inductive Stopped := Dominated | Failed.

(** [sessions]: the driver's result, over what its sessions ended in. *)
Fixpoint sessions (ours : Network) (l : list Session) : Stopped :=
  match l with
  | [] => Failed
  | SessionOk :: l => sessions ours l
  | Mismatch remote local_events remote_events :: _ =>
    if remote_dominates local_events remote_events ours remote then Dominated else Failed
  | BookmarkError :: _ | SessionError :: _ => Failed
  end.

(** ** The manager *)

(** A driver task: its peer, the universe it gossips in, whether it was aborted. *)
Record Driver := mkDriver { dr_peer : SocketAddr; dr_universe : nat; dr_aborted : bool }.

(** [Manager].  Universes are numbered as they are entered, with their networks;
    [g_beaten] logs what drivers reported, [g_adopted] what was joined: which
    universe was left, through which peer. *)
Record Gossip := mkGossip {
  g_ours : SocketAddr;
  g_peers : list SocketAddrV6;
  g_universe : nat;
  g_network : Network;
  g_live : gmap SocketAddr nat;
  g_dialing : gmap SocketAddr nat;
  g_joins : gset SocketAddr;
  g_drivers : gmap nat Driver;
  g_dials : gmap nat SocketAddr;
  g_next : nat;
  g_attested : AttestedBaseboards;
  g_linked : gset BaseboardId;
  g_beaten : list (nat * SocketAddr);
  g_adopted : list (nat * SocketAddr);
}.

(** The manager [spawn_gossip_manager] makes. *)
Definition gossip_new (ours : SocketAddr) (peers : list SocketAddrV6) (net : Network) : Gossip :=
  mkGossip ours peers 0 net ∅ ∅ ∅ ∅ ∅ 0 attested_new ∅ [] [].

Definition with_tables (g : Gossip) (live dialing : gmap SocketAddr nat) (joins : gset SocketAddr) : Gossip :=
  mkGossip (g_ours g) (g_peers g) (g_universe g) (g_network g) live dialing joins (g_drivers g) (g_dials g)
    (g_next g) (g_attested g) (g_linked g) (g_beaten g) (g_adopted g).
Definition with_drivers (g : Gossip) (drivers : gmap nat Driver) : Gossip :=
  mkGossip (g_ours g) (g_peers g) (g_universe g) (g_network g) (g_live g) (g_dialing g) (g_joins g) drivers
    (g_dials g) (g_next g) (g_attested g) (g_linked g) (g_beaten g) (g_adopted g).
Definition with_attested (g : Gossip) (a : AttestedBaseboards) : Gossip :=
  mkGossip (g_ours g) (g_peers g) (g_universe g) (g_network g) (g_live g) (g_dialing g) (g_joins g) (g_drivers g)
    (g_dials g) (g_next g) a (g_linked g) (g_beaten g) (g_adopted g).
Definition with_linked (g : Gossip) (l : gset BaseboardId) : Gossip :=
  mkGossip (g_ours g) (g_peers g) (g_universe g) (g_network g) (g_live g) (g_dialing g) (g_joins g) (g_drivers g)
    (g_dials g) (g_next g) (g_attested g) l (g_beaten g) (g_adopted g).
Definition with_peers (g : Gossip) (p : list SocketAddrV6) : Gossip :=
  mkGossip (g_ours g) p (g_universe g) (g_network g) (g_live g) (g_dialing g) (g_joins g) (g_drivers g)
    (g_dials g) (g_next g) (g_attested g) (g_linked g) (g_beaten g) (g_adopted g).

Definition peer_set (g : Gossip) : gset SocketAddr := list_to_set (map AddrV6 (g_peers g)).

(** [publish_linked]. *)
Definition publish_linked (g : Gossip) : Gossip :=
  with_linked g (list_to_set (omap (resolve_addr (g_attested g)) (elements (dom (g_live g))))).

(** [wanted]. *)
Definition wanted (g : Gossip) : gset SocketAddr := filter (λ a, addr_ltb a (g_ours g) = true) (peer_set g).

(** One turn of the loop of [link_absent]. *)
Definition dial_absent (g : Gossip) (peer : SocketAddr) : Gossip :=
  if bool_decide (is_Some (g_live g !! peer)) || bool_decide (is_Some (g_dialing g !! peer)) then g
  else
    mkGossip (g_ours g) (g_peers g) (g_universe g) (g_network g) (g_live g)
      (<[peer := g_next g]> (g_dialing g)) (g_joins g) (g_drivers g) (<[g_next g := peer]> (g_dials g))
      (S (g_next g)) (g_attested g) (g_linked g) (g_beaten g) (g_adopted g).

(** [link_absent]. *)
Definition link_absent (g : Gossip) : Gossip := foldl dial_absent g (sorted_elements addr_le (wanted g)).

(** [AbortHandle::abort] of the drivers in [ids]. *)
Definition abort_drivers (ids : gset nat) (drivers : gmap nat Driver) : gmap nat Driver :=
  map_imap (λ id d, Some (if bool_decide (id ∈ ids) then mkDriver (dr_peer d) (dr_universe d) true else d)) drivers.

(** [prune]. *)
Definition prune (g : Gossip) : Gossip :=
  let want := peer_set g in
  let culled := filter (λ x, x.1 ∉ want) (g_live g) in
  with_attested
    (with_drivers
       (with_tables g (filter (λ x, x.1 ∈ want) (g_live g)) (filter (λ x, x.1 ∈ want) (g_dialing g))
          (g_joins g ∩ want))
       (abort_drivers (map_img culled) (g_drivers g)))
    (attested_retain (g_attested g) (g_peers g)).

(** [drive]: the stale driver of the peer, if any, is aborted. *)
Definition drive (g : Gossip) (peer : SocketAddr) : Gossip :=
  let stale : gset nat := match g_live g !! peer with Some id => {[id]} | None => ∅ end in
  mkGossip (g_ours g) (g_peers g) (g_universe g) (g_network g) (<[peer := g_next g]> (g_live g)) (g_dialing g)
    (g_joins g)
    (<[g_next g := mkDriver peer (g_universe g) false]> (abort_drivers stale (g_drivers g)))
    (g_dials g) (S (g_next g)) (g_attested g) (g_linked g) (g_beaten g) (g_adopted g).

(** How a join ends: in a universe, with a bookmark or shed; or not. *)
Inductive JoinOutcome := Joined (net : Network) | Unbookmarked (net : Network) | Bailed | JoinFailed | JoinTimedOut.

(** [adopt], through [peer]. *)
Definition adopt (g : Gossip) (peer : SocketAddr) (net : Network) : Gossip :=
  mkGossip (g_ours g) (g_peers g) (S (g_universe g)) net (g_live g) (g_dialing g) ∅ (g_drivers g) (g_dials g)
    (g_next g) (g_attested g) (g_linked g) (g_beaten g) (g_adopted g ++ [(g_universe g, peer)]).

(** [migrate]. *)
Definition migrate (g : Gossip) (peer : SocketAddr) (o : JoinOutcome) : Gossip :=
  let g := with_tables (with_drivers g (abort_drivers (dom (g_drivers g)) (g_drivers g))) ∅ (g_dialing g) (g_joins g) in
  link_absent match o with Joined net | Unbookmarked net => adopt g peer net | _ => g end.

(** [on_link]. *)
Definition on_link (g : Gossip) (peer : SocketAddr) (o : JoinOutcome) : Gossip :=
  if bool_decide (peer ∈ g_joins g) then migrate g peer o else drive g peer.

(** ** Turns *)

Inductive GossipTurn :=
| GTick
| GPeers (peers : list SocketAddrV6)
| GAttested (a : AttestedBaseboards)
| GAccept (peer : SocketAddr) (o : JoinOutcome)
(** A dial ends, with a link or without; or is lost (aborted, or panicked). *)
| GDialed (id : nat) (linked : bool) (o : JoinOutcome)
| GDialLost (id : nat)
(** A driver stops after these sessions; or is lost. *)
| GStopped (id : nat) (stopped : Stopped)
| GDriverLost (id : nat).

(** The loop of [run]; a task that does not run reports nothing. *)
Definition gossip_arm (g : Gossip) (t : GossipTurn) : option Gossip :=
  match t with
  | GTick => Some (link_absent g)
  | GPeers peers => Some (link_absent (prune (with_peers g peers)))
  | GAttested a => Some (with_attested g a)
  | GAccept peer o => Some (on_link g peer o)
  | GDialed id linked o =>
    peer ← g_dials g !! id;
    let g := mkGossip (g_ours g) (g_peers g) (g_universe g) (g_network g) (g_live g) (g_dialing g) (g_joins g)
               (g_drivers g) (delete id (g_dials g)) (g_next g) (g_attested g) (g_linked g) (g_beaten g) (g_adopted g) in
    Some (if bool_decide (g_dialing g !! peer = Some id) then
            let g := with_tables g (g_live g) (delete peer (g_dialing g)) (g_joins g) in
            if linked then on_link g peer o else g
          else g)
  | GDialLost id =>
    _ ← g_dials g !! id;
    Some (mkGossip (g_ours g) (g_peers g) (g_universe g) (g_network g) (g_live g)
            (filter (λ x, x.2 ≠ id) (g_dialing g)) (g_joins g) (g_drivers g) (delete id (g_dials g)) (g_next g)
            (g_attested g) (g_linked g) (g_beaten g) (g_adopted g))
  | GStopped id stopped =>
    d ← g_drivers g !! id;
    let beaten := match stopped with Dominated => [(dr_universe d, dr_peer d)] | Failed => [] end in
    let mine := bool_decide (g_live g !! dr_peer d = Some id) in
    Some (mkGossip (g_ours g) (g_peers g) (g_universe g) (g_network g)
            (if mine then delete (dr_peer d) (g_live g) else g_live g) (g_dialing g)
            (match stopped with Dominated => if mine then {[dr_peer d]} ∪ g_joins g else g_joins g | Failed => g_joins g end)
            (delete id (g_drivers g)) (g_dials g) (g_next g) (g_attested g) (g_linked g)
            (g_beaten g ++ beaten) (g_adopted g))
  | GDriverLost id =>
    _ ← g_drivers g !! id;
    Some (mkGossip (g_ours g) (g_peers g) (g_universe g) (g_network g) (filter (λ x, x.2 ≠ id) (g_live g))
            (g_dialing g) (g_joins g) (delete id (g_drivers g)) (g_dials g) (g_next g) (g_attested g)
            (g_linked g) (g_beaten g) (g_adopted g))
  end.

Definition gossip_turn (g : Gossip) (t : GossipTurn) : option Gossip := publish_linked <$> gossip_arm g t.

Fixpoint gossip_run (g : Gossip) (ts : list GossipTurn) : option Gossip :=
  match ts with [] => Some g | t :: ts => g ← gossip_turn g t; gossip_run g ts end.

(** ** Two managers agree *)

(** Of two different universes exactly one dominates, and both sides know. *)
Lemma one_side_dominates e1 e2 n1 n2 :
  (∀ n m, n ≠ m → network_ltb n m = negb (network_ltb m n)) → n1 ≠ n2 →
  remote_dominates e1 e2 n1 n2 = negb (remote_dominates e2 e1 n2 n1).
Proof.
  intros Ht Hne. unfold remote_dominates. rewrite (N.compare_antisym e2 e1).
  destruct (N.compare e2 e1); cbn; [by apply Ht|done..].
Qed.

(** Of two peers that know each other exactly one dials. *)
Lemma one_side_dials g1 g2 a1 a2 :
  g_ours g1 = AddrV6 a1 → g_ours g2 = AddrV6 a2 → a1 ≠ a2 → a1 ∈ g_peers g2 → a2 ∈ g_peers g1 →
  (AddrV6 a2 ∈ wanted g1 ↔ AddrV6 a1 ∉ wanted g2).
Proof.
  intros E1 E2 Hne H1 H2. unfold wanted, peer_set. rewrite !elem_of_filter, E1, E2.
  rewrite !elem_of_list_to_set, !list_elem_of_fmap.
  assert (Hn : AddrV6 a2 ≠ AddrV6 a1) by congruence. rewrite (addr_ltb_trichotomy _ _ Hn).
  destruct (addr_ltb _ _); cbn; split; intros H.
  - by destruct H.
  - destruct H. split; [done|eauto].
  - by intros [? _].
  - split; [done|eauto].
Qed.

(** ** The invariant *)

Record gossip_ok (g : Gossip) : Prop := mkGossipOk {
  live_runs : ∀ p id, g_live g !! p = Some id → g_drivers g !! id = Some (mkDriver p (g_universe g) false);
  runs_live : ∀ id d, g_drivers g !! id = Some d → dr_aborted d = false → g_live g !! dr_peer d = Some id;
  ids_below : ∀ id, is_Some (g_drivers g !! id) → (id < g_next g)%nat;
  joins_beaten : ∀ p, p ∈ g_joins g → (g_universe g, p) ∈ g_beaten g;
  adopted_beaten : ∀ x, x ∈ g_adopted g → x ∈ g_beaten g;
  adopted_each : map fst (g_adopted g) = seq 0 (g_universe g);
}.

Lemma abort_lookup ids drivers id :
  abort_drivers ids drivers !! id =
  (λ d, if bool_decide (id ∈ ids) then mkDriver (dr_peer d) (dr_universe d) true else d) <$> drivers !! id.
Proof. unfold abort_drivers. rewrite map_lookup_imap. by destruct (drivers !! id). Qed.

Lemma gossip_ok_new ours peers net : gossip_ok (gossip_new ours peers net).
Proof. split; cbn; try done. by intros id [d Hd]. Qed.

(** What dialing leaves alone. *)
Definition undialed (g : Gossip) :=
  (g_live g, g_drivers g, g_joins g, g_universe g, g_beaten g, g_adopted g).

Lemma gossip_ok_same g g' :
  undialed g' = undialed g → (g_next g <= g_next g')%nat → gossip_ok g → gossip_ok g'.
Proof.
  unfold undialed. intros [= E1 E2 E3 E4 E5 E6] Hn [H1 H2 H3 H4 H5 H6].
  split; rewrite ?E1, ?E2, ?E3, ?E4, ?E5, ?E6; try done.
  intros id Hid. specialize (H3 id Hid). lia.
Qed.

Lemma dial_absent_same g p :
  undialed (dial_absent g p) = undialed g ∧ (g_next g <= g_next (dial_absent g p))%nat.
Proof. unfold dial_absent. case_match; cbn; [done|split; [done|lia]]. Qed.

Lemma link_absent_same g : undialed (link_absent g) = undialed g ∧ (g_next g <= g_next (link_absent g))%nat.
Proof.
  unfold link_absent. generalize (sorted_elements addr_le (wanted g)). intros l. revert g.
  induction l as [|p l IH]; intros g; cbn; [done|].
  destruct (IH (dial_absent g p)) as [-> H1], (dial_absent_same g p) as [E H2]. split; [done|lia].
Qed.

Lemma gossip_ok_link_absent g : gossip_ok g → gossip_ok (link_absent g).
Proof. destruct (link_absent_same g). by apply gossip_ok_same. Qed.

Lemma gossip_ok_prune g : gossip_ok g → gossip_ok (prune g).
Proof.
  intros [H1 H2 H3 H4 H5 H6]. split; cbn; try done.
  - intros p id [Hp Hw]%map_lookup_filter_Some. rewrite abort_lookup, (H1 _ _ Hp). cbn.
    rewrite bool_decide_false; [done|]. rewrite elem_of_map_img.
    intros (p'&[Hp' Hw']%map_lookup_filter_Some). cbn in *. apply H1 in Hp, Hp'. by simplify_eq.
  - intros id d. rewrite abort_lookup. destruct (g_drivers g !! id) as [d0|] eqn:Ed; [|done]. cbn.
    case_bool_decide as Hin; intros [= <-]; [done|]. intros Hd. specialize (H2 _ _ Ed Hd).
    apply map_lookup_filter_Some. split; [done|]. cbn.
    destruct (decide (dr_peer d0 ∈ peer_set g)); [done|]. destruct Hin. apply elem_of_map_img.
    exists (dr_peer d0). by apply map_lookup_filter_Some.
  - intros id. rewrite abort_lookup, fmap_is_Some. apply H3.
  - intros p [Hp _]%elem_of_intersection. by apply H4.
Qed.

Lemma gossip_ok_drive g p : gossip_ok g → gossip_ok (drive g p).
Proof.
  intros [H1 H2 H3 H4 H5 H6].
  assert (Hfresh : g_drivers g !! g_next g = None).
  { destruct (g_drivers g !! g_next g) as [d|] eqn:E; [|done].
    assert (g_next g < g_next g)%nat; [apply H3; by exists d|lia]. }
  assert (Hne : ∀ id, is_Some (g_drivers g !! id) → id ≠ g_next g) by (intros id [d Hd] ->; congruence).
  split; cbn; try done.
  - intros p' id. destruct (decide (p' = p)) as [->|Hp].
    { rewrite lookup_insert_eq. intros [= <-]. by rewrite lookup_insert_eq. }
    rewrite lookup_insert_ne by done. intros Hl. apply H1 in Hl as Hd.
    rewrite lookup_insert_ne by (intros E; symmetry in E; revert E; apply Hne; by eexists).
    rewrite abort_lookup, Hd. cbn. rewrite bool_decide_false; [done|]. intros Hin.
    destruct (g_live g !! p) as [id'|] eqn:Ep; [|set_solver]. apply elem_of_singleton in Hin as ->.
    apply H1 in Ep. congruence.
  - intros id d. destruct (decide (id = g_next g)) as [->|Hid].
    { rewrite lookup_insert_eq. intros [= <-] _. by rewrite lookup_insert_eq. }
    rewrite lookup_insert_ne by done. rewrite abort_lookup.
    destruct (g_drivers g !! id) as [d0|] eqn:Ed; [|done]. cbn. case_bool_decide as Hin; intros [= <-]; [done|].
    intros Hd. specialize (H2 _ _ Ed Hd). rewrite lookup_insert_ne; [done|]. intros ->.
    rewrite H2 in Hin. set_solver.
  - intros id. destruct (decide (id = g_next g)) as [->|Hid]; [lia|]. rewrite lookup_insert_ne by done.
    rewrite abort_lookup, fmap_is_Some. intros Hs. specialize (H3 id Hs). lia.
Qed.

Lemma gossip_ok_migrate g p o : p ∈ g_joins g → gossip_ok g → gossip_ok (migrate g p o).
Proof.
  intros Hp [H1 H2 H3 H4 H5 H6]. unfold migrate. apply gossip_ok_link_absent.
  set (g0 := with_tables _ _ _ _).
  assert (Hall : ∀ id d, g_drivers g0 !! id = Some d → dr_aborted d = true).
  { intros id d. cbn. rewrite abort_lookup. destruct (g_drivers g !! id) eqn:E; [|done]. cbn.
    rewrite bool_decide_true by (apply elem_of_dom; by eexists). by intros [= <-]. }
  assert (Hids : ∀ id, is_Some (g_drivers g0 !! id) → (id < g_next g)%nat).
  { intros id. cbn. rewrite abort_lookup, fmap_is_Some. apply H3. }
  assert (H0 : gossip_ok g0).
  { split; cbn; try done. intros id d Hd Ha. apply Hall in Hd. congruence. }
  assert (Ha : ∀ net, gossip_ok (adopt g0 p net)).
  { intros net. split; cbn; try done.
    - intros id d Hd Hab. apply Hall in Hd. congruence.
    - intros x [Hx|Hx]%elem_of_app; [by apply H5|]. apply list_elem_of_singleton in Hx as ->. by apply H4.
    - rewrite map_app, H6. cbn. symmetry. apply (seq_S (g_universe g) 0). }
  by destruct o.
Qed.

Lemma gossip_ok_on_link g p o : gossip_ok g → gossip_ok (on_link g p o).
Proof.
  unfold on_link. case_bool_decide; [by apply gossip_ok_migrate|apply gossip_ok_drive].
Qed.

Lemma gossip_ok_stopped g id d stopped :
  g_drivers g !! id = Some d → gossip_ok g →
  ∀ g', gossip_arm g (GStopped id stopped) = Some g' → gossip_ok g'.
Proof.
  intros Hd [H1 H2 H3 H4 H5 H6] g'. cbn. rewrite Hd. cbn. intros [= <-].
  set (mine := bool_decide (g_live g !! dr_peer d = Some id)).
  assert (Hmine : mine = true → dr_universe d = g_universe g ∧ dr_aborted d = false).
  { intros Hm%bool_decide_eq_true. apply H1 in Hm. rewrite Hd in Hm. by injection Hm as ->. }
  split; cbn; try done.
  - intros p id' Hl. assert (Hl' : g_live g !! p = Some id') by (destruct mine; [|done]; by apply lookup_delete_Some in Hl as [_ ?]).
    apply H1 in Hl' as Hd'. rewrite lookup_delete_ne; [done|]. intros ->. rewrite Hd in Hd'. injection Hd' as ->.
    assert (Hm : mine = true) by (by apply bool_decide_eq_true). rewrite Hm in Hl. cbn in Hl. by rewrite lookup_delete_eq in Hl.
  - intros id' d' [Hne Hd']%lookup_delete_Some Ha. specialize (H2 _ _ Hd' Ha). destruct mine eqn:Em; [|done].
    rewrite lookup_delete_ne; [done|]. intros E. apply bool_decide_eq_true in Em. rewrite E in Em. congruence.
  - intros id' [d' [Hne Hd']%lookup_delete_Some]. apply H3. by exists d'.
  - intros p Hp. apply elem_of_app. destruct stopped; [|left; auto]. destruct mine; [|left; auto].
    apply elem_of_union in Hp as [->%elem_of_singleton|Hp]; [|left; auto]. right.
    destruct (Hmine eq_refl) as [-> _]. by apply list_elem_of_singleton.
  - intros x Hx. apply elem_of_app. left. auto.
Qed.

Lemma gossip_ok_lost g id :
  gossip_ok g → ∀ g', gossip_arm g (GDriverLost id) = Some g' → gossip_ok g'.
Proof.
  intros [H1 H2 H3 H4 H5 H6] g'. cbn. destruct (g_drivers g !! id) as [d|] eqn:Hd; cbn; [|done]. intros [= <-].
  split; cbn; try done.
  - intros p id' [Hl Hne]%map_lookup_filter_Some. cbn in Hne. rewrite lookup_delete_ne by done. by apply H1.
  - intros id' d' [Hne Hd']%lookup_delete_Some Ha. apply map_lookup_filter_Some. split; [by apply H2|done].
  - intros id' [d' [Hne Hd']%lookup_delete_Some]. apply H3. by exists d'.
Qed.

Lemma gossip_ok_turn g t g' : gossip_turn g t = Some g' → gossip_ok g → gossip_ok g'.
Proof.
  unfold gossip_turn. destruct (gossip_arm g t) as [g1|] eqn:E; [|done]. intros [= <-] H.
  apply (gossip_ok_same g1); [done|cbn; lia|]. destruct t.
  - injection E as <-. by apply gossip_ok_link_absent.
  - injection E as <-. apply gossip_ok_link_absent, gossip_ok_prune.
    apply (gossip_ok_same g); [done|cbn; lia|done].
  - injection E as <-. apply (gossip_ok_same g); [done|cbn; lia|done].
  - injection E as <-. by apply gossip_ok_on_link.
  - cbn in E. destruct (g_dials g !! id) as [peer|]; [|done]. cbn in E. injection E as <-.
    case_bool_decide; [|by apply (gossip_ok_same g)]. destruct linked; [|by apply (gossip_ok_same g)].
    apply gossip_ok_on_link. by apply (gossip_ok_same g).
  - cbn in E. destruct (g_dials g !! id) as [peer|]; [|done]. cbn in E. injection E as <-. by apply (gossip_ok_same g).
  - assert (Hd : ∃ d, g_drivers g !! id = Some d) by (cbn in E; destruct (g_drivers g !! id); [eauto|done]).
    destruct Hd as [d Hd]. by eapply gossip_ok_stopped.
  - by eapply gossip_ok_lost.
Qed.

Lemma gossip_ok_run ts g g' : gossip_run g ts = Some g' → gossip_ok g → gossip_ok g'.
Proof.
  revert g. induction ts as [|t ts IH]; intros g; cbn; [by intros [= <-]|].
  destruct (gossip_turn g t) as [g1|] eqn:E; cbn; [|done]. intros Hr H. eapply IH; [done|].
  by eapply gossip_ok_turn.
Qed.

(** What is linked is published after every turn. *)
Lemma linked_published g t g' :
  gossip_turn g t = Some g' →
  ∀ b, b ∈ g_linked g' ↔ ∃ p id, g_live g' !! p = Some id ∧ resolve_addr (g_attested g') p = Some b.
Proof.
  unfold gossip_turn. destruct (gossip_arm g t) as [g1|]; [|done]. intros [= <-] b. cbn.
  rewrite elem_of_list_to_set, list_elem_of_omap. split.
  - intros (p&[id Hp]%elem_of_elements%elem_of_dom&E). by exists p, id.
  - intros (p&id&Hp&E). exists p. split; [|done]. apply elem_of_elements, elem_of_dom. by exists id.
Qed.

(** C21. A sled gossips in one universe at a time and leaves it only when beaten.
    Whatever links, dials and sessions do, in any order, stale reports included:
    the drivers that run are one per live peer, and all of them gossip in the
    current universe; every universe was left exactly once, through a peer on
    whose link, in that very universe, a session found domination; and the
    baseboards published are those attested for the live links. *)
Theorem leaves_only_when_beaten ours peers net ts t g :
  gossip_run (gossip_new ours peers net) (ts ++ [t]) = Some g →
  (∀ p id, g_live g !! p = Some id ↔ g_drivers g !! id = Some (mkDriver p (g_universe g) false)) ∧
  (∀ id d, g_drivers g !! id = Some d → dr_aborted d = false → dr_universe d = g_universe g) ∧
  map fst (g_adopted g) = seq 0 (g_universe g) ∧
  (∀ u p, (u, p) ∈ g_adopted g → (u, p) ∈ g_beaten g) ∧
  (∀ b, b ∈ g_linked g ↔ ∃ p id, g_live g !! p = Some id ∧ resolve_addr (g_attested g) p = Some b).
Proof.
  intros Hr. destruct (gossip_ok_run _ _ _ Hr (gossip_ok_new _ _ _)) as [H1 H2 H3 H4 H5 H6].
  split_and!; [|..|done| |].
  - intros p id. split; [apply H1|]. intros Hd. by specialize (H2 _ _ Hd eq_refl).
  - intros id d Hd Ha. specialize (H2 _ _ Hd Ha). apply H1 in H2. rewrite Hd in H2. by injection H2 as ->.
  - auto.
  - clear -Hr. revert Hr. generalize (gossip_new ours peers net). induction ts as [|t' ts IH]; intros g0; cbn.
    + destruct (gossip_turn g0 t) as [g1|] eqn:E; [|done]. cbn. intros [= <-]. by eapply linked_published.
    + destruct (gossip_turn g0 t') as [g1|]; [|done]. cbn. apply IH.
Qed.
End gossip.
