(* ===== verification/Reference.v ===== *)
(** * Executable instances of the external interfaces, and a concrete rack

    Small computable stand-ins for the crates the sources call: a 64-bit
    digest spread over the right width, Ed25519 replaced by a keyed digest, natural
    numbers as causal versions, an LRU cache as a list.  They satisfy every law
    of [External.v], so the hypotheses of the development are consistent, and
    they let whole runs of the server be evaluated: each theorem with hypotheses
    is applied here to such a run. *)
From S2P Require Import Prelude External Codephrases Hash Targets Keys Ssh Jobs Messages.
From S2P Require Import Headers Authn Login Rack Certs History Boundary Locker Executor.
From S2P Require Import State StateFacts SessionFacts StatusFacts Manager.
Open Scope N_scope.

(** ** Instances *)

(** Baseboards print as [part:serial]; the order compares the two fields as
    encoded numbers. *)
Definition colon : Ascii.ascii := Ascii.ascii_of_N 58.

Definition ref_baseboard_code (b : BaseboardId) : positive := encode b.
Definition ref_baseboard_le (a b : BaseboardId) : Prop :=
  (ref_baseboard_code a <= ref_baseboard_code b)%positive.

#[export] Instance ref_baseboard_le_dec : RelDecision ref_baseboard_le.
Proof. intros a b. unfold ref_baseboard_le. apply _. Defined.

#[export] Instance ref_baseboard_le_total : TotalOrder ref_baseboard_le.
Proof.
  unfold ref_baseboard_le, ref_baseboard_code. split; [split; [split|]|].
  - intros a. lia.
  - intros a b c. lia.
  - intros a b H1 H2. apply (inj encode). lia.
  - intros a b. unfold strict. destruct (decide (encode a = encode b)) as [E%(inj encode)|Hne];
      [by right; left|]. destruct (decide (encode a < encode b)%positive); [left|right; right]; lia.
Qed.

Definition ref_baseboard_from_str (s : string) : option BaseboardId :=
  match split_on colon s with [p; q] => Some (mkBaseboardId p q) | _ => None end.

#[export] Instance ref_baseboard : BaseboardOps := {
  baseboard_to_string b := part_number b +:+ String colon (serial_number b);
  baseboard_from_str := ref_baseboard_from_str;
  baseboard_le := ref_baseboard_le;
}.

#[export] Instance ref_nat_le_total : TotalOrder N.le.
Proof.
  split; [split; [split|]|].
  - intros a. lia.
  - intros a b c. lia.
  - intros a b. lia.
  - intros a b. unfold strict. destruct (N.lt_trichotomy a b) as [|[|]]; [left|right; left|right; right]; lia.
Qed.

(** Versions of a single writer: each extends the previous one. *)
#[export, refine] Instance ref_rumors : Rumors := {
  Version := N;
  Rank := N;
  Network := N;
  version_ge a b := b <=? a;
  version_rank v := v;
  rank_le := N.le;
  version_ge_refl v := N.leb_refl v;
}.
Proof. intros u v w. rewrite !N.leb_le. lia. Defined.

(** The last of 64-bit words that each absorb one byte, four times over. *)
Definition ref_mask : N := 18446744073709551615.

Definition ref_digest (bs : list byte) : list byte :=
  let word := be_bytes 8 (foldl (λ acc b, N.land (acc * 33 + Byte.to_N b + 1) ref_mask) 7 bs) in
  word ++ word ++ word ++ word.

Lemma length_ref_digest bs : length (ref_digest bs) = 32%nat.
Proof. unfold ref_digest. by rewrite !length_app, !length_be_bytes. Qed.

#[export] Instance ref_sha3 : Sha3 := {
  sha3_256 := ref_digest;
  sha3_256_length := length_ref_digest;
}.

Record ref_lru_cache (K V : Type) := mkRefLru { ref_cap : nat; ref_entries : list (K * V) }.
Arguments mkRefLru {K V} _ _.
Arguments ref_cap {K V} _.
Arguments ref_entries {K V} _.

#[export, refine] Instance ref_lru : LruCache := {
  lru := ref_lru_cache;
  lru_entries K V := ref_entries;
  lru_cap K V := ref_cap;
  lru_new K V n := mkRefLru n [];
  lru_contains K V _ c k := bool_decide (k ∈ (ref_entries c).*1);
  lru_peek K V _ c k := snd <$> find_first (λ e, bool_decide (e.1 = k)) (ref_entries c);
  lru_put K V _ c k v :=
    mkRefLru (ref_cap c) (take (ref_cap c) ((k, v) :: filter (λ e, e.1 ≠ k) (ref_entries c)));
  lru_pop K V _ c k :=
    (snd <$> find_first (λ e, bool_decide (e.1 = k)) (ref_entries c),
     mkRefLru (ref_cap c) (filter (λ e, e.1 ≠ k) (ref_entries c)));
  lru_get_mut K V _ c k :=
    match find_first (λ e, bool_decide (e.1 = k)) (ref_entries c) with
    | Some e =>
      Some (e.2, λ w, mkRefLru (ref_cap c) ((k, w) :: filter (λ e, e.1 ≠ k) (ref_entries c)))
    | None => None
    end;
}.
Proof.
  all: try done. intros K V ? c k. cbn. by destruct (find_first _ _).
Defined.

(** Certificates of the stand-in scheme: a name, an issuer, a 32-byte key and
    the issuer's signature. *)
Record ref_certificate := mkRefCert {
  rc_subject : string; rc_issuer : string; rc_key : list byte; rc_sig : list byte;
}.

Definition ref_sign (key message : list byte) : list byte :=
  ref_digest (key ++ message) ++ ref_digest (message ++ key).

Definition ref_alg : AlgorithmIdentifier := mkAlgorithm ID_ED_25519 None.

#[export] Instance ref_pki : Pki := {
  Certificate := ref_certificate;
  Name := string;
  cert_subject := rc_subject;
  cert_issuer := rc_issuer;
  cert_spki_algorithm _ := ref_alg;
  cert_spki_key := rc_key;
  cert_spki_der c := Some (rc_key c);
  cert_tbs_der c := Some (bytes_of_string (rc_subject c) ++ rc_key c);
  cert_signature_algorithm _ := ref_alg;
  cert_tbs_signature _ := ref_alg;
  cert_signature := rc_sig;
  EcdsaSignature := list byte * list byte;
  Ed25519Signature := list byte;
  ecdsa_from_scalars r s := Some (r, s);
  ecdsa_from_der _ := None;
  ecdsa_key_ok _ := false;
  ecdsa_verify _ _ _ := false;
  ed25519_from_components r s := r ++ s;
  ed25519_from_slice s := if (length s =? 64)%nat then Some s else None;
  ed25519_key_ok _ := true;
  ed25519_verify key message s := bool_decide (s = ref_sign key message);
}.

(** SSH keys of the stand-in scheme are the raw Ed25519 keys; integers are
    encoded as [ssh-encoding] does. *)
Definition ref_mpint (bs : list byte) : list byte :=
  match strip_zeros bs with
  | [] => []
  | b :: rest => if 128 <=? Byte.to_N b then x00 :: b :: rest else b :: rest
  end.

Definition ref_mpint_positive (enc : list byte) : option (list byte) :=
  match enc with
  | [] => None
  | x00 :: rest => Some rest
  | b :: _ => if Byte.to_N b <? 128 then Some enc else None
  end.

Lemma strip_zeros_head bs : match strip_zeros bs with x00 :: _ => False | _ => True end.
Proof. induction bs as [|b bs IH]; [done|]. by destruct b. Qed.

Lemma strip_zeros_fixed b bs : b ≠ x00 → strip_zeros (b :: bs) = b :: bs.
Proof. by destruct b. Qed.

Lemma ref_mpint_roundtrip bs :
  strip_zeros bs ≠ [] →
  ref_mpint (ref_mpint bs) = ref_mpint bs ∧ ref_mpint_positive (ref_mpint bs) = Some (strip_zeros bs).
Proof.
  intros Hne. pose proof (strip_zeros_head bs) as Hh. unfold ref_mpint at 2 3 4.
  destruct (strip_zeros bs) as [|b rest] eqn:E; [done|].
  assert (Hb : b ≠ x00) by (by intros ->). destruct (128 <=? Byte.to_N b) eqn:Eb.
  - split; [|done]. unfold ref_mpint. change (strip_zeros (x00 :: b :: rest)) with (strip_zeros (b :: rest)).
    by rewrite strip_zeros_fixed, Eb.
  - split; [unfold ref_mpint; by rewrite strip_zeros_fixed, Eb|].
    apply N.leb_gt in Eb. unfold ref_mpint_positive.
    assert (Hlt : (Byte.to_N b <? 128) = true) by (by apply N.ltb_lt).
    rewrite Hlt. by destruct b.
Qed.

Lemma ref_mpint_length bs : (length (ref_mpint bs) <= length bs + 1)%nat.
Proof.
  pose proof (length_strip bs) as Hl. unfold ref_mpint. destruct (strip_zeros bs) as [|b rest]; cbn in *; [lia|].
  case_match; cbn; lia.
Qed.

#[export, refine] Instance ref_ssh : Ssh := {
  SshPublicKey := list byte;
  ssh_algorithm _ := AEd25519;
  ssh_to_bytes k := Some k;
  ssh_to_openssh _ := Ok "ssh-ed25519";
  ssh_signature_new _ bs := Some bs;
  ssh_verify k message _ raw := bool_decide (raw = ref_sign k message);
  ecdsa_r s := s.1;
  ecdsa_s s := s.2;
  ecdsa_to_ssh s := Some (s.1 ++ s.2);
  ed25519_r s := take 32 s;
  ed25519_s s := drop 32 s;
  mpint_from_positive bs := Some (ref_mpint bs);
  mpint_as_positive := ref_mpint_positive;
  ed25519_is_weak _ := false;
  ed25519_verify_strict key message s := bool_decide (s = ref_sign key message);
}.
Proof.
  - by intros _ bs raw [= ->].
  - by intros r s sg _ _ [= <-].
  - intros r s Hr Hs. cbn. by rewrite take_app_length', drop_app_length'.
  - intros r s Hr Hs. cbn. by rewrite length_app, Hr, Hs.
  - intros bs enc Hne [= <-]. destruct (ref_mpint_roundtrip bs Hne) as [-> ->]. done.
  - intros bs enc [= <-]. apply ref_mpint_length.
Defined.

(** ** A concrete rack *)

Definition ref_cert (subject issuer : string) (key signing_key : list byte) : Certificate :=
  mkRefCert subject issuer key (ref_sign signing_key (bytes_of_string subject ++ key)).

Definition root_key : list byte := be_bytes 32 42.
Definition root_cert : Certificate := ref_cert "root" "root" root_key root_key.
Definition root_id : KeyId := newtype_from_hash (hash root_key).

Definition signature_of_bytes (s : list byte) : EncodedSignature :=
  mkEncodedSignature (newtype_from_be_bytes (take 32 s)) (newtype_from_be_bytes (drop 32 s)) 0 0.

Definition sign_job (j : JobStartRequest) : SignedJob :=
  mkSigned j root_id (signature_of_bytes (ref_sign root_key (to_be_signed j))).

Definition sled0 : BaseboardId := mkBaseboardId "913-0000019" "BRM1".
Definition sled1 : BaseboardId := mkBaseboardId "913-0000019" "BRM2".

Definition preimage0 : SessionPreimage :=
  mkSessionPreimage sled0 (Newtype 11) (Newtype 12) (Newtype 1000).
Definition session0 : SessionId := preimage_session_id preimage0.
Definition starter : KeyId := Newtype 77.

Definition job_request (sid : SessionId) (last : LastJob) (cmd : string) : JobStartRequest :=
  mkJobStartRequest (next_job_id sid last) sid cmd Batch (TSleds [SBaseboard sled0]).
Definition job0 : SignedJob := sign_job (job_request session0 LNone "uptime").
Definition job1 : SignedJob := sign_job (job_request session0 (LSome job0) "zpool list").

Definition params0 : JobStartParams := mkJobStartParams default_limits None None None WNone.

Definition version0 : VersionInfo := mkVersionInfo "1" "c0ffee".

Definition msg_session (actor : KeyId) (r : SessionRequest) : VersionedMessage :=
  V0 (MRequest (RSession (mkAttributed actor r))).
Definition msg_job (actor : KeyId) (r : JobRequest) : VersionedMessage :=
  V0 (MRequest (RJob (mkAttributed actor r))).

(** A server without anchors: what a failed start leaves. *)
Definition idle : State :=
  mkState (rack_new version0 sled0) history_empty Inactive (lru_new 0) ∅
    (mkCertificates ∅) (past_new 0 None 0) 0.

(** A fresh server on [sled0], in universe 5, born at version [v]. *)
Definition fresh (v : Version) (b : option Boundary) : State :=
  ok_default idle (state_new version0 sled0 [root_cert] (past_new v b 5)).

Lemma fresh_reachable v b : reachable version0 sled0 [root_cert] v b 5 (fresh v b).
Proof.
  assert (E : is_ok (certificates_new [root_cert]) = true) by (vm_compute; reflexivity).
  apply reachable_new. unfold fresh, state_new.
  destruct (certificates_new [root_cert]); [reflexivity|discriminate E].
Qed.

Definition tick_start (v : N) : Tick :=
  mkTick 1 (Some 5) (IGossip v (msg_session starter (SRStart preimage0))).
Definition tick_job (v : N) (j : SignedJob) : Tick :=
  mkTick 2 (Some 5) (IGossip v (msg_job starter (JRStart j params0 {[sled0]}))).

Definition run (st : State) (ts : list Tick) : State := (run_ticks st ts).1.

Lemma reachable_run c o t b0 c0 n0 st ts :
  reachable c o t b0 c0 n0 st → reachable c o t b0 c0 n0 (run st ts).
Proof.
  revert st; induction ts as [|[now net i] ts IH]; intros st Hr; [done|].
  unfold run. cbn. pose proof (reachable_step _ _ _ _ _ _ _ now net i Hr) as Hs.
  destruct (step st now net i) as [st1 o1]. specialize (IH st1 Hs). unfold run in IH.
  by destruct (run_ticks st1 ts).
Qed.

Definition started0 : State := run (fresh 0 None) [tick_start 1].
Definition running0 : State := run (fresh 0 None) [tick_start 1; tick_job 2 job0].

Definition first_run (out : list Output) : option Run :=
  head (omap (λ o, match o with ORun r => Some r | _ => None end) out).

Lemma first_run_elem out r : first_run out = Some r → ORun r ∈ out.
Proof.
  unfold first_run. induction out as [|o out IH]; [done|]. cbn.
  destruct o; cbn; try (intros ?; right; auto; fail). intros [= <-]. by left.
Qed.

Definition verified0 : VerifiedJob := mkVerified job0 root_id.
Definition boundary0 : Boundary := boundary_for 5 (session_started session0 starter) (Newtype 1000) job0.
Definition run0 : Run := mkRun verified0 params0 boundary0 0.

(** The run that a tick starts. *)
Definition run_of (st : State) (t : Tick) : Run :=
  default run0 (first_run (step st (t_now t) (t_net t) (t_input t)).2).

Lemma run_of_elem st t :
  is_some (first_run (step st (t_now t) (t_net t) (t_input t)).2) = true →
  ORun (run_of st t) ∈ (step st (t_now t) (t_net t) (t_input t)).2.
Proof. intros E. by apply first_run_elem, is_some_default. Qed.

(** ** More of the rack *)

(** The chain's second job arrives first and waits in the queue. *)
Definition queued1 : State := run (fresh 0 None) [tick_start 1; tick_job 2 job1].

(** A second session, numbered after the first, by another starter. *)
Definition preimage1 : SessionPreimage :=
  mkSessionPreimage sled1 (Newtype 21) (Newtype 22) (Newtype 2000).
Definition session1 : SessionId := preimage_session_id preimage1.
Definition starter1 : KeyId := Newtype 78.
Definition both_pending : State :=
  run (fresh 0 None)
    [tick_start 1; mkTick 1 (Some 5) (IGossip 2 (msg_session starter1 (SRStart preimage1)))].

(** A life that inherited a record of an earlier session, and one that
    inherited the record of [session0]; every gossip message they replay is
    older than their birth. *)
Definition old_boundary : Boundary := mkBoundary 5 (Newtype 1) (Newtype 500) (Newtype 2) (Newtype 3) None.
Definition reborn_old : State := run (fresh 10 (Some old_boundary)) [tick_start 1].
Definition reborn : State := run (fresh 10 (Some boundary0)) [tick_start 1].

Definition id0 : JobId := job_id (payload job0).
Definition output0 : JobOutputState := mkJobOutputState 0 0 [] [].
Definition event_of (b : BaseboardId) (e : JobEvent) : VersionedMessage := V0 (MEvent b (EvJob e)).
Definition tick_event (v : N) (e : JobEvent) : Tick := mkTick 3 (Some 5) (IGossip v (event_of sled0 e)).
Definition job0_started : State := run running0 [tick_event 3 (EStart id0 4)].

Definition active_of (st : State) : ActiveSession :=
  match st_session st with
  | Active a => a
  | Inactive => mkActive (Newtype 0) false (session_new session0) ∅ ∅
  end.
Definition is_active_state (s : SessionState) : bool := match s with Active _ => true | Inactive => false end.
Lemma active_of_spec st : is_active_state (st_session st) = true → st_session st = Active (active_of st).
Proof. unfold active_of. by destruct (st_session st). Qed.

Definition ran_here (s : JobStatus) (out : list Output) : bool :=
  existsb (λ o, match o with ORan s' => bool_decide (s' = s) | _ => false end) out.
Lemma ran_here_elem s out : ran_here s out = true → ORan s ∈ out.
Proof.
  unfold ran_here. rewrite existsb_exists. intros (o&Hin&Ho). destruct o; try done.
  apply bool_decide_eq_true in Ho as ->. by apply list_elem_of_In.
Qed.

(** ** Witnesses: the session state machine *)

Lemma only_authorised_jobs_run_witness :
  authorised (step started0 2 (Some 5) (t_input (tick_job 2 job0))).1 (Some 5)
    (run_of started0 (tick_job 2 job0)).
Proof.
  eapply only_authorised_jobs_run.
  - apply reachable_run, fresh_reachable.
  - apply (run_of_elem started0 (tick_job 2 job0)). evaluate.
Defined.

Lemma release_in_chain_order_witness :
  size (a_queued_jobs (active_of queued1)) = 1%nat ∧
  NoDup (drained_ids (size (a_queued_jobs (active_of queued1))) (a_session (active_of queued1))
           (a_queued_jobs (active_of queued1))).
Proof.
  split; [evaluate|].
  eapply (release_in_chain_order version0 sled0 [root_cert] _ None _ queued1 0%Z None).
  - apply reachable_run, fresh_reachable.
  - apply active_of_spec. evaluate.
Defined.

Definition pending0 (st : State) : PendingStart :=
  default (mkPendingStart preimage0 starter false) (lru_peek (st_pending_starts st) session0).

Lemma resume_continues_chain_witness :
  ∃ a, st_session (confirm_start reborn 3 session0).1 = Active a ∧
    session_next_job_id (a_session a) = session_next_job_id (job_started (session_started session0 starter) job0).
Proof.
  assert (Hr : reachable version0 sled0 [root_cert] 10 (Some boundary0) 5 reborn)
    by apply reachable_run, fresh_reachable.
  apply reachable_life in Hr as (_&_&Hc&Hn).
  destruct (resume_continues_chain reborn 3%Z 5 job0 (pending0 reborn) (session_started session0 starter) None)
    as (a&H1&H2&_).
  - assert (Hseq : seq (ps_preimage (pending0 reborn)) = Newtype 1000) by evaluate.
    rewrite Hc, Hseq. reflexivity.
  - exact Hn.
  - apply is_some_default. evaluate.
  - evaluate.
  - exists a. split; [exact H1|exact H2].
Defined.

Lemma succession_converges_witness :
  session0 ≠ session1 ∧
  st_session (confirm_all both_pending 3 [session0; session1])
  = st_session (confirm_all both_pending 3 [session1; session0]).
Proof.
  split; [by apply (bool_decide_eq_false (session0 = session1)); evaluate|].
  apply (succession_converges both_pending 3%Z [session0; session1] [session1; session0]).
  apply Permutation_swap.
Defined.

Lemma strangers_command_nothing_witness :
  handle_session_request running0 3 (Some 5) 4 starter1 (SRStop session0) = (running0, []).
Proof.
  refine (proj1 (strangers_command_nothing running0 3%Z (Some 5) 4 starter1 (SRStop session0) id0 _ I)).
  intros a Ha. assert (Hb : match st_session running0 with
    | Active a => negb (bool_decide (started_by (a_session a) = Some starter1)) | Inactive => true end = true)
    by evaluate.
  rewrite Ha in Hb. by apply negb_true_iff, bool_decide_eq_false in Hb.
Defined.

Lemma sessions_are_genuine_witness :
  session_ok (st_certs queued1) (st_session queued1) ∧ pending_ok (st_pending_starts queued1).
Proof.
  eapply (sessions_are_genuine version0 sled0 [root_cert] _ None _ queued1).
  apply reachable_run, fresh_reachable.
Defined.

Lemma live_queue_bounded_witness :
  queue_size (st_session (step started0 2 (Some 5) (t_input (tick_job 2 job1))).1)
  <= N.max MAX_QUEUED_JOBS (queue_size (st_session started0)).
Proof.
  apply (live_queue_bounded started0 2%Z (Some 5) 2). evaluate.
Defined.

(** ** Witnesses: statuses *)

Lemma stop_beats_interruption_witness :
  ∃ s, status_on (st_history (two_events job0_started 4 5 sled0 (EError id0 9 PInterrupted)
         (EStop id0 8 (Ok 0%Z) output0))) id0 sled0 = Some (Stopped id0 s 8 (Ok 0%Z) output0).
Proof.
  eapply (stop_beats_interruption job0_started 4 5 sled0 id0 id0 4 8 (Ok 0%Z) output0 9).
  - evaluate.
  - evaluate.
Defined.

Lemma verdict_beats_start_witness :
  status_on (st_history (two_events running0 4 5 sled0 (EStart id0 8) (ESkipped id0 7 NotTargeted))) id0 sled0
  = status_on (st_history (two_events running0 4 5 sled0 (ESkipped id0 7 NotTargeted) (EStart id0 8)))
      id0 sled0.
Proof.
  refine (proj1 (verdict_beats_start running0 4 5 sled0 id0 8 (ESkipped id0 7 NotTargeted)
                   (skipped_transition id0 7 NotTargeted) eq_refl eq_refl _ _ _)).
  - intros t res out E. discriminate E.
  - evaluate.
  - evaluate.
Defined.

Lemma reported_endings_recorded_witness :
  status_on (st_history (step job0_started 5 (Some 5) (t_input (tick_event 4 (EStop id0 8 (Ok 0%Z) output0)))).1)
    id0 (own job0_started) = Some (Stopped id0 4 8 (Ok 0%Z) output0) ∨
  job_status (st_history (step job0_started 5 (Some 5)
    (t_input (tick_event 4 (EStop id0 8 (Ok 0%Z) output0)))).1) !! id0 = None.
Proof.
  eapply (reported_endings_recorded job0_started 5%Z (Some 5)
    (t_input (tick_event 4 (EStop id0 8 (Ok 0%Z) output0))) (Stopped id0 4 8 (Ok 0%Z) output0)).
  apply ran_here_elem. evaluate.
Defined.

Lemma adjudication_spec_witness :
  adjudicated (st_past (adjudicate_boundary reborn 7%Z).1) = Some (b_job boundary0).
Proof.
  assert (Hr : reachable version0 sled0 [root_cert] 10 (Some boundary0) 5 reborn)
    by apply reachable_run, fresh_reachable.
  apply reachable_life in Hr as (_&_&Hc&Hn).
  refine (proj2 (adjudication_spec reborn 7%Z boundary0 _ _)).
  - unfold past_boundary. rewrite Hc, Hn. rewrite bool_decide_true; reflexivity.
  - intros E. assert (Ha : adjudicated (st_past reborn) = None) by evaluate. congruence.
Defined.

(** ** A login *)

Definition user_key : list byte := be_bytes 32 99.
Definition user_id : KeyId := newtype_from_hash (hash user_key).
Definition request_key : list byte := be_bytes 32 123.
Definition nonce0 : Nonce := Newtype 31.
Definition response0 : ChallengeResponse := mkChallengeResponse nonce0 (Newtype 32) (Newtype 123).
Definition credentials0 : Credentials :=
  mkCredentials nonce0 (Newtype 32) user_id (Newtype 123)
    (signature_of_bytes (ref_sign user_key (to_be_signed response0))).
Definition bound0 (sq : N) : BoundCredentials :=
  bind_request (ref_sign request_key) user_id nonce0 (bound_request_new "get" "/sessions" sq).

(** Mint, log in, send a request, and replay it. *)
Definition replay_trace : list ProxyEvent :=
  [PMint nonce0 0;
   PClaim 10 0%Z (Some (credentials_to_string credentials0)) user_key;
   PCommit 20 20 0;
   PRequest 30 30 30 (Some (bound_to_string (bound0 1))) "GET" "/sessions";
   PRequest 40 40 40 (Some (bound_to_string (bound0 1))) "GET" "/sessions"].

Lemma no_request_replayed_witness :
  length (px_run (mkProxy logins_new []) replay_trace).2 = 1%nat ∧
  NoDup (px_run (mkProxy logins_new []) replay_trace).2.
Proof.
  split; [evaluate|].
  apply (no_request_replayed replay_trace). apply NoDup_singleton.
Defined.

Lemma wf_by_eval (a b : N) : (a <? b) = true → a < b.
Proof. apply N.ltb_lt. Qed.

(** Close a conjunction of bounds and equations on computed values. *)
Ltac bounds :=
  repeat (hnf; lazymatch goal with |- _ ∧ _ => split end);
  vm_compute; first [reflexivity | intros E; discriminate E].

Definition request0 : BoundRequest := bound_request_new "get" "/sessions" 1.

Lemma bound_request_binding_witness :
  (request0 = request0 ∧ user_id = user_id ∧ nonce0 = nonce0) ∨
  collision (bound_tbs_fields request0 user_id nonce0) (bound_tbs_fields request0 user_id nonce0).
Proof. apply (bound_request_binding request0 user_id nonce0 request0); bounds. Defined.

Lemma authn_header_roundtrip_witness :
  authn_from_str (credentials_to_string credentials0) = Ok (Initial credentials0).
Proof. refine (proj1 (authn_header_roundtrip credentials0 (bound0 1) _ _)); bounds. Defined.

Lemma signatures_domain_separated_witness :
  (to_be_signed (payload job0) = to_be_signed response0 →
   collision (job_tbs_fields (payload job0)) (response_tbs_fields response0)) ∧
  (to_be_signed (payload job0) = bound_to_be_signed request0 user_id nonce0 →
   collision (job_tbs_fields (payload job0)) (bound_tbs_fields request0 user_id nonce0)) ∧
  (to_be_signed response0 = bound_to_be_signed request0 user_id nonce0 →
   collision (response_tbs_fields response0) (bound_tbs_fields request0 user_id nonce0)).
Proof.
  refine (signatures_domain_separated (payload job0) response0 request0 user_id nonce0 _ _); bounds.
Defined.

Lemma job_to_be_signed_inj_witness :
  payload job0 = payload job0 ∨
  (inner (job_tbs_fields (payload job0)) ≠ inner (job_tbs_fields (payload job0)) ∧
   sha3_256 (inner (job_tbs_fields (payload job0))) = sha3_256 (inner (job_tbs_fields (payload job0)))).
Proof. apply (job_to_be_signed_inj (payload job0) (payload job0)); [bounds|bounds|reflexivity]. Defined.

Definition touched : EncodedSignature := mkEncodedSignature (Newtype 200) (Newtype 300) 1 585.
Definition touched_raw : Signature :=
  ok_default (Ed25519 (replicate 64 x00)) (decode_with_ssh_public_key touched ASkEcdsaSha2NistP256).

Lemma signature_ssh_roundtrip_witness : encode_signature touched_raw = Ok touched.
Proof.
  apply (signature_ssh_roundtrip touched ASkEcdsaSha2NistP256).
  - bounds.
  - apply is_ok_default. evaluate.
Defined.

(** ** Records, launches, history, anchors *)

Definition slots0 : list Slot := [mkSlot true None; mkSlot true None].
Definition tenant0 : Tenant :=
  mkTenant (bytes_of_string "SUSHBOUNDARY") sled0 nonce0 0 0 slots0.
Definition record0 : list byte := [x01; x02].
Definition stored0 : Tenant := (store (λ _, io_ok) tenant0 record0).2.

Lemma tenant0_wf sq : (sq <? 2 ^ 64) = true → envelope_wf nonce0 sq sled0.
Proof. intros Hs%N.ltb_lt. split; [bounds|split; [done|bounds]]. Qed.

Lemma envelope_roundtrip_witness :
  decode_envelope (bytes_of_string "SUSHBOUNDARY")
    (encode_envelope (bytes_of_string "SUSHBOUNDARY") nonce0 1 sled0 record0)
  = Some (mkEnvelope nonce0 1 sled0 record0).
Proof.
  refine (proj1 (envelope_roundtrip (bytes_of_string "SUSHBOUNDARY") (bytes_of_string "SUSHBOOKMARK")
    nonce0 1 sled0 record0 _ _ _)).
  - apply tenant0_wf. evaluate.
  - reflexivity.
  - intros E. discriminate E.
Defined.

Lemma store_then_load_witness :
  (load (λ _, false) (λ _, io_ok)
     (mkTenant (t_magic tenant0) (t_baseboard tenant0) (Newtype 99) 0 0 (t_slots stored0))).1
  = Adopt record0.
Proof.
  apply (store_then_load (λ _, io_ok) (λ _, io_ok) tenant0 record0 stored0 (Newtype 99) 0 0).
  - apply tenant0_wf. evaluate.
  - intros E. discriminate E.
  - reflexivity.
Defined.

(** A store that dies after the first slot. *)
Definition dies (i : nat) : SlotIo := mkSlotIo (if (i =? 0)%nat then WDone else WFailed) false WFailed.

Lemma torn_store_safe_witness :
  ∃ r, (load (λ _, false) (λ _, io_ok)
     (mkTenant (t_magic stored0) (t_baseboard stored0) (Newtype 99) 0 0
        (t_slots (store dies stored0 [x03]).2))).1 = Adopt r ∧ (r = record0 ∨ r = [x03]).
Proof.
  exists [x03].
  assert (E : (load (λ _, false) (λ _, io_ok)
     (mkTenant (t_magic stored0) (t_baseboard stored0) (Newtype 99) 0 0
        (t_slots (store dies stored0 [x03]).2))).1 = Adopt [x03]) by evaluate.
  split; [exact E|].
  refine (torn_store_safe dies (λ _, false) (λ _, io_ok) stored0 [x03] nonce0 1 record0 (Newtype 99) 0 0 (Adopt [x03]) _ _ _ E).
  - apply tenant0_wf. evaluate.
  - apply tenant0_wf. evaluate.
  - repeat constructor.
Defined.

Lemma newest_commit_wins_witness :
  (run_commits 0 slots0 [(2, record0); (1, [x03])]).2
  = replicate 2 (mkSlot true (Some record0)).
Proof.
  refine (proj2 (newest_commit_wins 0 slots0 [(2, record0); (1, [x03])] 2 record0 _ _ _ _)).
  - repeat constructor.
  - left.
  - reflexivity.
  - intros q e [[= -> ->]|[[= -> ->]|[]%elem_of_nil]%elem_of_cons]%elem_of_cons; [by right|by left].
Defined.

Definition stopped0 : JobStatus := Stopped id0 4 8 (Ok 0%Z) output0.

Lemma record_status_spec_witness :
  ∃ b', stored (default (mkBoundaryStore None)
          (record_status (λ _, true) (mkBoundaryStore (Some boundary0)) stopped0)) = Some b' ∧
    b_job b' = b_job boundary0.
Proof.
  destruct (record_status_spec (λ _, true) (mkBoundaryStore (Some boundary0)) stopped0
    (default (mkBoundaryStore None)
       (record_status (λ _, true) (mkBoundaryStore (Some boundary0)) stopped0)) boundary0)
    as (b'&H1&_&_&_&H2&_).
  - apply is_some_default. evaluate.
  - reflexivity.
  - exists b'. split; [exact H1|exact H2].
Defined.

Definition executor0 : Executor :=
  ex_job_start (mkExecutor true ∅ [] ∅ []) verified0 params0 0 boundary0.

Lemma launch_commits_before_spawn_witness :
  spawned (launch_all 1 (λ _, true) (mkBoundaryStore None) executor0).1.1
  `sublist_of` ex_launch executor0.
Proof.
  refine (proj1 (proj2 (proj2 (launch_commits_before_spawn (λ _, true) (mkBoundaryStore None) executor0
    (launch_all 1 (λ _, true) (mkBoundaryStore None) executor0).1.1
    (launch_all 1 (λ _, true) (mkBoundaryStore None) executor0).1.2
    (launch_all 1 (λ _, true) (mkBoundaryStore None) executor0).2 _)))).
  change (length (ex_launch executor0)) with 1%nat.
  destruct (launch_all 1 (λ _, true) (mkBoundaryStore None) executor0) as [[os s] e]. reflexivity.
Defined.

Lemma history_update_wf_witness :
  history_wf (set_job_status history_empty id0 sled0 (Started id0 4) None (None : option (gmap JobId QueuedJob))).
Proof.
  refine (proj1 (history_update_wf history_empty id0 sled0 (Started id0 4) None
    (None : option (gmap JobId QueuedJob)) (λ _, None) _)).
  apply history_wf_empty.
Defined.

Definition anchors0 : Certificates := ok_default (mkCertificates ∅) (certificates_new [root_cert]).

Lemma certificates_anchored_witness :
  is_some (anchors anchors0 !! root_id) = true ∧
  (∀ kid cert parent, anchors anchors0 !! kid = Some (cert, parent) → anchored kid cert parent).
Proof.
  split; [evaluate|]. refine (proj1 (certificates_anchored [root_cert] anchors0 _)).
  assert (E : is_ok (certificates_new [root_cert]) = true) by evaluate.
  unfold anchors0. destruct (certificates_new [root_cert]); [reflexivity|discriminate E].
Defined.

(** Anchors in root-to-leaf order need not have distinct keys: a cross-signed
    certificate for the root's key replaces the root's entry. *)
Definition mid_key : list byte := be_bytes 32 43.
Definition mid_id : KeyId := newtype_from_hash (hash mid_key).
Definition cross_signed : list Certificate :=
  [root_cert; ref_cert "mid" "root" mid_key root_key; ref_cert "bridge" "mid" root_key mid_key].
Definition cross_anchors : Certificates :=
  ok_default (mkCertificates ∅) (certificates_new cross_signed).
Definition parent_of (c : Certificates) (kid : KeyId) : option (option KeyId) := snd <$> anchors c !! kid.

Lemma chain_go_cycle fuel c a b :
  parent_of c a = Some (Some b) → parent_of c b = Some (Some a) →
  ∀ acc, chain_go fuel c (Some a) acc = None ∧ chain_go fuel c (Some b) acc = None.
Proof.
  unfold parent_of. intros Ha Hb.
  destruct (anchors c !! a) as [[ca pa]|] eqn:Ea; [|done].
  destruct (anchors c !! b) as [[cb pb]|] eqn:Eb; [|done].
  injection Ha as ->. injection Hb as ->.
  induction fuel as [|fuel IH]; intros acc; [done|]. cbn [chain_go]. rewrite Ea, Eb.
  split; apply IH.
Qed.

(** Such anchors are accepted, and the chain of the root's key then never ends. *)
Lemma chain_may_not_terminate :
  is_ok (certificates_new cross_signed) = true ∧
  ∀ fuel, chain_go fuel cross_anchors (Some root_id) [] = None.
Proof.
  split; [evaluate|]. intros fuel. refine (proj1 (chain_go_cycle fuel cross_anchors root_id mid_id _ _ [])).
  - refine (bool_decide_eq_true_1 _ _). evaluate.
  - refine (bool_decide_eq_true_1 _ _). evaluate.
Qed.

(** ** Witnesses: the manager *)

Lemma session_start_settles_witness :
  session_start_settled (handle_session_request running0 3%Z (Some 5) 4 starter1 (SRStart preimage1)).1
    (seq preimage1) (preimage_session_id preimage1) = true ∨
  ∃ p', p' ≠ preimage1 ∧ preimage_session_id p' = preimage_session_id preimage1.
Proof.
  eapply (session_start_settles version0 sled0 [root_cert] _ None _ running0).
  apply reachable_run, fresh_reachable.
Defined.

Lemma wait_settled_stable_witness :
  wait_settled sled0 id0 WStart {[sled0]}
    (step job0_started 5%Z (Some 5) (t_input (tick_event 4 (EStop id0 8 (Ok 0%Z) output0)))).1 ∅ = true.
Proof.
  apply (wait_settled_stable sled0 id0 WStart {[sled0]} ∅ job0_started 5%Z (Some 5)
    (t_input (tick_event 4 (EStop id0 8 (Ok 0%Z) output0)))).
  - apply wf_by_eval. evaluate.
  - evaluate.
Defined.
