(* ===== verification/Traces.v ===== *)
(** * Runs of a whole sled, evaluated

    Two traces on the concrete rack of [Reference.v].  In the first a sled dies
    and resumes its session: each job is spawned once.  In the second sessions
    are not orderly (a session is stopped and a lower-ranked one runs a job),
    and a restart spawns the stopped session's job again. *)
From S2P Require Import Prelude External Codephrases Hash Targets Keys Jobs Messages.
From S2P Require Import Rack Certs History Boundary Executor State Sled StateFacts SessionFacts.
From S2P Require Import StatusFacts SledFacts Reference.
Open Scope N_scope.

Definition run_sled (s : Sled) (es : list SledEvent) : Sled :=
  sled_run version0 sled0 [root_cert] s es.

Definition down : Sled :=
  mkSled idle (mkExecutor false ∅ [] ∅ []) (mkBoundaryStore None) None [] None ∅ true true [] [] [].

(** The sled's first boot, at version 0 of universe 5, without a record. *)
Definition booted : Sled := default down (boot version0 sled0 [root_cert] None 0 5 ∅ []).

Lemma booted_spec : boot version0 sled0 [root_cert] None 0 5 ∅ [] = Some booted.
Proof. apply is_some_default. evaluate. Qed.

Definition start_at (v : N) (delivered : list (Version * VersionedMessage)) : SledEvent :=
  SMessage 1 v (msg_session starter (SRStart preimage0)) delivered.
Definition job_msg (j : SignedJob) : VersionedMessage := msg_job starter (JRStart j params0 {[sled0]}).

(** ** A crash and a resumption *)

Definition resumption : list SledEvent :=
  [start_at 1 []; SMessage 2 2 (job_msg job0) []; SLaunch Landed;
   SRestart 10 5 ∅ false;
   start_at 1 [(2, job_msg job0)]; SMessage 4 11 (job_msg job1) []; SLaunch Landed].

Definition id1 : JobId := job_id (payload job1).
Definition id2 : JobId := next_job_id session0 (LSome job1).
Definition seq_label (sid : SessionId) : SessionSeq :=
  if bool_decide (sid = session0) then Newtype 1000 else Newtype 0.
Definition pos_label (id : JobId) : nat :=
  if bool_decide (id = id0) then 1 else if bool_decide (id = id1) then 2
  else if bool_decide (id = id2) then 3 else 0.

Lemma start_labelled v : input_labelled seq_label pos_label (IGossip v (msg_session starter (SRStart preimage0))).
Proof. cbn. evaluate. Qed.
Lemma job0_labelled v : input_labelled seq_label pos_label (IGossip v (job_msg job0)).
Proof. cbn. apply Nat.ltb_lt. evaluate. Qed.
Lemma job1_labelled v : input_labelled seq_label pos_label (IGossip v (job_msg job1)).
Proof. cbn. apply Nat.ltb_lt. evaluate. Qed.

Lemma resumption_labelled : Forall (event_labelled seq_label pos_label) resumption.
Proof.
  pose proof start_labelled as Hs. pose proof job0_labelled as H0. pose proof job1_labelled as H1.
  unfold resumption, start_at. generalize dependent (job_msg job0). generalize dependent (job_msg job1).
  generalize dependent (msg_session starter (SRStart preimage0)).
  intros. repeat constructor; auto.
Qed.

Lemma no_job_spawned_twice_witness :
  length (all_spawned (run_sled booted resumption)) = 2%nat ∧
  NoDup (map launch_key (all_spawned (run_sled booted resumption))).
Proof.
  split; [evaluate|].
  eapply (no_job_spawned_twice seq_label pos_label version0 sled0 [root_cert] None).
  - exact booted_spec.
  - discriminate.
  - exact resumption_labelled.
  - evaluate.
Defined.

(** ** Sessions out of order *)

Definition late_job : SignedJob := sign_job (job_request session1 LNone "reboot").
Definition late_start : VersionedMessage := msg_session starter1 (SRStart preimage1).
Definition late_job_msg : VersionedMessage := msg_job starter1 (JRStart late_job params0 {[sled0]}).
Definition late_stop : VersionedMessage := msg_session starter1 (SRStop session1).
Definition late_id : JobId := job_id (payload late_job).
Definition ended (v : N) : SledEvent :=
  SMessage 3 v (event_of sled0 (EStop late_id 4 (Ok 0%Z) output0)) [].

(** The session of the higher sequence number runs its job and is stopped; a
    session of a lower one runs a job; the sled restarts, and gossip replays
    what it held, in the order it held it. *)
Definition disorder : list SledEvent :=
  [SMessage 1 1 late_start []; SMessage 2 2 late_job_msg []; SLaunch Landed;
   SMessage 3 3 (event_of sled0 (EStart late_id 3)) []; ended 4; SRecord 0 Landed;
   SMessage 4 5 late_stop [];
   start_at 6 []; SMessage 5 7 (job_msg job0) []; SLaunch Landed;
   SRestart 20 5 ∅ false;
   SMessage 9 1 late_start
     [(2, late_job_msg); (3, event_of sled0 (EStart late_id 3));
      (4, event_of sled0 (EStop late_id 4 (Ok 0%Z) output0)); (5, late_stop);
      (6, msg_session starter (SRStart preimage0)); (7, job_msg job0)];
   SLaunch Landed].

Definition key_code (k : SessionId * JobId) : N * N := (phrase k.1, phrase k.2).

(** A session whose sequence number exceeds the committed one may have run
    jobs here.  When a session is stopped and one of a lower sequence number
    then runs a job, a restart replays the stopped session, finds it above the
    committed one, and spawns its job a second time, although every durable
    write landed. *)
Theorem stopped_session_runs_again :
  map key_code (map launch_key (all_spawned (run_sled booted disorder)))
  = map key_code [(session1, late_id); (session0, id0); (session1, late_id)].
Proof. evaluate. Qed.
