(* ===== verification/Examples.v ===== *)
(** * The proxy and the files of a sled, evaluated

    Concrete inputs, on the rack of [Reference.v], for the theorems about the
    proxy, the handlers, job output and the stored records. *)
From S2P Require Import Prelude External Codephrases Hash Targets Keys Ssh Jobs Messages.
From S2P Require Import Headers Authn Login Proxy ProxyFacts Rack Certs History Boundary Locker Executor.
From S2P Require Import Addresses State Sled Manager Output Download Server EndToEnd Format Records Gossip Reference.
Open Scope N_scope.

(** ** The proxy *)

(** Addresses are port numbers; percent escapes are not used; a body is no key,
    unless it is the one byte that stands for the user's key. *)
Definition decode_plain (s : string) : option string := Some s.
Definition key_of_body (bs : list byte) : result (option SshPublicKey) string :=
  match bs with
  | [] => Ok None
  | [x01] => Ok (Some user_key)
  | _ => Err "expected an OpenSSH public key"
  end.

Definition rack_routes : Routes N := mkRoutes N {[sled0 := 1001; sled1 := 1002]} {[14 := sled0; 16 := sled1]}.
Definition router0 : Router N := mkRouter N rack_routes (Some sled0).
Definition draws0 (n : N) : Draws := mkDraws 10 10 10 10 10 10 0%Z (Newtype n).
Definition http (method path : string) (authz : list (option string)) (body : list byte) : HttpRequest :=
  mkHttpRequest method path None (Some path) authz (Ok body).

Definition decide0 (n : N) (st : Logins) (r : HttpRequest) : Outcome N string * Logins :=
  decide_request N string decode_plain key_of_body "length limit exceeded" version0 router0 (draws0 n) st r.

(** A first request is refused, which mints the nonce of a login; the login's
    request is forwarded, and its replay is refused. *)
Definition anonymous : HttpRequest := http "GET" "/sessions" [] [].
Definition log_in : HttpRequest :=
  http "POST" "/iam" [Some (credentials_to_string credentials0)] [x01].
Definition list_sessions : HttpRequest :=
  http "GET" "/sessions" [Some (bound_to_string (bound0 1))] [].
Definition start_job : HttpRequest := http "POST" "/jobs/some-job/start/14" [] [].

Definition logged_in : Logins := (decide0 32 (decide0 31 logins_new anonymous).2 log_in).2.
Definition visit : list (Router N * Draws * HttpRequest) :=
  [(router0, draws0 31, anonymous); (router0, draws0 32, log_in);
   (router0, draws0 33, list_sessions); (router0, draws0 34, list_sessions)].
Definition visited : list (N * HttpRequest) :=
  (serve_all N string decode_plain key_of_body "length limit exceeded" version0 logins_new visit).1.

(** The address an outcome forwards to, or the status it answers with. *)
Definition forwarded_to (o : Outcome N string) : option N :=
  match o with ForwardTo _ _ a _ => Some a | Answered _ _ _ => None end.
Definition answered_with (o : Outcome N string) : option N :=
  match o with Answered _ _ (Own _ s _ _) => Some s | _ => None end.

Lemma forwarded_to_elim (x : Outcome N string * Logins) a :
  forwarded_to x.1 = Some a → ∃ r st, x = (ForwardTo N string a r, st).
Proof. destruct x as [[|b r] st]; cbn; [done|]. intros [= ->]. by exists r, st. Qed.

Lemma answered_elim (x : Outcome N string * Logins) :
  is_some (answered_with x.1) = true → ∃ resp st, x = (Answered N string resp, st).
Proof. destruct x as [[resp|] st]; cbn; [|done]. intros _. by exists resp, st. Qed.

Lemma forwarded_requests_authorised_witness :
  is_iam list_sessions = false ∧ needs_no_login list_sessions = false ∧
  route N string decode_plain router0 list_sessions = Ok 1001.
Proof.
  split; [evaluate|]. split; [evaluate|].
  assert (Ha : forwarded_to (decide0 33 logged_in list_sessions).1 = Some 1001) by evaluate.
  apply forwarded_to_elim in Ha as (r&st&E). unfold decide0 in E.
  exact (proj1 (proj2 (forwarded_requests_authorised N string decode_plain key_of_body
    "length limit exceeded" version0 router0 (draws0 33) logged_in list_sessions _ _ _ E))).
Defined.

Lemma forwarded_once_witness :
  length visited = 1%nat ∧ NoDup (omap (λ x : N * HttpRequest, forwarded_claim x.2) visited).
Proof.
  split; [evaluate|]. unfold visited.
  apply (forwarded_once N string decode_plain key_of_body "length limit exceeded" version0 visit).
  refine (bool_decide_eq_true_1 _ _). evaluate.
Defined.

Definition cubby14 : Target := TSleds [SCubby 14].

Definition named14 : gset BaseboardId :=
  match resolve cubby14 (dom (sleds N rack_routes)) (known_cubbies N rack_routes) with
  | Ok named => named
  | Err _ => ∅
  end.

Lemma resolve14 :
  resolve cubby14 (dom (sleds N rack_routes)) (known_cubbies N rack_routes) = Ok named14.
Proof.
  assert (E : is_ok (resolve cubby14 (dom (sleds N rack_routes)) (known_cubbies N rack_routes)) = true)
    by evaluate.
  unfold named14. destruct (resolve _ _ _); [reflexivity|discriminate E].
Qed.

Lemma route_agrees_with_resolve_witness :
  bool_decide (sled0 ∈ named14) = true ∧
  ∃ b, b ∈ named14 ∧ sleds N rack_routes !! b = Some 1001.
Proof.
  split; [evaluate|].
  assert (Ht : named_target decode_plain start_job = Some (Ok cubby14)).
  { refine (bool_decide_eq_true_1 _ _). evaluate. }
  assert (Hr : route N string decode_plain router0 start_job = Ok 1001).
  { assert (E : match route N string decode_plain router0 start_job with Ok a => a =? 1001 | Err _ => false end = true)
      by evaluate.
    destruct (route _ _ _ _ _); [|discriminate E]. by apply N.eqb_eq in E as ->. }
  exact (proj1 (route_agrees_with_resolve N string decode_plain router0 start_job cubby14 named14
    Ht resolve14) 1001 Hr).
Defined.

Lemma refusals_carry_usable_challenges_witness :
  answered_with (decide0 31 logins_new anonymous).1 = Some UNAUTHORIZED ∧
  ∃ resp st, decide0 31 logins_new anonymous = (Answered N string resp, st) ∧
    (claim_login 20 0%Z (serve_all N string decode_plain key_of_body "length limit exceeded" version0
       st [(router0, draws0 32, anonymous)]).2 (Some (credentials_to_string credentials0)) user_key).1
    ≠ Err LNonceNotFound.
Proof.
  assert (Hs : answered_with (decide0 31 logins_new anonymous).1 = Some UNAUTHORIZED) by evaluate.
  split; [exact Hs|].
  destruct (answered_elim (decide0 31 logins_new anonymous)) as (resp&st&E); [by rewrite Hs|].
  exists resp, st. split; [exact E|]. rewrite E in Hs.
  destruct (refusals_carry_usable_challenges N string decode_plain key_of_body "length limit exceeded"
    version0 router0 (draws0 31) logins_new anonymous resp st) as (status&ch&body&->&_&_&Hyes).
  - apply Nat.ltb_lt. evaluate.
  - apply N.ltb_lt. evaluate.
  - unfold decide0 in E. exact E.
  - injection Hs as ->. destruct (Hyes eq_refl) as (s&_&_&Hl).
    assert (Ec : match authn_from_str (credentials_to_string credentials0) with
                 | Ok (Initial c) => bool_decide (c_nonce c = d_nonce (draws0 31)) | _ => false end = true) by evaluate.
    destruct (authn_from_str (credentials_to_string credentials0)) as [[c|]|] eqn:Ea; [|discriminate Ec..].
    apply bool_decide_eq_true_1 in Ec.
    refine (proj1 (Hl [(router0, draws0 32, anonymous)] _ _ 20 0%Z _ c user_key Ea Ec _)).
    + apply Nat.ltb_lt. evaluate.
    + refine (bool_decide_eq_true_1 _ _). evaluate.
    + apply N.ltb_lt. evaluate.
Defined.

(** ** The handlers of a sled *)

(** Files: every stream of every job has 1000 bytes, under the base [/data]. *)
Definition files0 : OutputWorld :=
  mkOutputWorld true (λ _, Ok 1000) (λ _, Ok 1000) (λ _, Ok ()) true.
Definition dirs0 : OutputDirs := output_dirs_new ["data"] 1000000.
Definition world0 : World :=
  mkWorld sled0 version0 (λ _, running0) ∅ true Settled (Newtype 5) (Newtype 6) (λ _, true)
    (λ _, Ok "pem") files0 dirs0.

Lemma refused_requests_do_nothing_witness :
  h_response (handle world0 None (ApiSessionStop session0)) = Err (client_error None 400) ∧
  h_sent (handle world0 None (ApiSessionStop session0)) = [].
Proof.
  split; [reflexivity|].
  refine (proj2 (proj2 (refused_requests_do_nothing world0 None (ApiSessionStop session0)
    (client_error None 400) _)) _); [reflexivity|]. left.
Defined.

(** The starter of a session, as a client of the proxy. *)
Definition client0 : SessionClientNonce := Newtype 41.
Definition signer0 : SessionSignerNonce := Newtype 12.
Definition ceremony : SessionId :=
  preimage_session_id (mkSessionPreimage sled0 (sush_nonce_compute client0 (Newtype 5)) signer0 (Newtype 900)).
Definition api0 : ApiRequest := ApiSessionStart ceremony client0 signer0 (Newtype 900).
Definition sent0 : list Request :=
  h_sent (handle world0 (h ← head (rq_authorization list_sessions); h) api0).

Definition past_visit : list (Router N * Draws * HttpRequest) :=
  [(router0, draws0 31, anonymous); (router0, draws0 32, log_in)].

Lemma gossiped_requests_are_proved_witness :
  ∃ q, sent0 = [q] ∧ ∃ proof cached,
    lru_peek (identities (serve_all N string decode_plain key_of_body "length limit exceeded" version0
      logins_new past_visit).2) (request_actor q, rs_nonce proof) = Some cached ∧
    id_key_id (ci_identity cached) = request_actor q.
Proof.
  assert (Hs : match sent0 with [q] => bool_decide (request_actor q = user_id) | _ => false end = true)
    by evaluate.
  destruct sent0 as [|q [|q2 qs]] eqn:Es; [discriminate Hs| |discriminate Hs].
  exists q. split; [reflexivity|].
  assert (Ha : forwarded_to (decide_request N string decode_plain key_of_body "length limit exceeded"
    version0 router0 (draws0 33) (serve_all N string decode_plain key_of_body "length limit exceeded"
      version0 logins_new past_visit).2 list_sessions).1 = Some 1001) by evaluate.
  apply forwarded_to_elim in Ha as (r'&st&E).
  assert (Er : r' = list_sessions) by exact (proj1 (forwarded_facts _ _ _ _ _ _ _ _ _ _ _ _ _ E)).
  subst r'.
  destruct (gossiped_requests_are_proved N string decode_plain key_of_body "length limit exceeded" version0
    past_visit router0 (draws0 33) list_sessions 1001 list_sessions st world0 api0 q E)
    as (proof&cached&H1&H2&_).
  - evaluate.
  - change (q ∈ sent0). rewrite Es. left.
  - exists proof, cached. split; [exact H1|exact H2].
Defined.

Lemma output_range_served_witness :
  ∃ path s, job_output files0 dirs0 id0 Stdout (Some (mkRange (SIndex 10) (EIndex 19))) = Ok (path, s) ∧
    fs_start s + fs_length s <= 1000.
Proof.
  assert (E : job_output files0 dirs0 id0 Stdout (Some (mkRange (SIndex 10) (EIndex 19)))
    = Ok (job_output_path dirs0 id0 Stdout, mkFileStream 10 10)) by reflexivity.
  exists (job_output_path dirs0 id0 Stdout), (mkFileStream 10 10). split; [exact E|].
  destruct (output_range_served _ _ _ _ _ _ _ E) as (len&El&Hb&_). injection El as <-. exact Hb.
Defined.

(** Two moves, after which only the first base holds the file. *)
Definition moves0 : list (Path * N) := [(["ramdisk"], 10); (["dataset"], 20)].
Definition only_data (p : Path) : result N IoErrorKind :=
  if bool_decide (p = job_output_path dirs0 id0 Stdout) then Ok 7 else Err NotFound.

Lemma output_found_after_moves_witness :
  length (od_previous (move_all dirs0 moves0)) = 2%nat ∧
  find_job_output only_data (move_all dirs0 moves0) id0 Stdout = job_output_path dirs0 id0 Stdout.
Proof.
  split; [reflexivity|].
  refine (proj2 (output_found_after_moves dirs0 moves0 only_data id0 Stdout _ _ _ _)).
  - apply dirs_wf_new.
  - apply Nat.leb_le. reflexivity.
  - unfold only_data. rewrite bool_decide_true by reflexivity. discriminate.
  - intros base _ Hne. unfold only_data. rewrite bool_decide_false; [reflexivity|].
    intros E. apply Hne. unfold job_output_path, job_output_path_in, job_output_dir_in, join in E.
    apply app_inj_tail in E as [E _]. apply app_inj_tail in E as [E _]. by apply app_inj_tail in E as [E _].
Defined.

(** Seven bytes in chunks of three, the last chunk arriving first. *)
Definition output7 : list byte := [x01; x02; x03; x04; x05; x06; x07].
Definition last_first (l : list ChunkRange) : list (list byte * ChunkRange) :=
  map (λ r, (output7, r)) (reverse l).

Lemma download_exact_witness :
  length (last_first (job_output_chunks 7 0 7 3)) = 3%nat ∧
  job_output_download 7 3 (hash output7) last_first = Ok output7.
Proof.
  split; [reflexivity|].
  apply (download_exact output7 3 last_first).
  - vm_compute. discriminate.
  - reflexivity.
  - vm_compute. discriminate.
  - intros l. exists (reverse l). split; [reflexivity|apply reverse_Permutation].
Defined.

(** ** Stored records *)

(** An envelope is the version in two bytes, then the body. *)
Definition plain_envelope (v : N) (body : list byte) : list byte := be_bytes 2 v ++ body.
Definition plain_array (bytes : list byte) : option (list CborItem) :=
  match bytes with
  | a :: b :: body => Some [CUnsigned (be_value [a; b]); CBytes body]
  | _ => None
  end.

Lemma plain_reads_back : cbor_reads_back plain_array plain_envelope.
Proof.
  intros v body Hv. unfold plain_envelope. cbn [be_bytes app plain_array].
  change [byte_of_N (v / 256); byte_of_N v] with (be_bytes 2 v).
  rewrite be_value_be_bytes, N.mod_small; [done|]. change (256 ^ N.of_nat 2) with 65536. unfold NO_FORMAT in Hv. lia.
Qed.

(** A count, first kept as one byte, which may not be 255, and since version 2
    with a label. *)
Definition v0_format : Chain N :=
  Format 0 (λ n, [byte_of_N n])
    (λ bytes, match bytes with [b] => Ok (Byte.to_N b) | _ => Err "one byte" end)
    (λ e : Empty_set, match e with end) NoFormat.
Definition v2_format : Chain (N * string) :=
  Format 2 (λ x, [byte_of_N x.1; x00])
    (λ bytes, match bytes with [b; _] => Ok (Byte.to_N b, "") | _ => Err "two bytes" end)
    (λ n, if n =? 255 then Err "saturated count" else Ok (n, "upgraded")) v0_format.

Lemma decode_upgrades_witness :
  decode plain_array v2_format (plain_envelope 0 [x07]) = Ok (7, "upgraded").
Proof.
  apply (decode_upgrades plain_array plain_envelope v2_format 0 [x07] (7, "upgraded")).
  - apply plain_reads_back.
  - evaluate.
  - refine (reads_up 2 _ _ _ v0_format 0 [x07] 7 (7, "upgraded") _ _); [|evaluate].
    apply reads_here. evaluate.
Defined.

Lemma decode_exact_witness :
  decode plain_array v2_format (plain_envelope 1 [x07]) = Err (FUnknown 1).
Proof.
  refine (proj2 (proj1 (proj2 (proj2 (proj2 (decode_exact plain_array plain_envelope v2_format (plain_envelope 1 [x07]) _)))) 1) _).
  - evaluate.
  - exists [x07]. split; [split; [reflexivity|evaluate]|]. split; [vm_compute; discriminate|].
    refine (bool_decide_eq_true_1 _ _). evaluate.
Defined.

(** The boundary of a running job is stored; then its ending, by a store that
    dies after the first slot. *)
Definition ended0 : Boundary :=
  mkBoundary (b_network boundary0) (b_session boundary0) (b_seq boundary0) (b_job boundary0)
    (b_successor boundary0) (Some stopped0).
Definition boundary_byte (b : Boundary) : list byte := [match b_status b with None => x00 | Some _ => x01 end].
Definition byte_boundary (bytes : list byte) : result Boundary string :=
  match bytes with [x00] => Ok boundary0 | [x01] => Ok ended0 | _ => Err "no boundary" end.
Definition running_tenant : Tenant :=
  (boundary_write plain_envelope boundary_byte byte_boundary (mkDisk (λ _, false) (λ _, io_ok)) tenant0 boundary0).2.

Lemma running_tenant_slots :
  t_slots running_tenant =
  replicate 2 (mkSlot true (Some (encode_envelope (t_magic tenant0) nonce0 1 sled0
                                    (boundary_encode plain_envelope boundary_byte byte_boundary boundary0)))).
Proof. evaluate. Qed.

Lemma boundary_store_refines_witness :
  let written := boundary_write plain_envelope boundary_byte byte_boundary (mkDisk (λ _, false) dies) running_tenant ended0 in
  written.1 = false ∧
  ∃ (w : Durability) (lost : bool), landed w = written.1 ∧
    stored (boundary_load plain_array boundary_byte byte_boundary (mkDisk (λ _, false) (λ _, io_ok))
              (restarted written.2 (Newtype 99))).1
    = if lost then None else on_disk w (Some boundary0) ended0.
Proof.
  cbv zeta. split; [evaluate|].
  refine (proj1 (boundary_store_refines plain_array plain_envelope boundary_byte byte_boundary running_tenant
    (Some boundary0) ended0 (mkDisk (λ _, false) dies) (mkDisk (λ _, false) (λ _, io_ok)) (Newtype 99) _ _ _ _)).
  - apply plain_reads_back.
  - intros b [->|[= <-]]; reflexivity.
  - apply tenant0_wf. evaluate.
  - intros s Hs. rewrite running_tenant_slots in Hs. apply elem_of_replicate in Hs as [-> _]. right.
    exists nonce0, 1, (boundary_encode plain_envelope boundary_byte byte_boundary boundary0).
    split; [reflexivity|]. split; [apply tenant0_wf; evaluate|reflexivity].
Defined.

(** ** A universe that is beaten *)

(** Addresses 5 and 7 are dialed from 10; the link to 5 comes up first, as one
    that 5 made, its session finds domination, and the next link to 5 joins. *)
Definition addr_of (n : N) : SocketAddrV6 := mkV6 n 12 0 0.
Definition sled_at_5 : BaseboardId := mkBaseboardId "part" "5".
Definition beaten_run : list GossipTurn :=
  [GTick; GAttested (attest_dialed attested_new (addr_of 5) sled_at_5); GAccept (AddrV6 (addr_of 5)) JoinFailed;
   GStopped 2 (sessions N.ltb 1 [SessionOk; Mismatch 2 4 6]); GAccept (AddrV6 (addr_of 5)) (Joined 2)].
Definition later_link : GossipTurn := GAccept (AddrV6 (addr_of 5)) JoinFailed.
Definition gossip0 : Gossip := gossip_new (AddrV6 (addr_of 10)) [addr_of 5; addr_of 7] 1.
Definition gossip1 : Gossip := default gossip0 (gossip_run gossip0 (beaten_run ++ [later_link])).

Lemma leaves_only_when_beaten_witness :
  (g_universe gossip1, g_network gossip1, elements (g_linked gossip1)) = (1%nat, 2, [sled_at_5]) ∧
  map fst (g_adopted gossip1) = [0%nat] ∧ (∀ u p, (u, p) ∈ g_adopted gossip1 → (u, p) ∈ g_beaten gossip1).
Proof.
  assert (Hr : gossip_run gossip0 (beaten_run ++ [later_link]) = Some gossip1) by evaluate.
  destruct (leaves_only_when_beaten _ _ _ _ _ _ Hr) as (_&_&Ha&Hb&_).
  split; [evaluate|]. split; [refine (eq_trans Ha _); evaluate|exact Hb].
Defined.
