(* ===== verification/JobExamples.v ===== *)
(** * Jobs, evaluated

    Concrete runs of [Job.v], for its theorems: a batch job that is stopped and
    killed, one that dies, one that exceeds its limit, a streamed output, and a
    terminal with two clients. *)
From S2P Require Import Prelude External Commands Hash Codephrases Jobs Manager Output Download JobIo Job JobFacts.
From S2P Require Import JobOutput JobClients Spawn SpawnFacts JobLife Boundary Executor Keys Targets Messages ClientErrors Attach AttachFacts Reference.
Open Scope N_scope.

(** No control message is used. *)
Definition no_json (text : string) : result InteractiveJobControl string := Err text.
Definition to_no_json (c : InteractiveJobControl) : result string string := Err "".

Definition run_ref (mode : JobMode) (max_fsize : N) (ts : list (N * Turn)) : option Job :=
  run_job no_json to_no_json (job_begin mode max_fsize 0 false) ts.

Definition killed_by (signal : Z) : result ExitStatus string := Ok (mkExitStatus None (Some signal)).
Definition exited_with (code : Z) : result ExitStatus string := Ok (mkExitStatus (Some code) None).

(** What is left of a run that did not stop short. *)
Definition last_job (o : option Job) : Job := default (job_begin Batch 0 0 false) o.

(** ** A job that is stopped *)

Definition stopped_run : list (N * Turn) :=
  [(1, TRead Stdout (Ok [x68; x69]) None); (2, TCancel); (secs 1, TStopped); (secs 6, TKillTimeout);
   (secs 7, TExit); (secs 7, TRead Stderr (Ok []) None); (secs 7, TRead Stdout (Ok []) None);
   (secs 8, TReaped (killed_by 9))].

Lemma kill_discipline_witness :
  let sent := kl_signals (j_killer (last_job (run_ref Batch 100 stopped_run))) in
  sent = burst [secs 1; secs 6] ∧
  ∃ times last, sent = burst times ++ map (λ t, (t, SIGKILL)) last ∧
    (length times <= 1 + KILL_ATTEMPTS)%nat ∧ (length last <= 1)%nat ∧ spaced (times ++ last) ∧
    (j_phase (last_job (run_ref Batch 100 stopped_run)) = Looping → last = []).
Proof.
  split; [evaluate|].
  refine (proj2 (kill_discipline no_json to_no_json Batch 100 0 false stopped_run
                   (last_job (run_ref Batch 100 stopped_run)) _)). evaluate.
Defined.

(** ** A job that dies *)

Definition dying_run : list (N * Turn) := [(1, TRead Stdout (Ok [x68; x69]) None); (2, TExit)].
Definition drained_run : list (N * Turn) :=
  [(2 + secs 1, TDrainTimeout); (2 + secs 1, TReaped (exited_with 0)); (secs 9, TReap)].

Lemma dead_job_ends_witness :
  ∃ res out, j_phase (last_job (run_ref Batch 100 (dying_run ++ drained_run))) = Finished res out.
Proof.
  refine (proj1 (dead_job_ends no_json to_no_json Batch 100 0 false dying_run (last_job (run_ref Batch 100 dying_run))
           drained_run (last_job (run_ref Batch 100 (dying_run ++ drained_run))) 0 _ _ _ _) _); evaluate.
Defined.

(** ** A job that writes too much *)

Definition long_run : list (N * Turn) :=
  [(1, TRead Stdout (Ok [x01; x02; x03]) None); (2, TRead Stderr (Ok [x04]) None);
   (3, TRead Stdout (Ok [x05; x06]) None); (4, TRead Stdout (Ok [x07]) None); (5, TStopped); (6, TExit);
   (7, TRead Stdout (Ok []) None); (8, TRead Stderr (Ok []) None); (9, TReaped (killed_by 15))].
Definition long_job : Job := last_job (run_ref Batch 4 long_run).
Definition long_out : JobOutputState := output_state (j_recorder long_job).

Lemma long_run_ok : Forall (turn_ok 3) long_run.
Proof. repeat constructor; vm_compute; discriminate. Qed.

Lemma output_recorded_exactly_witness :
  sk_file (sink (j_recorder long_job) Stdout) = [x01; x02; x03; x05; x06] ∧
  out_len Stdout long_out = 5 ∧
  N.of_nat (length (sk_file (sink (j_recorder long_job) Stdout))) <= 4 + 3.
Proof.
  pose proof (output_recorded_exactly no_json to_no_json Batch 4 0 false 3 long_run long_job
                (Err (POutputLimitExceeded Stdout 4)) long_out) as H.
  split; [evaluate|]. split; [evaluate|].
  refine (proj1 (proj2 (proj2 (proj2 (H _ _ _ _ _) Stdout)))); [discriminate|evaluate|apply long_run_ok|evaluate|evaluate].
Defined.

Lemma finished_output_downloads_witness :
  ∃ file,
    job_output_download (out_len Stdout long_out) 2 (out_hash Stdout long_out)
      (map (λ r, (sk_file (sink (j_recorder long_job) Stdout), r))) = Ok file ∧
    file `prefix_of` produced Stdout long_run ∧
    ((∀ s', Err (POutputLimitExceeded Stdout 4) ≠ Err (A:=Z) (POutputLimitExceeded s' 4)) →
     file = produced Stdout long_run).
Proof.
  apply (finished_output_downloads no_json to_no_json Batch 4 0 false 3 long_run long_job
           (Err (POutputLimitExceeded Stdout 4)) long_out Stdout 2).
  - discriminate.
  - vm_compute. discriminate.
  - apply long_run_ok.
  - evaluate.
  - evaluate.
  - evaluate.
  - vm_compute. discriminate.
  - intros l. exists l. split; reflexivity.
Defined.

(** ** A streamed output *)

Definition stream_run : list (N * Turn) :=
  [(1, TRead Stdout (Ok [x01; x02]) None); (2, TPermit); (3, TClient ReadWrite (Err "") (Ok ()));
   (4, TConsumer CtSocket); (5, TConsumer CtChunk); (6, TRead Stdout (Ok [x03]) None);
   (7, TConsumer (CtSent true)); (8, TPermit); (9, TConsumer CtChunk); (10, TConsumer (CtSent true));
   (11, TRead Stderr (Ok []) None); (12, TRead Stdout (Ok []) None); (13, TReaped (exited_with 0));
   (14, TConsumer CtEnd)].
Definition stream_job : Job := last_job (run_ref StreamOutput 100 stream_run).

Lemma streamed_output_exact_witness :
  concat (sm_delivered (j_streaming stream_job)) = produced Stdout stream_run ∧
  ∃ res out, j_phase stream_job = Finished res out ∧
    stdout_hash out = hash (concat (sm_delivered (j_streaming stream_job))).
Proof.
  refine (proj2 (streamed_output_exact no_json to_no_json 100 0 false stream_run stream_job _) _ _); evaluate.
Defined.

(** The client that receives it. *)
Definition stream_events : list StreamEvent :=
  map (λ b, SeMessage (Some (Ok (WsBinary b))) (Ok ())) (sm_delivered (j_streaming stream_job)) ++ [SeMessage (Some (Ok WsClose)) (Ok ())].
Definition no_text (e : AttachError) : string := "".
Definition stream_hasher : Hasher := update (update hasher_new [x01; x02]) [x03].

Lemma streamed_file_exact_witness :
  job_stream no_json no_text "out" (Ok ()) (Ok ()) stream_events = Some (Ok stream_hasher, [x01; x02; x03]) ∧
  [x01; x02; x03] = produced Stdout stream_run ∧
  j_phase stream_job = Finished (Ok 0%Z) (output_state (j_recorder stream_job)) ∧
  stream_verdict id0 (Some (Stopped id0 1 2 (Ok 0%Z) (output_state (j_recorder stream_job)))) [x01; x02; x03] = Ok tt.
Proof.
  assert (E : job_stream no_json no_text "out" (Ok ()) (Ok ()) stream_events = Some (Ok stream_hasher, [x01; x02; x03])) by evaluate.
  assert (Ep : j_phase stream_job = Finished (Ok 0%Z) (output_state (j_recorder stream_job))) by evaluate.
  split; [exact E|].
  destruct (proj2 (proj2 (streamed_file_exact no_json to_no_json no_text "out" stream_events (Ok ()) (Ok ()) stream_hasher
    [x01; x02; x03] E)) 100 0 false stream_run stream_job) as (Hp&res&out&Ep'&_&Hv); [evaluate..|reflexivity|].
  pose proof (eq_trans (eq_sym Ep) Ep') as Er. clear Ep'. revert Hv.
  assert (Eres : res = Ok 0%Z ∧ out = output_state (j_recorder stream_job)) by (split; congruence).
  destruct Eres as [-> ->]. intros Hv. split; [exact Hp|]. split; [exact Ep|]. apply Hv. reflexivity.
Defined.

(** The loop goes on after the child has exited, while its output is still open; a job
    cancelled then is signalled though its child has been reaped. *)
Lemma exited_job_signalled :
  ∃ j, run_ref Batch 100 [(1, TExit); (2, TCancel); (3, TStopped)] = Some j ∧ j_dead j = true ∧
    kl_signals (j_killer j) = [(3, SIGTERM)].
Proof. eexists. split; [reflexivity|]. split; reflexivity. Qed.

(** ** A terminal with two clients *)

Definition terminal_run : list (N * Turn) :=
  [(1, TClient ReadOnly (Err "") (Ok ())); (2, TClient ReadWrite (Err "") (Ok ()));
   (3, TMessage 0 (Ok (WsBinary [x01]))); (4, TMessage 1 (Ok (WsBinary [x02]))); (5, TRelay (Some true));
   (6, TMessage 1 (Ok WsClose)); (7, TClient ReadOnly (Err "") (Ok ())); (8, TMessage 2 (Ok (WsBinary [x03])))].
Definition terminal_job : Job := last_job (run_ref Interactive 100 terminal_run).

Lemma only_writers_type_witness :
  accepted (rc_io (j_recorder terminal_job)) = [[x02]] ∧
  accepted (rc_io (j_recorder terminal_job)) `sublist_of` (writers_input terminal_run).2.
Proof.
  split; [evaluate|].
  refine (only_writers_type no_json to_no_json Interactive 100 0 false terminal_run terminal_job _ _);
    [discriminate|evaluate].
Defined.

(** ** A job from its launch on *)

Definition os0 : Os :=
  mkOs (λ r, Ok match r with RCpu => 100 | _ => 10 ^ 12 end) (λ _, None) "File exists" 0 "/dev/pts/7"
    (Some (mkPasswd "/root" "root")) None.
Definition json0 (_ : SignedJob) : result (list byte) string := Ok [x7b; x7d].
Definition spawn_dirs : OutputDirs := output_dirs_new ["data"] 4.
Definition launch0 : Launch := mkLaunch verified0 params0 1 boundary0.
Definition spawned0 : result Process ProcessError * Host :=
  job_spawn json0 os0 spawn_dirs IsolatePath launch0 ∅.
Definition process0 : Process :=
  default (mkProcess (mkExec EmptyString [] [] []) default_limits Batch id0) (result_ok spawned0.1).

Lemma spawned0_ok : job_spawn json0 os0 spawn_dirs IsolatePath launch0 ∅ = (Ok process0, spawned0.2).
Proof. assert (H : spawned0.1 = Ok process0) by evaluate. rewrite <- H. exact (surjective_pairing spawned0). Qed.

Lemma spawn_within_limits_witness :
  spawned0.1 = Ok process0 ∧ x_program (ps_exec process0) = BASH ∧
  ∀ rest, command (payload (signed (l_request launch0))) ≠ String dash rest.
Proof.
  split; [evaluate|].
  destruct (spawn_within_limits json0 os0 spawn_dirs IsolatePath launch0 ∅ process0 spawned0.2)
    as (?&?&?&?&?&?&_&_&_&_&Hp&_&Hc); [exact spawned0_ok|evaluate|]. split; [exact Hp|exact Hc].
Defined.

(** Its output moves with the directory, and is downloaded from there. *)
Definition spawned_job : Job :=
  last_job (run_job no_json to_no_json (process_job process0 0 false) long_run).
Definition spawned_file : list byte := sk_file (sink (j_recorder spawned_job) Stdout).
Definition host0 : Host := <[job_output_path spawn_dirs id0 Stdout := spawned_file]> spawned0.2.

Lemma launched_output_downloads_witness :
  spawned_file = [x01; x02; x03; x05; x06] ∧
  job_output_download 5 2 (hash spawned_file) (map (λ r, (spawned_file, r))) = Ok spawned_file ∧
  serve_host host0 (move_all spawn_dirs [(["dataset"], 20)]) id0 Stdout (mkChunk 1 2) = Ok [x02; x03].
Proof.
  split; [evaluate|].
  destruct (launched_output_downloads json0 no_json to_no_json os0 spawn_dirs IsolatePath launch0 ∅ process0
              spawned0.2 0 false long_run spawned_job (Err (POutputLimitExceeded Stdout 4))
              (output_state (j_recorder spawned_job)) Stdout [(["dataset"], 20)] host0 2
              (map (λ r, (spawned_file, r)))) as (_&Hs&Hd&_).
  - exact spawned0_ok.
  - vm_compute. discriminate.
  - repeat constructor; vm_compute; discriminate.
  - evaluate.
  - evaluate.
  - vm_compute. lia.
  - evaluate.
  - intros base Hb Hne. set (bs := bases _) in Hb. change bs with [["dataset"]; ["data"]] in Hb.
    apply elem_of_cons in Hb as [->|Hb]; [evaluate|]. apply list_elem_of_singleton in Hb as ->. by destruct Hne.
  - evaluate.
  - vm_compute. discriminate.
  - intros l. exists l. split; reflexivity.
  - split; [exact Hd|]. refine (eq_trans (Hs _) _). evaluate.
Defined.
