(* ===== verification/ClientExamples.v ===== *)
(** * The client, evaluated

    Concrete inputs for the theorems about the client: an agent with one key, a
    login, and calls that are refused at the same time. *)
From S2P Require Import Prelude External Codephrases Hash Targets Keys Ssh Jobs Messages.
From S2P Require Import Headers Authn Login Proxy ProxyFacts Agent ClientLogin LoginFlow Reference Examples.
Open Scope N_scope.

(** ** The agent *)

(** Keys and signatures travel as they are. *)
Definition any_key (bs : list byte) : option SshPublicKey := match bs with [] => None | _ => Some bs end.
Definition raw_signature (bs : list byte) : option (SshAlgorithm * list byte) := Some (AEd25519, bs).
Definition no_ecdsa (bs : list byte) : option EcdsaSignature := None.
Definition ed25519_of (bs : list byte) : option Ed25519Signature := Some bs.

(** An agent with a second key and [user_key]'s, which signs [bs] with the
    latter. *)
Definition replies (bs : list byte) : list byte :=
  wire_reply x0c (wire_answer [(root_key, bytes_of_string "root"); (user_key, bytes_of_string "user")]) ++
  wire_reply x0e (wire_string (ref_sign user_key bs)).
Definition agent_for (bs : list byte) : AgentConnection := mkConn (replies bs) [] None.

Definition found_key : result SshPublicKey IdentityError * AgentConnection :=
  identity any_key true (agent_for (to_be_signed response0)) (Some user_id).
Definition signed_response : result (Signed ChallengeResponse) IdentityError * AgentConnection :=
  agent_sign any_key raw_signature no_ecdsa ed25519_of true true found_key.2 response0.

Lemma signs_with_chosen_key_witness :
  is_ok found_key.1 = true ∧ is_ok signed_response.1 = true ∧
  key_id (ok_default (mkSigned response0 root_id (c_signature credentials0)) signed_response.1) = user_id.
Proof.
  split; [evaluate|]. split; [evaluate|].
  assert (E1 : is_ok found_key.1 = true) by evaluate. assert (E2 : is_ok signed_response.1 = true) by evaluate.
  apply is_ok_default with (d := user_key) in E1.
  apply is_ok_default with (d := mkSigned response0 root_id (c_signature credentials0)) in E2.
  refine (proj1 (proj2 (signs_with_chosen_key any_key raw_signature no_ecdsa ed25519_of true true true
    (agent_for (to_be_signed response0)) user_id (ok_default user_key found_key.1) found_key.2 response0 _
    signed_response.2 _ _))).
  - refine (eq_trans _ (f_equal (λ r, (r, found_key.2)) E1)). apply surjective_pairing.
  - refine (eq_trans _ (f_equal (λ r, (r, signed_response.2)) E2)). apply surjective_pairing.
Defined.

(** ** Calls *)

(** Two calls are refused under the same authorization; the first to take the
    lock logs in, the second tries again with its login. *)
Definition two_calls : list ClientEvent :=
  [CBegin 0; CClaim 0 (Some user_id); CBegin 1;
   CHook 0; CHook 1; CSign 0 "GET" "/sessions"; CSign 1 "GET" "/jobs";
   CUnauthorized 1 None; CUnauthorized 0 None; CLock 0;
   CAuthenticated 0 credentials0 (ref_sign request_key); CLock 1; CRenew 1; CRenew 0;
   CHook 0; CHook 1; CSign 1 "GET" "/jobs"; CSign 0 "GET" "/sessions"; CResponse 0 true].
Definition after_two_calls : Client := default client_new (client_run client_new two_calls).

Lemma after_two_calls_run : client_run client_new two_calls = Some after_two_calls.
Proof. apply is_some_default. evaluate. Qed.

Lemma refusals_share_one_login_witness :
  length (cl_logged_in after_two_calls) = 1%nat ∧ NoDup (cl_logged_in after_two_calls).
Proof.
  split; [evaluate|]. exact (proj1 (refusals_share_one_login two_calls after_two_calls after_two_calls_run)).
Defined.

Definition task1 : Task := default (mkTask Claiming 0 0 0) (cl_tasks after_two_calls !! 1%nat).

Lemma retries_end_witness :
  tk_sent task1 = 2 ∧ steps_of 1 two_calls <= 7 + 6 * (cl_generation after_two_calls - tk_begin task1).
Proof.
  split; [evaluate|].
  assert (Ht : is_some (cl_tasks after_two_calls !! 1%nat) = true) by evaluate.
  exact (proj1 (proj2 (retries_end two_calls after_two_calls 1 task1 after_two_calls_run (is_some_default _ _ Ht)))).
Defined.

Lemma requests_numbered_in_order_witness :
  signed_under 0 (cl_signed after_two_calls) = [1; 2] ∧
  signed_under 0 (cl_signed after_two_calls) = numbered (length (signed_under 0 (cl_signed after_two_calls))).
Proof.
  split; [evaluate|]. exact (proj1 (requests_numbered_in_order two_calls after_two_calls 0 after_two_calls_run)).
Defined.

(** ** A login, end to end *)







