(* ===== verification/CommandExamples.v ===== *)
(** * The client's commands, evaluated

    Concrete inputs for the theorems about the client's commands: a client that
    started a session on the rack of [Reference.v], the job it prepares, the output
    it shows, and a watch. *)
From S2P Require Import Prelude External Codephrases Hash Targets Keys Ssh Jobs Messages Headers Authn Login Proxy.
From S2P Require Import Rack Certs History Boundary Executor State Manager Output Server.
From S2P Require Import ClientErrors TargetArgs Watch Effects Commands CommandFacts ClientRack Reference Examples.
Open Scope N_scope.

(** ** A client and a rack *)

(** The user starts [session0] on the rack, which has its start pending; the client
    tracks it, and keeps it in a file. *)
Definition user_start : Tick := mkTick 1 (Some 5) (IGossip 1 (msg_session user_id (SRStart preimage0))).
Definition rack0 : RackSide := mkRackSide (Reference.run (fresh 0 None) [user_start]) (Newtype 5) [].
Definition tracked : Session := session_new session0.
Definition ctx0 : Ctx := mkCtx (Some tracked) true (Saved 1 tracked) true NoFile true true None.
Definition no_answer (X : Type) (e : Effect X) : result X CommandError := Err CeOffline.
Definition around : Surroundings :=
  mkSurroundings version0 (h ← head (rq_authorization list_sessions); h) (λ _, true) (λ _, Ok "pem") files0 dirs0
    (λ _, "refused") (λ _, "status") no_answer.
Definition now0 : Moment := mkMoment 2 (Some 5) 2 ∅ (Newtype 6) Settled.

Lemma in_step_intro c st s :
  x_session c = Some s →
  match confirmed st (sess_id s) with
  | Active a => bool_decide (sess_id (a_session a) = sess_id s) &&
                bool_decide (session_next_job_id (a_session a) = session_next_job_id s) && (size (a_queued_jobs a) =? 0)%nat
  | Inactive => false
  end = true → in_step c st.
Proof.
  intros Hx. destruct (confirmed st (sess_id s)) as [|a] eqn:E; [done|].
  rewrite !andb_true_iff, !bool_decide_eq_true, Nat.eqb_eq. intros [[H1 H2] H3%map_size_empty_inv].
  exists s, a. by split_and!.
Qed.

Lemma in_step0 : in_step ctx0 (rk_state rack0).
Proof. apply (in_step_intro _ _ tracked); [done|evaluate]. Qed.

Definition limits0 : LimitArgs := mkLimitArgs None None None.
Definition uptime : JobStartArgs :=
  mkStartArgs limits0 (Some "uptime") false false false None false (ArgTarget (TSleds [SBaseboard sled0])) None false.

(** ** Jobs *)

Definition prepared : result JobStartRequest CommandError * Ctx * RackSide :=
  Effects.run (serve_rack around now0) (job_start_request true uptime ctx0) rack0.

Lemma prepared_request_exact_witness :
  job_id (ok_default (payload job1) prepared.1.1) = id0 ∧ target_matches_mode (ok_default (payload job1) prepared.1.1) = true.
Proof.
  split; [evaluate|]. assert (E : is_ok prepared.1.1 = true) by evaluate.
  apply is_ok_default with (d := payload job1) in E.
  pose proof (prepared_request_exact (serve_rack around now0) rack0 ctx0 true uptime (ok_default (payload job1) prepared.1.1)) as H.
  unfold prepared in *. exact (proj2 (proj2 (H E))).
Defined.

Definition reached : gset BaseboardId := ok_default ∅ (reachable_targets (rk_state rack0) (own (rk_state rack0)) ∅ (TSleds [SBaseboard sled0])).

Lemma started_job_runs_witness :
  match Effects.run (serve_rack around now0) (job_start job0 uptime ctx0) rack0 with
  | (res, c', r') =>
    res = Ok tt ∧ x_session c' = Some (job_started tracked job0) ∧ in_step c' (rk_state r') ∧
    ∃ run, ORun run ∈ rk_outputs r' ∧ r_job run = verified0
  end.
Proof.
  assert (Ea : is_ok (requester (su_authorization around)) = true) by evaluate.
  assert (Er : is_ok (reachable_targets (rk_state rack0) (own (rk_state rack0)) ∅ (TSleds [SBaseboard sled0])) = true) by evaluate.
  assert (Hs : match confirmed (rk_state rack0) (sess_id tracked) with
    | Active a => match screen (st_past (rk_state rack0)) (sess_id tracked) (a_seq a) (a_live a) with Admit => true | Refuse => false end
    | Inactive => false end = true) by evaluate.
  pose proof (started_job_runs around now0 rack0 ctx0 uptime tracked job0 verified0 5
    (ok_default user_id (requester (su_authorization around))) reached in_step0 eq_refl
    ltac:(evaluate) ltac:(evaluate) ltac:(evaluate) ltac:(split; [evaluate|split; [discriminate|evaluate]])
    ltac:(evaluate) ltac:(evaluate) (is_ok_default _ _ Ea) eq_refl ltac:(evaluate) (is_ok_default _ _ Er)) as H.
  destruct (Effects.run _ _ _) as [[res c'] r']. destruct H as (H1&H2&H3&H4). split; [done|]. split; [done|]. split; [done|].
  apply H4.
  - apply (bool_decide_unpack _). evaluate.
  - evaluate.
  - evaluate.
  - intros a E. rewrite E in Hs. destruct (screen _ _ _ _); [reflexivity|discriminate Hs].
Defined.

(** After the job the client skips the next position. *)
Definition after0 : result () CommandError * Ctx * RackSide :=
  Effects.run (serve_rack around now0) (job_start job0 uptime ctx0) rack0.
Definition ctx1 : Ctx := after0.1.2.
Definition rack1 : RackSide := after0.2.

Lemma skip_keeps_step_witness :
  match Effects.run (serve_rack around now0) (job true (JcSkip None) ctx1) rack1 with
  | (res, c', r') => res = Ok tt ∧ in_step c' (rk_state r')
  end.
Proof.
  assert (Hok : is_ok (Effects.run (serve_rack around now0) (job true (JcSkip None) ctx1) rack1).1.1 = true) by evaluate.
  pose proof (skip_keeps_step around now0 rack1 ctx1 (job_started tracked job0)
    ltac:(apply (in_step_intro _ _ (job_started tracked job0)); evaluate) ltac:(evaluate) ltac:(evaluate)) as H.
  destruct (Effects.run _ _ _) as [[[[]|e] c'] r']; [|discriminate Hok]. split; [reflexivity|exact (proj1 H)].
Defined.

(** ** Files and output *)

Lemma session_outlives_process_witness :
  x_session (next_invocation (Effects.run (serve_rack around now0) (job true (JcSkip None) ctx0) rack0).1.2)
  = x_session (Effects.run (serve_rack around now0) (job true (JcSkip None) ctx0) rack0).1.2.
Proof.
  exact (proj2 (proj2 (proj2 (session_outlives_process (serve_rack around now0) rack0 ctx0 true (ScStop None)
    (JcSkip None) ltac:(split; [reflexivity|split; reflexivity]))))).
Defined.

(** A sled that recorded an output and serves it. *)
Definition output3 : list byte := [x01; x02; x03].
Definition stopped3 : JobStatusMap :=
  {[sled0 := Stopped id0 1 2 (Ok 0%Z) (mkJobOutputState 3 0 (hash output3) (hash []))]}.
Definition serve_output : Server () := λ X e,
  match e in Effect X return () → result X CommandError * () with
  | AskJobStatus _ _ => λ w, (Ok stopped3, w)
  | AskJobOutput _ _ _ => λ w, (Ok (Ok output3), w)
  | _ => λ w, (Err CeOffline, w)
  end.
Definition stdout_of : OutputArgs := mkOutputArgs (Some id0) false None false DEFAULT_CHUNK_SIZE PARALLEL_CHUNKS.

Lemma shown_output_checked_witness :
  ∃ o, recorded (tail (asked serve_output [] (job_output (ArgTarget (TSleds [SBaseboard sled0])) Stdout stdout_of ctx0) ()))
         id0 sled0 o ∧ hash output3 = output_hash Stdout o.
Proof.
  refine (shown_output_checked serve_output () ctx0 (ArgTarget (TSleds [SBaseboard sled0])) Stdout stdout_of []
    (mkAsked (DoPrintOutput id0 sled0 Stdout output3 false) (Err CeOffline)) _ _).
  vm_compute. reflexivity.
Defined.

(** ** Watching *)

Definition quiet_poll : Poll := mkPoll (Ok stopped3) (Some 2%nat) false.

Lemma watch_ends_witness :
  ∃ r, job_watch None (mkPoll (Ok ∅) None false :: replicate 6 quiet_poll) = Some r.
Proof.
  destruct (watch_ends None [mkPoll (Ok ∅) None false] (replicate 6 quiet_poll) 1) as (r&_&_&_&Hr&_).
  - apply Forall_replicate. exists stopped3. split; [reflexivity|]. split; evaluate.
  - reflexivity.
  - exists r. exact Hr.
Defined.
