(* ===== verification/ConfigExamples.v ===== *)
(** * Options and the REPL, evaluated

    The options of the client that say where a rack is, with a URL in the environment
    and a Nexus on the command line, in a file with profiles; and a REPL that connects,
    logs in and then is told of a Nexus. *)
From S2P Require Import Prelude External Codephrases Hash Targets Keys Ssh Jobs Messages Headers.
From S2P Require Import Manager Output ClientErrors Addresses Ephemeral ProxyTls Tunnel Config ConfigFacts Repl ReplFacts Reference.
Open Scope N_scope.

(** [--url], [--nexus] and [--offline] of [GlobalArgs]. *)
Definition url_arg : Arg := mkArg "url" (Some "url") [] (Some "SUSH_URL") false true [].
Definition nexus_arg : Arg := mkArg "nexus" (Some "nexus") [] (Some "SUSH_NEXUS") false true [].
Definition offline_arg : Arg := mkArg "offline" (Some "offline") [] None false false ["false"].
Definition profile_arg : Arg := mkArg "profile" (Some "profile") [] (Some "SUSH_PROFILE") false true [].
Definition rack_conflicts (id : string) : list string :=
  if bool_decide (id = "nexus") then ["url"; "offline"] else if bool_decide (id = "offline") then ["url"] else [].
Definition client : Command := mkCommand [url_arg; nexus_arg; offline_arg; profile_arg] rack_conflicts [].

(** A file that names a profile. *)
Definition file : list (string * TomlValue) :=
  [("profile", VString "lab"); ("url", VString "http://bench");
   ("lab", VTable [("nexus", VString "https://lab"); ("url", VString "http://lab")])].

Definition options : result ConfigOptions ConfigError := from_table "config.toml" (all_keys client) file None.

Lemma profile_overrides_witness :
  is_ok options = true ∧ ok_default ∅ options !! "url" = Some ["http://lab"].
Proof.
  split; [evaluate|]. assert (E : is_ok options = true) by evaluate. apply is_ok_default with (d := ∅) in E.
  destruct (profile_overrides "config.toml" (all_keys client) file None (ok_default ∅ options) E) as (sel&->&Hsel).
  cbn in Hsel. destruct Hsel as (tp&[= <-]&Hk). rewrite Hk. reflexivity.
Defined.

Definition typed (id : string) : option (list string) := if bool_decide (id = "nexus") then Some ["https://here"] else None.
Definition environment (name : string) : option string := if bool_decide (name = "SUSH_URL") then Some "http://env" else None.
Definition first_parse : ArgMatches :=
  mkMatches (λ id, if bool_decide (id = "nexus") then Some CommandLine else if bool_decide (id = "url") then Some EnvVariable
                   else if bool_decide (id = "offline") then Some DefaultValue else None)
    (λ _, []) (λ _, false) (λ _, true) None.
Definition cascade : ConfigOptions := ok_default ∅ options.

Lemma first_parsed : parsed typed environment client first_parse.
Proof.
  intros c m Hl. inversion Hl; subst. intros a Ha. cbn in Ha.
  repeat (apply elem_of_cons in Ha as [->|Ha]; [reflexivity|]). by apply elem_of_nil in Ha.
Qed.

Lemma stronger_option_wins_witness :
  let merged := merge_arg (compute_merge_losers cascade client first_parse) cascade in
  given typed environment (merged nexus_arg) = Some (CommandLine, ["https://here"]) ∧
  given typed environment (merged url_arg) = None.
Proof.
  destruct (stronger_option_wins typed environment cascade client first_parse first_parsed) as (Hkeep&Hlose&_).
  intros merged. split.
  - unfold merged. rewrite Hkeep; [reflexivity|].
    assert (E : bool_decide (ar_id nexus_arg ∈ compute_merge_losers cascade client first_parse) = false) by evaluate.
    by apply bool_decide_eq_false in E.
  - apply (Hlose client first_parse url_arg nexus_arg EnvVariable CommandLine); [apply level_here|cbn; set_solver| |reflexivity|reflexivity|cbn; lia].
    right. split; [cbn; set_solver|]. assert (E : conflicts_with client nexus_arg = [url_arg; offline_arg]) by evaluate.
    rewrite E. by left.
Defined.

Lemma set_replaces_conflicts_witness :
  supplied_update client {["url" := ["http://a"]]} {["nexus" := ["https://b"]]} !! "url" = None ∧
  supplied_update client {["url" := ["http://a"]]} {["nexus" := ["https://b"]]} !! "nexus" = Some ["https://b"].
Proof.
  assert (Hone : ∀ n (v : list string), bool_decide (conflict client n n) = false → conflict_free client {[n := v]}).
  { intros n v E n1 n2 [? [<- _]%lookup_singleton_Some] [? [<- _]%lookup_singleton_Some]. by apply bool_decide_eq_false in E. }
  destruct (set_replaces_conflicts client {["url" := ["http://a"]]} {["nexus" := ["https://b"]]}) as [Hl _];
    [apply Hone; evaluate|apply Hone; evaluate|].
  split; rewrite Hl; evaluate.
Defined.

(** ** A REPL *)

(** Words of the form [--name=value], then the defaults; no environment. *)
Definition raw_words (words : list string) (id : string) : list string := omap (strip_prefix ("--" +:+ id +:+ "=")) words.
Definition parse_words (c : Command) (words : list string) : result ArgMatches () :=
  let defaults id := flat_map (λ a, if bool_decide (ar_id a = id) then ar_default a else []) (command_args c) in
  let raw id := match raw_words words id with [] => defaults id | l => l end in
  Ok (mkMatches (λ id, match raw_words words id with _ :: _ => Some CommandLine | [] => match defaults id with [] => None | _ => Some DefaultValue end end)
    raw (λ _, false) (λ _, true) None).
Definition select (m : ArgMatches) : result (option string * option string) () := Ok (None, head (get_raw m "profile")).
Definition globals_of (m : ArgMatches) : result GlobalArgs () :=
  Ok (mkGlobals None (head (get_raw m "profile")) None false false (head (get_raw m "url")) (head (get_raw m "nexus")) None [] None None []
    false None None ∅).
Definition toml_of (text : string) : result (list (string * TomlValue)) string := Ok [("profile", VString "lab"); ("lab", VTable [("url", VString "http://lab")])].
Definition read_text (path : string) : result string string := Ok "".
Definition config_failed (e : ConfigError) : CommandError := CeConfig "".
Definition clap_failed (e : ()) : CommandError := CeClap "".
Definition tunnel_failed (e : TunnelError) : CommandError := CeTunnel "".
Definition url_failed (e : ProxyTlsError) : CommandError := CeProxyTls "".

Definition network0 : Network (Der := ()) (Tcp := ()) (Tls := ()) (WebSocket := ()) :=
  mkNetwork (λ _, Err "") (λ _ _ _, None) (λ _ _ _, Err "") (λ _ _ _, Err "") (Err "").

Definition start0 : result (Repl (Authz := N) (Root := ()) (Der := ()) * list string) CommandError :=
  repl_start parse_words parse_words select globals_of toml_of read_text (Some "config.toml") client client clap_failed config_failed
    (λ _, None) ∅ OfText (mkSigner None 0 None).
Definition blank_globals : GlobalArgs := mkGlobals None None None false false None None None [] None None [] false None None ∅.
Definition repl0 : Repl (Authz := N) (Root := ()) (Der := ()) :=
  (ok_default (mkRepl blank_globals OfText (mkSigner None 0 None) ∅ ∅ None, []) start0).1.
Definition repl_after (l : list (ReplEvent (Authz := N) (Der := ()) (Tcp := ()) (Tls := ()) (WebSocket := ()))) : Tracked :=
  repl_run parse_words parse_words select globals_of toml_of read_text (Some "config.toml") client client clap_failed config_failed
    (λ _, None) (λ _, None) (λ _, true) (λ _, true) (λ _, None) (λ _, true) (λ _, Err "") (λ _, 0) (Ok []) (λ _, Err CeOffline)
    tunnel_failed url_failed (λ _ _, Ok ()) repl0 l.

(** The profile's URL is connected to; when a Nexus is set, the login is given up. *)
Definition connected : Tracked := repl_after [EvCommand network0 true; EvLogin 1].
Definition moved : Tracked := repl_after [EvCommand network0 true; EvLogin 1; EvSet {["nexus" := ["https://n"]]}].

Lemma repl_keeps_to_options_witness :
  sg_authz (rp_signer (tr_repl connected)) = Some 1 ∧
  tr_login connected = Some (None, None, Some "http://lab", None) ∧ sg_authz (rp_signer (tr_repl moved)) = None.
Proof.
  assert (E : is_ok start0 = true) by evaluate.
  assert (Es : start0 = Ok (repl0, (ok_default (repl0, []) start0).2)).
  { unfold repl0. destruct start0 as [[r lines]|]; [reflexivity|discriminate]. }
  assert (Ea : sg_authz (rp_signer (tr_repl connected)) = Some 1) by evaluate. split; [exact Ea|]. split; [|evaluate].
  destruct (repl_keeps_to_options parse_words parse_words select globals_of toml_of read_text (Some "config.toml") client client
    clap_failed config_failed (λ _, None) (λ _, None) (λ _, true) (λ _, true) (λ _, None) (λ _, true) (λ _, Err "") (λ _, 0) (Ok [])
    (λ _, Err CeOffline) tunnel_failed url_failed (λ _ _, Ok ()) ∅ OfText repl0 _ [EvCommand network0 true; EvLogin 1] Es) as (_&_&Hl&_).
  change (repl_run _ _ _ _ _ _ _ _ _ _ _ _ _ _ _ _ _ _ _ _ _ _ _ _ repl0 _) with connected in Hl.
  rewrite (Hl 1 Ea). evaluate.
Defined.
