(* ===== verification/TlsExamples.v ===== *)
(** * Certificates and vouchers, evaluated

    Stand-ins for the curves and for X.509, in which keys are digests of their seeds
    and a signature is a digest of the key and the message; and on them an ephemeral
    root with a child, and a proxy that a root of trust vouches for. *)
From S2P Require Import Prelude External Codephrases Hash Targets Keys Ssh Jobs Certs Headers.
From S2P Require Import Addresses Ephemeral EphemeralFacts ProxyTls ProxyTlsFacts ScopedUrls Messages Authn Login Proxy Rack History.
From S2P Require Import Boundary Executor State Manager Output Server ClientErrors Repl CertChain Reference Examples.
Open Scope N_scope.

(** ** Signatures *)

(** Signatures of 64 bytes. *)
Definition sig64 : Type := { bs : list byte | bool_decide (length bs = 64%nat) = true }.
Definition halves (r s : list byte) : list byte := take 32 (r ++ replicate 32 x00) ++ take 32 (s ++ replicate 32 x00).
Lemma length_halves r s : bool_decide (length (halves r s) = 64%nat) = true.
Proof.
  apply bool_decide_eq_true. unfold halves. rewrite length_app, !length_take, !length_app, length_replicate. lia.
Qed.
Definition mk64 (r s : list byte) : sig64 := exist _ (halves r s) (length_halves r s).
Definition sig_r64 (s : sig64) : list byte := take 32 (proj1_sig s).
Definition sig_s64 (s : sig64) : list byte := drop 32 (proj1_sig s).
Definition read64 (bs : list byte) : option sig64 :=
  match Bool.bool_dec (bool_decide (length bs = 64%nat)) true with left E => Some (exist _ bs E) | right _ => None end.

Lemma sig64_eq (s t : sig64) : proj1_sig s = proj1_sig t → s = t.
Proof. destruct s as [s Es], t as [t Et]. cbn. intros ->. f_equal. apply Eqdep_dec.UIP_dec, Bool.bool_dec. Qed.
Lemma read64_back (s : sig64) : read64 (proj1_sig s) = Some s.
Proof.
  destruct s as [s Es]. unfold read64. cbn. destruct (Bool.bool_dec _ _) as [E|E]; [|done].
  f_equal. by apply sig64_eq.
Qed.
Lemma halves_exact r s : length r = 32%nat → length s = 32%nat → halves r s = r ++ s.
Proof. intros Hr Hs. unfold halves. by rewrite !take_app_le, !take_ge by lia. Qed.
Lemma mk64_halves r s : length r = 32%nat → length s = 32%nat → sig_r64 (mk64 r s) = r ∧ sig_s64 (mk64 r s) = s.
Proof.
  intros Hr Hs. unfold sig_r64, sig_s64, mk64. cbn [proj1_sig]. rewrite halves_exact by done.
  by rewrite take_app_length', drop_app_length' by done.
Qed.
Lemma sig64_halves (s : sig64) : length (sig_r64 s) = 32%nat ∧ length (sig_s64 s) = 32%nat ∧ mk64 (sig_r64 s) (sig_s64 s) = s.
Proof.
  assert (Hl : length (proj1_sig s) = 64%nat) by (destruct s as [s Es]; cbn; by apply bool_decide_eq_true in Es).
  assert (Hr : length (sig_r64 s) = 32%nat) by (unfold sig_r64; rewrite length_take; lia).
  assert (Hs : length (sig_s64 s) = 32%nat) by (unfold sig_s64; rewrite length_drop; lia).
  split_and!; [done..|]. apply sig64_eq. cbn. rewrite halves_exact by done. apply take_drop.
Qed.
Lemma read64_mk r s : length r = 32%nat → length s = 32%nat → read64 (r ++ s) = Some (mk64 r s).
Proof.
  intros Hr Hs. rewrite <- (halves_exact r s) by done. change (halves r s) with (proj1_sig (mk64 r s)). apply read64_back.
Qed.

Definition toy_sign (key message : list byte) : sig64 := mk64 (ref_digest (key ++ message)) (ref_digest (message ++ key)).
Definition toy_verify (key message : list byte) (s : sig64) : bool := bool_decide (proj1_sig s = proj1_sig (toy_sign key message)).
Lemma toy_signed key m : toy_verify key m (toy_sign key m) = true.
Proof. by apply bool_decide_eq_true. Qed.

(** ** Certificates *)

Record toy_cert := mkToy { toy_tbs : TbsCertificate string N; toy_alg : AlgorithmIdentifier; toy_sig : list byte }.

Definition toy_tbs_der (t : TbsCertificate string N) : list byte :=
  bytes_of_string (tbs_subject t) ++ subject_public_key (subject_public_key_info t) ++
  flat_map extn_value (default [] (extensions t)).

#[local] Instance toy_pki : Pki := {
  Certificate := toy_cert;
  Name := string;
  cert_subject c := tbs_subject (toy_tbs c);
  cert_issuer c := tbs_issuer (toy_tbs c);
  cert_spki_algorithm c := spki_algorithm (subject_public_key_info (toy_tbs c));
  cert_spki_key c := subject_public_key (subject_public_key_info (toy_tbs c));
  cert_spki_der c := Some (subject_public_key (subject_public_key_info (toy_tbs c)));
  cert_tbs_der c := Some (toy_tbs_der (toy_tbs c));
  cert_signature_algorithm := toy_alg;
  cert_tbs_signature c := tbs_signature (toy_tbs c);
  cert_signature := toy_sig;
  EcdsaSignature := sig64;
  Ed25519Signature := sig64;
  ecdsa_from_scalars r s := Some (mk64 r s);
  ecdsa_from_der := read64;
  ecdsa_key_ok _ := true;
  ecdsa_verify := toy_verify;
  ed25519_from_components := mk64;
  ed25519_from_slice := read64;
  ed25519_key_ok _ := true;
  ed25519_verify := toy_verify;
}.

#[local, refine] Instance toy_ssh : Ssh := {
  SshPublicKey := list byte;
  ssh_algorithm _ := AEd25519;
  ssh_to_bytes k := Some k;
  ssh_to_openssh _ := Ok "ssh-ed25519";
  ssh_signature_new _ _ := None;
  ssh_verify _ _ _ _ := false;
  ecdsa_r := sig_r64;
  ecdsa_s := sig_s64;
  ecdsa_to_ssh _ := None;
  ed25519_r := sig_r64;
  ed25519_s := sig_s64;
  mpint_from_positive _ := None;
  mpint_as_positive _ := None;
  ed25519_is_weak _ := false;
  ed25519_verify_strict := toy_verify;
}.
Proof.
  - done.
  - intros r s sg Hr Hs [= <-]. by apply mk64_halves.
  - intros r s Hr Hs. by apply mk64_halves.
  - intros r s Hr Hs. by apply read64_mk.
  - done.
  - done.
Defined.

#[local, refine] Instance toy_keys : PrivateKeys := {
  Ed25519SigningKey := list byte;
  P256SecretKey := list byte;
  ed25519_public := ref_digest;
  p256_public := ref_digest;
  ed25519_sign k m := toy_sign (ref_digest k) m;
  p256_sign k m := toy_sign (ref_digest k) m;
  ed25519_to_bytes s := proj1_sig s;
  ecdsa_to_der s := proj1_sig s;
}.
Proof.
  - apply length_ref_digest.
  - done.
  - intros. apply toy_signed.
  - intros. apply toy_signed.
  - done.
  - intros. apply toy_signed.
  - apply read64_back.
  - apply read64_back.
  - apply sig64_halves.
  - intros s. destruct (sig64_halves s) as (Hr&Hs&E). cbn. by rewrite E.
Defined.

(** Certificates are encoded by the library's numbering, one byte for each bit. *)
#[local] Instance byte_countable : Countable byte.
Proof. apply (inj_countable Byte.to_N Byte.of_N). intros b. apply Byte.of_to_N. Defined.
Definition oid_code (o : Oid) : N * list byte :=
  match o with ECDSA_WITH_SHA_256 => (0, []) | ID_EC_PUBLIC_KEY => (1, []) | ID_ED_25519 => (2, []) | OtherOid d => (3, d) end.
Definition oid_decode (x : N * list byte) : Oid :=
  match x.1 with 0 => ECDSA_WITH_SHA_256 | 1 => ID_EC_PUBLIC_KEY | 2 => ID_ED_25519 | _ => OtherOid x.2 end.
#[local] Instance oid_countable : Countable Oid.
Proof. apply (inj_countable' oid_code oid_decode). by intros []. Defined.
#[local] Instance parameters_countable : Countable AlgorithmParameters.
Proof.
  apply (inj_countable' (λ p, match p with SECP_256_R_1 => None | OtherParameters d => Some d end)
    (λ o, match o with None => SECP_256_R_1 | Some d => OtherParameters d end)). by intros [].
Defined.
#[local] Instance algorithm_countable : Countable AlgorithmIdentifier.
Proof. apply (inj_countable' (λ a, (oid a, parameters a)) (λ x, mkAlgorithm x.1 x.2)). by intros []. Defined.
Definition extn_code (e : ExtnId) : N * list byte :=
  match e with VOUCHER_OID => (0, []) | DICE_TCB_INFO => (1, []) | OtherExtn d => (2, d) end.
Definition extn_decode (x : N * list byte) : ExtnId :=
  match x.1 with 0 => VOUCHER_OID | 1 => DICE_TCB_INFO | _ => OtherExtn x.2 end.
#[local] Instance extn_countable : Countable ExtnId.
Proof. apply (inj_countable' extn_code extn_decode). by intros []. Defined.
#[local] Instance extension_eq_dec : EqDecision Extension.
Proof. solve_decision. Defined.
#[local] Instance extension_countable : Countable Extension.
Proof. apply (inj_countable' (λ e, (extn_id e, critical e, extn_value e)) (λ x, mkExtension x.1.1 x.1.2 x.2)). by intros []. Defined.
#[local] Instance spki_eq_dec : EqDecision SubjectPublicKeyInfo.
Proof. solve_decision. Defined.
#[local] Instance spki_countable : Countable SubjectPublicKeyInfo.
Proof. apply (inj_countable' (λ i, (spki_algorithm i, subject_public_key i)) (λ x, mkSpki x.1 x.2)). by intros []. Defined.
#[local] Instance tbs_eq_dec : EqDecision (TbsCertificate string N).
Proof. solve_decision. Defined.
#[local] Instance tbs_countable : Countable (TbsCertificate string N).
Proof.
  apply (inj_countable' (λ t, (tbs_serial_number t, tbs_signature t, tbs_issuer t, tbs_validity t, tbs_subject t, subject_public_key_info t, extensions t))
    (λ x, match x with (a, b, c, d, e, f, g) => mkTbs a b c d e f g end)). by intros [].
Defined.
#[local] Instance toy_cert_eq_dec : EqDecision toy_cert.
Proof. solve_decision. Defined.
#[local] Instance toy_cert_countable : Countable toy_cert.
Proof. apply (inj_countable' (λ c, (toy_tbs c, toy_alg c, toy_sig c)) (λ x, mkToy x.1.1 x.1.2 x.2)). by intros []. Defined.

Fixpoint bits_of (p : positive) : list byte :=
  match p with xH => [] | xO p => x00 :: bits_of p | xI p => x01 :: bits_of p end.
Fixpoint of_bits (l : list byte) : positive :=
  match l with [] => xH | x00 :: l => xO (of_bits l) | _ :: l => xI (of_bits l) end.
Lemma of_bits_of p : of_bits (bits_of p) = p.
Proof. induction p as [p IH|p IH|]; cbn; [by rewrite IH..|done]. Qed.

(** A certificate with an extension of this identifier is not a CA's. *)
Definition LEAF : ExtnId := OtherExtn [x13].
Definition has_extn (id : ExtnId) (t : TbsCertificate string N) : bool :=
  existsb (λ e, bool_decide (extn_id e = id)) (default [] (extensions t)).

#[local, refine] Instance toy_x509 : X509 := {
  Validity := N;
  cert_of := mkToy;
  tbs_certificate := toy_tbs;
  tbs_to_der t := Some (toy_tbs_der t);
  spki_to_der i := Some (subject_public_key i);
  certificate_to_der c := Some (bits_of (encode c));
  certificate_from_der bs := decode (of_bits bs);
  serial_ok _ := true;
  bit_string_ok _ := true;
  octet_string_ok _ := true;
  basic_constraints t := Some (if has_extn LEAF t then Some false else None);
  dice_fwids v := Some (Some [v]);
}.
Proof.
  - done.
  - done.
  - done.
  - done.
  - intros c der [= <-]. by rewrite of_bits_of, decode_encode.
Defined.

(** ** A root and its child *)

Definition no_shown (e : KeyError) : string := "".
Definition minute : @Validity toy_pki toy_x509 := 60.
Definition named (name : string) : @Name toy_pki := name.
Definition ed_key (seed : list byte) : SigningKey := @SkEd toy_pki toy_ssh toy_keys seed.
Definition p256_key (seed : list byte) : SigningKey := @SkP256 toy_pki toy_ssh toy_keys seed.
Definition ed_alg : AlgorithmIdentifier := mkAlgorithm ID_ED_25519 None.
Definition blank : toy_cert := mkToy (mkTbs [] ed_alg "" 0 "" (mkSpki ed_alg []) None) ed_alg [].
Definition root_key : EphemeralKey := ok_default (mkEphemeralKey (ed_key []) (Newtype 0) blank)
  (new_root (ed_key [x01]) [x07] (named "CN=root") minute).
Definition child_of_root : result EphemeralKey KeyError :=
  new_child no_shown (p256_key [x02]) [x08] "CN=child" (cert_subject (ek_cert root_key)) 60 (ephemeral_signer no_shown root_key)
    (signature_algorithm (ek_key root_key)).
Definition child_key : EphemeralKey := ok_default root_key child_of_root.

Lemma root_made : new_root (ed_key [x01]) [x07] (named "CN=root") minute = Ok root_key.
Proof. apply is_ok_default. evaluate. Qed.
Lemma child_made : child_of_root = Ok child_key.
Proof. apply is_ok_default. evaluate. Qed.

Definition request0 : JobStartRequest := mkJobStartRequest (Newtype 1) (Newtype 2) "uptime" Batch TAll.

Lemma ephemeral_jobs_verify_witness :
  ∃ c job, certificates_new [ek_cert root_key; ek_cert child_key] = Ok c ∧ payload job = request0 ∧
    certs_verify c job = Ok (mkVerified job (ek_key_id child_key)).
Proof.
  destruct (ephemeral_jobs_verify no_shown no_shown (ed_key [x01]) [x07] (named "CN=root") minute root_key (p256_key [x02]) [x08] (named "CN=child") minute
    child_key root_made child_made) as (c&Hc&Hjobs&_).
  - discriminate.
  - assert (E : bool_decide (ek_key_id root_key = ek_key_id child_key) = false) by evaluate. by apply bool_decide_eq_false in E.
  - destruct (Hjobs child_key request0 (or_intror eq_refl)) as (job&_&Hp&Hv). exists c, job. split; [exact Hc|]. split; [exact Hp|exact Hv].
Defined.

(** ** A vouched proxy *)

Definition rot_seed : list byte := [x55].
Definition vouch (digest : list byte) : result (list byte) string := Ok (ed25519_to_bytes (ed25519_sign (PrivateKeys := toy_keys) rot_seed digest)).
Definition proxy_key : EphemeralKey :=
  ok_default root_key (new_vouched (ed_key [x09]) [x01] (named "CN=proxy") minute vouch).
Lemma proxy_made : new_vouched (ed_key [x09]) [x01] (named "CN=proxy") minute vouch = Ok proxy_key.
Proof. apply is_ok_default. evaluate. Qed.

(** The platform certificate of the root of trust. *)
Definition platform_cert : Certificate :=
  mkToy (mkTbs [x03] ed_alg "CN=idroot" 60 "CN=rot" (mkSpki ed_alg (ed25519_public (PrivateKeys := toy_keys) rot_seed))
    (Some [mkExtension LEAF true [x00]; mkExtension DICE_TCB_INFO false [x2a]])) ed_alg [].
Definition platform_der : list byte := default [] (certificate_to_der platform_cert).
Definition proxy_der : list byte := default [] (certificate_to_der (ek_cert proxy_key)).
Definition trust_platform (der : list byte) (rest : list (list byte)) : result () RustlsError :=
  if bool_decide (der = platform_der) then Ok () else Err (InnerError "unknown").
Definition no_inner (m c : list byte) (sc : SignatureScheme) (s : list byte) : result () RustlsError := Err (InnerError "").

Lemma vouched_proxy_accepted_witness :
  verify_server_cert trust_platform proxy_der [platform_der] = Ok ().
Proof.
  refine (proj1 (vouched_proxy_accepted trust_platform no_inner (ed_key [x09]) [x01] (named "CN=proxy") minute rot_seed proxy_key
    proxy_der platform_der platform_cert [] proxy_made eq_refl _ _ _ eq_refl)).
  - unfold trust_platform. by rewrite bool_decide_true.
  - apply certificate_der_roundtrip. done.
  - split; [evaluate|]. eexists _, _, _. split; evaluate.
Defined.

(** ** The chain of a server's anchor *)

Definition nl : Ascii.ascii := Ascii.ascii_of_N 10.
Definition one_line (s : string) : bool := all_chars (λ c, negb (Ascii.eqb c nl)) s.
Definition toy_pem (der : list byte) : option string :=
  let s := String.string_of_list_byte der in if one_line s then Some s else None.
Definition toy_load (s : string) : result (list Certificate) string :=
  ok_or (mapM (λ t, certificate_from_der (String.list_byte_of_string t)) (split_on nl s)) "malformed".

Lemma toy_pem_back (certs : list Certificate) ders pems :
  mapM certificate_to_der certs = Some ders → mapM toy_pem ders = Some pems →
  Forall (λ p, one_line p = true) pems ∧ mapM (λ t, certificate_from_der (String.list_byte_of_string t)) pems = Some certs.
Proof.
  rewrite !mapM_Some. intros Hd. revert pems. induction Hd as [|c der certs ders Hc _ IH]; intros pems Hp.
  - inversion Hp; subst. split; constructor.
  - inversion Hp as [|? p ? pems' Ep Hps]; subst. apply IH in Hps as [Hl Hback]. unfold toy_pem in Ep.
    destruct (one_line (String.string_of_list_byte der)) eqn:E; [|done]. injection Ep as <-. split; [by constructor|].
    constructor; [|done]. rewrite String.list_byte_of_string_of_list_byte. by apply certificate_der_roundtrip.
Qed.

Lemma split_concat pems :
  pems ≠ [] → Forall (λ p, one_line p = true) pems → split_on nl (String.concat newline pems) = pems.
Proof.
  induction pems as [|p pems IH]; [done|]. intros _ [Hp Hps]%Forall_cons. destruct pems as [|q pems]; [by apply split_on_without|].
  change (String.concat newline (p :: q :: pems)) with (p +:+ String nl (String.concat newline (q :: pems))).
  rewrite split_on_app by done. by rewrite IH.
Qed.

#[local, refine] Instance toy_pems : Pem := {
  pem_encode := toy_pem;
  certificate_from_pem bs := ok_or (certificate_from_der bs) "malformed";
  load_pem_chain := toy_load;
}.
Proof.
  intros certs ders pems Hne Hd Hp. destruct (toy_pem_back _ _ _ Hd Hp) as [Hl Hback].
  unfold toy_load. rewrite split_concat; [by rewrite Hback| |done]. intros ->. injection Hback as <-. done.
Defined.

(** A server with the root and its child for anchors, and its answer. *)
Definition anchored_certs : Certificates := ok_default (mkCertificates ∅) (certificates_new [ek_cert root_key; ek_cert child_key]).
Definition anchored_state : State :=
  mkState (rack_new version0 sled0) history_empty Inactive (lru_new MAX_PENDING_STARTS) ∅ anchored_certs (past_new 0 None 0) 0.
Definition anchored_world : World :=
  mkWorld sled0 version0 (λ _, anchored_state) ∅ true Settled (Newtype 5) (Newtype 6) (λ _, true) pem_cert_chain files0 dirs0.
Definition asker : option string := h ← head (rq_authorization list_sessions); h.
Definition chain_text : string := ok_default "" (pem_cert_chain [ek_cert root_key; ek_cert child_key]).
Definition shown_name (n : @Name toy_pki) : string := n.
Definition made (v : @Validity toy_pki toy_x509) : DateTime := 0%Z.
Definition valid_until (v : @Validity toy_pki toy_x509) : DateTime := Z.of_N v.

Lemma chain_inj {A E} (a b : list A) : Some (Ok (E := E) a) = Some (Ok b) → a = b.
Proof. congruence. Qed.

Lemma served_chain_verdict_witness :
  ∃ leaf shown, cert_chain made valid_until shown_name "" OfText 30%Z (ek_key_id child_key) chain_text [ek_cert root_key] = Ok (leaf, shown) ∧
    cert_chain made valid_until shown_name "" OfText 30%Z (ek_key_id child_key) chain_text [ek_cert child_key] = Err CeUntrustedRoot.
Proof.
  assert (Hh : ∃ h, handle_cert_chain anchored_world asker (ek_key_id child_key) = Some h ∧ h_response h = Ok (RespChain chain_text)).
  { eexists. split; evaluate. }
  destruct Hh as (h&Hh&Hr).
  assert (Hnew : certificates_new [ek_cert root_key; ek_cert child_key] = Ok anchored_certs) by (apply is_ok_default; evaluate).
  assert (Hnd : NoDup (key_id_of_cert <$> [ek_cert root_key; ek_cert child_key])).
  { assert (E : bool_decide (ek_key_id root_key = ek_key_id child_key) = false) by evaluate. apply bool_decide_eq_false in E.
    assert (E1 : key_id_of_cert (ek_cert root_key) = Ok (ek_key_id root_key)) by evaluate.
    assert (E2 : key_id_of_cert (ek_cert child_key) = Ok (ek_key_id child_key)) by evaluate.
    cbn [fmap list_fmap]. rewrite E1, E2. apply NoDup_cons. split; [|apply NoDup_singleton]. rewrite list_elem_of_singleton. congruence. }
  assert (Hk : anchors anchored_certs !! ek_key_id child_key = Some (ek_cert child_key, Some (ek_key_id root_key))) by evaluate.
  assert (Hc : chain anchored_certs (ek_key_id child_key) = Some (Ok [ek_cert root_key; ek_cert child_key])) by evaluate.
  assert (Hv := λ roots, served_chain_verdict made valid_until shown_name "" anchored_world asker [ek_cert root_key; ek_cert child_key]
    (ek_key_id child_key) (ek_cert child_key) (Some (ek_key_id root_key)) h chain_text OfText 30%Z roots Hnew Hnd Hk eq_refl Hh Hr).
  cbn [w_states anchored_world anchored_state st_certs] in Hv.
  exists (ek_cert child_key), (chain_shown shown_name OfText chain_text [ek_cert root_key] [ek_cert root_key; ek_cert child_key]). split.
  - destruct (Hv [ek_cert root_key]) as (r&rest&E&_&_&->). rewrite Hc in E. apply chain_inj, cons_inv in E as [<- <-].
    assert (Et : bool_decide (ek_cert root_key ∉ [ek_cert root_key]) = false) by evaluate.
    assert (Ed : find_first (λ c, negb (in_date made valid_until 30%Z c)) [ek_cert root_key; ek_cert child_key] = None) by evaluate.
    rewrite Et, Ed, andb_false_r. reflexivity.
  - destruct (Hv [ek_cert child_key]) as (r&rest&E&_&_&->). rewrite Hc in E. apply chain_inj, cons_inv in E as [<- <-].
    assert (Et : bool_decide (ek_cert root_key ∉ [ek_cert child_key]) = true) by evaluate. rewrite Et. reflexivity.
Defined.
